(* ===== verification/_CoqProject ===== *)
-Q . S2P
Prelude.v
GoStrings.v
PtcpTypes.v
PtcpSession.v
SendPath.v
ConnRead.v
ConnWrite.v
TunnelState.v
TunnelRealms.v
TunnelStreams.v
TunnelHealth.v
TunnelApi.v
Client.v
Manager.v
ManagerInv.v
ManagerThm.v
GoText.v
TextLemmas.v
Config.v
DhProtocol.v
DhProtocolThm.v
DhCrypto.v
DhCryptoThm.v
Handshake.v
HandshakeThm.v
HandshakeAuth.v
Connect.v
Rtsp.v
RtspThm.v
CopyBoth.v
Bridge.v
BridgeInv.v
BridgeThm.v
