(* ===== verification/Prelude.v ===== *)
(** * Dahua P2P: a verification of the tunnel, its protocols and its bridge

    The program (Go, under [src/]) reaches a Dahua camera behind NAT and exposes its
    RTSP service on a local port.  A handshake with Dahua's cloud and the device
    ([dh/]) yields a UDP socket with an authenticated PTCP session ([ptcp/]); a tunnel
    ([tunnel/]) multiplexes realms, which are byte streams to ports of the device, over
    that session; clients and a session manager ([dahua.go]) share tunnels; the command
    ([cmd/dahua-p2p]) accepts RTSP connections and forwards each over a realm.  Packets
    flow from a realm's [Write] through the send path and the session to the socket, and
    from the socket through the reader to the realm's [Read].

    ** The files

    Shared: this file has results with errors and panics ([result]), machine integers
    ([u32], [i32]), bytes and big-endian numbers, slices with Go's bounds checks, the
    tactics [word_lia], [bytes_lia], [settle], [decide_guards] and the hint database
    [word].  [GoStrings], [GoText] and [TextLemmas] model what the program uses of
    [strings] and [strconv], on byte lists.

    - [PtcpTypes] ([ptcp/types.go]): headers, bodies, packets; serialisers and parsers.
    - [PtcpSession] ([ptcp/session.go]): the counters; two sessions on a lossy link refine
      unbounded counters ([Counters], [link_refinement]).
    - [SendPath] ([sendPacketFor], [acquireSendPermit], [interruptWrite], [signalClosed],
      [SetWriteDeadline] of [tunnel/tunnel.go]): senders, closers and deadline changes
      interleaved at the granularity of channel operations and socket calls.
    - [ConnRead], [ConnWrite]: [Read] and [Write] of a connection, interleaved.
    - [TunnelState] ([tunnel/tunnel.go]): the tunnel as an interleaving system of its
      reader, heartbeat, acknowledgement flushes and any number of [Dial], [Conn.Close],
      [Close] and [Write] calls, with [mu], [dialMu], [ackMu] and [sendPermit], where each
      of them waits; [TunnelRealms], [TunnelStreams] and [TunnelHealth] prove its
      invariants; [TunnelApi] is the class of what clients rely on, with the tunnel as
      its instance.
    - [Client] ([Client.Dial] in [dahua.go]): calls that give up on a failing tunnel, over
      the system of [TunnelState].
    - [Manager], [ManagerInv], [ManagerThm] ([SessionManager] in [dahua.go]): over any
      tunnels that keep [TunnelApi].
    - [DhProtocol], [DhProtocolThm] ([dh/protocol.go]): responses, XML bodies, requests,
      addresses, identifiers.
    - [DhCrypto], [DhCryptoThm] ([dh/crypto.go]): base64, output feedback mode, PBKDF2,
      encrypted addresses, device information.
    - [Handshake] ([dh/handshake.go] and the UDP client of [dh/protocol.go]): the twelve
      steps in a state and error monad over the answers of the network; [HandshakeThm]
      has the ledger of sockets, [HandshakeAuth] what success means, [Connect] the client
      that results.
    - [Rtsp], [RtspThm] ([cmd/dahua-p2p/proxy.go]): the copying of messages and the
      negotiation loop over any reader and any writer ([ByteWriter]); [CopyBoth]: the two
      copies that follow, interleaved, and the session as a whole.
    - [Config] ([loadConfig] in [cmd/dahua-p2p/main.go]); [Bridge], [BridgeInv],
      [BridgeThm] ([serve], [handle], [openRealm], [shutdown] there and the negotiation
      lock in [dahua.go]) as an interleaving system.

    ** How the code is modelled

    Pure functions are functions; fallible ones return [result] or a sum.  Sequential code
    with effects is the monad of [Handshake]: a list of answers stands for the network,
    the resolver and the random numbers, and the theorems hold for every list.
    Goroutines are program counters in a shared state, one [*_step] function per
    goroutine gives its next atomic action and [None] where it would block, and a run is
    a list of events chosen by the scheduler, the network, the users and the clock; a
    theorem about [*_reachable] states holds of every interleaving.  Fields marked ghost
    record history and steer nothing.  Times are in milliseconds where a file says
    nothing else.  Definitions keep the source's names; [PROJECT.json] maps each to its
    lines.

    ** What the theorems show

    - wire formats: packets, responses, addresses and encrypted addresses are read back as
      written; every malformed datagram gets its error; the XML loop and PBKDF2 equal
      their reference definitions;
    - counters: 32-bit sessions refine unbounded ones over a lossy link; datagrams reach
      the socket in the order of their counters;
    - streams: what [Read] returns is what the device sent to the realm, without holes;
      [Write] reports exactly what it put on the wire; RTSP messages are forwarded whole
      and unchanged, and so is what follows them;
    - life cycles: no copy of a session is left behind; [Close] runs once, wakes every
      connection whose realm id was not drawn twice, and fires the callback once; [Dial]
      ends; [Close] and the reader wait for nothing but writes to the socket; a failing
      tunnel is given up; the manager leaks no tunnel and keeps its capacities; the bridge
      keeps its limits, serialises negotiations and shuts down; the handshake closes its
      sockets on every path, and succeeds only with servers that were named to it and a
      device that acknowledged the sign, and the tunnel goes on with its session;
    - health: acknowledgements are coalesced and none is lost on an open tunnel, the stall
      detector and the error thresholds do what they say.

    Theorems that are properties of the program carry a number (C1, C2, ...).  A theorem
    with a hypothesis has a witness, [*_witness], that applies it to a concrete run.

    ** Bounds and fuel

    Recursion is structural but for [writeAll], [CopyN], the header and proxy loops of
    [Rtsp], [Split] and output feedback mode, which take fuel: the length of the input,
    enough because every round consumes a byte ([rtsp_copy_exact] and [proxy_transparent]
    include that it never runs out).  The loops over datagrams recur on the list of
    answers.  Numbers of iterations that the code fixes (three dial attempts, five reads
    for the sign, 20000 rounds of PBKDF2) are those of the code.

    ** Not modelled

    - logging, tracing, [Body.String], [RemoteAddr] and [LocalAddr]: text for people;
    - [reportLoss]: it only logs;
    - [flag.Parse], signals and [main]: their outcomes are inputs of the model;
    - MD5, SHA-1, HMAC-SHA-256, AES, the XML and JSON decoders and the IPv6 parser: they are
      arguments, with their output lengths as hypotheses where a theorem needs them;
    - the time a write to the socket takes: it is a step, which the scheduler may put off;
      the redrawing of a random realm id that is in use: the draw is a choice among those
      that are not; [Release] of a reference that is not out: callers release what they acquired, once;
    - the waits inside a tunnel's [Close] as seen from [Bridge] and [Manager], where it is
      one step, and the moments between two looks of [findAvailableSession] at a tunnel;
    - memory limits, and real time other than as events that let it pass. *)

From Stdlib Require Import ZArith Lia Strings.Byte.
From coqutil Require Export Datatypes.RecordSettersUsingExistingGetters.
From stdpp Require Export base tactics numbers strings list gmap.

#[global] Arguments RecordSettersUsingExistingGetters.const {E} newValue _ /.

#[global] Open Scope Z_scope.

(** ** Results: Go's [(value, error)] pairs, and run-time panics *)

Inductive result (E A : Type) : Type :=
| Ok (a : A)
| Err (e : E)
| Panic.
Arguments Ok {E A} a.
Arguments Err {E A} e.
Arguments Panic {E A}.

#[export] Instance result_eq_dec {E A} `{EqDecision E, EqDecision A} : EqDecision (result E A).
Proof. solve_decision. Defined.

Definition result_bind {E A B} (m : result E A) (k : A → result E B) : result E B :=
  match m with Ok a => k a | Err e => Err e | Panic => Panic end.

Declare Scope go_scope.
Delimit Scope go_scope with go.
#[global] Open Scope go_scope.

(** [x <-? m; k] is Go's [x, err := m; if err != nil { return nil, err }; k]. *)
Notation "x <-? m ; k" := (result_bind m (λ x, k))
  (at level 20, m at level 100, k at level 200, right associativity) : go_scope.

Lemma result_bind_Ok {E A B} (m : result E A) (k : A → result E B) (b : B) :
  result_bind m k = Ok b ↔ ∃ a, m = Ok a ∧ k a = Ok b.
Proof.
  destruct m; simpl; split; try done; eauto; by intros (? & [= ->] & ?).
Qed.

(** ** Machine integers *)

(** [uint32(x)], [byte(x)] and [int32(x)] for an integer [x]. *)
Definition u32 (x : Z) : Z := x `mod` 2 ^ 32.
Definition u8 (x : Z) : Z := x `mod` 2 ^ 8.
Definition i32 (x : Z) : Z := (x + 2 ^ 31) `mod` 2 ^ 32 - 2 ^ 31.

Definition is_u32 (x : Z) : Prop := 0 ≤ x < 2 ^ 32.

#[export] Instance is_u32_dec x : Decision (is_u32 x).
Proof. unfold is_u32. apply _. Defined.

(** The development's arithmetic tactic: [lia] after the wrap-arounds and the
    divisions by constants have been turned into linear equations. *)
Ltac word_lia :=
  unfold is_u32, u32, u8, i32 in *;
  change (2 ^ 32) with 4294967296 in *; change (2 ^ 31) with 2147483648 in *;
  change (2 ^ 24) with 16777216 in *; change (2 ^ 16) with 65536 in *;
  change (2 ^ 8) with 256 in *;
  Z.div_mod_to_equations; lia.

(** Deciding the guards of the code from the hypotheses: each [if decide P] in
    the goal whose [P] is settled by arithmetic or congruence is reduced. *)
Ltac settle := solve [done | lia | congruence | word_lia].
Ltac decide_guards :=
  repeat match goal with
  | |- context [decide ?P] =>
      first [rewrite (decide_True (P:=P)) by settle | rewrite (decide_False (P:=P)) by settle]
  end.

Lemma u32_range x : is_u32 (u32 x).
Proof. word_lia. Qed.

Lemma u32_small x : is_u32 x → u32 x = x.
Proof. intros. word_lia. Qed.

Lemma u32_idemp x : u32 (u32 x) = u32 x.
Proof. apply u32_small, u32_range. Qed.

Lemma u32_add_l x y : u32 (u32 x + y) = u32 (x + y).
Proof. unfold u32. apply Z.add_mod_idemp_l. lia. Qed.

Lemma u32_add_r x y : u32 (x + u32 y) = u32 (x + y).
Proof. unfold u32. apply Z.add_mod_idemp_r. lia. Qed.

Lemma u32_sub x y : u32 (u32 x - u32 y) = u32 (x - y).
Proof. unfold u32. symmetry. apply Zminus_mod. Qed.

Create HintDb word.
Create Rewrite HintDb word.
#[export] Hint Resolve u32_range : word.
#[export] Hint Rewrite u32_idemp u32_add_l u32_add_r u32_sub : word.

(** ** Bytes and [encoding/binary] *)

Abbreviation bytes := (list byte).

#[export] Instance byte_eq_decision : EqDecision byte := byte_eq_dec.

Definition b2z (b : byte) : Z := Z.of_N (Byte.to_N b).
Definition z2b (z : Z) : byte := default x00 (Byte.of_N (Z.to_N (u8 z))).

(** A Go string or [[]byte] literal. *)
Definition lit (s : string) : bytes := String.list_byte_of_string s.

Lemma b2z_range b : 0 ≤ b2z b < 2 ^ 8.
Proof. unfold b2z. pose proof (Byte.to_N_bounded b). lia. Qed.

Lemma b2z_z2b z : b2z (z2b z) = u8 z.
Proof.
  unfold b2z, z2b. assert (0 ≤ u8 z < 256) by word_lia.
  destruct (Byte.of_N (Z.to_N (u8 z))) as [b|] eqn:E; simpl.
  - apply Byte.to_of_N in E. lia.
  - apply Byte.of_N_None_iff in E. lia.
Qed.

Lemma b2z_inj b c : b2z b = b2z c → b = c.
Proof.
  unfold b2z. intros H. apply N2Z.inj in H.
  pose proof (Byte.of_to_N b). pose proof (Byte.of_to_N c). congruence.
Qed.

Lemma z2b_b2z b : z2b (b2z b) = b.
Proof. apply b2z_inj. rewrite b2z_z2b. pose proof (b2z_range b). word_lia. Qed.

(** Equality of explicit byte lists, byte by byte as arithmetic. *)
Ltac bytes_lia :=
  repeat first
    [ reflexivity
    | apply (f_equal2 (@cons byte)); [apply b2z_inj; rewrite ?b2z_z2b; word_lia|] ].

(** [binary.BigEndian.PutUint32] and [Uint32], with the shifts Go uses. *)
Definition put_be32 (v : Z) : bytes :=
  [z2b (v ≫ 24); z2b (v ≫ 16); z2b (v ≫ 8); z2b v].

Definition get_be32 (b : bytes) : Z :=
  match b with
  | [b0; b1; b2; b3] =>
      Z.lor (Z.lor (Z.lor (b2z b3) (b2z b2 ≪ 8)) (b2z b1 ≪ 16)) (b2z b0 ≪ 24)
  | _ => 0
  end.

Lemma lor_shiftl_add a b k : 0 ≤ k → 0 ≤ a < 2 ^ k → Z.lor a (b ≪ k) = a + b * 2 ^ k.
Proof.
  intros Hk Ha. rewrite <- Z.add_nocarry_lor; [by rewrite Z.shiftl_mul_pow2|].
  apply Z.bits_inj'. intros i Hi. rewrite Z.land_spec, Z.bits_0.
  destruct (decide (i < k)).
  - rewrite Z.shiftl_spec_low by lia. by rewrite andb_false_r.
  - rewrite (proj1 (Z.bounded_iff_bits_nonneg k a Hk (proj1 Ha)) (proj2 Ha)); [done|lia].
Qed.

(** The value of a big-endian quadruple, as arithmetic. *)
Lemma get_be32_sum b0 b1 b2 b3 :
  get_be32 [b0; b1; b2; b3] = b2z b3 + b2z b2 * 2 ^ 8 + b2z b1 * 2 ^ 16 + b2z b0 * 2 ^ 24.
Proof.
  pose proof (b2z_range b0). pose proof (b2z_range b1).
  pose proof (b2z_range b2). pose proof (b2z_range b3).
  unfold get_be32. rewrite (lor_shiftl_add (b2z b3)) by lia.
  by rewrite !(lor_shiftl_add (_ + _)) by lia.
Qed.

Lemma length_put_be32 v : length (put_be32 v) = 4%nat.
Proof. done. Qed.

Lemma get_be32_range b : is_u32 (get_be32 b).
Proof.
  assert (is_u32 0) as H0 by word_lia.
  destruct b as [|b0 [|b1 [|b2 [|b3 [|? ?]]]]]; try exact H0. clear H0.
  rewrite get_be32_sum.
  pose proof (b2z_range b0). pose proof (b2z_range b1).
  pose proof (b2z_range b2). pose proof (b2z_range b3). word_lia.
Qed.

Lemma get_put_be32 v : get_be32 (put_be32 v) = u32 v.
Proof.
  unfold put_be32. rewrite get_be32_sum, !b2z_z2b, !Z.shiftr_div_pow2 by lia. word_lia.
Qed.

Lemma put_get_be32 b : length b = 4%nat → put_be32 (get_be32 b) = b.
Proof.
  destruct b as [|b0 [|b1 [|b2 [|b3 [|? ?]]]]]; try done. intros _.
  rewrite get_be32_sum. unfold put_be32. rewrite !Z.shiftr_div_pow2 by lia.
  pose proof (b2z_range b0). pose proof (b2z_range b1).
  pose proof (b2z_range b2). pose proof (b2z_range b3).
  bytes_lia.
Qed.

#[export] Hint Resolve get_be32_range b2z_range : word.
#[export] Hint Rewrite get_put_be32 b2z_z2b z2b_b2z : word.

(** ** Slices *)

Section Slices.
Context {A : Type}.
Implicit Types (l buf src : list A) (lo hi n : nat).

(** [l[lo:hi]] for [lo <= hi <= len(l)]. *)
Definition slice lo hi l : list A := take (hi - lo) (drop lo l).

(** [copy(buf[off:], src)]: overwrites [buf] from [off], never past its end. *)
Definition copy_at (off : nat) src buf : list A :=
  let n := Nat.min (length src) (length buf - off) in
  take off buf ++ take n src ++ drop (off + n) buf.

(** The same accesses as the compiler emits them: an index out of range is a
    run-time panic. (Go bounds the high end of [l[lo:hi]] by the capacity; the
    model uses the length, which is never larger, so a program that does not
    panic here does not panic there.) *)
Definition go_slice {E} lo hi l : result E (list A) :=
  if decide (lo ≤ hi ≤ length l)%nat then Ok (slice lo hi l) else Panic.
Definition go_slice_from {E} lo l : result E (list A) := go_slice lo (length l) l.
Definition go_index {E} (i : nat) l : result E A :=
  match l !! i with Some x => Ok x | None => Panic end.

Lemma go_slice_Ok {E} lo hi l :
  (lo ≤ hi ≤ length l)%nat → go_slice (E:=E) lo hi l = Ok (slice lo hi l).
Proof. intros. unfold go_slice. by rewrite decide_True by done. Qed.

Lemma slice_from l lo : slice lo (length l) l = drop lo l.
Proof. unfold slice. apply take_ge. rewrite length_drop. lia. Qed.

Lemma go_slice_from_Ok {E} lo l :
  (lo ≤ length l)%nat → go_slice_from (E:=E) lo l = Ok (drop lo l).
Proof. intros. unfold go_slice_from. by rewrite go_slice_Ok, slice_from by lia. Qed.

Lemma length_slice lo hi l : (lo ≤ hi ≤ length l)%nat → length (slice lo hi l) = (hi - lo)%nat.
Proof. intros. unfold slice. rewrite length_take, length_drop. lia. Qed.

Lemma length_copy_at off src buf : (off ≤ length buf)%nat → length (copy_at off src buf) = length buf.
Proof.
  intros. unfold copy_at. rewrite !length_app, !length_take, length_drop. lia.
Qed.

(** Copying exactly into the tail of a buffer. *)
Lemma copy_at_tail off src buf :
  length buf = (off + length src)%nat → copy_at off src buf = take off buf ++ src.
Proof.
  intros H. unfold copy_at. rewrite H.
  replace (Nat.min (length src) (off + length src - off)) with (length src) by lia.
  rewrite firstn_all, drop_ge by lia. by rewrite app_nil_r.
Qed.

(** A slice of a concatenation that lies in its first or second part. *)
Lemma slice_app_l lo hi l k :
  (lo ≤ hi ≤ length l)%nat → slice lo hi (l ++ k) = slice lo hi l.
Proof.
  intros. unfold slice. rewrite drop_app_le by lia.
  by rewrite take_app_le by (rewrite length_drop; lia).
Qed.

Lemma slice_app_r lo hi l k :
  (length l ≤ lo)%nat → slice lo hi (l ++ k) = slice (lo - length l) (hi - length l) k.
Proof.
  intros. unfold slice. rewrite drop_app_ge by lia. f_equal. lia.
Qed.

Lemma slice_all l : slice 0 (length l) l = l.
Proof. unfold slice. rewrite drop_0, Nat.sub_0_r. apply firstn_all. Qed.
End Slices.

(** [make([]byte, n)]. *)
Definition make_bytes (n : nat) : bytes := replicate n x00.

(** ** Maps *)

Lemma alter_at {K V} `{Countable K} (f : V → V) (i : K) (x : V) (h : gmap K V) :
  h !! i = Some x → alter f i h = <[i := f x]> h.
Proof.
  intros Hx. apply map_eq. intros j. destruct (decide (i = j)) as [<-|Hne].
  - by rewrite lookup_alter_eq, lookup_insert_eq, Hx.
  - by rewrite lookup_alter_ne, lookup_insert_ne.
Qed.
