(* ===== verification/GoStrings.v ===== *)
(** * The parts of Go's [strings] package the program uses, on byte strings *)

From Stdlib Require Import ZArith Lia Strings.Byte.
From S2P Require Import Prelude.

Section Trim.
Context (cut : byte → bool).

Fixpoint trim_left (s : bytes) : bytes :=
  match s with
  | [] => []
  | c :: s' => if cut c then trim_left s' else s
  end.

(** [strings.TrimRight(s, cutset)] for a cutset of ASCII characters. *)
Definition TrimRight (s : bytes) : bytes := reverse (trim_left (reverse s)).

Lemma trim_left_suffix s : ∃ p, s = p ++ trim_left s ∧ Forall (λ c, cut c = true) p.
Proof.
  induction s as [|c s (p & Hp & Hall)]; simpl; [by exists []|].
  destruct (cut c) eqn:E; [|by exists []].
  exists (c :: p). split; [simpl; congruence|by constructor].
Qed.

(** What is cut off is a run of cutset characters at the end. *)
Lemma TrimRight_prefix s :
  ∃ p, s = TrimRight s ++ p ∧ Forall (λ c, cut c = true) p.
Proof.
  destruct (trim_left_suffix (reverse s)) as (p & Hp & Hall).
  exists (reverse p). split; [|by apply Forall_reverse].
  unfold TrimRight. rewrite <- reverse_app, <- Hp. by rewrite reverse_involutive.
Qed.

Lemma trim_left_head s c s' : trim_left s = c :: s' → cut c = false.
Proof.
  induction s as [|d s IH]; simpl; [done|].
  destruct (cut d) eqn:E; [done|]. by intros [= -> _].
Qed.

Lemma TrimRight_last s c : last (TrimRight s) = Some c → cut c = false.
Proof.
  unfold TrimRight. destruct (trim_left (reverse s)) as [|d l] eqn:E; [done|].
  rewrite reverse_cons, last_snoc. intros [= <-]. eauto using trim_left_head.
Qed.

Lemma trim_left_id s : (∀ c s', s = c :: s' → cut c = false) → trim_left s = s.
Proof. destruct s as [|c s]; simpl; [done|]. intros H. by rewrite (H c s). Qed.

Lemma trim_left_app p s :
  Forall (λ c, cut c = true) p → trim_left (p ++ s) = trim_left s.
Proof. induction 1 as [|c p Hc _ IH]; simpl; [done|]. by rewrite Hc. Qed.

(** The string that does not end in a cutset character is recovered from any
    padding with such characters. *)
Lemma TrimRight_app s p :
  (∀ c, last s = Some c → cut c = false) → Forall (λ c, cut c = true) p →
  TrimRight (s ++ p) = s.
Proof.
  intros Hs Hp. unfold TrimRight.
  rewrite reverse_app, trim_left_app by (by apply Forall_reverse).
  rewrite trim_left_id; [apply reverse_involutive|].
  intros c s' E. apply Hs. rewrite <- (reverse_involutive s), E.
  by rewrite reverse_cons, last_snoc.
Qed.

Lemma TrimRight_id s : (∀ c, last s = Some c → cut c = false) → TrimRight s = s.
Proof. intros. rewrite <- (app_nil_r s) at 1. by apply TrimRight_app. Qed.

Lemma length_TrimRight s : (length (TrimRight s) ≤ length s)%nat.
Proof.
  destruct (TrimRight_prefix s) as (p & Hp & _).
  apply (f_equal length) in Hp. rewrite length_app in Hp. lia.
Qed.
End Trim.
