(* ===== verification/PtcpTypes.v ===== *)
(** * PTCP packets: [src/ptcp/types.go]

    The wire format of a PTCP datagram: a 24-byte header of five big-endian
    counters, then a body of one of seven kinds.  [Serialize] and [Parse*] are
    translated with the buffers they write and the bounds they check; an index
    out of range is [Panic]. *)

From Stdlib Require Import ZArith Lia Strings.Byte.
From S2P Require Import Prelude GoStrings.

Definition Magic : bytes := Eval vm_compute in lit "PTCP".

Definition TypeSync : byte := x00.
Definition TypePayload : byte := x10.
Definition TypeBind : byte := x11.
Definition TypeStatus : byte := x12.
Definition TypeHeartbeat : byte := x13.

Definition StatusConnect : bytes := Eval vm_compute in lit "CONN".
Definition StatusDisconnect : bytes := Eval vm_compute in lit "DISC".

Inductive PtcpError :=
| ErrInvalidMagic | ErrPacketTooShort | ErrInvalidPadding | ErrInvalidLength | ErrInvalidBodyType.

#[export] Instance PtcpError_eq_dec : EqDecision PtcpError.
Proof. solve_decision. Defined.

(** ** Header *)

Record Header := mkHeader { Sent : Z; Recv : Z; PID : Z; LMID : Z; RMID : Z }.

#[export] Instance Header_eq_dec : EqDecision Header.
Proof. solve_decision. Defined.

Definition HeaderSize : nat := 24.

Definition Header_Serialize (h : Header) : bytes :=
  let buf := make_bytes HeaderSize in
  let buf := copy_at 0 Magic buf in
  let buf := copy_at 4 (put_be32 (Sent h)) buf in
  let buf := copy_at 8 (put_be32 (Recv h)) buf in
  let buf := copy_at 12 (put_be32 (PID h)) buf in
  let buf := copy_at 16 (put_be32 (LMID h)) buf in
  copy_at 20 (put_be32 (RMID h)) buf.

Definition go_be32 (lo hi : nat) (data : bytes) : result PtcpError Z :=
  b <-? go_slice lo hi data; Ok (get_be32 b).

Definition ParseHeader (data : bytes) : result PtcpError Header :=
  if decide (length data < HeaderSize)%nat then Err ErrPacketTooShort else
  magic <-? go_slice 0 4 data;
  if decide (magic ≠ Magic) then Err ErrInvalidMagic else
  sent <-? go_be32 4 8 data;
  recv <-? go_be32 8 12 data;
  pid <-? go_be32 12 16 data;
  lmid <-? go_be32 16 20 data;
  rmid <-? go_be32 20 24 data;
  Ok (mkHeader sent recv pid lmid rmid).

(** ** Body *)

Inductive BodyType :=
| BodyTypeEmpty | BodyTypeSync | BodyTypeCommand | BodyTypePayload
| BodyTypeBind | BodyTypeStatus | BodyTypeHeartbeat.

#[export] Instance BodyType_eq_dec : EqDecision BodyType.
Proof. solve_decision. Defined.

(** Go's [Body] struct: every field is present whatever the type, and a
    constructor leaves the ones it does not name at their zero value. *)
Record Body := mkBody {
  BType : BodyType; Realm : Z; Data : bytes; Status : bytes; Port : Z; Command : bytes }.

#[export] Instance Body_eq_dec : EqDecision Body.
Proof. solve_decision. Defined.

Definition zeroBody (t : BodyType) : Body := mkBody t 0 [] [] 0 [].

Definition NewEmptyBody : Body := zeroBody BodyTypeEmpty.
Definition NewSyncBody : Body := zeroBody BodyTypeSync.
Definition NewHeartbeatBody : Body := zeroBody BodyTypeHeartbeat.
Definition NewPayloadBody (realm : Z) (data : bytes) : Body :=
  mkBody BodyTypePayload realm data [] 0 [].
Definition NewBindBody (realm port : Z) : Body :=
  mkBody BodyTypeBind realm [] [] port [].
Definition NewStatusBody (realm : Z) (status : bytes) : Body :=
  mkBody BodyTypeStatus realm [] status 0 [].
Definition NewCommandBody (command : bytes) : Body :=
  mkBody BodyTypeCommand 0 [] [] 0 command.

Definition Body_Len (b : Body) : Z :=
  match BType b with
  | BodyTypeEmpty => 0
  | BodyTypeSync => 4
  | BodyTypeCommand => Z.of_nat (length (Command b))
  | BodyTypePayload => Z.of_nat (length (Data b)) + 12
  | BodyTypeBind => 20
  | BodyTypeStatus => Z.of_nat (length (Status b)) + 12
  | BodyTypeHeartbeat => 12
  end.

Definition Body_Serialize (b : Body) : bytes :=
  match BType b with
  | BodyTypeEmpty => []
  | BodyTypeSync => [x00; x03; x01; x00]
  | BodyTypeCommand => Command b
  | BodyTypePayload =>
      let length' := u32 (Z.of_nat (length (Data b))) in
      let header := Z.lor 0x10000000 length' in
      let buf := make_bytes (12 + length (Data b)) in
      let buf := copy_at 0 (put_be32 header) buf in
      let buf := copy_at 4 (put_be32 (Realm b)) buf in
      let buf := copy_at 8 (put_be32 0) buf in
      copy_at 12 (Data b) buf
  | BodyTypeBind =>
      let buf := make_bytes 20 in
      let dataLen := 8 in
      let buf := copy_at 0 (put_be32 (Z.lor (u32 (b2z TypeBind ≪ 24)) dataLen)) buf in
      let buf := copy_at 4 (put_be32 (Realm b)) buf in
      let buf := copy_at 12 (put_be32 (Port b)) buf in
      copy_at 16 [x7f; x00; x00; x01] buf
  | BodyTypeStatus =>
      let buf := make_bytes (12 + length (Status b)) in
      let dataLen := u32 (Z.of_nat (length (Status b))) in
      let buf := copy_at 0 (put_be32 (Z.lor (u32 (b2z TypeStatus ≪ 24)) dataLen)) buf in
      let buf := copy_at 4 (put_be32 (Realm b)) buf in
      copy_at 12 (Status b) buf
  | BodyTypeHeartbeat =>
      let buf := make_bytes 12 in
      copy_at 0 [TypeHeartbeat] buf
  end.

Definition is_nul (c : byte) : bool := Byte.eqb c x00.

Definition ParseBody (data : bytes) : result PtcpError Body :=
  if decide (length data = 0)%nat then Ok NewEmptyBody else
  if decide (length data < 4)%nat then Err ErrPacketTooShort else
  b0 <-? go_index 0 data;
  if decide (b0 = TypeSync) then Ok NewSyncBody
  else if decide (b0 = TypePayload) then
    if decide (length data < 12)%nat then Err ErrPacketTooShort else
    header <-? go_be32 0 4 data;
    let length' := Z.land header 0xFFFFFF in
    realm <-? go_be32 4 8 data;
    padding <-? go_be32 8 12 data;
    if decide (padding ≠ 0) then Err ErrInvalidPadding else
    payloadData <-? go_slice_from 12 data;
    if decide (u32 (Z.of_nat (length payloadData)) ≠ length') then Err ErrInvalidLength else
    Ok (NewPayloadBody realm payloadData)
  else if decide (b0 = TypeBind) then
    if decide (length data < 16)%nat then Err ErrPacketTooShort else
    realm <-? go_be32 4 8 data;
    port <-? go_be32 12 16 data;
    Ok (NewBindBody realm port)
  else if decide (b0 = TypeStatus) then
    if decide (length data < 12)%nat then Err ErrPacketTooShort else
    realm <-? go_be32 4 8 data;
    rest <-? go_slice_from 12 data;
    Ok (NewStatusBody realm (TrimRight is_nul rest))
  else if decide (b0 = TypeHeartbeat) then Ok NewHeartbeatBody
  else Ok (NewCommandBody data).

(** ** Packet *)

Record Packet := mkPacket { PHeader : Header; PBody : Body }.

#[export] Instance Packet_eq_dec : EqDecision Packet.
Proof. solve_decision. Defined.

Definition NewPacket (header : Header) (body : Body) : Packet := mkPacket header body.

Definition Packet_Serialize (p : Packet) : bytes :=
  let headerBytes := Header_Serialize (PHeader p) in
  let bodyBytes := Body_Serialize (PBody p) in
  let result := make_bytes (length headerBytes + length bodyBytes) in
  let result := copy_at 0 headerBytes result in
  copy_at (length headerBytes) bodyBytes result.

Definition ParsePacket (data : bytes) : result PtcpError Packet :=
  header <-? ParseHeader data;
  rest <-? go_slice_from HeaderSize data;
  body <-? ParseBody rest;
  Ok (NewPacket header body).

(** ** Layout: what the buffer writes amount to *)

Lemma Header_Serialize_layout h :
  Header_Serialize h =
  Magic ++ put_be32 (Sent h) ++ put_be32 (Recv h) ++ put_be32 (PID h)
        ++ put_be32 (LMID h) ++ put_be32 (RMID h).
Proof. reflexivity. Qed.

Lemma length_Header_Serialize h : length (Header_Serialize h) = HeaderSize.
Proof. reflexivity. Qed.

(** The three kinds of body that carry a type/length word, a realm and data. *)
Lemma tagged_layout w0 realm w2 (d : bytes) :
  copy_at 12 d (copy_at 8 (put_be32 w2) (copy_at 4 (put_be32 realm)
    (copy_at 0 (put_be32 w0) (make_bytes (12 + length d))))) =
  put_be32 w0 ++ put_be32 realm ++ put_be32 w2 ++ d.
Proof.
  unfold make_bytes. rewrite replicate_add. rewrite copy_at_tail; [done|].
  cbn. by rewrite drop_0, length_replicate.
Qed.

(** The same without the explicit padding write: the buffer is zero there. *)
Lemma tagged_layout_zero w0 realm (d : bytes) :
  copy_at 12 d (copy_at 4 (put_be32 realm) (copy_at 0 (put_be32 w0) (make_bytes (12 + length d)))) =
  put_be32 w0 ++ put_be32 realm ++ put_be32 0 ++ d.
Proof. rewrite <- tagged_layout. reflexivity. Qed.

Lemma Payload_layout realm d :
  Body_Serialize (NewPayloadBody realm d) =
  put_be32 (Z.lor 0x10000000 (u32 (Z.of_nat (length d)))) ++ put_be32 realm ++ put_be32 0 ++ d.
Proof. apply tagged_layout. Qed.

Lemma Status_layout realm st :
  Body_Serialize (NewStatusBody realm st) =
  put_be32 (Z.lor 0x12000000 (u32 (Z.of_nat (length st)))) ++ put_be32 realm ++ put_be32 0 ++ st.
Proof. apply tagged_layout_zero. Qed.

Lemma Bind_layout realm port :
  Body_Serialize (NewBindBody realm port) =
  [x11; x00; x00; x08] ++ put_be32 realm ++ put_be32 0 ++ put_be32 port ++ [x7f; x00; x00; x01].
Proof. reflexivity. Qed.

Lemma Packet_Serialize_layout p :
  Packet_Serialize p = Header_Serialize (PHeader p) ++ Body_Serialize (PBody p).
Proof.
  unfold Packet_Serialize. cbv zeta.
  set (hb := Header_Serialize (PHeader p)). set (bb := Body_Serialize (PBody p)).
  rewrite copy_at_tail.
  - reflexivity.
  - rewrite length_copy_at by lia. unfold make_bytes. by rewrite length_replicate.
Qed.

(** The first byte and the low 24 bits of a type/length word. *)
Lemma put_be32_tag (t : byte) len :
  0 ≤ len < 2 ^ 24 →
  put_be32 (Z.lor (b2z t ≪ 24) len) = t :: [z2b (len ≫ 16); z2b (len ≫ 8); z2b len]
  ∧ Z.land (u32 (Z.lor (b2z t ≪ 24) len)) 0xFFFFFF = len.
Proof.
  intros Hlen. rewrite Z.lor_comm, lor_shiftl_add by lia.
  pose proof (b2z_range t). change 0xFFFFFF with (Z.ones 24).
  rewrite Z.land_ones by lia. split; [|word_lia].
  unfold put_be32. rewrite !Z.shiftr_div_pow2 by lia.
  bytes_lia.
Qed.

(** ** Well-formedness *)

Definition Header_wf (h : Header) : Prop :=
  is_u32 (Sent h) ∧ is_u32 (Recv h) ∧ is_u32 (PID h) ∧ is_u32 (LMID h) ∧ is_u32 (RMID h).

#[export] Instance Header_wf_dec h : Decision (Header_wf h).
Proof. unfold Header_wf. apply _. Defined.

Definition reserved_type (c : byte) : bool :=
  bool_decide (c ∈ [TypeSync; TypePayload; TypeBind; TypeStatus; TypeHeartbeat]).

(** The bodies whose wire form determines them: built by one of the [New*Body]
    constructors, with fields inside the widths the format gives them. *)
Definition canonical (b : Body) : Prop :=
  match BType b with
  | BodyTypeEmpty => b = NewEmptyBody
  | BodyTypeSync => b = NewSyncBody
  | BodyTypeHeartbeat => b = NewHeartbeatBody
  | BodyTypePayload =>
      b = NewPayloadBody (Realm b) (Data b) ∧ is_u32 (Realm b) ∧ Z.of_nat (length (Data b)) < 2 ^ 24
  | BodyTypeBind => b = NewBindBody (Realm b) (Port b) ∧ is_u32 (Realm b) ∧ is_u32 (Port b)
  | BodyTypeStatus =>
      b = NewStatusBody (Realm b) (Status b) ∧ is_u32 (Realm b) ∧
      Z.of_nat (length (Status b)) < 2 ^ 24 ∧ last (Status b) ≠ Some x00
  | BodyTypeCommand =>
      b = NewCommandBody (Command b) ∧ (4 ≤ length (Command b))%nat ∧
      match Command b with c :: _ => reserved_type c = false | [] => True end
  end.

#[export] Instance canonical_dec b : Decision (canonical b).
Proof. unfold canonical. destruct (BType b), (Command b); apply _. Defined.

(** ** Parsing after serialising *)

(** Reading a 32-bit field out of a message laid out in parts. *)
Lemma go_be32_app lo hi (p s : bytes) v :
  length p = lo → hi = (lo + 4)%nat → go_be32 lo hi (p ++ put_be32 v ++ s) = Ok (u32 v).
Proof.
  intros <- ->. unfold go_be32. rewrite go_slice_Ok; cycle 1.
  { rewrite !length_app, length_put_be32. lia. }
  unfold slice. cbn [result_bind]. rewrite drop_app_length.
  replace (length p + 4 - length p)%nat with 4%nat by lia.
  by rewrite <- (get_put_be32 v).
Qed.

Lemma ParseHeader_Serialize h rest :
  Header_wf h → ParseHeader (Header_Serialize h ++ rest) = Ok h.
Proof.
  intros (H1 & H2 & H3 & H4 & H5). unfold ParseHeader.
  rewrite decide_False by (rewrite length_app, length_Header_Serialize; unfold HeaderSize; lia).
  rewrite go_slice_Ok by (rewrite length_app, length_Header_Serialize; unfold HeaderSize; lia).
  cbn [result_bind]. rewrite decide_False by (by intros []).
  rewrite Header_Serialize_layout, <- !app_assoc.
  rewrite (go_be32_app 4 8 Magic) by done. cbn [result_bind].
  rewrite (app_assoc Magic), go_be32_app by done. cbn [result_bind].
  rewrite (app_assoc (Magic ++ _)), go_be32_app by done. cbn [result_bind].
  rewrite (app_assoc ((Magic ++ _) ++ _)), go_be32_app by done. cbn [result_bind].
  rewrite (app_assoc (((Magic ++ _) ++ _) ++ _)), go_be32_app by done. cbn [result_bind].
  rewrite !u32_small by done. by destruct h.
Qed.

(** The shape shared by the parsers of payload, bind and status bodies. *)
Lemma tagged_fields w0 realm w2 (s : bytes) :
  let data := put_be32 w0 ++ put_be32 realm ++ put_be32 w2 ++ s in
  go_be32 0 4 data = Ok (u32 w0) ∧ go_be32 4 8 data = Ok (u32 realm) ∧
  go_be32 8 12 data = Ok (u32 w2) ∧ go_slice_from (E:=PtcpError) 12 data = Ok s.
Proof.
  intros data. subst data. split_and!.
  - by apply (go_be32_app 0 4 []).
  - by apply go_be32_app.
  - rewrite app_assoc. by apply go_be32_app.
  - rewrite go_slice_from_Ok; [done|]. rewrite !length_app, !length_put_be32. lia.
Qed.

Lemma ParseBody_payload realm d :
  is_u32 realm → Z.of_nat (length d) < 2 ^ 24 →
  ParseBody (Body_Serialize (NewPayloadBody realm d)) = Ok (NewPayloadBody realm d).
Proof.
  intros Hr Hd. rewrite Payload_layout.
  set (w0 := Z.lor 0x10000000 (u32 (Z.of_nat (length d)))).
  pose proof (tagged_fields w0 realm 0 d) as (F0 & F4 & F8 & F12).
  destruct (put_be32_tag TypePayload (u32 (Z.of_nat (length d)))) as [Hw0 Hland]; [word_lia|].
  change (b2z TypePayload ≪ 24) with 0x10000000 in *. fold w0 in Hw0, Hland.
  assert ((put_be32 w0 ++ put_be32 realm ++ put_be32 0 ++ d) !! 0%nat = Some TypePayload) as Hhd
    by (by rewrite Hw0).
  assert (length (put_be32 w0 ++ put_be32 realm ++ put_be32 0 ++ d) = 12 + length d)%nat as Hlen
    by (by rewrite !length_app).
  revert F0 F4 F8 F12 Hhd Hlen. generalize (put_be32 w0 ++ put_be32 realm ++ put_be32 0 ++ d).
  intros data F0 F4 F8 F12 Hhd Hlen. unfold ParseBody, go_index.
  rewrite Hhd, Hlen, F0, F4, F8, F12. cbn [result_bind]. rewrite Hland.
  decide_guards. by rewrite (u32_small realm).
Qed.

(** A status followed by any run of NUL bytes parses to the bare status. *)
Lemma ParseBody_status_padded realm st n :
  is_u32 realm → Z.of_nat (length st) < 2 ^ 24 → last st ≠ Some x00 →
  ParseBody (Body_Serialize (NewStatusBody realm st) ++ replicate n x00) = Ok (NewStatusBody realm st).
Proof.
  intros Hr Hs Hlast. rewrite Status_layout, <- !app_assoc.
  set (w0 := Z.lor 0x12000000 (u32 (Z.of_nat (length st)))). set (rest := st ++ replicate n x00).
  pose proof (tagged_fields w0 realm 0 rest) as (_ & F4 & _ & F12).
  destruct (put_be32_tag TypeStatus (u32 (Z.of_nat (length st)))) as [Hw0 _]; [word_lia|].
  change (b2z TypeStatus ≪ 24) with 0x12000000 in Hw0. fold w0 in Hw0.
  assert ((put_be32 w0 ++ put_be32 realm ++ put_be32 0 ++ rest) !! 0%nat = Some TypeStatus) as Hhd
    by (by rewrite Hw0).
  assert (length (put_be32 w0 ++ put_be32 realm ++ put_be32 0 ++ rest) = 12 + length rest)%nat as Hlen
    by (by rewrite !length_app).
  revert F4 F12 Hhd Hlen. generalize (put_be32 w0 ++ put_be32 realm ++ put_be32 0 ++ rest).
  intros data F4 F12 Hhd Hlen. unfold ParseBody, go_index.
  rewrite Hhd, Hlen, F4, F12. cbn [result_bind]. decide_guards.
  rewrite (u32_small realm) by done. unfold rest. rewrite TrimRight_app; [done|..].
  - intros c Hc. unfold is_nul. destruct (Byte.eqb c x00) eqn:E; [|done].
    apply Byte.byte_dec_bl in E. congruence.
  - apply Forall_replicate. by vm_compute.
Qed.

Lemma ParseBody_bind realm port :
  is_u32 realm → is_u32 port →
  ParseBody (Body_Serialize (NewBindBody realm port)) = Ok (NewBindBody realm port).
Proof.
  intros Hr Hp. rewrite Bind_layout. unfold ParseBody.
  change (go_index 0 _) with (Ok (E:=PtcpError) TypeBind).
  rewrite !length_app, !length_put_be32. cbn [length Nat.add result_bind]. decide_guards.
  rewrite (go_be32_app 4 8 [_;_;_;_]) by done. cbn [result_bind].
  rewrite (app_assoc (put_be32 realm)), (app_assoc [_;_;_;_]), go_be32_app by done.
  cbn [result_bind]. by rewrite !u32_small.
Qed.

Lemma ParseBody_command cmd :
  canonical (NewCommandBody cmd) → ParseBody cmd = Ok (NewCommandBody cmd).
Proof.
  intros (_ & Hlen & Hres). cbn in Hlen, Hres. destruct cmd as [|c cmd]; [cbn in Hlen; lia|].
  unfold ParseBody, go_index. cbn [lookup list_lookup result_bind].
  apply bool_decide_eq_false in Hres. rewrite !elem_of_cons, elem_of_nil in Hres.
  rewrite decide_False by done. rewrite decide_False by lia.
  by rewrite !decide_False by naive_solver.
Qed.

(** Parsing the wire form of any canonical body gives the body back. *)
Lemma body_roundtrip b : canonical b → ParseBody (Body_Serialize b) = Ok b.
Proof.
  intros Hc. unfold canonical in Hc. destruct (BType b) eqn:Et.
  - by rewrite Hc.
  - by rewrite Hc.
  - destruct Hc as (Hb & Hc). rewrite Hb. apply ParseBody_command.
    unfold canonical. cbn. by split.
  - destruct Hc as (Hb & Hr & Hd). rewrite Hb. by apply ParseBody_payload.
  - destruct Hc as (Hb & Hr & Hp). rewrite Hb. by apply ParseBody_bind.
  - destruct Hc as (Hb & Hr & Hs & Hlast). rewrite Hb.
    rewrite <- (ParseBody_status_padded (Realm b) (Status b) 0) by done.
    by rewrite app_nil_r.
  - by rewrite Hc.
Qed.

(** ** The parsers without the bounds checks *)

Lemma go_be32_Ok lo hi data :
  (lo ≤ hi ≤ length data)%nat → go_be32 lo hi data = Ok (get_be32 (slice lo hi data)).
Proof. intros. unfold go_be32. by rewrite go_slice_Ok. Qed.

(** The guards of [ParseHeader] and [ParseBody] make every access they dominate
    safe: these equations have no [Panic] left in them. *)
Lemma ParseHeader_unfold data :
  ParseHeader data =
  if decide (length data < HeaderSize)%nat then Err ErrPacketTooShort else
  if decide (slice 0 4 data ≠ Magic) then Err ErrInvalidMagic else
  Ok (mkHeader (get_be32 (slice 4 8 data)) (get_be32 (slice 8 12 data))
        (get_be32 (slice 12 16 data)) (get_be32 (slice 16 20 data)) (get_be32 (slice 20 24 data))).
Proof.
  unfold ParseHeader. case_decide as Hlen; [done|]. unfold HeaderSize in Hlen.
  rewrite go_slice_Ok by lia. cbn [result_bind]. case_decide; [done|].
  by rewrite !go_be32_Ok by lia.
Qed.

Lemma ParseBody_unfold data :
  ParseBody data =
  match data with
  | [] => Ok NewEmptyBody
  | c :: _ =>
      if decide (length data < 4)%nat then Err ErrPacketTooShort
      else if decide (c = TypeSync) then Ok NewSyncBody
      else if decide (c = TypePayload) then
        if decide (length data < 12)%nat then Err ErrPacketTooShort
        else if decide (get_be32 (slice 8 12 data) ≠ 0) then Err ErrInvalidPadding
        else if decide (u32 (Z.of_nat (length data - 12)) ≠
                        Z.land (get_be32 (slice 0 4 data)) 0xFFFFFF) then Err ErrInvalidLength
        else Ok (NewPayloadBody (get_be32 (slice 4 8 data)) (drop 12 data))
      else if decide (c = TypeBind) then
        if decide (length data < 16)%nat then Err ErrPacketTooShort
        else Ok (NewBindBody (get_be32 (slice 4 8 data)) (get_be32 (slice 12 16 data)))
      else if decide (c = TypeStatus) then
        if decide (length data < 12)%nat then Err ErrPacketTooShort
        else Ok (NewStatusBody (get_be32 (slice 4 8 data)) (TrimRight is_nul (drop 12 data)))
      else if decide (c = TypeHeartbeat) then Ok NewHeartbeatBody
      else Ok (NewCommandBody data)
  end.
Proof.
  destruct data as [|c rest]; [done|]. set (data := c :: rest).
  assert (go_index (E:=PtcpError) 0 data = Ok c) as Hhd by done.
  assert (0 < length data)%nat as Hpos by (cbn; lia).
  clearbody data. unfold ParseBody. rewrite decide_False by lia. rewrite Hhd. cbn [result_bind].
  repeat case_decide; try done;
    rewrite ?go_be32_Ok, ?go_slice_from_Ok by lia; cbn [result_bind]; rewrite ?length_drop;
    repeat case_decide; congruence.
Qed.

Lemma ParsePacket_unfold data :
  ParsePacket data =
  (header <-? ParseHeader data; body <-? ParseBody (drop HeaderSize data); Ok (NewPacket header body)).
Proof.
  unfold ParsePacket. rewrite ParseHeader_unfold. case_decide as Hlen; [done|].
  case_decide; [done|]. cbn [result_bind]. by rewrite go_slice_from_Ok by lia.
Qed.

(** The lengths below which the parser of each kind of body gives up. *)
Definition body_too_short (data : bytes) : Prop :=
  match data with
  | [] => False
  | c :: _ =>
      (length data < 4 ∨ (c = TypePayload ∨ c = TypeStatus) ∧ length data < 12 ∨
       c = TypeBind ∧ length data < 16)%nat
  end.

Definition header_ok (data : bytes) : Prop :=
  (HeaderSize ≤ length data)%nat ∧ slice 0 4 data = Magic.

Definition payload_header (data : bytes) : Prop :=
  head data = Some TypePayload ∧ (12 ≤ length data)%nat.

(** What each error of [ParseBody] says about its input. *)
Definition body_error (data : bytes) (e : PtcpError) : Prop :=
  match e with
  | ErrPacketTooShort => body_too_short data
  | ErrInvalidPadding => payload_header data ∧ get_be32 (slice 8 12 data) ≠ 0
  | ErrInvalidLength =>
      payload_header data ∧ get_be32 (slice 8 12 data) = 0 ∧
      u32 (Z.of_nat (length data - 12)) ≠ Z.land (get_be32 (slice 0 4 data)) 0xFFFFFF
  | ErrInvalidMagic | ErrInvalidBodyType => False
  end.

Lemma ParseBody_error_iff data e : ParseBody data = Err e ↔ body_error data e.
Proof.
  rewrite ParseBody_unfold. unfold body_error, body_too_short, payload_header.
  destruct data as [|c rest]; [destruct e; cbn; intuition discriminate|]. cbn [head].
  generalize (length (c :: rest)) (slice 8 12 (c :: rest)) (slice 0 4 (c :: rest)).
  intros n s8 s0.
  repeat case_decide; subst; destruct e; split; try done; intros; destruct_and?; simplify_eq;
    unfold TypeSync, TypePayload, TypeBind, TypeStatus, TypeHeartbeat in *;
    try done; try tauto; try (intuition (lia || congruence)).
Qed.

Lemma ParseBody_no_panic data : ParseBody data ≠ Panic.
Proof. rewrite ParseBody_unfold. destruct data; repeat case_decide; congruence. Qed.

Lemma ParseHeader_error_iff data e :
  ParseHeader data = Err e ↔
  match e with
  | ErrPacketTooShort => (length data < HeaderSize)%nat
  | ErrInvalidMagic => (HeaderSize ≤ length data)%nat ∧ slice 0 4 data ≠ Magic
  | _ => False
  end.
Proof.
  rewrite ParseHeader_unfold. repeat case_decide; destruct e; split; try done; intuition (lia || done).
Qed.

Lemma ParseHeader_Ok_iff data : header_ok data ↔ ∃ h, ParseHeader data = Ok h.
Proof.
  unfold header_ok. rewrite ParseHeader_unfold.
  repeat case_decide; split; try (intros [? [=]]); intuition (lia || eauto || tauto).
Qed.

Lemma length_tagged w0 realm w2 (d : bytes) :
  length (put_be32 w0 ++ put_be32 realm ++ put_be32 w2 ++ d) = (12 + length d)%nat.
Proof. by rewrite !length_app, !length_put_be32. Qed.

Lemma get_be32_cons4 b0 b1 b2 b3 (rest : bytes) :
  get_be32 (slice 0 4 (b0 :: b1 :: b2 :: b3 :: rest)) = get_be32 [b0; b1; b2; b3].
Proof. done. Qed.

(** A payload word is its type byte followed by the 24-bit length it announces. *)
Lemma payload_word b1 b2 b3 :
  let w := get_be32 [TypePayload; b1; b2; b3] in
  Z.lor 0x10000000 (Z.land w 0xFFFFFF) = w.
Proof.
  cbv zeta. rewrite get_be32_sum. change 0xFFFFFF with (Z.ones 24). rewrite Z.land_ones by lia.
  pose proof (b2z_range b1). pose proof (b2z_range b2). pose proof (b2z_range b3).
  change (b2z TypePayload) with 16. change 0x10000000 with (16 ≪ 24).
  rewrite Z.lor_comm, lor_shiftl_add by word_lia. word_lia.
Qed.

(** Splitting a message at the three words of a tagged body. *)
Lemma split_tagged (data : bytes) :
  (12 ≤ length data)%nat →
  data = slice 0 4 data ++ slice 4 8 data ++ slice 8 12 data ++ drop 12 data.
Proof.
  intros. unfold slice. cbn [Nat.sub]. rewrite drop_0.
  rewrite <- (take_drop 4 data) at 1. f_equal.
  rewrite <- (take_drop 4 (drop 4 data)) at 1. f_equal.
  rewrite drop_drop. rewrite <- (take_drop 4 (drop _ data)) at 1. f_equal.
  by rewrite drop_drop.
Qed.

Lemma Body_Serialize_parse data b :
  Z.of_nat (length data) < 2 ^ 32 → ParseBody data = Ok b →
  BType b = BodyTypePayload ∨ BType b = BodyTypeCommand ∨ BType b = BodyTypeEmpty →
  Body_Serialize b = data.
Proof.
  intros Hlen. rewrite ParseBody_unfold. destruct data as [|c rest]; [by intros [= <-]|].
  set (data := c :: rest) in *.
  repeat case_decide; try done; intros [= <-]; cbn [BType NewSyncBody NewHeartbeatBody
    NewBindBody NewStatusBody zeroBody]; intros Ht; try (by destruct Ht as [|[|]]); try done.
  rewrite Payload_layout, length_drop.
  etransitivity; [|symmetry; apply split_tagged; lia].
  destruct rest as [|b1 [|b2 [|b3 rest]]]; try (cbn in *; lia). subst c.
  match goal with H : u32 _ = Z.land _ _, H' : get_be32 _ = 0 |- _ =>
    rename H into Hw; rename H' into Hpad end.
  change (length (b1 :: _) - 11)%nat with (length data - 12)%nat. rewrite Hw.
  unfold data at 1. rewrite get_be32_cons4, payload_word, <- Hpad.
  by rewrite !put_get_be32 by (done || rewrite length_slice; lia).
Qed.

(** When the length a parsed body reports is the length it had on the wire. *)
Definition exact_length (data : bytes) : Prop :=
  match data with
  | [] => True
  | c :: _ =>
      if decide (c = TypeSync) then length data = 4%nat
      else if decide (c = TypeBind) then length data = 20%nat
      else if decide (c = TypeHeartbeat) then length data = 12%nat
      else if decide (c = TypeStatus) then last (drop 12 data) ≠ Some x00
      else True
  end.

#[export] Instance exact_length_dec data : Decision (exact_length data).
Proof. unfold exact_length. destruct data; repeat case_decide; apply _. Defined.

Lemma length_TrimRight_nul s :
  length (TrimRight is_nul s) = length s ↔ last s ≠ Some x00.
Proof.
  split.
  - intros Hlen Hlast. destruct (TrimRight_prefix is_nul s) as (p & Hp & _).
    assert (p = []) as ->.
    { apply (f_equal length) in Hp. rewrite length_app in Hp. apply nil_length_inv. lia. }
    rewrite app_nil_r in Hp. rewrite Hp in Hlast. by apply TrimRight_last in Hlast.
  - intros Hlast. rewrite TrimRight_id; [done|]. intros c Hc. unfold is_nul.
    destruct (Byte.eqb c x00) eqn:E; [|done]. apply Byte.byte_dec_bl in E. congruence.
Qed.

Lemma ParseBody_fields_u32 data b : ParseBody data = Ok b → is_u32 (Realm b) ∧ is_u32 (Port b).
Proof.
  assert (is_u32 0) by word_lia. rewrite ParseBody_unfold.
  destruct data; repeat case_decide; intros [= <-]; cbn; auto with word.
Qed.

Lemma Body_Len_nonneg b : 0 ≤ Body_Len b.
Proof. unfold Body_Len. destruct (BType b); lia. Qed.

(** ** Theorems *)

Lemma ParsePacket_Serialize p :
  Header_wf (PHeader p) → canonical (PBody p) → ParsePacket (Packet_Serialize p) = Ok p.
Proof.
  intros Hh Hb. rewrite ParsePacket_unfold, Packet_Serialize_layout.
  rewrite ParseHeader_Serialize by done. cbn [result_bind].
  rewrite drop_app_length' by done. rewrite body_roundtrip by done. by destruct p.
Qed.

(** C1. Packet round trip: for every header of 32-bit fields and
    every canonical body (any of the seven kinds), parsing the serialised packet
    returns exactly that packet; so no two such packets share a wire form. *)
Theorem packet_roundtrip p q :
  Header_wf (PHeader p) → canonical (PBody p) → Header_wf (PHeader q) → canonical (PBody q) →
  ParsePacket (Packet_Serialize p) = Ok p ∧ (Packet_Serialize p = Packet_Serialize q → p = q).
Proof.
  intros Hp Hp' Hq Hq'. split; [by apply ParsePacket_Serialize|].
  intros E. apply (f_equal ParsePacket) in E. rewrite !ParsePacket_Serialize in E by done. congruence.
Qed.

Lemma packet_roundtrip_witness :
  let p := NewPacket (mkHeader 100 200 0xFFFD 5 3) (NewStatusBody 0xABCDEF01 StatusConnect) in
  let q := NewPacket (mkHeader 100 200 0xFFFC 6 3) (NewPayloadBody 0xABCDEF01 [x00; x01]) in
  ParsePacket (Packet_Serialize p) = Ok p ∧ (Packet_Serialize p = Packet_Serialize q → p = q).
Proof.
  apply (packet_roundtrip
    (NewPacket (mkHeader 100 200 0xFFFD 5 3) (NewStatusBody 0xABCDEF01 StatusConnect))
    (NewPacket (mkHeader 100 200 0xFFFC 6 3) (NewPayloadBody 0xABCDEF01 [x00; x01])));
    apply (bool_decide_unpack _); vm_compute; exact I.
Defined.

(** No datagram makes the parser index out of range:
    every slice and index expression of [ParsePacket], [ParseHeader] and
    [ParseBody] is dominated by a length check that covers it. *)
Theorem ParsePacket_no_panic data : ParsePacket data ≠ Panic.
Proof.
  rewrite ParsePacket_unfold. destruct (ParseHeader data) as [h|e|] eqn:Eh; cbn [result_bind]; [|done|].
  - pose proof (ParseBody_no_panic (drop HeaderSize data)).
    by destruct (ParseBody (drop HeaderSize data)).
  - rewrite ParseHeader_unfold in Eh. repeat case_decide; done.
Qed.

(** Which error a malformed datagram gets, exactly: too
    short for the header or for the kind of body announced, wrong magic, non-zero
    payload padding, or a payload length that is not the one announced.
    [ErrInvalidBodyType] is never returned: an unknown type byte is a command. *)
Theorem ParsePacket_error_iff data e :
  ParsePacket data = Err e ↔
  (length data < HeaderSize)%nat ∧ e = ErrPacketTooShort ∨
  (HeaderSize ≤ length data)%nat ∧ slice 0 4 data ≠ Magic ∧ e = ErrInvalidMagic ∨
  header_ok data ∧ body_error (drop HeaderSize data) e.
Proof.
  rewrite ParsePacket_unfold, <- ParseBody_error_iff, ParseHeader_Ok_iff.
  destruct (ParseHeader data) as [h|e'|] eqn:Eh; cbn [result_bind].
  - rewrite ParseHeader_unfold in Eh. repeat case_decide; try done.
    pose proof (ParseBody_no_panic (drop HeaderSize data)).
    destruct (ParseBody (drop HeaderSize data)) as [b|e'|]; cbn [result_bind];
      (split; [intros; simplify_eq; eauto|]);
      (intros [[]|[(_ & ? & _)|(_ & E)]]; [lia|tauto|congruence]).
  - assert (¬ ∃ h, (Err e' : result PtcpError Header) = Ok h) as Hno by (by intros [? ?]).
    pose proof (proj1 (ParseHeader_error_iff data e') Eh) as He'.
    split; [intros [= <-]; destruct e'; tauto|].
    intros [(? & ->)|[(? & ? & ->)|[? _]]]; [destruct e'; [lia|done..]|destruct e'; [done|lia|done..]|done].
  - rewrite ParseHeader_unfold in Eh. repeat case_decide; done.
Qed.

(** The parser is not malleable where data flows: a
    datagram (shorter than 4 GiB) that parses to an acknowledgement, a payload or
    a command is byte for byte what serialising the parsed packet produces, so
    those kinds of packet have exactly one encoding. *)
Theorem Packet_Serialize_parse data p :
  Z.of_nat (length data) < 2 ^ 32 → ParsePacket data = Ok p →
  BType (PBody p) = BodyTypePayload ∨ BType (PBody p) = BodyTypeCommand ∨
  BType (PBody p) = BodyTypeEmpty →
  Packet_Serialize p = data.
Proof.
  intros Hlen Hp Ht. rewrite ParsePacket_unfold in Hp.
  apply result_bind_Ok in Hp as (h & Hh & Hp). apply result_bind_Ok in Hp as (b & Hb & [= <-]).
  rewrite Packet_Serialize_layout. cbn [PHeader PBody NewPacket].
  rewrite (Body_Serialize_parse (drop HeaderSize data) b) by (rewrite ?length_drop; done || lia).
  rewrite ParseHeader_unfold in Hh. case_decide as Hlo; [done|]. case_decide as Hm; [done|].
  injection Hh as <-. unfold HeaderSize in *.
  rewrite Header_Serialize_layout, <- Hm. cbn [Sent Recv PID LMID RMID].
  rewrite !put_get_be32 by (rewrite length_slice; lia).
  rewrite <- (take_drop 24 data) at 7. f_equal. unfold slice.
  do 24 (destruct data as [|? data]; [cbn in Hlo; lia|]). reflexivity.
Qed.

Lemma Packet_Serialize_parse_witness :
  let data := lit "PTCP0123456789abcdefghij" ++ [x17; x00; x00; x00] in
  ∃ p, ParsePacket data = Ok p ∧ Packet_Serialize p = data.
Proof.
  eexists. split; [vm_compute; reflexivity|].
  apply Packet_Serialize_parse; [vm_compute; reflexivity|vm_compute; reflexivity|].
  right; left; reflexivity.
Defined.

(** [Body.Len] is the number of bytes [Body.Serialize]
    produces, for every body and not only for canonical ones: the byte counters
    the session advances by [Len] count what goes on the wire. *)
Theorem Body_Len_Serialize b : Body_Len b = Z.of_nat (length (Body_Serialize b)).
Proof.
  unfold Body_Len, Body_Serialize. destruct (BType b); try done.
  - rewrite tagged_layout, length_tagged. lia.
  - rewrite tagged_layout_zero, length_tagged. lia.
Qed.

(** Receive accounting: the length [Len] reports for a parsed
    body is the number of bytes received exactly when the body is not a SYNC, BIND
    or heartbeat of an unusual size nor a status with trailing NUL bytes.  In
    those cases [Session.Recv], which adds [Len], miscounts. *)
Theorem ParseBody_Len_iff data b :
  ParseBody data = Ok b → (Body_Len b = Z.of_nat (length data) ↔ exact_length data).
Proof.
  rewrite ParseBody_unfold. destruct data as [|c rest]; [by intros [= <-]|].
  unfold exact_length. set (data := c :: rest). clearbody data.
  repeat case_decide; subst; try done; intros [= <-];
    cbn [Body_Len BType NewSyncBody NewPayloadBody NewBindBody NewStatusBody NewHeartbeatBody
         NewCommandBody zeroBody Data Status Command]; try (unfold TypeBind, TypeStatus in *; done);
    rewrite ?length_drop; try (split; lia); try done.
  rewrite <- length_TrimRight_nul, length_drop. lia.
Qed.

Lemma ParseBody_Len_iff_witness :
  let data := Body_Serialize (NewStatusBody 7 StatusDisconnect) ++ replicate 4 x00 in
  Body_Len (NewStatusBody 7 StatusDisconnect) = Z.of_nat (length data) ↔ exact_length data.
Proof.
  apply (ParseBody_Len_iff (Body_Serialize (NewStatusBody 7 StatusDisconnect) ++ replicate 4 x00)).
  vm_compute. reflexivity.
Defined.
