(* ===== verification/PtcpSession.v ===== *)
(** * PTCP session counters: [src/ptcp/session.go]

    The counters an endpoint keeps, the header it puts on each packet and what it
    learns from each packet it receives.  [Session.mu] makes [Send], [Recv] and
    [Stats] atomic, so each is one function on the state.

    The second half runs two endpoints over a lossy FIFO link and relates the
    32-bit counters to unbounded ones: what [Stats] reports is the true amount of
    unacknowledged, lost and in-flight data. *)

From Stdlib Require Import ZArith Lia Strings.Byte.
From S2P Require Import Prelude GoStrings PtcpTypes.

Record Session := mkSession {
  s_sent : Z; s_recv : Z; s_count : Z; s_id : Z; s_rmid : Z;
  s_peerSent : Z; s_peerRecv : Z; s_peerRMID : Z }.

#[export] Instance Session_eq_dec : EqDecision Session.
Proof. solve_decision. Defined.

Record Stats := mkStats {
  st_Sent : Z; st_Recv : Z; st_LMID : Z; st_PeerSent : Z; st_PeerRecv : Z; st_PeerRMID : Z }.

(** [int64(int32(a - b))]. *)
Definition delta (a b : Z) : Z := i32 (u32 (a - b)).

Definition OutBytes (t : Stats) : Z := delta (st_Sent t) (st_PeerRecv t).
Definition OutMsgs (t : Stats) : Z := delta (st_LMID t) (st_PeerRMID t).
Definition InBytes (t : Stats) : Z := delta (st_PeerSent t) (st_Recv t).

Definition Session_Stats (s : Session) : Stats :=
  mkStats (s_sent s) (s_recv s) (s_id s) (s_peerSent s) (s_peerRecv s) (s_peerRMID s).

Definition NewSession : Session := mkSession 0 0 0 0 0 0 0 0.

Definition Session_Send (s : Session) (body : Body) : Session * Packet :=
  let pid := match BType body with
             | BodyTypeSync => 0x0002FFFF
             | _ => u32 (0x0000FFFF - Z.land (s_count s) 0xFFFF)
             end in
  let header := mkHeader (s_sent s) (s_recv s) pid (s_id s) (s_rmid s) in
  let s := s <| s_sent := u32 (s_sent s + u32 (Body_Len body)) |> in
  let s := s <| s_id := u32 (s_id s + 1) |> in
  let s := if decide (BType body ≠ BodyTypeSync)
           then s <| s_count := u32 (s_count s + 1) |> else s in
  (s, NewPacket header body).

Definition Session_Recv (s : Session) (packet : Packet) : Session :=
  let s := s <| s_recv := u32 (s_recv s + u32 (Body_Len (PBody packet))) |> in
  let s := s <| s_rmid := LMID (PHeader packet) |> in
  let s := s <| s_peerSent := Sent (PHeader packet) |> in
  let s := s <| s_peerRecv := Recv (PHeader packet) |> in
  s <| s_peerRMID := RMID (PHeader packet) |>.

(** A use of a session: packets sent and received in some order.  The packets
    sent are collected in order. *)
Inductive SessionEvent :=
| ESend (body : Body)
| ERecv (packet : Packet).

Fixpoint run_session (s : Session) (evs : list SessionEvent) : Session * list Packet :=
  match evs with
  | [] => (s, [])
  | ESend b :: evs =>
      let '(s, p) := Session_Send s b in
      let '(s, ps) := run_session s evs in (s, p :: ps)
  | ERecv p :: evs => run_session (Session_Recv s p) evs
  end.

(** ** Well-formedness *)

Definition Session_wf (s : Session) : Prop :=
  is_u32 (s_sent s) ∧ is_u32 (s_recv s) ∧ is_u32 (s_count s) ∧ is_u32 (s_id s) ∧
  is_u32 (s_rmid s) ∧ is_u32 (s_peerSent s) ∧ is_u32 (s_peerRecv s) ∧ is_u32 (s_peerRMID s).

#[export] Instance Session_wf_dec s : Decision (Session_wf s).
Proof. unfold Session_wf. apply _. Defined.

Lemma NewSession_wf : Session_wf NewSession.
Proof. apply (bool_decide_unpack _). vm_compute. exact I. Qed.

Lemma Session_Send_wf s b : Session_wf s → Session_wf (Session_Send s b).1.
Proof.
  unfold Session_wf, Session_Send. intros (?&?&?&?&?&?&?&?).
  case_decide; cbn; split_and!; auto with word.
Qed.

Lemma Session_Recv_wf s p : Session_wf s → Header_wf (PHeader p) → Session_wf (Session_Recv s p).
Proof.
  unfold Session_wf, Header_wf. intros (?&?&?&?&?&?&?&?) (?&?&?&?&?).
  cbn; split_and!; auto with word.
Qed.

Definition pid_of (count : Z) : Z := 0xFFFF - count `mod` 2 ^ 16.

(** The PID formula as arithmetic; the subtraction never wraps. *)
Lemma Send_PID s b :
  PID (PHeader (Session_Send s b).2) =
  if decide (BType b = BodyTypeSync) then 0x0002FFFF else pid_of (s_count s).
Proof.
  unfold Session_Send, pid_of. cbn [snd PHeader NewPacket PID].
  change (Z.land (s_count s) 0xFFFF) with (Z.land (s_count s) (Z.ones 16)). rewrite Z.land_ones by lia.
  assert (0 ≤ s_count s `mod` 2 ^ 16 < 2 ^ 16) by (apply Z.mod_pos_bound; lia).
  case_decide as Hb; [by rewrite Hb|]. destruct (BType b); try done; word_lia.
Qed.

Lemma Send_header_wf s b : Session_wf s → Header_wf (PHeader (Session_Send s b).2).
Proof.
  intros (?&?&?&?&?&?&?&?). unfold Header_wf. rewrite Send_PID. cbn. split_and!; try done.
  unfold pid_of. assert (0 ≤ s_count s `mod` 2 ^ 16 < 2 ^ 16) by (apply Z.mod_pos_bound; lia).
  case_decide; word_lia.
Qed.

(** ** A run of a session *)

Definition is_data (p : Packet) : Prop := BType (PBody p) ≠ BodyTypeSync.

#[export] Instance is_data_dec p : Decision (is_data p).
Proof. unfold is_data. apply _. Defined.

(** Body bytes and non-SYNC packets in a list of packets. *)
Definition body_bytes (ps : list Packet) : Z := foldr (λ p n, Body_Len (PBody p) + n) 0 ps.
Definition data_packets (ps : list Packet) : Z := Z.of_nat (length (filter is_data ps)).

Lemma data_packets_cons p ps :
  data_packets (p :: ps) = (if decide (is_data p) then 1 else 0) + data_packets ps.
Proof. unfold data_packets. rewrite filter_cons. case_decide; cbn [length]; lia. Qed.

Lemma data_packets_app ps qs : data_packets (ps ++ qs) = data_packets ps + data_packets qs.
Proof. unfold data_packets. rewrite filter_app, length_app. lia. Qed.

Lemma data_packets_bound ps : 0 ≤ data_packets ps ≤ Z.of_nat (length ps).
Proof. unfold data_packets. pose proof (length_filter is_data ps). lia. Qed.

Lemma pid_of_u32 c : pid_of (u32 c) = pid_of c.
Proof. unfold pid_of. word_lia. Qed.

Lemma u32_u32_add x y z : u32 (u32 (x + u32 y) + z) = u32 (x + (y + z)).
Proof. word_lia. Qed.

(** What one [Send] does to the fields it touches. *)
Lemma Send_fields s b s' p :
  Session_Send s b = (s', p) →
  s_sent s' = u32 (s_sent s + Body_Len b) ∧ s_id s' = u32 (s_id s + 1) ∧
  s_count s' = (if decide (is_data p) then u32 (s_count s + 1) else s_count s) ∧
  LMID (PHeader p) = s_id s ∧ Sent (PHeader p) = s_sent s ∧ PBody p = b ∧
  PID (PHeader p) = (if decide (is_data p) then pid_of (s_count s) else 0x0002FFFF).
Proof.
  intros E. pose proof (Send_PID s b) as Hpid. rewrite E in Hpid. cbn [snd] in Hpid.
  unfold Session_Send in E. injection E as <- Hp. unfold is_data.
  rewrite Hpid, <- Hp. cbn [PBody NewPacket PHeader LMID Sent].
  split_and!; try done; repeat case_decide; try done; cbn; word_lia.
Qed.

Definition send_wf (s : Session) : Prop := is_u32 (s_sent s) ∧ is_u32 (s_id s).

(** The counters a packet carries are those of the session it was sent on,
    advanced by the packets sent before it; receiving does not disturb them. *)
Lemma run_session_packet evs : ∀ s i p,
  send_wf s → (run_session s evs).2 !! i = Some p →
  let before := take i (run_session s evs).2 in
  LMID (PHeader p) = u32 (s_id s + Z.of_nat i) ∧
  Sent (PHeader p) = u32 (s_sent s + body_bytes before) ∧
  PID (PHeader p) = (if decide (is_data p) then pid_of (s_count s + data_packets before) else 0x0002FFFF).
Proof.
  induction evs as [|[b|q] evs IH]; intros s i p Hwf Hi; [done| |by apply (IH (Session_Recv s q))].
  cbn [run_session] in *. destruct (Session_Send s b) as [s1 p1] eqn:Es.
  apply Send_fields in Es as (Hsent & Hid & Hcount & HL & HS & HB & HP).
  destruct (run_session s1 evs) as [s2 ps] eqn:Er. specialize (IH s1). rewrite Er in IH.
  cbn [snd] in *. destruct i as [|i]; cbn [take].
  - injection Hi as <-. destruct Hwf. cbn [body_bytes foldr Z.of_nat].
    change (data_packets []) with 0. by rewrite !Z.add_0_r, !u32_small.
  - destruct (IH i p) as (Hl & Hs & Hp); [split; rewrite ?Hsent, ?Hid; auto with word|done|].
    rewrite data_packets_cons, Hl, Hs, Hp, Hsent, Hid, Hcount.
    change (body_bytes (p1 :: take i ps)) with (Body_Len (PBody p1) + body_bytes (take i ps)).
    rewrite HB, !u32_add_l. split_and!; [f_equal; lia|f_equal; lia|].
    repeat case_decide; try done.
    rewrite <- pid_of_u32, u32_add_l, pid_of_u32. f_equal. lia.
Qed.

Lemma pid_of_eq_iff c n : pid_of c = pid_of (c + n) ↔ n `mod` 2 ^ 16 = 0.
Proof. unfold pid_of. word_lia. Qed.

Lemma pid_of_range c : 0 ≤ pid_of c ≤ 0xFFFF.
Proof. unfold pid_of. word_lia. Qed.

Lemma take_app_drop_between {A} (l : list A) i j :
  (i ≤ j)%nat → take j l = take i l ++ take (j - i) (drop i l).
Proof. intros. rewrite take_take_drop. f_equal. lia. Qed.

(** ** Theorems on one endpoint *)

(** PID allocation: among the packets a session sends, in any
    interleaving with receives and whatever the counter started at (also across
    its 32-bit wrap), two non-SYNC packets carry the same PID exactly when the
    number of non-SYNC packets from the first up to the second is a multiple of
    65536.  So PIDs are unique over any window of 65536 packets and are reused
    after that. *)
Theorem pid_equal_iff s evs i j p q :
  send_wf s → (i ≤ j)%nat →
  (run_session s evs).2 !! i = Some p → (run_session s evs).2 !! j = Some q →
  is_data p → is_data q →
  PID (PHeader p) = PID (PHeader q) ↔
  data_packets (take (j - i) (drop i (run_session s evs).2)) `mod` 65536 = 0.
Proof.
  intros Hwf Hij Hi Hj Hp Hq.
  apply run_session_packet in Hi as (_ & _ & ->); [|done].
  apply run_session_packet in Hj as (_ & _ & ->); [|done].
  rewrite !decide_True by done.
  rewrite (take_app_drop_between _ i j), data_packets_app, Z.add_assoc by done.
  apply pid_of_eq_iff.
Qed.

Lemma pid_equal_iff_witness :
  let evs := [ESend NewSyncBody; ESend NewEmptyBody; ESend NewSyncBody; ESend NewHeartbeatBody] in
  let ps := (run_session NewSession evs).2 in
  data_packets (take (3 - 1) (drop 1 ps)) = 1 ∧
  (PID <$> (PHeader <$> ps !! 1%nat)) ≠ (PID <$> (PHeader <$> ps !! 3%nat)).
Proof.
  set (evs := [ESend NewSyncBody; ESend NewEmptyBody; ESend NewSyncBody; ESend NewHeartbeatBody]).
  split; [vm_compute; reflexivity|].
  destruct ((run_session NewSession evs).2 !! 1%nat) as [p|] eqn:Hp; [|vm_compute in Hp; discriminate].
  destruct ((run_session NewSession evs).2 !! 3%nat) as [q|] eqn:Hq; [|vm_compute in Hq; discriminate].
  cbn. intros [= Heq]. revert Heq.
  rewrite (pid_equal_iff NewSession evs 1 3 p q).
  - vm_compute. discriminate.
  - vm_compute. repeat split; discriminate.
  - lia.
  - exact Hp.
  - exact Hq.
  - vm_compute in Hp. injection Hp as <-. vm_compute. discriminate.
  - vm_compute in Hq. injection Hq as <-. vm_compute. discriminate.
Defined.

(** What consecutive packets of a session carry, in any
    interleaving with receives: message ids count up by one and [Sent] by the
    length of the body just sent (both modulo 2^32), a SYNC has PID 0x2FFFF and
    every other packet a PID whose high half is zero. *)
Theorem send_sequence s evs i p q :
  send_wf s →
  (run_session s evs).2 !! i = Some p → (run_session s evs).2 !! S i = Some q →
  LMID (PHeader q) = u32 (LMID (PHeader p) + 1) ∧
  Sent (PHeader q) = u32 (Sent (PHeader p) + Body_Len (PBody p)) ∧
  (BType (PBody p) = BodyTypeSync → PID (PHeader p) = 0x0002FFFF) ∧
  (BType (PBody p) ≠ BodyTypeSync → 0 ≤ PID (PHeader p) ≤ 0x0000FFFF).
Proof.
  intros Hwf Hp Hq. pose proof Hp as Hi.
  apply run_session_packet in Hp as (-> & -> & ->); [|done].
  apply run_session_packet in Hq as (-> & -> & _); [|done].
  rewrite (take_S_r _ _ p) by done. rewrite !u32_add_l. unfold is_data. split_and!.
  - f_equal. lia.
  - f_equal. unfold body_bytes. rewrite foldr_app. cbn [foldr].
    induction (take i (run_session s evs).2); cbn [foldr]; lia.
  - intros. by rewrite decide_False by tauto.
  - intros. rewrite decide_True by done. apply pid_of_range.
Qed.

Lemma send_sequence_witness :
  let evs := [ESend NewHeartbeatBody; ERecv (NewPacket (mkHeader 4 0 0x2FFFF 0 0) NewSyncBody); ESend NewSyncBody] in
  ∃ p q, (run_session NewSession evs).2 = [p; q] ∧
    LMID (PHeader q) = u32 (LMID (PHeader p) + 1) ∧
    Sent (PHeader q) = u32 (Sent (PHeader p) + Body_Len (PBody p)).
Proof.
  set (evs := [ESend NewHeartbeatBody; ERecv (NewPacket (mkHeader 4 0 0x2FFFF 0 0) NewSyncBody); ESend NewSyncBody]).
  eexists _, _. split; [vm_compute; reflexivity|].
  edestruct (send_sequence NewSession evs 0) as (H1 & H2 & _);
    [vm_compute; repeat split; discriminate|vm_compute; reflexivity|vm_compute; reflexivity|].
  split; [exact H1|exact H2].
Defined.

Lemma delta_u32 x y : - 2 ^ 31 ≤ x - y < 2 ^ 31 → delta (u32 x) (u32 y) = x - y.
Proof. intros. unfold delta. word_lia. Qed.

(** [delta] recovers the true signed distance of two unbounded
    counters from their 32-bit images exactly when they are less than 2^31 apart,
    in either direction and across any number of wraps; swapping the arguments
    negates it. *)
Theorem delta_exact x y :
  (delta (u32 x) (u32 y) = x - y ↔ - 2 ^ 31 ≤ x - y < 2 ^ 31) ∧
  (- 2 ^ 31 < x - y < 2 ^ 31 → delta (u32 y) (u32 x) = - delta (u32 x) (u32 y)).
Proof.
  split; [split; [unfold delta; word_lia|apply delta_u32]|].
  intros. rewrite !delta_u32; lia.
Qed.

(** ** Specification: unbounded counters *)

(** What the session keeps, without the 32-bit wrap-around. *)
Record Counters := mkCounters {
  c_sent : Z; c_recv : Z; c_id : Z; c_rmid : Z; c_peerSent : Z; c_peerRecv : Z; c_peerRMID : Z }.

Definition Counters_zero : Counters := mkCounters 0 0 0 0 0 0 0.

Definition Counters_send (c : Counters) (len : Z) : Counters :=
  c <| c_sent := c_sent c + len |> <| c_id := c_id c + 1 |>.

Definition Counters_recv (c from : Counters) (len : Z) : Counters :=
  mkCounters (c_sent c) (c_recv c + len) (c_id c) (c_id from) (c_sent from) (c_recv from) (c_rmid from).

Definition refines (s : Session) (c : Counters) : Prop :=
  s_sent s = u32 (c_sent c) ∧ s_recv s = u32 (c_recv c) ∧ s_id s = u32 (c_id c) ∧
  s_rmid s = u32 (c_rmid c) ∧ s_peerSent s = u32 (c_peerSent c) ∧
  s_peerRecv s = u32 (c_peerRecv c) ∧ s_peerRMID s = u32 (c_peerRMID c) ∧ is_u32 (s_count s).

(** The header a session with unbounded counters [c] would send. *)
Definition header_refines (h : Header) (c : Counters) : Prop :=
  Sent h = u32 (c_sent c) ∧ Recv h = u32 (c_recv c) ∧ LMID h = u32 (c_id c) ∧ RMID h = u32 (c_rmid c).

Lemma refines_wf s c : refines s c → Session_wf s.
Proof.
  intros (H1&H2&H3&H4&H5&H6&H7&H8). unfold Session_wf.
  rewrite H1, H2, H3, H4, H5, H6, H7. split_and!; auto with word.
Qed.

Lemma NewSession_refines : refines NewSession Counters_zero.
Proof. unfold refines. cbn. split_and!; try done; word_lia. Qed.

Lemma Send_refines s c b s' p :
  refines s c → Session_Send s b = (s', p) →
  refines s' (Counters_send c (Body_Len b)) ∧ header_refines (PHeader p) c.
Proof.
  intros (H1&H2&H3&H4&H5&H6&H7&H8). unfold Session_Send. intros [= <- <-].
  unfold refines, header_refines. case_decide; cbn; rewrite H1, H2, H3, H4, H5, H6, H7;
    autorewrite with word; split_and!; try done; auto with word.
Qed.

Lemma Recv_refines s c p from :
  refines s c → header_refines (PHeader p) from →
  refines (Session_Recv s p) (Counters_recv c from (Body_Len (PBody p))).
Proof.
  intros (H1&H2&H3&H4&H5&H6&H7&H8) (G1&G2&G3&G4). unfold refines. cbn.
  rewrite H1, H2, H3, G1, G2, G3, G4. autorewrite with word. split_and!; try done; auto with word.
Qed.

(** ** Two endpoints over a lossy FIFO link *)

Record Endpoint := mkEndpoint { ep_s : Session; ep_c : Counters }.

(** A datagram in flight, with the sender's unbounded counters when it was sent
    and the length of its body as ghost state. *)
Record Msg := mkMsg { m_wire : bytes; m_from : Counters; m_len : Z }.

Record Link := mkLink {
  l_a : Endpoint; l_b : Endpoint; l_ab : list Msg; l_ba : list Msg; l_lost_ab : Z; l_lost_ba : Z }.

Definition flip_link (l : Link) : Link :=
  mkLink (l_b l) (l_a l) (l_ba l) (l_ab l) (l_lost_ba l) (l_lost_ab l).

Definition link_init : Link :=
  mkLink (mkEndpoint NewSession Counters_zero) (mkEndpoint NewSession Counters_zero) [] [] 0 0.

Definition link_send (b : Body) (l : Link) : Link :=
  let '(s, p) := Session_Send (ep_s (l_a l)) b in
  let c := ep_c (l_a l) in
  l <| l_a := mkEndpoint s (Counters_send c (Body_Len b)) |>
    <| l_ab := l_ab l ++ [mkMsg (Packet_Serialize p) c (Body_Len b)] |>.

(** The receiver parses the datagram and hands the packet to [Session.Recv]; it
    ignores what does not parse. *)
Definition link_deliver (m : Msg) (q : list Msg) (l : Link) : Link :=
  let b := l_b l in
  let s := match ParsePacket (m_wire m) with
           | Ok p => Session_Recv (ep_s b) p
           | _ => ep_s b
           end in
  l <| l_b := mkEndpoint s (Counters_recv (ep_c b) (m_from m) (m_len m)) |> <| l_ab := q |>.

Definition link_drop (m : Msg) (q : list Msg) (l : Link) : Link :=
  l <| l_ab := q |> <| l_lost_ab := l_lost_ab l + m_len m |>.

Inductive link_step : Link → Link → Prop :=
| link_step_send l b : canonical b → link_step l (link_send b l)
| link_step_deliver l m q : l_ab l = m :: q → link_step l (link_deliver m q l)
| link_step_drop l m q : l_ab l = m :: q → link_step l (link_drop m q l)
| link_step_flip l l' : link_step (flip_link l) l' → link_step l (flip_link l').

Definition link_reachable : Link → Prop := rtc link_step link_init.

(** The messages in flight continue the receiver's byte count without a gap, apart
    from what was dropped before them. *)
Fixpoint in_sequence (at_ : Z) (ms : list Msg) : Prop :=
  match ms with
  | [] => True
  | m :: ms => c_sent (m_from m) = at_ ∧ in_sequence (at_ + m_len m) ms
  end.

Definition msgs_bytes (ms : list Msg) : Z := foldr (λ m n, m_len m + n) 0 ms.

Definition msg_ok (m : Msg) : Prop :=
  0 ≤ m_len m ∧ ∃ p, ParsePacket (m_wire m) = Ok p ∧ header_refines (PHeader p) (m_from m) ∧
                     Body_Len (PBody p) = m_len m.

(** The invariant of one direction. *)
Record half_ok (l : Link) : Prop := mkHalf {
  half_refines : refines (ep_s (l_a l)) (ep_c (l_a l));
  half_msgs : Forall msg_ok (l_ab l);
  half_lost : 0 ≤ l_lost_ab l;
  half_seq : in_sequence (c_recv (ep_c (l_b l)) + l_lost_ab l) (l_ab l);
  half_sent : c_sent (ep_c (l_a l)) =
              c_recv (ep_c (l_b l)) + l_lost_ab l + msgs_bytes (l_ab l);
  half_acks : Forall (λ m, 0 ≤ c_recv (m_from m) ≤ c_recv (ep_c (l_a l))) (l_ab l);
  half_recv : 0 ≤ c_recv (ep_c (l_a l));
  half_peer : 0 ≤ c_peerRecv (ep_c (l_b l)) ≤ c_recv (ep_c (l_a l)) }.

Definition link_inv (l : Link) : Prop := half_ok l ∧ half_ok (flip_link l).

Lemma in_sequence_snoc ms m : ∀ a,
  in_sequence a (ms ++ [m]) ↔ in_sequence a ms ∧ c_sent (m_from m) = a + msgs_bytes ms.
Proof.
  induction ms as [|m' ms IH]; intros a; cbn [app in_sequence msgs_bytes foldr].
  - rewrite Z.add_0_r. tauto.
  - fold (msgs_bytes ms). rewrite IH, <- Z.add_assoc. tauto.
Qed.

Lemma msgs_bytes_app ms ns : msgs_bytes (ms ++ ns) = msgs_bytes ms + msgs_bytes ns.
Proof. unfold msgs_bytes. induction ms as [|m ms IH]; cbn [app foldr]; lia. Qed.

Lemma msgs_bytes_nonneg ms : Forall msg_ok ms → 0 ≤ msgs_bytes ms.
Proof. unfold msgs_bytes. induction 1 as [|m ms [? _] _ IH]; cbn [foldr]; lia. Qed.

Lemma link_init_inv : link_inv link_init.
Proof.
  split; (constructor; cbn; [apply NewSession_refines|constructor|lia|done|lia|constructor|lia|lia]).
Qed.

(** Sending: the new datagram is in sequence and acknowledges what was received. *)
Lemma link_send_inv l b : canonical b → link_inv l → link_inv (link_send b l).
Proof.
  intros Hb [[R M L S B A V P] [R' M' L' S' B' A' V' P']]. unfold link_send.
  destruct (Session_Send (ep_s (l_a l)) b) as [s p] eqn:Es.
  pose proof (Send_refines _ _ _ _ _ R Es) as [Rs Hh].
  pose proof (Send_header_wf (ep_s (l_a l)) b (refines_wf _ _ R)) as Hwf. rewrite Es in Hwf. cbn [snd] in Hwf.
  destruct (Send_fields _ _ _ _ Es) as (_ & _ & _ & _ & _ & HB & _).
  cbn in *. split; constructor; cbn; try done.
  - apply Forall_app. split; [done|]. repeat constructor; [apply Body_Len_nonneg|].
    exists p. split; [apply ParsePacket_Serialize; [done|by rewrite HB]|]. by rewrite HB.
  - apply in_sequence_snoc. split; [done|]. cbn. lia.
  - rewrite msgs_bytes_app. cbn. lia.
  - apply Forall_app. split; [done|]. repeat constructor; cbn; lia.
Qed.

(** Delivering moves bytes from in flight to received and updates the
    receiver's view of the sender. *)
Lemma link_deliver_inv l m q : l_ab l = m :: q → link_inv l → link_inv (link_deliver m q l).
Proof.
  intros Hq [[R M L S B A V P] [R' M' L' S' B' A' V' P']]. rewrite Hq in *.
  apply Forall_cons in M as [(Hm & p & Hp & Hh & Hl) M]. apply Forall_cons in A as [Am A].
  destruct S as [Sm S]. cbn in *. unfold link_deliver. rewrite Hp.
  split; constructor; cbn in *; try done; try lia.
  - by replace (_ + m_len m + l_lost_ab l) with (c_recv (ep_c (l_b l)) + l_lost_ab l + m_len m) by lia.
  - rewrite <- Hl. by apply Recv_refines.
  - eapply Forall_impl; [exact A'|]. cbn. lia.
Qed.

Lemma link_drop_inv l m q : l_ab l = m :: q → link_inv l → link_inv (link_drop m q l).
Proof.
  intros Hq [[R M L S B A V P] [R' M' L' S' B' A' V' P']]. rewrite Hq in *.
  apply Forall_cons in M as [[Hm _] M]. apply Forall_cons in A as [Am A].
  destruct S as [Sm S]. cbn in *. split; constructor; cbn in *; try done; try lia.
  by rewrite Z.add_assoc.
Qed.

Lemma link_step_inv l l' : link_step l l' → link_inv l → link_inv l'.
Proof.
  induction 1 as [l b Hb|l m q Hq|l m q Hq|l l' _ IH];
    eauto using link_send_inv, link_deliver_inv, link_drop_inv.
  intros [H1 H2]. destruct IH as [H1' H2']; [by split; destruct l|].
  by split; destruct l'.
Qed.

Lemma link_reachable_inv l : link_reachable l → link_inv l.
Proof.
  unfold link_reachable. intros Hr. remember link_init as l0. assert (link_inv l0) as H0.
  { subst. apply link_init_inv. }
  clear Heql0. induction Hr; eauto using link_step_inv.
Qed.

(** ** Theorems on the conversation *)

(** C40. The 32-bit sessions refine the unbounded specification: in
    every reachable state of two endpoints exchanging serialised packets over a
    lossy link, each counter of each session is the unbounded counter modulo
    2^32. *)
Theorem link_refinement l :
  link_reachable l →
  refines (ep_s (l_a l)) (ep_c (l_a l)) ∧ refines (ep_s (l_b l)) (ep_c (l_b l)).
Proof. intros [H1 H2]%link_reachable_inv. split; [apply H1|apply (half_refines _ H2)]. Qed.

(** [OutBytes] measures loss: in every reachable state
    where less than 2 GiB is outstanding, the value it reports is the number of
    bytes in flight to the peer, plus those lost, plus those the peer has received
    but not yet reported back; none of the three is negative, so a value that
    returns to 0 proves that nothing was lost. *)
Theorem out_bytes_measures_loss l :
  link_reachable l →
  let a := ep_c (l_a l) in
  let in_flight := msgs_bytes (l_ab l) in
  let lost := l_lost_ab l in
  let unreported := c_recv (ep_c (l_b l)) - c_peerRecv a in
  c_sent a - c_peerRecv a < 2 ^ 31 →
  OutBytes (Session_Stats (ep_s (l_a l))) = in_flight + lost + unreported ∧
  0 ≤ in_flight ∧ 0 ≤ lost ∧ 0 ≤ unreported.
Proof.
  intros [[R M L _ B _ _ _] [_ _ _ _ _ _ _ P']]%link_reachable_inv. cbn in *. intros Hout.
  destruct R as (H1 & _ & _ & _ & _ & H6 & _). unfold OutBytes. cbn.
  pose proof (msgs_bytes_nonneg _ M). rewrite H1, H6, delta_u32 by lia. lia.
Qed.

(** [InBytes] just after a packet is received is the
    number of bytes lost before that packet minus the length of its body: in a
    lossless conversation it is the small negative number the comment on
    [InBytes] describes, and it grows only by loss. *)
Theorem in_bytes_measures_loss l m q :
  link_reachable l → l_ab l = m :: q → - 2 ^ 31 ≤ l_lost_ab l - m_len m < 2 ^ 31 →
  InBytes (Session_Stats (ep_s (l_b (link_deliver m q l)))) = l_lost_ab l - m_len m.
Proof.
  intros Hr Hq Hd. pose proof (link_reachable_inv _ Hr) as Hinv.
  assert (c_sent (m_from m) = c_recv (ep_c (l_b l)) + l_lost_ab l) as Hs.
  { destruct Hinv as [[_ _ _ S _ _ _ _] _]. rewrite Hq in S. apply S. }
  destruct (link_deliver_inv l m q Hq Hinv) as [_ [R _ _ _ _ _ _ _]].
  destruct R as (_ & H2 & _ & _ & H5 & _). unfold InBytes. cbn in *.
  rewrite H2, H5, delta_u32 by lia. lia.
Qed.

(** A conversation for the witnesses: A sends a SYNC (delivered) and two
    heartbeats (the first is lost); B acknowledges in between. *)
Inductive LinkCmd := CSend (b : Body) | CDeliver | CDrop | CFlip (c : LinkCmd).

Fixpoint link_exec (c : LinkCmd) (l : Link) : Link :=
  match c, l_ab l with
  | CSend b, _ => if decide (canonical b) then link_send b l else l
  | CDeliver, m :: q => link_deliver m q l
  | CDrop, m :: q => link_drop m q l
  | CFlip c, _ => flip_link (link_exec c (flip_link l))
  | _, [] => l
  end.

Lemma link_exec_step c : ∀ l, link_exec c l = l ∨ link_step l (link_exec c l).
Proof.
  induction c as [b| | |c IH]; intros l; cbn [link_exec].
  - case_decide; [right; by constructor|by left].
  - destruct (l_ab l) eqn:E; [by left|right; by constructor].
  - destruct (l_ab l) eqn:E; [by left|right; by constructor].
  - destruct (IH (flip_link l)) as [->|H]; [left; by destruct l|right; by constructor].
Qed.

Lemma link_exec_reachable cs : ∀ l, link_reachable l → link_reachable (foldl (λ l c, link_exec c l) l cs).
Proof.
  induction cs as [|c cs IH]; intros l Hl; cbn [foldl]; [done|]. apply IH.
  destruct (link_exec_step c l) as [->|H]; [done|]. by eapply rtc_r.
Qed.

Definition demo_cmds : list LinkCmd :=
  [CSend NewSyncBody; CDeliver; CFlip (CSend NewEmptyBody); CFlip CDeliver;
   CSend NewHeartbeatBody; CDrop; CSend NewHeartbeatBody].

Definition demo_link : Link := foldl (λ l c, link_exec c l) link_init demo_cmds.

Lemma demo_link_reachable : link_reachable demo_link.
Proof. apply link_exec_reachable, rtc_refl. Qed.

Lemma link_refinement_witness : refines (ep_s (l_a demo_link)) (ep_c (l_a demo_link)).
Proof. apply (link_refinement demo_link demo_link_reachable). Defined.

Lemma out_bytes_measures_loss_witness : OutBytes (Session_Stats (ep_s (l_a demo_link))) = 12 + 12 + 0.
Proof.
  destruct (out_bytes_measures_loss demo_link demo_link_reachable) as [H _];
    [vm_compute; reflexivity|]. rewrite H. vm_compute. reflexivity.
Defined.

Lemma in_bytes_measures_loss_witness :
  ∃ m q, l_ab demo_link = m :: q ∧
    InBytes (Session_Stats (ep_s (l_b (link_deliver m q demo_link)))) = 12 - 12.
Proof.
  eexists _, _. split; [vm_compute; reflexivity|].
  etransitivity; [apply (in_bytes_measures_loss demo_link _ _ demo_link_reachable)|];
    [vm_compute; reflexivity|vm_compute; split; congruence|vm_compute; reflexivity].
Defined.
