(* ===== verification/SendPath.v ===== *)
(** * The outbound path of a tunnel: [sendPacketFor] and what runs against it

    [src/tunnel/tunnel.go], lines 207-344 and 846-858, 1030-1051.  Every packet a
    tunnel sends goes through [sendPacketFor]: it takes the one [sendPermit], lets
    the session assign the counters and writes the datagram.  Writers of a realm
    can be interrupted while they wait or while they write; [signalClosed] and
    [SetWriteDeadline] do that from other goroutines.

    The model interleaves any number of these goroutines at the granularity of the
    code's channel operations and critical sections.  A thread is a program
    counter; [sp_thread] is one step of a thread, [sp_step] one step of the
    system.  [sp_holder], [sp_assigned], [sp_log] and [sp_interrupted] are ghost
    state.

    A call on the socket whose error the code returns may fail here too (choice
    [Fail]).  The two [SetWriteDeadline] calls whose error the code discards, in
    the deferred reset and in [interruptWrite], always take effect in the model:
    they fail only on a closed socket, where every write fails whatever its
    deadline. *)

From Stdlib Require Import ZArith Lia Strings.Byte.
From stdpp Require Import sorting.
From S2P Require Import Prelude GoStrings PtcpTypes PtcpSession.

Inductive SendError := ErrTunnelClosed | ErrDeadlineExceeded | ErrUDP.

#[export] Instance SendError_eq_dec : EqDecision SendError.
Proof. solve_decision. Defined.

(** The fields of [Conn] the outbound path reads.  [time.Time]'s zero value is
    [None].  [w_changed] names the current [writeDeadlineChanged] channel:
    [notifyWriteDeadlineLocked] closes it and makes the next one. *)
Record WConn := mkWConn {
  w_closed : bool; w_closeCh : bool; w_deadline : option Z; w_changed : nat }.

(** Program counters of [sendPacketFor]. *)
Inductive SendPC :=
| PStart                                        (* top of acquireSendPermit *)
| PLoad (closed : bool) (deadline : option Z) (changed : nat) (* writer's fields copied *)
| PSelect (deadline : option Z) (changed : nat) (* in its select *)
| PGot                                          (* permit received, before the inner select *)
| PHeld                                         (* permit held, back in sendPacketFor *)
| PSnap (closed : bool) (deadline : option Z)   (* inside writeDeadlineMu *)
| PArmed                                        (* activeWriter set, socket deadline set *)
| PAssigned (p : Packet)                        (* session.Send done *)
| PWrote (r : option SendError)                 (* client.Send returned *)
| PRelease (r : option SendError)               (* about to put the permit back *)
| PDone (r : option SendError).

(** [signalClosed] and [SetWriteDeadline]. *)
Inductive ClosePC := KStart | KMarked | KSignalled | KDone.
Inductive SetPC := DStart | DStored | DDone (r : option SendError).

Inductive Thread :=
| TSend (body : Body) (writer : option nat) (pc : SendPC)
| TClose (conn : nat) (pc : ClosePC)
| TSet (conn : nat) (deadline : option Z) (pc : SetPC).

Record SP := mkSP {
  sp_permit : bool;            (* a token is in sendPermit *)
  sp_wdMu : option nat;        (* thread inside writeDeadlineMu, between two steps *)
  sp_active : option nat;      (* activeWriter *)
  sp_sockDL : option Z;        (* write deadline of the UDP socket *)
  sp_session : Session;
  sp_wire : list bytes;        (* datagrams written, in order *)
  sp_done : bool;              (* t.done is closed *)
  sp_now : Z;
  sp_conns : gmap nat WConn;
  sp_threads : gmap nat Thread;
  sp_holder : option nat;      (* ghost: the thread that has the permit *)
  sp_assigned : list Packet;   (* ghost: packets in the order counters were assigned *)
  sp_log : list (nat * Packet);(* ghost: who wrote each datagram of sp_wire *)
  sp_interrupted : gset nat }. (* ghost: connections whose signalClosed has returned *)

(** Which way a step goes where the code leaves it open: the case a [select]
    takes, or whether a call on the socket fails. *)
Inductive Choice := Go | SelClosed | SelDone | SelChanged | SelTimeout | SelPermit | Fail.

#[export] Instance Choice_eq_dec : EqDecision Choice.
Proof. solve_decision. Defined.

(** [!deadline.IsZero() && time.Until(deadline) <= 0]. *)
Definition expired (deadline : option Z) (now : Z) : bool :=
  match deadline with Some d => bool_decide (d - now ≤ 0) | None => false end.

Definition set_thread (tid : nat) (th : Thread) (st : SP) : SP :=
  st <| sp_threads := <[tid := th]> (sp_threads st) |>.

Definition take_permit (tid : nat) (st : SP) : SP :=
  st <| sp_permit := false |> <| sp_holder := Some tid |>.

Definition put_permit (st : SP) : SP :=
  st <| sp_permit := true |> <| sp_holder := None |>.

Definition assign (body : Body) (st : SP) : SP * Packet :=
  let '(s, p) := Session_Send (sp_session st) body in
  (st <| sp_session := s |> <| sp_assigned := sp_assigned st ++ [p] |>, p).

(** The loop of [acquireSendPermit]; [None]: the step is not enabled. *)
Definition acquire_step (writer : option nat) (pc : SendPC) (ch : Choice) (tid : nat) (st : SP)
    : option (SP * SendPC) :=
  match writer, pc with
  | None, PStart =>
      if sp_permit st then Some (take_permit tid st, PHeld) else None
  | Some w, PStart =>
      c ← sp_conns st !! w; Some (st, PLoad (w_closed c) (w_deadline c) (w_changed c))
  | Some w, PLoad closed deadline changed =>
      if closed then Some (st, PDone (Some ErrTunnelClosed))
      else if expired deadline (sp_now st) then Some (st, PDone (Some ErrDeadlineExceeded))
      else Some (st, PSelect deadline changed)
  | Some w, PSelect deadline changed =>
      c ← sp_conns st !! w;
      match ch with
      | SelClosed => if w_closeCh c then Some (st, PDone (Some ErrTunnelClosed)) else None
      | SelDone => if sp_done st then Some (st, PDone (Some ErrTunnelClosed)) else None
      | SelChanged => if decide (changed < w_changed c)%nat then Some (st, PStart) else None
      | SelTimeout => if expired deadline (sp_now st) then Some (st, PDone (Some ErrDeadlineExceeded)) else None
      | SelPermit => if sp_permit st then Some (take_permit tid st, PGot) else None
      | _ => None
      end
  | Some w, PGot =>
      if sp_done st then Some (put_permit st, PDone (Some ErrTunnelClosed)) else Some (st, PHeld)
  | _, _ => None
  end.

(** The rest of [sendPacketFor], with its deferred calls. *)
Definition send_step (body : Body) (writer : option nat) (pc : SendPC) (ch : Choice) (tid : nat) (st : SP)
    : option (SP * SendPC) :=
  match pc, writer with
  | PHeld, None | PArmed, _ =>
      let '(st, p) := assign body st in Some (st, PAssigned p)
  | PHeld, Some w =>
      if decide (sp_wdMu st = None) then
        c ← sp_conns st !! w;
        Some (st <| sp_wdMu := Some tid |>, PSnap (w_closed c) (w_deadline c))
      else None
  | PSnap closed deadline, Some w =>
      let unlocked := st <| sp_wdMu := None |> in
      if closed then Some (unlocked, PRelease (Some ErrTunnelClosed))
      else if expired deadline (sp_now st) then Some (unlocked, PRelease (Some ErrDeadlineExceeded))
      else match ch with
           | Fail => Some (unlocked <| sp_active := None |>, PRelease (Some ErrUDP))
           | _ => Some (unlocked <| sp_active := Some w |> <| sp_sockDL := deadline |>, PArmed)
           end
  | PAssigned p, _ =>
      match ch with
      | Fail => Some (st, PWrote (Some ErrUDP))
      | _ => Some (st <| sp_wire := sp_wire st ++ [Packet_Serialize p] |>
                      <| sp_log := sp_log st ++ [(tid, p)] |>, PWrote None)
      end
  | PWrote r, None => Some (st, PRelease r)
  | PWrote r, Some _ =>
      if decide (sp_wdMu st = None) then
        Some (st <| sp_active := None |> <| sp_sockDL := None |>, PRelease r)
      else None
  | PRelease r, _ => if sp_permit st then None else Some (put_permit st, PDone r)
  | _, _ => None
  end.

Definition sendPacketFor_step (body : Body) (writer : option nat) (pc : SendPC) (ch : Choice)
    (tid : nat) (st : SP) : option (SP * SendPC) :=
  match pc with
  | PStart | PLoad _ _ _ | PSelect _ _ | PGot => acquire_step writer pc ch tid st
  | _ => send_step body writer pc ch tid st
  end.

Definition interruptWrite (w : nat) (st : SP) : SP :=
  if decide (sp_active st = Some w) then st <| sp_sockDL := Some (sp_now st) |> else st.

Definition signalClosed_step (w : nat) (pc : ClosePC) (st : SP) : option (SP * ClosePC) :=
  c ← sp_conns st !! w;
  match pc with
  | KStart => Some (st <| sp_conns := <[w := c <| w_closed := true |>]> (sp_conns st) |>, KMarked)
  | KMarked => Some (st <| sp_conns := <[w := c <| w_closeCh := true |>]> (sp_conns st) |>, KSignalled)
  | KSignalled =>
      if decide (sp_wdMu st = None) then
        Some ((interruptWrite w st) <| sp_interrupted := {[w]} ∪ sp_interrupted st |>, KDone)
      else None
  | KDone => None
  end.

Definition updateWriteDeadline (w : nat) (c : WConn) (deadline : option Z) (ch : Choice) (st : SP)
    : SP * option SendError :=
  if w_closed c then (st, Some ErrTunnelClosed)
  else if decide (sp_active st = Some w) then
    match ch with
    | Fail => (st, Some ErrUDP)
    | _ => (st <| sp_sockDL := deadline |>, None)
    end
  else (st, None).

Definition SetWriteDeadline_step (w : nat) (deadline : option Z) (pc : SetPC) (ch : Choice) (st : SP)
    : option (SP * SetPC) :=
  c ← sp_conns st !! w;
  match pc with
  | DStart =>
      let c := c <| w_deadline := deadline |> <| w_changed := S (w_changed c) |> in
      Some (st <| sp_conns := <[w := c]> (sp_conns st) |>, DStored)
  | DStored =>
      if decide (sp_wdMu st = None) then
        let '(st, r) := updateWriteDeadline w c deadline ch st in Some (st, DDone r)
      else None
  | DDone _ => None
  end.

Definition sp_thread (tid : nat) (ch : Choice) (st : SP) : option SP :=
  th ← sp_threads st !! tid;
  match th with
  | TSend body writer pc =>
      '(st, pc) ← sendPacketFor_step body writer pc ch tid st;
      Some (set_thread tid (TSend body writer pc) st)
  | TClose w pc =>
      '(st, pc) ← signalClosed_step w pc st;
      Some (set_thread tid (TClose w pc) st)
  | TSet w deadline pc =>
      '(st, pc) ← SetWriteDeadline_step w deadline pc ch st;
      Some (set_thread tid (TSet w deadline pc) st)
  end.

Definition starting (th : Thread) : bool :=
  match th with
  | TSend _ _ PStart | TClose _ KStart | TSet _ _ DStart => true
  | _ => false
  end.

(** The connection a goroutine works on has been opened. *)
Definition thread_conn (th : Thread) : option nat :=
  match th with TSend _ w _ => w | TClose w _ | TSet w _ _ => Some w end.

Definition conn_open (st : SP) (th : Thread) : Prop :=
  match thread_conn th with Some w => is_Some (sp_conns st !! w) | None => True end.

#[export] Instance conn_open_dec st th : Decision (conn_open st th).
Proof. unfold conn_open. destruct (thread_conn th); apply _. Defined.

(** One step of the system: a thread moves, a goroutine starts, the reader hands
    a packet to the session, a realm is opened, time passes, or the tunnel's
    [done] channel is closed. *)
Inductive SPEvent :=
| EvThread (tid : nat) (ch : Choice)
| EvSpawn (tid : nat) (th : Thread)
| EvRecv (p : Packet)
| EvOpen (w : nat)
| EvTick (d : Z)
| EvDone.

Definition sp_step (ev : SPEvent) (st : SP) : option SP :=
  match ev with
  | EvThread tid ch => sp_thread tid ch st
  | EvSpawn tid th =>
      if decide (sp_threads st !! tid = None ∧ starting th = true ∧ conn_open st th)
      then Some (set_thread tid th st) else None
  | EvRecv p => Some (st <| sp_session := Session_Recv (sp_session st) p |>)
  | EvOpen w =>
      if decide (sp_conns st !! w = None)
      then Some (st <| sp_conns := <[w := mkWConn false false None 0]> (sp_conns st) |>) else None
  | EvTick d => if decide (0 ≤ d) then Some (st <| sp_now := sp_now st + d |>) else None
  | EvDone => Some (st <| sp_done := true |>)
  end.

Fixpoint sp_run (evs : list SPEvent) (st : SP) : option SP :=
  match evs with
  | [] => Some st
  | ev :: evs => st ← sp_step ev st; sp_run evs st
  end.

(** A fresh tunnel over a session the handshake has used. *)
Definition sp_init (s : Session) (now : Z) : SP :=
  mkSP true None None None s [] false now ∅ ∅ None [] [] ∅.

Definition sp_reachable (s : Session) (now : Z) (st : SP) : Prop :=
  ∃ evs, sp_run evs (sp_init s now) = Some st.

(** ** Invariant *)

Definition holding (th : Thread) : bool :=
  match th with
  | TSend _ _ (PGot | PHeld | PSnap _ _ | PArmed | PAssigned _ | PWrote _ | PRelease _) => true
  | _ => false
  end.

(** What was written, in order, is among the packets [ps] of the session. *)
Definition wire_of (st : SP) (ps : list Packet) : Prop :=
  (sp_log st).*2 `sublist_of` ps.

(** Nobody is inside a realm's write. *)
Definition quiet (st : SP) : Prop :=
  sp_wdMu st = None ∧ sp_active st = None ∧ sp_sockDL st = None.

(** Realm [w] is inside its write; if its [signalClosed] has returned, the socket
    deadline has passed. *)
Definition armed (st : SP) (w : nat) : Prop :=
  sp_wdMu st = None ∧ sp_active st = Some w ∧
  (w ∈ sp_interrupted st → ∃ d, sp_sockDL st = Some d ∧ d ≤ sp_now st).

(** The state of the system as the holder of the permit moves through its code. *)
Definition hold_ok (st : SP) (tid : nat) (writer : option nat) (pc : SendPC) : Prop :=
  match pc, writer with
  | PGot, Some _ | PHeld, _ | PWrote _, None | PRelease _, _ => quiet st ∧ wire_of st (sp_assigned st)
  | PSnap closed _, Some w =>
      sp_wdMu st = Some tid ∧ sp_active st = None ∧ sp_sockDL st = None ∧
      wire_of st (sp_assigned st) ∧ (w ∈ sp_interrupted st → closed = true)
  | PArmed, Some w | PWrote _, Some w => armed st w ∧ wire_of st (sp_assigned st)
  | PAssigned p, Some w => armed st w ∧ ∃ ps, sp_assigned st = ps ++ [p] ∧ wire_of st ps
  | PAssigned p, None => quiet st ∧ ∃ ps, sp_assigned st = ps ++ [p] ∧ wire_of st ps
  | _, _ => False
  end.

Definition conn_closed (st : SP) (w : nat) : Prop :=
  ∃ c, sp_conns st !! w = Some c ∧ w_closed c = true.

Definition thread_ok (st : SP) (th : Thread) : Prop :=
  conn_open st th ∧
  match th with
  | TClose w (KMarked | KSignalled) => conn_closed st w
  | TClose w KDone => w ∈ sp_interrupted st
  | _ => True
  end.

Record sp_inv (s0 : Session) (st : SP) : Prop := mkInv {
  inv_threads : ∀ tid th, sp_threads st !! tid = Some th →
    thread_ok st th ∧ (sp_holder st ≠ Some tid → holding th = false);
  inv_holder :
    match sp_holder st with
    | None => sp_permit st = true ∧ quiet st ∧ wire_of st (sp_assigned st)
    | Some tid => sp_permit st = false ∧ ∃ body writer pc,
        sp_threads st !! tid = Some (TSend body writer pc) ∧ hold_ok st tid writer pc
    end;
  inv_interrupted : ∀ w, w ∈ sp_interrupted st → conn_closed st w;
  inv_session : ∃ evs, run_session s0 evs = (sp_session st, sp_assigned st) }.

Lemma sp_init_inv s now : sp_inv s (sp_init s now).
Proof.
  constructor; cbn; try done.
  - split_and!; try done. by unfold wire_of.
  - by exists [].
Qed.

(** ** Preservation *)

Lemma run_session_snoc evs ev : ∀ s,
  run_session s (evs ++ [ev]) =
  let '(s, ps) := run_session s evs in
  match ev with
  | ESend b => let '(s, p) := Session_Send s b in (s, ps ++ [p])
  | ERecv p => (Session_Recv s p, ps)
  end.
Proof.
  induction evs as [|[b|p] evs IH]; intros s; cbn [run_session app].
  - by destruct ev.
  - destruct (Session_Send s b) as [s1 p1]. rewrite IH. destruct (run_session s1 evs) as [s2 ps].
    destruct ev; [|done]. by destruct (Session_Send s2 body).
  - apply IH.
Qed.

Lemma hold_ok_holding st tid body writer pc :
  hold_ok st tid writer pc → holding (TSend body writer pc) = true.
Proof. by destruct pc, writer. Qed.

Lemma holding_iff s0 st tid th :
  sp_inv s0 st → sp_threads st !! tid = Some th → holding th = true ↔ sp_holder st = Some tid.
Proof.
  intros [Ht Hh _ _] Hth. split.
  - intros Hg. destruct (decide (sp_holder st = Some tid)); [done|].
    destruct (Ht tid th Hth) as [_ H]. rewrite H in Hg; done.
  - intros E. rewrite E in Hh. destruct Hh as (_ & b & w & pc & Hpc & Hok). simplify_eq.
    by eapply hold_ok_holding.
Qed.

(** A thread that does not hold the permit moves and changes nothing else. *)
Lemma inv_move s0 st tid th th' :
  sp_inv s0 st → sp_threads st !! tid = Some th → sp_holder st ≠ Some tid →
  thread_ok st th' → holding th' = false → sp_inv s0 (set_thread tid th' st).
Proof.
  intros [Ht Hh Hi Hs] Hth Hne Hc Hg. constructor; cbn; try done.
  - intros tid' th'' Hl. apply lookup_insert_Some in Hl as [[<- <-]|[Hn Hl]].
    + done.
    + by apply Ht.
  - destruct (sp_holder st) as [h|]; [|done]. destruct Hh as (Hp & b & w & pc & Hpc & Hok).
    split; [done|]. exists b, w, pc. split; [|done]. rewrite lookup_insert_ne by congruence. done.
Qed.

(** A thread takes the permit. *)
Lemma inv_take s0 st tid body writer pc pc' :
  sp_inv s0 st → sp_threads st !! tid = Some (TSend body writer pc) → sp_permit st = true →
  (pc' = PHeld ∨ pc' = PGot ∧ writer ≠ None) →
  sp_inv s0 (set_thread tid (TSend body writer pc') (take_permit tid st)).
Proof.
  intros [Ht Hh Hi Hs] Hth Hp Hpc'. destruct (sp_holder st) as [h|] eqn:Eh.
  { destruct Hh as [? _]. congruence. }
  destruct Hh as (_ & Hq & Hw). constructor; cbn; try done.
  - intros tid' th' Hl. apply lookup_insert_Some in Hl as [[<- <-]|[Hn Hl]].
    + split; [|done]. apply (Ht tid _ Hth).
    + split; [apply (Ht _ _ Hl)|]. intros _. apply (Ht _ _ Hl). done.
  - split; [done|]. exists body, writer, pc'. rewrite lookup_insert_eq. split; [done|].
    destruct Hpc' as [->|[-> ?]]; [by destruct writer|by destruct writer].
Qed.

(** The holder moves to [pc'] in state [st1], keeping the permit. *)
Lemma inv_hold s0 st st1 tid body writer pc pc' :
  sp_inv s0 st → sp_threads st !! tid = Some (TSend body writer pc) → sp_holder st = Some tid →
  sp_threads st1 = sp_threads st → sp_conns st1 = sp_conns st →
  sp_holder st1 = Some tid → sp_permit st1 = sp_permit st →
  sp_interrupted st1 = sp_interrupted st →
  (∃ evs, run_session s0 evs = (sp_session st1, sp_assigned st1)) →
  hold_ok st1 tid writer pc' →
  sp_inv s0 (set_thread tid (TSend body writer pc') st1).
Proof.
  intros [Ht Hh Hi Hs] Hth Hho Et Ec Eh Ep Ei Hs1 Hok. rewrite Hho in Hh.
  constructor; cbn; rewrite ?Et, ?Ec, ?Eh, ?Ei; try done.
  - intros tid' th' Hl. apply lookup_insert_Some in Hl as [[<- <-]|[Hn Hl]].
    + split; [|done]. unfold thread_ok, conn_open in *. cbn. rewrite Ec. apply (Ht tid _ Hth).
    + destruct (Ht _ _ Hl) as [Ho Hg]. split; [|intros _; apply Hg; congruence].
      unfold thread_ok, conn_open, conn_closed in *. cbn. by rewrite Ec, Ei.
  - rewrite Ep. split; [apply Hh|]. exists body, writer, pc'. by rewrite lookup_insert_eq.
  - intros w Hw. unfold conn_closed. cbn. rewrite Ec. by apply Hi.
Qed.

(** The holder puts the permit back. *)
Lemma inv_put s0 st tid body writer pc r :
  sp_inv s0 st → sp_threads st !! tid = Some (TSend body writer pc) → sp_holder st = Some tid →
  quiet st → wire_of st (sp_assigned st) →
  sp_inv s0 (set_thread tid (TSend body writer (PDone r)) (put_permit st)).
Proof.
  intros [Ht Hh Hi Hs] Hth Hho Hq Hw. constructor; cbn; try done.
  intros tid' th' Hl. apply lookup_insert_Some in Hl as [[<- <-]|[Hn Hl]].
  - split; [|done]. apply (Ht tid _ Hth).
  - destruct (Ht _ _ Hl) as [Ho Hg]. split; [done|]. intros _. apply Hg. congruence.
Qed.

Lemma assign_inv s0 st body st1 p :
  (∃ evs, run_session s0 evs = (sp_session st, sp_assigned st)) → assign body st = (st1, p) →
  (∃ evs, run_session s0 evs = (sp_session st1, sp_assigned st1)) ∧
  sp_assigned st1 = sp_assigned st ++ [p] ∧
  ∃ s, st1 = st <| sp_session := s |> <| sp_assigned := sp_assigned st ++ [p] |>.
Proof.
  intros [evs Hr] E. unfold assign in E.
  destruct (Session_Send (sp_session st) body) as [s q] eqn:Es. injection E as <- <-.
  split; [|by eauto]. exists (evs ++ [ESend body]). rewrite run_session_snoc, Hr, Es. done.
Qed.

Lemma acquire_step_inv s0 st tid body writer pc ch st1 pc' :
  sp_inv s0 st → sp_threads st !! tid = Some (TSend body writer pc) →
  acquire_step writer pc ch tid st = Some (st1, pc') →
  sp_inv s0 (set_thread tid (TSend body writer pc') st1).
Proof.
  intros Hinv Hth Hstep. pose proof (holding_iff _ _ _ _ Hinv Hth) as Hhold.
  destruct (inv_threads _ _ Hinv _ _ Hth) as [Hok _].
  unfold acquire_step in Hstep. destruct writer as [w|], pc; try done.
  - assert (sp_holder st ≠ Some tid) by (by intros Ho%Hhold).
    apply bind_Some in Hstep as (c & Hc & Hstep). simplify_eq. by eapply inv_move.
  - assert (sp_holder st ≠ Some tid) by (by intros Ho%Hhold).
    destruct closed; [|destruct (expired _ _)]; simplify_eq; by eapply inv_move.
  - assert (sp_holder st ≠ Some tid) by (by intros Ho%Hhold).
    apply bind_Some in Hstep as (c & Hc & Hstep).
    destruct ch; repeat case_match; simplify_eq; try (by eapply inv_move).
    eapply inv_take; eauto.
  - assert (sp_holder st = Some tid) as Hho by (by apply Hhold).
    pose proof (inv_holder _ _ Hinv) as Hh. rewrite Hho in Hh.
    destruct Hh as (Hp & b & w' & pc & Hpc & Hk). simplify_eq. destruct Hk as [Hq Hw].
    case_match; simplify_eq; [by eapply inv_put|].
    eapply inv_hold; eauto using inv_session; done.
  - case_match; simplify_eq. eapply inv_take; eauto.
Qed.

Lemma wire_of_snoc st ps p : wire_of st ps → wire_of st (ps ++ [p]).
Proof. unfold wire_of. intros. by apply sublist_inserts_r. Qed.

Lemma send_step_inv s0 st tid body writer pc ch st1 pc' :
  sp_inv s0 st → sp_threads st !! tid = Some (TSend body writer pc) → sp_holder st = Some tid →
  send_step body writer pc ch tid st = Some (st1, pc') →
  sp_inv s0 (set_thread tid (TSend body writer pc') st1).
Proof.
  intros Hinv Hth Hho Hstep. pose proof (inv_holder _ _ Hinv) as Hh. rewrite Hho in Hh.
  destruct Hh as (Hp & ? & ? & ? & Hpc & Hok). rewrite Hth in Hpc. injection Hpc as <- <- <-.
  pose proof (inv_session _ _ Hinv) as Hs. unfold send_step in Hstep.
  destruct pc; try done; cbn in Hok.
  - (* PHeld *) destruct writer as [w|].
    + case_decide; [|done]. apply bind_Some in Hstep as (c & Hc & Hstep). simplify_eq.
      eapply inv_hold; eauto. cbn. destruct Hok as ((_ & Ha & Hd) & Hw). split_and!; try done.
      intros Hi. destruct (inv_interrupted _ _ Hinv w Hi) as (c' & Hc' & Hcl). congruence.
    + destruct (assign body st) as [st2 p] eqn:Ea. simplify_eq.
      destruct (assign_inv _ _ _ _ _ Hs Ea) as (Hs1 & _ & s & ->).
      eapply inv_hold; eauto. cbn. destruct Hok as (Hq & Hw). split; [done|]. eauto.
  - (* PSnap *) destruct writer as [w|]; [|done]. destruct Hok as (Hm & Ha & Hd & Hw & Hi).
    destruct closed; [simplify_eq; by eapply inv_hold|].
    destruct (expired _ _); [simplify_eq; by eapply inv_hold|].
    assert (∀ d, hold_ok (st <| sp_wdMu := None |> <| sp_active := Some w |> <| sp_sockDL := d |>)
                   tid (Some w) PArmed) as Harm.
    { intros d. split; [|done]. split_and!; [done|done|]. by intros Hin%Hi. }
    destruct ch; simplify_eq;
      first [eapply inv_hold; [done..|apply Harm] | eapply inv_hold; done].
  - (* PArmed *) destruct writer as [w|]; [|done]. destruct (assign body st) as [st2 p] eqn:Ea.
    simplify_eq. destruct (assign_inv _ _ _ _ _ Hs Ea) as (Hs1 & _ & s & ->).
    eapply inv_hold; eauto. cbn. destruct Hok as (Har & Hw). split; [done|]. eauto.
  - (* PAssigned *)
    assert (∃ ps, sp_assigned st = ps ++ [p] ∧ wire_of st ps) as (ps & Eps & Hw).
    { destruct writer as [w|]; apply Hok. }
    assert (wire_of st (sp_assigned st)) as Hw1 by (rewrite Eps; by apply wire_of_snoc).
    destruct (decide (ch = Fail)) as [->|Hne].
    + simplify_eq. eapply inv_hold; eauto. destruct writer as [w|]; (split; [apply Hok|done]).
    + assert (st1 = st <| sp_wire := sp_wire st ++ [Packet_Serialize p] |>
                       <| sp_log := sp_log st ++ [(tid, p)] |> ∧ pc' = PWrote None) as [-> ->].
      { destruct ch; by simplify_eq. }
      assert (wire_of (st <| sp_wire := sp_wire st ++ [Packet_Serialize p] |>
                          <| sp_log := sp_log st ++ [(tid, p)] |>) (sp_assigned st)) as Hw2.
      { unfold wire_of in *. cbn. rewrite Eps, fmap_app. by apply sublist_app. }
      eapply inv_hold; eauto. destruct writer as [w|]; (split; [apply Hok|done]).
  - (* PWrote *) destruct writer as [w|].
    + case_decide; simplify_eq. eapply inv_hold; eauto. cbn. destruct Hok. done.
    + simplify_eq. by eapply inv_hold.
  - (* PRelease *) destruct writer as [w|]; destruct Hok; case_match; simplify_eq; by eapply inv_put.
Qed.

Lemma hold_ok_frame st st1 tid writer pc :
  sp_wdMu st1 = sp_wdMu st → sp_active st1 = sp_active st → sp_assigned st1 = sp_assigned st →
  sp_log st1 = sp_log st → (sp_active st = None → sp_sockDL st1 = sp_sockDL st) →
  (∀ w, armed st w → armed st1 w) →
  (∀ w, w ∈ sp_interrupted st1 → sp_wdMu st = None ∨ w ∈ sp_interrupted st) →
  hold_ok st tid writer pc → hold_ok st1 tid writer pc.
Proof.
  intros Em Ea Es Ew Ed Har Hint Hok.
  assert (quiet st → quiet st1) as Hq.
  { intros (? & Hn & ?). unfold quiet. rewrite Em, Ea, (Ed Hn). done. }
  assert (∀ ps, wire_of st ps → wire_of st1 ps) as Hw by (intros ps; unfold wire_of; by rewrite Ew).
  destruct pc, writer as [w|]; cbn in *; rewrite ?Es; try done;
    try (destruct Hok as [? ?]; split; eauto; fail);
    try (destruct Hok as (? & ps & ? & ?); split; eauto; fail).
  destruct Hok as (Hm & Hn & Hd & Hwi & Hi). rewrite Em, Ea, (Ed Hn). split_and!; eauto.
  intros Hin. destruct (Hint w Hin); [congruence|eauto].
Qed.

(** Connections stay open, and closed ones stay closed. *)
Definition conns_grow (st st1 : SP) : Prop :=
  ∀ w, (is_Some (sp_conns st !! w) → is_Some (sp_conns st1 !! w)) ∧
       (conn_closed st w → conn_closed st1 w) ∧
       (w ∈ sp_interrupted st → w ∈ sp_interrupted st1).

Lemma thread_ok_grow st st1 th : conns_grow st st1 → thread_ok st th → thread_ok st1 th.
Proof.
  intros Hg [Ho Hc]. split.
  - unfold conn_open in *. destruct (thread_conn th); [by apply Hg|done].
  - destruct th as [| |]; try done. destruct pc; try done; by apply Hg.
Qed.

Lemma conns_grow_insert st w c c' :
  sp_conns st !! w = Some c → (w_closed c = true → w_closed c' = true) →
  conns_grow st (st <| sp_conns := <[w := c']> (sp_conns st) |>).
Proof.
  intros Hc Hcl w'. unfold conn_closed. cbn. split_and!; [|..|done].
  - intros Hw. destruct (decide (w = w')) as [<-|]; [by rewrite lookup_insert_eq|].
    by rewrite lookup_insert_ne.
  - intros (c0 & Hc0 & ?).
    destruct (decide (w = w')) as [<-|]; [|rewrite lookup_insert_ne by done; eauto].
    rewrite lookup_insert_eq. simplify_eq. eauto.
Qed.

(** A step outside [sendPacketFor] that keeps the threads and the session. *)
Lemma inv_outside s0 st st1 tid th th' :
  sp_inv s0 st → sp_threads st !! tid = Some th → holding th = false → holding th' = false →
  thread_ok st1 th' → conns_grow st st1 →
  sp_threads st1 = sp_threads st → sp_holder st1 = sp_holder st → sp_permit st1 = sp_permit st →
  sp_session st1 = sp_session st → sp_assigned st1 = sp_assigned st → sp_log st1 = sp_log st →
  (∀ w, w ∈ sp_interrupted st1 → conn_closed st1 w) →
  (quiet st → quiet st1) →
  (∀ h writer pc, hold_ok st h writer pc → hold_ok st1 h writer pc) →
  sp_inv s0 (set_thread tid th' st1).
Proof.
  intros Hinv Hth Hg Hg' Hc Hconn Et Eh Ep Es Ea Ew Hint Hq Hok.
  destruct Hinv as [Ht Hh Hi Hs].
  constructor; cbn; rewrite ?Et, ?Eh, ?Es, ?Ea; try done.
  - intros tid' th'' Hl. apply lookup_insert_Some in Hl as [[<- <-]|[Hn Hl]]; [done|].
    destruct (Ht _ _ Hl) as [Ho Hh']. split; [|done]. by apply (thread_ok_grow st st1).
  - destruct (sp_holder st) as [h|].
    + destruct Hh as (Hp & b & w & pc & Hpc & Hk). rewrite Ep. split; [done|]. exists b, w, pc.
      split; [|by apply Hok]. rewrite lookup_insert_ne; [done|].
      intros ->. rewrite Hpc in Hth. simplify_eq. apply hold_ok_holding with (body:=b) in Hk. congruence.
    + destruct Hh as (Hp & Hqu & Hw). rewrite Ep. split_and!; [done|by apply Hq|].
      unfold wire_of. cbn. by rewrite Ew.
Qed.

Lemma signalClosed_step_inv s0 st tid w pc st1 pc' :
  sp_inv s0 st → sp_threads st !! tid = Some (TClose w pc) →
  signalClosed_step w pc st = Some (st1, pc') →
  sp_inv s0 (set_thread tid (TClose w pc') st1).
Proof.
  intros Hinv Hth Hstep. apply bind_Some in Hstep as (c & Hc & Hstep).
  pose proof (inv_interrupted _ _ Hinv) as Hi.
  destruct (inv_threads _ _ Hinv _ _ Hth) as [[Ho Hcl] _].
  destruct pc; [..|done].
  - simplify_eq. pose proof (conns_grow_insert st w c (c <| w_closed := true |>) Hc) as Hgr.
    eapply inv_outside; eauto; cbn; [|intros; apply Hgr; eauto].
    split; [by apply Hgr|]. eexists. cbn. by rewrite lookup_insert_eq.
  - simplify_eq. pose proof (conns_grow_insert st w c (c <| w_closeCh := true |>) Hc) as Hgr.
    eapply inv_outside; eauto; cbn; [|intros; apply Hgr; eauto].
    split; [by apply Hgr|]. by apply Hgr.
  - case_decide as Hwd; [|done]. simplify_eq.
    assert (conns_grow st ((interruptWrite w st) <| sp_interrupted := {[w]} ∪ sp_interrupted st |>)) as Hgr.
    { unfold interruptWrite. intros w'. split_and!; [by case_decide..|]. cbn. set_solver. }
    eapply inv_outside; [exact Hinv|exact Hth|done|done| |exact Hgr|..].
    { split; [by apply (thread_ok_grow st _ (TClose w KSignalled) Hgr)|]. cbn. set_solver. }
    all: try (unfold interruptWrite; case_decide; done).
    + intros w'. cbn. intros [->%elem_of_singleton|Hin]%elem_of_union; apply Hgr; auto.
    + unfold interruptWrite. intros (Hm & Ha & Hd). unfold quiet. rewrite decide_False by congruence. done.
    + unfold interruptWrite. intros h wr pc. apply hold_ok_frame; try (case_decide; done).
      * intros Ha. rewrite decide_False by congruence. done.
      * intros w' (Hm & Ha & Hd). case_decide as Hac; cbn; split_and!; try done; cbn.
        -- intros _. eexists. split; [done|]. lia.
        -- intros [->%elem_of_singleton|Hin]%elem_of_union; [congruence|]. by apply Hd.
      * intros w' _. by left.
Qed.

Lemma SetWriteDeadline_step_inv s0 st tid w deadline pc ch st1 pc' :
  sp_inv s0 st → sp_threads st !! tid = Some (TSet w deadline pc) →
  SetWriteDeadline_step w deadline pc ch st = Some (st1, pc') →
  sp_inv s0 (set_thread tid (TSet w deadline pc') st1).
Proof.
  intros Hinv Hth Hstep. apply bind_Some in Hstep as (c & Hc & Hstep).
  pose proof (inv_interrupted _ _ Hinv) as Hi.
  destruct (inv_threads _ _ Hinv _ _ Hth) as [Hok _].
  destruct pc; [..|done].
  - injection Hstep as <- <-.
    pose proof (conns_grow_insert st w c (c <| w_deadline := deadline |> <| w_changed := S (w_changed c) |>) Hc) as Hgr.
    eapply inv_outside; eauto; cbn; [|intros; apply Hgr; eauto].
    apply (thread_ok_grow st); [by apply Hgr|exact Hok].
  - case_decide as Hwd; [|done]. unfold updateWriteDeadline in Hstep.
    destruct (w_closed c) eqn:Hcl.
    { simplify_eq. eapply inv_outside; eauto; first [exact Hok|done]. }
    case_decide as Hac.
    2: { simplify_eq. eapply inv_outside; eauto; first [exact Hok|done]. }
    destruct (decide (ch = Fail)) as [->|Hne].
    { simplify_eq. eapply inv_outside; eauto; first [exact Hok|done]. }
    assert (st1 = st <| sp_sockDL := deadline |> ∧ pc' = DDone None) as [-> ->].
    { destruct ch; by simplify_eq. }
    eapply inv_outside; eauto; try first [exact Hok|done].
    + intros (Hm & Ha & Hd). congruence.
    + intros h wr pc. apply hold_ok_frame; try done; [cbn; congruence| |by left].
      intros w' (Hm & Ha & Hd). split_and!; try done. cbn. intros Hin.
      destruct (Hi w' Hin) as (c' & Hc' & ?). congruence.
Qed.

(** A step of the environment, which moves no thread. *)
Lemma inv_env s0 st st1 :
  sp_inv s0 st → conns_grow st st1 →
  sp_threads st1 = sp_threads st → sp_holder st1 = sp_holder st → sp_permit st1 = sp_permit st →
  sp_wdMu st1 = sp_wdMu st → sp_active st1 = sp_active st → sp_sockDL st1 = sp_sockDL st →
  sp_assigned st1 = sp_assigned st → sp_log st1 = sp_log st →
  sp_interrupted st1 = sp_interrupted st → sp_now st ≤ sp_now st1 →
  (∃ evs, run_session s0 evs = (sp_session st1, sp_assigned st1)) →
  sp_inv s0 st1.
Proof.
  intros [Ht Hh Hi Hs] Hg Et Eh Ep Em Ea Ed Es Ew Ei Hn Hs1.
  constructor; rewrite ?Et, ?Eh, ?Ei; try done.
  - intros tid th Hl. destruct (Ht _ _ Hl). split; [|done]. by apply (thread_ok_grow st).
  - assert (quiet st → quiet st1) as Hq by (unfold quiet; by rewrite Em, Ea, Ed).
    rewrite Ep. destruct (sp_holder st) as [h|].
    + destruct Hh as (Hp & b & w & pc & Hpc & Hk). split; [done|]. exists b, w, pc. split; [done|].
      revert Hk. apply hold_ok_frame; try done; [|rewrite Ei; by right].
      intros w' (Hm & Ha & Hd). unfold armed. rewrite Em, Ea, Ei, Ed. split_and!; try done.
      intros Hin. destruct (Hd Hin) as (d & ? & ?). exists d. split; [done|lia].
    + destruct Hh as (Hp & Hqu & Hw). split_and!; [done|by apply Hq|].
      unfold wire_of. by rewrite Ew, Es.
  - intros w Hw. by apply Hg, Hi.
Qed.

Lemma sp_thread_inv s0 st tid ch st1 : sp_inv s0 st → sp_thread tid ch st = Some st1 → sp_inv s0 st1.
Proof.
  intros Hinv Hstep. apply bind_Some in Hstep as (th & Hth & Hstep). destruct th as [b w pc|w pc|w d pc].
  - apply bind_Some in Hstep as ([st2 pc'] & Hs & [= <-]).
    pose proof (holding_iff _ _ _ _ Hinv Hth) as Hhold.
    unfold sendPacketFor_step in Hs.
    destruct pc; first [exact (acquire_step_inv _ _ _ _ _ _ _ _ _ Hinv Hth Hs)
      | done | exact (send_step_inv _ _ _ _ _ _ _ _ _ Hinv Hth (proj1 Hhold eq_refl) Hs)].
  - apply bind_Some in Hstep as ([st2 pc'] & Hs & [= <-]). by eapply signalClosed_step_inv.
  - apply bind_Some in Hstep as ([st2 pc'] & Hs & [= <-]). by eapply SetWriteDeadline_step_inv.
Qed.

Lemma sp_spawn_inv s0 st tid th :
  sp_inv s0 st → sp_threads st !! tid = None → starting th = true → conn_open st th →
  sp_inv s0 (set_thread tid th st).
Proof.
  intros [Ht Hh Hi Hs] Hnew Hst Ho. constructor; cbn; try done.
  - intros tid' th' Hl. apply lookup_insert_Some in Hl as [[<- <-]|[Hn Hl]]; [|by apply Ht].
    split; [split; [done|]|intros _]; destruct th as [? ? []|? []|]; done.
  - destruct (sp_holder st) as [h|]; [|done]. destruct Hh as (Hp & b & w & pc & Hpc & Hok).
    split; [done|]. exists b, w, pc. split; [|done]. rewrite lookup_insert_ne by congruence. done.
Qed.

Lemma sp_step_inv s0 ev st st1 : sp_inv s0 st → sp_step ev st = Some st1 → sp_inv s0 st1.
Proof.
  intros Hinv Hstep. destruct ev as [tid ch|tid th|p|w|d|]; cbn in Hstep.
  - by eapply sp_thread_inv.
  - case_decide as Hg; [|done]. destruct Hg as (? & ? & ?). simplify_eq. by apply sp_spawn_inv.
  - simplify_eq. destruct (inv_session _ _ Hinv) as [evs Hr].
    apply (inv_env s0 st); try done.
    exists (evs ++ [ERecv p]). by rewrite run_session_snoc, Hr.
  - case_decide as Hg; [|done]. simplify_eq.
    apply (inv_env s0 st); try done; [|apply (inv_session _ _ Hinv)].
    intros w'. unfold conn_closed. cbn. destruct (decide (w = w')) as [<-|].
    + rewrite Hg, lookup_insert_eq. split_and!; [done| |done]. by intros (? & ? & ?).
    + by rewrite lookup_insert_ne.
  - case_decide; [|done]. simplify_eq.
    apply (inv_env s0 st); try done; [cbn; lia|apply (inv_session _ _ Hinv)].
  - simplify_eq. apply (inv_env s0 st); try done; apply (inv_session _ _ Hinv).
Qed.

Lemma sp_reachable_inv s0 now st : sp_reachable s0 now st → sp_inv s0 st.
Proof.
  intros [evs Hr]. pose proof (sp_init_inv s0 now) as Hinv. revert Hinv Hr.
  generalize (sp_init s0 now). induction evs as [|ev evs IH]; intros st0 Hinv Hr; cbn in Hr; [congruence|].
  apply bind_Some in Hr as (st' & Hs & Hr). eauto using sp_step_inv.
Qed.

(** ** Who wrote what *)

(** The bodies a goroutine has put on the wire. *)
Definition logged (st : SP) (tid : nat) : list Body :=
  (λ e, PBody e.2) <$> filter (λ e, e.1 = tid) (sp_log st).

(** What a sender at [pc] has put on the wire: its body once, after a write that
    succeeded. *)
Definition written (body : Body) (pc : SendPC) : list Body :=
  match pc with PWrote None | PRelease None | PDone None => [body] | _ => [] end.

Definition thread_written (th : option Thread) : list Body :=
  match th with Some (TSend body _ pc) => written body pc | _ => [] end.

Definition assigned_ok (th : Thread) : Prop :=
  match th with TSend body _ (PAssigned p) => PBody p = body | _ => True end.

Record log_inv (st : SP) : Prop := mkLogInv {
  log_wire : sp_wire st = (λ e, Packet_Serialize e.2) <$> sp_log st;
  log_threads : ∀ tid, logged st tid = thread_written (sp_threads st !! tid);
  log_assigned : ∀ tid th, sp_threads st !! tid = Some th → assigned_ok th }.

(** A step of thread [tid] that writes nothing. *)
Lemma log_inv_move st st1 tid th th' :
  log_inv st → sp_threads st !! tid = Some th → sp_threads st1 = sp_threads st →
  sp_wire st1 = sp_wire st → sp_log st1 = sp_log st →
  thread_written (Some th') = thread_written (Some th) → assigned_ok th' →
  log_inv (set_thread tid th' st1).
Proof.
  intros [Hw Ht Ha] Hth Et Ew El Hwr Hok. constructor; cbn.
  - by rewrite Ew, El.
  - intros tid'. unfold logged. cbn. rewrite El, Et. change (logged st tid' = thread_written (<[tid:=th']> (sp_threads st) !! tid')).
    rewrite Ht. destruct (decide (tid = tid')) as [<-|].
    + by rewrite lookup_insert_eq, Hth.
    + by rewrite lookup_insert_ne.
  - rewrite Et. intros tid' th'' [[<- <-]|[_ Hl]]%lookup_insert_Some; eauto.
Qed.

Lemma logged_snoc st w tid tid' p :
  logged (st <| sp_wire := w |> <| sp_log := sp_log st ++ [(tid, p)] |>) tid' =
  logged st tid' ++ (if decide (tid = tid') then [PBody p] else []).
Proof.
  unfold logged. cbn. rewrite filter_app, fmap_app. f_equal. unfold filter. cbn. by case_decide.
Qed.

(** The successful write of thread [tid]. *)
Lemma log_inv_write st tid body writer p :
  log_inv st → sp_threads st !! tid = Some (TSend body writer (PAssigned p)) →
  log_inv (set_thread tid (TSend body writer (PWrote None))
    (st <| sp_wire := sp_wire st ++ [Packet_Serialize p] |> <| sp_log := sp_log st ++ [(tid, p)] |>)).
Proof.
  intros [Hw Ht Ha] Hth. constructor.
  - cbn. by rewrite Hw, fmap_app.
  - intros tid'. etrans; [apply logged_snoc|]. cbn. rewrite Ht. case_decide as Hd.
    + subst tid'. rewrite Hth, lookup_insert_eq. cbn. f_equal. apply (Ha _ _ Hth).
    + by rewrite lookup_insert_ne, app_nil_r.
  - cbn. intros tid' th'' [[<- <-]|[_ Hl]]%lookup_insert_Some; [done|eauto].
Qed.

Lemma sendPacketFor_step_log st tid body writer pc ch st1 pc' :
  log_inv st → sp_threads st !! tid = Some (TSend body writer pc) →
  sendPacketFor_step body writer pc ch tid st = Some (st1, pc') →
  log_inv (set_thread tid (TSend body writer pc') st1).
Proof.
  intros Hinv Hth Hs. unfold sendPacketFor_step in Hs.
  destruct pc; try done; unfold acquire_step, send_step, assign in Hs.
  - destruct writer; [apply bind_Some in Hs as (c & Hc & Hs)|case_match]; simplify_eq;
      by eapply log_inv_move.
  - destruct writer; [|done]. repeat case_match; simplify_eq; by eapply log_inv_move.
  - destruct writer; [apply bind_Some in Hs as (c & Hc & Hs)|done]; destruct ch; repeat case_match;
      simplify_eq; by eapply log_inv_move.
  - destruct writer; [|done]. case_match; simplify_eq; by eapply log_inv_move.
  - destruct writer.
    + case_decide; [|done]. apply bind_Some in Hs as (c & Hc & Hs). simplify_eq. by eapply log_inv_move.
    + destruct (Session_Send _ _) as [s q] eqn:Es. apply Send_fields in Es as (_ & _ & _ & _ & _ & Eb & _).
      simplify_eq. by eapply log_inv_move.
  - destruct writer; [|done]. destruct closed; [|destruct (expired _ _); [|destruct ch]];
      simplify_eq; by eapply log_inv_move.
  - destruct (Session_Send _ _) as [s q] eqn:Es. apply Send_fields in Es as (_ & _ & _ & _ & _ & Eb & _).
    simplify_eq. by eapply log_inv_move.
  - destruct ch; simplify_eq; first [by apply log_inv_write | by eapply log_inv_move].
  - destruct writer; [case_decide; [|done]|]; simplify_eq; by eapply log_inv_move.
  - case_match; simplify_eq; by eapply log_inv_move.
Qed.

Lemma sp_thread_log st tid ch st1 : log_inv st → sp_thread tid ch st = Some st1 → log_inv st1.
Proof.
  intros Hinv Hstep. apply bind_Some in Hstep as (th & Hth & Hstep). destruct th as [b w pc|w pc|w d pc].
  - apply bind_Some in Hstep as ([st2 pc'] & Hs & [= <-]). by eapply sendPacketFor_step_log.
  - apply bind_Some in Hstep as ([st2 pc'] & Hs & [= <-]).
    apply bind_Some in Hs as (c & Hc & Hs). unfold interruptWrite in Hs.
    destruct pc; repeat case_decide; simplify_eq; by eapply log_inv_move.
  - apply bind_Some in Hstep as ([st2 pc'] & Hs & [= <-]).
    apply bind_Some in Hs as (c & Hc & Hs). unfold updateWriteDeadline in Hs.
    destruct pc; [|destruct (w_closed c), ch|]; repeat case_decide; simplify_eq; by eapply log_inv_move.
Qed.

Lemma sp_step_log ev st st1 : log_inv st → sp_step ev st = Some st1 → log_inv st1.
Proof.
  intros Hinv Hstep. destruct ev as [tid ch|tid th|p|w|d|]; cbn in Hstep.
  - by eapply sp_thread_log.
  - case_decide as Hg; [|done]. destruct Hg as (Hnew & Hst & _). simplify_eq.
    destruct Hinv as [Hw Ht Ha]. constructor; cbn.
    + done.
    + intros tid'. destruct (decide (tid = tid')) as [<-|]; [|by rewrite lookup_insert_ne; [apply Ht|]].
      rewrite lookup_insert_eq. etrans; [apply Ht|]. rewrite Hnew. by destruct th as [? ? []| |].
    + intros tid' th' [[<- <-]|[_ Hl]]%lookup_insert_Some; [|eauto]. by destruct th as [? ? []| |].
  - simplify_eq. destruct Hinv. by constructor.
  - case_decide; [|done]. simplify_eq. destruct Hinv. by constructor.
  - case_decide; [|done]. simplify_eq. destruct Hinv. by constructor.
  - simplify_eq. destruct Hinv. by constructor.
Qed.

Lemma sp_init_log s now : log_inv (sp_init s now).
Proof. by constructor. Qed.

Lemma sp_reachable_log s0 now st : sp_reachable s0 now st → log_inv st.
Proof.
  intros [evs Hr]. pose proof (sp_init_log s0 now) as Hinv. revert Hinv Hr.
  generalize (sp_init s0 now). induction evs as [|ev evs IH]; intros st0 Hinv Hr; cbn in Hr; [congruence|].
  apply bind_Some in Hr as (st' & Hs & Hr). eauto using sp_step_log.
Qed.

(** ** Progress of the holder *)

(** How many steps the holder of the permit is away from giving it back. *)
Definition rank (pc : SendPC) : nat :=
  match pc with
  | PGot => 7 | PHeld => 6 | PSnap _ _ => 5 | PArmed => 4 | PAssigned _ => 3 | PWrote _ => 2 | PRelease _ => 1
  | _ => 0
  end.

Lemma holder_steps s0 st tid body writer pc :
  sp_inv s0 st → sp_holder st = Some tid → sp_threads st !! tid = Some (TSend body writer pc) →
  ∃ st1 pc', sp_thread tid Go st = Some st1 ∧ sp_threads st1 !! tid = Some (TSend body writer pc') ∧
    (rank pc' < rank pc)%nat ∧ (sp_holder st1 = Some tid ∨ sp_permit st1 = true).
Proof.
  intros Hinv Hho Hth. pose proof (inv_holder _ _ Hinv) as Hh. rewrite Hho in Hh.
  destruct Hh as (Hp & ? & ? & ? & Hpc & Hok). rewrite Hth in Hpc. injection Hpc as <- <- <-.
  destruct (inv_threads _ _ Hinv _ _ Hth) as [[Ho _] _].
  unfold sp_thread. rewrite Hth. cbn [mbind option_bind].
  destruct pc, writer as [w|]; cbn in Hok; try done; cbn [sendPacketFor_step acquire_step send_step].
  - destruct (sp_done st); do 2 eexists; cbn; (split; [done|]); cbn;
      rewrite lookup_insert_eq; (split; [done|]); cbn; split; auto; lia.
  - destruct Hok as [(-> & _ & _) _]. destruct Ho as [c Hc]. cbn in Hc. rewrite Hc. cbn.
    do 2 eexists. split; [done|]. cbn. rewrite lookup_insert_eq. cbn. split_and!; auto; lia.
  - unfold assign. destruct (Session_Send _ _) as [s p].
    do 2 eexists. split; [done|]. cbn. rewrite lookup_insert_eq. cbn. split_and!; auto; lia.
  - destruct closed; [|destruct (expired _ _)]; do 2 eexists; cbn; (split; [done|]); cbn;
      rewrite lookup_insert_eq; (split; [done|]); cbn; split; auto; lia.
  - unfold assign. destruct (Session_Send _ _) as [s p].
    do 2 eexists. split; [done|]. cbn. rewrite lookup_insert_eq. cbn. split_and!; auto; lia.
  - do 2 eexists. split; [done|]. cbn. rewrite lookup_insert_eq. cbn. split_and!; auto; lia.
  - do 2 eexists. split; [done|]. cbn. rewrite lookup_insert_eq. cbn. split_and!; auto; lia.
  - destruct Hok as [(-> & _ & _) _]. cbn.
    do 2 eexists. split; [done|]. cbn. rewrite lookup_insert_eq. cbn. split_and!; auto; lia.
  - do 2 eexists. split; [done|]. cbn. rewrite lookup_insert_eq. cbn. split_and!; auto; lia.
  - rewrite Hp. do 2 eexists. split; [done|]. cbn. rewrite lookup_insert_eq. cbn. split_and!; auto; lia.
  - rewrite Hp. do 2 eexists. split; [done|]. cbn. rewrite lookup_insert_eq. cbn. split_and!; auto; lia.
Qed.

Lemma holder_releases s0 tid body writer : ∀ k st pc,
  sp_inv s0 st → sp_holder st = Some tid → sp_threads st !! tid = Some (TSend body writer pc) →
  (rank pc ≤ k)%nat →
  ∃ n st1, (n ≤ k)%nat ∧ sp_run (replicate n (EvThread tid Go)) st = Some st1 ∧ sp_permit st1 = true.
Proof.
  induction k as [|k IH]; intros st pc Hinv Hho Hth Hk;
    destruct (holder_steps _ _ _ _ _ _ Hinv Hho Hth) as (st1 & pc' & Hs & Hth' & Hr & [Hho'|Hp]); try lia.
  - destruct (IH st1 pc') as (n & st2 & Hn & Hrun & Hp); try done; [by eapply sp_thread_inv|lia|].
    exists (S n), st2. split; [lia|]. cbn. by rewrite Hs.
  - exists 1%nat, st1. split; [lia|]. cbn. by rewrite Hs.
Qed.

(** ** Theorems *)

Lemma StronglySorted_sublist {A} (R : A → A → Prop) (l k : list A) :
  l `sublist_of` k → StronglySorted R k → StronglySorted R l.
Proof.
  induction 1 as [|x l k Hs IH|x l k Hs IH]; [done| |]; intros [Hx Hk]%StronglySorted_cons; [|auto].
  apply StronglySorted_cons. split; [|auto]. rewrite Forall_forall in Hx |- *. intros y Hy. apply Hx. by eapply elem_of_sublist.
Qed.

(** A packet's place among those of a session that began at message id [first]. *)
Definition place (first : Z) (p : Packet) : Z := u32 (LMID (PHeader p) - first).

Lemma places_sorted s0 evs :
  send_wf s0 → let ps := (run_session s0 evs).2 in
  Z.of_nat (length ps) ≤ 2 ^ 32 → StronglySorted Z.lt (place (s_id s0) <$> ps).
Proof.
  intros Hwf ps Hlen.
  assert (place (s_id s0) <$> ps = Z.of_nat <$> seq 0 (length ps)) as ->.
  { apply list_eq_same_length with (length ps); rewrite ?length_fmap, ?length_seq; try done.
    intros i x y Hi (p & -> & Hp)%list_lookup_fmap_Some (n & -> & [-> Hn]%lookup_seq)%list_lookup_fmap_Some.
    unfold place. apply run_session_packet in Hp as (-> & _); [|done]. unfold u32. rewrite Zminus_mod_idemp_l.
    rewrite Z.mod_small; lia. }
  clear Hlen. generalize 0%nat. induction (length ps) as [|n IH]; intros k; cbn; [constructor|].
  apply StronglySorted_cons. split; [|apply IH]. apply Forall_fmap, Forall_seq. cbn. lia.
Qed.

(** Everything written is in order among everything assigned. *)
Lemma sp_inv_wire s0 st : sp_inv s0 st → wire_of st (sp_assigned st).
Proof.
  intros Hinv. pose proof (inv_holder _ _ Hinv) as Hh. destruct (sp_holder st) as [tid|]; [|apply Hh].
  destruct Hh as (_ & b & w & pc & _ & Hok).
  destruct pc, w; cbn in Hok; try done; try apply Hok;
    destruct Hok as (_ & ps & -> & Hw); by apply wire_of_snoc.
Qed.

(** C2. Packets reach the socket in the order their counters were
    assigned, in every reachable interleaving of senders, closers, deadline changes and
    received packets.  [sp_assigned] has the packets in the order in which the session
    assigned their counters: it is what the session produces from what it was handed,
    and its [i]-th packet carries message id [i] counted from the session's first.
    [sp_log] has the packets written: their bytes are the datagrams on the wire, one for
    one, and they are a subsequence of [sp_assigned] (a failed write leaves a gap,
    nothing is reordered or written twice).  So the message ids on the wire, counted
    from the session's first, are strictly increasing as long as the counter has not
    come round. *)
Theorem wire_in_counter_order s0 now st :
  send_wf s0 → sp_reachable s0 now st →
  (∃ evs, run_session s0 evs = (sp_session st, sp_assigned st)) ∧
  (∀ i p, sp_assigned st !! i = Some p → LMID (PHeader p) = u32 (s_id s0 + Z.of_nat i)) ∧
  sp_wire st = Packet_Serialize <$> (sp_log st).*2 ∧
  (sp_log st).*2 `sublist_of` sp_assigned st ∧
  (Z.of_nat (length (sp_assigned st)) ≤ 2 ^ 32 →
    StronglySorted Z.lt ((λ p, u32 (LMID (PHeader p) - s_id s0)) <$> (sp_log st).*2)).
Proof.
  intros Hwf Hreach. pose proof (sp_reachable_inv _ _ _ Hreach) as Hinv. pose proof (sp_inv_wire _ _ Hinv) as Hw.
  destruct (inv_session _ _ Hinv) as [evs Hr]. split_and!.
  - by exists evs.
  - intros i p Hi. apply (run_session_packet evs s0 i p Hwf). by rewrite Hr.
  - rewrite (log_wire _ (sp_reachable_log _ _ _ Hreach)), <-list_fmap_compose. done.
  - exact Hw.
  - intros Hlen. pose proof (places_sorted s0 evs Hwf) as Hs. rewrite Hr in Hs. specialize (Hs Hlen).
    eapply StronglySorted_sublist; [|exact Hs]. by apply fmap_sublist.
Qed.

(** The permit excludes: in every reachable state at most
    one goroutine is between taking the permit and giving it back, and the permit
    is in its channel exactly when there is none. *)
Theorem send_mutual_exclusion s0 now st :
  sp_reachable s0 now st →
  (∀ t1 t2 th1 th2, sp_threads st !! t1 = Some th1 → sp_threads st !! t2 = Some th2 →
     holding th1 = true → holding th2 = true → t1 = t2) ∧
  (sp_permit st = true ↔ ∀ tid th, sp_threads st !! tid = Some th → holding th = false).
Proof.
  intros Hinv%sp_reachable_inv. split.
  - intros t1 t2 th1 th2 H1 H2 Hg1%(holding_iff _ _ _ _ Hinv H1) Hg2%(holding_iff _ _ _ _ Hinv H2).
    congruence.
  - pose proof (inv_holder _ _ Hinv) as Hh. split.
    + intros Hp tid th Hth. destruct (holding th) eqn:Hg; [|done].
      apply (holding_iff _ _ _ _ Hinv Hth) in Hg. rewrite Hg in Hh. destruct Hh. congruence.
    + intros Hall. destruct (sp_holder st) as [tid|]; [|apply Hh].
      destruct Hh as (_ & b & w & pc & Hpc & Hok).
      apply Hall in Hpc. rewrite (hold_ok_holding st tid b w pc Hok) in Hpc. done.
Qed.

(** The permit is never stuck: whenever it is out, the
    goroutine that has it can run on its own (no other goroutine, no lock and no
    select branch stands in its way; the socket call is assumed to return) and
    puts it back within 7 of its steps, whatever the state of its realm. *)
Theorem permit_comes_back s0 now st :
  sp_reachable s0 now st → sp_permit st = false →
  ∃ tid n st1, (n ≤ 7)%nat ∧ sp_run (replicate n (EvThread tid Go)) st = Some st1 ∧ sp_permit st1 = true.
Proof.
  intros Hinv%sp_reachable_inv Hp. pose proof (inv_holder _ _ Hinv) as Hh.
  destruct (sp_holder st) as [tid|] eqn:Hho; [|destruct Hh; congruence].
  destruct Hh as (_ & b & w & pc & Hpc & _). exists tid.
  apply (holder_releases s0 tid b w 7 st pc); try done. destruct pc; cbn; lia.
Qed.

(** C32. Closing a realm interrupts its write: once a
    [signalClosed] of realm [w] has returned, whenever [w] owns the UDP write, now
    or later, the socket's write deadline is in the past, so the write returns; and
    no later [SetWriteDeadline] on the realm can move it again. *)
Theorem close_interrupts_write s0 now st tid w :
  sp_reachable s0 now st → sp_threads st !! tid = Some (TClose w KDone) → sp_active st = Some w →
  ∃ d, sp_sockDL st = Some d ∧ d ≤ sp_now st.
Proof.
  intros Hinv%sp_reachable_inv Hth Ha.
  destruct (inv_threads _ _ Hinv _ _ Hth) as [[_ Hi] _]. cbn in Hi.
  pose proof (inv_holder _ _ Hinv) as Hh. unfold quiet in Hh.
  destruct (sp_holder st) as [h|]; [|destruct Hh as (_ & (_ & ? & _) & _); congruence].
  destruct Hh as (_ & b & wr & pc & _ & Hok). unfold hold_ok, quiet, armed in Hok.
  destruct pc, wr; try done; destruct_and?; simplify_eq; naive_solver.
Qed.

(** A realm's write deadline never leaks into another sender's
    packets: whenever the permit is free, or held by a sender without a realm
    (heartbeats, acknowledgements, BINDs), no realm is registered as the active
    writer and the socket has no write deadline; a realm that is writing is the
    one registered. *)
Theorem no_deadline_leak s0 now st :
  sp_reachable s0 now st →
  (sp_permit st = true → sp_active st = None ∧ sp_sockDL st = None) ∧
  (∀ tid body pc, sp_threads st !! tid = Some (TSend body None pc) →
     holding (TSend body None pc) = true → sp_active st = None ∧ sp_sockDL st = None) ∧
  (∀ tid body w p, sp_threads st !! tid = Some (TSend body (Some w) (PAssigned p)) →
     sp_active st = Some w).
Proof.
  intros Hinv%sp_reachable_inv. pose proof (inv_holder _ _ Hinv) as Hh. split_and!.
  - intros Hp. destruct (sp_holder st); [destruct Hh; congruence|apply Hh].
  - intros tid body pc Hth Hg%(holding_iff _ _ _ _ Hinv Hth). rewrite Hg in Hh.
    destruct Hh as (_ & ? & ? & ? & Hpc & Hok). rewrite Hth in Hpc. injection Hpc as <- <- <-.
    destruct pc; cbn in Hok; try done; apply Hok.
  - intros tid body w p Hth. pose proof (proj1 (holding_iff _ _ _ _ Hinv Hth) eq_refl) as Hho.
    rewrite Hho in Hh. destruct Hh as (_ & ? & ? & ? & Hpc & Hok).
    rewrite Hth in Hpc. injection Hpc as <- <- <-. apply Hok.
Qed.

(** C33. The result of [sendPacketFor] is exact: in every reachable
    state the datagrams on the wire are those of the log, a sender that has
    returned [nil] has written its body exactly once, and a sender that has
    returned an error (closed, deadline, UDP failure) has written nothing. *)
Theorem send_result_exact s0 now st tid body writer r :
  sp_reachable s0 now st → sp_threads st !! tid = Some (TSend body writer (PDone r)) →
  sp_wire st = (λ e, Packet_Serialize e.2) <$> sp_log st ∧
  logged st tid = match r with None => [body] | Some _ => [] end.
Proof.
  intros [Hw Ht _]%sp_reachable_log Hth. split; [done|]. rewrite Ht, Hth. by destruct r.
Qed.

(** ** Witnesses *)

(** A heartbeat is sent; realm 1 starts a write, is closed while it has the
    socket; another heartbeat waits. *)
Definition demo_send : list SPEvent :=
  [EvOpen 1; EvSpawn 1 (TSend NewHeartbeatBody None PStart)] ++
  replicate 5 (EvThread 1 Go) ++
  [EvSpawn 2 (TSend (NewPayloadBody 7 (lit "OPTIONS")) (Some 1%nat) PStart);
   EvThread 2 Go; EvThread 2 Go; EvThread 2 SelPermit; EvThread 2 Go; EvThread 2 Go; EvThread 2 Go; EvThread 2 Go;
   EvTick 3; EvSpawn 3 (TClose 1 KStart); EvSpawn 4 (TSend NewHeartbeatBody None PStart);
   EvThread 3 Go; EvThread 3 Go; EvThread 3 Go].

Definition demo_send_state : SP := default (sp_init NewSession 0) (sp_run demo_send (sp_init NewSession 0)).

Lemma demo_send_reachable : sp_reachable NewSession 0 demo_send_state.
Proof. exists demo_send. vm_compute. reflexivity. Qed.

Lemma wire_in_counter_order_witness :
  length (sp_wire demo_send_state) = 1%nat ∧ length (sp_assigned demo_send_state) = 2%nat ∧
  (sp_log demo_send_state).*2 `sublist_of` sp_assigned demo_send_state ∧
  StronglySorted Z.lt ((λ p, u32 (LMID (PHeader p) - 0)) <$> (sp_log demo_send_state).*2).
Proof.
  split; [vm_compute; reflexivity|]. split; [vm_compute; reflexivity|].
  destruct (wire_in_counter_order NewSession 0 demo_send_state) as (_ & _ & _ & H1 & H2).
  - vm_compute. repeat split; discriminate.
  - exact demo_send_reachable.
  - split; [exact H1|]. apply H2. vm_compute. discriminate.
Defined.

Lemma send_mutual_exclusion_witness :
  sp_permit demo_send_state = false ∧
  (sp_permit demo_send_state = true ↔
   ∀ tid th, sp_threads demo_send_state !! tid = Some th → holding th = false).
Proof.
  split; [vm_compute; reflexivity|].
  exact (proj2 (send_mutual_exclusion NewSession 0 demo_send_state demo_send_reachable)).
Defined.

Lemma permit_comes_back_witness :
  ∃ tid n st1, (n ≤ 7)%nat ∧ sp_run (replicate n (EvThread tid Go)) demo_send_state = Some st1 ∧
    sp_permit st1 = true.
Proof.
  apply (permit_comes_back NewSession 0 demo_send_state demo_send_reachable).
  vm_compute. reflexivity.
Defined.

Lemma close_interrupts_write_witness :
  sp_active demo_send_state = Some 1%nat ∧
  ∃ d, sp_sockDL demo_send_state = Some d ∧ d ≤ sp_now demo_send_state.
Proof.
  split; [vm_compute; reflexivity|].
  apply (close_interrupts_write NewSession 0 demo_send_state 3 1 demo_send_reachable);
    vm_compute; reflexivity.
Defined.

Lemma no_deadline_leak_witness :
  ∃ p, sp_threads demo_send_state !! 2%nat =
         Some (TSend (NewPayloadBody 7 (lit "OPTIONS")) (Some 1%nat) (PAssigned p)) ∧
       sp_active demo_send_state = Some 1%nat.
Proof.
  eexists. split; [vm_compute; reflexivity|].
  eapply (proj2 (proj2 (no_deadline_leak NewSession 0 demo_send_state demo_send_reachable)) 2%nat).
  vm_compute. reflexivity.
Defined.

Lemma send_result_exact_witness :
  sp_threads demo_send_state !! 1%nat = Some (TSend NewHeartbeatBody None (PDone None)) ∧
  logged demo_send_state 1 = [NewHeartbeatBody].
Proof.
  split; [vm_compute; reflexivity|].
  apply (send_result_exact NewSession 0 demo_send_state 1 NewHeartbeatBody None None demo_send_reachable).
  vm_compute. reflexivity.
Defined.
