(* ===== verification/ConnRead.v ===== *)
(** * [Conn.Read]: the inbound side of a realm

    [src/tunnel/tunnel.go], lines 860-931 and 1021-1044.  One goroutine at a time
    calls [Read]; against it run the tunnel's reader (which queues payloads in
    [dataCh]), [signalClosed], [SetReadDeadline] and the clock.  [Read_step] is one
    step of the loop of [Read], split where it takes or gives up [c.mu], reads the
    clock or blocks in a [select]; [cr_step] is one step of the whole.
    [cr_delivered] and [cr_returned] are ghost state: the bytes accepted into
    [dataCh] and the bytes [Read] calls have returned, since the realm opened. *)

From Stdlib Require Import ZArith Lia Strings.Byte.
From S2P Require Import Prelude GoStrings PtcpTypes PtcpSession SendPath.

(** The fields of [Conn] that [Read] uses; [r_changed] names the current
    [readDeadlineChanged] channel. *)
Record RConn := mkRConn {
  r_readBuf : bytes; r_dataCh : list bytes; r_closed : bool; r_closeCh : bool;
  r_deadline : option Z; r_changed : nat }.

(** [make(chan []byte, 4096)], in [Dial]. *)
Definition dataCh_cap : nat := 4096.

Inductive ReadError := EOF | ReadDeadlineExceeded.

Inductive ReadPC :=
| RTop (plen : nat)                                                        (* top of the loop *)
| RLoaded (plen : nat) (closed : bool) (deadline : option Z) (changed : nat) (* fields copied *)
| RWait (plen : nat) (deadline : option Z) (changed : nat)                 (* in the select *)
| RGot (plen : nat) (data : bytes)                                         (* about to call readData *)
| RDone (got : bytes) (err : option ReadError).                            (* returned *)

(** Cases of the [select]. *)
Inductive ReadChoice := RSelData | RSelClosed | RSelChanged | RSelTimeout.

(** [readData]: [copy] fills [p], the rest is kept for the next call. *)
Definition readData (plen : nat) (data : bytes) (c : RConn) : RConn * bytes :=
  let n := Nat.min plen (length data) in
  (if decide (n < length data)%nat
   then c <| r_readBuf := r_readBuf c ++ drop n data |> else c,
   take n data).

Definition Read_step (ch : ReadChoice) (now : Z) (c : RConn) (pc : ReadPC) : option (RConn * ReadPC) :=
  match pc with
  | RTop plen =>
      if decide (0 < length (r_readBuf c))%nat then
        let n := Nat.min plen (length (r_readBuf c)) in
        Some (c <| r_readBuf := drop n (r_readBuf c) |>, RDone (take n (r_readBuf c)) None)
      else Some (c, RLoaded plen (r_closed c) (r_deadline c) (r_changed c))
  | RLoaded plen closed deadline changed =>
      if closed then
        match r_dataCh c with
        | data :: q => Some (c <| r_dataCh := q |>, RGot plen data)
        | [] => Some (c, RDone [] (Some EOF))
        end
      else if expired deadline now then Some (c, RDone [] (Some ReadDeadlineExceeded))
      else Some (c, RWait plen deadline changed)
  | RWait plen deadline changed =>
      match ch with
      | RSelData =>
          match r_dataCh c with
          | data :: q => Some (c <| r_dataCh := q |>, RGot plen data)
          | [] => None
          end
      | RSelClosed => if r_closeCh c then Some (c, RTop plen) else None
      | RSelChanged => if decide (changed < r_changed c)%nat then Some (c, RTop plen) else None
      | RSelTimeout => if expired deadline now then Some (c, RDone [] (Some ReadDeadlineExceeded)) else None
      end
  | RGot plen data => let '(c, got) := readData plen data c in Some (c, RDone got None)
  | RDone _ _ => None
  end.

Definition SetReadDeadline (t : option Z) (c : RConn) : RConn :=
  c <| r_deadline := t |> <| r_changed := S (r_changed c) |>.

(** The non-blocking send of the tunnel's reader: [None] when the buffer is full. *)
Definition enqueue (data : bytes) (c : RConn) : option RConn :=
  if decide (length (r_dataCh c) < dataCh_cap)%nat
  then Some (c <| r_dataCh := r_dataCh c ++ [data] |>) else None.

Record CR := mkCR {
  cr_conn : RConn; cr_now : Z; cr_pc : ReadPC;
  cr_delivered : bytes; cr_returned : bytes }.

Inductive CREvent :=
| CvStep (ch : ReadChoice)       (* the goroutine in Read moves *)
| CvRead (plen : nat)            (* it calls Read again *)
| CvDeliver (data : bytes)       (* the tunnel's reader queues a payload *)
| CvMark                         (* signalClosed: closed = true *)
| CvCloseCh                      (* signalClosed: close(closeCh) *)
| CvSetDeadline (t : option Z)
| CvTick (d : Z).

Definition cr_step (ev : CREvent) (st : CR) : option CR :=
  match ev with
  | CvStep ch =>
      '(c, pc) ← Read_step ch (cr_now st) (cr_conn st) (cr_pc st);
      let got := match pc with RDone got _ => got | _ => [] end in
      Some (st <| cr_conn := c |> <| cr_pc := pc |> <| cr_returned := cr_returned st ++ got |>)
  | CvRead plen =>
      match cr_pc st with RDone _ _ => Some (st <| cr_pc := RTop plen |>) | _ => None end
  | CvDeliver data =>
      c ← enqueue data (cr_conn st);
      Some (st <| cr_conn := c |> <| cr_delivered := cr_delivered st ++ data |>)
  | CvMark => Some (st <| cr_conn := (cr_conn st) <| r_closed := true |> |>)
  | CvCloseCh =>
      if r_closed (cr_conn st)
      then Some (st <| cr_conn := (cr_conn st) <| r_closeCh := true |> |>) else None
  | CvSetDeadline t => Some (st <| cr_conn := SetReadDeadline t (cr_conn st) |>)
  | CvTick d => if decide (0 ≤ d) then Some (st <| cr_now := cr_now st + d |>) else None
  end.

Fixpoint cr_run (evs : list CREvent) (st : CR) : option CR :=
  match evs with
  | [] => Some st
  | ev :: evs => st ← cr_step ev st; cr_run evs st
  end.

(** A realm as [Dial] makes it, with no [Read] in progress. *)
Definition cr_init (now : Z) : CR :=
  mkCR (mkRConn [] [] false false None 0) now (RDone [] None) [] [].

Definition cr_reachable (now : Z) (st : CR) : Prop := ∃ evs, cr_run evs (cr_init now) = Some st.

(** ** Invariant *)

(** The payload a [Read] has taken from [dataCh] and not yet copied. *)
Definition in_hand (pc : ReadPC) : bytes := match pc with RGot _ data => data | _ => [] end.

Record cr_inv (st : CR) : Prop := mkCRInv {
  cr_stream : cr_returned st ++ r_readBuf (cr_conn st) ++ in_hand (cr_pc st) ++
                concat (r_dataCh (cr_conn st)) = cr_delivered st;
  cr_cap : (length (r_dataCh (cr_conn st)) ≤ dataCh_cap)%nat;
  cr_buffer : match cr_pc st with
              | RLoaded _ _ _ _ | RWait _ _ _ | RGot _ _ => r_readBuf (cr_conn st) = []
              | _ => True
              end;
  cr_current : match cr_pc st with
               | RLoaded _ closed deadline changed =>
                   (changed ≤ r_changed (cr_conn st))%nat ∧ (closed = true → r_closed (cr_conn st) = true) ∧
                   (changed = r_changed (cr_conn st) → deadline = r_deadline (cr_conn st))
               | RWait _ deadline changed =>
                   (changed ≤ r_changed (cr_conn st))%nat ∧
                   (changed = r_changed (cr_conn st) → deadline = r_deadline (cr_conn st))
               | _ => True
               end;
  cr_closing : r_closeCh (cr_conn st) = true → r_closed (cr_conn st) = true }.

Lemma cr_init_inv now : cr_inv (cr_init now).
Proof. constructor; cbn; try done. unfold dataCh_cap. lia. Qed.

(** [readData] hands out a prefix and keeps the rest in order. *)
Lemma readData_stream plen data c c1 got :
  readData plen data c = (c1, got) → r_readBuf c = [] →
  got ++ r_readBuf c1 = data ∧ r_dataCh c1 = r_dataCh c ∧ r_closed c1 = r_closed c ∧
  r_closeCh c1 = r_closeCh c ∧ got = take plen data.
Proof.
  unfold readData. intros E Hb. simplify_eq.
  assert (take (plen `min` length data) data = take plen data) as ->.
  { destruct (decide (plen ≤ length data)%nat); [by rewrite Nat.min_l by lia|].
    by rewrite Nat.min_r, firstn_all, take_ge by lia. }
  case_decide as Hn; cbn; rewrite Hb; [|rewrite app_nil_r]; split_and!; try done.
  - replace (plen `min` length data)%nat with plen by lia. apply take_drop.
  - apply take_ge. lia.
Qed.

#[local] Arguments readData : simpl never.

Lemma Read_step_inv ch st c pc :
  cr_inv st → Read_step ch (cr_now st) (cr_conn st) (cr_pc st) = Some (c, pc) →
  cr_inv (st <| cr_conn := c |> <| cr_pc := pc |>
             <| cr_returned := cr_returned st ++ match pc with RDone got _ => got | _ => [] end |>).
Proof.
  intros [Hs Hc Hb Hu Hx] E. destruct (cr_pc st) as [plen|plen cl dl chg|plen dl chg|plen data|got e] eqn:Epc;
    cbn in *; try done.
  - case_decide as Hl; simplify_eq; constructor; cbn; try done.
    + rewrite <- app_assoc, (app_assoc (take _ _)), take_drop. done.
    + by rewrite app_nil_r.
    + by apply nil_length_inv, Nat.le_0_r, Nat.nlt_ge.
  - destruct cl; [destruct (r_dataCh (cr_conn st)) as [|d q] eqn:Ed|destruct (expired dl _)];
      simplify_eq; constructor; cbn in *; rewrite ?Ed, ?app_nil_r; try done; try lia; try apply Hu.
    + by rewrite Hb, app_nil_r in *.
    + split; apply Hu.
  - destruct ch; [destruct (r_dataCh (cr_conn st)) as [|d q] eqn:Ed|..]; repeat case_match;
      simplify_eq; constructor; cbn in *; rewrite ?Ed, ?app_nil_r; try done; try lia.
    intros _. by apply Hx.
  - destruct (readData plen data (cr_conn st)) as [c1 got] eqn:Er. simplify_eq.
    apply readData_stream in Er as (Er & Ed & E1 & E2 & _); [|done].
    constructor; cbn; rewrite ?Ed, ?E1, ?E2; try done.
    rewrite <- Hs, Hb. cbn. rewrite <- app_assoc. f_equal. by rewrite <- Er, <- app_assoc.
Qed.

Lemma cr_step_inv ev st st1 : cr_inv st → cr_step ev st = Some st1 → cr_inv st1.
Proof.
  intros Hinv E. destruct ev as [ch|plen|data| | |t|d]; cbn in E.
  - apply bind_Some in E as ([c pc] & Hs & [= <-]). by apply (Read_step_inv ch).
  - destruct Hinv as [Hs Hc Hb Hu Hx]. destruct (cr_pc st) eqn:Epc; simplify_eq. by constructor.
  - destruct Hinv as [Hs Hc Hb Hu Hx]. apply bind_Some in E as (c & He & [= <-]).
    unfold enqueue in He. case_decide as Hl; [|done]. injection He as <-.
    constructor; cbn; try done.
    + rewrite <- Hs, concat_app, <- !app_assoc. cbn. by rewrite app_nil_r.
    + rewrite length_app. cbn. lia.
  - destruct Hinv as [Hs Hc Hb Hu Hx]. simplify_eq. constructor; cbn; try done.
    destruct (cr_pc st); destruct_and?; split_and?; done.
  - destruct Hinv as [Hs Hc Hb Hu Hx]. destruct (r_closed (cr_conn st)) eqn:Hcl; simplify_eq. constructor; cbn; try done. by rewrite Hcl in *.
  - destruct Hinv as [Hs Hc Hb Hu Hx]. simplify_eq. constructor; cbn; try done.
    destruct (cr_pc st); destruct_and?; split_and?; try done; lia.
  - destruct Hinv as [Hs Hc Hb Hu Hx]. case_decide; simplify_eq. by constructor.
Qed.

Lemma cr_reachable_inv now st : cr_reachable now st → cr_inv st.
Proof.
  intros [evs Hr]. pose proof (cr_init_inv now) as Hinv. revert Hinv Hr.
  generalize (cr_init now). induction evs as [|ev evs IH]; intros st0 Hinv Hr; cbn in Hr; [congruence|].
  apply bind_Some in Hr as (st' & Hs & Hr). eauto using cr_step_inv.
Qed.

(** ** Termination of [Read] once the realm is closed *)

(** An upper bound on the steps left, once [closed] is set. *)
Definition read_rank (pc : ReadPC) : nat :=
  match pc with
  | RLoaded _ false _ _ => 5 | RWait _ _ _ => 4 | RTop _ => 3 | RLoaded _ true _ _ => 2
  | RGot _ _ => 1 | RDone _ _ => 0
  end.

Definition returned (pc : ReadPC) : bool := match pc with RDone _ _ => true | _ => false end.

Lemma read_rank_decreases ch now c pc c1 pc1 :
  r_closed c = true → Read_step ch now c pc = Some (c1, pc1) → (read_rank pc1 < read_rank pc)%nat.
Proof.
  intros Hc E. destruct pc as [plen|plen cl dl chg|plen dl chg|plen data|got e]; cbn in E; try done.
  - case_decide; simplify_eq; cbn; rewrite ?Hc; lia.
  - destruct cl; repeat case_match; simplify_eq; cbn; lia.
  - destruct ch; repeat case_match; simplify_eq; cbn; lia.
  - destruct (readData _ _ _). simplify_eq. cbn. lia.
Qed.

(** Outside its [select], [Read] never waits for anybody. *)
Lemma read_enabled ch now c pc :
  returned pc = false → (∀ plen dl chg, pc ≠ RWait plen dl chg) → is_Some (Read_step ch now c pc).
Proof.
  intros Hr Hw. destruct pc as [plen|plen cl dl chg|plen dl chg|plen data|got e]; cbn; try done.
  - case_decide; eauto.
  - repeat case_match; eauto.
  - by destruct (Hw plen dl chg).
Qed.

(** ** Theorems *)

(** C23. Stream integrity of a realm's inbound side: in every
    interleaving of [Read] calls (of any buffer sizes) with deliveries, closing,
    deadline changes and time-outs, the bytes returned so far, followed by the
    buffered remainder, the payload in hand and the queued payloads, are exactly
    the bytes delivered, in order; and the queue never exceeds 4096 payloads. *)
Theorem read_stream_integrity now st :
  cr_reachable now st →
  cr_returned st ++ r_readBuf (cr_conn st) ++ in_hand (cr_pc st) ++ concat (r_dataCh (cr_conn st))
    = cr_delivered st ∧
  (length (r_dataCh (cr_conn st)) ≤ 4096)%nat.
Proof. intros [Hs Hc _ _ _]%cr_reachable_inv. done. Qed.

(** C39. [Read] reports [io.EOF] only when the realm is closed and
    everything delivered has been returned, and [os.ErrDeadlineExceeded] only with
    a deadline that has passed and without losing a byte; otherwise it returns at
    most the buffer's size, and at least one byte when the buffer is not empty and
    no empty payload was queued. *)
Theorem read_eof_after_drain now st ch st1 got err :
  cr_reachable now st → cr_step (CvStep ch) st = Some st1 → cr_pc st1 = RDone got err →
  match err with
  | Some EOF => r_closed (cr_conn st1) = true ∧ got = [] ∧ cr_returned st1 = cr_delivered st1
  | Some ReadDeadlineExceeded =>
      got = [] ∧ cr_conn st1 = cr_conn st ∧
      ∃ plen d, d ≤ cr_now st ∧
        ((∃ cl n, cr_pc st = RLoaded plen cl (Some d) n) ∨ (∃ n, cr_pc st = RWait plen (Some d) n))
  | None =>
      ∃ plen, (cr_pc st = RTop plen ∧ r_readBuf (cr_conn st) ≠ [] ∨ ∃ data, cr_pc st = RGot plen data) ∧
        (length got ≤ plen)%nat ∧
        (plen ≠ 0%nat → cr_pc st ≠ RGot plen [] → got ≠ [])
  end.
Proof.
  intros Hinv%cr_reachable_inv E Epc. apply bind_Some in E as ([c pc] & Hs & [= <-]).
  cbn in Epc. subst pc.
  destruct (cr_pc st) as [plen|plen cl dl chg|plen dl chg|plen data|got' e] eqn:Ep; cbn in Hs; try done.
  - case_decide as Hl; simplify_eq. exists plen. split_and!.
    + left. split; [done|]. intros He. rewrite He in Hl. cbn in Hl. lia.
    + rewrite length_take. lia.
    + intros Hp _. destruct (r_readBuf (cr_conn st)); [cbn in Hl; lia|]. by destruct plen.
  - destruct cl; [destruct (r_dataCh (cr_conn st)) as [|d q] eqn:Ed|destruct (expired dl _) eqn:Ex];
      simplify_eq; cbn.
    + destruct Hinv as [Hst _ Hb Hu _]. rewrite Ep in *. cbn in *. destruct Hu as (_ & Hu & _).
      rewrite Hb, Ed in Hst. cbn in Hst. rewrite app_nil_r in *. split_and!; auto.
    + split_and!; try done. destruct dl as [d|]; [|done]. apply bool_decide_eq_true in Ex.
      exists plen, d. split; [lia|]. left. eauto.
  - destruct ch; repeat case_match; simplify_eq. split_and!; try done.
    destruct dl as [d|]; [|done].
    match goal with H : expired _ _ = true |- _ => apply bool_decide_eq_true in H end.
    exists plen, d. split; [lia|]. right. eauto.
  - destruct (readData plen data (cr_conn st)) as [c1 g] eqn:Er. simplify_eq.
    apply readData_stream in Er as (_ & _ & _ & _ & ->); [|by pose proof (cr_buffer _ Hinv) as Hb; rewrite Ep in Hb].
    exists plen. split_and!; [eauto|rewrite length_take; lia|]. intros Hp Hd.
    destruct data; [done|]. by destruct plen.
Qed.

(** No [Read] survives its realm: once [signalClosed] has
    marked the realm and closed [closeCh], a [Read] in progress always has a step
    it can take by itself, and every step it takes, whichever [select] case the
    scheduler picks, brings it nearer to returning; at most five are left. *)
Theorem read_returns_after_close now st :
  cr_reachable now st → r_closeCh (cr_conn st) = true → returned (cr_pc st) = false →
  (∃ ch, is_Some (cr_step (CvStep ch) st)) ∧
  (read_rank (cr_pc st) ≤ 5)%nat ∧
  (∀ ch st1, cr_step (CvStep ch) st = Some st1 →
     (read_rank (cr_pc st1) < read_rank (cr_pc st))%nat ∧ r_closeCh (cr_conn st1) = true).
Proof.
  intros Hinv%cr_reachable_inv Hc Hr. split_and!.
  - exists RSelClosed. cbn.
    assert (is_Some (Read_step RSelClosed (cr_now st) (cr_conn st) (cr_pc st))) as [[c pc] ->]; [|cbn; eauto].
    destruct (cr_pc st) as [| |plen dl chg| |] eqn:Ep; [by apply read_enabled..| |by apply read_enabled|done].
    cbn. rewrite Hc. eauto.
  - destruct (cr_pc st) as [|? [] ? ?| | |]; cbn; lia.
  - intros ch st1 E. apply bind_Some in E as ([c pc] & Hs & [= <-]). cbn. split.
    + eapply read_rank_decreases; [|exact Hs]. by apply (cr_closing _ Hinv).
    + destruct (cr_pc st) as [plen|plen cl dl chg|plen dl chg|plen data|got' e]; cbn in Hs; try done.
      * case_decide; by simplify_eq.
      * repeat case_match; by simplify_eq.
      * destruct ch; repeat case_match; by simplify_eq.
      * unfold readData in Hs. case_decide; by simplify_eq.
Qed.

(** A deadline change always reaches a blocked [Read]: a
    [Read] in its [select] either waits on the deadline that is in force, or is
    woken by the channel that was closed when the deadline was changed. *)
Theorem read_deadline_effective now st plen deadline changed :
  cr_reachable now st → cr_pc st = RWait plen deadline changed →
  deadline = r_deadline (cr_conn st) ∨
  cr_step (CvStep RSelChanged) st = Some (st <| cr_pc := RTop plen |> <| cr_returned := cr_returned st ++ [] |>).
Proof.
  intros [_ _ _ Hu _]%cr_reachable_inv Ep. rewrite Ep in Hu. destruct Hu as [Hle Hd].
  destruct (decide (changed = r_changed (cr_conn st))) as [He|Hne]; [left; auto|right].
  cbn. rewrite Ep. cbn. rewrite decide_True by lia. by destruct st.
Qed.

(** ** Witnesses *)

(** Two payloads are read with a small buffer; the realm closes with one queued. *)
Definition demo_read : list CREvent :=
  [CvRead 4; CvStep RSelData; CvStep RSelData; CvDeliver (lit "RTSP/1.0"); CvDeliver (lit " 200 OK");
   CvStep RSelData; CvStep RSelData; CvRead 16; CvStep RSelData; CvSetDeadline (Some 9); CvMark; CvCloseCh; CvRead 16].

Definition demo_read_state : CR := default (cr_init 0) (cr_run demo_read (cr_init 0)).

Lemma demo_read_reachable : cr_reachable 0 demo_read_state.
Proof. exists demo_read. vm_compute. reflexivity. Qed.

Lemma read_stream_integrity_witness :
  cr_returned demo_read_state = lit "RTSP/1.0" ∧
  cr_returned demo_read_state ++ r_readBuf (cr_conn demo_read_state) ++ in_hand (cr_pc demo_read_state) ++
    concat (r_dataCh (cr_conn demo_read_state)) = cr_delivered demo_read_state.
Proof.
  split; [vm_compute; reflexivity|].
  exact (proj1 (read_stream_integrity 0 demo_read_state demo_read_reachable)).
Defined.

Lemma read_returns_after_close_witness :
  ∃ ch, is_Some (cr_step (CvStep ch) demo_read_state).
Proof.
  apply (read_returns_after_close 0 demo_read_state demo_read_reachable); vm_compute; reflexivity.
Defined.

Definition demo_eof : list CREvent :=
  demo_read ++ [CvStep RSelData; CvStep RSelData; CvStep RSelData; CvRead 16; CvStep RSelData].
Definition demo_eof_state : CR := default (cr_init 0) (cr_run demo_eof (cr_init 0)).

Lemma read_eof_after_drain_witness :
  ∃ st1, cr_step (CvStep RSelData) demo_eof_state = Some st1 ∧ cr_pc st1 = RDone [] (Some EOF) ∧
    cr_returned st1 = cr_delivered st1 ∧ cr_delivered st1 = lit "RTSP/1.0 200 OK".
Proof.
  eexists. split; [vm_compute; reflexivity|]. split; [reflexivity|]. split; [|vm_compute; reflexivity].
  refine (proj2 (proj2 (read_eof_after_drain 0 demo_eof_state RSelData _ [] (Some EOF) _ _ _))).
  - exists demo_eof. vm_compute. reflexivity.
  - vm_compute. reflexivity.
  - reflexivity.
Defined.

Definition demo_wait : list CREvent :=
  [CvRead 4; CvStep RSelData; CvStep RSelData; CvSetDeadline (Some 9)].
Definition demo_wait_state : CR := default (cr_init 0) (cr_run demo_wait (cr_init 0)).

Lemma read_deadline_effective_witness :
  cr_pc demo_wait_state = RWait 4 None 0 ∧
  (None = r_deadline (cr_conn demo_wait_state) ∨
   cr_step (CvStep RSelChanged) demo_wait_state =
     Some (demo_wait_state <| cr_pc := RTop 4 |> <| cr_returned := cr_returned demo_wait_state ++ [] |>)).
Proof.
  split; [vm_compute; reflexivity|].
  apply (read_deadline_effective 0 demo_wait_state 4 None 0).
  - exists demo_wait. vm_compute. reflexivity.
  - vm_compute. reflexivity.
Defined.
