(* ===== verification/ConnWrite.v ===== *)
(** * [Conn.Write]: the outbound side of a realm

    [src/tunnel/tunnel.go], lines 933-965.  [Write] cuts its argument into payloads
    of at most 1280 bytes and sends each with [sendPacketFor].  The model runs any
    number of [Write] calls on top of the system of [SendPath]: each payload is a
    call frame, a [TSend] thread of that system, which the writer waits for.
    [wr_frames] is ghost state: the frames of the call, oldest first. *)

From Stdlib Require Import ZArith Lia Strings.Byte.
From Equations Require Import Equations.
From S2P Require Import Prelude GoStrings PtcpTypes PtcpSession SendPath.

Definition maxPayloadSize : nat := 1280.

Inductive WritePC :=
| WCheckConn                                                  (* c.closed *)
| WCheckTunnel                                                (* c.tunnel.IsClosed() *)
| WLoop (rest : bytes) (n : nat)                              (* top of the loop *)
| WCall (frame : nat) (chunk rest : bytes) (n : nat)          (* in sendPacketFor *)
| WRet (n : nat) (err : option SendError).                    (* returned *)

Record Writer := mkWriter {
  wr_conn : nat; wr_realm : Z; wr_p : bytes; wr_pc : WritePC; wr_frames : list nat }.

Record CW := mkCW { cw_sp : SP; cw_writers : gmap nat Writer }.

(** One step of a [Write] call; [fresh] names the call frame it opens, if it opens
    one.  [t.closed] and [t.done] are set together under [t.mu]. *)
Definition Write_step (fresh : nat) (wr : Writer) (sp : SP) : option (SP * Writer) :=
  match wr_pc wr with
  | WCheckConn =>
      c ← sp_conns sp !! wr_conn wr;
      Some (sp, wr <| wr_pc := if w_closed c then WRet 0 (Some ErrTunnelClosed) else WCheckTunnel |>)
  | WCheckTunnel =>
      Some (sp, wr <| wr_pc := if sp_done sp then WRet 0 (Some ErrTunnelClosed) else WLoop (wr_p wr) 0 |>)
  | WLoop rest n =>
      if decide (0 < length rest)%nat then
        let chunk := if decide (maxPayloadSize < length rest)%nat then take maxPayloadSize rest else rest in
        let rest := drop (length chunk) rest in
        let call := TSend (NewPayloadBody (wr_realm wr) chunk) (Some (wr_conn wr)) PStart in
        sp ← sp_step (EvSpawn fresh call) sp;
        Some (sp, wr <| wr_pc := WCall fresh chunk rest n |> <| wr_frames := wr_frames wr ++ [fresh] |>)
      else Some (sp, wr <| wr_pc := WRet n None |>)
  | WCall frame chunk rest n =>
      match sp_threads sp !! frame with
      | Some (TSend _ _ (PDone (Some e))) => Some (sp, wr <| wr_pc := WRet n (Some e) |>)
      | Some (TSend _ _ (PDone None)) => Some (sp, wr <| wr_pc := WLoop rest (n + length chunk) |>)
      | _ => None
      end
  | WRet _ _ => None
  end.

Inductive CWEvent :=
| WvSend (ev : SPEvent)                                   (* anything else on the send path *)
| WvWrite (wid conn : nat) (realm : Z) (p : bytes)        (* Write is called *)
| WvStep (wid fresh : nat).                               (* the call moves *)

Definition cw_step (ev : CWEvent) (st : CW) : option CW :=
  match ev with
  | WvSend ev => sp ← sp_step ev (cw_sp st); Some (st <| cw_sp := sp |>)
  | WvWrite wid conn realm p =>
      if decide (cw_writers st !! wid = None)
      then Some (st <| cw_writers := <[wid := mkWriter conn realm p WCheckConn []]> (cw_writers st) |>)
      else None
  | WvStep wid fresh =>
      wr ← cw_writers st !! wid;
      '(sp, wr) ← Write_step fresh wr (cw_sp st);
      Some (st <| cw_sp := sp |> <| cw_writers := <[wid := wr]> (cw_writers st) |>)
  end.

Fixpoint cw_run (evs : list CWEvent) (st : CW) : option CW :=
  match evs with
  | [] => Some st
  | ev :: evs => st ← cw_step ev st; cw_run evs st
  end.

Definition cw_init (s : Session) (now : Z) : CW := mkCW (sp_init s now) ∅.

Definition cw_reachable (s : Session) (now : Z) (st : CW) : Prop :=
  ∃ evs, cw_run evs (cw_init s now) = Some st.

(** ** Specification *)

(** The fragments of a write, as a function of its argument. *)
Equations? chunks (p : bytes) : list bytes by wf (length p) lt :=
  chunks [] := [];
  chunks (b :: p) := take maxPayloadSize (b :: p) :: chunks (drop maxPayloadSize (b :: p)).
Proof. rewrite length_drop. unfold maxPayloadSize. cbn [length]. lia. Qed.

(** The bodies that a group of call frames has put on the wire, in wire order. *)
Definition wlog (sp : SP) (frames : list nat) : list Body :=
  (λ e, PBody e.2) <$> filter (λ e, e.1 ∈ frames) (sp_log sp).

(** ** Fragmentation *)

Lemma chunks_cons p : p ≠ [] → chunks p = take maxPayloadSize p :: chunks (drop maxPayloadSize p).
Proof. destruct p; [done|]. intros _. by simp chunks. Qed.

Lemma concat_chunks p : concat (chunks p) = p.
Proof.
  funelim (chunks p); [done|]. cbn [concat].
  etrans; [apply (f_equal (app _)); eassumption|apply (take_drop maxPayloadSize (b :: p))].
Qed.

Lemma chunks_sizes p : Forall (λ c, 0 < length c ≤ maxPayloadSize)%nat (chunks p).
Proof.
  funelim (chunks p); constructor; [|done]. rewrite length_take. unfold maxPayloadSize. cbn [length]. lia.
Qed.

(** The chunk the loop takes is the next fragment. *)
Lemma loop_chunk rest :
  (0 < length rest)%nat →
  let chunk := if decide (maxPayloadSize < length rest)%nat then take maxPayloadSize rest else rest in
  chunk ++ drop (length chunk) rest = rest ∧ chunks rest = chunk :: chunks (drop (length chunk) rest).
Proof.
  intros Hl. cbn zeta. rewrite chunks_cons by (by intros ->; cbn in Hl; lia).
  case_decide as Hd.
  - rewrite length_take, Nat.min_l by lia. split; [apply take_drop|done].
  - rewrite (drop_ge rest (length rest)), (take_ge rest), (drop_ge rest maxPayloadSize), app_nil_r by lia. done.
Qed.

(** ** Invariant *)

Lemma wlog_snoc sp sp1 frames tid p :
  sp_log sp1 = sp_log sp ++ [(tid, p)] →
  wlog sp1 frames = wlog sp frames ++ (if decide (tid ∈ frames) then [PBody p] else []).
Proof.
  intros E. unfold wlog. rewrite E, filter_app, fmap_app. f_equal. unfold filter. cbn. by case_decide.
Qed.

(** A frame that has written nothing can be added to a group. *)
Lemma wlog_fresh sp fs f : logged sp f = [] → wlog sp (fs ++ [f]) = wlog sp fs.
Proof.
  unfold logged, wlog. generalize (sp_log sp). intros es. induction es as [|[tid p] es IH]; [done|].
  rewrite !filter_cons. cbn. case_decide as Ht; [done|]. intros Hn.
  specialize (IH Hn). case_decide as H1; case_decide as H2; rewrite ?fmap_cons, IH; try done.
  - by apply elem_of_app in H1 as [|Hf%list_elem_of_singleton].
  - destruct H1. apply elem_of_app. by left.
Qed.

(** The frames of a call that have returned. *)
Definition frames_done (sp : SP) (frames : list nat) : Prop :=
  Forall (λ f, ∃ body w r, sp_threads sp !! f = Some (TSend body w (PDone r))) frames.

Definition frame_body (wr : Writer) (chunk : bytes) : Body := NewPayloadBody (wr_realm wr) chunk.

Definition writer_ok (sp : SP) (wr : Writer) : Prop :=
  match wr_pc wr with
  | WCheckConn | WCheckTunnel => wr_frames wr = []
  | WLoop rest n => ∃ cs,
      wlog sp (wr_frames wr) = frame_body wr <$> cs ∧ frames_done sp (wr_frames wr) ∧
      wr_p wr = concat cs ++ rest ∧ n = length (concat cs) ∧ chunks (wr_p wr) = cs ++ chunks rest
  | WCall f chunk rest n => ∃ cs fs pc,
      wr_frames wr = fs ++ [f] ∧ frames_done sp fs ∧
      sp_threads sp !! f = Some (TSend (frame_body wr chunk) (Some (wr_conn wr)) pc) ∧
      wlog sp (wr_frames wr) = (frame_body wr <$> cs) ++ written (frame_body wr chunk) pc ∧
      wr_p wr = concat cs ++ chunk ++ rest ∧ n = length (concat cs) ∧
      chunks (wr_p wr) = cs ++ chunks (chunk ++ rest) ∧ chunks (chunk ++ rest) = chunk :: chunks rest
  | WRet n err => ∃ cs rest,
      wlog sp (wr_frames wr) = frame_body wr <$> cs ∧ frames_done sp (wr_frames wr) ∧
      wr_p wr = concat cs ++ rest ∧ n = length (concat cs) ∧ chunks (wr_p wr) = cs ++ chunks rest ∧
      match err with None => rest = [] | Some _ => wr_p wr = [] ∨ rest ≠ [] end
  end.

(** ** Steps of the send path, as the writers see them *)

Lemma sendPacketFor_step_shape body w pc ch tid st st1 pc1 :
  sendPacketFor_step body w pc ch tid st = Some (st1, pc1) →
  sp_threads st1 = sp_threads st ∧ (∀ r, pc ≠ PDone r) ∧
  (sp_log st1 = sp_log st ∨ ∃ p, pc = PAssigned p ∧ pc1 = PWrote None ∧ sp_log st1 = sp_log st ++ [(tid, p)]).
Proof.
  intros E. destruct pc; cbn [sendPacketFor_step] in E; unfold acquire_step, send_step, assign in E.
  1-4: destruct w; try apply bind_Some in E as (c & Hc & E); repeat case_match; simplify_eq; auto.
  - destruct w; [case_decide; [|done]; apply bind_Some in E as (c & Hc & E)|destruct (Session_Send _ _)];
      simplify_eq; auto.
  - destruct w; [|done]. repeat case_match; simplify_eq; auto.
  - destruct (Session_Send _ _); simplify_eq; auto.
  - split_and!; [by destruct ch; simplify_eq|done|].
    destruct ch; simplify_eq; eauto.
  - destruct w; [case_decide; [|done]|]; simplify_eq; auto.
  - case_match; simplify_eq; auto.
  - done.
Qed.

Lemma other_step_shape st tid ch st1 th :
  sp_threads st !! tid = Some th → (∀ b w pc, th ≠ TSend b w pc) → sp_thread tid ch st = Some st1 →
  sp_log st1 = sp_log st ∧ ∃ th', sp_threads st1 = <[tid := th']> (sp_threads st).
Proof.
  intros Hth Hn E. apply bind_Some in E as (th' & Hth' & E). simplify_eq.
  destruct th as [b w pc|w pc|w d pc]; [by destruct (Hn b w pc)|..];
    apply bind_Some in E as ([st2 pc'] & E & [= <-]); apply bind_Some in E as (c & Hc & E).
  - unfold interruptWrite in E. destruct pc; repeat case_decide; simplify_eq; cbn; eauto.
  - unfold updateWriteDeadline in E. destruct pc; repeat case_match; simplify_eq; cbn; eauto.
Qed.

(** A sender stays what it is, and stays returned once it has returned. *)
Lemma sp_step_threads ev st st1 tid body w pc :
  sp_step ev st = Some st1 → sp_threads st !! tid = Some (TSend body w pc) →
  ∃ pc1, sp_threads st1 !! tid = Some (TSend body w pc1) ∧ ∀ r, pc = PDone r → pc1 = PDone r.
Proof.
  intros E Hth. destruct ev as [t ch|t th|p|w'|d|]; cbn in E; repeat case_decide; simplify_eq; eauto.
  - pose proof E as Et. apply bind_Some in E as (th & Hth' & E).
    destruct (decide (t = tid)) as [->|Hne].
    + simplify_eq. apply bind_Some in E as ([st2 pc'] & E & [= <-]).
      apply sendPacketFor_step_shape in E as (_ & Hn & _). exists pc'. cbn. rewrite lookup_insert_eq.
      split; [done|]. intros r Hr. by destruct (Hn r).
    + exists pc. split; [|done].
      destruct th as [b w0 pc0| |].
      * apply bind_Some in E as ([st2 pc'] & E & [= <-]).
        apply sendPacketFor_step_shape in E as (Et' & _ & _). cbn. by rewrite lookup_insert_ne, Et'.
      * apply (other_step_shape _ _ _ _ _ Hth') in Et as (_ & th' & ->); [by rewrite lookup_insert_ne|done].
      * apply (other_step_shape _ _ _ _ _ Hth') in Et as (_ & th' & ->); [by rewrite lookup_insert_ne|done].
  - destruct H as (Hf & _). exists pc. cbn. rewrite lookup_insert_ne by congruence. done.
Qed.

Lemma sp_step_log_cases ev st st1 :
  sp_step ev st = Some st1 →
  sp_log st1 = sp_log st ∨
  ∃ tid body w p, sp_threads st !! tid = Some (TSend body w (PAssigned p)) ∧
    sp_threads st1 !! tid = Some (TSend body w (PWrote None)) ∧ sp_log st1 = sp_log st ++ [(tid, p)].
Proof.
  intros E. destruct ev as [t ch|t th|p|w'|d|]; cbn in E; repeat case_decide; simplify_eq; auto.
  pose proof E as Et. apply bind_Some in E as (th & Hth & E). destruct th as [b w pc| |].
  - apply bind_Some in E as ([st2 pc'] & E & [= <-]).
    apply sendPacketFor_step_shape in E as (Et' & _ & [Hl|(p & -> & -> & Hl)]); [by left|right].
    exists t, b, w, p. cbn. by rewrite lookup_insert_eq, Hl.
  - apply (other_step_shape _ _ _ _ _ Hth) in Et as (-> & _); auto.
  - apply (other_step_shape _ _ _ _ _ Hth) in Et as (-> & _); auto.
Qed.

Lemma frames_done_step ev sp sp1 fs :
  sp_step ev sp = Some sp1 → frames_done sp fs → frames_done sp1 fs.
Proof.
  intros E Hd. apply (Forall_impl _ _ _ Hd). intros f (b & w & r & Hf).
  destruct (sp_step_threads _ _ _ _ _ _ _ E Hf) as (pc & Hf1 & Hr). rewrite (Hr r) in Hf1; eauto.
Qed.

(** Frames that have returned write no more. *)
Lemma wlog_done_step ev sp sp1 fs :
  sp_step ev sp = Some sp1 → frames_done sp fs → wlog sp1 fs = wlog sp fs.
Proof.
  intros E Hd. destruct (sp_step_log_cases _ _ _ E) as [El|(tid & b & w & p & Hth & _ & El)].
  - unfold wlog. by rewrite El.
  - rewrite (wlog_snoc sp sp1 fs tid p El). case_decide as Hin; [|by rewrite app_nil_r].
    destruct (proj1 (Forall_forall _ _) Hd _ Hin) as (? & ? & ? & ?). congruence.
Qed.

Lemma writer_ok_sp ev sp sp1 wr :
  log_inv sp → sp_step ev sp = Some sp1 → writer_ok sp wr → writer_ok sp1 wr.
Proof.
  intros Hl E. pose proof (sp_step_log _ _ _ Hl E) as Hl1. unfold writer_ok.
  destruct (wr_pc wr) as [| |rest n|f chunk rest n|n err]; try done.
  - intros (cs & Hw & Hd & Hrest). exists cs.
    rewrite (wlog_done_step _ _ _ _ E Hd). eauto using frames_done_step.
  - intros (cs & fs & pc & Hf & Hd & Hth & Hw & Hrest).
    destruct (sp_step_threads _ _ _ _ _ _ _ E Hth) as (pc1 & Hth1 & _).
    exists cs, fs, pc1. split_and!; eauto using frames_done_step; try apply Hrest.
    pose proof (log_threads _ Hl f) as L. pose proof (log_threads _ Hl1 f) as L1.
    rewrite Hth in L. rewrite Hth1 in L1. cbn in L, L1.
    destruct (sp_step_log_cases _ _ _ E) as [El|(tid & b & w & p & Htid & Htid1 & El)].
    + unfold wlog, logged in *. rewrite El in *. by rewrite Hw, <- L, <- L1.
    + rewrite (wlog_snoc _ _ _ _ _ El), Hw, <- app_assoc. f_equal.
      destruct (decide (tid = f)) as [->|Hne].
      * rewrite Hth in Htid. injection Htid as <- <- ->. rewrite Hth1 in Htid1. injection Htid1 as ->.
        rewrite decide_True by (rewrite Hf, elem_of_app, list_elem_of_singleton; auto). cbn.
        by rewrite (log_assigned _ Hl _ _ Hth).
      * rewrite decide_False, app_nil_r; last first.
        { rewrite Hf. intros [Hin|Hin%list_elem_of_singleton]%elem_of_app; [|done].
          destruct (proj1 (Forall_forall _ _) Hd _ Hin) as (? & ? & ? & ?). congruence. }
        rewrite <- L, <- L1. unfold logged. rewrite El, filter_app, fmap_app.
        rewrite filter_cons_False, filter_nil by done. by rewrite app_nil_r.
  - intros (cs & rest & Hw & Hd & Hrest). exists cs, rest.
    rewrite (wlog_done_step _ _ _ _ E Hd). eauto using frames_done_step.
Qed.

Lemma wlog_nil sp : wlog sp [] = [].
Proof.
  unfold wlog. generalize (sp_log sp). intros es.
  induction es as [|e es IH]; [done|]. by rewrite filter_cons_False by apply not_elem_of_nil.
Qed.

Lemma writer_ok_refused sp wr e :
  wr_frames wr = [] → writer_ok sp (wr <| wr_pc := WRet 0 (Some e) |>).
Proof.
  intros Hf. exists [], (wr_p wr). cbn. rewrite Hf, wlog_nil. unfold frames_done. split_and!; try done.
  destruct (wr_p wr); [by left|by right].
Qed.

Lemma Write_step_ok fresh wr sp sp1 wr1 :
  log_inv sp → writer_ok sp wr → Write_step fresh wr sp = Some (sp1, wr1) → writer_ok sp1 wr1.
Proof.
  intros Hl Hok E. unfold Write_step in E. unfold writer_ok in Hok.
  destruct (wr_pc wr) as [| |rest n|f chunk rest n|n err] eqn:Epc; [..|done].
  - apply bind_Some in E as (c & Hc & E). simplify_eq. destruct (w_closed c); [by apply writer_ok_refused|done].
  - simplify_eq. destruct (sp_done sp1); [by apply writer_ok_refused|].
    exists []. cbn. rewrite Hok, wlog_nil. unfold frames_done. by split_and!.
  - destruct Hok as (cs & Hw & Hd & Hp & Hn & Hc). case_decide as Hlen.
    + apply bind_Some in E as (sp2 & Es & E).
      destruct (loop_chunk rest Hlen) as [Hch Hck].
      set (chunk := if decide (maxPayloadSize < length rest)%nat then take maxPayloadSize rest else rest) in *.
      injection E as <- <-. pose proof (frames_done_step _ _ _ _ Es Hd) as Hd1.
      pose proof (wlog_done_step _ _ _ _ Es Hd) as Hw1. pose proof (sp_step_log _ _ _ Hl Es) as Hl1.
      cbn in Es. case_decide as Hfr; [|done]. injection Es as <-.
      exists cs, (wr_frames wr), PStart. cbn [wr_pc wr_frames wr_p set]. split_and!; try done.
      * cbn. by rewrite lookup_insert_eq.
      * cbn -[wlog]. rewrite app_nil_r, wlog_fresh; [by rewrite Hw1|].
        rewrite (log_threads _ Hl1). cbn. by rewrite lookup_insert_eq.
      * cbn. by rewrite Hp, Hch.
      * cbn. by rewrite Hc, Hch.
      * cbn. by rewrite Hch, Hck.
    + simplify_eq. exists cs, rest. cbn. split_and!; try done. apply nil_length_inv. lia.
  - destruct Hok as (cs & fs & pc & Hf & Hd & Hth & Hw & Hp & Hn & Hc & Hck). rewrite Hth in E.
    assert (∀ r, pc = PDone r → frames_done sp (wr_frames wr)) as Hdone.
    { intros r ->. unfold frames_done. rewrite Hf, Forall_app, Forall_singleton. eauto. }
    destruct pc as [| | | | | | | | | |[e|]]; simplify_eq; cbn in Hw.
    + exists cs, (chunk ++ rest). cbn. rewrite app_nil_r in Hw. split_and!; eauto.
      right. intros He. rewrite He in Hck. by simp chunks in Hck.
    + exists (cs ++ [chunk]). cbn. rewrite fmap_app, concat_app. cbn. rewrite app_nil_r, length_app, <- !app_assoc.
      split_and!; eauto. by rewrite Hc, Hck.
Qed.

Record cw_inv (s0 : Session) (now : Z) (st : CW) : Prop := mkCWInv {
  cw_sp_reachable : sp_reachable s0 now (cw_sp st);
  cw_writers_ok : map_Forall (λ _ wr, writer_ok (cw_sp st) wr) (cw_writers st) }.

Lemma sp_reachable_step s0 now ev st st1 :
  sp_reachable s0 now st → sp_step ev st = Some st1 → sp_reachable s0 now st1.
Proof.
  intros [evs Hr] E. exists (evs ++ [ev]). revert Hr. generalize (sp_init s0 now).
  induction evs as [|e evs IH]; intros st0 Hr; cbn in *.
  - simplify_eq. by rewrite E.
  - apply bind_Some in Hr as (st' & -> & Hr). cbn. by apply IH.
Qed.

Lemma Write_step_sp fresh wr sp sp1 wr1 :
  Write_step fresh wr sp = Some (sp1, wr1) → sp1 = sp ∨ ∃ ev, sp_step ev sp = Some sp1.
Proof.
  unfold Write_step. intros E. destruct (wr_pc wr) as [| |rest n|f chunk rest n|n err]; [..|done].
  - apply bind_Some in E as (c & Hc & E). simplify_eq. auto.
  - simplify_eq. auto.
  - case_decide; [|simplify_eq; auto]. apply bind_Some in E as (sp2 & Es & E). simplify_eq. eauto.
  - repeat case_match; simplify_eq; auto.
Qed.

Lemma cw_step_inv s0 now ev st st1 : cw_inv s0 now st → cw_step ev st = Some st1 → cw_inv s0 now st1.
Proof.
  intros [Hr Hw] E. pose proof (sp_reachable_log _ _ _ Hr) as Hl.
  destruct ev as [ev|wid conn realm p|wid fresh]; cbn in E.
  - apply bind_Some in E as (sp & Es & [= <-]). constructor; [by eapply sp_reachable_step|].
    intros wid wr Hwr. eapply writer_ok_sp; eauto.
  - case_decide; simplify_eq. constructor; [done|]. cbn. by apply map_Forall_insert_2.
  - apply bind_Some in E as (wr & Hwr & E). apply bind_Some in E as ([sp wr1] & Es & [= <-]).
    pose proof (Write_step_ok _ _ _ _ _ Hl (Hw _ _ Hwr) Es) as Hok.
    destruct (Write_step_sp _ _ _ _ _ Es) as [->|[ev Hev]]; constructor; cbn; try done.
    + by apply map_Forall_insert_2.
    + by eapply sp_reachable_step.
    + apply map_Forall_insert_2; [done|]. intros w' wr' Hw'. eapply writer_ok_sp; eauto.
Qed.

Lemma cw_reachable_inv s0 now st : cw_reachable s0 now st → cw_inv s0 now st.
Proof.
  intros [evs Hr]. assert (cw_inv s0 now (cw_init s0 now)) as Hinv.
  { constructor; [by exists []|]. apply map_Forall_empty. }
  revert Hinv Hr. generalize (cw_init s0 now).
  induction evs as [|ev evs IH]; intros st0 Hinv Hr; cbn in Hr; [congruence|].
  apply bind_Some in Hr as (st' & Hs & Hr). eauto using cw_step_inv.
Qed.

(** ** Theorems *)

(** C13. [Write] reports exactly what it sent: when a call returns, its
    frames have put on the wire, in order, the fragments of the first [n] bytes of
    its argument and nothing else; it returns without an error exactly when that
    is all of the argument, and a failed call has sent less (unless there was
    nothing to send), whatever other senders, closers and deadlines did. *)
Theorem write_exact s0 now st wid wr n err :
  cw_reachable s0 now st → cw_writers st !! wid = Some wr → wr_pc wr = WRet n err →
  ∃ cs, wlog (cw_sp st) (wr_frames wr) = NewPayloadBody (wr_realm wr) <$> cs ∧
    cs `prefix_of` chunks (wr_p wr) ∧ concat cs = take n (wr_p wr) ∧
    match err with
    | None => n = length (wr_p wr) ∧ cs = chunks (wr_p wr)
    | Some _ => wr_p wr = [] ∨ (n < length (wr_p wr))%nat
    end.
Proof.
  intros [_ Hw]%cw_reachable_inv Hwr Epc. specialize (Hw _ _ Hwr). unfold writer_ok in Hw. cbn in Hw.
  rewrite Epc in Hw. destruct Hw as (cs & rest & Hlog & _ & Hp & -> & Hc & He). exists cs. split_and!.
  - done.
  - by exists (chunks rest).
  - by rewrite Hp, take_app_length.
  - destruct err as [e|].
    + destruct He as [He|He]; [by left|right]. rewrite Hp, length_app. destruct rest; [done|]. cbn. lia.
    + subst rest. rewrite app_nil_r in Hp. split; [by rewrite Hp|]. rewrite Hc. simp chunks. by rewrite app_nil_r.
Qed.

(** Every fragment of a write fits the transport: the fragments
    are not empty, hold at most 1280 bytes, concatenate to the argument, and each
    packet that carries one is a datagram of at most 1316 bytes. *)
Theorem fragment_sizes p realm h :
  concat (chunks p) = p ∧
  Forall (λ c, (0 < length c ≤ 1280)%nat ∧
    (length (Packet_Serialize (NewPacket h (NewPayloadBody realm c))) ≤ 1316)%nat) (chunks p).
Proof.
  split; [apply concat_chunks|]. eapply Forall_impl; [apply chunks_sizes|]. intros c Hc. cbv beta in *.
  split; [done|].
  rewrite Packet_Serialize_layout, length_app, length_Header_Serialize. cbn [PBody NewPacket].
  rewrite Payload_layout, !length_app, !length_put_be32. unfold HeaderSize, maxPayloadSize in *. lia.
Qed.

(** ** Witness *)

(** A write of 1283 bytes: the first fragment is sent, then the socket fails. *)
Definition demo_payload : bytes := replicate 1283 x55.

Definition run_frame (f : nat) (last : Choice) : list CWEvent :=
  WvSend <$> [EvThread f Go; EvThread f Go; EvThread f SelPermit; EvThread f Go; EvThread f Go;
              EvThread f Go; EvThread f Go; EvThread f last; EvThread f Go; EvThread f Go].

Definition demo_write : list CWEvent :=
  [WvSend (EvOpen 1); WvWrite 5 1 7 demo_payload; WvStep 5 0; WvStep 5 0; WvStep 5 1]
  ++ run_frame 1 Go ++ [WvStep 5 2; WvStep 5 2] ++ run_frame 2 Fail ++ [WvStep 5 3].

Definition demo_write_state : CW := default (cw_init NewSession 0) (cw_run demo_write (cw_init NewSession 0)).

Lemma write_exact_witness :
  ∃ wr cs, cw_writers demo_write_state !! 5%nat = Some wr ∧ wr_pc wr = WRet 1280 (Some ErrUDP) ∧
    wlog (cw_sp demo_write_state) (wr_frames wr) = NewPayloadBody 7 <$> cs ∧
    concat cs = take 1280 demo_payload.
Proof.
  destruct (cw_writers demo_write_state !! 5%nat) as [wr|] eqn:Hwr; [|vm_compute in Hwr; discriminate].
  assert (wr_pc wr = WRet 1280 (Some ErrUDP) ∧ wr_realm wr = 7 ∧ wr_p wr = demo_payload) as (Hpc & Hr & Hp).
  { vm_compute in Hwr. injection Hwr as <-. split; [|split]; vm_compute; reflexivity. }
  destruct (write_exact NewSession 0 demo_write_state 5 wr 1280 (Some ErrUDP)) as (cs & H1 & _ & H2 & _).
  - exists demo_write. vm_compute. reflexivity.
  - exact Hwr.
  - exact Hpc.
  - exists wr, cs. rewrite Hr in H1. rewrite Hp in H2. split; [reflexivity|]. split; [exact Hpc|]. split; assumption.
Defined.
