(* ===== verification/TunnelState.v ===== *)
(** * The tunnel: its state, its goroutines and one step of each

    [src/tunnel/tunnel.go].  A [Tunnel] serves any number of realms over one UDP
    socket.  The goroutines that run against each other are the reader, the
    heartbeat, the coalesced acknowledgement ([flushACK], run by a timer), any
    number of [Dial], [Conn.Close] and [Close] calls, and the consumers of the
    realms.  The model interleaves them at the granularity of the code's critical
    sections, channel operations and sends: a goroutine is a program counter, each
    [*_step] function gives its next atomic action, [t_step] one step of the system.

    [sendPacket] is two steps: a goroutine at a program counter where it sends
    ([sends]) first takes [sendPermit], for which it may have to wait, and then, with
    the permit, assigns the counters, writes to the socket and gives the permit back
    ([SendPath] has the details of that second step, and shows why it may be taken as
    one).  The time a write takes is the time until its second step.  One frame of
    [Conn.Write] is a goroutine of its own ([ThWrite]; [ConnWrite] has the loop).
    [signalClosed] is one step too; its interaction with a write in progress is in
    [SendPath], that of [Read] with its realm in [ConnRead].  Times are in milliseconds.
    Fields of [Tunnel] and [TConn] marked "ghost" record history. *)

From Stdlib Require Import ZArith Lia Strings.Byte.
From S2P Require Import Prelude GoStrings PtcpTypes PtcpSession SendPath ConnRead.

(** Health thresholds and intervals. *)
Definition maxConsecutiveReadErrors : Z := 10.
Definition maxConsecutiveSendErrors : Z := 5.
Definition maxMissedHeartbeats : Z := 24.
Definition outboundStallTimeout : Z := 20000.
Definition ackCoalesceWindow : Z := 20.
Definition maxRetries : nat := 3.
Definition retryTimeout : Z := 5000.
Definition discRetries : nat := 3.
Definition discInterval : Z := 50.

Inductive DialError := DialClosed | DialRetired | DialTimeout | DialSend.

#[export] Instance DialError_eq_dec : EqDecision DialError.
Proof. solve_decision. Defined.

(** A connection, as the tunnel sees it.  Connections are heap objects: [t_conns]
    maps references to them. *)
Record TConn := mkTConn {
  c_realmID : Z; c_remotePort : Z; c_dataCh : list bytes; c_closed : bool; c_closeCh : bool;
  c_arrived : list bytes;   (* ghost: payloads the reader has looked this realm up for *)
  c_pushed : list bytes }.  (* ghost: payloads accepted into dataCh *)

(** [Dial]: what it does after a cleanup, and its program counters. *)
Inductive DialNext := NextAttempt (attempt : nat) | GiveUp (e : DialError).

Inductive DialPC :=
| DEnter                                   (* first check of closed, retired *)
| DLock                                    (* waiting for dialMu *)
| DRecheck                                 (* dialMu held, second check *)
| DPick (attempt : nat)                    (* loop head, randomRealmID *)
| DInstall (attempt : nat) (id : Z)        (* realms[id] = conn *)
| DChan (attempt : nat) (id : Z) (r : nat) (* connCh[id] = ch *)
| DBind (attempt : nat) (id : Z) (r : nat) (* send BIND *)
| DWait (attempt : nat) (id : Z) (r : nat) (since : Z)
| DClean1 (id : Z) (next : DialNext)       (* cleanup: delete from realms *)
| DClean2 (id : Z) (next : DialNext)       (* cleanup: delete from connCh *)
| DExit (res : DialError + nat)            (* about to release dialMu *)
| DDone (res : DialError + nat).

Inductive ConnClosePC :=
| KMark | KSignal (already : bool) | KCheck | KDisc (i : nat) | KSleep (i : nat) (since : Z) | KDelete | KRet.

Inductive CloseTPC :=
| CEnter
| CAckTimer
| CSwap
| CSignal (realms todo : gmap Z nat)
| CDisc (todo : gmap Z nat)
| CSocket
| CFire (cb : option nat)
| CRet.

Inductive ReaderPC :=
| RdTop | RdRead | RdErr | RdPacket (p : Packet) | RdRecv (p : Packet) | RdDispatch (p : Packet)
| RdSync                                          (* SYNC: send SYNC *)
| RdSignal (r : nat)                              (* DISC: signalClosed *)
| RdPush (realm : Z) (r : nat) (data : bytes)     (* the non-blocking send *)
| RdOver1 (realm : Z) (r : nat)                   (* overflow: delete from realms *)
| RdOver2 (realm : Z) (r : nat)                   (* overflow: signalClosed *)
| RdOver3 (realm : Z)                             (* overflow: send DISC *)
| RdAck                                           (* scheduleACK *)
| RdExit.

Inductive HeartbeatPC := HIdle | HCheck | HCount | HSend | HStall | HExit.

(** [flushACK]: waiting for [ackMu]; with it, in [sendPacket]; with the result of that;
    returned. *)
Inductive FlushPC := FlLock | FlSend | FlCount (ok : bool) | FlDone.

(** A frame of [Conn.Write]: in [sendPacketFor]; returned. *)
Inductive FramePC := FrSend | FrRet.

(** Who called [Close], and goes on when it returns. *)
Inductive Caller := ByUser | ByHeartbeat | ByReader | ByFlush.

Inductive TThread :=
| ThDial (port : Z) (pc : DialPC)
| ThConnClose (r : nat) (pc : ConnClosePC)
| ThClose (who : Caller) (pc : CloseTPC)
| ThReader (pc : ReaderPC)
| ThHeartbeat (pc : HeartbeatPC)
| ThFlush (pc : FlushPC)
| ThWrite (r : nat) (data : bytes) (pc : FramePC).

Record Tunnel := mkTunnel {
  t_mu : option nat;                    (* the Close that holds mu *)
  t_permit : option nat;                (* who holds sendPermit; None: the token is in the channel *)
  t_ackMu : option nat;                 (* the flushACK that holds ackMu *)
  t_closed : bool; t_retired : bool; t_done : bool;
  t_realms : option (gmap Z nat);       (* None: nil *)
  t_connCh : gmap Z nat;                (* realm to channel *)
  t_chans : gmap nat nat;               (* tokens in each channel, of capacity 1 *)
  t_conns : gmap nat TConn;
  t_next : nat;                         (* next unused reference *)
  t_dialMu : option nat;
  t_bindFailures : Z;
  t_ticker : bool;
  t_missedHeartbeats : Z;
  t_consecutiveReadErrs : Z;
  t_lastAckTime : option Z;
  t_lastDrain : Z; t_lastDrainTime : option Z;
  t_ackPending : bool; t_ackTimer : option Z; t_consecutiveSendErrs : Z;
  t_session : Session;
  t_sock : list Packet;                 (* packets written to the socket *)
  t_sockClosed : bool;
  t_onClose : option nat;
  t_fired : list nat;                   (* callbacks called *)
  t_now : Z;
  t_threads : gmap nat TThread;
  t_ids : list Z;                       (* ghost: realm ids installed, in order *)
  t_granted : gset nat;                 (* ghost: channels the reader has signalled *)
  t_returned : gset nat;                (* ghost: connections that Dial returns *)
  t_closer : option nat;                (* ghost: the Close call that closed the tunnel *)
  t_late : list nat }.                  (* ghost: callbacks installed after that *)

(** How a step goes where the code leaves it open. *)
Inductive TChoice :=
| TGo | TFail                      (* the send or the socket call succeeds, fails *)
| TData (data : bytes) | TTimeout | TReadErr   (* outcomes of ReadRaw *)
| TId (id : Z)                     (* rand.Uint32 *)
| TKey (id : Z) (ok : bool)        (* next key of a range over a map *)
| TGranted | TDone                 (* cases of a select *)
| TTick.                           (* the heartbeat ticker fires *)

(** ** Helpers *)

Definition t_set (tid : nat) (th : TThread) (t : Tunnel) : Tunnel :=
  t <| t_threads := <[tid := th]> (t_threads t) |>.

(** [sendPacketFor] once the permit is held: the session assigns the counters, then the
    socket is written. *)
Definition t_send (ok : bool) (body : Body) (t : Tunnel) : Tunnel * bool :=
  let '(s, p) := Session_Send (t_session t) body in
  let t := t <| t_session := s |> in
  if ok && negb (t_sockClosed t) then (t <| t_sock := t_sock t ++ [p] |>, true) else (t, false).

#[global] Arguments t_send : simpl never.

(** [realms[id]], [delete(realms, id)]; both accept a nil map. *)
Definition realm_lookup (id : Z) (t : Tunnel) : option nat := m ← t_realms t; m !! id.
Definition realm_delete (id : Z) (t : Tunnel) : Tunnel := t <| t_realms := delete id <$> t_realms t |>.

Definition conn_update (r : nat) (f : TConn → TConn) (t : Tunnel) : Tunnel :=
  t <| t_conns := alter f r (t_conns t) |>.

Definition conn_signalClosed (r : nat) (t : Tunnel) : Tunnel :=
  conn_update r (λ c, c <| c_closed := true |> <| c_closeCh := true |>) t.

Definition is_fail (ch : TChoice) : bool := match ch with TFail => true | _ => false end.
Definition is_timeout (ch : TChoice) : bool := match ch with TTimeout => true | _ => false end.

(** ** [Close] *)

Definition Close_step (tid : nat) (ch : TChoice) (pc : CloseTPC) (t : Tunnel) : option (Tunnel * CloseTPC) :=
  match pc with
  | CEnter =>
      if decide (t_mu t = None) then
        if t_closed t then Some (t, CRet)
        else Some (t <| t_mu := Some tid |> <| t_closed := true |> <| t_done := true |> <| t_ticker := false |>
                     <| t_closer := Some tid |>, CAckTimer)
      else None
  | CAckTimer => if decide (t_ackMu t = None) then Some (t <| t_ackTimer := None |>, CSwap) else None
  | CSwap => let realms := default ∅ (t_realms t) in
      Some (t <| t_realms := None |>, CSignal realms realms)
  | CSignal realms todo =>
      if decide (todo = ∅) then Some (t, CDisc realms)
      else match ch with
           | TKey id _ => r ← todo !! id; Some (conn_signalClosed r t, CSignal realms (delete id todo))
           | _ => None
           end
  | CDisc todo =>
      if decide (todo = ∅) then Some (t, CSocket)
      else match ch with
           | TKey id ok =>
               _ ← todo !! id;
               Some ((t_send ok (NewStatusBody id StatusDisconnect) t).1, CDisc (delete id todo))
           | _ => None
           end
  | CSocket => Some (t <| t_sockClosed := true |> <| t_mu := None |>, CFire (t_onClose t))
  | CFire cb => Some (match cb with Some f => t <| t_fired := t_fired t ++ [f] |> | None => t end, CRet)
  | CRet => None
  end.

Definition after_close (who : Caller) : TThread :=
  match who with
  | ByUser => ThClose ByUser CRet
  | ByHeartbeat => ThHeartbeat HIdle
  | ByReader => ThReader RdExit
  | ByFlush => ThFlush FlDone
  end.

(** ** [Dial] *)

(** The checks of [closed] and [retired]; [mu] must not be write-locked. *)
Definition Dial_check (t : Tunnel) : option (option DialError) :=
  if decide (t_mu t = None) then
    Some (if t_closed t then Some DialClosed else if t_retired t then Some DialRetired else None)
  else None.

Definition new_conn (id port : Z) : TConn := mkTConn id port [] false false [] [].

Definition Dial_step (tid : nat) (ch : TChoice) (port : Z) (pc : DialPC) (t : Tunnel)
    : option (Tunnel * DialPC) :=
  match pc with
  | DEnter => e ← Dial_check t; Some (t, match e with Some e => DDone (inl e) | None => DLock end)
  | DLock => if decide (t_dialMu t = None) then Some (t <| t_dialMu := Some tid |>, DRecheck) else None
  | DRecheck => e ← Dial_check t; Some (t, match e with Some e => DExit (inl e) | None => DPick 0 end)
  | DPick attempt =>
      if decide (attempt < maxRetries)%nat then
        match ch with
        | TId id => if decide (is_u32 id ∧ realm_lookup id t = None) then Some (t, DInstall attempt id) else None
        | _ => None
        end
      else Some (t <| t_bindFailures := t_bindFailures t + 1 |>, DExit (inl DialTimeout))
  | DInstall attempt id =>
      match t_realms t with
      | None => Some (t, DExit (inl DialClosed))
      | Some m =>
          let r := t_next t in
          Some (t <| t_realms := Some (<[id := r]> m) |>
                  <| t_conns := <[r := new_conn id port]> (t_conns t) |>
                  <| t_chans := <[r := 0%nat]> (t_chans t) |>
                  <| t_next := S r |> <| t_ids := t_ids t ++ [id] |>, DChan attempt id r)
      end
  | DChan attempt id r => Some (t <| t_connCh := <[id := r]> (t_connCh t) |>, DBind attempt id r)
  | DBind attempt id r =>
      let '(t, ok) := t_send (negb (is_fail ch)) (NewBindBody id port) t in
      Some (t, if ok then DWait attempt id r (t_now t) else DClean1 id (GiveUp DialSend))
  | DWait attempt id r since =>
      match ch with
      | TGranted =>
          n ← t_chans t !! r;
          if decide (0 < n)%nat
          then Some (t <| t_chans := <[r := (n - 1)%nat]> (t_chans t) |> <| t_bindFailures := 0 |>
                       <| t_returned := {[r]} ∪ t_returned t |>, DExit (inr r))
          else None
      | TDone => if t_done t then Some (t, DClean1 id (GiveUp DialClosed)) else None
      | TTimeout =>
          if decide (since + retryTimeout ≤ t_now t) then Some (t, DClean1 id (NextAttempt (S attempt))) else None
      | _ => None
      end
  | DClean1 id next => Some (realm_delete id t, DClean2 id next)
  | DClean2 id next =>
      Some (t <| t_connCh := delete id (t_connCh t) |>,
            match next with NextAttempt k => DPick k | GiveUp e => DExit (inl e) end)
  | DExit res => Some (t <| t_dialMu := None |>, DDone res)
  | DDone _ => None
  end.

(** ** [Conn.Close] *)

Definition ConnClose_step (ch : TChoice) (r : nat) (pc : ConnClosePC) (t : Tunnel)
    : option (Tunnel * ConnClosePC) :=
  c ← t_conns t !! r;
  match pc with
  | KMark => Some (conn_update r (λ c, c <| c_closed := true |>) t, KSignal (c_closed c))
  | KSignal already => Some (conn_signalClosed r t, if already then KRet else KCheck)
  | KCheck =>
      if decide (t_mu t = None) then Some (t, if t_closed t then KDelete else KDisc 0) else None
  | KDisc i =>
      let '(t, ok) := t_send (negb (is_fail ch)) (NewStatusBody (c_realmID c) StatusDisconnect) t in
      Some (t, if ok then if decide (i < discRetries - 1)%nat then KSleep i (t_now t) else KDelete else KDelete)
  | KSleep i since => if decide (since + discInterval ≤ t_now t) then Some (t, KDisc (S i)) else None
  | KDelete => Some (realm_delete (c_realmID c) t, KRet)
  | KRet => None
  end.

(** ** The reader *)

Definition ackHeartbeat (t : Tunnel) : Tunnel :=
  t <| t_missedHeartbeats := 0 |> <| t_lastAckTime := Some (t_now t) |>.

Definition IsResponsive (within : Z) (t : Tunnel) : bool :=
  match t_lastAckTime t with Some last => bool_decide (t_now t - last < within) | None => false end.

(** [None]: [ackMu] is held by a [flushACK]. *)
Definition scheduleACK (t : Tunnel) : option Tunnel :=
  if decide (t_ackMu t = None) then
    Some (if t_ackPending t then t
          else t <| t_ackPending := true |> <| t_ackTimer := Some (t_now t + ackCoalesceWindow) |>)
  else None.

(** The [switch] on the body's type: one critical section, and where the reader goes
    next.  [None] where [ch <- true] would block. *)
Definition dispatch (b : Body) (t : Tunnel) : option (Tunnel * ReaderPC) :=
  match BType b with
  | BodyTypeEmpty => Some (t, RdTop)
  | BodyTypeSync => Some (t, RdSync)
  | BodyTypeStatus =>
      if decide (Status b = StatusConnect) then
        match t_connCh t !! Realm b with
        | Some r =>
            n ← t_chans t !! r;
            if decide (n < 1)%nat then
              Some (t <| t_chans := <[r := S n]> (t_chans t) |>
                      <| t_connCh := delete (Realm b) (t_connCh t) |>
                      <| t_granted := {[r]} ∪ t_granted t |>, RdAck)
            else None
        | None => Some (t, RdAck)
        end
      else if decide (Status b = StatusDisconnect) then
        match realm_lookup (Realm b) t with
        | Some r => Some (realm_delete (Realm b) t, RdSignal r)
        | None => Some (t, RdAck)
        end
      else Some (t, RdAck)
  | BodyTypePayload =>
      match realm_lookup (Realm b) t with
      | Some r => Some (conn_update r (λ c, c <| c_arrived := c_arrived c ++ [Data b] |>) t,
                        RdPush (Realm b) r (Data b))
      | None => Some (t, RdAck)
      end
  | BodyTypeHeartbeat => Some (t, RdAck)
  | BodyTypeBind | BodyTypeCommand => Some (t, RdTop)
  end.

(** One step of [reader]; [inr] is a call of [Close]. *)
Definition reader_step (ch : TChoice) (pc : ReaderPC) (t : Tunnel) : option (Tunnel * (ReaderPC + unit)) :=
  match pc with
  | RdTop => Some (t, inl (if t_done t then RdExit else RdRead))
  | RdRead =>
      match ch with
      | TTimeout => Some (t, inl RdTop)
      | TReadErr => Some (t, inl RdErr)
      | TData data =>
          if t_sockClosed t then None else
          let t := t <| t_consecutiveReadErrs := 0 |> in
          match ParsePacket data with
          | Ok p => Some (t, inl (RdPacket p))
          | _ => Some (t, inl RdTop)
          end
      | _ => None
      end
  | RdErr =>
      if t_done t then Some (t, inl RdExit) else
      let t := t <| t_consecutiveReadErrs := t_consecutiveReadErrs t + 1 |> in
      Some (t, if decide (maxConsecutiveReadErrors ≤ t_consecutiveReadErrs t) then inr () else inl RdTop)
  | RdPacket p => Some (ackHeartbeat t, inl (RdRecv p))
  | RdRecv p => Some (t <| t_session := Session_Recv (t_session t) p |>, inl (RdDispatch p))
  | RdDispatch p => '(t, pc) ← dispatch (PBody p) t; Some (t, inl pc)
  | RdSync => Some ((t_send (negb (is_fail ch)) NewSyncBody t).1, inl RdTop)
  | RdSignal r => Some (conn_signalClosed r t, inl RdAck)
  | RdPush realm r data =>
      c ← t_conns t !! r;
      if decide (length (c_dataCh c) < dataCh_cap)%nat then
        Some (conn_update r (λ c, c <| c_dataCh := c_dataCh c ++ [data] |>
                                    <| c_pushed := c_pushed c ++ [data] |>) t, inl RdAck)
      else Some (t, inl (RdOver1 realm r))
  | RdOver1 realm r => Some (realm_delete realm t, inl (RdOver2 realm r))
  | RdOver2 realm r => Some (conn_signalClosed r t, inl (RdOver3 realm))
  | RdOver3 realm =>
      Some ((t_send (negb (is_fail ch)) (NewStatusBody realm StatusDisconnect) t).1, inl RdAck)
  | RdAck => t ← scheduleACK t; Some (t, inl RdTop)
  | RdExit => None
  end.

(** ** Heartbeat and acknowledgements *)

Definition outboundStalled (t : Tunnel) : Tunnel * bool :=
  let st := Session_Stats (t_session t) in
  let drained := t <| t_lastDrain := st_PeerRecv st |> <| t_lastDrainTime := Some (t_now t) |> in
  if decide (OutBytes st ≤ 0) then (drained, false)
  else if decide (st_PeerRecv st ≠ t_lastDrain t) then (drained, false)
  else match t_lastDrainTime t with
       | None => (t <| t_lastDrainTime := Some (t_now t) |>, false)
       | Some since => (t, bool_decide (outboundStallTimeout < t_now t - since))
       end.

Definition heartbeat_step (ch : TChoice) (pc : HeartbeatPC) (t : Tunnel)
    : option (Tunnel * (HeartbeatPC + unit)) :=
  match pc with
  | HIdle =>
      match ch with
      | TTick => if t_ticker t then Some (t, inl HCheck) else None
      | TDone => if t_done t then Some (t, inl HExit) else None
      | _ => None
      end
  | HCheck => if decide (t_mu t = None) then Some (t, inl (if t_closed t then HIdle else HCount)) else None
  | HCount =>
      let t := t <| t_missedHeartbeats := t_missedHeartbeats t + 1 |> in
      Some (t, if decide (maxMissedHeartbeats < t_missedHeartbeats t) then inr () else inl HSend)
  | HSend => Some ((t_send (negb (is_fail ch)) NewHeartbeatBody t).1, inl HStall)
  | HStall => let '(t, stalled) := outboundStalled t in
      Some (t, if stalled then inr () else inl HIdle)
  | HExit => None
  end.

(** One step of [flushACK]; [inr] is its call of [Close].  The whole body but that call
    runs under [ackMu]. *)
Definition flushACK (tid : nat) (ch : TChoice) (pc : FlushPC) (t : Tunnel) : option (Tunnel * (FlushPC + unit)) :=
  match pc with
  | FlLock => if decide (t_ackMu t = None) then Some (t <| t_ackMu := Some tid |>, inl FlSend) else None
  | FlSend => let '(t, ok) := t_send (negb (is_fail ch)) NewEmptyBody t in Some (t, inl (FlCount ok))
  | FlCount ok =>
      let errs := if ok then 0 else t_consecutiveSendErrs t + 1 in
      Some (t <| t_consecutiveSendErrs := errs |> <| t_ackPending := false |> <| t_ackMu := None |>,
            if ok then inl FlDone else if decide (maxConsecutiveSendErrors ≤ errs) then inr () else inl FlDone)
  | FlDone => None
  end.

(** ** A frame of [Conn.Write] *)

(** The permit is held: a writer whose connection or tunnel has been closed, whose deadline
    has passed or cannot be set ([TTimeout]) does not write. *)
Definition frame_step (ch : TChoice) (r : nat) (data : bytes) (pc : FramePC) (t : Tunnel) : option (Tunnel * FramePC) :=
  match pc with
  | FrSend =>
      c ← t_conns t !! r;
      Some (if t_done t || c_closed c || is_timeout ch then t else (t_send (negb (is_fail ch)) (NewPayloadBody (c_realmID c) data) t).1, FrRet)
  | FrRet => None
  end.

(** Where a writer stops waiting for the permit: its connection or the tunnel is closed, or
    its deadline passes. *)
Definition gives_up (ch : TChoice) (th : TThread) (t : Tunnel) : option TThread :=
  match th, ch with
  | ThWrite r data FrSend, TDone =>
      c ← t_conns t !! r; if t_done t || c_closed c then Some (ThWrite r data FrRet) else None
  | ThWrite r data FrSend, TTimeout => Some (ThWrite r data FrRet)
  | _, _ => None
  end.

(** ** The rest of the API *)

Definition Retire (t : Tunnel) : option Tunnel :=
  if decide (t_mu t = None) then Some (t <| t_retired := true |>) else None.

Definition IsRetired (t : Tunnel) : bool := t_retired t || t_closed t.

Definition SetOnClose (fn : nat) (t : Tunnel) : option Tunnel :=
  if decide (t_mu t = None) then
    Some (if t_closed t then t <| t_fired := t_fired t ++ [fn] |> <| t_late := t_late t ++ [fn] |>
          else t <| t_onClose := Some fn |>)
  else None.

Definition ActiveRealms (t : Tunnel) : nat := match t_realms t with Some m => size m | None => 0 end.

Definition BindFailures (t : Tunnel) : option Z :=
  if decide (t_dialMu t = None) then Some (t_bindFailures t) else None.

(** ** The system *)

Definition call_close (who : Caller) {A} (th : A → TThread) (pc : A + unit) : TThread :=
  match pc with inl pc => th pc | inr _ => ThClose who CEnter end.

(** The goroutine is in a call of [sendPacket] or [sendPacketFor]. *)
Definition sends (th : TThread) : bool :=
  match th with
  | ThDial _ (DBind _ _ _) | ThConnClose _ (KDisc _) | ThReader (RdSync | RdOver3 _) | ThHeartbeat HSend
  | ThFlush FlSend | ThWrite _ _ FrSend => true
  | ThClose _ (CDisc todo) => negb (bool_decide (todo = ∅))
  | _ => false
  end.

(** One step of a goroutine, with the permit if it is one that needs it. *)
Definition t_go (tid : nat) (ch : TChoice) (th : TThread) (t : Tunnel) : option Tunnel :=
  match th with
  | ThDial port pc => '(t, pc) ← Dial_step tid ch port pc t; Some (t_set tid (ThDial port pc) t)
  | ThConnClose r pc => '(t, pc) ← ConnClose_step ch r pc t; Some (t_set tid (ThConnClose r pc) t)
  | ThClose who CRet => match who with ByUser => None | _ => Some (t_set tid (after_close who) t) end
  | ThClose who pc => '(t, pc) ← Close_step tid ch pc t; Some (t_set tid (ThClose who pc) t)
  | ThReader pc => '(t, pc) ← reader_step ch pc t; Some (t_set tid (call_close ByReader ThReader pc) t)
  | ThHeartbeat pc => '(t, pc) ← heartbeat_step ch pc t; Some (t_set tid (call_close ByHeartbeat ThHeartbeat pc) t)
  | ThFlush pc => '(t, pc) ← flushACK tid ch pc t; Some (t_set tid (call_close ByFlush ThFlush pc) t)
  | ThWrite r data pc => '(t, pc) ← frame_step ch r data pc t; Some (t_set tid (ThWrite r data pc) t)
  end.

(** [sendPacket] takes the permit, in [acquireSendPermit], before it goes on, and gives
    it back when it is done. *)
Definition t_thread (tid : nat) (ch : TChoice) (t : Tunnel) : option Tunnel :=
  th ← t_threads t !! tid;
  if sends th then
    if decide (t_permit t = Some tid) then t ← t_go tid ch th t; Some (t <| t_permit := None |>)
    else match gives_up ch th t with
         | Some th => Some (t_set tid th t)
         | None => if decide (t_permit t = None) then Some (t <| t_permit := Some tid |>) else None
         end
  else t_go tid ch th t.

Inductive TEvent :=
| TvRun (tid : nat) (ch : TChoice)
| TvDial (tid : nat) (port : Z)
| TvConnClose (tid r : nat)              (* on a connection that Dial has returned *)
| TvClose (tid : nat)
| TvWrite (tid r : nat) (data : bytes)    (* the same *)
| TvAckTimer (tid : nat)                 (* the timer of scheduleACK fires *)
| TvConsume (r : nat)                    (* Read takes a payload from dataCh *)
| TvRetire
| TvSetOnClose (fn : nat)
| TvTime (d : Z).

Definition spawn (tid : nat) (th : TThread) (t : Tunnel) : option Tunnel :=
  if decide (t_threads t !! tid = None) then Some (t_set tid th t) else None.

Definition t_step (ev : TEvent) (t : Tunnel) : option Tunnel :=
  match ev with
  | TvRun tid ch => t_thread tid ch t
  | TvDial tid port => spawn tid (ThDial port DEnter) t
  | TvConnClose tid r => if decide (r ∈ t_returned t) then spawn tid (ThConnClose r KMark) t else None
  | TvClose tid => spawn tid (ThClose ByUser CEnter) t
  | TvWrite tid r data => if decide (r ∈ t_returned t) then spawn tid (ThWrite r data FrSend) t else None
  | TvAckTimer tid =>
      d ← t_ackTimer t;
      if decide (d ≤ t_now t) then spawn tid (ThFlush FlLock) (t <| t_ackTimer := None |>) else None
  | TvConsume r =>
      c ← t_conns t !! r;
      Some (conn_update r (λ c, c <| c_dataCh := tail (c_dataCh c) |>) t)
  | TvRetire => Retire t
  | TvSetOnClose fn => SetOnClose fn t
  | TvTime d => if decide (0 ≤ d) then Some (t <| t_now := t_now t + d |>) else None
  end.

Fixpoint t_run (evs : list TEvent) (t : Tunnel) : option Tunnel :=
  match evs with
  | [] => Some t
  | ev :: evs => t ← t_step ev t; t_run evs t
  end.

(** [New], after the handshake has given it a session: thread 0 is the reader,
    thread 1 the heartbeat. *)
Definition New (s : Session) (now : Z) : Tunnel :=
  mkTunnel None None None false false false (Some ∅) ∅ ∅ ∅ 0 None 0 true 0 0 None 0 None false None 0 s [] false
    None [] now {[ 0%nat := ThReader RdTop; 1%nat := ThHeartbeat HIdle ]} [] ∅ ∅ None [].

Definition t_reachable (s : Session) (now : Z) (t : Tunnel) : Prop := ∃ evs, t_run evs (New s now) = Some t.

(** ** Steps of goroutines *)

(** A step of a goroutine is one of its code, perhaps under the permit, or one by which it
    takes the permit or stops waiting for it. *)
Lemma t_thread_cases tid ch t t1 :
  t_thread tid ch t = Some t1 →
  ∃ th, t_threads t !! tid = Some th ∧
    (sends th = false ∧ t_go tid ch th t = Some t1 ∨
     sends th = true ∧ t_permit t = Some tid ∧ (∃ t2, t_go tid ch th t = Some t2 ∧ t1 = t2 <| t_permit := None |>) ∨
     t_permit t ≠ Some tid ∧ (∃ r data, th = ThWrite r data FrSend ∧ t1 = t_set tid (ThWrite r data FrRet) t) ∨
     sends th = true ∧ t_permit t = None ∧ t1 = t <| t_permit := Some tid |>).
Proof.
  intros (th & Hth & E)%bind_Some. exists th. split; [done|]. destruct (sends th) eqn:Es; [|by auto].
  case_decide as Hp.
  - apply bind_Some in E as (t2 & Hg & [= <-]). right. left. eauto.
  - destruct (gives_up ch th t) as [th'|] eqn:Eg.
    + injection E as <-. right. right. left. split; [done|].
      unfold gives_up in Eg. destruct th as [| | | | | |r data []]; try done. exists r, data. split; [done|].
      destruct ch; simplify_eq; [done|]. apply bind_Some in Eg as (c & _ & Eg). by case_match; simplify_eq.
    + case_decide as Hn; [|done]. injection E as <-. by do 3 right.
Qed.

(** What the code of the goroutines keeps, and the permit does not concern, is kept. *)
Lemma t_thread_keeps (P : Tunnel → Prop) tid ch t t1 :
  (∀ t o, P t → P (t <| t_permit := o |>)) →
  (∀ th t2, t_threads t !! tid = Some th → t_go tid ch th t = Some t2 → P t2) →
  (∀ r data, t_threads t !! tid = Some (ThWrite r data FrSend) → P (t_set tid (ThWrite r data FrRet) t)) →
  P t → t_thread tid ch t = Some t1 → P t1.
Proof.
  intros Hp Hg Hw HP (th & Hth & [[_ E]|[(_ & _ & t2 & E & ->)|[(_ & r & data & -> & ->)|(_ & _ & ->)]]])%t_thread_cases; eauto.
Qed.
