(* ===== verification/TunnelRealms.v ===== *)
(** * The realm life cycle of a tunnel: safety of every interleaving

    Invariants of the system of [TunnelState], proved step by step for every
    goroutine, and what follows from them: [Close] runs once, [Dial] calls exclude one
    another, end and return only granted realms, callbacks fire once, and [Close] and the
    reader wait for nothing but writes to the socket, be it for the permit or behind a
    [flushACK] that waits for it.

    An invariant has a part that speaks of the whole tunnel and a part [local] that
    speaks of one goroutine at its program counter. *)

From Stdlib Require Import ZArith Lia Strings.Byte.
From S2P Require Import Prelude GoStrings PtcpTypes PtcpSession SendPath ConnRead TunnelState.

(** [Close] holds [mu]; it has swapped the realms out; it has yet to finish. *)
Definition inside (pc : CloseTPC) : bool :=
  match pc with CAckTimer | CSwap | CSignal _ _ | CDisc _ | CSocket => true | _ => false end.
Definition swapped (pc : CloseTPC) : bool :=
  match pc with CSignal _ _ | CDisc _ | CSocket | CFire _ => true | _ => false end.
Definition closing (pc : CloseTPC) : bool := match pc with CFire _ => true | _ => inside pc end.

(** [Dial] holds [dialMu]. *)
Definition locked (pc : DialPC) : bool := match pc with DEnter | DLock | DDone _ => false | _ => true end.

(** Connection [r] exists and its realm is [id]. *)
Definition conn_at (t : Tunnel) (r : nat) (id : Z) : Prop :=
  ∃ c, t_conns t !! r = Some c ∧ c_realmID c = id.

Definition dial_ok (t : Tunnel) (tid : nat) (pc : DialPC) : Prop :=
  (locked pc = true → t_dialMu t = Some tid) ∧
  match pc with
  | DChan _ id r =>
      conn_at t r id ∧ t_chans t !! r = Some 0%nat ∧ (∀ id', t_connCh t !! id' ≠ Some r) ∧
      (r ∉ t_returned t) ∧ (r ∉ t_granted t)
  | DBind _ id r | DWait _ id r _ => conn_at t r id ∧ is_Some (t_chans t !! r) ∧ (r ∉ t_returned t)
  | DExit (inr r) | DDone (inr r) => r ∈ t_returned t
  | _ => True
  end.

Definition close_ok (t : Tunnel) (tid : nat) (who : Caller) (pc : CloseTPC) : Prop :=
  (who = ByReader → tid = 0%nat) ∧ (inside pc = true → t_mu t = Some tid) ∧
  (closing pc = true → t_closer t = Some tid) ∧ (swapped pc = true → t_realms t = None) ∧
  match pc with
  | CSignal _ todo => map_Forall (λ _ r, is_Some (t_conns t !! r)) todo
  | CFire cb => cb = t_onClose t ∧ t_mu t = None
  | _ => True
  end.

Definition connclose_ok (t : Tunnel) (r : nat) (pc : ConnClosePC) : Prop :=
  r ∈ t_returned t ∧ (pc ≠ KMark → ∃ c, t_conns t !! r = Some c ∧ c_closed c = true).

Definition reader_ok (t : Tunnel) (tid : nat) (pc : ReaderPC) : Prop :=
  tid = 0%nat ∧
  match pc with
  | RdPush id r _ | RdOver1 id r | RdOver2 id r => conn_at t r id
  | RdSignal r => is_Some (t_conns t !! r)
  | _ => True
  end.

Definition local (t : Tunnel) (tid : nat) (th : TThread) : Prop :=
  match th with
  | ThDial _ pc => dial_ok t tid pc
  | ThConnClose r pc => connclose_ok t r pc
  | ThClose who pc => close_ok t tid who pc
  | ThReader pc => reader_ok t tid pc
  | ThHeartbeat _ | ThFlush _ => True
  | ThWrite r _ _ => r ∈ t_returned t
  end.

(** The tunnel is closing or closed, and how far that is. *)
Definition flags_ok (t : Tunnel) : Prop :=
  t_done t = t_closed t ∧
  (t_closed t = true ↔ is_Some (t_closer t)) ∧
  (is_Some (t_mu t) → t_mu t = t_closer t) ∧
  (t_closed t = false → is_Some (t_realms t)) ∧
  (t_closed t = true → t_mu t = None → t_realms t = None ∧ t_sockClosed t = true).

Definition chans_ok (t : Tunnel) : Prop :=
  (∀ r n, t_chans t !! r = Some n → is_Some (t_conns t !! r) ∧ (0 < n → r ∈ t_granted t)%nat) ∧
  (∀ id r, t_connCh t !! id = Some r → conn_at t r id ∧ t_chans t !! r = Some 0%nat) ∧
  (∀ r, r ∈ t_granted t → is_Some (t_conns t !! r)) ∧
  (∀ r, r ∈ t_returned t → r ∈ t_granted t).

Definition conns_ok (t : Tunnel) : Prop :=
  (∀ r, is_Some (t_conns t !! r) → r < t_next t)%nat ∧
  (∀ m id r, t_realms t = Some m → m !! id = Some r → conn_at t r id) ∧
  (∀ r c, t_conns t !! r = Some c → t_ids t !! r = Some (c_realmID c)) ∧
  length (t_ids t) = t_next t.

(** The thread that holds a lock is where it can give it back. *)
Definition locks_ok (t : Tunnel) : Prop :=
  (∀ tid, t_mu t = Some tid → ∃ who pc, t_threads t !! tid = Some (ThClose who pc) ∧ inside pc = true) ∧
  (∀ tid, t_dialMu t = Some tid → ∃ port pc, t_threads t !! tid = Some (ThDial port pc) ∧ locked pc = true).

Record t_inv (t : Tunnel) : Prop := mkTInv {
  i_local : ∀ tid th, t_threads t !! tid = Some th → local t tid th;
  i_flags : flags_ok t;
  i_chans : chans_ok t;
  i_conns : conns_ok t;
  i_locks : locks_ok t }.

Lemma New_inv s now : t_inv (New s now).
Proof.
  constructor.
  - intros tid th Hl. cbn in Hl.
    apply lookup_insert_Some in Hl as [[<- <-]|[_ Hl]]; [done|].
    apply lookup_singleton_Some in Hl as [<- <-]. done.
  - unfold flags_ok. cbn. split_and!; done.
  - unfold chans_ok. cbn. split_and!; try done; set_solver.
  - unfold conns_ok. cbn. split_and!; try done; [by intros r [? ?]|]. intros m id r [= <-]. by rewrite lookup_empty.
  - done.
Qed.

Lemma t_send_frame ok b t t1 r :
  t_send ok b t = (t1, r) → ∃ s k, t1 = t <| t_session := s |> <| t_sock := k |>.
Proof. unfold t_send. destruct (Session_Send _ _) as [s p]. intros E. case_match; simplify_eq; eauto. Qed.

Lemma t_send_fst ok b t : ∃ s k, (t_send ok b t).1 = t <| t_session := s |> <| t_sock := k |>.
Proof. destruct (t_send ok b t) as [t1 r] eqn:E. by apply t_send_frame in E. Qed.

(** ** Stability

    [grows t t1]: what other goroutines rely on survives a step from [t] to [t1];
    connections are never forgotten, keep their realm id and stay closed. *)
Record grows (t t1 : Tunnel) : Prop := mkGrows {
  g_conns : ∀ r c, t_conns t !! r = Some c →
    ∃ c1, t_conns t1 !! r = Some c1 ∧ c_realmID c1 = c_realmID c ∧ (c_closed c = true → c_closed c1 = true);
  g_returned : t_returned t ⊆ t_returned t1;
  g_realms : t_realms t = None → t_realms t1 = None }.

Lemma grows_refl t t1 :
  t_conns t1 = t_conns t → t_returned t1 = t_returned t → t_realms t1 = t_realms t → grows t t1.
Proof. intros E1 E2 E3. constructor; rewrite ?E1, ?E2, ?E3; eauto. Qed.

Lemma conn_at_grows t t1 r id : grows t t1 → conn_at t r id → conn_at t1 r id.
Proof. intros [G _ _] (c & Hc & <-). destruct (G _ _ Hc) as (c1 & ? & ? & _). by exists c1. Qed.

Lemma is_conn_grows t t1 r : grows t t1 → is_Some (t_conns t !! r) → is_Some (t_conns t1 !! r).
Proof. intros [G _ _] [c Hc]. destruct (G _ _ Hc) as (c1 & ? & _). by exists c1. Qed.

Lemma returned_grows t t1 r : grows t t1 → r ∈ t_returned t → r ∈ t_returned t1.
Proof. intros [_ R _]. apply R. Qed.

Lemma connclose_ok_grows t t1 r pc : grows t t1 → connclose_ok t r pc → connclose_ok t1 r pc.
Proof.
  intros [G R _] [Hr Hc]. split; [by apply R|]. intros Hpc. destruct (Hc Hpc) as (c & Hcc & Hcl).
  destruct (G _ _ Hcc) as (c1 & ? & _ & ?). eauto.
Qed.

Lemma reader_ok_grows t t1 tid pc : grows t t1 → reader_ok t tid pc → reader_ok t1 tid pc.
Proof. intros G [Ht Hpc]. split; [done|]. destruct pc; eauto using conn_at_grows, is_conn_grows. Qed.

Lemma close_ok_grows t t1 tid who pc :
  grows t t1 → t_mu t1 = t_mu t → t_closer t1 = t_closer t → t_onClose t1 = t_onClose t →
  close_ok t tid who pc → close_ok t1 tid who pc.
Proof.
  intros G E1 E2 E3 (H1 & H2 & H3 & H4 & H5). unfold close_ok. rewrite E1, E2, E3. split_and!; auto.
  - intros Hs. by apply (g_realms _ _ G), H4.
  - destruct pc; try done. intros id r Hr. eapply is_conn_grows; eauto.
Qed.

Lemma dial_ok_grows t t1 tid pc :
  grows t t1 → t_dialMu t1 = t_dialMu t → t_chans t1 = t_chans t → t_connCh t1 = t_connCh t →
  t_granted t1 = t_granted t → t_returned t1 = t_returned t →
  dial_ok t tid pc → dial_ok t1 tid pc.
Proof.
  intros G E1 E2 E3 E4 E5 [Hl Hpc]. split; [by rewrite E1|].
  destruct pc as [| | | | |? ? ?|? ? ?|? ? ? ?|? ?|? ?|[?|?]|[?|?]]; rewrite ?E2, ?E3, ?E4, ?E5; try done;
    (split; [by eapply conn_at_grows, Hpc|apply Hpc]).
Qed.

(** Another goroutine's [Dial] steps only concern calls that do not hold [dialMu]. *)
Lemma dial_ok_unlocked t t1 tid pc :
  t_returned t ⊆ t_returned t1 → locked pc = false → dial_ok t tid pc → dial_ok t1 tid pc.
Proof.
  intros R Hl [_ Hpc]. split; [congruence|]. destruct pc as [| | | | | | | | | | |[?|?]]; try done. by apply R.
Qed.

Definition core (t : Tunnel) :=
  (t_mu t, t_closed t, t_done t, t_realms t, t_connCh t, t_chans t, t_conns t, t_next t,
   (t_dialMu t, t_sockClosed t, t_onClose t, t_ids t, t_granted t, t_returned t, t_closer t)).

Ltac core_eqs E := unfold core in E; injection E as ? ? ? ? ? ? ? ? ? ? ? ? ? ? ?.

Lemma local_core t t1 tid th : core t1 = core t → local t tid th → local t1 tid th.
Proof.
  intros E. core_eqs E. assert (grows t t1) as G by (by apply grows_refl).
  destruct th; cbn;
    eauto using dial_ok_grows, connclose_ok_grows, close_ok_grows, reader_ok_grows, returned_grows.
Qed.

Lemma flags_ok_core t t1 : core t1 = core t → flags_ok t → flags_ok t1.
Proof. intros E. core_eqs E. unfold flags_ok. congruence. Qed.

Lemma conns_ok_core t t1 : core t1 = core t → conns_ok t → conns_ok t1.
Proof.
  intros E. core_eqs E. unfold conns_ok, conn_at.
  repeat match goal with H : _ t1 = _ |- _ => rewrite H; clear H end. done.
Qed.

Lemma chans_ok_core t t1 : core t1 = core t → chans_ok t → chans_ok t1.
Proof.
  intros E. core_eqs E. unfold chans_ok, conn_at.
  repeat match goal with H : _ t1 = _ |- _ => rewrite H; clear H end. done.
Qed.

(** ** One step of a goroutine *)

Definition holds_mu (th : TThread) : bool := match th with ThClose _ pc => inside pc | _ => false end.
Definition holds_dial (th : TThread) : bool := match th with ThDial _ pc => locked pc | _ => false end.

(** After the step of [tid] to [th'], a lock is held by whom it was, or by [tid]. *)
Definition lock_kept (tid : nat) (held : bool) (before after : option nat) : Prop :=
  ∀ h, after = Some h → h = tid ∧ held = true ∨ h ≠ tid ∧ before = Some h.

Lemma inv_step t t1 tid th th' :
  t_inv t → t_threads t !! tid = Some th → t_threads t1 = t_threads t →
  local t1 tid th' →
  (∀ tid' th0, tid' ≠ tid → t_threads t !! tid' = Some th0 → local t tid' th0 → local t1 tid' th0) →
  flags_ok t1 → chans_ok t1 → conns_ok t1 →
  lock_kept tid (holds_mu th') (t_mu t) (t_mu t1) →
  lock_kept tid (holds_dial th') (t_dialMu t) (t_dialMu t1) →
  t_inv (t_set tid th' t1).
Proof.
  intros [Hl _ _ _ [Km Kd]] Hth Et Hl' Hst Hf Hch Hco Hm Hd. constructor; try done.
  - cbn. rewrite Et. intros tid' th0 [[<- <-]|[Hne Hth0]]%lookup_insert_Some; [done|].
    apply (Hst tid' th0); auto.
  - split; cbn; rewrite Et.
    + intros h Hh. destruct (Hm h Hh) as [[-> Hi]|[Hne Hb]].
      * rewrite lookup_insert_eq. destruct th'; try done. eauto.
      * rewrite lookup_insert_ne by done. by apply Km.
    + intros h Hh. destruct (Hd h Hh) as [[-> Hi]|[Hne Hb]].
      * rewrite lookup_insert_eq. destruct th'; try done. eauto.
      * rewrite lookup_insert_ne by done. by apply Kd.
Qed.

(** The locks stay as they are and the goroutine keeps those it holds. *)
Lemma lock_kept_same t tid th th' :
  t_inv t → t_threads t !! tid = Some th →
  (holds_mu th = true → holds_mu th' = true) → (holds_dial th = true → holds_dial th' = true) →
  lock_kept tid (holds_mu th') (t_mu t) (t_mu t) ∧ lock_kept tid (holds_dial th') (t_dialMu t) (t_dialMu t).
Proof.
  intros [_ _ _ _ [Km Kd]] Hth Hm Hd. split; intros h Hh; destruct (decide (h = tid)) as [->|Hne]; auto; left.
  - destruct (Km _ Hh) as (who & pc & Hpc & Hi). simplify_eq. auto.
  - destruct (Kd _ Hh) as (port & pc & Hpc & Hi). simplify_eq. auto.
Qed.

(** A step that changes nothing the invariant speaks of. *)
Lemma step_quiet t t1 tid th th' :
  t_inv t → t_threads t !! tid = Some th → core t1 = core t → t_threads t1 = t_threads t →
  (holds_mu th = true → holds_mu th' = true) → (holds_dial th = true → holds_dial th' = true) →
  local t tid th' → t_inv (t_set tid th' t1).
Proof.
  intros Hinv Hth E Et Hm Hd Hl. destruct (lock_kept_same t tid th th' Hinv Hth Hm Hd) as [Km Kd].
  assert (t_mu t1 = t_mu t ∧ t_dialMu t1 = t_dialMu t) as [E1 E2].
  { core_eqs E. done. }
  eapply (inv_step t t1 tid th th' Hinv Hth Et); rewrite ?E1, ?E2; try done.
  - by apply (local_core t).
  - intros. by apply (local_core t).
  - by apply (flags_ok_core t), (i_flags _ Hinv).
  - by apply (chans_ok_core t), (i_chans _ Hinv).
  - by apply (conns_ok_core t), (i_conns _ Hinv).
Qed.

(** A step that updates a connection or removes a realm. *)
Definition frame (t : Tunnel) :=
  (t_mu t, t_closed t, t_done t, t_connCh t, t_chans t, t_next t,
   (t_dialMu t, t_sockClosed t, t_onClose t, t_ids t, t_granted t, t_returned t, t_closer t)).

Ltac frame_eqs E := unfold frame in E; injection E as ? ? ? ? ? ? ? ? ? ? ? ? ?.

(** No realm appears, no connection appears or changes its realm id. *)
Record shrinks (t t1 : Tunnel) : Prop := mkShrinks {
  sh_nil : is_Some (t_realms t) → is_Some (t_realms t1);
  sh_realms : ∀ m1 id r, t_realms t1 = Some m1 → m1 !! id = Some r →
    ∃ m, t_realms t = Some m ∧ m !! id = Some r;
  sh_conns : ∀ r c1, t_conns t1 !! r = Some c1 →
    ∃ c, t_conns t !! r = Some c ∧ c_realmID c1 = c_realmID c }.

Lemma local_grows t t1 tid th : grows t t1 → frame t1 = frame t → local t tid th → local t1 tid th.
Proof.
  intros G E. frame_eqs E.
  destruct th; cbn; eauto using dial_ok_grows, connclose_ok_grows, close_ok_grows, reader_ok_grows, returned_grows.
Qed.

Lemma flags_ok_shrinks t t1 : grows t t1 → shrinks t t1 → frame t1 = frame t → flags_ok t → flags_ok t1.
Proof.
  intros [_ _ Gn] [Sn _ _] E (H1 & H2 & H3 & H4 & H5). frame_eqs E.
  unfold flags_ok. repeat match goal with H : _ t1 = _ |- _ => rewrite H; clear H end.
  split_and!; auto. intros Hc Hm. destruct H5; auto.
Qed.

Lemma chans_ok_grows t t1 : grows t t1 → frame t1 = frame t → chans_ok t → chans_ok t1.
Proof.
  intros G E (H1 & H2 & H3 & H4). frame_eqs E. unfold chans_ok.
  repeat match goal with H : _ t1 = _ |- _ => rewrite H; clear H end. split_and!; try done.
  - intros r n Hn. destruct (H1 r n Hn). split; [by eapply is_conn_grows|done].
  - intros id r Hr. destruct (H2 id r Hr). split; [by eapply conn_at_grows|done].
  - intros r Hr. by eapply is_conn_grows, H3.
Qed.

Lemma conns_ok_shrinks t t1 : grows t t1 → shrinks t t1 → frame t1 = frame t → conns_ok t → conns_ok t1.
Proof.
  intros G [_ Sr Sc] E (H1 & H2 & H3 & H4). frame_eqs E. unfold conns_ok.
  repeat match goal with H : _ t1 = _ |- _ => rewrite H; clear H end. split_and!; try done.
  - intros r [c1 Hc1]. destruct (Sc _ _ Hc1) as (c & Hc & _). eauto.
  - intros m1 id r Hm1 Hr. destruct (Sr _ _ _ Hm1 Hr) as (m & Hm & Hr'). eapply conn_at_grows; eauto.
  - intros r c1 Hc1. destruct (Sc _ _ Hc1) as (c & Hc & ->). eauto.
Qed.

Lemma step_shrinks t t1 tid th th' :
  t_inv t → t_threads t !! tid = Some th → grows t t1 → shrinks t t1 → frame t1 = frame t →
  t_threads t1 = t_threads t →
  (holds_mu th = true → holds_mu th' = true) → (holds_dial th = true → holds_dial th' = true) →
  local t1 tid th' → t_inv (t_set tid th' t1).
Proof.
  intros Hinv Hth G S E Et Hm Hd Hl. destruct (lock_kept_same t tid th th' Hinv Hth Hm Hd) as [Km Kd].
  assert (t_mu t1 = t_mu t ∧ t_dialMu t1 = t_dialMu t) as [E1 E2] by (frame_eqs E; done).
  eapply (inv_step t t1 tid th th' Hinv Hth Et); rewrite ?E1, ?E2; try done.
  - intros. by apply (local_grows t).
  - by apply (flags_ok_shrinks t); [..|apply (i_flags _ Hinv)].
  - by apply (chans_ok_grows t); [..|apply (i_chans _ Hinv)].
  - by apply (conns_ok_shrinks t); [..|apply (i_conns _ Hinv)].
Qed.

(** Updates of a connection that keep its realm id and never reopen it. *)
Definition conn_safe (f : TConn → TConn) : Prop :=
  ∀ c, c_realmID (f c) = c_realmID c ∧ (c_closed c = true → c_closed (f c) = true).

Lemma conn_update_grows r f t : conn_safe f → grows t (conn_update r f t).
Proof.
  intros Hf. constructor; cbn; try done. intros r' c Hc.
  destruct (decide (r = r')) as [<-|Hne].
  - rewrite lookup_alter_eq, Hc. exists (f c). split; [done|]. apply Hf.
  - rewrite lookup_alter_ne by done. eauto.
Qed.

Lemma conn_update_shrinks r f t : conn_safe f → shrinks t (conn_update r f t).
Proof.
  intros Hf. constructor; cbn; try done; eauto. intros r' c1 Hc1.
  destruct (decide (r = r')) as [<-|Hne].
  - rewrite lookup_alter_eq in Hc1. apply fmap_Some in Hc1 as (c & Hc & ->). exists c. split; [done|]. apply Hf.
  - rewrite lookup_alter_ne in Hc1 by done. eauto.
Qed.

Lemma realm_delete_grows id t : grows t (realm_delete id t).
Proof. constructor; cbn; eauto. by intros ->. Qed.

Lemma realm_delete_shrinks id t : shrinks t (realm_delete id t).
Proof.
  constructor; cbn; eauto.
  - intros [m ->]. cbn. eauto.
  - intros m1 id' r. destruct (t_realms t) as [m|]; [|done]. cbn. intros [= <-] [_ Hr]%lookup_delete_Some. eauto.
Qed.

Lemma step_conn t tid th th' r f :
  t_inv t → t_threads t !! tid = Some th → conn_safe f →
  (holds_mu th = true → holds_mu th' = true) → (holds_dial th = true → holds_dial th' = true) →
  local (conn_update r f t) tid th' → t_inv (t_set tid th' (conn_update r f t)).
Proof.
  intros. eapply (step_shrinks t); eauto using conn_update_grows, conn_update_shrinks.
Qed.

Lemma step_delete t tid th th' id :
  t_inv t → t_threads t !! tid = Some th →
  (holds_mu th = true → holds_mu th' = true) → (holds_dial th = true → holds_dial th' = true) →
  local (realm_delete id t) tid th' → t_inv (t_set tid th' (realm_delete id t)).
Proof.
  intros. eapply (step_shrinks t); eauto using realm_delete_grows, realm_delete_shrinks.
Qed.

Lemma signal_safe : conn_safe (λ c, c <| c_closed := true |> <| c_closeCh := true |>).
Proof. done. Qed.
#[local] Hint Resolve signal_safe : core.

(** The seven obligations of [inv_step]: the goroutine that moved, the others,
    flags, channels, connections, [mu] and [dialMu]. *)
Ltac step_full t := eapply (inv_step t); [eassumption|eassumption|reflexivity|..].

(** ** [Close] *)

Lemma Close_step_inv t tid who ch pc t1 pc1 :
  t_inv t → t_threads t !! tid = Some (ThClose who pc) → Close_step tid ch pc t = Some (t1, pc1) →
  t_inv (t_set tid (ThClose who pc1) t1).
Proof.
  intros Hinv Hth E. pose proof (i_local _ Hinv _ _ Hth) as (Hw & Hin & Hcl & Hsw & Hpc). cbn in *.
  destruct (i_flags _ Hinv) as (F1 & F2 & F3 & F4 & F5).
  destruct (lock_kept_same t tid _ (ThClose who pc) Hinv Hth) as [Km Kd]; try done.
  destruct pc as [| | |realms todo|todo| |cb|]; cbn in E; [..|done].
  - (* CEnter *) case_decide as Hmu; [|done]. destruct (t_closed t) eqn:Hc; simplify_eq.
    { by eapply (step_quiet t1). }
    assert (t_closer t = None) as Hcn.
    { destruct (t_closer t) eqn:Ec; [|done]. assert (false = true) by (apply F2; eauto). done. }
    step_full t.
    + by split_and!.
    + intros tid' th0 Hne Hth0 Hl. destruct th0 as [| |who' pc'| | | |]; try exact Hl.
      destruct Hl as (L1 & L2 & L3 & L4 & L5).
      assert (closing pc' = false) as Hn.
      { destruct (closing pc') eqn:Ec; [|done]. specialize (L3 eq_refl). congruence. }
      destruct pc'; by split_and!.
    + unfold flags_ok; cbn. split_and!; done || eauto.
    + apply (i_chans _ Hinv).
    + apply (i_conns _ Hinv).
    + intros h [= <-]. by left.
    + exact Kd.
  - (* CAckTimer *) case_decide; simplify_eq. by eapply (step_quiet t).
  - (* CSwap *) simplify_eq.
    assert (grows t (t <| t_realms := None |>)) as G by (constructor; cbn; eauto).
    assert (t_closed t = true) as Hc by (apply F2; eauto).
    destruct (i_conns _ Hinv) as (C1 & C2 & C3 & C4).
    step_full t.
    + split_and!; try done. cbn. intros id r Hr. destruct (t_realms t) as [m|] eqn:Em; cbn in Hr; [|done].
      destruct (C2 m id r eq_refl Hr) as (c & Hcr & _). eauto.
    + intros. by eapply (local_grows t).
    + unfold flags_ok; cbn. rewrite (Hin eq_refl) in *. split_and!; congruence || done.
    + apply (i_chans _ Hinv).
    + by split_and!.
    + exact Km.
    + exact Kd.
  - (* CSignal *) case_decide; simplify_eq.
    { by eapply (step_quiet t1). }
    destruct ch as [| | | | | |id ok| | |]; try done. apply bind_Some in E as (r & Hr & E). simplify_eq.
    eapply step_conn; try done. split_and!; try done.
    intros id' r' [_ Hr']%lookup_delete_Some.
    apply (is_conn_grows t); [by apply conn_update_grows|]. by eapply Hpc.
  - (* CDisc *) case_decide; simplify_eq; [by eapply (step_quiet t1)|].
    destruct ch as [| | | | | |id ok| | |]; try done. apply bind_Some in E as (r & Hr & E). simplify_eq.
    destruct (t_send_fst ok (NewStatusBody id StatusDisconnect) t) as (s & k & ->). by eapply (step_quiet t).
  - (* CSocket *) simplify_eq. assert (t_closed t = true) as Hc by (apply F2; eauto).
    step_full t.
    + by split_and!.
    + intros tid' th0 Hne Hth0 Hl. destruct th0 as [| |who' pc'| | | |]; try exact Hl.
      destruct Hl as (L1 & L2 & L3 & L4 & L5).
      assert (closing pc' = false) as Hn.
      { destruct (closing pc') eqn:Ec; [|done]. specialize (L3 eq_refl). rewrite (Hcl eq_refl) in L3. congruence. }
      destruct pc'; by split_and!.
    + unfold flags_ok; cbn. split_and!; try done. intros _ _. split; [by apply Hsw|done].
    + apply (i_chans _ Hinv).
    + apply (i_conns _ Hinv).
    + done.
    + exact Kd.
  - (* CFire *) destruct cb; simplify_eq; [by eapply (step_quiet t)|by eapply (step_quiet t1)].
Qed.

(** ** [Dial] *)

(** A step of the [Dial] that holds, takes or gives back [dialMu], for the others. *)
Lemma dial_others t t1 tid :
  (∀ h, t_dialMu t = Some h → h = tid) → grows t t1 →
  t_mu t1 = t_mu t → t_closer t1 = t_closer t → t_onClose t1 = t_onClose t →
  ∀ tid' th0, tid' ≠ tid → t_threads t !! tid' = Some th0 → local t tid' th0 → local t1 tid' th0.
Proof.
  intros Hh G E1 E2 E3 tid' th0 Hne Hth0.
  destruct th0 as [port pc| | | | | |]; cbn; eauto using connclose_ok_grows, close_ok_grows, reader_ok_grows, returned_grows.
  intros Hd. apply (dial_ok_unlocked t); [by apply g_returned| |done].
  destruct (locked pc) eqn:El; [|done]. destruct Hd as [Hm _]. specialize (Hm El). by destruct Hne, (Hh tid' Hm).
Qed.

Lemma install_grows t m id port :
  t_inv t → t_realms t = Some m →
  grows t (t <| t_realms := Some (<[id := t_next t]> m) |>
             <| t_conns := <[t_next t := new_conn id port]> (t_conns t) |>
             <| t_chans := <[t_next t := 0%nat]> (t_chans t) |>
             <| t_next := S (t_next t) |> <| t_ids := t_ids t ++ [id] |>).
Proof.
  intros Hinv Em. constructor; cbn; [|done|congruence].
  intros r c Hc. exists c. split; [|done]. rewrite lookup_insert_ne; [done|]. intros <-.
  destruct (i_conns _ Hinv) as (C1 & _). specialize (C1 (t_next t) (ex_intro _ c Hc)). lia.
Qed.

Lemma install_inv t tid port attempt id m :
  t_inv t → t_threads t !! tid = Some (ThDial port (DInstall attempt id)) → t_realms t = Some m →
  t_inv (t_set tid (ThDial port (DChan attempt id (t_next t)))
    (t <| t_realms := Some (<[id := t_next t]> m) |>
       <| t_conns := <[t_next t := new_conn id port]> (t_conns t) |>
       <| t_chans := <[t_next t := 0%nat]> (t_chans t) |>
       <| t_next := S (t_next t) |> <| t_ids := t_ids t ++ [id] |>)).
Proof.
  intros Hinv Hth Em. pose proof (install_grows t m id port Hinv Em) as G.
  pose proof (i_local _ Hinv _ _ Hth) as [Hl _]. specialize (Hl eq_refl).
  destruct (i_flags _ Hinv) as (F1 & F2 & F3 & F4 & F5).
  destruct (i_conns _ Hinv) as (C1 & C2 & C3 & C4).
  destruct (i_chans _ Hinv) as (H1 & H2 & H3 & H4).
  assert (t_conns t !! t_next t = None) as Hfresh.
  { destruct (t_conns t !! t_next t) eqn:Ec; [|done]. specialize (C1 (t_next t)). rewrite Ec in C1.
    assert (t_next t < t_next t)%nat by eauto. lia. }
  destruct (lock_kept_same t tid _ (ThDial port (DChan attempt id (t_next t))) Hinv Hth) as [Km Kd]; try done.
  step_full t.
  - split; [done|]. cbn. split_and!.
    + exists (new_conn id port). cbn. by rewrite lookup_insert_eq.
    + by rewrite lookup_insert_eq.
    + intros id' Hr. destruct (H2 _ _ Hr) as [(c & Hc & _) _]. congruence.
    + intros Hr%H4%H3. rewrite Hfresh in Hr. by destruct Hr.
    + intros Hr%H3. rewrite Hfresh in Hr. by destruct Hr.
  - apply dial_others; try done. congruence.
  - unfold flags_ok; cbn. rewrite Em in *. split_and!; try done; try (by eauto).
    intros Hc Hm. by destruct (F5 Hc Hm).
  - unfold chans_ok; cbn. split_and!; try done.
    + intros r n. destruct (decide (r = t_next t)) as [->|Hne].
      * rewrite !lookup_insert_eq. intros [= <-]. split; [eauto|lia].
      * rewrite !lookup_insert_ne by done. apply H1.
    + intros id' r Hr. destruct (H2 _ _ Hr) as [Hat Hc0]. split; [by apply (conn_at_grows t)|].
      rewrite lookup_insert_ne; [done|]. intros <-. destruct Hat as (c & Hc & _). congruence.
    + intros r Hr. exact (is_conn_grows _ _ _ G (H3 r Hr)).
  - unfold conns_ok; cbn. rewrite length_app, C4. cbn. split_and!; [| | |lia].
    + intros r. destruct (decide (r = t_next t)) as [->|Hne]; [lia|].
      rewrite lookup_insert_ne by done. intros Hr%C1. lia.
    + intros m' id' r [= <-]. destruct (decide (id = id')) as [<-|Hne].
      * rewrite lookup_insert_eq. intros [= <-]. exists (new_conn id port). cbn. by rewrite lookup_insert_eq.
      * rewrite lookup_insert_ne by done. intros Hr. exact (conn_at_grows _ _ _ _ G (C2 m _ _ Em Hr)).
    + intros r c. destruct (decide (r = t_next t)) as [->|Hne].
      * rewrite lookup_insert_eq. intros [= <-]. rewrite lookup_app_r by lia. by rewrite C4, Nat.sub_diag.
      * rewrite lookup_insert_ne by done. intros Hc. apply lookup_app_l_Some. by apply C3.
  - exact Km.
  - exact Kd.
Qed.

Lemma Dial_step_inv t tid ch port pc t1 pc1 :
  t_inv t → t_threads t !! tid = Some (ThDial port pc) → Dial_step tid ch port pc t = Some (t1, pc1) →
  t_inv (t_set tid (ThDial port pc1) t1).
Proof.
  intros Hinv Hth E. pose proof (i_local _ Hinv _ _ Hth) as [Hl Hpc]. cbn in *.
  destruct (i_chans _ Hinv) as (H1 & H2 & H3 & H4).
  destruct (lock_kept_same t tid _ (ThDial port pc) Hinv Hth) as [Km Kd]; try done.
  destruct pc as [| | |k|k id|k id r|k id r|k id r since|id next|id next|res|res]; cbn in E; [..|done].
  - apply bind_Some in E as (e & He & E). destruct e; simplify_eq; by eapply (step_quiet t1).
  - (* DLock *) case_decide as Hm; simplify_eq. step_full t.
    + done.
    + apply dial_others; try done; [congruence|]. by apply grows_refl.
    + apply (i_flags _ Hinv).
    + apply (i_chans _ Hinv).
    + apply (i_conns _ Hinv).
    + exact Km.
    + intros h [= <-]. by left.
  - apply bind_Some in E as (e & He & E). destruct e; simplify_eq; by eapply (step_quiet t1).
  - case_decide; [destruct ch; try done; case_decide|]; simplify_eq; [by eapply (step_quiet t1)|by eapply (step_quiet t)].
  - destruct (t_realms t) as [m|] eqn:Em; simplify_eq; [by apply install_inv|by eapply (step_quiet t1)].
  - (* DChan *) simplify_eq. destruct Hpc as (Hat & Hc0 & Hnew & Hret & Hgr). step_full t.
    + split; [done|]. cbn. split_and!; eauto.
    + apply dial_others; try done; [rewrite Hl by done; congruence|]. by apply grows_refl.
    + apply (i_flags _ Hinv).
    + unfold chans_ok; cbn. split_and!; try done.
      intros id' r'. destruct (decide (id = id')) as [<-|Hne].
      * rewrite lookup_insert_eq. by intros [= <-].
      * rewrite lookup_insert_ne by done. apply H2.
    + apply (i_conns _ Hinv).
    + exact Km.
    + exact Kd.
  - (* DBind *) destruct (t_send _ _ t) as [t2 ok] eqn:Es. apply t_send_frame in Es as (s & k' & ->).
    simplify_eq. destruct ok; by eapply (step_quiet t).
  - (* DWait *) destruct Hpc as (Hat & Hch & Hret).
    destruct ch; try done; [case_decide; simplify_eq; by eapply (step_quiet t1)| |case_match; simplify_eq; by eapply (step_quiet t1)].
    apply bind_Some in E as (n & Hn & E). case_decide as Hpos; simplify_eq.
    destruct (H1 r n Hn) as [Hex Hg]. step_full t.
    + split; [done|]. cbn. apply elem_of_union; left; by apply elem_of_singleton.
    + apply dial_others; try done; [rewrite Hl by done; congruence|]. constructor; cbn; eauto. apply union_subseteq_r.
    + apply (i_flags _ Hinv).
    + unfold chans_ok; cbn. split_and!; try done.
      * intros r' n'. destruct (decide (r = r')) as [<-|Hne].
        -- rewrite lookup_insert_eq. intros _. split; [done|]. intros _. auto.
        -- rewrite lookup_insert_ne by done. apply H1.
      * intros id' r' Hr'. destruct (H2 _ _ Hr') as [? Hz]. split; [done|].
        rewrite lookup_insert_ne; [done|]. intros <-. rewrite Hz in Hn. injection Hn as <-. lia.
      * intros r' [->%elem_of_singleton|Hr']%elem_of_union; auto.
    + apply (i_conns _ Hinv).
    + exact Km.
    + exact Kd.
  - simplify_eq. by eapply step_delete.
  - (* DClean2 *) simplify_eq. step_full t.
    + destruct next; by split.
    + apply dial_others; try done; [rewrite Hl by done; congruence|]. by apply grows_refl.
    + apply (i_flags _ Hinv).
    + unfold chans_ok; cbn. split_and!; try done.
      intros id' r' [_ Hr']%lookup_delete_Some. by apply H2.
    + apply (i_conns _ Hinv).
    + exact Km.
    + destruct next; exact Kd.
  - (* DExit *) simplify_eq. step_full t.
    + split; [done|]. by destruct res.
    + apply dial_others; try done; [rewrite Hl by done; congruence|]. by apply grows_refl.
    + apply (i_flags _ Hinv).
    + apply (i_chans _ Hinv).
    + apply (i_conns _ Hinv).
    + exact Km.
    + done.
Qed.

(** ** [Conn.Close] *)

Lemma ConnClose_step_inv t tid ch r pc t1 pc1 :
  t_inv t → t_threads t !! tid = Some (ThConnClose r pc) → ConnClose_step ch r pc t = Some (t1, pc1) →
  t_inv (t_set tid (ThConnClose r pc1) t1).
Proof.
  intros Hinv Hth E. pose proof (i_local _ Hinv _ _ Hth) as [Hret Hcl]. cbn in *.
  apply bind_Some in E as (c & Hc & E).
  assert (∀ pc', pc ≠ KMark → local t tid (ThConnClose r pc')) as Hkeep by (intros; split; auto).
  destruct pc as [|already| |i|i since| |]; [..|done].
  - simplify_eq. eapply step_conn; try done. split; [done|]. intros _. cbn. rewrite lookup_alter_eq, Hc. by eexists.
  - simplify_eq. eapply step_conn; try done.
    apply (connclose_ok_grows t); [by apply conn_update_grows|]. split; auto.
  - case_decide; simplify_eq. eapply (step_quiet t1); try done. by apply Hkeep.
  - destruct (t_send _ _ t) as [t2 ok] eqn:Es. apply t_send_frame in Es as (s & k' & ->). simplify_eq.
    eapply (step_quiet t); try done. by apply Hkeep.
  - case_decide; simplify_eq. eapply (step_quiet t1); try done. by apply Hkeep.
  - simplify_eq. eapply step_delete; try done.
    apply (connclose_ok_grows t); [by apply realm_delete_grows|]. split; auto.
Qed.

(** ** The reader *)

(** [StatusConnect] for a realm that is being dialled. *)
Lemma grant_inv t realm r n pc1 :
  t_inv t → t_connCh t !! realm = Some r → t_chans t !! r = Some n → ∀ th,
  t_threads t !! 0%nat = Some (ThReader th) → pc1 = RdAck →
  t_inv (t_set 0 (ThReader pc1)
    (t <| t_chans := <[r := S n]> (t_chans t) |> <| t_connCh := delete realm (t_connCh t) |>
       <| t_granted := {[r]} ∪ t_granted t |>)).
Proof.
  intros Hinv Hr Hn th Hth ->.
  destruct (i_chans _ Hinv) as (H1 & H2 & H3 & H4). destruct (H2 _ _ Hr) as [Hat Hz].
  destruct (lock_kept_same t 0 _ (ThReader RdAck) Hinv Hth) as [Km Kd]; try done.
  step_full t.
  - done.
  - intros tid' th0 Hne Hth0 Hl. destruct th0 as [port pc| | | | | |]; cbn in *; try exact Hl.
    destruct Hl as [Hlk Hpc]. split; [exact Hlk|].
    destruct pc as [| | | | |k id r'|k id r'|k id r' ?| | | |]; cbn; try exact Hpc.
    + destruct Hpc as (Ha & Hc0 & Hnew & Hret & Hgr). assert (r ≠ r') by (intros <-; by apply (Hnew realm)).
      split_and!; try done; [by rewrite lookup_insert_ne| |by apply not_elem_of_union; rewrite not_elem_of_singleton].
      intros id' [_ Hid]%lookup_delete_Some. by apply (Hnew id').
    + destruct Hpc as (Ha & Hch & Hret). split_and!; try done.
      destruct (decide (r = r')) as [<-|]; [rewrite lookup_insert_eq; eauto|by rewrite lookup_insert_ne].
    + destruct Hpc as (Ha & Hch & Hret). split_and!; try done.
      destruct (decide (r = r')) as [<-|]; [rewrite lookup_insert_eq; eauto|by rewrite lookup_insert_ne].
  - apply (i_flags _ Hinv).
  - unfold chans_ok; cbn. split_and!.
    + intros r' n'. destruct (decide (r = r')) as [<-|Hne].
      * rewrite lookup_insert_eq. intros _. split; [by apply (H1 r n)|]. intros _.
        apply elem_of_union. left. by apply elem_of_singleton.
      * rewrite lookup_insert_ne by done. intros Hn'. destruct (H1 _ _ Hn'). split; [done|].
        intros. apply elem_of_union. auto.
    + intros id' r' [Hne Hr']%lookup_delete_Some. destruct (H2 _ _ Hr') as [Hat' Hz']. split; [done|].
      rewrite lookup_insert_ne; [done|]. intros <-. destruct Hat as (c & Hc & Hid), Hat' as (c' & Hc' & Hid').
      simplify_eq.
    + intros r' [->%elem_of_singleton|Hr']%elem_of_union; [by apply (H1 r n)|auto].
    + intros r' Hr'%H4. apply elem_of_union. auto.
  - apply (i_conns _ Hinv).
  - exact Km.
  - exact Kd.
Qed.

Lemma realm_lookup_at t id r : t_inv t → realm_lookup id t = Some r → conn_at t r id.
Proof.
  intros Hinv Hr. apply bind_Some in Hr as (m & Hm & Hr). destruct (i_conns _ Hinv) as (_ & C2 & _). eauto.
Qed.

Lemma dispatch_inv t tid p t1 pc1 :
  t_inv t → t_threads t !! tid = Some (ThReader (RdDispatch p)) → dispatch (PBody p) t = Some (t1, pc1) →
  t_inv (t_set tid (ThReader pc1) t1).
Proof.
  intros Hinv Hth E. pose proof (i_local _ Hinv _ _ Hth) as [-> _]. unfold dispatch in E.
  destruct (BType (PBody p)).
  - simplify_eq. by eapply (step_quiet t1).
  - simplify_eq. by eapply (step_quiet t1).
  - simplify_eq. by eapply (step_quiet t1).
  - destruct (realm_lookup _ t) as [r|] eqn:Hr; simplify_eq; [|by eapply (step_quiet t1)].
    eapply step_conn; try done. split; [done|].
    apply (conn_at_grows t); [by apply conn_update_grows|]. by apply realm_lookup_at.
  - simplify_eq. by eapply (step_quiet t1).
  - case_decide.
    + destruct (t_connCh t !! _) as [r|] eqn:Hr; [|simplify_eq; by eapply (step_quiet t1)].
      apply bind_Some in E as (n & Hn & E). case_decide; simplify_eq. by eapply grant_inv.
    + case_decide; [|simplify_eq; by eapply (step_quiet t1)].
      destruct (realm_lookup _ t) as [r|] eqn:Hr; simplify_eq; [|by eapply (step_quiet t1)].
      eapply step_delete; try done. split; [done|].
      destruct (realm_lookup_at _ _ _ Hinv Hr) as (c & Hc & _). exists c. exact Hc.
  - simplify_eq. by eapply (step_quiet t1).
Qed.

Lemma reader_step_inv t tid ch pc t1 pc1 :
  t_inv t → t_threads t !! tid = Some (ThReader pc) → reader_step ch pc t = Some (t1, pc1) →
  t_inv (t_set tid (call_close ByReader ThReader pc1) t1).
Proof.
  intros Hinv Hth E. pose proof (i_local _ Hinv _ _ Hth) as [Ht Hpc]. cbn in Ht, Hpc.
  destruct pc as [| | |p|p|p| |r|realm r data|realm r|realm r|realm| |]; cbn in E; [..|done].
  - simplify_eq. eapply (step_quiet t1); try done. by destruct (t_done t1).
  - destruct ch; try done; [|simplify_eq; by eapply (step_quiet t1)|simplify_eq; by eapply (step_quiet t1)].
    destruct (t_sockClosed t); [done|]. destruct (ParsePacket data); simplify_eq; by eapply (step_quiet t).
  - destruct (t_done t); simplify_eq; [by eapply (step_quiet t1)|].
    case_decide; eapply (step_quiet t); try done; by split_and!.
  - simplify_eq. by eapply (step_quiet t).
  - simplify_eq. by eapply (step_quiet t).
  - apply bind_Some in E as ([t2 pc2] & E & [= <- <-]). by eapply dispatch_inv.
  - simplify_eq. destruct (t_send_fst (negb (is_fail ch)) NewSyncBody t) as (s & k & ->). by eapply (step_quiet t).
  - simplify_eq. by eapply step_conn.
  - apply bind_Some in E as (c & Hc & E). case_decide; simplify_eq; [by eapply step_conn|by eapply (step_quiet t1)].
  - simplify_eq. by eapply step_delete.
  - simplify_eq. by eapply step_conn.
  - simplify_eq.
    destruct (t_send_fst (negb (is_fail ch)) (NewStatusBody realm StatusDisconnect) t) as (s & k & ->).
    by eapply (step_quiet t).
  - apply bind_Some in E as (t2 & Es & [= <- <-]). unfold scheduleACK in Es. case_decide; simplify_eq.
    destruct (t_ackPending t); by eapply (step_quiet t).
Qed.

(** ** The heartbeat, the acknowledgements and the rest *)

Lemma heartbeat_step_inv t tid ch pc t1 pc1 :
  t_inv t → t_threads t !! tid = Some (ThHeartbeat pc) → heartbeat_step ch pc t = Some (t1, pc1) →
  t_inv (t_set tid (call_close ByHeartbeat ThHeartbeat pc1) t1).
Proof.
  intros Hinv Hth E. destruct pc; cbn in E; [..|done].
  - destruct ch; try done; case_match; simplify_eq; by eapply (step_quiet t1).
  - case_decide; simplify_eq. by eapply (step_quiet t1).
  - simplify_eq. case_decide; eapply (step_quiet t); try done; by split_and!.
  - simplify_eq. destruct (t_send_fst (negb (is_fail ch)) NewHeartbeatBody t) as (s & k & ->).
    by eapply (step_quiet t).
  - unfold outboundStalled in E. destruct (t_lastDrainTime t); repeat case_decide; simplify_eq;
      try (by eapply (step_quiet t)); destruct (bool_decide _); by eapply (step_quiet t1).
Qed.

Lemma flushACK_inv t tid ch pc t1 pc1 :
  t_inv t → t_threads t !! tid = Some (ThFlush pc) → flushACK tid ch pc t = Some (t1, pc1) →
  t_inv (t_set tid (call_close ByFlush ThFlush pc1) t1).
Proof.
  intros Hinv Hth E. destruct pc as [| |ok|]; cbn in E; [..|done].
  - case_decide; simplify_eq. by eapply (step_quiet t).
  - destruct (t_send _ _ t) as [t2 ok] eqn:Es. apply t_send_frame in Es as (s & k & ->). simplify_eq. by eapply (step_quiet t).
  - simplify_eq. eapply (step_quiet t); try done; repeat case_match; try done; by split_and!.
Qed.

Lemma frame_step_inv t tid ch r data pc t1 pc1 :
  t_inv t → t_threads t !! tid = Some (ThWrite r data pc) → frame_step ch r data pc t = Some (t1, pc1) →
  t_inv (t_set tid (ThWrite r data pc1) t1).
Proof.
  intros Hinv Hth E. pose proof (i_local _ Hinv _ _ Hth) as Hl. destruct pc; cbn in E; [|done].
  apply bind_Some in E as (c & Hc & E). injection E as <- <-. case_match; [by eapply (step_quiet t)|].
  destruct (t_send_fst (negb (is_fail ch)) (NewPayloadBody (c_realmID c) data) t) as (s & k & ->).
  by eapply (step_quiet t).
Qed.

(** A step of the environment: no goroutine moves. *)
Lemma t_inv_env t t1 :
  t_inv t → (∀ tid th, local t tid th → local t1 tid th) → t_threads t1 = t_threads t →
  t_mu t1 = t_mu t → t_dialMu t1 = t_dialMu t → flags_ok t1 → chans_ok t1 → conns_ok t1 → t_inv t1.
Proof.
  intros [Hl _ _ _ [Km Kd]] Hst Et Em Ed Hf Hch Hco. constructor; try done.
  - rewrite Et. auto.
  - split; rewrite Et, ?Em, ?Ed; done.
Qed.

Lemma inv_env_quiet t t1 : t_inv t → core t1 = core t → t_threads t1 = t_threads t → t_inv t1.
Proof.
  intros Hinv E Et. apply (t_inv_env t); try done.
  - intros. by apply (local_core t).
  - by core_eqs E.
  - by core_eqs E.
  - by apply (flags_ok_core t), (i_flags _ Hinv).
  - by apply (chans_ok_core t), (i_chans _ Hinv).
  - by apply (conns_ok_core t), (i_conns _ Hinv).
Qed.

Lemma t_spawn_inv t tid th t1 :
  t_inv t → spawn tid th t = Some t1 → local t tid th → holds_mu th = false → holds_dial th = false → t_inv t1.
Proof.
  unfold spawn. intros [Hl Hf Hch Hco [Km Kd]] E Hloc Hm Hd. case_decide as Hnew; simplify_eq.
  constructor; try done.
  - cbn. intros tid' th0 [[<- <-]|[_ H0]]%lookup_insert_Some; [done|by apply Hl].
  - split; cbn; intros h Hh.
    + destruct (Km h Hh) as (who & pc & Ht & Hi). exists who, pc. rewrite lookup_insert_ne by congruence. done.
    + destruct (Kd h Hh) as (port & pc & Ht & Hi). exists port, pc. rewrite lookup_insert_ne by congruence. done.
Qed.

Lemma t_go_inv t tid ch th t1 : t_inv t → t_threads t !! tid = Some th → t_go tid ch th t = Some t1 → t_inv t1.
Proof.
  intros Hinv Hth E. destruct th as [port pc|r pc|who pc|pc|pc|pc|r data pc].
  - apply bind_Some in E as ([t2 pc2] & E & [= <-]). by eapply Dial_step_inv.
  - apply bind_Some in E as ([t2 pc2] & E & [= <-]). by eapply ConnClose_step_inv.
  - assert (pc = CRet ∨ pc ≠ CRet) as [->|Hne] by (destruct pc; by auto).
    + pose proof (i_local _ Hinv _ _ Hth) as (Hw & _).
      destruct who; cbn in E; simplify_eq; eapply (step_quiet t); try done. by split; [apply Hw|].
    + assert (∃ t2 pc2, Close_step tid ch pc t = Some (t2, pc2) ∧ t1 = t_set tid (ThClose who pc2) t2) as (t2 & pc2 & Es & ->).
      { destruct pc; try done; apply bind_Some in E as ([t2 pc2] & E & [= <-]); eauto. }
      by eapply Close_step_inv.
  - apply bind_Some in E as ([t2 pc2] & E & [= <-]). by eapply reader_step_inv.
  - apply bind_Some in E as ([t2 pc2] & E & [= <-]). by eapply heartbeat_step_inv.
  - apply bind_Some in E as ([t2 pc2] & E & [= <-]). by eapply flushACK_inv.
  - apply bind_Some in E as ([t2 pc2] & E & [= <-]). by eapply frame_step_inv.
Qed.

Lemma t_thread_inv t tid ch t1 : t_inv t → t_thread tid ch t = Some t1 → t_inv t1.
Proof.
  intros Hinv. apply t_thread_keeps; [| | |done].
  - intros t0 o H0. by apply (inv_env_quiet t0).
  - intros th t2 Hth. by apply t_go_inv.
  - intros r data Hth. pose proof (i_local _ Hinv _ _ Hth) as Hl. by eapply (step_quiet t).
Qed.

Lemma t_step_inv ev t t1 : t_inv t → t_step ev t = Some t1 → t_inv t1.
Proof.
  intros Hinv E. destruct ev as [tid ch|tid port|tid r|tid|tid r data|tid|r| |fn|d]; cbn in E.
  - by eapply t_thread_inv.
  - by eapply t_spawn_inv.
  - case_decide; [|done]. eapply t_spawn_inv; eauto. by split.
  - eapply t_spawn_inv; eauto. by split_and!.
  - case_decide; [|done]. by eapply t_spawn_inv.
  - apply bind_Some in E as (d & Hd & E). case_decide; [|done].
    eapply (t_spawn_inv (t <| t_ackTimer := None |>)); [|exact E|done..]. by apply (inv_env_quiet t).
  - apply bind_Some in E as (c & Hc & E). simplify_eq.
    assert (conn_safe (λ c, c <| c_dataCh := tail (c_dataCh c) |>)) as Hs by done.
    pose proof (conn_update_grows r _ t Hs) as G. pose proof (conn_update_shrinks r _ t Hs) as S.
    apply (t_inv_env t); try done.
    + intros. by apply (local_grows t).
    + by apply (flags_ok_shrinks t); [..|apply (i_flags _ Hinv)].
    + by apply (chans_ok_grows t); [..|apply (i_chans _ Hinv)].
    + by apply (conns_ok_shrinks t); [..|apply (i_conns _ Hinv)].
  - unfold Retire in E. case_decide; simplify_eq. by apply (inv_env_quiet t).
  - unfold SetOnClose in E. case_decide; simplify_eq. destruct (t_closed t) eqn:Hc; [by apply (inv_env_quiet t)|].
    destruct (i_flags _ Hinv) as (F1 & F2 & F3 & F4 & F5).
    apply (t_inv_env t); try done.
    + intros tid th. destruct th as [| |who pc| | | |]; try done. intros (L1 & L2 & L3 & L4 & L5).
      split_and!; try done. destruct pc; try done. destruct F2 as [_ F2].
      rewrite Hc in F2. by discriminate F2; rewrite L3.
    + apply (i_chans _ Hinv).
    + apply (i_conns _ Hinv).
  - case_decide; simplify_eq. by apply (inv_env_quiet t).
Qed.

Lemma t_reachable_inv s now t : t_reachable s now t → t_inv t.
Proof.
  intros [evs Hr]. pose proof (New_inv s now) as Hinv. revert Hinv Hr.
  generalize (New s now). induction evs as [|ev evs IH]; intros t0 Hinv Hr; cbn in Hr; [congruence|].
  apply bind_Some in Hr as (t' & Hs & Hr). eauto using t_step_inv.
Qed.

(** ** Callbacks *)

(** The callbacks, the goroutines, the permit and [ackMu]: no step of a goroutine other
    than [Close] and [flushACK] touches them, its own program counter apart. *)
Definition meta (t : Tunnel) := (t_fired t, t_late t, t_onClose t, t_closer t, t_threads t, t_permit t, t_ackMu t).

Lemma t_send_meta ok b t : meta (t_send ok b t).1 = meta t.
Proof. by destruct (t_send_fst ok b t) as (s & k & ->). Qed.

Lemma Dial_step_meta tid ch port pc t t1 pc1 : Dial_step tid ch port pc t = Some (t1, pc1) → meta t1 = meta t.
Proof.
  intros E. destruct pc; cbn in E; try done; try apply bind_Some in E as (? & ? & E);
    try (by repeat case_match; simplify_eq).
  - destruct (t_send _ _ t) as [t2 ok] eqn:Es. apply t_send_frame in Es as (s & k & ->). by simplify_eq.
  - destruct ch; try done; [by repeat case_match; simplify_eq| |by repeat case_match; simplify_eq].
    apply bind_Some in E as (n & Hn & E). by case_decide; simplify_eq.
Qed.

Lemma ConnClose_step_meta ch r pc t t1 pc1 : ConnClose_step ch r pc t = Some (t1, pc1) → meta t1 = meta t.
Proof.
  intros E. apply bind_Some in E as (c & Hc & E). destruct pc; try done; try (by repeat case_match; simplify_eq).
  destruct (t_send _ _ t) as [t2 ok] eqn:Es. apply t_send_frame in Es as (s & k & ->). by simplify_eq.
Qed.

Lemma reader_step_meta ch pc t t1 pc1 : reader_step ch pc t = Some (t1, pc1) → meta t1 = meta t.
Proof.
  intros E. destruct pc; cbn in E; try done; try (by repeat case_match; simplify_eq).
  - apply bind_Some in E as ([t2 pc2] & E & [= <- <-]). unfold dispatch in E.
    destruct (BType (PBody p)); try (by repeat case_match; simplify_eq).
    + case_decide; [|by repeat case_match; simplify_eq].
      destruct (t_connCh t !! _); [|by simplify_eq]. apply bind_Some in E as (n' & Hn & E).
      by case_decide; simplify_eq.
  - simplify_eq. apply t_send_meta.
  - apply bind_Some in E as (c & Hc & E). by case_decide; simplify_eq.
  - simplify_eq. apply t_send_meta.
  - apply bind_Some in E as (t2 & Es & [= <- <-]). unfold scheduleACK in Es. case_decide; simplify_eq. by case_match.
Qed.

Lemma heartbeat_step_meta ch pc t t1 pc1 : heartbeat_step ch pc t = Some (t1, pc1) → meta t1 = meta t.
Proof.
  intros E. destruct pc; cbn in E; try done; try (by repeat case_match; simplify_eq).
  - simplify_eq. apply t_send_meta.
  - unfold outboundStalled in E. destruct (t_lastDrainTime t); by repeat case_decide; simplify_eq.
Qed.

Lemma flushACK_meta tid ch pc t t1 pc1 :
  flushACK tid ch pc t = Some (t1, pc1) → ∃ a, meta t1 = meta (t <| t_ackMu := a |>).
Proof.
  intros E. destruct pc as [| |ok|]; cbn in E; [..|done].
  - case_decide; simplify_eq. by eexists.
  - destruct (t_send _ _ t) as [t2 ok] eqn:Es. apply t_send_frame in Es as (s & k & ->). simplify_eq. by exists (t_ackMu t).
  - simplify_eq. by exists None.
Qed.

Lemma frame_step_meta ch r data pc t t1 pc1 : frame_step ch r data pc t = Some (t1, pc1) → meta t1 = meta t.
Proof.
  intros E. destruct pc; cbn in E; [|done]. apply bind_Some in E as (c & Hc & E). injection E as <- <-.
  case_match; [done|apply t_send_meta].
Qed.

Definition closing_th (th : option TThread) : bool :=
  match th with Some (ThClose _ pc) => closing pc | _ => false end.

(** Before the tunnel closes nothing has fired; while it closes, what fired is what
    was installed since; afterwards the callback installed before has fired too. *)
Definition fired_ok (t : Tunnel) : Prop :=
  match t_closer t with
  | None => t_fired t = [] ∧ t_late t = []
  | Some tid =>
      if closing_th (t_threads t !! tid) then t_fired t = t_late t
      else t_fired t ≡ₚ option_list (t_onClose t) ++ t_late t
  end.

Lemma fired_ok_move t t1 tid th th' :
  fired_ok t → t_threads t !! tid = Some th → meta t1 = meta t →
  closing_th (Some th') = closing_th (Some th) → fired_ok (t_set tid th' t1).
Proof.
  unfold fired_ok, meta. intros Hf Hth [= E1 E2 E3 E4 Et _ _] Ec. cbn. rewrite E1, E2, E3, E4, Et.
  destruct (t_closer t) as [h|]; [|done]. destruct (decide (h = tid)) as [->|Hne].
  - by rewrite lookup_insert_eq, Ec, <- Hth.
  - by rewrite lookup_insert_ne.
Qed.

Lemma fired_ok_spawn t tid th t1 :
  t_inv t → fired_ok t → spawn tid th t = Some t1 → closing_th (Some th) = false → fired_ok t1.
Proof.
  unfold spawn, fired_ok. intros Hinv Hf E Hc. case_decide as Hnew; simplify_eq. cbn.
  destruct (t_closer t) as [h|]; [|done]. destruct (decide (h = tid)) as [->|Hne].
  - rewrite lookup_insert_eq, Hc. by rewrite Hnew in Hf.
  - by rewrite lookup_insert_ne.
Qed.

Lemma Close_step_fired t tid who ch pc t1 pc1 :
  t_inv t → fired_ok t → t_threads t !! tid = Some (ThClose who pc) → Close_step tid ch pc t = Some (t1, pc1) →
  fired_ok (t_set tid (ThClose who pc1) t1).
Proof.
  intros Hinv Hf Hth E. pose proof (i_local _ Hinv _ _ Hth) as (_ & _ & Hcl & _ & Hpc).
  destruct (i_flags _ Hinv) as (_ & F2 & _).
  destruct pc as [| | |realms todo|todo| |cb|]; cbn in E; [..|done].
  - case_decide; [|done]. destruct (t_closed t) eqn:Hc; simplify_eq; [by eapply (fired_ok_move t1)|].
    assert (t_closer t = None) as Hn.
    { destruct (t_closer t); [|done]. assert (false = true) by (apply F2; eauto). done. }
    unfold fired_ok in *. rewrite Hn in Hf. cbn. rewrite lookup_insert_eq. cbn. by destruct Hf as [-> ->].
  - case_decide; simplify_eq. by eapply (fired_ok_move t).
  - simplify_eq. by eapply (fired_ok_move t).
  - case_decide; [simplify_eq; by eapply (fired_ok_move t1)|].
    destruct ch; try done. apply bind_Some in E as (r & Hr & E). simplify_eq. by eapply (fired_ok_move t).
  - case_decide; [simplify_eq; by eapply (fired_ok_move t1)|].
    destruct ch; try done. apply bind_Some in E as (r & Hr & E). simplify_eq.
    eapply (fired_ok_move t); try done; destruct (t_send_fst ok (NewStatusBody id StatusDisconnect) t) as (s & k & ->); done.
  - simplify_eq. by eapply (fired_ok_move t).
  - destruct Hpc as [-> _]. unfold fired_ok in *. specialize (Hcl eq_refl). rewrite Hcl, Hth in Hf. cbn in Hf.
    simplify_eq. destruct (t_onClose t) as [f|] eqn:Eo; cbn; rewrite Hcl, Eo, lookup_insert_eq; cbn; rewrite Hf.
    + by rewrite Permutation_app_comm.
    + done.
Qed.

Lemma call_close_closing who {A} (th : A → TThread) pc :
  (∀ x, closing_th (Some (th x)) = false) → closing_th (Some (call_close who th pc)) = false.
Proof. intros H. destruct pc; [apply H|done]. Qed.

Lemma t_go_fired t tid ch th t1 :
  t_inv t → fired_ok t → t_threads t !! tid = Some th → t_go tid ch th t = Some t1 → fired_ok t1.
Proof.
  intros Hinv Hf Hth E. destruct th as [port pc|r pc|who pc|pc|pc|pc|r data pc].
  - apply bind_Some in E as ([t2 pc2] & E & [= <-]). eapply (fired_ok_move t); eauto using Dial_step_meta.
  - apply bind_Some in E as ([t2 pc2] & E & [= <-]). eapply (fired_ok_move t); eauto using ConnClose_step_meta.
  - assert (pc = CRet ∨ pc ≠ CRet) as [->|Hne] by (destruct pc; by auto).
    + destruct who; cbn in E; simplify_eq; by eapply (fired_ok_move t).
    + assert (∃ t2 pc2, Close_step tid ch pc t = Some (t2, pc2) ∧ t1 = t_set tid (ThClose who pc2) t2) as (t2 & pc2 & Es & ->).
      { destruct pc; try done; apply bind_Some in E as ([t2 pc2] & E & [= <-]); eauto. }
      by eapply Close_step_fired.
  - apply bind_Some in E as ([t2 pc2] & E & [= <-]).
    eapply (fired_ok_move t); eauto using reader_step_meta. by apply call_close_closing.
  - apply bind_Some in E as ([t2 pc2] & E & [= <-]).
    eapply (fired_ok_move t); eauto using heartbeat_step_meta. by apply call_close_closing.
  - apply bind_Some in E as ([t2 pc2] & E & [= <-]). apply flushACK_meta in E as [a Em].
    eapply (fired_ok_move (t <| t_ackMu := a |>)); [exact Hf|exact Hth|exact Em|by apply call_close_closing].
  - apply bind_Some in E as ([t2 pc2] & E & [= <-]). eapply (fired_ok_move t); eauto using frame_step_meta.
Qed.

Lemma t_thread_fired t tid ch t1 : t_inv t → fired_ok t → t_thread tid ch t = Some t1 → fired_ok t1.
Proof.
  intros Hinv Hf. apply t_thread_keeps; [done| | |done].
  - intros th t2 Hth. by apply t_go_fired.
  - intros r data Hth. by eapply (fired_ok_move t).
Qed.

Lemma t_step_fired ev t t1 : t_inv t → fired_ok t → t_step ev t = Some t1 → fired_ok t1.
Proof.
  intros Hinv Hf E. destruct ev as [tid ch|tid port|tid r|tid|tid r data|tid|r| |fn|d]; cbn in E.
  - by eapply t_thread_fired.
  - by eapply fired_ok_spawn.
  - case_decide; [|done]. by eapply fired_ok_spawn.
  - by eapply fired_ok_spawn.
  - case_decide; [|done]. by eapply fired_ok_spawn.
  - apply bind_Some in E as (d & Hd & E). case_decide; [|done].
    eapply (fired_ok_spawn (t <| t_ackTimer := None |>)); [|exact Hf|exact E|done]. by apply (inv_env_quiet t).
  - apply bind_Some in E as (c & Hc & E). by simplify_eq.
  - unfold Retire in E. by case_decide; simplify_eq.
  - unfold SetOnClose in E. case_decide; simplify_eq.
    destruct (i_flags _ Hinv) as (_ & F2 & _). unfold fired_ok in *.
    destruct (t_closed t) eqn:Hc; cbn.
    + destruct F2 as [[h Hh] _]; [done|]. rewrite Hh in *. destruct (closing_th _); [by rewrite Hf|].
      by rewrite Hf, app_assoc.
    + destruct (t_closer t); [|done]. assert (false = true) by (apply F2; eauto). done.
  - by case_decide; simplify_eq.
Qed.

Lemma t_reachable_fired s now t : t_reachable s now t → fired_ok t.
Proof.
  intros [evs Hr]. assert (fired_ok (New s now)) as Hf by done. pose proof (New_inv s now) as Hinv.
  revert Hinv Hf Hr. generalize (New s now). induction evs as [|ev evs IH]; intros t0 Hinv Hf Hr; cbn in Hr; [congruence|].
  apply bind_Some in Hr as (t' & Hs & Hr). eauto using t_step_inv, t_step_fired.
Qed.

(** ** The permit and [ackMu] *)

Definition has_ackMu (th : TThread) : bool := match th with ThFlush (FlSend | FlCount _) => true | _ => false end.

Record held_ok (t : Tunnel) : Prop := mkHeld {
  h_permit : ∀ tid, t_permit t = Some tid → ∃ th, t_threads t !! tid = Some th ∧ sends th = true;
  h_ackMu : ∀ tid, t_ackMu t = Some tid ↔ ∃ th, t_threads t !! tid = Some th ∧ has_ackMu th = true }.

Lemma Close_step_frame tid ch pc t t1 pc1 :
  Close_step tid ch pc t = Some (t1, pc1) → t_threads t1 = t_threads t ∧ t_permit t1 = t_permit t ∧ t_ackMu t1 = t_ackMu t.
Proof.
  intros E. destruct pc as [| | |realms todo|todo| |cb|]; cbn in E; try done; try (by repeat case_match; simplify_eq).
  - case_decide; [by simplify_eq|]. destruct ch; try done. apply bind_Some in E as (r & Hr & E). by simplify_eq.
  - case_decide; [by simplify_eq|]. destruct ch; try done. apply bind_Some in E as (r & Hr & E). simplify_eq.
    by destruct (t_send_fst ok (NewStatusBody id StatusDisconnect) t) as (s & k & ->).
Qed.

(** How the locks change with a step of the code: only [flushACK] takes [ackMu] and gives it back. *)
Definition ackMu_moves (tid : nat) (th th1 : TThread) (t t1 : Tunnel) : Prop :=
  t_ackMu t1 = t_ackMu t ∧ has_ackMu th1 = has_ackMu th ∨
  t_ackMu t = None ∧ t_ackMu t1 = Some tid ∧ has_ackMu th1 = true ∨
  has_ackMu th = true ∧ t_ackMu t1 = None ∧ has_ackMu th1 = false.

Lemma t_go_frame tid ch th t t1 :
  t_go tid ch th t = Some t1 →
  ∃ th1, t_threads t1 = <[tid := th1]> (t_threads t) ∧ t_permit t1 = t_permit t ∧ ackMu_moves tid th th1 t t1.
Proof.
  intros E. destruct th as [port pc|r pc|who pc|pc|pc|pc|r data pc].
  - apply bind_Some in E as ([t2 pc2] & [= ? ? ? ? Et ? ?]%Dial_step_meta & [= <-]).
    exists (ThDial port pc2). cbn. rewrite Et. split_and!; [done..|by left].
  - apply bind_Some in E as ([t2 pc2] & [= ? ? ? ? Et ? ?]%ConnClose_step_meta & [= <-]).
    exists (ThConnClose r pc2). cbn. rewrite Et. split_and!; [done..|by left].
  - assert (pc = CRet ∨ pc ≠ CRet) as [->|Hne] by (destruct pc; by auto).
    + destruct who; cbn in E; simplify_eq; eexists; (split_and!; [done..|by left]).
    + assert (∃ t2 pc2, Close_step tid ch pc t = Some (t2, pc2) ∧ t1 = t_set tid (ThClose who pc2) t2) as (t2 & pc2 & Es & ->).
      { destruct pc; try done; apply bind_Some in E as ([t2 pc2] & E & [= <-]); eauto. }
      apply Close_step_frame in Es as (Et & ? & ?). exists (ThClose who pc2). cbn. rewrite Et. split_and!; [done..|by left].
  - apply bind_Some in E as ([t2 pc2] & [= ? ? ? ? Et ? ?]%reader_step_meta & [= <-]).
    eexists. cbn. rewrite Et. split_and!; [done..|left]. split; [done|]. by destruct pc2.
  - apply bind_Some in E as ([t2 pc2] & [= ? ? ? ? Et ? ?]%heartbeat_step_meta & [= <-]).
    eexists. cbn. rewrite Et. split_and!; [done..|left]. split; [done|]. by destruct pc2.
  - apply bind_Some in E as ([t2 pc2] & E & [= <-]). pose proof E as [a Em]%flushACK_meta.
    injection Em as ? ? ? ? Et ? ?. eexists. cbn. rewrite Et. split_and!; [done..|].
    destruct pc as [| |ok|]; cbn in E; [..|done].
    + case_decide; simplify_eq. right. by left.
    + destruct (t_send _ _ t) as [t3 ok] eqn:Es. apply t_send_frame in Es as (s & k & ->). simplify_eq. by left.
    + simplify_eq. right. right. split_and!; try done. by repeat case_match.
  - apply bind_Some in E as ([t2 pc2] & [= ? ? ? ? Et ? ?]%frame_step_meta & [= <-]).
    eexists. cbn. rewrite Et. split_and!; [done..|by left].
Qed.

Lemma held_ok_threads t t1 tid th th1 :
  held_ok t → t_threads t !! tid = Some th → t_threads t1 = <[tid := th1]> (t_threads t) →
  (∀ h, t_permit t1 = Some h → h ≠ tid ∧ t_permit t = Some h) →
  ackMu_moves tid th th1 t t1 → held_ok t1.
Proof.
  intros [Hp Ha] Hth Et Hp1 Hm. assert (t_ackMu t = Some tid ↔ has_ackMu th = true) as Hme.
  { rewrite Ha, Hth. split; [by intros (? & [= <-] & ?)|by eauto]. }
  constructor; intros h; rewrite Et.
  - intros [Hne (th0 & Hth0 & Hs)%Hp]%Hp1. exists th0. by rewrite lookup_insert_ne.
  - destruct (decide (h = tid)) as [->|Hne].
    + rewrite lookup_insert_eq. transitivity (has_ackMu th1 = true); [|split; [by eauto|by intros (? & [= <-] & ?)]].
      destruct Hm as [[-> ->]|[(_ & -> & ->)|(_ & -> & ->)]]; done.
    + rewrite lookup_insert_ne by done. rewrite <- Ha. destruct Hm as [[-> _]|[(-> & -> & _)|(Hh & -> & _)]]; [done|..].
      * split; congruence.
      * apply Hme in Hh. rewrite Hh. split; congruence.
Qed.

Lemma t_thread_held t tid ch t1 : held_ok t → t_thread tid ch t = Some t1 → held_ok t1.
Proof.
  intros Hh (th & Hth & Hc)%t_thread_cases.
  assert (∀ h, sends th = false → t_permit t = Some h → h ≠ tid) as Hns.
  { intros h Hs (th0 & Hth0 & Hs0)%(h_permit _ Hh) ->. congruence. }
  destruct Hc as [[Hs E]|[(_ & Hp & t2 & E & ->)|[(Hp & r & data & -> & ->)|(Hs & Hp & ->)]]].
  - apply t_go_frame in E as (th1 & Et & Ep & Em). eapply held_ok_threads; try done. rewrite Ep. eauto.
  - apply t_go_frame in E as (th1 & Et & Ep & Em). by eapply (held_ok_threads t _ tid).
  - eapply (held_ok_threads t _ tid); try done; [|by left]. cbn. intros h Eh. split; [congruence|done].
  - destruct Hh as [_ Ha]. constructor; [|exact Ha]. cbn. intros h [= <-]. eauto.
Qed.

Lemma held_ok_spawn t tid th t1 : held_ok t → spawn tid th t = Some t1 → has_ackMu th = false → held_ok t1.
Proof.
  unfold spawn. intros [Hp Ha] E Hn. case_decide as Hnew; simplify_eq. constructor; cbn; intros h.
  - intros (th0 & Hth0 & Hs)%Hp. exists th0. rewrite lookup_insert_ne by congruence. done.
  - rewrite Ha. destruct (decide (h = tid)) as [->|Hne]; [|by rewrite lookup_insert_ne].
    rewrite lookup_insert_eq, Hnew. split; [by intros (? & ? & _)|]. intros (? & [= <-] & ?). congruence.
Qed.

Lemma held_ok_env t t1 :
  t_permit t1 = t_permit t → t_ackMu t1 = t_ackMu t → t_threads t1 = t_threads t → held_ok t → held_ok t1.
Proof. intros Ep Ea Et [Hp Ha]. by constructor; rewrite ?Ep, ?Ea, Et. Qed.

Lemma t_step_held ev t t1 : held_ok t → t_step ev t = Some t1 → held_ok t1.
Proof.
  intros Hh E. destruct ev as [tid ch|tid port|tid r|tid|tid r data|tid|r| |fn|d]; cbn in E.
  - by eapply t_thread_held.
  - by eapply held_ok_spawn.
  - case_decide; [|done]. by eapply held_ok_spawn.
  - by eapply held_ok_spawn.
  - case_decide; [|done]. by eapply held_ok_spawn.
  - apply bind_Some in E as (d & Hd & E). case_decide; [|done]. eapply (held_ok_spawn (t <| t_ackTimer := None |>)); [|exact E|done]. by apply (held_ok_env t).
  - apply bind_Some in E as (c & Hc & E). simplify_eq. by apply (held_ok_env t).
  - unfold Retire in E. case_decide; simplify_eq. by apply (held_ok_env t).
  - unfold SetOnClose in E. case_decide; simplify_eq. case_match; by apply (held_ok_env t).
  - case_decide; simplify_eq. by apply (held_ok_env t).
Qed.

Lemma t_reachable_held s now t : t_reachable s now t → held_ok t.
Proof.
  intros [evs Hr]. assert (held_ok (New s now)) as Hh.
  { constructor; [done|]. intros tid. split; [done|]. intros (th & Hl & Hs). cbn in Hl.
    apply lookup_insert_Some in Hl as [[_ <-]|[_ Hl]]; [done|]. by apply lookup_singleton_Some in Hl as [_ <-]. }
  revert Hh Hr. generalize (New s now). induction evs as [|ev evs IH]; intros t0 Hh Hr; cbn in Hr; [by simplify_eq|].
  apply bind_Some in Hr as (t' & Hs & Hr). eauto using t_step_held.
Qed.

(** ** Progress

    What a goroutine can do with the help of those [H] that hold the permit or [ackMu]. *)

Lemma t_run_app evs1 evs2 t : t_run (evs1 ++ evs2) t = t_run evs1 t ≫= t_run evs2.
Proof. revert t. induction evs1 as [|ev evs1 IH]; intros t; cbn; [done|]. by destruct (t_step ev t); cbn. Qed.

(** Once its permit is there, a send goes through and changes nothing else. *)
Lemma send_goes t h th :
  t_inv t → t_threads t !! h = Some th → sends th = true →
  ∃ ch t1 th1, t_go h ch th t = Some t1 ∧ core t1 = core t ∧ t_threads t1 = <[h := th1]> (t_threads t) ∧
    t_ackMu t1 = t_ackMu t ∧ th1 ≠ th ∧
    match th with
    | ThFlush _ => ∃ ok, th1 = ThFlush (FlCount ok)
    | ThClose who (CDisc todo) => ∃ id r, todo !! id = Some r ∧ th1 = ThClose who (CDisc (delete id todo))
    | _ => True
    end.
Proof.
  intros Hinv Hth Hs. pose proof (i_local _ Hinv _ _ Hth) as Hl.
  assert (∀ r, r ∈ t_returned t → is_Some (t_conns t !! r)) as Hret.
  { destruct (i_chans _ Hinv) as (_ & _ & H3 & H4). auto. }
  destruct th as [port pc|r pc|who pc|pc|pc|pc|r data pc]; cbn in Hs, Hl.
  - destruct pc as [| | | | | |k id r| | | | |]; try done. destruct (t_send true (NewBindBody id port) t) as [t2 ok] eqn:Es.
    exists TGo. cbn. rewrite Es. apply t_send_frame in Es as (s & k' & ->).
    do 2 eexists. split_and!; try done. by destruct ok.
  - destruct pc as [| | |i| | |]; try done. destruct Hl as [Hr _]. destruct (Hret _ Hr) as [c Hc].
    destruct (t_send true (NewStatusBody (c_realmID c) StatusDisconnect) t) as [t2 ok] eqn:Es.
    exists TGo. cbn [t_go]. unfold ConnClose_step. rewrite Hc. cbn. rewrite Es. apply t_send_frame in Es as (s & k' & ->).
    do 2 eexists. split_and!; try done. by repeat case_match.
  - destruct pc as [| | | |todo| | |]; try done. apply negb_true_iff, bool_decide_eq_false in Hs.
    destruct (map_choose _ Hs) as (id & r & Hr). exists (TKey id true). cbn [t_go Close_step]. rewrite decide_False, Hr by done. cbn.
    destruct (t_send_fst true (NewStatusBody id StatusDisconnect) t) as (s & k & ->).
    do 2 eexists. split_and!; try done; [|by exists id, r]. intros [= Ed]. by rewrite <- Ed, lookup_delete_eq in Hr.
  - exists TGo. destruct pc; try done; cbn.
    + destruct (t_send_fst true NewSyncBody t) as (s & k & ->). by do 2 eexists.
    + destruct (t_send_fst true (NewStatusBody realm StatusDisconnect) t) as (s & k & ->). by do 2 eexists.
  - exists TGo. destruct pc; try done; cbn. destruct (t_send_fst true NewHeartbeatBody t) as (s & k & ->). by do 2 eexists.
  - destruct pc; try done. destruct (t_send true NewEmptyBody t) as [t2 ok] eqn:Es.
    exists TGo. cbn. rewrite Es. apply t_send_frame in Es as (s & k' & ->). do 2 eexists. split_and!; try done. by exists ok.
  - destruct pc; try done. destruct (Hret _ Hl) as [c Hc]. exists TGo. cbn [t_go]. unfold frame_step. rewrite Hc. cbn.
    destruct (t_done t || c_closed c).
    + do 2 eexists. by split_and!.
    + destruct (t_send_fst true (NewPayloadBody (c_realmID c) data) t) as (s & k & ->). do 2 eexists. by split_and!.
Qed.

Lemma size_delete_lt {A} (m : gmap Z A) id r : m !! id = Some r → size m = S (size (delete id m)).
Proof.
  intros H. rewrite <- (insert_delete_id m id r H) at 1. by rewrite map_size_insert_None by apply lookup_delete_eq.
Qed.

Section Progress.
Context (H : nat → Prop) (tid : nat).

Definition by_us (ev : TEvent) : Prop := ∃ h ch, ev = TvRun h ch ∧ (h = tid ∨ H h).

Definition runs (n : nat) (t t1 : Tunnel) : Prop :=
  ∃ evs, (length evs ≤ n)%nat ∧ Forall by_us evs ∧ t_run evs t = Some t1.

Lemma runs_refl n t : runs n t t.
Proof. exists []. split_and!; [cbn; lia|constructor|done]. Qed.

Lemma runs_trans n m t t1 t2 : runs n t t1 → runs m t1 t2 → runs (n + m) t t2.
Proof.
  intros (e1 & L1 & F1 & R1) (e2 & L2 & F2 & R2). exists (e1 ++ e2). rewrite length_app, t_run_app, R1.
  split_and!; [lia|by apply Forall_app|done].
Qed.

Lemma runs_one t t1 h ch : h = tid ∨ H h → t_thread h ch t = Some t1 → runs 1 t t1.
Proof. intros Hh E. exists [TvRun h ch]. cbn. rewrite E. split_and!; [lia| |done]. constructor; [by exists h, ch|constructor]. Qed.

Record ready (t : Tunnel) : Prop := mkReady {
  rd_inv : t_inv t;
  rd_held : held_ok t;
  rd_permit : ∀ h, t_permit t = Some h → h = tid ∨ H h;
  rd_ackMu : ∀ h, t_ackMu t = Some h → h = tid ∨ H h }.

Lemma ready_step t t1 h ch : h = tid ∨ H h → ready t → t_thread h ch t = Some t1 → ready t1.
Proof.
  intros Hh [Hi Hl Hp Ha] E.
  assert ((t_permit t1 = t_permit t ∨ t_permit t1 = None ∨ t_permit t1 = Some h) ∧
          (t_ackMu t1 = t_ackMu t ∨ t_ackMu t1 = None ∨ t_ackMu t1 = Some h)) as [Ep Ea].
  { apply t_thread_cases in E as (th & Hth & [[_ E]|[(_ & _ & t2 & E & ->)|[(_ & r & data & -> & ->)|(_ & _ & ->)]]]);
      [| |by auto..]; apply t_go_frame in E as (th1 & _ & Ep & [[Ea _]|[(_ & Ea & _)|(_ & Ea & _)]]); cbn; auto. }
  constructor; [by eapply t_thread_inv|by eapply t_thread_held|..].
  - intros x. destruct Ep as [->|[->| ->]]; [apply Hp|done|by intros [= <-]].
  - intros x. destruct Ea as [->|[->| ->]]; [apply Ha|done|by intros [= <-]].
Qed.

(** The permit is not [me]'s: its holder gives it back. *)
Lemma free_permit t :
  ready t →
  ∃ t1, runs 1 t t1 ∧ ready t1 ∧ t_permit t1 = None ∧ core t1 = core t ∧ t_ackMu t1 = t_ackMu t ∧
    ∀ x, t_permit t ≠ Some x → t_threads t1 !! x = t_threads t !! x.
Proof.
  intros Hr. destruct (t_permit t) as [h|] eqn:Hp.
  - destruct (h_permit _ (rd_held _ Hr) _ Hp) as (th & Hth & Hs). pose proof (rd_permit _ Hr _ Hp) as Hh.
    destruct (send_goes t h th (rd_inv _ Hr) Hth Hs) as (ch & t1 & th1 & Hg & Hc & Et & Ea & _).
    assert (t_thread h ch t = Some (t1 <| t_permit := None |>)) as E.
    { unfold t_thread. rewrite Hth. cbn. rewrite Hs, decide_True by done. by rewrite Hg. }
    exists (t1 <| t_permit := None |>). split_and!; try done; [by eapply runs_one|by eapply ready_step|].
    intros x Hx. cbn. rewrite Et, lookup_insert_ne; [done|congruence].
  - exists t. split_and!; try done. apply runs_refl.
Qed.

Lemma take_permit t me th :
  ready t → me = tid ∨ H me → t_threads t !! me = Some th → sends th = true →
  ∃ t1, runs 2 t t1 ∧ ready t1 ∧ t_permit t1 = Some me ∧ core t1 = core t ∧ t_ackMu t1 = t_ackMu t ∧
    t_threads t1 !! me = Some th ∧ ∀ x, t_permit t ≠ Some x → t_threads t1 !! x = t_threads t !! x.
Proof.
  intros Hr Hme Hth Hs. destruct (decide (t_permit t = Some me)) as [Hp|Hp].
  { exists t. split_and!; try done. apply runs_refl. }
  destruct (free_permit t Hr) as (t1 & R1 & Hr1 & Hp1 & Hc1 & Ha1 & Et1). rewrite <- (Et1 _ Hp) in Hth.
  assert (t_thread me TGo t1 = Some (t1 <| t_permit := Some me |>)) as E.
  { unfold t_thread. rewrite Hth. cbn. rewrite Hs, Hp1. cbn. destruct th as [| | | | | |? ? []]; done. }
  exists (t1 <| t_permit := Some me |>). split_and!; try done.
  - eapply (runs_trans 1 1); [exact R1|by eapply runs_one].
  - by eapply ready_step.
Qed.

(** With the permit, a send is one more step. *)
Lemma send_runs t me th :
  ready t → me = tid ∨ H me → t_threads t !! me = Some th → sends th = true →
  ∃ t1 th1, runs 3 t t1 ∧ ready t1 ∧ t_permit t1 = None ∧ core t1 = core t ∧ t_ackMu t1 = t_ackMu t ∧
    t_threads t1 !! me = Some th1 ∧ (∀ x, t_permit t ≠ Some x → x ≠ me → t_threads t1 !! x = t_threads t !! x) ∧ th1 ≠ th ∧
    match th with
    | ThFlush _ => ∃ ok, th1 = ThFlush (FlCount ok)
    | ThClose who (CDisc todo) => ∃ id r, todo !! id = Some r ∧ th1 = ThClose who (CDisc (delete id todo))
    | _ => True
    end.
Proof.
  intros Hr Hme Hth Hs. destruct (take_permit t me th Hr Hme Hth Hs) as (t1 & R1 & Hr1 & Hp1 & Hc1 & Ha1 & Hth1 & Et1).
  destruct (send_goes t1 me th (rd_inv _ Hr1) Hth1 Hs) as (ch & t2 & th2 & Hg & Hc & Et & Ea & Hne & Hsp).
  assert (t_thread me ch t1 = Some (t2 <| t_permit := None |>)) as E.
  { unfold t_thread. rewrite Hth1. cbn. rewrite Hs, decide_True by done. by rewrite Hg. }
  exists (t2 <| t_permit := None |>), th2. split_and!; try done.
  - eapply (runs_trans 2 1); [exact R1|by eapply runs_one].
  - by eapply ready_step.
  - change (core t2 = core t). by rewrite Hc.
  - cbn. by rewrite Ea.
  - cbn. by rewrite Et, lookup_insert_eq.
  - intros x Hx Hxm. cbn. rewrite Et, lookup_insert_ne by done. by apply Et1.
Qed.

(** The [flushACK] that holds [ackMu] finishes. *)
Lemma free_ackMu t :
  ready t → t_ackMu t ≠ Some tid → t_permit t ≠ Some tid →
  ∃ t1, runs 4 t t1 ∧ ready t1 ∧ t_ackMu t1 = None ∧ core t1 = core t ∧ t_permit t1 ≠ Some tid ∧
    t_threads t1 !! tid = t_threads t !! tid.
Proof.
  intros Hr Ha Hp. destruct (t_ackMu t) as [f|] eqn:Ef; [|exists t; split_and!; try done; apply runs_refl].
  assert (f ≠ tid) as Hne by congruence. pose proof (rd_ackMu _ Hr _ Ef) as Hf.
  assert (∀ t ok, ready t → t_threads t !! f = Some (ThFlush (FlCount ok)) → ∃ t1, runs 1 t t1 ∧ ready t1 ∧
    t_ackMu t1 = None ∧ core t1 = core t ∧ t_permit t1 = t_permit t ∧ t_threads t1 !! tid = t_threads t !! tid) as Hcount.
  { intros t0 ok Hr0 Hth0. assert (∃ t1, t_thread f TGo t0 = Some t1 ∧ t_ackMu t1 = None ∧ core t1 = core t0 ∧
      t_permit t1 = t_permit t0 ∧ t_threads t1 !! tid = t_threads t0 !! tid) as (t1 & E & Hrest).
    { unfold t_thread. rewrite Hth0. cbn. eexists. split_and!; try done. cbn. by rewrite lookup_insert_ne. }
    exists t1. split_and!; try apply Hrest; [by eapply runs_one|by eapply ready_step]. }
  destruct (proj1 (h_ackMu _ (rd_held _ Hr) f) Ef) as (th & Hth & Hm). destruct th as [| | | | |pc|]; try done.
  destruct pc as [| |ok|]; try done.
  - destruct (send_runs t f _ Hr Hf Hth eq_refl) as (t1 & th1 & R1 & Hr1 & Hp1 & Hc1 & Ha1 & Hth1 & Et1 & _ & ok & ->).
    destruct (Hcount t1 ok Hr1 Hth1) as (t2 & R2 & Hr2 & Ha2 & Hc2 & Hp2 & Et2). exists t2. split_and!; try done.
    + by apply (runs_trans 3 1 t t1).
    + by rewrite Hc2.
    + by rewrite Hp2, Hp1.
    + rewrite Et2. by apply Et1.
  - destruct (Hcount t ok Hr Hth) as (t2 & (evs & L & F & R) & Hr2 & Ha2 & Hc2 & Hp2 & Et2). exists t2. split_and!; try done.
    + exists evs. split_and!; [lia|done..].
    + by rewrite Hp2.
Qed.

(** *** [Close] *)

(** Steps left until [Close] gives [mu] back, a wait and what follows it counted as one. *)
Definition close_rank (t : Tunnel) (pc : CloseTPC) : nat :=
  match pc with
  | CAckTimer => 5 + 2 * ActiveRealms t
  | CSwap => 4 + 2 * ActiveRealms t
  | CSignal realms todo => 3 + size todo + size realms
  | CDisc todo => 2 + size todo
  | CSocket => 1
  | _ => 0
  end.

(** A goroutine that does not send and does not flush holds neither the permit nor [ackMu]. *)
Lemma not_holding t th :
  held_ok t → t_threads t !! tid = Some th →
  (sends th = false → t_permit t ≠ Some tid) ∧ (has_ackMu th = false → t_ackMu t ≠ Some tid).
Proof.
  intros [Hp Ha] Hth. split.
  - intros Hs (th0 & E0 & E1)%Hp. congruence.
  - intros Hs (th0 & E0 & E1)%Ha. congruence.
Qed.

(** A step of its code. *)
Lemma go_runs t th ch t1 :
  ready t → t_threads t !! tid = Some th → sends th = false → t_go tid ch th t = Some t1 → runs 1 t t1 ∧ ready t1.
Proof.
  intros Hr Hth Hs E. assert (t_thread tid ch t = Some t1) as Et by (unfold t_thread; rewrite Hth; cbn; by rewrite Hs).
  split; [eapply runs_one; [by left|done]|]. eapply ready_step; [by left|done..].
Qed.

Lemma close_steps t who pc :
  ready t → t_threads t !! tid = Some (ThClose who pc) → inside pc = true →
  ∃ t1 pc1, runs 5 t t1 ∧ ready t1 ∧ t_threads t1 !! tid = Some (ThClose who pc1) ∧
    (close_rank t1 pc1 < close_rank t pc)%nat ∧
    (inside pc1 = true ∨ t_mu t1 = None ∧ t_realms t1 = None ∧ t_sockClosed t1 = true).
Proof.
  intros Hr Hth Hi. pose proof (i_local _ (rd_inv _ Hr) _ _ Hth) as (_ & _ & _ & Hsw & _).
  assert (∀ t0 n, (n ≤ 5)%nat → runs n t t0 → runs 5 t t0) as Hle.
  { intros t0 n Hn (evs & L & F & R). exists evs. split_and!; [lia|done..]. }
  (* one step of its own from a state [t0] that looks like [t] to it *)
  assert (∀ t0 n ch t1 pc1, runs n t t0 → (n ≤ 4)%nat → ready t0 → t_threads t0 !! tid = Some (ThClose who pc) →
    sends (ThClose who pc) = false → t_go tid ch (ThClose who pc) t0 = Some (t_set tid (ThClose who pc1) t1) →
    (close_rank t1 pc1 < close_rank t pc)%nat →
    (inside pc1 = true ∨ t_mu t1 = None ∧ t_realms t1 = None ∧ t_sockClosed t1 = true) →
    ∃ t1 pc1, runs 5 t t1 ∧ ready t1 ∧ t_threads t1 !! tid = Some (ThClose who pc1) ∧
      (close_rank t1 pc1 < close_rank t pc)%nat ∧
      (inside pc1 = true ∨ t_mu t1 = None ∧ t_realms t1 = None ∧ t_sockClosed t1 = true)) as Hown.
  { intros t0 n ch t1 pc1 R0 Hn Hr0 Hth0 Hs E Hrk He. destruct (go_runs _ _ _ _ Hr0 Hth0 Hs E) as [R1 Hr1].
    exists (t_set tid (ThClose who pc1) t1), pc1. split_and!; try done.
    - eapply Hle; [|by eapply runs_trans]. lia.
    - apply lookup_insert_eq. }
  destruct pc as [| | |realms todo|todo| |cb|]; try done.
  - (* CAckTimer *) destruct (not_holding t _ (rd_held _ Hr) Hth) as [Np Na].
    destruct (free_ackMu t Hr (Na eq_refl) (Np eq_refl)) as (t0 & R0 & Hr0 & Ha0 & Hc0 & _ & Et0).
    eapply (Hown t0 4%nat TGo); try done; [by rewrite Et0|..].
    + cbn. rewrite decide_True by done. done.
    + unfold close_rank, ActiveRealms. core_eqs Hc0. cbn. replace (t_realms t0) with (t_realms t). lia.
    + by left.
  - (* CSwap *) eapply (Hown t 0%nat TGo); try done; [apply runs_refl|lia| |by left].
    unfold close_rank, ActiveRealms. destruct (t_realms t) as [m|]; [cbn [default]; unfold id; lia|].
    change (default ∅ None) with (∅ : gmap Z nat). rewrite map_size_empty. lia.
  - (* CSignal *) destruct (decide (todo = ∅)) as [->|Hne].
    + eapply (Hown t 0%nat TGo); try done; [apply runs_refl|lia| |by left].
      unfold close_rank. rewrite map_size_empty. lia.
    + destruct (map_choose _ Hne) as (id & r & Hid).
      eapply (Hown t 0%nat (TKey id true)); try done; [apply runs_refl|lia|cbn [t_go Close_step]; by rewrite decide_False, Hid| |by left].
      unfold close_rank. rewrite (size_delete_lt _ _ _ Hid). lia.
  - (* CDisc *) destruct (decide (todo = ∅)) as [->|Hne].
    + eapply (Hown t 0%nat TGo); try done; [apply runs_refl|lia| |by left].
      unfold close_rank. rewrite map_size_empty. lia.
    + assert (sends (ThClose who (CDisc todo)) = true) as Hs by (cbn; by rewrite bool_decide_eq_false_2).
      destruct (send_runs t tid _ Hr (or_introl eq_refl) Hth Hs) as (t1 & th1 & R1 & Hr1 & _ & _ & _ & Hth1 & _ & _ & id & r & Hid & ->).
      exists t1, (CDisc (delete id todo)). split_and!; try done; [by eapply Hle; [|exact R1]; lia| |by left].
      unfold close_rank. rewrite (size_delete_lt _ _ _ Hid). lia.
  - (* CSocket *) eapply (Hown t 0%nat TGo); try done; [apply runs_refl|lia|unfold close_rank; lia|].
    right. split_and!; try done. by apply Hsw.
Qed.

Lemma close_runs who : ∀ n t pc,
  ready t → t_threads t !! tid = Some (ThClose who pc) → inside pc = true → (close_rank t pc ≤ n)%nat →
  ∃ t1, runs (5 * n) t t1 ∧ t_mu t1 = None ∧ t_realms t1 = None ∧ t_sockClosed t1 = true.
Proof.
  induction n as [|n IH]; intros t pc Hr Hth Hi Hn;
    destruct (close_steps t who pc Hr Hth Hi) as (t1 & pc1 & R1 & Hr1 & Hth1 & Hrk & Hend); [lia|].
  destruct Hend as [Hi1|Hend].
  - destruct (IH t1 pc1) as (t2 & R2 & Hd); try done; [lia|]. exists t2. split; [|done].
    replace (5 * S n)%nat with (5 + 5 * n)%nat by lia. by eapply runs_trans.
  - exists t1. split; [|done]. destruct R1 as (evs & L & F & R). exists evs. split_and!; [lia|done..].
Qed.

(** *** The reader *)

Lemma reader_runs t pc :
  ready t → t_threads t !! tid = Some (ThReader pc) → pc ≠ RdRead → pc ≠ RdExit →
  ∃ t1 th1, runs 5 t t1 ∧ t_threads t1 !! tid = Some th1 ∧ th1 ≠ ThReader pc.
Proof.
  intros Hr Hth Hn1 Hn2. pose proof (rd_inv _ Hr) as Hinv. destruct (i_local _ Hinv _ _ Hth) as [_ Hpc].
  assert (∀ t0 n, (n ≤ 5)%nat → runs n t t0 → runs 5 t t0) as Hle.
  { intros t0 n Hn (evs & L & F & R). exists evs. split_and!; [lia|done..]. }
  assert (∀ t0 n t1 pc1, runs n t t0 → (n ≤ 4)%nat → ready t0 → t_threads t0 !! tid = Some (ThReader pc) →
    sends (ThReader pc) = false → reader_step TGo pc t0 = Some (t1, pc1) → call_close ByReader ThReader pc1 ≠ ThReader pc →
    ∃ t1 th1, runs 5 t t1 ∧ t_threads t1 !! tid = Some th1 ∧ th1 ≠ ThReader pc) as Hown.
  { intros t0 n t1 pc1 R0 Hn Hr0 Hth0 Hs E Hne.
    assert (t_go tid TGo (ThReader pc) t0 = Some (t_set tid (call_close ByReader ThReader pc1) t1)) as Eg by (cbn; by rewrite E).
    destruct (go_runs _ _ _ _ Hr0 Hth0 Hs Eg) as [R1 Hr1]. do 2 eexists. split_and!; [| |exact Hne].
    - eapply Hle; [|by eapply runs_trans]. lia.
    - apply lookup_insert_eq. }
  assert (sends (ThReader pc) = true → ∃ t1 th1, runs 5 t t1 ∧ t_threads t1 !! tid = Some th1 ∧ th1 ≠ ThReader pc) as Hsend.
  { intros Hs. destruct (send_runs t tid _ Hr (or_introl eq_refl) Hth Hs) as (t1 & th1 & R1 & _ & _ & _ & _ & Hth1 & _ & Hne & _).
    exists t1, th1. split_and!; try done. eapply Hle; [|exact R1]. lia. }
  assert (∀ t1 pc1, sends (ThReader pc) = false → reader_step TGo pc t = Some (t1, pc1) → call_close ByReader ThReader pc1 ≠ ThReader pc →
    ∃ t1 th1, runs 5 t t1 ∧ t_threads t1 !! tid = Some th1 ∧ th1 ≠ ThReader pc) as Hnow.
  { intros t1 pc1. apply (Hown t 0%nat t1 pc1); try done; [apply runs_refl|lia]. }
  destruct pc as [| | |p|p|p| |r|realm r data|realm r|realm r|realm| |]; try done;
    try (by eapply Hnow); try (by apply Hsend).
  - eapply Hnow; [done|cbn; reflexivity|by destruct (t_done t)].
  - destruct (t_done t) eqn:Ed; (eapply Hnow; [done|cbn; rewrite Ed; reflexivity|]); [done|by case_decide].
  - assert (∃ t1 pc1, dispatch (PBody p) t = Some (t1, pc1) ∧ pc1 ≠ RdDispatch p) as (t1 & pc1 & Ed & Hne).
    { unfold dispatch. destruct (BType (PBody p)); try (by do 2 eexists).
      - destruct (realm_lookup _ t); by do 2 eexists.
      - case_decide; [|case_decide; [destruct (realm_lookup _ t)|]; by do 2 eexists].
        destruct (t_connCh t !! _) as [r|] eqn:Hrr; [|by do 2 eexists]. destruct (i_chans _ Hinv) as (_ & H2 & _).
        destruct (H2 _ _ Hrr) as [_ ->]. cbn. by do 2 eexists. }
    eapply Hnow; [done|cbn; rewrite Ed; reflexivity|]. cbn. by intros [= ?].
  - destruct Hpc as (c & Hc & _).
    destruct (decide (length (c_dataCh c) < dataCh_cap)%nat) as [Hd|Hd];
      (eapply Hnow; [done|cbn [reader_step]; rewrite Hc; cbn [mbind option_bind]|]).
    + by rewrite decide_True.
    + done.
    + by rewrite decide_False.
    + done.
  - destruct (not_holding t _ (rd_held _ Hr) Hth) as [Np Na].
    destruct (free_ackMu t Hr (Na eq_refl) (Np eq_refl)) as (t0 & R0 & Hr0 & Ha0 & _ & _ & Et0).
    eapply (Hown t0 4%nat); try done; [by rewrite Et0|cbn; unfold scheduleACK; by rewrite decide_True|done].
Qed.
End Progress.

(** In a reachable state the holders of the permit and of [ackMu] are the helpers needed. *)
Lemma ready_now s now t tid : t_reachable s now t → ready (λ h, t_permit t = Some h ∨ t_ackMu t = Some h) tid t.
Proof. intros Hr. constructor; [by eapply t_reachable_inv|by eapply t_reachable_held|by auto..]. Qed.

(** ** Termination of [Dial] *)

(** The steps a [Dial] call can still take; [permit]: it holds the permit. *)
Definition dial_rank (permit : bool) (pc : DialPC) : nat :=
  match pc with
  | DEnter => 32 | DLock => 31 | DRecheck => 30
  | DPick k => 2 + 9 * (maxRetries - k)
  | DInstall k _ => 1 + 9 * (maxRetries - k)
  | DChan k _ _ => 9 * (maxRetries - k)
  | DBind k _ _ => (if permit then 7 else 8) + 9 * (maxRetries - S k)
  | DWait k _ _ _ => 6 + 9 * (maxRetries - S k)
  | DClean1 _ (NextAttempt k) => 4 + 9 * (maxRetries - k)
  | DClean2 _ (NextAttempt k) => 3 + 9 * (maxRetries - k)
  | DClean1 _ (GiveUp _) => 3 | DClean2 _ (GiveUp _) => 2
  | DExit _ => 1 | DDone _ => 0
  end.

Definition attempt_ok (pc : DialPC) : bool :=
  match pc with
  | DInstall k _ | DChan k _ _ | DBind k _ _ | DWait k _ _ _ => bool_decide (k < maxRetries)%nat
  | _ => true
  end.

Lemma dial_rank_decreases tid ch port pc t t1 pc1 :
  attempt_ok pc = true → Dial_step tid ch port pc t = Some (t1, pc1) →
  (dial_rank false pc1 < dial_rank true pc)%nat ∧ attempt_ok pc1 = true.
Proof.
  intros Ha E. unfold dial_rank, attempt_ok, maxRetries in *.
  destruct pc as [| | |k|k id|k id r|k id r|k id r since|id next|id next|res|res]; cbn in E; [..|done];
    try apply bool_decide_eq_true in Ha.
  - apply bind_Some in E as (e & _ & E). destruct e; simplify_eq; (split; [lia|done]).
  - case_decide; simplify_eq. split; [lia|done].
  - apply bind_Some in E as (e & _ & E). destruct e; simplify_eq; (split; [lia|done]).
  - case_decide as Hk; [|simplify_eq; split; [lia|done]]. destruct ch; try done. case_decide; simplify_eq.
    split; [lia|by apply bool_decide_eq_true].
  - destruct (t_realms t); simplify_eq; (split; [lia|try done]). by apply bool_decide_eq_true.
  - simplify_eq. split; [lia|by apply bool_decide_eq_true].
  - destruct (t_send _ _ t) as [t2 ok]. simplify_eq. destruct ok; (split; [lia|try done]).
    by apply bool_decide_eq_true.
  - destruct ch; try done.
    + case_decide; simplify_eq. split; [lia|done].
    + apply bind_Some in E as (n & Hn & E). case_decide; simplify_eq. split; [lia|done].
    + case_match; simplify_eq. split; [lia|done].
  - simplify_eq. destruct next; (split; [lia|done]).
  - simplify_eq. destruct next; (split; [lia|done]).
  - simplify_eq. split; [lia|done].
Qed.

Definition attempts_ok (t : Tunnel) : Prop :=
  ∀ tid port pc, t_threads t !! tid = Some (ThDial port pc) → attempt_ok pc = true.

Lemma attempts_ok_move t t1 tid th' :
  attempts_ok t → t_threads t1 = t_threads t → (∀ port pc, th' = ThDial port pc → attempt_ok pc = true) →
  attempts_ok (t_set tid th' t1).
Proof.
  intros Ha Et H tid' port pc. cbn. rewrite Et.
  intros [[<- ->]|[_ Hl]]%lookup_insert_Some; [by eapply H|by eapply Ha].
Qed.

Lemma t_go_attempts t tid ch th t1 :
  attempts_ok t → t_threads t !! tid = Some th → t_go tid ch th t = Some t1 → attempts_ok t1.
Proof.
  intros Ha Hth E. pose proof E as (th1 & Et & _)%t_go_frame. intros tid' port pc. rewrite Et.
  intros [[<- ->]|[_ Hl]]%lookup_insert_Some; [|by eapply Ha].
  assert (t_threads t1 !! tid = Some (ThDial port pc)) as Hth1 by (by rewrite Et, lookup_insert_eq).
  destruct th as [port0 pc0|r pc0|who pc0|pc0|pc0|pc0|r data pc0].
  - apply bind_Some in E as ([t2 pc2] & E & [= <-]). cbn in Hth1. rewrite lookup_insert_eq in Hth1. simplify_eq.
    eapply dial_rank_decreases; [|exact E]. by eapply Ha.
  - apply bind_Some in E as ([t2 pc2] & _ & [= <-]). cbn in Hth1. by rewrite lookup_insert_eq in Hth1.
  - assert (∃ t2 th2, t1 = t_set tid th2 t2 ∧ (∀ p c, th2 ≠ ThDial p c)) as (t2 & th2 & -> & Hn).
    { destruct pc0; try (apply bind_Some in E as ([t2 pc2] & _ & [= <-]); by do 2 eexists).
      destruct who; cbn in E; simplify_eq; by do 2 eexists. }
    cbn in Hth1. rewrite lookup_insert_eq in Hth1. simplify_eq. by destruct (Hn port pc).
  - apply bind_Some in E as ([t2 pc2] & _ & [= <-]). cbn in Hth1. rewrite lookup_insert_eq in Hth1. by destruct pc2.
  - apply bind_Some in E as ([t2 pc2] & _ & [= <-]). cbn in Hth1. rewrite lookup_insert_eq in Hth1. by destruct pc2.
  - apply bind_Some in E as ([t2 pc2] & _ & [= <-]). cbn in Hth1. rewrite lookup_insert_eq in Hth1. by destruct pc2.
  - apply bind_Some in E as ([t2 pc2] & _ & [= <-]). cbn in Hth1. by rewrite lookup_insert_eq in Hth1.
Qed.

Lemma t_step_attempts ev t t1 : attempts_ok t → t_step ev t = Some t1 → attempts_ok t1.
Proof.
  intros Ha E. destruct ev as [tid ch|tid port|tid r|tid|tid r data|tid|r| |fn|d]; cbn in E;
    try (unfold spawn, Retire, SetOnClose in E; repeat case_decide; repeat case_match; simplify_eq;
         first [done | apply (attempts_ok_move t); try done; by intros ? ? [= <- <-]]).
  - revert E. apply (t_thread_keeps attempts_ok); [done| | |done].
    + intros th t2 Hth. by apply t_go_attempts.
    + intros r data Hth. by apply (attempts_ok_move t).
  - apply bind_Some in E as (d & Hd & E). unfold spawn in E. repeat case_decide; simplify_eq. by apply (attempts_ok_move t).
  - apply bind_Some in E as (c & Hc & E). by simplify_eq.
Qed.

Lemma t_reachable_attempts s now t : t_reachable s now t → attempts_ok t.
Proof.
  intros [evs Hr]. assert (attempts_ok (New s now)) as Ha.
  { intros tid port pc Hl. cbn in Hl. apply lookup_insert_Some in Hl as [[_ ?]|[_ Hl]]; [done|]. by apply lookup_singleton_Some in Hl as [_ ?]. }
  revert Ha Hr. generalize (New s now). induction evs as [|ev evs IH]; intros t0 Ha Hr; cbn in Hr; [by simplify_eq|].
  apply bind_Some in Hr as (t' & Hs & Hr). eauto using t_step_attempts.
Qed.

(** ** Theorems *)

(** C16. What a closed tunnel is, in every interleaving: [closed] and
    [done] change together; while the tunnel is open its realm map exists; once
    [closed] is set and the [Close] that set it has given [mu] back, there is no
    realm any more and the socket is closed.  The callback installed before the
    tunnel closed has then fired exactly once or is about to be fired by that
    [Close], every callback installed later has fired exactly once, and none fires
    on an open tunnel. *)
Theorem close_settles s now t :
  t_reachable s now t →
  t_done t = t_closed t ∧
  (t_closed t = false → is_Some (t_realms t) ∧ t_fired t = []) ∧
  (t_closed t = true → t_mu t = None →
     t_realms t = None ∧ ActiveRealms t = 0%nat ∧ t_sockClosed t = true ∧
     ∃ tid, t_closer t = Some tid ∧
       if closing_th (t_threads t !! tid) then t_fired t = t_late t
       else t_fired t ≡ₚ option_list (t_onClose t) ++ t_late t).
Proof.
  intros Hr. pose proof (t_reachable_fired _ _ _ Hr) as Hf.
  destruct (i_flags _ (t_reachable_inv _ _ _ Hr)) as (F1 & F2 & F3 & F4 & F5). unfold fired_ok in Hf.
  split_and!; [done| |].
  - intros Hc. split; [auto|]. destruct (t_closer t); [|apply Hf]. rewrite (proj2 F2) in Hc by eauto. done.
  - intros Hc Hm. destruct (F5 Hc Hm) as [E1 E2]. destruct (proj1 F2 Hc) as [tid Ht]. rewrite Ht in Hf.
    unfold ActiveRealms. rewrite E1. split_and!; eauto.
Qed.

(** C34. [Close] waits for nothing but writes to the socket.  Whatever the
    other goroutines are doing and whoever holds the permit and [ackMu], a [Close] that
    holds [mu] can be brought to its end, with no realm left and the socket closed, by
    finitely many steps of its own, of the goroutine that holds the permit (which is
    in its write) and of the [flushACK] that holds [ackMu] (which is in its send):
    none of these depends on anybody else, so no cycle of locks, no realm, no reader
    and no [Dial] can hold [Close] up. *)
Theorem close_waits_for_writes_only s now t tid :
  t_reachable s now t → t_mu t = Some tid →
  ∃ evs t1, t_run evs t = Some t1 ∧ t_mu t1 = None ∧ t_realms t1 = None ∧ t_sockClosed t1 = true ∧
    Forall (λ ev, ∃ h ch, ev = TvRun h ch ∧ (h = tid ∨ t_permit t = Some h ∨ t_ackMu t = Some h)) evs.
Proof.
  intros Hr Hm. pose proof (ready_now s now t tid Hr) as Hd. destruct (i_locks _ (rd_inv _ _ _ Hd)) as [Km _].
  destruct (Km _ Hm) as (who & pc & Hth & Hi).
  destruct (close_runs _ tid who _ t pc Hd Hth Hi (Nat.le_refl _)) as (t1 & (evs & _ & Hf & Hrun) & H1 & H2 & H3).
  by exists evs, t1.
Qed.

(** [Dial] calls do not overlap between taking and giving
    back [dialMu], and a [Dial] returns a connection only after the reader has
    received the device's CONN for that very realm while the realm was being
    dialled. *)
Theorem dial_exclusive_granted s now t :
  t_reachable s now t →
  (∀ t1 t2 p1 p2 pc1 pc2, t_threads t !! t1 = Some (ThDial p1 pc1) → t_threads t !! t2 = Some (ThDial p2 pc2) →
     locked pc1 = true → locked pc2 = true → t1 = t2) ∧
  (∀ tid port r, t_threads t !! tid = Some (ThDial port (DDone (inr r))) →
     r ∈ t_granted t ∧ is_Some (t_conns t !! r)).
Proof.
  intros Hinv%t_reachable_inv. split.
  - intros t1 t2 p1 p2 pc1 pc2 H1 H2 L1 L2.
    destruct (i_local _ Hinv _ _ H1) as [D1 _]. destruct (i_local _ Hinv _ _ H2) as [D2 _].
    specialize (D1 L1). specialize (D2 L2). congruence.
  - intros tid port r Hth. destruct (i_local _ Hinv _ _ Hth) as [_ Hr]. cbn in Hr.
    destruct (i_chans _ Hinv) as (_ & _ & H3 & H4). auto.
Qed.

(** C36. The reader waits for nothing but the socket.  Nothing a device
    sends, and nothing the realms' users do or fail to do, can stop it for longer than
    a write to the socket takes: from every reachable state in which it is not reading
    the socket, it gets on within five steps, of its own, of the goroutine that holds the
    permit (which is in its write) and of the [flushACK] that holds [ackMu].  In
    particular the send of a grant never finds its channel full, and a full realm does
    not stop it. *)
Theorem reader_waits_for_writes_only s now t tid pc :
  t_reachable s now t → t_threads t !! tid = Some (ThReader pc) → pc ≠ RdRead → pc ≠ RdExit →
  ∃ evs t1 th1, t_run evs t = Some t1 ∧ t_threads t1 !! tid = Some th1 ∧ th1 ≠ ThReader pc ∧ (length evs ≤ 5)%nat ∧
    Forall (λ ev, ∃ h ch, ev = TvRun h ch ∧ (h = tid ∨ t_permit t = Some h ∨ t_ackMu t = Some h)) evs.
Proof.
  intros Hr Hth Hn1 Hn2. pose proof (ready_now s now t tid Hr) as Hd.
  destruct (reader_runs _ tid t pc Hd Hth Hn1 Hn2) as (t1 & th1 & (evs & Hl & Hf & Hrun) & Hth1 & Hne).
  by exists evs, t1, th1.
Qed.

(** C31. [Dial] always comes to an end: each of its own steps, however
    the scheduler, the random number generator, the socket and the selects decide,
    brings it nearer to returning, and at most 32 are left at any time (three
    attempts); a [Dial] that waits for the device can go on as soon as it has
    waited five seconds. *)
Theorem dial_terminates s now t tid port pc :
  t_reachable s now t → t_threads t !! tid = Some (ThDial port pc) →
  let left t := dial_rank (bool_decide (t_permit t = Some tid)) in
  (left t pc ≤ 32)%nat ∧
  (∀ ch t1, t_step (TvRun tid ch) t = Some t1 →
     ∃ pc1, t_threads t1 !! tid = Some (ThDial port pc1) ∧ (left t1 pc1 < left t pc)%nat) ∧
  (∀ k id r since, pc = DWait k id r since → since + 5000 ≤ t_now t → is_Some (t_step (TvRun tid TTimeout) t)).
Proof.
  intros Hr Hth left. pose proof (t_reachable_attempts _ _ _ Hr _ _ _ Hth) as Ha.
  pose proof (h_permit _ (t_reachable_held _ _ _ Hr) tid) as Hp. split_and!.
  - unfold left. destruct (bool_decide _), pc; try destruct next; unfold dial_rank, maxRetries; lia.
  - intros ch t1 E. cbn [t_step] in E. apply t_thread_cases in E as (th & Hth' & E). rewrite Hth in Hth'. injection Hth' as <-.
    assert (∀ t2, t_go tid ch (ThDial port pc) t = Some t2 → ∃ pc1, t_threads t2 !! tid = Some (ThDial port pc1) ∧
      t_permit t2 = t_permit t ∧ (dial_rank false pc1 < dial_rank true pc)%nat) as Hgo.
    { intros t2 E2. pose proof E2 as (_ & _ & Ep & _)%t_go_frame. apply bind_Some in E2 as ([t3 pc2] & E2 & [= <-]).
      exists pc2. cbn. rewrite lookup_insert_eq. split_and!; [done..|]. by eapply dial_rank_decreases. }
    assert (∀ b, dial_rank true pc ≤ dial_rank b pc)%nat as Hle.
    { intros []; destruct pc; try done; unfold dial_rank; lia. }
    destruct E as [[Hs E]|[(Hs & Hpt & t2 & E & ->)|[(_ & r & data & ? & _)|(Hs & Hpt & ->)]]]; [| |done|].
    + destruct (Hgo _ E) as (pc1 & Hth1 & Ep & Hlt). exists pc1. split; [done|]. unfold left. rewrite Ep.
      rewrite (bool_decide_eq_false_2 (t_permit t = Some tid)) by (intros (th & ? & ?)%Hp; congruence).
      specialize (Hle false). lia.
    + destruct (Hgo _ E) as (pc1 & Hth1 & _ & Hlt). exists pc1. split; [done|]. unfold left. cbn.
      rewrite (bool_decide_eq_true_2 (t_permit t = Some tid)) by done. exact Hlt.
    + exists pc. split; [exact Hth|]. unfold left. cbn. rewrite (bool_decide_eq_true_2 (Some tid = Some tid)), (bool_decide_eq_false_2 (t_permit t = Some tid)) by congruence.
      destruct pc; try done. unfold dial_rank. lia.
  - intros k id r since -> Hn. cbn. unfold t_thread. rewrite Hth. cbn. unfold retryTimeout.
    rewrite decide_True by lia. cbn. eauto.
Qed.

(** ** Witnesses *)

Definition demo_packet (b : Body) : bytes := Packet_Serialize (NewPacket (mkHeader 0 0 0 0 0) b).

(** The reader handles one packet; [more] are its steps after the dispatch. *)
Definition demo_recv (b : Body) (more : nat) : list TEvent :=
  TvRun 0 <$> ([TGo; TData (demo_packet b); TGo; TGo; TGo] ++ replicate more TGo).

(** [Dial] picks realm 7 and the device grants it. *)
Definition demo_dial : list TEvent :=
  [TvDial 10 554] ++ (TvRun 10 <$> [TGo; TGo; TGo; TId 7; TGo; TGo; TGo; TGo]) ++
  demo_recv (NewStatusBody 7 StatusConnect) 1 ++ (TvRun 10 <$> [TGranted; TGo]).

(** Then the tunnel is closed; [Close] stands before the swap of the realms. *)
Definition demo_closing : list TEvent :=
  demo_dial ++ [TvSetOnClose 42; TvClose 20; TvRun 20 TGo; TvRun 20 TGo].

Definition demo_closed : list TEvent :=
  demo_closing ++ (TvRun 20 <$> [TGo; TKey 7 true; TGo; TGo; TKey 7 true; TGo; TGo; TGo]).

Definition demo_state (evs : list TEvent) : Tunnel := default (New NewSession 0) (t_run evs (New NewSession 0)).

Lemma close_settles_witness :
  t_closed (demo_state demo_closed) = true ∧ t_fired (demo_state demo_closed) = [42%nat] ∧
  t_realms (demo_state demo_closed) = None.
Proof.
  split; [vm_compute; reflexivity|]. split; [vm_compute; reflexivity|].
  apply (close_settles NewSession 0 (demo_state demo_closed)).
  - exists demo_closed. vm_compute. reflexivity.
  - vm_compute. reflexivity.
  - vm_compute. reflexivity.
Defined.

(** A user writes to the realm and holds the permit; the acknowledgement of the CONN holds
    [ackMu] and waits for the permit; [Close] has set [closed] and waits for [ackMu]. *)
Definition demo_convoy : list TEvent :=
  demo_dial ++ [TvWrite 30 0 [x01]; TvRun 30 TGo; TvTime 20; TvAckTimer 40; TvRun 40 TGo; TvClose 20; TvRun 20 TGo].

Lemma close_waits_for_writes_only_witness :
  t_permit (demo_state demo_convoy) = Some 30%nat ∧ t_ackMu (demo_state demo_convoy) = Some 40%nat ∧
  t_thread 20 TGo (demo_state demo_convoy) = None ∧
  ∃ evs t1, t_run evs (demo_state demo_convoy) = Some t1 ∧ t_mu t1 = None ∧ t_realms t1 = None ∧ t_sockClosed t1 = true ∧
    Forall (λ ev, ∃ h ch, ev = TvRun h ch ∧ (h = 20%nat ∨ t_permit (demo_state demo_convoy) = Some h ∨
      t_ackMu (demo_state demo_convoy) = Some h)) evs.
Proof.
  split_and!; [vm_compute; reflexivity..|]. apply (close_waits_for_writes_only NewSession 0).
  - exists demo_convoy. vm_compute. reflexivity.
  - vm_compute. reflexivity.
Defined.

Lemma dial_exclusive_granted_witness :
  t_threads (demo_state demo_dial) !! 10%nat = Some (ThDial 554 (DDone (inr 0%nat))) ∧
  0%nat ∈ t_granted (demo_state demo_dial).
Proof.
  split; [vm_compute; reflexivity|].
  refine (proj1 (proj2 (dial_exclusive_granted NewSession 0 (demo_state demo_dial) _) 10%nat 554 0%nat _)).
  - exists demo_dial. vm_compute. reflexivity.
  - vm_compute. reflexivity.
Defined.

Definition demo_waiting : list TEvent := take 9 demo_dial.

Lemma dial_terminates_witness :
  ∃ pc, t_threads (demo_state demo_waiting) !! 10%nat = Some (ThDial 554 pc) ∧ pc = DWait 0 7 0 0 ∧
    (dial_rank (bool_decide (t_permit (demo_state demo_waiting) = Some 10%nat)) pc ≤ 32)%nat.
Proof.
  exists (DWait 0 7 0 0). split; [vm_compute; reflexivity|]. split; [reflexivity|].
  apply (dial_terminates NewSession 0 (demo_state demo_waiting) 10 554).
  - exists demo_waiting. vm_compute. reflexivity.
  - vm_compute. reflexivity.
Defined.

(** The same, and the reader has a heartbeat to acknowledge. *)
Definition demo_stuck : list TEvent := take 22 demo_convoy ++ demo_recv NewHeartbeatBody 0.

Lemma reader_waits_for_writes_only_witness :
  t_threads (demo_state demo_stuck) !! 0%nat = Some (ThReader RdAck) ∧ t_thread 0 TGo (demo_state demo_stuck) = None ∧
  ∃ evs t1 th1, t_run evs (demo_state demo_stuck) = Some t1 ∧ t_threads t1 !! 0%nat = Some th1 ∧ th1 ≠ ThReader RdAck ∧
    (length evs ≤ 5)%nat ∧
    Forall (λ ev, ∃ h ch, ev = TvRun h ch ∧ (h = 0%nat ∨ t_permit (demo_state demo_stuck) = Some h ∨
      t_ackMu (demo_state demo_stuck) = Some h)) evs.
Proof.
  split_and!; [vm_compute; reflexivity..|]. apply (reader_waits_for_writes_only NewSession 0).
  - exists demo_stuck. vm_compute. reflexivity.
  - vm_compute. reflexivity.
  - discriminate.
  - discriminate.
Defined.
