(* ===== verification/TunnelStreams.v ===== *)
(** * Realms of a tunnel: no holes in a stream, no forgotten connection

    Two more invariants of the system of [TunnelState]: what the reader delivers to
    a realm is, up to the point where the realm is torn down, everything that
    arrived for it; and a connection that [Dial] has returned stays registered
    until it is closed, provided no other connection has had its random realm id. *)

From Stdlib Require Import ZArith Lia Strings.Byte.
From S2P Require Import Prelude GoStrings PtcpTypes PtcpSession SendPath ConnRead TunnelState TunnelRealms.

(** ** Streams *)

(** The reader is between looking connection [r] up and the end of its overflow
    handling. *)
Definition busy (th : TThread) (r : nat) : Prop :=
  match th with
  | ThReader (RdPush _ r' _) | ThReader (RdOver1 _ r') | ThReader (RdOver2 _ r') => r = r'
  | _ => False
  end.

Definition busy_at (t : Tunnel) (r : nat) : Prop :=
  ∃ tid th, t_threads t !! tid = Some th ∧ busy th r.

(** One payload was refused, and the realm has been torn down for it. *)
Definition torn_down (t : Tunnel) (r : nat) (c : TConn) : Prop :=
  (∃ d, c_arrived c = c_pushed c ++ [d]) ∧ c_closed c = true ∧ realm_lookup (c_realmID c) t ≠ Some r.

Definition reader_stream (t : Tunnel) (th : TThread) : Prop :=
  match th with
  | ThReader (RdPush _ r d) => ∃ c, t_conns t !! r = Some c ∧ c_arrived c = c_pushed c ++ [d]
  | ThReader (RdOver1 id r) => ∃ c d, t_conns t !! r = Some c ∧ c_arrived c = c_pushed c ++ [d] ∧ c_realmID c = id
  | ThReader (RdOver2 id r) => ∃ c d, t_conns t !! r = Some c ∧ c_arrived c = c_pushed c ++ [d] ∧
      c_realmID c = id ∧ realm_lookup id t ≠ Some r
  | _ => True
  end.

Record streams_ok (t : Tunnel) : Prop := mkStreams {
  s_conns : ∀ r c, t_conns t !! r = Some c →
    c_dataCh c `suffix_of` c_pushed c ∧ (length (c_dataCh c) ≤ dataCh_cap)%nat ∧
    (busy_at t r ∨ c_arrived c = c_pushed c ∨ torn_down t r c);
  s_reader : ∀ tid th, t_threads t !! tid = Some th → reader_stream t th }.

(** What a step outside the reader may do to the connections. *)
Definition conns_step (t t1 : Tunnel) : Prop :=
  (∀ r c1, t_conns t1 !! r = Some c1 →
    (∃ id port, c1 = new_conn id port ∧ t_conns t !! r = None) ∨
    ∃ c, t_conns t !! r = Some c ∧ c_realmID c1 = c_realmID c ∧ c_arrived c1 = c_arrived c ∧
      c_pushed c1 = c_pushed c ∧ c_dataCh c1 `suffix_of` c_dataCh c ∧ (c_closed c = true → c_closed c1 = true)) ∧
  (∀ r c, t_conns t !! r = Some c → is_Some (t_conns t1 !! r) ∧
    ∀ id, realm_lookup id t1 = Some r → realm_lookup id t = Some r).

Lemma suffix_length_le {A} (l k : list A) : l `suffix_of` k → (length l ≤ length k)%nat.
Proof. intros [x ->]. rewrite length_app. lia. Qed.

Lemma streams_conns_step t t1 :
  t_inv t → streams_ok t → conns_step t t1 → t_threads t1 = t_threads t → streams_ok t1.
Proof.
  intros Hinv [Hc Hr] [S1 S2] Et. constructor.
  - intros r c1 Hc1. destruct (S1 r c1 Hc1) as [(id & port & -> & _)|(c & Hcc & E1 & E2 & E3 & E4 & E5)].
    + cbn. split_and!; [done|unfold dataCh_cap; lia|]. auto.
    + destruct (Hc r c Hcc) as (H1 & H2 & H3). rewrite E2, E3. split_and!.
      * by etrans.
      * apply suffix_length_le in E4. lia.
      * destruct H3 as [Hb|[Hb|(H3 & H4 & H5)]]; [left|auto|right; right].
        -- unfold busy_at. by rewrite Et.
        -- unfold torn_down. rewrite E2, E3, E1. split_and!; auto.
           intros Hl. apply H5. by apply (S2 r c Hcc).
  - rewrite Et. intros tid th Hth. specialize (Hr tid th Hth).
    destruct th as [| | |pc| | |]; try done. destruct pc as [| | | | | | | |? r ?|? r|? r| | |]; try done; cbn in *.
    + destruct Hr as (c & Hcc & Ha). destruct (S2 r c Hcc) as [[c1 Hc1] _].
      destruct (S1 r c1 Hc1) as [(? & ? & _ & ?)|(c' & Hcc' & E1 & E2 & E3 & _)]; [congruence|].
      exists c1. split; [done|]. simplify_eq. congruence.
    + destruct Hr as (c & d & Hcc & Ha & Hid). destruct (S2 r c Hcc) as [[c1 Hc1] _].
      destruct (S1 r c1 Hc1) as [(? & ? & _ & ?)|(c' & Hcc' & E1 & E2 & E3 & _)]; [congruence|].
      exists c1, d. simplify_eq. split_and!; congruence.
    + destruct Hr as (c & d & Hcc & Ha & Hid & Hlk). destruct (S2 r c Hcc) as [[c1 Hc1] Hl].
      destruct (S1 r c1 Hc1) as [(? & ? & _ & ?)|(c' & Hcc' & E1 & E2 & E3 & _)]; [congruence|].
      exists c1, d. simplify_eq. split_and!; [congruence..|]. intros Hx. by apply Hlk, Hl.
Qed.

(** A goroutine that is not the reader changes its program counter. *)
Lemma streams_set t tid th th' :
  streams_ok t → t_threads t !! tid = Some th → (∀ r, ¬ busy th r) → (∀ r, ¬ busy th' r) → reader_stream t th' →
  streams_ok (t_set tid th' t).
Proof.
  intros [Hc Hr] Hth Hb Hb' Hs. constructor.
  - intros r c Hcc. destruct (Hc r c Hcc) as (H1 & H2 & H3). split_and!; try done.
    destruct H3 as [(tid0 & th0 & Ht0 & Hb0)|H3]; [left|by right].
    exists tid0, th0. split; [|done]. cbn. rewrite lookup_insert_ne; [done|]. intros <-. simplify_eq. by destruct (Hb r).
  - cbn. intros tid' th0 [[<- <-]|[_ H0]]%lookup_insert_Some; [|apply (Hr _ _ H0)]. done.
Qed.

Lemma conns_step_refl t t1 :
  t_conns t1 = t_conns t → (∀ id r, realm_lookup id t1 = Some r → realm_lookup id t = Some r) → conns_step t t1.
Proof.
  intros E H. split; rewrite ?E.
  - intros r c Hc. right. exists c. auto 10.
  - intros r c Hc. split; [eauto|]. intros id. apply H.
Qed.

(** Updates of a connection that only close it or consume from it. *)
Definition conn_mild (f : TConn → TConn) : Prop :=
  ∀ c, c_realmID (f c) = c_realmID c ∧ c_arrived (f c) = c_arrived c ∧ c_pushed (f c) = c_pushed c ∧
    c_dataCh (f c) `suffix_of` c_dataCh c ∧ (c_closed c = true → c_closed (f c) = true).

Lemma conns_step_update t r f : conn_mild f → conns_step t (conn_update r f t).
Proof.
  intros Hf. split.
  - intros r' c1 Hc1. right. cbn in Hc1. destruct (decide (r = r')) as [<-|Hne].
    + rewrite lookup_alter_eq in Hc1. apply fmap_Some in Hc1 as (c & Hc & ->). exists c. split; [done|]. apply Hf.
    + rewrite lookup_alter_ne in Hc1 by done. exists c1. auto 10.
  - intros r' c Hc. split; [|done]. cbn. destruct (decide (r = r')) as [<-|Hne].
    + rewrite lookup_alter_eq, Hc. cbn. eauto.
    + rewrite lookup_alter_ne by done. eauto.
Qed.

Lemma realm_lookup_delete id id' r t :
  realm_lookup id' (realm_delete id t) = Some r ↔ id ≠ id' ∧ realm_lookup id' t = Some r.
Proof.
  unfold realm_lookup, realm_delete. cbn. destruct (t_realms t) as [m|]; cbn; [|by split; [|intros [_ ?]]].
  rewrite lookup_delete_Some. done.
Qed.

Lemma conns_step_delete t id : conns_step t (realm_delete id t).
Proof. apply conns_step_refl; [done|]. intros id' r Hr. by apply realm_lookup_delete in Hr as [_ ?]. Qed.

Lemma conn_mild_signal : conn_mild (λ c, c <| c_closed := true |> <| c_closeCh := true |>).
Proof. done. Qed.

Lemma conns_step_send t ok b : conns_step t (t_send ok b t).1.
Proof. destruct (t_send_fst ok b t) as (s & k & ->). by apply conns_step_refl. Qed.

Lemma Close_step_conns tid ch pc t t1 pc1 : Close_step tid ch pc t = Some (t1, pc1) → conns_step t t1.
Proof.
  intros E. destruct pc as [| | |realms todo|todo| |cb|]; cbn in E; try done.
  - case_decide; [|done]. case_match; simplify_eq; by apply conns_step_refl.
  - case_decide; simplify_eq. by apply conns_step_refl.
  - simplify_eq. by apply conns_step_refl.
  - case_decide; [simplify_eq; by apply conns_step_refl|].
    destruct ch; try done. apply bind_Some in E as (r & Hr & E). simplify_eq. by apply conns_step_update.
  - case_decide; [simplify_eq; by apply conns_step_refl|].
    destruct ch; try done. apply bind_Some in E as (r & Hr & E). simplify_eq. apply conns_step_send.
  - simplify_eq. by apply conns_step_refl.
  - destruct cb; simplify_eq; by apply conns_step_refl.
Qed.

Lemma ConnClose_step_conns ch r pc t t1 pc1 : ConnClose_step ch r pc t = Some (t1, pc1) → conns_step t t1.
Proof.
  intros E. apply bind_Some in E as (c & Hc & E). destruct pc; simplify_eq.
  - by apply conns_step_update.
  - by apply conns_step_update.
  - case_decide; simplify_eq. by apply conns_step_refl.
  - destruct (t_send _ _ t) as [t2 ok] eqn:Es. apply t_send_frame in Es as (s & k & ->). simplify_eq.
    by apply conns_step_refl.
  - case_decide; simplify_eq. by apply conns_step_refl.
  - apply conns_step_delete.
Qed.

Lemma next_fresh t : t_inv t → t_conns t !! t_next t = None.
Proof.
  intros Hinv. destruct (i_conns _ Hinv) as (C1 & _). destruct (t_conns t !! t_next t) eqn:E; [|done].
  specialize (C1 (t_next t)). rewrite E in C1. assert (t_next t < t_next t)%nat by eauto. lia.
Qed.

Lemma conns_step_install t m id port :
  t_inv t → t_realms t = Some m →
  conns_step t (t <| t_realms := Some (<[id := t_next t]> m) |>
             <| t_conns := <[t_next t := new_conn id port]> (t_conns t) |>
             <| t_chans := <[t_next t := 0%nat]> (t_chans t) |>
             <| t_next := S (t_next t) |> <| t_ids := t_ids t ++ [id] |>).
Proof.
  intros Hinv Em. pose proof (next_fresh t Hinv) as Hf. split; cbn.
  - intros r c1. destruct (decide (r = t_next t)) as [->|Hne].
    + rewrite lookup_insert_eq. intros [= <-]. left. eauto.
    + rewrite lookup_insert_ne by done. intros Hc. right. exists c1. auto 10.
  - intros r c Hc. assert (r ≠ t_next t) by congruence. rewrite lookup_insert_ne by done. split; [eauto|].
    intros id'. unfold realm_lookup. cbn. rewrite Em. cbn. destruct (decide (id = id')) as [<-|Hne].
    + rewrite lookup_insert_eq. congruence.
    + by rewrite lookup_insert_ne.
Qed.

Lemma Dial_step_conns tid ch port pc t t1 pc1 :
  t_inv t → Dial_step tid ch port pc t = Some (t1, pc1) → conns_step t t1.
Proof.
  intros Hinv E. destruct pc as [| | |k|k id|k id r|k id r|k id r since|id next|id next|res|res]; cbn in E; [..|done].
  - apply bind_Some in E as (e & _ & E). simplify_eq. by apply conns_step_refl.
  - case_decide; simplify_eq. by apply conns_step_refl.
  - apply bind_Some in E as (e & _ & E). simplify_eq. by apply conns_step_refl.
  - case_decide; [destruct ch; try done; case_decide|]; simplify_eq; by apply conns_step_refl.
  - destruct (t_realms t) as [m|] eqn:Em; simplify_eq; [by apply conns_step_install|by apply conns_step_refl].
  - simplify_eq. by apply conns_step_refl.
  - destruct (t_send _ _ t) as [t2 ok] eqn:Es. apply t_send_frame in Es as (s & k' & ->). simplify_eq.
    by apply conns_step_refl.
  - destruct ch; try done; [case_decide| |case_match]; simplify_eq; try (by apply conns_step_refl).
    apply bind_Some in E as (n & _ & E). case_decide; simplify_eq. by apply conns_step_refl.
  - simplify_eq. apply conns_step_delete.
  - simplify_eq. by apply conns_step_refl.
  - simplify_eq. by apply conns_step_refl.
Qed.

Lemma heartbeat_step_conns ch pc t t1 pc1 : heartbeat_step ch pc t = Some (t1, pc1) → conns_step t t1.
Proof.
  intros E. destruct pc; cbn in E; try done.
  - destruct ch; try done; case_match; simplify_eq; by apply conns_step_refl.
  - case_decide; simplify_eq. by apply conns_step_refl.
  - simplify_eq. by apply conns_step_refl.
  - simplify_eq. apply conns_step_send.
  - unfold outboundStalled in E. destruct (t_lastDrainTime t); repeat case_decide; simplify_eq; by apply conns_step_refl.
Qed.

Lemma flushACK_conns tid ch pc t t1 pc1 : flushACK tid ch pc t = Some (t1, pc1) → conns_step t t1.
Proof.
  intros E. destruct pc; cbn in E; [| | |done].
  - case_decide; simplify_eq. by apply conns_step_refl.
  - destruct (t_send _ _ t) as [t2 ok] eqn:Es. apply t_send_frame in Es as (s & k & ->). simplify_eq. by apply conns_step_refl.
  - simplify_eq. by apply conns_step_refl.
Qed.

Lemma frame_step_conns ch r data pc t t1 pc1 : frame_step ch r data pc t = Some (t1, pc1) → conns_step t t1.
Proof.
  intros E. destruct pc; cbn in E; [|done]. apply bind_Some in E as (c & Hc & E). injection E as <- <-.
  case_match; [by apply conns_step_refl|apply conns_step_send].
Qed.

(** ** The reader's own steps *)

(** The reader moves between two states in which it is busy with nobody. *)
Lemma streams_idle t t1 tid pc th' :
  t_inv t → streams_ok t → t_threads t !! tid = Some (ThReader pc) → (∀ r, ¬ busy (ThReader pc) r) →
  (∀ r, ¬ busy th' r) → reader_stream t1 th' → conns_step t t1 → t_threads t1 = t_threads t →
  streams_ok (t_set tid th' t1).
Proof.
  intros Hinv Hs Hth Hb Hb' Hr Hc Et.
  apply (streams_set t1 tid (ThReader pc)); try done; [|by rewrite Et].
  by apply (streams_conns_step t).
Qed.

(** The reader, and only it, is busy; then with at most one connection. *)
Lemma only_reader t tid pc tid' th r :
  t_inv t → t_threads t !! tid = Some (ThReader pc) → t_threads t !! tid' = Some th → busy th r →
  tid' = tid ∧ th = ThReader pc.
Proof.
  intros Hinv Hth Hth' Hb. destruct (i_local _ Hinv _ _ Hth) as [-> _].
  destruct th as [| | |pc'| | |]; try done. destruct (i_local _ Hinv _ _ Hth') as [-> _]. simplify_eq. done.
Qed.

(** The reader changes connection [r] from [c] to [c'], and moves to [th']. *)
Lemma streams_update t tid pc th' r f c :
  t_inv t → streams_ok t → t_threads t !! tid = Some (ThReader pc) →
  t_conns t !! r = Some c → c_realmID (f c) = c_realmID c →
  (∀ r', busy (ThReader pc) r' → r' = r) →
  c_dataCh (f c) `suffix_of` c_pushed (f c) ∧ (length (c_dataCh (f c)) ≤ dataCh_cap)%nat ∧
    (busy th' r ∨ c_arrived (f c) = c_pushed (f c) ∨ torn_down t r (f c)) →
  reader_stream (conn_update r f t) th' →
  streams_ok (t_set tid th' (conn_update r f t)).
Proof.
  intros Hinv [Hc Hr] Hth Hcr Hid Hb Hnew Hrs. constructor.
  - cbn. intros r' c1 Hc1. destruct (decide (r = r')) as [<-|Hne].
    + rewrite lookup_alter_eq, Hcr in Hc1. cbn in Hc1. simplify_eq. destruct Hnew as (N1 & N2 & N3).
      split_and!; try done. destruct N3 as [Hx|[Hx|Hx]]; [left|auto|right; right; done].
      exists tid, th'. cbn. by rewrite lookup_insert_eq.
    + rewrite lookup_alter_ne in Hc1 by done. destruct (Hc r' c1 Hc1) as (H1 & H2 & H3). split_and!; try done.
      destruct H3 as [(tid0 & th0 & Ht0 & Hb0)|H3]; [|by right].
      destruct (only_reader _ _ _ _ _ _ Hinv Hth Ht0 Hb0) as [-> ->]. by destruct Hne, (Hb r' Hb0).
  - cbn. intros tid' th0 [[<- <-]|[Hne H0]]%lookup_insert_Some; [done|].
    destruct th0 as [| | |pc'| | |]; try done. destruct (i_local _ Hinv _ _ H0) as [-> _].
    destruct (i_local _ Hinv _ _ Hth) as [-> _]. done.
Qed.

(** The reader moves on while it stays busy with the same connection. *)
Lemma streams_busy t tid th th' :
  streams_ok t → t_threads t !! tid = Some th → (∀ r, busy th r → busy th' r) → reader_stream t th' →
  streams_ok (t_set tid th' t).
Proof.
  intros [Hc Hr] Hth Hb Hs. constructor.
  - intros r c Hcc. destruct (Hc r c Hcc) as (H1 & H2 & H3). split_and!; try done.
    destruct H3 as [(tid0 & th0 & Ht0 & Hb0)|H3]; [left|by right].
    destruct (decide (tid = tid0)) as [<-|Hne].
    + simplify_eq. exists tid, th'. cbn. rewrite lookup_insert_eq. auto.
    + exists tid0, th0. cbn. by rewrite lookup_insert_ne.
  - cbn. intros tid' th0 [[<- <-]|[_ H0]]%lookup_insert_Some; [done|]. apply (Hr _ _ H0).
Qed.

(** A registered connection the reader is not busy with has no hole. *)
Lemma registered_no_hole t tid pc id r :
  t_inv t → streams_ok t → t_threads t !! tid = Some (ThReader pc) → (∀ r', ¬ busy (ThReader pc) r') →
  realm_lookup id t = Some r →
  ∃ c, t_conns t !! r = Some c ∧ c_realmID c = id ∧ c_arrived c = c_pushed c ∧
    c_dataCh c `suffix_of` c_pushed c ∧ (length (c_dataCh c) ≤ dataCh_cap)%nat.
Proof.
  intros Hinv [Hc _] Hth Hb Hl. destruct (realm_lookup_at _ _ _ Hinv Hl) as (c & Hcr & Hid).
  destruct (Hc r c Hcr) as (H1 & H2 & [(tid0 & th0 & Ht0 & Hb0)|[H3|(_ & _ & H3)]]).
  - destruct (only_reader _ _ _ _ _ _ Hinv Hth Ht0 Hb0) as [-> ->]. by destruct (Hb r).
  - exists c. done.
  - by rewrite Hid in H3.
Qed.

Ltac idle t :=
  eapply (streams_idle t); try done; try (by intros ? []); try (by apply conns_step_refl).

Lemma dispatch_streams t tid p t1 pc1 :
  t_inv t → streams_ok t → t_threads t !! tid = Some (ThReader (RdDispatch p)) →
  dispatch (PBody p) t = Some (t1, pc1) → streams_ok (t_set tid (ThReader pc1) t1).
Proof.
  intros Hinv Hs Hth E. assert (∀ r, ¬ busy (ThReader (RdDispatch p)) r) as Hb by (intros r []).
  unfold dispatch in E. destruct (BType (PBody p)) eqn:Ety.
  4: { destruct (realm_lookup _ t) as [r|] eqn:Hr.
    - simplify_eq. destruct (registered_no_hole _ _ _ _ _ Hinv Hs Hth Hb Hr) as (c & Hc & Hid & Ha & Hsu & Hca).
      eapply (streams_update t tid (RdDispatch p) _ r _ c); try done.
      + split_and!; try done. by left.
      + cbn. rewrite lookup_alter_eq, Hc. eexists. split; [done|]. cbn. by rewrite Ha.
    - simplify_eq. idle t1. }
  all: try (simplify_eq; by idle t1).
  - case_decide.
    + destruct (t_connCh t !! _) as [r|] eqn:Hr.
      * apply bind_Some in E as (n & Hn & E). case_decide; simplify_eq.
        idle t.
      * simplify_eq. idle t1.
    + case_decide; [destruct (realm_lookup _ t) as [r|] eqn:Hr|]; simplify_eq.
      * idle t. apply conns_step_delete.
      * idle t1.
      * idle t1.
Qed.

Lemma reader_step_streams t tid ch pc t1 pc1 :
  t_inv t → streams_ok t → t_threads t !! tid = Some (ThReader pc) → reader_step ch pc t = Some (t1, pc1) →
  streams_ok (t_set tid (call_close ByReader ThReader pc1) t1).
Proof.
  intros Hinv Hs Hth E. pose proof (s_reader _ Hs _ _ Hth) as Hrd.
  destruct pc as [| | |p|p|p| |r|realm r data|realm r|realm r|realm| |]; cbn in E, Hrd; [..|done].
  - simplify_eq. destruct (t_done t1); idle t1.
  - destruct ch; try done; [|simplify_eq; idle t1..].
    destruct (t_sockClosed t); [done|].
    destruct (ParsePacket data); simplify_eq; idle t.
  - destruct (t_done t); simplify_eq; [idle t1|].
    case_decide; idle t.
  - simplify_eq. idle t.
  - simplify_eq. idle t.
  - apply bind_Some in E as ([t2 pc2] & E & [= <- <-]). by eapply dispatch_streams.
  - injection E as <- <-. idle t; [apply conns_step_send|].
    by destruct (t_send_fst (negb (is_fail ch)) NewSyncBody t) as (s & k & ->).
  - simplify_eq. idle t. by apply conns_step_update.
  - destruct Hrd as (c & Hc & Ha). rewrite Hc in E. cbn in E.
    destruct (s_conns _ Hs r c Hc) as (H1 & H2 & _). destruct (i_local _ Hinv _ _ Hth) as [_ Hat].
    case_decide as Hlen; simplify_eq.
    + eapply (streams_update t tid (RdPush realm r data) _ r _ c); try done. cbn.
      rewrite length_app. cbn. split_and!; [|lia|by right; left]. by apply suffix_app_l || (destruct H1 as [x ->]; exists x; by rewrite app_assoc).
    + eapply streams_busy; try done. cbn. destruct Hat as (c' & Hc' & Hid). exists c, data. by simplify_eq.
  - simplify_eq. destruct Hrd as (c & d & Hc & Ha & Hid).
    eapply streams_busy; [|exact Hth|done|].
    + apply (streams_conns_step t); try done. apply conns_step_delete.
    + cbn. exists c, d. split_and!; try done. intros [Hne _]%realm_lookup_delete. done.
  - simplify_eq. destruct Hrd as (c & d & Hc & Ha & Hid & Hl).
    eapply (streams_update t tid (RdOver2 realm r) _ r _ c); try done.
    destruct (s_conns _ Hs r c Hc) as (H1 & H2 & _). cbn. split_and!; try done. right. right.
    split_and!; [by exists d|done|]. by rewrite <- Hid in Hl.
  - injection E as <- <-. idle t; [apply conns_step_send|].
    by destruct (t_send_fst (negb (is_fail ch)) (NewStatusBody realm StatusDisconnect) t) as (s & k & ->).
  - apply bind_Some in E as (t2 & Es & [= <- <-]). unfold scheduleACK in Es. case_decide; simplify_eq.
    destruct (t_ackPending t); idle t.
Qed.

Lemma not_busy_call who {A} (th : A → TThread) pc :
  (∀ x r, ¬ busy (th x) r) → ∀ r, ¬ busy (call_close who th pc) r.
Proof. intros H r. destruct pc; [apply H|intros []]. Qed.

(** A goroutine other than the reader takes a step. *)
Lemma streams_other t t1 tid th th' :
  t_inv t → streams_ok t → t_threads t !! tid = Some th → conns_step t t1 → t_threads t1 = t_threads t →
  (∀ r, ¬ busy th r) → (∀ r, ¬ busy th' r) → reader_stream t1 th' → streams_ok (t_set tid th' t1).
Proof.
  intros Hinv Hs Hth Hc Et Hb Hb' Hr. apply (streams_set t1 tid th); try done; [|by rewrite Et].
  by apply (streams_conns_step t).
Qed.

Lemma t_go_streams t tid ch th t1 :
  t_inv t → streams_ok t → t_threads t !! tid = Some th → t_go tid ch th t = Some t1 → streams_ok t1.
Proof.
  intros Hinv Hs Hth E. destruct th as [port pc|r pc|who pc|pc|pc|pc|r data pc].
  - apply bind_Some in E as ([t2 pc2] & E & [= <-]). pose proof (Dial_step_meta _ _ _ _ _ _ _ E) as [= _ _ _ _ Et _ _].
    eapply streams_other; eauto using Dial_step_conns; done.
  - apply bind_Some in E as ([t2 pc2] & E & [= <-]). pose proof (ConnClose_step_meta _ _ _ _ _ _ E) as [= _ _ _ _ Et _ _].
    eapply streams_other; eauto using ConnClose_step_conns; done.
  - assert (pc = CRet ∨ pc ≠ CRet) as [->|Hne] by (destruct pc; by auto).
    + destruct who; cbn in E; simplify_eq; (eapply streams_other; [exact Hinv|exact Hs|exact Hth|by apply conns_step_refl|done|by intros ? []|by intros ? []|done]).
    + assert (∃ t2 pc2, Close_step tid ch pc t = Some (t2, pc2) ∧ t1 = t_set tid (ThClose who pc2) t2) as (t2 & pc2 & Es & ->).
      { destruct pc; try done; apply bind_Some in E as ([t2 pc2] & E & [= <-]); eauto. }
      pose proof (Close_step_frame _ _ _ _ _ _ Es) as (Et & _). eapply streams_other; eauto using Close_step_conns; done.
  - apply bind_Some in E as ([t2 pc2] & E & [= <-]). by eapply reader_step_streams.
  - apply bind_Some in E as ([t2 pc2] & E & [= <-]). pose proof (heartbeat_step_meta _ _ _ _ _ E) as [= _ _ _ _ Et _ _].
    eapply streams_other; [exact Hinv|exact Hs|exact Hth|by eapply heartbeat_step_conns|exact Et|by intros ? []|apply not_busy_call; by intros ? ? []|by destruct pc2].
  - apply bind_Some in E as ([t2 pc2] & E & [= <-]). pose proof (flushACK_meta _ _ _ _ _ _ E) as [a [= _ _ _ _ Et _ _]].
    eapply streams_other; [exact Hinv|exact Hs|exact Hth|by eapply flushACK_conns|exact Et|by intros ? []|apply not_busy_call; by intros ? ? []|by destruct pc2].
  - apply bind_Some in E as ([t2 pc2] & E & [= <-]). pose proof (frame_step_meta _ _ _ _ _ _ _ E) as [= _ _ _ _ Et _ _].
    eapply streams_other; eauto using frame_step_conns; done.
Qed.

Lemma t_thread_streams t tid ch t1 : t_inv t → streams_ok t → t_thread tid ch t = Some t1 → streams_ok t1.
Proof.
  intros Hinv Hs. apply t_thread_keeps; [| | |done].
  - intros t0 o [H1 H2]. by constructor.
  - intros th t2 Hth. by apply t_go_streams.
  - intros r data Hth. eapply streams_set; [done|exact Hth|by intros ? []|by intros ? []|done].
Qed.

Lemma spawn_streams t tid th t1 :
  streams_ok t → spawn tid th t = Some t1 → reader_stream t th → streams_ok t1.
Proof.
  unfold spawn. intros [Hc Hr] E Hs. case_decide as Hnew; simplify_eq. constructor.
  - intros r c Hcc. destruct (Hc r c Hcc) as (H1 & H2 & H3). split_and!; try done.
    destruct H3 as [(tid0 & th0 & Ht0 & Hb0)|H3]; [left|by right].
    exists tid0, th0. split; [|done]. cbn. rewrite lookup_insert_ne by congruence. done.
  - cbn. intros tid' th0 [[<- <-]|[_ H0]]%lookup_insert_Some; [done|]. apply (Hr _ _ H0).
Qed.

Lemma t_step_streams ev t t1 : t_inv t → streams_ok t → t_step ev t = Some t1 → streams_ok t1.
Proof.
  intros Hinv Hs E. destruct ev as [tid ch|tid port|tid r|tid|tid r data|tid|r| |fn|d]; cbn in E.
  - by eapply t_thread_streams.
  - by eapply spawn_streams.
  - case_decide; [|done]. by eapply spawn_streams.
  - by eapply spawn_streams.
  - case_decide; [|done]. by eapply spawn_streams.
  - apply bind_Some in E as (d & Hd & E). case_decide; [|done].
    eapply (spawn_streams (t <| t_ackTimer := None |>)); [|exact E|done].
    apply (streams_conns_step t); try done. by apply conns_step_refl.
  - apply bind_Some in E as (c & Hc & E). simplify_eq. apply (streams_conns_step t); try done.
    apply conns_step_update. intros c0. cbn. split_and!; try done. destruct (c_dataCh c0); cbn; [done|].
    by apply suffix_cons_r.
  - unfold Retire in E. case_decide; simplify_eq. apply (streams_conns_step t); try done. by apply conns_step_refl.
  - unfold SetOnClose in E. case_decide; simplify_eq. case_match; apply (streams_conns_step t); try done; by apply conns_step_refl.
  - case_decide; simplify_eq. apply (streams_conns_step t); try done. by apply conns_step_refl.
Qed.

Lemma t_reachable_streams s now t : t_reachable s now t → streams_ok t.
Proof.
  intros [evs Hr]. assert (streams_ok (New s now)) as Hs.
  { constructor; [done|]. intros tid th Hl. cbn in Hl. apply lookup_insert_Some in Hl as [[_ <-]|[_ Hl]]; [done|].
    by apply lookup_singleton_Some in Hl as [_ <-]. }
  pose proof (New_inv s now) as Hinv. revert Hinv Hs Hr. generalize (New s now).
  induction evs as [|ev evs IH]; intros t0 Hinv Hs Hr; cbn in Hr; [by simplify_eq|].
  apply bind_Some in Hr as (t' & Ht & Hr). eauto using t_step_inv, t_step_streams.
Qed.

(** ** Registration *)

(** A goroutine that is about to signal connection [r]. *)
Definition will_signal (th : TThread) (r : nat) : Prop :=
  match th with
  | ThReader (RdSignal r') | ThReader (RdOver2 _ r') => r = r'
  | ThClose _ (CSignal _ todo) => ∃ id, todo !! id = Some r
  | _ => False
  end.

(** The [Dial] call that is opening connection [r]. *)
Definition dials (th : TThread) (r : nat) : Prop :=
  match th with
  | ThDial _ (DChan _ _ r') | ThDial _ (DBind _ _ r') | ThDial _ (DWait _ _ r' _) => r = r'
  | _ => False
  end.

Definition will_signal_at (t : Tunnel) (r : nat) : Prop :=
  ∃ tid th, t_threads t !! tid = Some th ∧ will_signal th r.

(** No other connection of this tunnel has had the realm id of [r]. *)
Definition sole (t : Tunnel) (r : nat) : Prop :=
  ∀ c r' c', t_conns t !! r = Some c → t_conns t !! r' = Some c' → c_realmID c' = c_realmID c → r' = r.

(** Connections somebody outside the tunnel has or may get. *)
Definition owned (t : Tunnel) (r : nat) : Prop :=
  sole t r ∧ (r ∈ t_returned t ∨ ∃ tid th, t_threads t !! tid = Some th ∧ dials th r).

(** A cleanup only concerns a connection that was never returned. *)
Definition cleanup_ok (t : Tunnel) (th : TThread) : Prop :=
  match th with
  | ThDial _ (DClean1 id _) => ∀ r c, t_conns t !! r = Some c → c_realmID c = id → sole t r → r ∉ t_returned t
  | _ => True
  end.

(** Connections stay, with their realm ids. *)
Definition kept (t t1 : Tunnel) : Prop :=
  ∀ r c, t_conns t !! r = Some c → ∃ c1, t_conns t1 !! r = Some c1 ∧ c_realmID c1 = c_realmID c.

Lemma kept_refl t t1 : t_conns t1 = t_conns t → kept t t1.
Proof. intros E r c. rewrite E. eauto. Qed.

Lemma kept_update t r f : (∀ c, c_realmID (f c) = c_realmID c) → kept t (conn_update r f t).
Proof.
  intros Hf r' c Hc. cbn. destruct (decide (r = r')) as [<-|Hne].
  - rewrite lookup_alter_eq, Hc. cbn. eauto.
  - rewrite lookup_alter_ne by done. eauto.
Qed.

Lemma sole_back t t1 r : kept t t1 → sole t1 r → sole t r.
Proof.
  intros Hk Hs c r' c' Hc Hc' E. destruct (Hk _ _ Hc) as (c1 & Hc1 & E1), (Hk _ _ Hc') as (c1' & Hc1' & E1').
  apply (Hs c1 r' c1'); congruence.
Qed.

Record reach_ok (t : Tunnel) : Prop := mkReach {
  r_owned : ∀ r c, t_conns t !! r = Some c → owned t r → c_closed c = false →
    realm_lookup (c_realmID c) t = Some r ∨ will_signal_at t r;
  r_cleanup : ∀ tid th, t_threads t !! tid = Some th → cleanup_ok t th }.

(** What a step of goroutine [tid] from [th] to [th'] has to respect. *)
Lemma reach_step t t1 tid th th' :
  reach_ok t → t_threads t !! tid = Some th → t_threads t1 = t_threads t →
  (∀ r, r ∈ t_returned t1 → r ∈ t_returned t ∨ dials th r) →
  (∀ r, dials th' r → dials th r) → kept t t1 →
  (∀ r c1, t_conns t1 !! r = Some c1 →
     ∃ c, t_conns t !! r = Some c ∧ c_realmID c1 = c_realmID c ∧ (c_closed c1 = false → c_closed c = false)) →
  (∀ r c, t_conns t !! r = Some c → owned t r →
     (realm_lookup (c_realmID c) t = Some r →
        realm_lookup (c_realmID c) t1 = Some r ∨ will_signal th' r ∨ ∃ c1, t_conns t1 !! r = Some c1 ∧ c_closed c1 = true) ∧
     (will_signal th r → will_signal th' r ∨ ∃ c1, t_conns t1 !! r = Some c1 ∧ c_closed c1 = true)) →
  (∀ tid0 th0, tid0 ≠ tid → t_threads t !! tid0 = Some th0 → cleanup_ok t th0 → cleanup_ok t1 th0) →
  cleanup_ok t1 th' →
  reach_ok (t_set tid th' t1).
Proof.
  intros [Ho Hcl] Hth Et Hret Hdl Hk Hc Hkeep Hothers Hclean. constructor.
  - intros r c1 Hc1 Hown Hopen. cbn in Hc1. destruct (Hc r c1 Hc1) as (c & Hcr & Eid & Hcc).
    assert (owned t r) as Hown0.
    { destruct Hown as [Hso Hown]. split; [by apply (sole_back t t1)|]. destruct Hown as [Hr%Hret|(tid0 & th0 & H0 & Hd)].
      - destruct Hr as [|Hd]; [by left|right; eauto].
      - right. cbn in H0. rewrite Et in H0. apply lookup_insert_Some in H0 as [[<- <-]|[_ H0]]; eauto. }
    destruct (Hkeep r c Hcr Hown0) as [Hk1 Hk2].
    assert (¬ ∃ c1, t_conns t1 !! r = Some c1 ∧ c_closed c1 = true) as Hnc.
    { intros (c2 & Hc2 & ?). congruence. }
    assert (will_signal th' r → will_signal_at (t_set tid th' t1) r) as Hw.
    { intros ?. exists tid, th'. cbn. by rewrite lookup_insert_eq. }
    rewrite Eid. destruct (Ho r c Hcr Hown0 (Hcc Hopen)) as [Hl|(tid0 & th0 & H0 & Hs)].
    + destruct (Hk1 Hl) as [?|[?|?]]; [by left|right; auto|done].
    + right. destruct (decide (tid0 = tid)) as [->|Hne].
      * simplify_eq. destruct (Hk2 Hs); [by auto|done].
      * exists tid0, th0. cbn. rewrite lookup_insert_ne, Et by done. done.
  - cbn. rewrite Et. intros tid0 th0 [[<- <-]|[Hne H0]]%lookup_insert_Some; [done|]. eapply Hothers; eauto.
Qed.

(** A step that concerns neither connections nor registrations. *)
Lemma reach_quiet t t1 tid th th' :
  reach_ok t → t_threads t !! tid = Some th → t_threads t1 = t_threads t →
  t_conns t1 = t_conns t → t_realms t1 = t_realms t → t_returned t1 = t_returned t →
  (∀ r, dials th' r → dials th r) → (∀ r, will_signal th r → will_signal th' r) → cleanup_ok t th' →
  reach_ok (t_set tid th' t1).
Proof.
  intros Hr Hth Et Ec Em Ere Hd Hw Hcl.
  assert (∀ th0, cleanup_ok t th0 → cleanup_ok t1 th0) as Hc1.
  { intros th0. destruct th0 as [port pc| | | | | |]; try done. destruct pc; try done. unfold cleanup_ok, sole. by rewrite Ec, Ere. }
  eapply (reach_step t t1); eauto using kept_refl.
  - rewrite Ere. auto.
  - rewrite Ec. eauto.
  - intros r c Hcr Hown. split; [|auto]. unfold realm_lookup. rewrite Em. auto.
Qed.

Ltac quiet := solve [eapply reach_quiet; [eassumption|eassumption|done..]].

Lemma cleanup_back t t1 th :
  t_returned t1 = t_returned t → kept t t1 →
  (∀ r c1, t_conns t1 !! r = Some c1 → ∃ c, t_conns t !! r = Some c ∧ c_realmID c1 = c_realmID c) →
  cleanup_ok t th → cleanup_ok t1 th.
Proof.
  intros Er Hk Hc. destruct th as [port pc| | | | | |]; try done. destruct pc; try done. intros Hx r c1 Hc1 Hid Hso.
  destruct (Hc r c1 Hc1) as (c & Hcr & E). rewrite Er. apply (Hx r c); [congruence..|by apply (sole_back t t1)].
Qed.

(** Updates that keep the realm id and do not reopen a connection. *)
Definition conn_back (f : TConn → TConn) : Prop :=
  ∀ c, c_realmID (f c) = c_realmID c ∧ (c_closed (f c) = false → c_closed c = false).

Lemma update_back t r f r' c1 :
  conn_back f → t_conns (conn_update r f t) !! r' = Some c1 →
  ∃ c, t_conns t !! r' = Some c ∧ c_realmID c1 = c_realmID c ∧ (c_closed c1 = false → c_closed c = false).
Proof.
  intros Hf Hc1. cbn in Hc1. destruct (decide (r = r')) as [<-|Hne].
  - rewrite lookup_alter_eq in Hc1. apply fmap_Some in Hc1 as (c & Hc & ->). exists c. split; [done|]. apply Hf.
  - rewrite lookup_alter_ne in Hc1 by done. eauto.
Qed.

(** A step that updates connection [r]; the goroutine may have been about to close
    it, if it does. *)
Lemma reach_update t tid th th' r f :
  reach_ok t → t_threads t !! tid = Some th → conn_back f →
  (∀ r', dials th' r' → dials th r') →
  (∀ r', will_signal th r' → will_signal th' r' ∨ r' = r ∧ ∀ c, c_closed (f c) = true) → cleanup_ok t th' →
  reach_ok (t_set tid th' (conn_update r f t)).
Proof.
  intros Hr Hth Hf Hd Hw Hcl.
  assert (kept t (conn_update r f t)) as Hk by (apply kept_update; apply Hf).
  assert (∀ th0, cleanup_ok t th0 → cleanup_ok (conn_update r f t) th0) as Hcu.
  { intros th0. apply cleanup_back; [done|done|]. intros r' c1 Hc1.
    destruct (update_back _ _ _ _ _ Hf Hc1) as (c & ? & ? & _). eauto. }
  eapply (reach_step t); eauto using update_back.
  intros r' c Hc Hown. split; [by auto|]. intros [?|[-> Hcl']]%Hw; [by left|right].
  cbn. rewrite lookup_alter_eq, Hc. eexists. split; [done|]. apply Hcl'.
Qed.

(** A step that removes realm [id], where whoever is removed is closed, is about to
    be signalled, or was never returned. *)
Lemma reach_delete t tid th th' id :
  reach_ok t → t_threads t !! tid = Some th → (∀ r, dials th' r → dials th r) →
  (∀ r, will_signal th r → will_signal th' r) → cleanup_ok t th' →
  (∀ r c, realm_lookup id t = Some r → t_conns t !! r = Some c → owned t r → c_realmID c = id →
     will_signal th' r ∨ c_closed c = true) →
  reach_ok (t_set tid th' (realm_delete id t)).
Proof.
  intros Hr Hth Hd Hw Hcl Hdel.
  assert (∀ th0, cleanup_ok t th0 → cleanup_ok (realm_delete id t) th0) as Hcu.
  { intros th0. apply cleanup_back; [done|by apply kept_refl|by eauto]. }
  eapply (reach_step t); eauto; [by apply kept_refl|].
  intros r c Hc Hown. split; [|by auto]. intros Hl. destruct (decide (id = c_realmID c)) as [->|Hne].
  - destruct (Hdel r c Hl Hc Hown eq_refl); [by auto|]. right. right. exists c. done.
  - left. by apply realm_lookup_delete.
Qed.

Lemma Close_step_reach t tid who ch pc t1 pc1 :
  t_inv t → reach_ok t → t_threads t !! tid = Some (ThClose who pc) → Close_step tid ch pc t = Some (t1, pc1) →
  reach_ok (t_set tid (ThClose who pc1) t1).
Proof.
  intros Hinv Hr Hth E. destruct pc as [| | |realms todo|todo| |cb|]; cbn in E; [..|done].
  - case_decide; [|done]. case_match; simplify_eq; quiet.
  - case_decide; simplify_eq. quiet.
  - simplify_eq. eapply (reach_step t); [done|exact Hth|done|by auto|done|by apply kept_refl|by eauto| | |done].
    + intros r c Hc Hown. split; [|by intros []]. intros Hl. right. left. cbn.
      unfold realm_lookup in Hl. destruct (t_realms t) as [m|]; [|done]. cbn in *. eauto.
    + intros tid0 th0 _ _. apply cleanup_back; [done|by apply kept_refl|by eauto].
  - case_decide as Hempty.
    + simplify_eq. eapply reach_quiet; [eassumption|eassumption|try done..].
      intros r [id Hid]. by rewrite lookup_empty in Hid.
    + destruct ch; try done. apply bind_Some in E as (r & Hrr & E). simplify_eq.
      eapply reach_update; try done. intros r' [id' Hid'].
      destruct (decide (id = id')) as [<-|Hne]; [right; split; [congruence|done]|left].
      exists id'. by apply lookup_delete_Some.
  - case_decide; [simplify_eq; quiet|].
    destruct ch; try done. apply bind_Some in E as (r & Hrr & E). simplify_eq.
    destruct (t_send_fst ok (NewStatusBody id StatusDisconnect) t) as (s & k & ->). quiet.
  - simplify_eq. quiet.
  - destruct cb; simplify_eq; quiet.
Qed.

Lemma ConnClose_step_reach t tid ch r pc t1 pc1 :
  t_inv t → reach_ok t → t_threads t !! tid = Some (ThConnClose r pc) →
  ConnClose_step ch r pc t = Some (t1, pc1) → reach_ok (t_set tid (ThConnClose r pc1) t1).
Proof.
  intros Hinv Hr Hth E. destruct (i_local _ Hinv _ _ Hth) as [_ Hcl]. apply bind_Some in E as (c & Hc & E).
  destruct pc; simplify_eq.
  - by eapply reach_update.
  - by eapply reach_update.
  - case_decide; simplify_eq. quiet.
  - destruct (t_send _ _ t) as [t2 ok] eqn:Es. apply t_send_frame in Es as (s & k & ->). simplify_eq.
    quiet.
  - case_decide; simplify_eq. quiet.
  - eapply reach_delete; try done. intros r' c' _ Hc' [Hso _] Hid. right.
    assert (r = r') as <- by (by apply (Hso c' r c)). destruct Hcl as (c0 & Hc0 & ?); [done|]. congruence.
Qed.

Lemma heartbeat_step_reach t tid ch pc t1 pc1 :
  reach_ok t → t_threads t !! tid = Some (ThHeartbeat pc) → heartbeat_step ch pc t = Some (t1, pc1) →
  reach_ok (t_set tid (call_close ByHeartbeat ThHeartbeat pc1) t1).
Proof.
  intros Hr Hth E. destruct pc; cbn in E; try done.
  - destruct ch; try done; case_match; simplify_eq; quiet.
  - case_decide; simplify_eq. quiet.
  - simplify_eq. case_decide; quiet.
  - simplify_eq. destruct (t_send_fst (negb (is_fail ch)) NewHeartbeatBody t) as (s & k & ->). quiet.
  - unfold outboundStalled in E. destruct (t_lastDrainTime t); repeat case_decide; simplify_eq;
      try quiet; destruct (bool_decide _); quiet.
Qed.

Lemma flushACK_reach t tid ch pc t1 pc1 :
  reach_ok t → t_threads t !! tid = Some (ThFlush pc) → flushACK tid ch pc t = Some (t1, pc1) →
  reach_ok (t_set tid (call_close ByFlush ThFlush pc1) t1).
Proof.
  intros Hr Hth E. destruct pc; cbn in E; [| | |done].
  - case_decide; simplify_eq. quiet.
  - destruct (t_send _ _ t) as [t2 ok] eqn:Es. apply t_send_frame in Es as (s & k & ->). simplify_eq. quiet.
  - simplify_eq. repeat case_match; quiet.
Qed.

Lemma frame_step_reach t tid ch r data pc t1 pc1 :
  reach_ok t → t_threads t !! tid = Some (ThWrite r data pc) → frame_step ch r data pc t = Some (t1, pc1) →
  reach_ok (t_set tid (ThWrite r data pc1) t1).
Proof.
  intros Hr Hth E. destruct pc; cbn in E; [|done]. apply bind_Some in E as (c & Hc & E). injection E as <- <-.
  case_match; [quiet|]. destruct (t_send_fst (negb (is_fail ch)) (NewPayloadBody (c_realmID c) data) t) as (s & k & ->). quiet.
Qed.

Lemma dispatch_reach t tid p t1 pc1 :
  t_inv t → reach_ok t → t_threads t !! tid = Some (ThReader (RdDispatch p)) →
  dispatch (PBody p) t = Some (t1, pc1) → reach_ok (t_set tid (ThReader pc1) t1).
Proof.
  intros Hinv Hr Hth E. unfold dispatch in E. destruct (BType (PBody p)).
  4: { destruct (realm_lookup _ t) as [r|] eqn:Hl; simplify_eq; [|quiet].
    by eapply reach_update. }
  all: try (simplify_eq; quiet).
  - case_decide.
    + destruct (t_connCh t !! _) as [r|] eqn:Hcc; [|simplify_eq; quiet].
      apply bind_Some in E as (n & Hn & E). case_decide; simplify_eq. quiet.
    + case_decide; [destruct (realm_lookup _ t) as [r|] eqn:Hl|]; simplify_eq; try quiet.
      eapply reach_delete; try done. intros r' c Hl' _ _ _. left. cbn. congruence.
Qed.

Lemma reader_step_reach t tid ch pc t1 pc1 :
  t_inv t → reach_ok t → t_threads t !! tid = Some (ThReader pc) →
  reader_step ch pc t = Some (t1, pc1) → reach_ok (t_set tid (call_close ByReader ThReader pc1) t1).
Proof.
  intros Hinv Hr Hth E. destruct (i_local _ Hinv _ _ Hth) as [_ Hpc].
  destruct pc as [| | |p|p|p| |r|realm r data|realm r|realm r|realm| |]; cbn in E, Hpc; [..|done].
  - simplify_eq. destruct (t_done t1); quiet.
  - destruct ch; try done; [|simplify_eq; quiet..].
    destruct (t_sockClosed t); [done|]. destruct (ParsePacket data); simplify_eq; quiet.
  - destruct (t_done t); simplify_eq; [quiet|]. case_decide; quiet.
  - simplify_eq. quiet.
  - simplify_eq. quiet.
  - apply bind_Some in E as ([t2 pc2] & E & [= <- <-]). by eapply dispatch_reach.
  - injection E as <- <-. destruct (t_send_fst (negb (is_fail ch)) NewSyncBody t) as (s & k & ->).
    quiet.
  - simplify_eq. eapply reach_update; try done. intros r' ->. by right.
  - destruct Hpc as (c & Hc & Hid). rewrite Hc in E. cbn in E. case_decide; simplify_eq; [|quiet].
    by eapply reach_update.
  - simplify_eq. eapply reach_delete; try done. intros r' c' _ Hc' [Hso _] Hid'. left. cbn.
    destruct Hpc as (c & Hc & Hid). symmetry. apply (Hso c' r c); congruence.
  - simplify_eq. eapply reach_update; try done. intros r' ->. by right.
  - injection E as <- <-.
    destruct (t_send_fst (negb (is_fail ch)) (NewStatusBody realm StatusDisconnect) t) as (s & k & ->).
    quiet.
  - apply bind_Some in E as (t2 & Es & [= <- <-]). unfold scheduleACK in Es. case_decide; simplify_eq.
    destruct (t_ackPending t); quiet.
Qed.

(** A goroutine that is opening a connection, or cleaning up, has [dialMu]. *)
Lemma dials_lock t tid th r : t_inv t → t_threads t !! tid = Some th → dials th r → t_dialMu t = Some tid.
Proof.
  intros Hinv Hth Hd. destruct th as [port pc| | | | | |]; try done.
  destruct (i_local _ Hinv _ _ Hth) as [Hl _]. apply Hl. by destruct pc.
Qed.

Lemma install_reach t tid port attempt id m :
  t_inv t → reach_ok t → t_threads t !! tid = Some (ThDial port (DInstall attempt id)) → t_realms t = Some m →
  reach_ok (t_set tid (ThDial port (DChan attempt id (t_next t)))
    (t <| t_realms := Some (<[id := t_next t]> m) |>
       <| t_conns := <[t_next t := new_conn id port]> (t_conns t) |>
       <| t_chans := <[t_next t := 0%nat]> (t_chans t) |>
       <| t_next := S (t_next t) |> <| t_ids := t_ids t ++ [id] |>)).
Proof.
  intros Hinv [Ho Hcl] Hth Em. pose proof (next_fresh t Hinv) as Hfr. set (t1 := _ <| t_ids := _ |>).
  assert (kept t t1) as Hk.
  { intros r c Hc. exists c. cbn. rewrite lookup_insert_ne by congruence. done. }
  constructor.
  - cbn. intros r c Hc Hown Hopen. unfold realm_lookup. cbn.
    destruct (decide (r = t_next t)) as [->|Hne].
    { rewrite lookup_insert_eq in Hc. injection Hc as <-. left. by rewrite lookup_insert_eq. }
    rewrite lookup_insert_ne in Hc by done.
    assert (owned t r) as Hown0.
    { destruct Hown as [Hso Hown]. split; [by apply (sole_back t t1)|].
      destruct Hown as [Hr|(tid0 & th0 & H0 & Hd)]; [by left|]. cbn in H0.
      apply lookup_insert_Some in H0 as [[<- <-]|[_ H0]]; [done|]. right. eauto. }
    assert (id ≠ c_realmID c) as Hnew.
    { intros ->. destruct Hown as [Hso _]. specialize (Hso c (t_next t) (new_conn (c_realmID c) port)). cbn in Hso.
      rewrite lookup_insert_ne, lookup_insert_eq in Hso by done. by destruct Hne, Hso. }
    destruct (Ho r c Hc Hown0 Hopen) as [Hl|(tid0 & th0 & H0 & Hs)].
    + left. rewrite lookup_insert_ne by done. unfold realm_lookup in Hl. by rewrite Em in Hl.
    + right. exists tid0, th0. cbn. split; [|done]. rewrite lookup_insert_ne; [done|]. intros <-. by simplify_eq.
  - cbn. intros tid0 th0 [[<- <-]|[Hne H0]]%lookup_insert_Some; [done|].
    specialize (Hcl _ _ H0). destruct th0 as [p0 pc0| | | | | |]; try done. destruct pc0; try done. cbn.
    destruct (i_local _ Hinv _ _ H0) as [Hl0 _]. destruct (i_local _ Hinv _ _ Hth) as [Hl1 _].
    specialize (Hl0 eq_refl). specialize (Hl1 eq_refl). congruence.
Qed.

Lemma Dial_step_reach t tid ch port pc t1 pc1 :
  t_inv t → reach_ok t → t_threads t !! tid = Some (ThDial port pc) → Dial_step tid ch port pc t = Some (t1, pc1) →
  reach_ok (t_set tid (ThDial port pc1) t1).
Proof.
  intros Hinv Hr Hth E. destruct (i_local _ Hinv _ _ Hth) as [Hl Hpc].
  assert (∀ id r next, (conn_at t r id ∧ is_Some (t_chans t !! r) ∧ r ∉ t_returned t) →
    cleanup_ok t (ThDial port (DClean1 id next))) as Hclean.
  { intros id r next ((c & Hc & Hid) & _ & Hret) r' c' Hc' Hid' Hso. replace r' with r; [done|].
    apply (Hso c' r c); congruence. }
  destruct pc as [| | |k|k id|k id r|k id r|k id r since|id next|id next|res|res]; cbn in E; [..|done].
  - apply bind_Some in E as (e & _ & E). destruct e; simplify_eq; quiet.
  - case_decide; simplify_eq. quiet.
  - apply bind_Some in E as (e & _ & E). destruct e; simplify_eq; quiet.
  - case_decide; [destruct ch; try done; case_decide|]; simplify_eq; quiet.
  - destruct (t_realms t) as [m|] eqn:Em; simplify_eq; [by apply install_reach|quiet].
  - simplify_eq. quiet.
  - destruct (t_send _ _ t) as [t2 ok] eqn:Es. apply t_send_frame in Es as (s & k' & ->). simplify_eq.
    destruct ok; [quiet|]. eapply reach_quiet; [eassumption|eassumption|try done..]. by eapply Hclean.
  - destruct ch; try done.
    + case_decide; simplify_eq. eapply reach_quiet; [eassumption|eassumption|try done..]. by eapply Hclean.
    + apply bind_Some in E as (n & _ & E). case_decide; simplify_eq.
      eapply (reach_step t); [done|exact Hth|done| |done|by apply kept_refl|by eauto| | |done].
      * cbn. intros r' [->%elem_of_singleton|Hr']%elem_of_union; auto.
      * intros r' c Hc Hown. split; [by auto|by intros []].
      * intros tid0 th0 Hne H0 _. destruct th0 as [p0 pc0| | | | | |]; try done. destruct pc0; try done.
        destruct (i_local _ Hinv _ _ H0) as [Hl0 _]. specialize (Hl0 eq_refl). rewrite (Hl eq_refl) in Hl0. congruence.
    + case_match; simplify_eq. eapply reach_quiet; [eassumption|eassumption|try done..]. by eapply Hclean.
  - simplify_eq. eapply reach_delete; try done. intros r c _ Hc [Hso [Hown|(tid0 & th0 & H0 & Hd)]] Hid.
    + by destruct (r_cleanup _ Hr _ _ Hth r c Hc Hid Hso).
    + pose proof (dials_lock _ _ _ _ Hinv H0 Hd) as Hx. rewrite (Hl eq_refl) in Hx.
      injection Hx as <-. rewrite Hth in H0. by injection H0 as <-.
  - simplify_eq. destruct next; quiet.
  - simplify_eq. quiet.
Qed.

Lemma spawn_reach t tid th t1 :
  reach_ok t → spawn tid th t = Some t1 → (∀ r, ¬ dials th r) → cleanup_ok t th → reach_ok t1.
Proof.
  unfold spawn. intros [Ho Hcl] E Hd Hc. case_decide as Hnew; simplify_eq. constructor.
  - intros r c Hcr [Hso [Hret|(tid0 & th0 & H0 & Hd0)]] Hopen.
    + destruct (Ho r c Hcr (conj Hso (or_introl Hret)) Hopen) as [?|(tid0 & th0 & H0 & Hs)]; [by left|right].
      exists tid0, th0. cbn. rewrite lookup_insert_ne by congruence. done.
    + cbn in H0. apply lookup_insert_Some in H0 as [[<- <-]|[_ H0]]; [by destruct (Hd r)|].
      destruct (Ho r c Hcr) as [?|(tid1 & th1 & H1 & Hs)]; [by split; [|right; eauto]|done|by left|right].
      exists tid1, th1. cbn. rewrite lookup_insert_ne by congruence. done.
  - cbn. intros tid0 th0 [[<- <-]|[_ H0]]%lookup_insert_Some; [done|]. apply (Hcl _ _ H0).
Qed.

(** A step of the environment. *)
Lemma reach_env t t1 :
  reach_ok t → t_threads t1 = t_threads t → t_realms t1 = t_realms t → t_returned t1 = t_returned t → kept t t1 →
  (∀ r c1, t_conns t1 !! r = Some c1 →
     ∃ c, t_conns t !! r = Some c ∧ c_realmID c1 = c_realmID c ∧ (c_closed c1 = false → c_closed c = false)) →
  reach_ok t1.
Proof.
  intros [Ho Hcl] Et Em Er Hk Hc. constructor.
  - intros r c1 Hc1 Hown Hopen. destruct (Hc r c1 Hc1) as (c & Hcr & Eid & Hcc).
    assert (sole t r) as Hso by (by apply (sole_back t t1), Hown).
    unfold owned, will_signal_at, realm_lookup in *. rewrite Et, Em, Er, Eid in *. destruct Hown as [_ Hown]. by apply (Ho r c); auto.
  - rewrite Et. intros tid th Hth. apply (cleanup_back t); eauto.
    intros r c1 Hc1. destruct (Hc r c1 Hc1) as (c & ? & ? & _). eauto.
Qed.

Lemma t_go_reach t tid ch th t1 :
  t_inv t → reach_ok t → t_threads t !! tid = Some th → t_go tid ch th t = Some t1 → reach_ok t1.
Proof.
  intros Hinv Hr Hth E. destruct th as [port pc|r pc|who pc|pc|pc|pc|r data pc].
  - apply bind_Some in E as ([t2 pc2] & E & [= <-]). by eapply Dial_step_reach.
  - apply bind_Some in E as ([t2 pc2] & E & [= <-]). by eapply ConnClose_step_reach.
  - assert (pc = CRet ∨ pc ≠ CRet) as [->|Hne] by (destruct pc; by auto).
    + destruct who; cbn in E; simplify_eq; quiet.
    + assert (∃ t2 pc2, Close_step tid ch pc t = Some (t2, pc2) ∧ t1 = t_set tid (ThClose who pc2) t2) as (t2 & pc2 & Es & ->).
      { destruct pc; try done; apply bind_Some in E as ([t2 pc2] & E & [= <-]); eauto. }
      by eapply Close_step_reach.
  - apply bind_Some in E as ([t2 pc2] & E & [= <-]). by eapply reader_step_reach.
  - apply bind_Some in E as ([t2 pc2] & E & [= <-]). by eapply heartbeat_step_reach.
  - apply bind_Some in E as ([t2 pc2] & E & [= <-]). by eapply flushACK_reach.
  - apply bind_Some in E as ([t2 pc2] & E & [= <-]). by eapply frame_step_reach.
Qed.

Lemma t_thread_reach t tid ch t1 : t_inv t → reach_ok t → t_thread tid ch t = Some t1 → reach_ok t1.
Proof.
  intros Hinv Hr. apply t_thread_keeps; [| | |done].
  - intros t0 o H0. apply (reach_env t0); try done; [by apply kept_refl|by eauto].
  - intros th t2 Hth. by apply t_go_reach.
  - intros r data Hth. quiet.
Qed.

Lemma t_step_reach ev t t1 : t_inv t → reach_ok t → t_step ev t = Some t1 → reach_ok t1.
Proof.
  intros Hinv Hr E.
  assert (∀ t1, t_conns t1 = t_conns t → t_threads t1 = t_threads t → t_realms t1 = t_realms t →
    t_returned t1 = t_returned t → reach_ok t1) as Henv.
  { intros t2 Ec Et Em Er. apply (reach_env t); try done; [by apply kept_refl|]. rewrite Ec. eauto. }
  destruct ev as [tid ch|tid port|tid r|tid|tid r data|tid|r| |fn|d]; cbn in E.
  - by eapply t_thread_reach.
  - eapply spawn_reach; [done|exact E|by intros ? []|done].
  - case_decide; [|done]. eapply spawn_reach; [done|exact E|by intros ? []|done].
  - eapply spawn_reach; [done|exact E|by intros ? []|done].
  - case_decide; [|done]. eapply spawn_reach; [done|exact E|by intros ? []|done].
  - apply bind_Some in E as (d & Hd & E). case_decide; [|done].
    eapply (spawn_reach (t <| t_ackTimer := None |>)); [|exact E|by intros r []|done]. by apply Henv.
  - apply bind_Some in E as (c & Hc & E). simplify_eq.
    apply (reach_env t); try done; [by apply kept_update|]. intros r' c1. by apply update_back.
  - unfold Retire in E. case_decide; simplify_eq. by apply Henv.
  - unfold SetOnClose in E. case_decide; simplify_eq. case_match; by apply Henv.
  - case_decide; simplify_eq. by apply Henv.
Qed.

Lemma t_reachable_reach s now t : t_reachable s now t → reach_ok t.
Proof.
  intros [evs Hr]. assert (reach_ok (New s now)) as Hs.
  { constructor; [done|]. intros tid th Hl. cbn in Hl. apply lookup_insert_Some in Hl as [[_ <-]|[_ Hl]]; [done|].
    by apply lookup_singleton_Some in Hl as [_ <-]. }
  pose proof (New_inv s now) as Hinv. revert Hinv Hs Hr. generalize (New s now).
  induction evs as [|ev evs IH]; intros t0 Hinv Hs Hr; cbn in Hr; [by simplify_eq|].
  apply bind_Some in Hr as (t' & Ht & Hr). apply (IH t'); [by eapply t_step_inv|by eapply t_step_reach|done].
Qed.

(** ** Theorems *)

(** C6. No holes: in every interleaving, what has been queued for a
    realm is a prefix of the payloads that arrived for it while it was registered,
    in order; what its consumer has yet to read is the tail of that, never more than
    4096 payloads; and unless the reader is just handling a payload of this realm,
    either nothing is missing, or exactly the last payload is, in which case the
    realm has been closed and unregistered, so nothing follows the hole. *)
Theorem no_stream_holes s now t r c :
  t_reachable s now t → t_conns t !! r = Some c →
  c_pushed c `prefix_of` c_arrived c ∧ c_dataCh c `suffix_of` c_pushed c ∧ (length (c_dataCh c) ≤ 4096)%nat ∧
  (¬ busy_at t r →
     c_arrived c = c_pushed c ∨
     (∃ d, c_arrived c = c_pushed c ++ [d]) ∧ c_closed c = true ∧ realm_lookup (c_realmID c) t ≠ Some r).
Proof.
  intros Hs%t_reachable_streams Hc. destruct (s_conns _ Hs r c Hc) as (H1 & H2 & H3).
  split_and!; [|done|done|by intros Hb; destruct H3].
  destruct H3 as [(tid & th & Hth & Hb)|[->|((d & ->) & _)]]; [|done|by apply prefix_app_r].
  pose proof (s_reader _ Hs _ _ Hth) as Hrd. destruct th as [| | |pc| | |]; try done.
  destruct pc; try done; cbn in Hb, Hrd; subst r.
  - destruct Hrd as (c' & Hc' & Ha). simplify_eq. rewrite Ha. by apply prefix_app_r.
  - destruct Hrd as (c' & d & Hc' & Ha & _). simplify_eq. rewrite Ha. by apply prefix_app_r.
  - destruct Hrd as (c' & d & Hc' & Ha & _). simplify_eq. rewrite Ha. by apply prefix_app_r.
Qed.

(** C24. No connection that [Dial] has returned is forgotten, as long as
    [Dial] has not drawn its random realm id a second time: it is closed, or
    registered under its realm id, where payloads, DISC and [Close] find it, or some
    goroutine is about to close it.  ([id_reuse_forgets] shows that the proviso is
    needed.) *)
Theorem no_forgotten_connection s now t r c :
  t_reachable s now t → r ∈ t_returned t → t_conns t !! r = Some c →
  (∀ r' c', t_conns t !! r' = Some c' → c_realmID c' = c_realmID c → r' = r) →
  c_closed c = true ∨ realm_lookup (c_realmID c) t = Some r ∨ will_signal_at t r.
Proof.
  intros Hr Hret Hc Hso. destruct (c_closed c) eqn:Ecl; [by left|right].
  apply (r_owned _ (t_reachable_reach _ _ _ Hr) r c Hc); [|done]. split; [|by left]. intros c0 r' c' Hc0. simplify_eq. apply Hso.
Qed.

(** C35. [Close] wakes every connection whose random realm id [Dial] has not
    drawn a second time: once [Close] has given [mu] back, each such connection that was ever
    returned is closed, so that its [Read] and [Write] return, or the reader, which
    removed it just before, is about to close it. *)
Theorem close_wakes_everyone s now t r c :
  t_reachable s now t → t_closed t = true → t_mu t = None → r ∈ t_returned t → t_conns t !! r = Some c →
  (∀ r' c', t_conns t !! r' = Some c' → c_realmID c' = c_realmID c → r' = r) →
  c_closed c = true ∨
  ∃ pc, t_threads t !! 0%nat = Some (ThReader pc) ∧ (pc = RdSignal r ∨ ∃ id, pc = RdOver2 id r).
Proof.
  intros Hr Hcl Hm Hret Hc Hso. destruct (c_closed c) eqn:Ecl; [by left|right].
  pose proof (t_reachable_inv _ _ _ Hr) as Hinv.
  destruct (i_flags _ Hinv) as (_ & _ & _ & _ & F5). destruct (F5 Hcl Hm) as [En _].
  assert (owned t r) as Hown by (split; [intros c0 r' c' Hc0; simplify_eq; apply Hso|by left]).
  destruct (r_owned _ (t_reachable_reach _ _ _ Hr) r c Hc Hown Ecl) as [Hl|(tid & th & Hth & Hs)].
  - unfold realm_lookup in Hl. by rewrite En in Hl.
  - destruct th as [| |who pc|pc| | |]; try done.
    + destruct pc; try done. destruct (i_local _ Hinv _ _ Hth) as (_ & Hi & _). specialize (Hi eq_refl). congruence.
    + destruct (i_local _ Hinv _ _ Hth) as [-> _]. exists pc. split; [done|].
      destruct pc; try done; cbn in Hs; subst; eauto.
Qed.

(** ** Witnesses *)

(** Realm 7 of [demo_dial] receives a payload, a second one is looked up. *)
Definition demo_payloads : list TEvent :=
  demo_dial ++ demo_recv (NewPayloadBody 7 (lit "abc")) 2 ++ demo_recv (NewPayloadBody 7 (lit "de")) 2.

Lemma no_stream_holes_witness :
  ∃ c, t_conns (demo_state demo_payloads) !! 0%nat = Some c ∧ c_arrived c = [lit "abc"; lit "de"] ∧
    c_pushed c `prefix_of` c_arrived c.
Proof.
  eexists. split; [vm_compute; reflexivity|]. split; [vm_compute; reflexivity|].
  eapply (no_stream_holes NewSession 0 (demo_state demo_payloads) 0).
  - exists demo_payloads. vm_compute. reflexivity.
  - vm_compute. reflexivity.
Defined.

(** There is one connection only. *)
Lemma lone_conn t r c : t_conns t !! r = Some c → bool_decide (dom (t_conns t) = {[0%nat]}) = true → r = 0%nat.
Proof.
  intros Hc Hd. apply bool_decide_eq_true in Hd. assert (r ∈ dom (t_conns t)) as Hr by (apply elem_of_dom; eauto).
  rewrite Hd in Hr. by apply elem_of_singleton in Hr.
Qed.

Lemma no_forgotten_connection_witness :
  ∃ c, t_conns (demo_state demo_payloads) !! 0%nat = Some c ∧
    (c_closed c = true ∨ realm_lookup (c_realmID c) (demo_state demo_payloads) = Some 0%nat ∨
     will_signal_at (demo_state demo_payloads) 0).
Proof.
  eexists. split; [vm_compute; reflexivity|].
  apply (no_forgotten_connection NewSession 0 (demo_state demo_payloads)).
  - exists demo_payloads. vm_compute. reflexivity.
  - apply (bool_decide_unpack _). vm_compute. exact I.
  - vm_compute. reflexivity.
  - intros r' c' Hc'. apply (lone_conn (demo_state demo_payloads)) in Hc'; [done|vm_compute; reflexivity].
Defined.

Lemma close_wakes_everyone_witness :
  ∃ c, t_conns (demo_state demo_closed) !! 0%nat = Some c ∧
    (c_closed c = true ∨
     ∃ pc, t_threads (demo_state demo_closed) !! 0%nat = Some (ThReader pc) ∧
       (pc = RdSignal 0 ∨ ∃ id, pc = RdOver2 id 0)).
Proof.
  eexists. split; [vm_compute; reflexivity|].
  apply (close_wakes_everyone NewSession 0 (demo_state demo_closed)).
  - exists demo_closed. vm_compute. reflexivity.
  - vm_compute. reflexivity.
  - vm_compute. reflexivity.
  - apply (bool_decide_unpack _). vm_compute. exact I.
  - vm_compute. reflexivity.
  - intros r' c' Hc'. apply (lone_conn (demo_state demo_closed)) in Hc'; [done|vm_compute; reflexivity].
Defined.

(** ** A repeated realm id *)

(** The connection of realm 7 is being closed and is past its DISC when the device
    disconnects the realm too; a new [Dial] draws id 7 again; the old [Close] goes
    on and removes the new connection's registration. *)
Definition demo_reuse : list TEvent :=
  demo_dial ++ [TvConnClose 30 0] ++ (TvRun 30 <$> [TGo; TGo; TGo; TGo; TFail]) ++
  demo_recv (NewStatusBody 7 StatusDisconnect) 2 ++
  [TvDial 11 554] ++ (TvRun 11 <$> [TGo; TGo; TGo; TId 7; TGo; TGo; TGo; TGo]) ++
  demo_recv (NewStatusBody 7 StatusConnect) 1 ++ (TvRun 11 <$> [TGranted; TGo]) ++
  [TvRun 30 TGo].

Definition signals_nobody (th : TThread) : bool :=
  match th with
  | ThReader (RdSignal _) | ThReader (RdOver2 _ _) | ThClose _ (CSignal _ _) => false
  | _ => true
  end.

(** The proviso on realm ids is needed: there is a run in which a
    repeated random id makes the [Close] of an old connection unregister a new one
    that [Dial] has returned; the new connection is open, unregistered, and nobody
    is about to close it. *)
Theorem id_reuse_forgets :
  ∃ t c, t_reachable NewSession 0 t ∧ 1%nat ∈ t_returned t ∧ t_conns t !! 1%nat = Some c ∧
    c_closed c = false ∧ realm_lookup (c_realmID c) t ≠ Some 1%nat ∧ ¬ will_signal_at t 1.
Proof.
  exists (demo_state demo_reuse). eexists. split; [exists demo_reuse; vm_compute; reflexivity|].
  split; [apply (bool_decide_unpack _); vm_compute; exact I|].
  split; [vm_compute; reflexivity|]. split; [reflexivity|]. split; [vm_compute; discriminate|].
  assert (map_Forall (λ _ th, signals_nobody th = true) (t_threads (demo_state demo_reuse))) as Hn.
  { apply (bool_decide_unpack _). vm_compute. exact I. }
  generalize dependent (demo_state demo_reuse). intros t Hn (tid & th & Hth & Hs).
  specialize (Hn _ _ Hth). cbn in Hn. destruct th as [| |? pc|pc| | |]; try done; by destruct pc.
Qed.
