(* ===== verification/TunnelHealth.v ===== *)
(** * Health of a tunnel: stall detection, acknowledgements, error thresholds

    [src/tunnel/tunnel.go], lines 448-539 and 656-700, in the system of
    [TunnelState]. *)

From Stdlib Require Import ZArith Lia Strings.Byte.
From S2P Require Import Prelude GoStrings PtcpTypes PtcpSession SendPath ConnRead TunnelState TunnelRealms.

(** ** The outbound stall detector *)

(** What [outboundStalled] sees at each heartbeat: the clock and the session. *)
Record Sample := mkSample { sm_now : Z; sm_session : Session }.

Definition sm_out (x : Sample) : Z := OutBytes (Session_Stats (sm_session x)).
Definition sm_peer (x : Sample) : Z := st_PeerRecv (Session_Stats (sm_session x)).

(** The detector run at one sample, and over a history. *)
Definition observe (x : Sample) (t : Tunnel) : Tunnel * bool :=
  outboundStalled (t <| t_now := sm_now x |> <| t_session := sm_session x |>).

Fixpoint watch (xs : list Sample) (t : Tunnel) : Tunnel :=
  match xs with [] => t | x :: xs => watch xs (observe x t).1 end.

(** From its [i]-th sample on, the device has consumed nothing, although bytes were
    outstanding at every sample after that. *)
Definition frozen_from (i : nat) (x0 : Sample) (xs : list Sample) : Prop :=
  xs !! i = Some x0 ∧ ∀ j y, (i < j)%nat → xs !! j = Some y → 0 < sm_out y ∧ sm_peer y = sm_peer x0.

Definition in_time_order (xs : list Sample) : Prop :=
  ∀ i j x y, (i ≤ j)%nat → xs !! i = Some x → xs !! j = Some y → sm_now x ≤ sm_now y.

(** The state the detector keeps is a sample of the history: the latest one from
    which the device has been frozen. *)
Definition detector_at (x0 : Sample) (t : Tunnel) : Prop :=
  t_lastDrain t = sm_peer x0 ∧ t_lastDrainTime t = Some (sm_now x0).

Definition fresh_detector (t : Tunnel) : Prop := t_lastDrain t = 0 ∧ t_lastDrainTime t = None.

(** One observation: it restarts the clock at this sample, or keeps it. *)
Lemma observe_spec x t :
  (detector_at x (observe x t).1 ∧ (observe x t).2 = false ∧
     ∀ x0, detector_at x0 t → ¬ (0 < sm_out x ∧ sm_peer x = sm_peer x0)) ∨
  (∃ since, t_lastDrainTime t = Some since ∧ 0 < sm_out x ∧ sm_peer x = t_lastDrain t ∧
     t_lastDrain (observe x t).1 = t_lastDrain t ∧ t_lastDrainTime (observe x t).1 = Some since ∧
     (observe x t).2 = bool_decide (20000 < sm_now x - since)).
Proof.
  unfold observe, outboundStalled, detector_at, sm_out, sm_peer. cbn [t_session t_lastDrain t_lastDrainTime t_now set].
  case_decide as H1; [left; cbn; split_and!; try done; intros x0 _ [? _]; cbn in *; lia|].
  case_decide as H2; [left; cbn; split_and!; try done; intros x0 [Hd _] [_ Hp]; cbn in *; congruence|].
  destruct (t_lastDrainTime t) as [since|] eqn:Et; cbn in *; rewrite ?Et.
  - right. exists since. split_and!; try done; first [lia|by apply dec_stable].
  - left. split_and!; try done. by intros x0 [_ ?].
Qed.

Lemma watch_snoc xs x : ∀ t, watch (xs ++ [x]) t = (observe x (watch xs t)).1.
Proof. induction xs as [|y xs IH]; intros t; cbn; [done|]. apply IH. Qed.

Lemma frozen_snoc i x0 xs x :
  frozen_from i x0 xs → 0 < sm_out x → sm_peer x = sm_peer x0 → frozen_from i x0 (xs ++ [x]).
Proof.
  intros [Hi Hf] Ho Hp. split; [by apply lookup_app_l_Some|]. intros j y Hj Hy.
  apply lookup_app_Some in Hy as [Hy|[_ Hy]]; [eauto|].
  apply list_lookup_singleton_Some in Hy as [_ <-]. done.
Qed.

Lemma frozen_snoc_inv i x0 xs x :
  frozen_from i x0 (xs ++ [x]) →
  (i = length xs ∧ x0 = x) ∨ (frozen_from i x0 xs ∧ 0 < sm_out x ∧ sm_peer x = sm_peer x0).
Proof.
  intros [Hi Hf]. apply lookup_app_Some in Hi as [Hi|[Hl Hi]].
  - right. split; [split; [done|]|].
    + intros j y Hj Hy. apply (Hf j y Hj). by apply lookup_app_l_Some.
    + apply (Hf (length xs)); [by eapply lookup_lt_Some|]. by rewrite lookup_app_r, Nat.sub_diag.
  - left. apply list_lookup_singleton_Some in Hi as [Hi <-]. split; [lia|done].
Qed.

(** Two samples from which the device is frozen saw the same counter. *)
Lemma frozen_same i j x y xs : frozen_from i x xs → frozen_from j y xs → sm_peer x = sm_peer y.
Proof.
  intros [Hi Fi] [Hj Fj]. destruct (decide (i < j)%nat); [symmetry; by apply (Fi j y)|].
  destruct (decide (j < i)%nat); [by apply (Fj i x)|]. replace j with i in Hj by lia. congruence.
Qed.

(** After a history the clock stands at one of its samples, from which the device
    has been frozen, and no later than at any other such sample. *)
Definition clock_ok (xs : list Sample) (t : Tunnel) : Prop :=
  ∃ i x0, frozen_from i x0 xs ∧ detector_at x0 t ∧
    ∀ j y, frozen_from j y xs → sm_now x0 ≤ sm_now y.

Lemma in_time_order_app xs ys : in_time_order (xs ++ ys) → in_time_order xs.
Proof. intros H i j x y Hij Hi Hj. apply (H i j x y Hij); by apply lookup_app_l_Some. Qed.

Lemma watch_clock t xs : fresh_detector t → in_time_order xs → xs ≠ [] → clock_ok xs (watch xs t).
Proof.
  intros Hfresh. induction xs as [|x xs IH] using rev_ind; intros Ht Hne; [done|].
  rewrite watch_snoc. pose proof (in_time_order_app _ _ Ht) as Ht0.
  assert ((xs ++ [x]) !! length xs = Some x) as Hlast by (by rewrite lookup_app_r, Nat.sub_diag).
  destruct (observe_spec x (watch xs t)) as [(Hd & _ & Hreset)|(since & Hs & Ho & Hp & E1 & E2 & _)].
  - exists (length xs), x. split_and!; [|done|].
    + split; [done|]. intros j y Hj Hy%lookup_lt_Some. rewrite length_app in Hy. cbn in Hy. lia.
    + intros j y [[-> ->]|(Hf & Ho & Hp)]%frozen_snoc_inv; [lia|].
      destruct (IH Ht0) as (i & x0 & Hf0 & Hd0 & _); [by intros ->; destruct Hf|].
      destruct (Hreset x0 Hd0). split; [done|]. rewrite Hp. by eapply frozen_same.
  - assert (xs ≠ []) as Hxs by (intros ->; cbn in Hs; destruct Hfresh; congruence).
    destruct (IH Ht0 Hxs) as (i & x0 & Hf0 & [Hd1 Hd2] & Hmin). exists i, x0. split_and!.
    + apply frozen_snoc; congruence.
    + split; congruence.
    + intros j y [[-> ->]|(Hf & _)]%frozen_snoc_inv; [|eauto].
      apply (Ht i (length xs)); [|by apply lookup_app_l_Some, Hf0|done].
      destruct Hf0 as [Hi%lookup_lt_Some _]. lia.
Qed.

(** C19. The stall detector decides exactly what it is meant to: fed
    with the clock and the session at each heartbeat, it reports a stall at the
    latest one if and only if at some earlier one, more than 20 seconds before, the
    peer's receive counter already had its present value, has had it ever since,
    and bytes were outstanding each time. *)
Theorem stall_detector t xs x :
  fresh_detector t → in_time_order (xs ++ [x]) →
  (observe x (watch xs t)).2 = true ↔
  ∃ i x0, (i < length xs)%nat ∧ frozen_from i x0 (xs ++ [x]) ∧ 20000 < sm_now x - sm_now x0.
Proof.
  intros Hfresh Ht. pose proof (in_time_order_app _ _ Ht) as Ht0.
  destruct (observe_spec x (watch xs t)) as [(_ & Hr & Hreset)|(since & Hs & Ho & Hp & _ & _ & Hr)].
  - rewrite Hr. split; [done|]. intros (i & x0 & Hi & [[-> _]|(Hf & Ho & Hp)]%frozen_snoc_inv & _); [lia|].
    destruct (watch_clock t xs Hfresh Ht0) as (j & y & Hfy & Hdy & _); [by intros ->; destruct Hf|].
    destruct (Hreset y Hdy). split; [done|]. rewrite Hp. by eapply frozen_same.
  - assert (xs ≠ []) as Hxs by (intros ->; cbn in Hs; destruct Hfresh; congruence).
    destruct (watch_clock t xs Hfresh Ht0 Hxs) as (j & y & Hfy & [Hd1 Hd2] & Hmin).
    rewrite Hr, bool_decide_eq_true. rewrite Hs in Hd2. injection Hd2 as ->. split.
    + intros Hlt. exists j, y. split_and!; [by destruct Hfy as [?%lookup_lt_Some _]| |done].
      apply frozen_snoc; congruence.
    + intros (i & x0 & Hi & [[-> _]|(Hf & _)]%frozen_snoc_inv & Hlt); [lia|]. specialize (Hmin i x0 Hf). lia.
Qed.

(** The device's counter stands at 24 from the first heartbeat on; at the sixth,
    25 seconds later, that is a stall. *)
Definition demo_sample (k : Z) : Sample :=
  mkSample (5000 * k) (mkSession (36 + 12 * k) 0 0 0 0 0 24 0).

Lemma stall_detector_witness :
  (observe (demo_sample 5) (watch (demo_sample <$> [0; 1; 2; 3; 4]) (New NewSession 0))).2 = true ∧
  ∃ i x0, (i < 5)%nat ∧ frozen_from i x0 ((demo_sample <$> [0; 1; 2; 3; 4]) ++ [demo_sample 5]) ∧
    20000 < 25000 - sm_now x0.
Proof.
  split; [vm_compute; reflexivity|].
  refine (proj1 (stall_detector (New NewSession 0) (demo_sample <$> [0; 1; 2; 3; 4]) (demo_sample 5) _ _) _).
  - split; reflexivity.
  - intros i j x y Hij Hi Hj.
    do 6 (destruct i as [|i]; [cbn in Hi; injection Hi as <-; do 6 (destruct j as [|j]; [cbn in Hj; injection Hj as <-; cbn; lia|]); cbn in Hj; discriminate|]).
    cbn in Hi. discriminate.
  - vm_compute. reflexivity.
Defined.

(** ** Acknowledgements and thresholds as invariants *)

(** A [flushACK] that has not come to its end. *)
Definition in_flush (th : TThread) : bool := match th with ThFlush FlDone => false | ThFlush _ => true | _ => false end.

Definition flushing (t : Tunnel) (tid : nat) : Prop := ∃ th, t_threads t !! tid = Some th ∧ in_flush th = true.

Lemma flushing_set t tid th x : flushing (t_set tid th t) x ↔ (x = tid ∧ in_flush th = true) ∨ (x ≠ tid ∧ flushing t x).
Proof.
  unfold flushing. cbn. destruct (decide (tid = x)) as [<-|Hne].
  - rewrite lookup_insert_eq. split; [|by intros [[_ H]|[? _]]; eauto]. intros (? & [= <-] & H). auto.
  - rewrite lookup_insert_ne by done. split; [by auto|]. by intros [[-> _]|[_ H]].
Qed.

(** A goroutine that stays in or out of [flushACK]. *)
Lemma flushing_same t tid th th' x :
  t_threads t !! tid = Some th → in_flush th' = in_flush th → flushing (t_set tid th' t) x ↔ flushing t x.
Proof.
  intros Hth E. rewrite flushing_set, E. split.
  - intros [[-> H]|[_ H]]; [by exists th|done].
  - intros (th0 & H0 & H). destruct (decide (x = tid)) as [->|Hne]; [left; simplify_eq; done|right; split; [done|by exists th0]].
Qed.

Definition ack_ok (t : Tunnel) : Prop :=
  (∀ t1 t2, flushing t t1 → flushing t t2 → t1 = t2) ∧
  if t_ackPending t then
    (∃ d, t_ackTimer t = Some d ∧ d ≤ t_now t + ackCoalesceWindow ∧ ∀ tid, ¬ flushing t tid) ∨
    (t_ackTimer t = None ∧ ∃ tid, flushing t tid) ∨
    (t_closed t = true ∧ t_ackTimer t = None ∧ ∀ tid, ¬ flushing t tid)
  else t_ackTimer t = None ∧ ∀ tid, ¬ flushing t tid.

(** A call of [Close] by [who] that has not begun. *)
Definition about_to_close (t : Tunnel) (who : Caller) : Prop :=
  ∃ tid, t_threads t !! tid = Some (ThClose who CEnter).

Definition thresholds_ok (t : Tunnel) : Prop :=
  t_closed t = false →
  (maxConsecutiveReadErrors ≤ t_consecutiveReadErrs t → about_to_close t ByReader) ∧
  (maxMissedHeartbeats < t_missedHeartbeats t → about_to_close t ByHeartbeat) ∧
  (maxConsecutiveSendErrors ≤ t_consecutiveSendErrs t → about_to_close t ByFlush).

Definition acks (t : Tunnel) := (t_ackPending t, t_ackTimer t, t_now t, t_closed t).
Definition errs (t : Tunnel) := (t_consecutiveReadErrs t, t_missedHeartbeats t, t_consecutiveSendErrs t, t_closed t).

Lemma ack_ok_move t t1 tid th th' :
  ack_ok t → t_threads t !! tid = Some th → t_threads t1 = t_threads t →
  t_ackPending t1 = t_ackPending t → t_ackTimer t1 = t_ackTimer t → t_now t1 = t_now t →
  (t_closed t = true → t_closed t1 = true) →
  in_flush th' = in_flush th → ack_ok (t_set tid th' t1).
Proof.
  intros [Hu Ha] Hth Et E1 E2 E3 E4 Hn.
  assert (∀ x, flushing (t_set tid th' t1) x ↔ flushing t x) as Hf.
  { intros x. rewrite (flushing_same t1 tid th) by (by rewrite ?Et). unfold flushing. by rewrite Et. }
  split.
  - intros x y Hx%Hf Hy%Hf. eauto.
  - change (if t_ackPending t1 then
      (∃ d, t_ackTimer t1 = Some d ∧ d ≤ t_now t1 + ackCoalesceWindow ∧ ∀ x, ¬ flushing (t_set tid th' t1) x) ∨
      (t_ackTimer t1 = None ∧ ∃ x, flushing (t_set tid th' t1) x) ∨
      (t_closed t1 = true ∧ t_ackTimer t1 = None ∧ ∀ x, ¬ flushing (t_set tid th' t1) x)
      else t_ackTimer t1 = None ∧ ∀ x, ¬ flushing (t_set tid th' t1) x).
    assert ((∀ x, ¬ flushing t x) → ∀ x, ¬ flushing (t_set tid th' t1) x) as Hnf by (intros Hx x Hy%Hf; by apply (Hx x)).
    rewrite E1, E2, E3. destruct (t_ackPending t); [|destruct Ha; auto].
    destruct Ha as [(d & ? & ? & ?)|[(? & x & Hx%Hf)|(? & ? & ?)]]; eauto 8.
Qed.

Lemma thresholds_move t t1 tid th th' :
  thresholds_ok t → t_threads t !! tid = Some th → t_threads t1 = t_threads t → errs t1 = errs t →
  (∀ who, th ≠ ThClose who CEnter) → thresholds_ok (t_set tid th' t1).
Proof.
  unfold errs. intros Ht Hth Et [= E1 E2 E3 E4] Hn Hc. cbn in *. rewrite E1, E2, E3.
  assert (∀ who, about_to_close t who → about_to_close (t_set tid th' t1) who) as Hp.
  { intros who [x Hx]. exists x. cbn. rewrite Et, lookup_insert_ne; [done|]. intros <-. by destruct (Hn who); simplify_eq. }
  rewrite E4 in Hc. destruct (Ht Hc) as (H1 & H2 & H3). split_and!; auto.
Qed.

Lemma t_send_health ok b t t1 r : t_send ok b t = (t1, r) → acks t1 = acks t ∧ errs t1 = errs t ∧ t_threads t1 = t_threads t.
Proof. intros Es. apply t_send_frame in Es as (s & k & ->). done. Qed.

Lemma Dial_step_health tid ch port pc t t1 pc1 :
  Dial_step tid ch port pc t = Some (t1, pc1) → acks t1 = acks t ∧ errs t1 = errs t.
Proof.
  intros E. destruct pc; cbn in E; try done; try apply bind_Some in E as (? & ? & E);
    try (by repeat case_match; simplify_eq).
  - destruct (t_send _ _ t) as [t2 ok] eqn:Es. apply t_send_health in Es as (? & ? & ?). by injection E as <- <-.
  - destruct ch; try done; [by repeat case_match; simplify_eq| |by repeat case_match; simplify_eq].
    apply bind_Some in E as (n & Hn & E). by case_decide; simplify_eq.
Qed.

Lemma ConnClose_step_health ch r pc t t1 pc1 :
  ConnClose_step ch r pc t = Some (t1, pc1) → acks t1 = acks t ∧ errs t1 = errs t.
Proof.
  intros E. apply bind_Some in E as (c & Hc & E). destruct pc; try done; try (by repeat case_match; simplify_eq).
  destruct (t_send _ _ t) as [t2 ok] eqn:Es. apply t_send_health in Es as (? & ? & ?). by injection E as <- <-.
Qed.

Definition health_ok (t : Tunnel) : Prop := ack_ok t ∧ thresholds_ok t.

(** A step that leaves the counters and the acknowledgement state alone. *)
Lemma health_move t t1 tid th th' :
  health_ok t → t_threads t !! tid = Some th → t_threads t1 = t_threads t → acks t1 = acks t → errs t1 = errs t →
  in_flush th' = in_flush th → (∀ who, th ≠ ThClose who CEnter) → health_ok (t_set tid th' t1).
Proof.
  intros [Ha Ht] Hth Et Ea Ee Hn Hc. split.
  - unfold acks in Ea. injection Ea as E1 E2 E3 E4. eapply ack_ok_move; eauto; congruence.
  - by eapply thresholds_move.
Qed.

Lemma Close_step_health t tid who ch pc t1 pc1 :
  t_inv t → health_ok t → t_threads t !! tid = Some (ThClose who pc) → Close_step tid ch pc t = Some (t1, pc1) →
  health_ok (t_set tid (ThClose who pc1) t1).
Proof.
  intros Hinv Hh Hth E. destruct pc as [| | |realms todo|todo| |cb|]; cbn in E; [..|done].
  - case_decide; [|done]. destruct Hh as [Ha Ht].
    destruct (t_closed t) eqn:Hc; injection E as <- <-; (split; [eapply ack_ok_move; [exact Ha|exact Hth|done..]|]);
      intros Hx; cbn in Hx; congruence.
  - case_decide; [|done]. injection E as <- <-. destruct Hh as [[Hu Ha] Ht].
    destruct (i_flags _ Hinv) as (_ & F2 & _). destruct (i_local _ Hinv _ _ Hth) as (_ & _ & Hcl & _).
    assert (t_closed t = true) as Hc by (apply F2; eauto).
    split; [|intros Hx; cbn in Hx; congruence].
    assert (∀ x, flushing (t_set tid (ThClose who CSwap) (t <| t_ackTimer := None |>)) x ↔ flushing t x) as Hf.
    { intros x. by rewrite (flushing_same _ tid (ThClose who CAckTimer)). }
    assert ((∀ x, ¬ flushing t x) → ∀ x, ¬ flushing (t_set tid (ThClose who CSwap) (t <| t_ackTimer := None |>)) x) as Hnf
      by (intros Hx x Hy%Hf; by apply (Hx x)).
    split; [intros x y Hx%Hf Hy%Hf; eauto|]. cbn -[flushing].
    destruct (t_ackPending t); [|destruct Ha; auto].
    destruct Ha as [(d & ? & ? & ?)|[(? & x & Hx%Hf)|(? & ? & ?)]]; eauto 8.
  - injection E as <- <-. by eapply health_move.
  - case_decide; [injection E as <- <-; by eapply health_move|]. destruct ch; try done.
    apply bind_Some in E as (r & Hr & E). injection E as <- <-. by eapply health_move.
  - case_decide; [injection E as <- <-; by eapply health_move|]. destruct ch; try done.
    apply bind_Some in E as (r & Hr & E). injection E as <- <-.
    destruct (t_send_fst ok (NewStatusBody id StatusDisconnect) t) as (s & k & ->). by eapply health_move.
  - injection E as <- <-. by eapply health_move.
  - destruct cb; injection E as <- <-; by eapply health_move.
Qed.

(** A step that only changes error counters: ours is within its bound, or its
    [Close] has been called. *)
Lemma health_count t t1 tid th th' who :
  health_ok t → t_threads t !! tid = Some th → t_threads t1 = t_threads t → acks t1 = acks t →
  in_flush th' = in_flush th → (∀ who, th ≠ ThClose who CEnter) →
  (th' = ThClose who CEnter ∨
   (who = ByReader → t_consecutiveReadErrs t1 < maxConsecutiveReadErrors) ∧
   (who = ByHeartbeat → t_missedHeartbeats t1 ≤ maxMissedHeartbeats) ∧ who ≠ ByFlush) →
  (who ≠ ByReader → t_consecutiveReadErrs t1 = t_consecutiveReadErrs t) →
  (who ≠ ByHeartbeat → t_missedHeartbeats t1 = t_missedHeartbeats t) →
  t_consecutiveSendErrs t1 = t_consecutiveSendErrs t → who ≠ ByFlush →
  health_ok (t_set tid th' t1).
Proof.
  intros [Ha Ht] Hth Et Ea Hn Hc Hwho E1 E2 E3 Hnf. unfold acks in Ea. injection Ea as A1 A2 A3 A4. split.
  - eapply ack_ok_move; eauto; congruence.
  - intros Hopen. cbn in Hopen. rewrite A4 in Hopen. destruct (Ht Hopen) as (H1 & H2 & H3).
    assert (∀ w, about_to_close t w → about_to_close (t_set tid th' t1) w) as Hp.
    { intros w [x Hx]. exists x. cbn. rewrite Et, lookup_insert_ne; [done|]. intros <-. by destruct (Hc w); simplify_eq. }
    assert (th' = ThClose who CEnter → about_to_close (t_set tid th' t1) who) as Hself.
    { intros ->. exists tid. cbn. by rewrite lookup_insert_eq. }
    cbn -[about_to_close]. rewrite E3. split_and!; [| |by auto].
    + destruct who; try (rewrite E1 by done; by auto). intros Hx. destruct Hwho as [?|(? & _)]; [by auto|].
      specialize (H eq_refl). lia.
    + destruct who; try (rewrite E2 by done; by auto). intros Hx. destruct Hwho as [?|(_ & ? & _)]; [by auto|].
      specialize (H eq_refl). lia.
Qed.

Lemma scheduleACK_health t tid th t1 :
  health_ok t → t_threads t !! tid = Some th → in_flush th = false → (∀ who, th ≠ ThClose who CEnter) →
  scheduleACK t = Some t1 → health_ok (t_set tid (ThReader RdTop) t1).
Proof.
  intros Hh Hth Hn Hc E. unfold scheduleACK in E. case_decide; [|done]. injection E as <-.
  destruct (t_ackPending t) eqn:Ep; [by eapply health_move|].
  destruct Hh as [[Hu Ha] Ht]. rewrite Ep in Ha. destruct Ha as [Htm Hnf]. split.
  - assert (∀ x, ¬ flushing (t_set tid (ThReader RdTop) (t <| t_ackPending := true |>
      <| t_ackTimer := Some (t_now t + ackCoalesceWindow) |>)) x) as Hf.
    { intros x. rewrite (flushing_same _ tid th) by done. apply Hnf. }
    split; [intros x y Hx; by destruct (Hf x)|]. cbn -[flushing]. left. eexists. split; [done|]. split; [lia|done].
  - by eapply (thresholds_move t).
Qed.

Lemma reader_step_health t tid ch pc t1 pc1 :
  health_ok t → t_threads t !! tid = Some (ThReader pc) → reader_step ch pc t = Some (t1, pc1) →
  health_ok (t_set tid (call_close ByReader ThReader pc1) t1).
Proof.
  intros Hh Hth E. pose proof (reader_step_meta _ _ _ _ _ E) as [= _ _ _ _ Et _ _].
  destruct pc as [| | |p|p|p| |r|realm r data|realm r|realm r|realm| |]; cbn in E; [..|done].
  - injection E as <- <-. by eapply health_move.
  - destruct ch; try done; [|injection E as <- <-; by eapply health_move..].
    destruct (t_sockClosed t); [done|].
    destruct (ParsePacket data); injection E as <- <-; (eapply (health_count t _ tid _ _ ByReader); try done; right; by split_and!).
  - destruct (t_done t); [injection E as <- <-; by eapply health_move|]. injection E as <- <-.
    eapply (health_count t _ tid _ _ ByReader); try done; case_decide as Hd; try done; [by left|right].
    split_and!; try done. cbn in *. lia.
  - injection E as <- <-. eapply (health_count t _ tid _ _ ByHeartbeat); try done. right. by split_and!.
  - injection E as <- <-. by eapply health_move.
  - apply bind_Some in E as ([t2 pc2] & E & [= <- <-]). cbn.
    assert (acks t2 = acks t ∧ errs t2 = errs t) as [Ea Ee]; [|by eapply health_move].
    unfold dispatch in E. destruct (BType (PBody p)); try (by repeat case_match; simplify_eq).
    case_decide; [|by repeat case_match; simplify_eq]. destruct (t_connCh t !! _); [|by simplify_eq].
    apply bind_Some in E as (n' & Hn & E). by case_decide; simplify_eq.
  - injection E as <- <-. destruct (t_send_fst (negb (is_fail ch)) NewSyncBody t) as (s & k & ->). by eapply health_move.
  - injection E as <- <-. by eapply health_move.
  - apply bind_Some in E as (c & Hc & E). case_decide; injection E as <- <-; by eapply health_move.
  - injection E as <- <-. by eapply health_move.
  - injection E as <- <-. by eapply health_move.
  - injection E as <- <-.
    destruct (t_send_fst (negb (is_fail ch)) (NewStatusBody realm StatusDisconnect) t) as (s & k & ->). by eapply health_move.
  - apply bind_Some in E as (t2 & Es & [= <- <-]). by eapply scheduleACK_health.
Qed.

Lemma heartbeat_step_health t tid ch pc t1 pc1 :
  health_ok t → t_threads t !! tid = Some (ThHeartbeat pc) → heartbeat_step ch pc t = Some (t1, pc1) →
  health_ok (t_set tid (call_close ByHeartbeat ThHeartbeat pc1) t1).
Proof.
  intros Hh Hth E. destruct pc; cbn in E; try done.
  - destruct ch; try done; case_match; try done; injection E as <- <-; by eapply health_move.
  - case_decide; [|done]. injection E as <- <-. by eapply health_move.
  - injection E as <- <-. eapply (health_count t _ tid _ _ ByHeartbeat); try done; case_decide as Hd; try done; [by left|right].
    split_and!; try done. cbn in *. lia.
  - injection E as <- <-. destruct (t_send_fst (negb (is_fail ch)) NewHeartbeatBody t) as (s & k & ->). by eapply health_move.
  - unfold outboundStalled in E.
    case_decide; [injection E as <- <-; by eapply health_move|].
    case_decide; [injection E as <- <-; by eapply health_move|].
    destruct (t_lastDrainTime t) as [since|]; injection E as <- <-; [|by eapply health_move].
    destruct (bool_decide _); by eapply health_move.
Qed.

Lemma flushACK_health t tid ch pc t1 pc1 :
  health_ok t → t_threads t !! tid = Some (ThFlush pc) → flushACK tid ch pc t = Some (t1, pc1) →
  health_ok (t_set tid (call_close ByFlush ThFlush pc1) t1).
Proof.
  intros Hh Hth E. destruct pc as [| |ok|]; cbn in E; [..|done].
  { case_decide; [|done]. injection E as <- <-. by eapply health_move. }
  { destruct (t_send _ _ t) as [t2 ok] eqn:Es. apply t_send_frame in Es as (s & k & ->). injection E as <- <-. by eapply health_move. }
  destruct Hh as [[Hu Ha] Ht]. injection E as <- <-. set (errs1 := if ok then 0 else _). set (pc1 := if ok then inl FlDone else _).
  assert (flushing t tid) as Hme by (by exists (ThFlush (FlCount ok))).
  assert (t_ackTimer t = None) as Htm.
  { destruct (t_ackPending t); [|apply Ha]. destruct Ha as [(? & _ & _ & Hn)|[[? _]|(_ & ? & _)]]; try done.
    by destruct (Hn tid). }
  assert (in_flush (call_close ByFlush ThFlush pc1) = false) as Hout by (unfold pc1; repeat case_match; done).
  split.
  - match goal with |- ack_ok ?st => assert (∀ x, ¬ flushing st x) as Hf end.
    { intros x. rewrite flushing_set, Hout. intros [[_ ?]|[Hne Hx]]; [done|]. by destruct Hne, (Hu x tid). }
    split; [intros x y Hx; by destruct (Hf x)|]. by split.
  - intros Hopen. cbn in Hopen. destruct (Ht Hopen) as (H1 & H2 & _).
    assert (∀ w, about_to_close t w → about_to_close (t_set tid (call_close ByFlush ThFlush pc1) t) w) as Hp.
    { intros w [x Hx]. exists x. cbn. rewrite lookup_insert_ne; [done|]. intros <-. congruence. }
    split_and!; cbn -[about_to_close].
    + intros Hx. destruct (Hp ByReader (H1 Hx)) as [x Hx']. exists x. exact Hx'.
    + intros Hx. destruct (Hp ByHeartbeat (H2 Hx)) as [x Hx']. exists x. exact Hx'.
    + intros Hx. exists tid. cbn. rewrite lookup_insert_eq. unfold pc1, errs1 in *. destruct ok; [done|].
      by rewrite decide_True.
Qed.

Lemma frame_step_health ch r data pc t t1 pc1 :
  frame_step ch r data pc t = Some (t1, pc1) → acks t1 = acks t ∧ errs t1 = errs t.
Proof.
  intros E. destruct pc; cbn in E; [|done]. apply bind_Some in E as (c & Hc & E). injection E as <- <-.
  case_match; [done|]. by destruct (t_send_fst (negb (is_fail ch)) (NewPayloadBody (c_realmID c) data) t) as (s & k & ->).
Qed.

Lemma spawn_health t tid th t1 :
  health_ok t → spawn tid th t = Some t1 → in_flush th = false → health_ok t1.
Proof.
  unfold spawn. intros [[Hu Ha] Ht] E Hn. case_decide as Hnew; [|done]. injection E as <-.
  assert (∀ x, flushing (t_set tid th t) x ↔ flushing t x) as Hf.
  { intros x. rewrite flushing_set, Hn. split; [by intros [[_ ?]|[_ ?]]|]. intros Hx. right. split; [|done].
    intros ->. destruct Hx as (? & ? & _). congruence. }
  assert ((∀ x, ¬ flushing t x) → ∀ x, ¬ flushing (t_set tid th t) x) as Hnf by (intros Hx x Hy%Hf; by apply (Hx x)).
  split.
  - split; [intros x y Hx%Hf Hy%Hf; eauto|]. cbn -[flushing]. destruct (t_ackPending t); [|destruct Ha; auto].
    destruct Ha as [(d & ? & ? & ?)|[(? & x & Hx%Hf)|(? & ? & ?)]]; eauto 8.
  - intros Hopen. destruct (Ht Hopen) as (H1 & H2 & H3).
    assert (∀ w, about_to_close t w → about_to_close (t_set tid th t) w) as Hp.
    { intros w [x Hx]. exists x. cbn. rewrite lookup_insert_ne; congruence. }
    split_and!; cbn -[about_to_close]; auto.
Qed.

(** The timer of [scheduleACK] fires. *)
Lemma ack_timer_health t tid d t1 :
  health_ok t → t_ackTimer t = Some d → spawn tid (ThFlush FlLock) (t <| t_ackTimer := None |>) = Some t1 → health_ok t1.
Proof.
  unfold spawn. intros [[Hu Ha] Ht] Hd E. case_decide as Hnew; [|done]. injection E as <-. cbn in Hnew.
  assert (t_ackPending t = true ∧ ∀ x, ¬ flushing t x) as [Hp Hnf].
  { destruct (t_ackPending t); [|destruct Ha; congruence]. split; [done|].
    destruct Ha as [(? & _ & _ & ?)|[[? _]|(_ & ? & _)]]; [done|congruence..]. }
  split.
  - match goal with |- ack_ok ?st => assert (∀ x, flushing st x ↔ x = tid) as Hf end.
    { intros x. rewrite flushing_set. split; [|by auto]. intros [[? _]|[_ Hx]]; [done|]. by destruct (Hnf x). }
    split; [intros x y ->%Hf ->%Hf; done|]. cbn -[flushing]. rewrite Hp. right. left. split; [done|].
    exists tid. by apply Hf.
  - intros Hopen. destruct (Ht Hopen) as (H1 & H2 & H3).
    assert (∀ w, about_to_close t w → about_to_close (t_set tid (ThFlush FlLock) (t <| t_ackTimer := None |>)) w) as Hpp.
    { intros w [x Hx]. exists x. cbn. rewrite lookup_insert_ne; congruence. }
    split_and!; cbn -[about_to_close]; auto.
Qed.

Lemma t_go_health t tid ch th t1 :
  t_inv t → health_ok t → t_threads t !! tid = Some th → t_go tid ch th t = Some t1 → health_ok t1.
Proof.
  intros Hinv Hh Hth E. destruct th as [port pc|r pc|who pc|pc|pc|pc|r data pc].
  - apply bind_Some in E as ([t2 pc2] & E & [= <-]). pose proof (Dial_step_meta _ _ _ _ _ _ _ E) as [= _ _ _ _ Et _ _].
    apply Dial_step_health in E as [? ?]. by eapply health_move.
  - apply bind_Some in E as ([t2 pc2] & E & [= <-]). pose proof (ConnClose_step_meta _ _ _ _ _ _ E) as [= _ _ _ _ Et _ _].
    apply ConnClose_step_health in E as [? ?]. by eapply health_move.
  - assert (pc = CRet ∨ pc ≠ CRet) as [->|Hne] by (destruct pc; by auto).
    + destruct who; try done; injection E as <-; by eapply health_move.
    + assert (∃ t2 pc2, Close_step tid ch pc t = Some (t2, pc2) ∧ t1 = t_set tid (ThClose who pc2) t2) as (t2 & pc2 & Es & ->).
      { destruct pc; try done; apply bind_Some in E as ([t2 pc2] & E & [= <-]); eauto. }
      by eapply Close_step_health.
  - apply bind_Some in E as ([t2 pc2] & E & [= <-]). by eapply reader_step_health.
  - apply bind_Some in E as ([t2 pc2] & E & [= <-]). by eapply heartbeat_step_health.
  - apply bind_Some in E as ([t2 pc2] & E & [= <-]). by eapply flushACK_health.
  - apply bind_Some in E as ([t2 pc2] & E & [= <-]). pose proof (frame_step_meta _ _ _ _ _ _ _ E) as [= _ _ _ _ Et _ _].
    apply frame_step_health in E as [? ?]. by eapply health_move.
Qed.

Lemma t_thread_health t tid ch t1 : t_inv t → health_ok t → t_thread tid ch t = Some t1 → health_ok t1.
Proof.
  intros Hinv Hh. apply t_thread_keeps; [done| | |done].
  - intros th t2 Hth. by apply t_go_health.
  - intros r data Hth. by eapply health_move.
Qed.

Lemma t_step_health ev t t1 : t_inv t → health_ok t → t_step ev t = Some t1 → health_ok t1.
Proof.
  intros Hinv Hh E. destruct ev as [tid ch|tid port|tid r|tid|tid r data|tid|r| |fn|d]; cbn in E.
  - by eapply t_thread_health.
  - by eapply spawn_health.
  - case_decide; [|done]. by eapply spawn_health.
  - by eapply spawn_health.
  - case_decide; [|done]. by eapply spawn_health.
  - apply bind_Some in E as (d & Hd & E). case_decide; [|done]. by eapply ack_timer_health.
  - apply bind_Some in E as (c & Hc & [= <-]). exact Hh.
  - unfold Retire in E. case_decide; [|done]. injection E as <-. exact Hh.
  - unfold SetOnClose in E. case_decide; [|done]. case_match; injection E as <-; exact Hh.
  - case_decide; [|done]. injection E as <-. destruct Hh as [[Hu Ha] Ht]. split; [|exact Ht].
    split; [exact Hu|]. cbn. destruct (t_ackPending t); [|done].
    destruct Ha as [(x & ? & ? & ?)|?]; [left|by right]. exists x. split_and!; try done. lia.
Qed.

Lemma t_reachable_health s now t : t_reachable s now t → health_ok t.
Proof.
  intros [evs Hr]. assert (health_ok (New s now)) as Hs.
  { assert (∀ x, ¬ flushing (New s now) x) as Hn.
    { intros x (th & Hl & Hx). cbn in Hl. apply lookup_insert_Some in Hl as [[_ <-]|[_ Hl]]; [done|].
      by apply lookup_singleton_Some in Hl as [_ <-]. }
    split; [split; [intros x y Hx; by destruct (Hn x)|by split]|]. intros _. cbn.
    unfold maxConsecutiveReadErrors, maxMissedHeartbeats, maxConsecutiveSendErrors. split_and!; lia. }
  pose proof (New_inv s now) as Hinv. revert Hinv Hs Hr. generalize (New s now).
  induction evs as [|ev evs IH]; intros t0 Hinv Hs Hr; cbn in Hr; [by simplify_eq|].
  apply bind_Some in Hr as (t' & Ht & Hr). eauto using t_step_inv, t_step_health.
Qed.

(** C37. Acknowledgements are coalesced, flushes do not overlap, and none is
    lost while the tunnel is open.  In every interleaving, the sends of the flushes and
    the waits for [ackMu] and the permit included: at most one [flushACK] has been
    started and has not come to its end; [ackPending] stays set until it has sent and
    counted the outcome; while an acknowledgement is owed on an open tunnel, either its
    timer is armed to fire within 20 ms and no flush is under way, or the one flush that
    is under way will send it; when none is owed, no timer is armed and no flush is under
    way; and [ackMu] is held by a flush that has still to clear [ackPending]. *)
Theorem ack_never_lost s now t :
  t_reachable s now t →
  (∀ t1 t2, flushing t t1 → flushing t t2 → t1 = t2) ∧
  (t_ackPending t = true → t_closed t = false →
     (∃ d, t_ackTimer t = Some d ∧ d ≤ t_now t + 20 ∧ ∀ tid, ¬ flushing t tid) ∨
     (t_ackTimer t = None ∧ ∃ tid, flushing t tid)) ∧
  (t_ackPending t = false → t_ackTimer t = None ∧ ∀ tid, ¬ flushing t tid) ∧
  (∀ tid, t_ackMu t = Some tid → flushing t tid ∧ t_ackPending t = true).
Proof.
  intros Hr. pose proof (t_reachable_health _ _ _ Hr) as [[Hu Ha] _]. split_and!; [exact Hu|..].
  - intros Hp Hc. rewrite Hp in Ha. destruct Ha as [?|[?|(? & _)]]; [by left|by right|congruence].
  - intros Hp. by rewrite Hp in Ha.
  - intros tid (th & Hth & Hm)%(h_ackMu _ (t_reachable_held _ _ _ Hr)).
    assert (flushing t tid) as Hf by (exists th; split; [done|]; by destruct th as [| | | | |[]|]). split; [done|].
    destruct (t_ackPending t); [done|]. destruct Ha as [_ Ha]. by destruct (Ha tid).
Qed.

(** C38. An open tunnel is within its error budgets: whenever a tunnel
    that is not closed has seen 10 read errors in a row, 25 heartbeats without a
    packet, or 5 failed acknowledgements in a row, the goroutine that counted the
    last one has called [Close]. *)
Theorem thresholds_close s now t :
  t_reachable s now t → t_closed t = false →
  (10 ≤ t_consecutiveReadErrs t → ∃ tid, t_threads t !! tid = Some (ThClose ByReader CEnter)) ∧
  (25 ≤ t_missedHeartbeats t → ∃ tid, t_threads t !! tid = Some (ThClose ByHeartbeat CEnter)) ∧
  (5 ≤ t_consecutiveSendErrs t → ∃ tid, t_threads t !! tid = Some (ThClose ByFlush CEnter)).
Proof.
  intros [_ Ht]%t_reachable_health Hc. destruct (Ht Hc) as (H1 & H2 & H3).
  split_and!; [exact H1| |exact H3]. intros Hx. apply H2. unfold maxMissedHeartbeats. lia.
Qed.

(** ** Witnesses *)

(** A heartbeat of the device is received; its acknowledgement is owed. *)
Definition demo_owed : list TEvent := demo_recv NewHeartbeatBody 1.

Lemma ack_never_lost_witness :
  t_ackTimer (demo_state demo_owed) = Some 20 ∧
  ((∃ d, t_ackTimer (demo_state demo_owed) = Some d ∧ d ≤ t_now (demo_state demo_owed) + 20 ∧
      ∀ tid, ¬ flushing (demo_state demo_owed) tid) ∨
   (t_ackTimer (demo_state demo_owed) = None ∧ ∃ tid, flushing (demo_state demo_owed) tid)).
Proof.
  split; [vm_compute; reflexivity|].
  apply (ack_never_lost NewSession 0 (demo_state demo_owed)).
  - exists demo_owed. vm_compute. reflexivity.
  - vm_compute. reflexivity.
  - vm_compute. reflexivity.
Defined.

(** Ten read errors in a row. *)
Definition demo_errors : list TEvent :=
  TvRun 0 <$> concat (replicate 10 [TGo; TReadErr; TGo]).

Lemma thresholds_close_witness :
  t_consecutiveReadErrs (demo_state demo_errors) = 10 ∧
  ∃ tid, t_threads (demo_state demo_errors) !! tid = Some (ThClose ByReader CEnter).
Proof.
  split; [vm_compute; reflexivity|].
  apply (thresholds_close NewSession 0 (demo_state demo_errors)).
  - exists demo_errors. vm_compute. reflexivity.
  - vm_compute. reflexivity.
  - vm_compute. discriminate.
Defined.
