(* ===== verification/TunnelApi.v ===== *)
(** * What the session manager relies on in a tunnel

    The manager of [src/dahua.go] holds tunnels and looks at two things only:
    [IsClosed] and [IsRetired].  [TunnelApi] states what it may assume of them
    whatever else happens inside a tunnel; the instance shows that the tunnels of
    [TunnelState] keep it. *)

From Stdlib Require Import ZArith Lia Strings.Byte.
From S2P Require Import Prelude GoStrings PtcpTypes PtcpSession SendPath ConnRead TunnelState TunnelRealms.

Class TunnelApi (T A : Type) := {
  tn_closed : T → bool;          (* IsClosed *)
  tn_retired : T → bool;         (* IsRetired *)
  tn_act : A → T → option T;     (* anything that happens to the tunnel *)
  tn_closed_stays : ∀ a t t', tn_act a t = Some t' → tn_closed t = true → tn_closed t' = true;
  tn_retired_stays : ∀ a t t', tn_act a t = Some t' → tn_retired t = true → tn_retired t' = true;
  tn_closed_retired : ∀ t, tn_closed t = true → tn_retired t = true }.

Definition shut (t : Tunnel) := (t_closed t, t_retired t).

(** What only [Dial], [Close] and [Retire] change. *)
Definition steady (t : Tunnel) := (shut t, t_bindFailures t).

Lemma steady_shut t t1 : steady t1 = steady t → shut t1 = shut t.
Proof. unfold steady. congruence. Qed.

Lemma steady_failures t t1 : steady t1 = steady t → t_bindFailures t1 = t_bindFailures t.
Proof. unfold steady. congruence. Qed.

Lemma t_send_steady ok b t : steady (t_send ok b t).1 = steady t.
Proof. by destruct (t_send_fst ok b t) as (s & k & ->). Qed.

Lemma Dial_step_shut tid ch port pc t t1 pc1 : Dial_step tid ch port pc t = Some (t1, pc1) → shut t1 = shut t.
Proof.
  intros E. destruct pc; cbn in E; try done; try apply bind_Some in E as (? & ? & E);
    try (by repeat case_match; simplify_eq).
  - destruct (t_send _ _ t) as [t2 ok] eqn:Es. apply t_send_frame in Es as (s & k & ->). by simplify_eq.
  - destruct ch; try done; [by repeat case_match; simplify_eq| |by repeat case_match; simplify_eq].
    apply bind_Some in E as (n & Hn & E). by case_decide; simplify_eq.
Qed.

Lemma ConnClose_step_steady ch r pc t t1 pc1 : ConnClose_step ch r pc t = Some (t1, pc1) → steady t1 = steady t.
Proof.
  intros E. apply bind_Some in E as (c & Hc & E). destruct pc; try done; try (by repeat case_match; simplify_eq).
  destruct (t_send _ _ t) as [t2 ok] eqn:Es. apply t_send_frame in Es as (s & k & ->). by simplify_eq.
Qed.

Lemma reader_step_steady ch pc t t1 pc1 : reader_step ch pc t = Some (t1, pc1) → steady t1 = steady t.
Proof.
  intros E. destruct pc; cbn in E; try done; try (by repeat case_match; simplify_eq).
  - apply bind_Some in E as ([t2 pc2] & E & [= <- <-]). unfold dispatch in E.
    destruct (BType (PBody p)); try (by repeat case_match; simplify_eq).
    case_decide; [|by repeat case_match; simplify_eq].
    destruct (t_connCh t !! _); [|by simplify_eq]. apply bind_Some in E as (n' & Hn & E).
    by case_decide; simplify_eq.
  - simplify_eq. apply t_send_steady.
  - apply bind_Some in E as (c & Hc & E). by case_decide; simplify_eq.
  - simplify_eq. apply t_send_steady.
  - apply bind_Some in E as (t2 & Es & [= <- <-]). unfold scheduleACK in Es. case_decide; simplify_eq. by case_match.
Qed.

Lemma heartbeat_step_steady ch pc t t1 pc1 : heartbeat_step ch pc t = Some (t1, pc1) → steady t1 = steady t.
Proof.
  intros E. destruct pc; cbn in E; try done; try (by repeat case_match; simplify_eq).
  - simplify_eq. apply t_send_steady.
  - unfold outboundStalled in E. destruct (t_lastDrainTime t); by repeat case_decide; simplify_eq.
Qed.

Lemma flushACK_steady tid ch pc t t1 pc1 : flushACK tid ch pc t = Some (t1, pc1) → steady t1 = steady t.
Proof.
  intros E. destruct pc; cbn in E; try (by repeat case_match; simplify_eq).
  pose proof (t_send_steady (negb (is_fail ch)) NewEmptyBody t) as Hs. destruct (t_send _ _ t) as [t2 ok]. injection E as <- <-. exact Hs.
Qed.

Lemma frame_step_steady ch r data pc t t1 pc1 : frame_step ch r data pc t = Some (t1, pc1) → steady t1 = steady t.
Proof.
  intros E. destruct pc; [|done]. apply bind_Some in E as (c & _ & [= <- <-]). case_match; [done|apply t_send_steady].
Qed.

Lemma Close_step_shut tid ch pc t t1 pc1 :
  Close_step tid ch pc t = Some (t1, pc1) → t_retired t1 = t_retired t ∧ t_bindFailures t1 = t_bindFailures t ∧ (t_closed t = true → t_closed t1 = true).
Proof.
  intros E. destruct pc as [| | |realms todo|todo| |cb|]; cbn in E; try done; try (by repeat case_match; simplify_eq).
  - case_decide; [by simplify_eq|]. destruct ch; try done. apply bind_Some in E as (r & Hr & E). by simplify_eq.
  - case_decide; [by simplify_eq|]. destruct ch; try done. apply bind_Some in E as (r & Hr & E). simplify_eq.
    by destruct (t_send_fst ok (NewStatusBody id StatusDisconnect) t) as (s & k & ->).
Qed.

Lemma t_go_shut tid ch th t t1 :
  t_go tid ch th t = Some t1 → (t_closed t = true → t_closed t1 = true) ∧ (t_retired t = true → t_retired t1 = true).
Proof.
  assert (∀ t2, shut t2 = shut t → (t_closed t = true → t_closed t2 = true) ∧ (t_retired t = true → t_retired t2 = true)) as Hs.
  { unfold shut. intros t2 [= -> ->]. done. }
  intros E. destruct th as [port pc|r pc|who pc|pc|pc|pc|r data pc].
  3: { destruct pc; try (apply bind_Some in E as ([t2 pc2] & E & [= <-]); apply Close_step_shut in E as (E1 & _ & E2);
        split; [exact E2|cbn; congruence]). by destruct who; cbn in E; simplify_eq. }
  all: apply bind_Some in E as ([t2 pc2] & E & [= <-]); apply Hs.
  - exact (Dial_step_shut _ _ _ _ _ _ _ E).
  - exact (steady_shut _ _ (ConnClose_step_steady _ _ _ _ _ _ E)).
  - exact (steady_shut _ _ (reader_step_steady _ _ _ _ _ E)).
  - exact (steady_shut _ _ (heartbeat_step_steady _ _ _ _ _ E)).
  - exact (steady_shut _ _ (flushACK_steady _ _ _ _ _ _ E)).
  - exact (steady_shut _ _ (frame_step_steady _ _ _ _ _ _ _ E)).
Qed.

(** No step of a tunnel reopens it or takes its retirement back. *)
Lemma t_step_shut ev t t1 :
  t_step ev t = Some t1 →
  (t_closed t = true → t_closed t1 = true) ∧ (t_retired t = true → t_retired t1 = true).
Proof.
  intros E. destruct ev as [tid ch|tid port|tid r|tid|tid r data|tid|r| |fn|d]; cbn in E;
    try (unfold spawn, Retire, SetOnClose in E; repeat case_decide; repeat case_match; by simplify_eq).
  - pattern t1. eapply t_thread_keeps; [| | | |exact E]; try done. intros th t2 _. apply t_go_shut.
  - apply bind_Some in E as (d & Hd & E). unfold spawn in E. repeat case_decide; by simplify_eq.
  - apply bind_Some in E as (c & Hc & E). by simplify_eq.
Qed.

#[export] Program Instance Tunnel_api : TunnelApi Tunnel TEvent := {|
  tn_closed := t_closed; tn_retired := IsRetired; tn_act := t_step |}.
Next Obligation. intros a t t' E%t_step_shut Hc. by apply E. Qed.
Next Obligation.
  intros a t t' E%t_step_shut. unfold IsRetired. rewrite !orb_true_iff. destruct E as [E1 E2]. intros [H|H]; auto.
Qed.
Next Obligation. intros t Hc. unfold IsRetired. rewrite Hc. apply orb_true_r. Qed.
