(* ===== verification/Client.v ===== *)
(** * [Client.Dial]: giving up on a tunnel

    [src/dahua.go], lines 157-223.  A client's [Dial] runs the tunnel's and decides,
    when the device did not grant the realm, whether to close the tunnel, to retire it
    or to leave it.  The system runs any number of such calls against a tunnel of
    [TunnelState] and everything else that happens to it; call [tid] runs the tunnel's
    [Dial] as thread [tid]. *)

From Stdlib Require Import ZArith Lia Strings.Byte.
From S2P Require Import Prelude GoStrings PtcpTypes PtcpSession SendPath ConnRead TunnelState TunnelRealms TunnelApi.

Definition deadTunnelSilence : Z := 12000.
Definition maxBindFailures : Z := 2.

Inductive CallPC :=
| CaDialing                        (* c.tunnel.Dial *)
| CaSilent                         (* IsResponsive(deadTunnelSilence) *)
| CaClose                          (* reportError, then Close is called *)
| CaClosing (k : nat)              (* Close runs, as thread k *)
| CaFails                          (* BindFailures() >= maxBindFailures *)
| CaReport                         (* the arguments of reportError *)
| CaRetire
| CaRet (res : DialError + nat).

(** One step of call [tid]; [k] is the thread of the [Close] it starts. *)
Definition Client_Dial_step (tid k : nat) (pc : CallPC) (t : Tunnel) : option (Tunnel * CallPC) :=
  match pc with
  | CaDialing =>
      match t_threads t !! tid with
      | Some (ThDial _ (DDone res)) =>
          Some (t, if decide (res = inl DialTimeout) then CaSilent else CaRet res)
      | _ => None
      end
  | CaSilent => Some (t, if IsResponsive deadTunnelSilence t then CaFails else CaClose)
  | CaClose => t ← spawn k (ThClose ByUser CEnter) t; Some (t, CaClosing k)
  | CaClosing k =>
      match t_threads t !! k with Some (ThClose _ CRet) => Some (t, CaRet (inl DialTimeout)) | _ => None end
  | CaFails =>
      n ← BindFailures t; Some (t, if decide (maxBindFailures ≤ n) then CaReport else CaRet (inl DialTimeout))
  | CaReport => _ ← BindFailures t; if decide (t_mu t = None) then Some (t, CaRetire) else None
  | CaRetire => t ← Retire t; Some (t, CaRet (inl DialTimeout))
  | CaRet _ => None
  end.

Record Sys := mkSys { y_t : Tunnel; y_calls : gmap nat CallPC }.

Inductive YEvent :=
| YvCall (tid : nat) (port : Z)    (* Client.Dial is called *)
| YvGo (tid k : nat)
| YvTunnel (ev : TEvent).          (* anything else; realms are dialled through the client only *)

Definition y_step (ev : YEvent) (y : Sys) : option Sys :=
  match ev with
  | YvCall tid port =>
      if decide (y_calls y !! tid = None) then
        t ← t_step (TvDial tid port) (y_t y); Some (mkSys t (<[tid := CaDialing]> (y_calls y)))
      else None
  | YvGo tid k =>
      pc ← y_calls y !! tid;
      '(t, pc) ← Client_Dial_step tid k pc (y_t y); Some (mkSys t (<[tid := pc]> (y_calls y)))
  | YvTunnel (TvDial _ _) => None
  | YvTunnel ev => t ← t_step ev (y_t y); Some (mkSys t (y_calls y))
  end.

Fixpoint y_run (evs : list YEvent) (y : Sys) : option Sys :=
  match evs with
  | [] => Some y
  | ev :: evs => y ← y_step ev y; y_run evs y
  end.

Definition y_reachable (s : Session) (now : Z) (y : Sys) : Prop :=
  ∃ evs, y_run evs (mkSys (New s now) ∅) = Some y.

(** ** What a step of the tunnel does to its threads *)

Definition timed_out (th : TThread) : bool :=
  match th with ThDial _ (DExit (inl DialTimeout) | DDone (inl DialTimeout)) => true | _ => false end.

Definition dial_returned (th : TThread) : bool := match th with ThDial _ (DDone _) => true | _ => false end.

(** The thread goes on as the same kind of call. *)
Definition same_call (th th' : TThread) : Prop :=
  match th, th' with
  | ThDial _ pc, ThDial _ pc' => (timed_out th = true → timed_out th' = true) ∧ (dial_returned th = true → th' = th)
  | ThDial _ _, _ | _, ThDial _ _ => False
  | ThClose ByUser pc, ThClose ByUser pc' => pc = CRet → pc' = CRet
  | ThClose ByUser _, _ => False
  | _, _ => True
  end.

Lemma same_call_refl th : same_call th th.
Proof. destruct th as [port pc|r pc|[] pc|pc|pc|pc|r data pc]; cbn; auto. Qed.

(** What a step changes, as far as a client looks at it. *)
Record moves (t t1 : Tunnel) : Prop := mkMoves {
  mv_threads : ∀ tid th, t_threads t !! tid = Some th → ∃ th', t_threads t1 !! tid = Some th' ∧ same_call th th';
  mv_new : ∀ tid th', t_threads t1 !! tid = Some th' → t_threads t !! tid = None → ∀ port pc, th' ≠ ThDial port pc;
  mv_failures : maxBindFailures ≤ t_bindFailures t1 → maxBindFailures ≤ t_bindFailures t ∨
    ∃ tid th th', t_threads t !! tid = Some th ∧ dial_returned th = false ∧
      t_threads t1 !! tid = Some th' ∧ timed_out th' = true }.

Lemma moves_thread t t1 tid th th' :
  t_threads t !! tid = Some th → t_threads t1 = t_threads t → same_call th th' →
  (maxBindFailures ≤ t_bindFailures t1 → maxBindFailures ≤ t_bindFailures t ∨ (dial_returned th = false ∧ timed_out th' = true)) →
  moves t (t_set tid th' t1).
Proof.
  intros Hth Et Hs Hb. constructor; cbn; rewrite Et.
  - intros tid' th0 H0. destruct (decide (tid = tid')) as [<-|Hne].
    + exists th'. rewrite lookup_insert_eq. split; [done|]. congruence.
    + exists th0. rewrite lookup_insert_ne by done. split; [done|apply same_call_refl].
  - intros tid' th0 [[<- <-]|[Hne H0]]%lookup_insert_Some; congruence.
  - intros Hf. destruct (Hb Hf) as [|[H1 H2]]; [by left|]. right. exists tid, th, th'. rewrite lookup_insert_eq. done.
Qed.

Lemma moves_quiet t t1 : t_threads t1 = t_threads t → t_bindFailures t1 = t_bindFailures t → moves t t1.
Proof.
  intros Et Eb. constructor; rewrite ?Et, ?Eb; [|congruence|by left].
  intros tid th Hth. exists th. split; [done|apply same_call_refl].
Qed.

Lemma moves_spawn t t0 t1 tid th : t_threads t0 = t_threads t → t_bindFailures t0 = t_bindFailures t →
  (∀ port pc, th ≠ ThDial port pc) → spawn tid th t0 = Some t1 → moves t t1.
Proof.
  unfold spawn. intros Et Eb Hth E. case_decide as Hn; [|done]. injection E as <-. rewrite Et in Hn.
  constructor; cbn; rewrite Et.
  - intros tid' th0 H0. exists th0. rewrite lookup_insert_ne by congruence. split; [done|apply same_call_refl].
  - intros tid' th0 [[<- <-]|[Hne H0]]%lookup_insert_Some Hno; [done|congruence].
  - rewrite Eb. by left.
Qed.

Lemma Dial_step_failures tid ch port pc t t1 pc1 : Dial_step tid ch port pc t = Some (t1, pc1) →
  same_call (ThDial port pc) (ThDial port pc1) ∧ dial_returned (ThDial port pc) = false ∧
  (maxBindFailures ≤ t_bindFailures t1 → maxBindFailures ≤ t_bindFailures t ∨ timed_out (ThDial port pc1) = true).
Proof.
  intros E. destruct pc as [| | |k|k id|k id r|k id r|k id r since|id next|id next|res|res]; cbn in E; try done;
    try apply bind_Some in E as (? & ? & E); try (by repeat case_match; simplify_eq; cbn; split_and!; try done; auto).
  - destruct (t_send _ _ t) as [t2 ok] eqn:Es. apply t_send_frame in Es as (s & q & ->). simplify_eq.
    destruct ok; cbn; split_and!; try done; auto.
  - destruct ch; try done; try (by repeat case_match; simplify_eq; cbn; split_and!; try done; auto).
    apply bind_Some in E as (n & Hn & E). case_decide; simplify_eq. cbn. split_and!; done.
Qed.

Lemma meta_threads t t1 : meta t1 = meta t → t_threads t1 = t_threads t.
Proof. unfold meta. congruence. Qed.

Lemma t_go_moves tid ch th t t1 : t_threads t !! tid = Some th → t_go tid ch th t = Some t1 → moves t t1.
Proof.
  intros Hth E. destruct th as [port pc|r pc|who pc|pc|pc|pc|r data pc].
  3: { assert (pc = CRet ∨ pc ≠ CRet) as [->|Hne] by (destruct pc; by auto).
    { destruct who; cbn in E; simplify_eq; (eapply moves_thread; [done..|by left]). }
    assert (∃ t2 pc2, Close_step tid ch pc t = Some (t2, pc2) ∧ t1 = t_set tid (ThClose who pc2) t2) as (t2 & pc2 & Es & ->).
    { destruct pc; try done; apply bind_Some in E as ([t2 pc2] & E & [= <-]); eauto. }
    pose proof (Close_step_frame _ _ _ _ _ _ Es) as [Et _]. apply Close_step_shut in Es as (_ & Es & _).
    eapply moves_thread; [done..| |rewrite Es; by left]. by destruct who; try done; intros ->. }
  all: apply bind_Some in E as ([t2 pc2] & E & [= <-]).
  - pose proof (Dial_step_meta _ _ _ _ _ _ _ E) as Et%meta_threads.
    apply Dial_step_failures in E as (Hs & Hr & Hf). eapply moves_thread; [done..|]. intros H. destruct (Hf H); auto.
  - pose proof (ConnClose_step_meta _ _ _ _ _ _ E) as Et%meta_threads.
    apply ConnClose_step_steady, steady_failures in E. eapply moves_thread; [done..|]. rewrite E. by left.
  - pose proof (reader_step_meta _ _ _ _ _ E) as Et%meta_threads.
    apply reader_step_steady, steady_failures in E. eapply moves_thread; [done..| |rewrite E; by left]. by destruct pc2.
  - pose proof (heartbeat_step_meta _ _ _ _ _ E) as Et%meta_threads.
    apply heartbeat_step_steady, steady_failures in E. eapply moves_thread; [done..| |rewrite E; by left]. by destruct pc2.
  - pose proof (flushACK_meta _ _ _ _ _ _ E) as [o Et%meta_threads].
    apply flushACK_steady, steady_failures in E. eapply moves_thread; [done..| |rewrite E; by left]. by destruct pc2.
  - pose proof (frame_step_meta _ _ _ _ _ _ _ E) as Et%meta_threads.
    apply frame_step_steady, steady_failures in E. eapply moves_thread; [done..|]. rewrite E. by left.
Qed.

Lemma t_thread_moves tid ch t t1 : t_thread tid ch t = Some t1 → moves t t1.
Proof.
  apply (t_thread_keeps (moves t)).
  - intros t0 o [H1 H2 H3]. by constructor.
  - intros th t2. apply t_go_moves.
  - intros r data Hth. eapply moves_thread; [done..|by left].
  - by apply moves_quiet.
Qed.

Lemma t_step_moves ev t t1 : t_step ev t = Some t1 → (∀ tid port, ev ≠ TvDial tid port) → moves t t1.
Proof.
  intros E Hev. destruct ev as [tid ch|tid port|tid r|tid|tid r data|tid|r| |fn|d]; cbn in E.
  - by eapply t_thread_moves.
  - by destruct (Hev tid port).
  - case_decide; [|done]. by eapply moves_spawn; [..|exact E].
  - by eapply moves_spawn; [..|exact E].
  - case_decide; [|done]. by eapply moves_spawn; [..|exact E].
  - apply bind_Some in E as (d & Hd & E). case_decide; [|done]. by eapply moves_spawn; [..|exact E].
  - apply bind_Some in E as (c & Hc & E). simplify_eq. by apply moves_quiet.
  - unfold Retire in E. case_decide; simplify_eq. by apply moves_quiet.
  - unfold SetOnClose in E. case_decide; [|done]. case_match; simplify_eq; by apply moves_quiet.
  - case_decide; simplify_eq. by apply moves_quiet.
Qed.

(** ** Invariant *)

(** A [Close] that has looked at the tunnel leaves it closed. *)
Definition closers_ok (t : Tunnel) : Prop :=
  ∀ tid who pc, t_threads t !! tid = Some (ThClose who pc) → pc ≠ CEnter → t_closed t = true.

Lemma closers_ok_move t t1 tid th : closers_ok t → (t_closed t = true → t_closed t1 = true) →
  t_threads t1 = <[tid := th]> (t_threads t) → (∀ who pc, th = ThClose who pc → pc ≠ CEnter → t_closed t1 = true) →
  closers_ok t1.
Proof.
  intros Hc Hm Et Hth tid' who pc. rewrite Et. intros [[<- H]|[_ H]]%lookup_insert_Some Hne; [by eapply Hth|].
  apply Hm. by eapply Hc.
Qed.

Lemma Close_step_closed tid ch pc t t1 pc1 :
  Close_step tid ch pc t = Some (t1, pc1) → (pc ≠ CEnter → t_closed t = true) → t_closed t1 = true.
Proof.
  intros E Hc. destruct pc as [| | |realms todo|todo| |cb|];
    try (apply Close_step_shut in E as (_ & _ & Hm); apply Hm, Hc; done).
  cbn in E. case_decide; [|done]. by case_match; simplify_eq.
Qed.

Lemma t_go_closers tid ch th t t1 : closers_ok t → t_threads t !! tid = Some th → t_go tid ch th t = Some t1 → closers_ok t1.
Proof.
  intros Hc Hth E. pose proof (t_go_shut _ _ _ _ _ E) as [Hm _].
  destruct th as [port pc|r pc|who pc|pc|pc|pc|r data pc].
  3: { assert (pc = CRet ∨ pc ≠ CRet) as [->|Hne] by (destruct pc; by auto).
    { destruct who; cbn in E; simplify_eq; by eapply (closers_ok_move t). }
    assert (∃ t2 pc2, Close_step tid ch pc t = Some (t2, pc2) ∧ t1 = t_set tid (ThClose who pc2) t2) as (t2 & pc2 & Es & ->).
    { destruct pc; try done; apply bind_Some in E as ([t2 pc2] & E & [= <-]); eauto. }
    pose proof (Close_step_frame _ _ _ _ _ _ Es) as [Et _]. apply Close_step_closed in Es; [|by eapply Hc].
    eapply (closers_ok_move t); [done..|cbn; by rewrite Et|done]. }
  all: apply bind_Some in E as ([t2 pc2] & E & [= <-]).
  - apply Dial_step_meta, meta_threads in E. by eapply (closers_ok_move t); [done..|cbn; by rewrite E|].
  - apply ConnClose_step_meta, meta_threads in E. by eapply (closers_ok_move t); [done..|cbn; by rewrite E|].
  - apply reader_step_meta, meta_threads in E. eapply (closers_ok_move t); [done..|cbn; by rewrite E|].
    destruct pc2; by intros ? ? [= <- <-].
  - apply heartbeat_step_meta, meta_threads in E. eapply (closers_ok_move t); [done..|cbn; by rewrite E|].
    destruct pc2; by intros ? ? [= <- <-].
  - apply flushACK_meta in E as [o E%meta_threads]. eapply (closers_ok_move t); [done..|cbn; by rewrite E|].
    destruct pc2; by intros ? ? [= <- <-].
  - apply frame_step_meta, meta_threads in E. by eapply (closers_ok_move t); [done..|cbn; by rewrite E|].
Qed.

Lemma t_step_closers ev t t1 : closers_ok t → t_step ev t = Some t1 → closers_ok t1.
Proof.
  intros Hc E. pose proof (t_step_shut _ _ _ E) as [Hm _].
  destruct ev as [tid ch|tid port|tid r|tid|tid r data|tid|r| |fn|d]; cbn in E;
    try (unfold spawn, Retire, SetOnClose in E; repeat case_decide; repeat case_match; simplify_eq;
         first [exact Hc | eapply (closers_ok_move t); [done..|by intros ? ? [= <- <-]]]).
  - revert E. apply (t_thread_keeps closers_ok); try done; [by intros; eapply t_go_closers|].
    intros r data _. by eapply (closers_ok_move t).
  - apply bind_Some in E as (d & Hd & E). unfold spawn in E. repeat case_decide; simplify_eq.
    by eapply (closers_ok_move t).
  - apply bind_Some in E as (c & Hcc & E). by simplify_eq.
Qed.

(** The call has timed out and has not yet decided what to do about the tunnel. *)
Definition undecided (t : Tunnel) (tid : nat) (pc : CallPC) : bool :=
  match pc with
  | CaDialing => match t_threads t !! tid with Some th => timed_out th | None => false end
  | CaSilent | CaClose | CaClosing _ | CaFails | CaReport | CaRetire => true
  | CaRet _ => false
  end.

Definition deciding (y : Sys) : Prop := ∃ tid pc, y_calls y !! tid = Some pc ∧ undecided (y_t y) tid pc = true.

Record y_inv (y : Sys) : Prop := mkYInv {
  yi_tunnel : t_inv (y_t y);
  yi_closers : closers_ok (y_t y);
  yi_dials : ∀ tid port pc, t_threads (y_t y) !! tid = Some (ThDial port pc) →
    y_calls y !! tid = Some CaDialing ∨ (dial_returned (ThDial port pc) = true ∧ is_Some (y_calls y !! tid));
  yi_closing : ∀ tid k, y_calls y !! tid = Some (CaClosing k) →
    ∃ pc, t_threads (y_t y) !! k = Some (ThClose ByUser pc);
  yi_result : ∀ tid r, y_calls y !! tid = Some (CaRet (inr r)) →
    ∃ port, t_threads (y_t y) !! tid = Some (ThDial port (DDone (inr r)));
  yi_failing : maxBindFailures ≤ t_bindFailures (y_t y) → IsRetired (y_t y) = true ∨ deciding y }.

Lemma IsRetired_stays ev t t1 : t_step ev t = Some t1 → IsRetired t = true → IsRetired t1 = true.
Proof. exact (tn_retired_stays (TunnelApi:=Tunnel_api) ev t t1). Qed.

Lemma moves_dial t t1 tid port pc : moves t t1 → t_threads t1 !! tid = Some (ThDial port pc) →
  ∃ th, t_threads t !! tid = Some th ∧ same_call th (ThDial port pc).
Proof.
  intros Hm H1. destruct (t_threads t !! tid) as [th|] eqn:Hth; [|by destruct (mv_new _ _ Hm _ _ H1 Hth port pc)].
  destruct (mv_threads _ _ Hm _ _ Hth) as (th' & H2 & Hs). simplify_eq. eauto.
Qed.

Lemma deciding_moves y t1 : deciding y → moves (y_t y) t1 → deciding (mkSys t1 (y_calls y)).
Proof.
  intros (tid & pc & Hc & Hu) Hm. exists tid, pc. split; [done|]. destruct pc; try done. cbn in *.
  destruct (t_threads (y_t y) !! tid) as [th|] eqn:Hth; [|done]. destruct (mv_threads _ _ Hm _ _ Hth) as (th' & -> & Hs).
  destruct th as [port pc|? ?|? ?|?|?|?|? ? ?]; try done. by destruct th'; try done; apply Hs.
Qed.

Lemma y_inv_tunnel ev y t1 :
  y_inv y → t_step ev (y_t y) = Some t1 → (∀ tid port, ev ≠ TvDial tid port) → y_inv (mkSys t1 (y_calls y)).
Proof.
  intros Hy E Hev. pose proof (t_step_moves _ _ _ E Hev) as Hm. constructor; cbn.
  - eapply t_step_inv; [apply Hy|done].
  - eapply t_step_closers; [apply Hy|done].
  - intros tid port pc H1. destruct (moves_dial _ _ _ _ _ Hm H1) as ([port0 pc0|? ?|[] ?|?|?|?|? ? ?] & Hth & Hs); try done.
    destruct (yi_dials _ Hy _ _ _ Hth) as [?|[Hr ?]]; [by left|]. right. split; [|done]. destruct Hs as [_ Hs].
    by pose proof (Hs Hr) as [= -> ->].
  - intros tid k Hk. destruct (yi_closing _ Hy _ _ Hk) as [pc Hth].
    destruct (mv_threads _ _ Hm _ _ Hth) as ([? ?|? ?|[] pc'|?|?|?|? ? ?] & H1 & Hs); try done. eauto.
  - intros tid r Hr. destruct (yi_result _ Hy _ _ Hr) as [port Hth]. exists port.
    destruct (mv_threads _ _ Hm _ _ Hth) as ([? ?|? ?|? ?|?|?|?|? ? ?] & H1 & Hs); try done. rewrite H1. f_equal. by apply Hs.
  - intros Hf. destruct (mv_failures _ _ Hm Hf) as [Hb|(tid & th & th' & Hth & Hnr & H1 & Ht)].
    + destruct (yi_failing _ Hy Hb) as [Hr|Hd]; [left; by eapply IsRetired_stays|right; by apply deciding_moves].
    + right. exists tid, CaDialing. cbn. rewrite H1. split; [|done].
      destruct th' as [port pc|? ?|? ?|?|?|?|? ? ?]; try done. destruct (moves_dial _ _ _ _ _ Hm H1) as (th0 & H0 & Hs). simplify_eq.
      destruct th as [port0 pc0|? ?|[] ?|?|?|?|? ? ?]; try done. destruct (yi_dials _ Hy _ _ _ Hth) as [?|[? _]]; [done|congruence].
Qed.

Lemma y_inv_call tid port y t1 :
  y_inv y → y_calls y !! tid = None → t_step (TvDial tid port) (y_t y) = Some t1 →
  y_inv (mkSys t1 (<[tid := CaDialing]> (y_calls y))).
Proof.
  intros Hy Hn E. pose proof (t_step_inv _ _ _ (yi_tunnel _ Hy) E). pose proof (t_step_closers _ _ _ (yi_closers _ Hy) E).
  cbn in E. unfold spawn in E. case_decide as Hth; [|done]. injection E as <-. constructor; cbn; try done.
  - intros tid' port' pc [[<- _]|[Hne H1]]%lookup_insert_Some; [left; by rewrite lookup_insert_eq|].
    rewrite lookup_insert_ne by done. by eapply yi_dials.
  - intros tid' k [[_ ?]|[_ Hk]]%lookup_insert_Some; [done|]. destruct (yi_closing _ Hy _ _ Hk) as [pc Hpc]. exists pc.
    rewrite lookup_insert_ne by congruence. done.
  - intros tid' r [[_ ?]|[Hne Hr]]%lookup_insert_Some; [done|]. rewrite lookup_insert_ne by done. by eapply yi_result.
  - intros Hf. destruct (yi_failing _ Hy Hf) as [Hr|(tid' & pc & Hc & Hu)]; [by left|]. right. exists tid', pc. cbn.
    assert (tid ≠ tid') by congruence. rewrite lookup_insert_ne by done. split; [done|].
    destruct pc; try done. cbn in *. by rewrite lookup_insert_ne.
Qed.

(** A call moves on and leaves the tunnel as it is. *)
Lemma y_inv_go y tid pc pc1 :
  y_inv y → y_calls y !! tid = Some pc →
  (pc = CaDialing → ∃ port res, t_threads (y_t y) !! tid = Some (ThDial port (DDone res))) →
  (∀ k, pc1 = CaClosing k → ∃ p, t_threads (y_t y) !! k = Some (ThClose ByUser p)) →
  (∀ r, pc1 = CaRet (inr r) → ∃ port, t_threads (y_t y) !! tid = Some (ThDial port (DDone (inr r)))) →
  (undecided (y_t y) tid pc = true → maxBindFailures ≤ t_bindFailures (y_t y) →
    undecided (y_t y) tid pc1 = true ∨ IsRetired (y_t y) = true) →
  y_inv (mkSys (y_t y) (<[tid := pc1]> (y_calls y))).
Proof.
  intros Hy Hc Hd Hk Hr Hu. constructor; cbn; try apply Hy.
  - intros tid' port p Hth. destruct (decide (tid = tid')) as [<-|Hne]; [|rewrite lookup_insert_ne by done; by eapply yi_dials].
    rewrite lookup_insert_eq. right. split; [|done]. destruct (yi_dials _ Hy _ _ _ Hth) as [Hdial|[? _]]; [|done].
    assert (pc = CaDialing) as Hpc by congruence. destruct (Hd Hpc) as (port0 & res & ?). by simplify_eq.
  - intros tid' k [[<- ?]|[_ H]]%lookup_insert_Some; [by apply Hk|by eapply yi_closing].
  - intros tid' r [[<- ?]|[_ H]]%lookup_insert_Some; [by apply Hr|by eapply yi_result].
  - intros Hf. destruct (yi_failing _ Hy Hf) as [Hrt|(tid' & pc' & Hc' & Hu')]; [by left|].
    destruct (decide (tid = tid')) as [<-|Hne].
    + assert (pc' = pc) as -> by congruence. destruct (Hu Hu' Hf) as [Hn|]; [right|by left].
      exists tid, pc1. cbn. by rewrite lookup_insert_eq.
    + right. exists tid', pc'. cbn. by rewrite lookup_insert_ne.
Qed.

Lemma y_inv_step ev y y1 : y_inv y → y_step ev y = Some y1 → y_inv y1.
Proof.
  intros Hy E. destruct ev as [tid port|tid k|ev]; cbn [y_step] in E.
  - case_decide; [|done]. apply bind_Some in E as (t1 & E & [= <-]). by eapply y_inv_call.
  - apply bind_Some in E as (pc & Hc & E). apply bind_Some in E as ([t1 pc1] & E & [= <-]).
    destruct pc; cbn in E; try done.
    + destruct (t_threads (y_t y) !! tid) as [[port dpc|? ?|? ?|?|?|?|? ? ?]|] eqn:Hth; try done.
      destruct dpc; try done. injection E as <- <-. eapply y_inv_go; [done..|eauto| | |]; case_decide; try done.
      * intros r [= ->]. eauto.
      * by left.
      * cbn. rewrite Hth. cbn. destruct res as [[]|]; done.
    + injection E as <- <-. eapply y_inv_go; [done..|by case_match|by case_match|]. case_match; by left.
    + apply bind_Some in E as (t2 & E & [= <- <-]). assert (t_step (TvClose k) (y_t y) = Some t2) as Es by done.
      apply (y_inv_tunnel _ _ _ Hy) in Es; [|done]. eapply (y_inv_go _ tid CaClose) in Es; [exact Es|..]; try done; [|by left].
      intros k' [= <-]. unfold spawn in E. case_decide; simplify_eq. cbn. rewrite lookup_insert_eq. eauto.
    + destruct (t_threads (y_t y) !! k0) as [[? ?|? ?|who []|?|?|?|? ? ?]|] eqn:Hth; try done. injection E as <- <-.
      eapply y_inv_go; [done..|]. intros _ _. right. unfold IsRetired. rewrite (yi_closers _ Hy _ _ _ Hth); [|done].
      apply orb_true_r.
    + apply bind_Some in E as (n & Hn & [= <- <-]). unfold BindFailures in Hn. case_decide; simplify_eq.
      eapply y_inv_go; [done..|by case_decide|by case_decide|]. intros _ Hf. rewrite decide_True by done. by left.
    + apply bind_Some in E as (n & Hn & E). case_decide; simplify_eq. eapply y_inv_go; [done..|by left].
    + apply bind_Some in E as (t2 & E & [= <- <-]). assert (t_step TvRetire (y_t y) = Some t2) as Es by done.
      apply (y_inv_tunnel _ _ _ Hy) in Es; [|done]. eapply (y_inv_go _ tid CaRetire) in Es; [exact Es|..]; try done.
      intros _ _. right. unfold Retire in E. case_decide; by simplify_eq.
  - destruct ev; try done; apply bind_Some in E as (t1 & E & [= <-]); by eapply y_inv_tunnel.
Qed.

Lemma y_reachable_inv s now y : y_reachable s now y → y_inv y.
Proof.
  intros [evs E]. assert (y_inv (mkSys (New s now) ∅)) as Hi.
  { assert (∀ tid th, t_threads (New s now) !! tid = Some th → th = ThReader RdTop ∨ th = ThHeartbeat HIdle) as Ht.
    { intros tid th H. cbn in H. apply lookup_insert_Some in H as [[_ <-]|[_ H]]; [by left|]. apply lookup_singleton_Some in H as [_ <-]. by right. }
    constructor; try done; [apply New_inv| |]; intros tid a b H%Ht; by destruct H. }
  revert E Hi. generalize (mkSys (New s now) ∅). induction evs as [|ev evs IH]; cbn; intros y0 E Hi; [congruence|].
  apply bind_Some in E as (y1 & E1 & E). eauto using y_inv_step.
Qed.

(** ** Theorem *)

(** C9.  [Client.Dial] gives up on a tunnel that does not grant realms, in
    every interleaving of its calls with one another and with the tunnel: once
    [maxBindFailures] dials in a row have timed out, the tunnel is retired or closed, or
    a call that timed out has not returned yet; so when every call has returned the
    tunnel accepts no more realms, and the next [Acquire] opens another.  A call that
    returned a connection got one that the device granted. *)
Theorem failing_tunnel_given_up s now y :
  y_reachable s now y →
  (maxBindFailures ≤ t_bindFailures (y_t y) → IsRetired (y_t y) = true ∨ deciding y) ∧
  (maxBindFailures ≤ t_bindFailures (y_t y) → (∀ tid pc, y_calls y !! tid = Some pc → ∃ res, pc = CaRet res) →
    IsRetired (y_t y) = true) ∧
  (∀ tid r, y_calls y !! tid = Some (CaRet (inr r)) → r ∈ t_granted (y_t y) ∧ is_Some (t_conns (y_t y) !! r)).
Proof.
  intros Hy%y_reachable_inv. split; [apply Hy|]. split.
  - intros Hf Hall. destruct (yi_failing _ Hy Hf) as [|(tid & pc & Hc & Hu)]; [done|].
    destruct (Hall _ _ Hc) as [res ->]. done.
  - intros tid r Hc. destruct (yi_result _ Hy _ _ Hc) as [port Hth].
    destruct (i_local _ (yi_tunnel _ Hy) _ _ Hth) as [_ Hr]. cbn in Hr.
    destruct (i_chans _ (yi_tunnel _ Hy)) as (_ & _ & H3 & H4). auto.
Qed.

(** Two dials time out on a tunnel that goes on answering heartbeats. *)
Definition demo_unanswered (tid : nat) (id : Z) : list YEvent :=
  let run := YvTunnel ∘ TvRun tid in
  let attempt (i : Z) := (run <$> [TId i; TGo; TGo; TGo; TGo]) ++ [YvTunnel (TvTime 5000)] ++ (run <$> [TTimeout; TGo; TGo]) in
  [YvCall tid 554] ++ (run <$> [TGo; TGo; TGo]) ++ attempt id ++ attempt (id + 1) ++ attempt (id + 2) ++
  (YvTunnel <$> demo_recv NewHeartbeatBody 1) ++ (run <$> [TGo; TGo]) ++ [YvGo tid 0; YvGo tid 0; YvGo tid 0].

Definition demo_failing : list YEvent :=
  demo_unanswered 10 7 ++ demo_unanswered 11 20 ++ [YvGo 11 0; YvGo 11 0].

Lemma failing_tunnel_given_up_witness : ∃ y,
  y_run demo_failing (mkSys (New NewSession 0) ∅) = Some y ∧ t_bindFailures (y_t y) = maxBindFailures ∧
  t_closed (y_t y) = false ∧ y_calls y = {[10%nat := CaRet (inl DialTimeout); 11%nat := CaRet (inl DialTimeout)]} ∧
  IsRetired (y_t y) = true.
Proof.
  destruct (y_run demo_failing (mkSys (New NewSession 0) ∅)) as [y|] eqn:E; [|by vm_compute in E].
  destruct (failing_tunnel_given_up NewSession 0 y) as (_ & Hr & _); [by exists demo_failing|].
  vm_compute in E. injection E as <-. eexists. split; [reflexivity|]. split; [reflexivity|]. split; [reflexivity|].
  split; [by vm_compute|]. apply Hr; [done|]. intros tid pc Hc.
  apply (elem_of_map_to_list (M:=gmap nat)) in Hc. vm_compute in Hc.
  repeat (apply elem_of_cons in Hc as [[= -> ->]|Hc]; [by eexists|]). by apply elem_of_nil in Hc.
Defined.
