(* ===== verification/Manager.v ===== *)
(** * The session manager

    [src/dahua.go], lines 225-501: shared tunnels per configuration, with reference
    counts, a capacity per tunnel, idle timers and a permanent shutdown.  The
    manager is proved against [TunnelApi]: it holds tunnels of any kind that keeps
    that contract.

    The goroutines that run against each other are any number of [Acquire] calls,
    [Release] calls, idle-timer callbacks, [OnClose] callbacks ([forget]), one or
    more [CloseAll], and whatever happens inside the tunnels.  Each critical section
    under [m.mu] is one step.  Sessions, timers, in-flight handshakes and clients
    are heap objects named by references.  [m_holds] and [m_closeCalls] are ghost
    state: which references to a client are out, each with the serial it was acquired
    for, and which clients the manager has called [Close] on. *)

From Stdlib Require Import ZArith Lia Strings.Byte.
From S2P Require Import Prelude TunnelApi.

Definition DefaultMaxRealmsPerTunnel : Z := 8.

(** The fields of [Config] the manager looks at. *)
Record Config := mkConfig {
  cfg_Serial : string; cfg_Username : string; cfg_Password : string; cfg_P2PPort : Z; cfg_MaxRealms : Z }.

Record sessionKey := mkKey {
  k_serial : string; k_username : string; k_password : string; k_p2pPort : Z; k_maxRealms : Z }.

#[export] Instance sessionKey_eq_dec : EqDecision sessionKey.
Proof. solve_decision. Defined.

#[export] Program Instance sessionKey_countable : Countable sessionKey :=
  inj_countable' (λ k, (k_serial k, k_username k, k_password k, k_p2pPort k, k_maxRealms k))
    (λ '(a, b, c, d, e), mkKey a b c d e) _.
Next Obligation. by intros []. Qed.

Definition sessionKeyFor (cfg : Config) : sessionKey :=
  let maxRealms := if decide (cfg_MaxRealms cfg ≤ 0) then DefaultMaxRealmsPerTunnel else cfg_MaxRealms cfg in
  mkKey (cfg_Serial cfg) (cfg_Username cfg) (cfg_Password cfg) (cfg_P2PPort cfg) maxRealms.

(** [idleTimer] is the reference of a timer. *)
Record managedSession := mkSess {
  ms_client : nat; ms_refCount : Z; ms_idleTimer : option nat; ms_maxRealms : Z }.

Inductive AcquireError := ErrSessionManagerClosed | ErrFixedPortCapacity | ErrHandshake.

(** Program counters of [Acquire]. *)
Inductive AcquirePC :=
| ATop                                                 (* top of the loop *)
| AWait (inf : nat)                                    (* <-inf.done *)
| AConnect (inf : nat)                                 (* ConnectWithConfig *)
| ARegister (inf : nat) (client : option nat)          (* the second critical section *)
| AHook (inf client ms : nat)                          (* client.SetOnClose *)
| ADiscard (inf : nat) (client : option nat) (e : AcquireError) (* close an unused tunnel *)
| ASignal (inf : nat) (res : AcquireError + nat)       (* close(inf.done) *)
| ARet (res : AcquireError + nat).

Inductive MThread :=
| MAcquire (cfg : Config) (pc : AcquirePC)
| MCloseAll (rest : option (list nat)).  (* None: not begun; else the clients still to close *)

Section Manager.
Context {T A : Type} `{!TunnelApi T A}.

Record SM := mkSM {
  m_closed : bool;
  m_sessions : gmap sessionKey (list nat);
  m_inflight : gmap sessionKey nat;
  m_heap : gmap nat managedSession;
  m_infs : gmap nat (bool * option AcquireError);   (* done is closed; err *)
  m_timers : gmap nat (sessionKey * nat);           (* armed *)
  m_callbacks : gmap nat (sessionKey * nat);        (* fired, the callback has not run *)
  m_clients : gmap nat T;
  m_hooks : gmap nat (sessionKey * nat);            (* OnClose callbacks not called yet *)
  m_next : nat;
  m_threads : gmap nat MThread;
  m_holds : list (string * nat);
  m_closeCalls : gset nat }.

Definition m_set (tid : nat) (th : MThread) (m : SM) : SM := m <| m_threads := <[tid := th]> (m_threads m) |>.

(** ** Helpers *)

Definition sessions_at (key : sessionKey) (m : SM) : list nat := default [] (m_sessions m !! key).

(** [m.sessions[key] = list], deleting the key when the list is empty. *)
Definition put_sessions (key : sessionKey) (l : list nat) (m : SM) : SM :=
  m <| m_sessions := if decide (l = []) then delete key (m_sessions m) else <[key := l]> (m_sessions m) |>.

Definition client_of (s : nat) (m : SM) : option T := x ← m_heap m !! s; m_clients m !! ms_client x.
Definition s_IsClosed (m : SM) (s : nat) : bool := match client_of s m with Some t => tn_closed t | None => false end.
Definition s_IsRetired (m : SM) (s : nat) : bool := match client_of s m with Some t => tn_retired t | None => false end.

(** [s.idleTimer.Stop()]: disarms a timer that has not fired. *)
Definition stop_timer (s : nat) (m : SM) : SM :=
  match m_heap m !! s ≫= ms_idleTimer with
  | Some tm => m <| m_timers := delete tm (m_timers m) |>
  | None => m
  end.

Definition sess_update (s : nat) (f : managedSession → managedSession) (m : SM) : SM :=
  m <| m_heap := alter f s (m_heap m) |>.

Fixpoint removeSession (l : list nat) (s : nat) : list nat :=
  match l with
  | [] => []
  | cur :: l => if decide (cur = s) then l else cur :: removeSession l s
  end.

(** ** [findAvailableSession] *)

Definition has_capacity (m : SM) (s : nat) : bool :=
  negb (s_IsRetired m s) &&
  match m_heap m !! s with Some x => bool_decide (ms_refCount x < ms_maxRealms x) | None => false end.

Definition find_first (p : nat → bool) (l : list nat) : option nat :=
  head (filter (λ s, p s = true) l).

Definition findAvailableSession (key : sessionKey) (m : SM) : SM * option nat :=
  let sessions := sessions_at key m in
  let live := filter (λ s, s_IsClosed m s = false) sessions in
  let m := foldr stop_timer m (filter (λ s, s_IsClosed m s = true) sessions) in
  let m := put_sessions key live m in
  (m, find_first (has_capacity m) live).

(** ** [Acquire] *)

(** The first critical section. *)
Definition acquire_top (cfg : Config) (m : SM) : SM * AcquirePC :=
  let key := sessionKeyFor cfg in
  if m_closed m then (m, ARet (inl ErrSessionManagerClosed)) else
  let '(m, found) := findAvailableSession key m in
  match found with
  | Some s =>
      let m := stop_timer s m in
      let m := sess_update s (λ x, x <| ms_idleTimer := None |> <| ms_refCount := ms_refCount x + 1 |>) m in
      match m_heap m !! s with
      | Some x => (m <| m_holds := (k_serial key, ms_client x) :: m_holds m |>, ARet (inr (ms_client x)))
      | None => (m, ATop)
      end
  | None =>
      if decide (k_p2pPort key ≠ 0 ∧ sessions_at key m ≠ []) then (m, ARet (inl ErrFixedPortCapacity))
      else match m_inflight m !! key with
           | Some inf => (m, AWait inf)
           | None =>
               let inf := m_next m in
               (m <| m_infs := <[inf := (false, None)]> (m_infs m) |>
                  <| m_inflight := <[key := inf]> (m_inflight m) |> <| m_next := S inf |>, AConnect inf)
           end
  end.

(** The second one, after the handshake. *)
Definition acquire_register (cfg : Config) (inf : nat) (client : option nat) (m : SM) : SM * AcquirePC :=
  let key := sessionKeyFor cfg in
  let m := m <| m_inflight := delete key (m_inflight m) |> in
  let err := match client with
             | None => Some ErrHandshake
             | Some _ => if m_closed m then Some ErrSessionManagerClosed else None
             end in
  let m := m <| m_infs := alter (λ i : bool * option AcquireError, (i.1, err)) inf (m_infs m) |> in
  match err, client with
  | None, Some c =>
      let ms := m_next m in
      (m <| m_heap := <[ms := mkSess c 1 None (k_maxRealms key)]> (m_heap m) |>
         <| m_sessions := <[key := sessions_at key m ++ [ms]]> (m_sessions m) |>
         <| m_next := S ms |> <| m_holds := (k_serial key, c) :: m_holds m |>, AHook inf c ms)
  | Some e, _ => (m, ADiscard inf client e)
  | None, None => (m, ATop)
  end.

(** The outcome of [ConnectWithConfig]: a new tunnel, or an error. *)
Inductive MChoice := MGo | MConnected (t : T) | MFailed.

Definition Acquire_step (ch : MChoice) (cfg : Config) (pc : AcquirePC) (m : SM) : option (SM * AcquirePC) :=
  match pc with
  | ATop => Some (acquire_top cfg m)
  | AWait inf =>
      '(closed, err) ← m_infs m !! inf;
      if (closed : bool) then Some (m, match err with Some e => ARet (inl e) | None => ATop end) else None
  | AConnect inf =>
      match ch with
      | MConnected t =>
          let c := m_next m in
          Some (m <| m_clients := <[c := t]> (m_clients m) |> <| m_next := S c |>, ARegister inf (Some c))
      | MFailed => Some (m, ARegister inf None)
      | MGo => None
      end
  | ARegister inf client => Some (acquire_register cfg inf client m)
  | AHook inf c ms => Some (m <| m_hooks := <[c := (sessionKeyFor cfg, ms)]> (m_hooks m) |>, ASignal inf (inr c))
  | ADiscard inf client e =>
      Some (match client with Some c => m <| m_closeCalls := {[c]} ∪ m_closeCalls m |> | None => m end,
            ASignal inf (inl e))
  | ASignal inf res => Some (m <| m_infs := alter (λ i : bool * option AcquireError, (true, i.2)) inf (m_infs m) |>, ARet res)
  | ARet _ => None
  end.

(** ** [forget], [Release], the idle timer and [CloseAll] *)

Definition forget (key : sessionKey) (ms : nat) (m : SM) : SM :=
  let m := stop_timer ms m in
  put_sessions key (removeSession (sessions_at key m) ms) m.

(** [key] is the key under which the range over the map finds the client, if any. *)
Definition Release (client : nat) (key : option sessionKey) (m : SM) : option SM :=
  match key with
  | None => Some m
  | Some key =>
      s ← find_first (λ s, bool_decide (ms_client <$> m_heap m !! s = Some client)) (sessions_at key m);
      x ← m_heap m !! s;
      let m := sess_update s (λ x, x <| ms_refCount := ms_refCount x - 1 |>) m in
      if decide (0 < ms_refCount x - 1) then Some m else
      let m := sess_update s (λ x, x <| ms_refCount := 0 |>) m in
      let m := stop_timer s m in
      let m := sess_update s (λ x, x <| ms_idleTimer := None |>) m in
      if s_IsRetired m s then
        let m := put_sessions key (removeSession (sessions_at key m) s) m in
        Some (m <| m_closeCalls := {[client]} ∪ m_closeCalls m |>)
      else
        let tm := m_next m in
        Some ((sess_update s (λ x, x <| ms_idleTimer := Some tm |>) m)
                <| m_timers := <[tm := (key, s)]> (m_timers m) |> <| m_next := S tm |>)
  end.

(** The keys the range of [Release] can stop at. *)
Definition release_at (serial : string) (client : nat) (key : sessionKey) (m : SM) : Prop :=
  k_serial key = serial ∧ Exists (λ s, ms_client <$> m_heap m !! s = Some client) (sessions_at key m).

(** The callback of an idle timer. *)
Definition idle_callback (key : sessionKey) (s : nat) (m : SM) : SM :=
  match m_heap m !! s with
  | Some x =>
      if decide (s ∈ sessions_at key m ∧ ms_refCount x ≤ 0)
      then (put_sessions key (removeSession (sessions_at key m) s) m)
             <| m_closeCalls := {[ms_client x]} ∪ m_closeCalls m |>
      else m
  | None => m
  end.

(** [CloseAll], its critical section: what it collects, and the state after. *)
Definition all_sessions (m : SM) : list nat := concat (map_to_list (m_sessions m)).*2.

Definition closeAll_section (m : SM) : SM * list nat :=
  let all := all_sessions m in
  let clients := omap (λ s, ms_client <$> m_heap m !! s) all in
  let m := foldr stop_timer m all in
  (m <| m_closed := true |> <| m_sessions := ∅ |>, clients).

(** ** The system *)

Inductive MEvent :=
| MvRun (tid : nat) (ch : MChoice)
| MvAcquire (tid : nat) (cfg : Config)
| MvRelease (serial : string) (client : nat) (key : option sessionKey)
| MvTimerFires (tm : nat)
| MvTimerRuns (tm : nat)
| MvForget (client : nat)
| MvCloseAll (tid : nat)
| MvClient (client : nat) (a : A).

Definition m_spawn (tid : nat) (th : MThread) (m : SM) : option SM :=
  if decide (m_threads m !! tid = None) then Some (m_set tid th m) else None.

#[local] Instance release_at_dec serial client key m : Decision (release_at serial client key m).
Proof. unfold release_at. apply _. Defined.

(** Nobody releases a client he does not hold, or under another serial. *)
Definition release_allowed (serial : string) (client : nat) (key : option sessionKey) (m : SM) : Prop :=
  (serial, client) ∈ m_holds m ∧
  match key with
  | Some key => release_at serial client key m
  | None => map_Forall (λ key _, ¬ release_at serial client key m) (m_sessions m)
  end.

#[local] Instance release_allowed_dec serial client key m : Decision (release_allowed serial client key m).
Proof. unfold release_allowed. destruct key; apply _. Defined.

Fixpoint remove_one (c : string * nat) (l : list (string * nat)) : list (string * nat) :=
  match l with [] => [] | d :: l => if decide (d = c) then l else d :: remove_one c l end.

Definition m_step (ev : MEvent) (m : SM) : option SM :=
  match ev with
  | MvRun tid ch =>
      th ← m_threads m !! tid;
      match th with
      | MAcquire cfg pc => '(m, pc) ← Acquire_step ch cfg pc m; Some (m_set tid (MAcquire cfg pc) m)
      | MCloseAll None => let '(m, cs) := closeAll_section m in Some (m_set tid (MCloseAll (Some cs)) m)
      | MCloseAll (Some (c :: cs)) =>
          Some (m_set tid (MCloseAll (Some cs)) (m <| m_closeCalls := {[c]} ∪ m_closeCalls m |>))
      | MCloseAll (Some []) => None
      end
  | MvAcquire tid cfg => m_spawn tid (MAcquire cfg ATop) m
  | MvRelease serial client key =>
      if decide (release_allowed serial client key m)
      then Release client key (m <| m_holds := remove_one (serial, client) (m_holds m) |>) else None
  | MvTimerFires tm =>
      x ← m_timers m !! tm;
      Some (m <| m_timers := delete tm (m_timers m) |> <| m_callbacks := <[tm := x]> (m_callbacks m) |>)
  | MvTimerRuns tm =>
      x ← m_callbacks m !! tm;
      Some (idle_callback x.1 x.2 (m <| m_callbacks := delete tm (m_callbacks m) |>))
  | MvForget c =>
      x ← m_hooks m !! c; t ← m_clients m !! c;
      if tn_closed t then Some (forget x.1 x.2 (m <| m_hooks := delete c (m_hooks m) |>)) else None
  | MvCloseAll tid => m_spawn tid (MCloseAll None) m
  | MvClient c a =>
      t ← m_clients m !! c; t' ← tn_act a t;
      Some (m <| m_clients := <[c := t']> (m_clients m) |>)
  end.

Fixpoint m_run (evs : list MEvent) (m : SM) : option SM :=
  match evs with
  | [] => Some m
  | ev :: evs => m ← m_step ev m; m_run evs m
  end.

Definition NewSessionManager : SM := mkSM false ∅ ∅ ∅ ∅ ∅ ∅ ∅ ∅ 0 ∅ [] ∅.

Definition m_reachable (m : SM) : Prop := ∃ evs, m_run evs NewSessionManager = Some m.
End Manager.
