(* ===== verification/ManagerInv.v ===== *)
(** * The session manager: invariants and theorems

    Capacity and reference counts, one tunnel per fixed port, no leaked tunnel, idle
    tunnels that are closed and used ones that are not, waiters that are woken; for
    every interleaving of the system of [Manager], over any tunnels that keep
    [TunnelApi]. *)

From Stdlib Require Import ZArith Lia Strings.Byte.
From S2P Require Import Prelude TunnelApi Manager.

Section ManagerInv.
Context {T A : Type} `{!TunnelApi T A}.
Abbreviation SM := (@SM T).
Implicit Types (m : SM).

(** ** What the helpers do *)

Lemma sessions_at_put key l m key' :
  sessions_at key' (put_sessions key l m) = if decide (key = key') then l else sessions_at key' m.
Proof.
  unfold sessions_at, put_sessions. cbn. destruct (decide (key = key')) as [<-|Hne]; case_decide as Hl.
  - by rewrite lookup_delete_eq.
  - by rewrite lookup_insert_eq.
  - by rewrite lookup_delete_ne.
  - by rewrite lookup_insert_ne.
Qed.

Lemma stop_timer_frame s m :
  ∃ tms, stop_timer s m = m <| m_timers := tms |> ∧
    (∀ tm v, tms !! tm = Some v → m_timers m !! tm = Some v) ∧
    (∀ tm, m_heap m !! s ≫= ms_idleTimer ≠ Some tm → tms !! tm = m_timers m !! tm).
Proof.
  unfold stop_timer. destruct (m_heap m !! s ≫= ms_idleTimer) as [tm0|].
  - eexists. split; [done|]. split.
    + intros tm v [_ H]%lookup_delete_Some. done.
    + intros tm Hne. rewrite lookup_delete_ne; congruence.
  - exists (m_timers m). split; [by destruct m|]. done.
Qed.

Lemma stop_timers_frame l m :
  ∃ tms, foldr stop_timer m l = m <| m_timers := tms |> ∧
    (∀ tm v, tms !! tm = Some v → m_timers m !! tm = Some v) ∧
    (∀ tm, (∀ s, s ∈ l → m_heap m !! s ≫= ms_idleTimer ≠ Some tm) → tms !! tm = m_timers m !! tm).
Proof.
  induction l as [|s l (tms & E & H1 & H2)].
  - exists (m_timers m). split; [by destruct m|]. done.
  - cbn [foldr]. rewrite E. destruct (stop_timer_frame s (m <| m_timers := tms |>)) as (tms' & E' & H1' & H2').
    exists tms'. rewrite E'. split; [done|]. split.
    + intros tm v Hv. by apply H1, H1'.
    + intros tm Hs. rewrite H2' by (apply Hs; left). apply H2. intros s' Hs'. apply Hs. by right.
Qed.

Lemma removeSession_sublist l s : removeSession l s `sublist_of` l.
Proof. induction l as [|x l IH]; cbn; [done|]. case_decide; [by apply sublist_cons|by apply sublist_skip]. Qed.

Lemma elem_of_removeSession l s x : NoDup l → x ∈ removeSession l s ↔ x ∈ l ∧ x ≠ s.
Proof.
  induction 1 as [|y l Hy Hnd IH]; cbn.
  - split; [intros []%elem_of_nil|by intros [[]%elem_of_nil _]].
  - case_decide as E.
    + subst y. rewrite elem_of_cons. split; [|by intros [[->|?] ?]]. intros Hx. split; [by right|]. by intros ->.
    + rewrite !elem_of_cons, IH. split; [|by intros [[->|?] ?]; auto]. intros [->|[? ?]]; auto.
Qed.

Lemma find_first_Some p l s : find_first p l = Some s → s ∈ l ∧ p s = true.
Proof.
  unfold find_first. destruct (filter _ l) as [|y ys] eqn:E; [done|]. cbn. intros [= <-].
  assert (y ∈ filter (λ s, p s = true) l) as H by (rewrite E; left). apply list_elem_of_filter in H as [? ?]. done.
Qed.

(** ** Invariants

    Each invariant is a relation between the fields it is about, so that a step that
    touches none of them keeps it by conversion. *)

Abbreviation smap := (gmap sessionKey (list nat)).
Implicit Types (ss : smap) (heap : gmap nat managedSession) (ths : gmap nat MThread)
  (clients : gmap nat T) (holds : list (string * nat)) (key : sessionKey).

Definition in_map ss key s : Prop := s ∈ default [] (ss !! key).

#[local] Instance in_map_dec ss key s : Decision (in_map ss key s).
Proof. unfold in_map. apply _. Defined.

(** The client an [Acquire] has connected and nobody knows yet. *)
Definition fresh_client (th : MThread) (c : nat) : Prop :=
  match th with
  | MAcquire _ (ARegister _ (Some c')) | MAcquire _ (ADiscard _ (Some c') _) => c = c'
  | _ => False
  end.

Definition has_client heap (s c : nat) : Prop := ∃ x, heap !! s = Some x ∧ ms_client x = c.

(** Shape of the heap. *)
Record shape (n : nat) heap clients ss (hooks : gmap nat (sessionKey * nat)) holds ths : Prop := mkShape {
  sh_heap_lt : ∀ s x, heap !! s = Some x → (s < n)%nat;
  sh_client_lt : ∀ c t, clients !! c = Some t → (c < n)%nat;
  sh_client : ∀ s x, heap !! s = Some x → is_Some (clients !! ms_client x);
  sh_inj : ∀ s s' x x', heap !! s = Some x → heap !! s' = Some x' → ms_client x = ms_client x' → s = s';
  sh_max : ∀ key s, in_map ss key s → ∃ x, heap !! s = Some x ∧ ms_maxRealms x = k_maxRealms key;
  sh_nodup : ∀ key, NoDup (default [] (ss !! key));
  sh_disjoint : ∀ key key' s, in_map ss key s → in_map ss key' s → key = key';
  sh_hooks : ∀ c key ms, hooks !! c = Some (key, ms) →
    has_client heap ms c ∧ ∀ key', in_map ss key' ms → key' = key;
  sh_holds : ∀ ser c, (ser, c) ∈ holds → ∃ s x, heap !! s = Some x ∧ ms_client x = c ∧
    ∀ key, in_map ss key s → k_serial key = ser;
  sh_fresh : ∀ tid th c, ths !! tid = Some th → fresh_client th c →
    is_Some (clients !! c) ∧ (∀ s x, heap !! s = Some x → ms_client x ≠ c) ∧
    (∀ tid' th', ths !! tid' = Some th' → fresh_client th' c → tid' = tid);
  sh_hook_pc : ∀ tid cfg inf c ms, ths !! tid = Some (MAcquire cfg (AHook inf c ms)) →
    has_client heap ms c ∧ ∀ key', in_map ss key' ms → key' = sessionKeyFor cfg }.

(** How many references to client [c] are out. *)
Definition holders holds (c : nat) : Z := Z.of_nat (length (filter (λ d, d.2 = c) holds)).

Definition counts heap ss holds : Prop :=
  ∀ key s x, in_map ss key s → heap !! s = Some x →
    ms_refCount x = holders holds (ms_client x) ∧ ms_refCount x ≤ ms_maxRealms x.

(** Handshakes in flight. *)
Definition connecting (th : MThread) key (inf : nat) : Prop :=
  match th with
  | MAcquire cfg (AConnect inf') | MAcquire cfg (ARegister inf' _) => inf = inf' ∧ key = sessionKeyFor cfg
  | _ => False
  end.

(** The handshake [inf] is still this goroutine's to signal. *)
Definition owes_signal (th : MThread) (inf : nat) : Prop :=
  match th with
  | MAcquire _ (AConnect inf' | ARegister inf' _ | AHook inf' _ _ | ADiscard inf' _ _ | ASignal inf' _) => inf = inf'
  | _ => False
  end.

Record flight (n : nat) (closed : bool) ss (infl : gmap sessionKey nat)
    (infs : gmap nat (bool * option AcquireError)) ths : Prop := mkFlight {
  fl_closed : closed = true → ∀ key, default [] (ss !! key) = [];
  fl_lt : ∀ inf x, infs !! inf = Some x → (inf < n)%nat;
  fl_connecting : ∀ tid th key inf, ths !! tid = Some th → connecting th key inf → infl !! key = Some inf;
  fl_owner : ∀ tid tid' th th' inf, ths !! tid = Some th → ths !! tid' = Some th' →
    owes_signal th inf → owes_signal th' inf → tid = tid';
  fl_owed : ∀ tid th inf, ths !! tid = Some th → owes_signal th inf → ∃ e, infs !! inf = Some (false, e);
  fl_signal : ∀ inf e, infs !! inf = Some (false, e) → ∃ tid th, ths !! tid = Some th ∧ owes_signal th inf;
  fl_wait : ∀ tid cfg inf, ths !! tid = Some (MAcquire cfg (AWait inf)) → is_Some (infs !! inf);
  fl_inflight : ∀ key inf, infl !! key = Some inf → is_Some (infs !! inf);
  fl_closing : ∀ tid rest, ths !! tid = Some (MCloseAll (Some rest)) → closed = true;
  fl_fixed : ∀ key, k_p2pPort key ≠ 0 →
    (length (default [] (ss !! key)) ≤ 1)%nat ∧ (is_Some (infl !! key) → default [] (ss !! key) = []) }.

(** Idle timers. *)
Definition timer_of heap (s tm : nat) : Prop := ∃ x, heap !! s = Some x ∧ ms_idleTimer x = Some tm.

Record timers (n : nat) heap ss (tms cbs : gmap nat (sessionKey * nat)) : Prop := mkTimers {
  ti_lt : ∀ s tm, timer_of heap s tm → (tm < n)%nat;
  ti_inj : ∀ s s' tm, timer_of heap s tm → timer_of heap s' tm → s = s';
  ti_armed : ∀ tm key s, tms !! tm = Some (key, s) → (tm < n)%nat ∧ cbs !! tm = None;
  ti_fired : ∀ tm v, cbs !! tm = Some v → (tm < n)%nat;
  ti_idle : ∀ key s x, in_map ss key s → heap !! s = Some x → ms_refCount x ≤ 0 →
    ∃ tm, ms_idleTimer x = Some tm ∧ (tms !! tm = Some (key, s) ∨ cbs !! tm = Some (key, s)) }.

(** No tunnel is lost: who still has it. *)
Definition carries (th : MThread) (c : nat) : Prop :=
  match th with
  | MAcquire _ (ARegister _ (Some c')) | MAcquire _ (ADiscard _ (Some c') _) => c = c'
  | MCloseAll (Some rest) => c ∈ rest
  | _ => False
  end.

Definition accounted heap ss (cc : gset nat) ths (c : nat) : Prop :=
  (∃ key s x, in_map ss key s ∧ heap !! s = Some x ∧ ms_client x = c) ∨
  c ∈ cc ∨ (∃ tid th, ths !! tid = Some th ∧ carries th c).

Definition no_leak clients heap ss (cc : gset nat) ths : Prop :=
  ∀ c t, clients !! c = Some t → tn_closed t = false → accounted heap ss cc ths c.

Record m_inv m : Prop := mkInv {
  mi_shape : shape (m_next m) (m_heap m) (m_clients m) (m_sessions m) (m_hooks m) (m_holds m) (m_threads m);
  mi_counts : counts (m_heap m) (m_sessions m) (m_holds m);
  mi_flight : flight (m_next m) (m_closed m) (m_sessions m) (m_inflight m) (m_infs m) (m_threads m);
  mi_timers : timers (m_next m) (m_heap m) (m_sessions m) (m_timers m) (m_callbacks m);
  mi_leak : no_leak (m_clients m) (m_heap m) (m_sessions m) (m_closeCalls m) (m_threads m) }.

Lemma in_map_empty key s : ¬ in_map ∅ key s.
Proof. unfold in_map. rewrite lookup_empty. apply not_elem_of_nil. Qed.

Lemma New_manager_inv : m_inv NewSessionManager.
Proof.
  constructor; cbn; [constructor|intros ? ? ? H; by destruct (in_map_empty _ _ H)|constructor|constructor|done]; try done;
    try (intros ? ? H; by destruct (in_map_empty _ _ H)); try (intros ? ? ? H; by destruct (in_map_empty _ _ H)).
  - intros key. rewrite lookup_empty. constructor.
  - by intros ser c H%elem_of_nil.
  - intros key _. rewrite !lookup_empty. split; [cbn; lia|]. by intros [].
  - by intros s tm (x & Hx & _).
  - by intros s s' tm (x & Hx & _).
Qed.

(** *** What [put_sessions] does to membership *)

Lemma in_map_put key l m key' s :
  in_map (m_sessions (put_sessions key l m)) key' s ↔ (key' = key ∧ s ∈ l) ∨ (key' ≠ key ∧ in_map (m_sessions m) key' s).
Proof. unfold in_map. fold (sessions_at key' (put_sessions key l m)). rewrite sessions_at_put. case_decide; subst; intuition congruence. Qed.
(** ** Dropping sessions from the map *)

Definition ss_le (ss' ss : smap) : Prop :=
  ∀ key, default [] (ss' !! key) `sublist_of` default [] (ss !! key).

Lemma ss_le_in ss' ss key s : ss_le ss' ss → in_map ss' key s → in_map ss key s.
Proof. intros Hle Hs. eapply elem_of_sublist; [exact Hs|apply Hle]. Qed.

Lemma ss_le_put key l m : (l `sublist_of` sessions_at key m) → ss_le (m_sessions (put_sessions key l m)) (m_sessions m).
Proof.
  intros Hl key'. fold (sessions_at key' (put_sessions key l m)) (sessions_at key' m).
  rewrite sessions_at_put. by case_decide; subst.
Qed.

Lemma shape_ss n heap clients ss ss' hooks holds ths :
  ss_le ss' ss → shape n heap clients ss hooks holds ths → shape n heap clients ss' hooks holds ths.
Proof.
  intros Hle []. pose proof (λ key s, ss_le_in _ _ key s Hle) as Hin. constructor; try done; eauto.
  - intros key. by eapply sublist_NoDup; [|apply Hle].
  - intros c key ms Hc. destruct (sh_hooks0 c key ms Hc). eauto.
  - intros ser c Hc. destruct (sh_holds0 ser c Hc) as (s & x & ? & ? & ?). eauto 10.
  - intros tid cfg inf c ms Ht. destruct (sh_hook_pc0 tid cfg inf c ms Ht). eauto.
Qed.

Lemma counts_ss heap ss ss' holds : ss_le ss' ss → counts heap ss holds → counts heap ss' holds.
Proof. intros Hle H key s x Hs. eapply H, ss_le_in; eauto. Qed.

Lemma flight_ss n closed ss ss' infl infs ths :
  ss_le ss' ss → flight n closed ss infl infs ths → flight n closed ss' infl infs ths.
Proof.
  intros Hle []. assert (∀ key, default [] (ss !! key) = [] → default [] (ss' !! key) = []) as H0.
  { intros key E. pose proof (Hle key) as H. rewrite E in H. by apply sublist_nil_r in H. }
  constructor; try done; eauto. intros key Hk. destruct (fl_fixed0 key Hk) as [H1 H2]. split; [|by auto].
  etrans; [|exact H1]. by apply sublist_length.
Qed.

Lemma timers_ss n heap ss ss' tms tms' cbs :
  ss_le ss' ss → (∀ tm v, tms' !! tm = Some v → tms !! tm = Some v) →
  (∀ key s tm, in_map ss' key s → timer_of heap s tm → tms' !! tm = tms !! tm) →
  timers n heap ss tms cbs → timers n heap ss' tms' cbs.
Proof.
  intros Hle Hsub Hkeep []. constructor; try done; eauto.
  intros key s x Hs Hx Hr. destruct (ti_idle0 key s x) as (tm & E & Ht); [by eapply ss_le_in|done..|].
  exists tm. split; [done|]. rewrite (Hkeep key s tm); [done|done|]. by exists x.
Qed.

Lemma leak_ss clients heap ss ss' (cc cc' : gset nat) ths :
  cc ⊆ cc' →
  (∀ key s x t, in_map ss key s → ¬ in_map ss' key s → heap !! s = Some x →
     clients !! ms_client x = Some t → tn_closed t = true ∨ accounted heap ss' cc' ths (ms_client x)) →
  no_leak clients heap ss cc ths → no_leak clients heap ss' cc' ths.
Proof.
  intros Hcc Hdrop H c t Hc Ho. destruct (H c t Hc Ho) as [(key & s & x & Hs & Hx & <-)|[Hin|Hth]].
  - destruct (decide (in_map ss' key s)) as [|Hn]; [left; eauto 10|].
    destruct (Hdrop key s x t) as [|]; [done..|congruence|done].
  - right; left. set_solver.
  - by right; right.
Qed.

(** One lemma for all the places that take sessions out of a list. *)
Lemma drop_inv m key live stop (cc' : gset nat) :
  (live `sublist_of` sessions_at key m) → m_closeCalls m ⊆ cc' →
  (∀ s, s ∈ stop → (s ∉ live) ∧ (∀ key', in_map (m_sessions m) key' s → key' = key)) →
  (∀ s x t, in_map (m_sessions m) key s → s ∉ live → m_heap m !! s = Some x →
     m_clients m !! ms_client x = Some t → tn_closed t = true ∨ ms_client x ∈ cc') →
  m_inv m → m_inv ((put_sessions key live (foldr stop_timer m stop)) <| m_closeCalls := cc' |>).
Proof.
  intros Hlive Hcc Hstop Hdrop [H1 H2 H3 H4 H5].
  destruct (stop_timers_frame stop m) as (tms & -> & Ht1 & Ht2).
  pose proof (ss_le_put key live (m <| m_timers := tms |>) Hlive) as Hle.
  pose proof (in_map_put key live (m <| m_timers := tms |>)) as Hin.
  constructor; cbn in *.
  - by eapply shape_ss.
  - by eapply counts_ss.
  - by eapply flight_ss.
  - eapply timers_ss; [exact Hle|exact Ht1| |exact H4]. intros key' s tm Hs Htm. apply Ht2. intros s' Hs' Heq.
    assert (s' = s) as ->.
    { eapply (ti_inj _ _ _ _ _ H4); [|exact Htm]. destruct (m_heap m !! s') as [x|] eqn:E; [|done]. by exists x. }
    destruct (Hstop s Hs') as [Hn Hk]. apply Hin in Hs as [[-> Hs]|[Hne Hs]]; [done|]. by apply Hne, Hk.
  - eapply leak_ss; [exact Hcc| |exact H5]. intros key' s x t Hs Hn Hx Ht.
    destruct (decide (key' = key)) as [->|Hne]; [|destruct Hn; apply Hin; by right].
    destruct (Hdrop s x t) as [|]; [done| |done|done|by left|right; by right; left].
    intros Hl. destruct Hn. apply Hin. by left.
Qed.
(** ** Goroutines *)

Ltac at_thread :=
  repeat match goal with
  | H : <[_ := _]> _ !! _ = Some _ |- _ =>
      apply lookup_insert_Some in H as [[? ?]|[? H]]; [simplify_eq|]
  end.

(** A goroutine with nothing of the manager's in its hands. *)
Definition idle_th (th : MThread) : Prop :=
  match th with MAcquire _ (ATop | AWait _ | ARet _) | MCloseAll None => True | _ => False end.

Lemma idle_th_none th : idle_th th →
  (∀ c, ¬ fresh_client th c) ∧ (∀ key inf, ¬ connecting th key inf) ∧ (∀ inf, ¬ owes_signal th inf) ∧
  (∀ c, ¬ carries th c) ∧ (∀ cfg inf c ms, th ≠ MAcquire cfg (AHook inf c ms)) ∧ (∀ rest, th ≠ MCloseAll (Some rest)).
Proof. destruct th as [cfg []|[]]; try (by intros []); intros _; cbn; (split_and!; [..|intros ? ? ? ? [=]|intros ? [=]]); tauto. Qed.

Lemma fresh_owes th c : fresh_client th c → ∃ inf, owes_signal th inf.
Proof. destruct th as [cfg [| | |? []| |? []| |]|[]]; cbn; by eauto. Qed.

Lemma fresh_carries th c : fresh_client th c → carries th c.
Proof. by destruct th as [cfg [| | |? []| |? []| |]|[]]. Qed.

Lemma connecting_owes th key inf : connecting th key inf → owes_signal th inf.
Proof. destruct th as [cfg []|[]]; cbn; by try intros [-> _]. Qed.

Lemma shape_thread n heap clients ss hooks holds ths tid th' :
  (∀ c, fresh_client th' c → ∃ th, ths !! tid = Some th ∧ fresh_client th c) →
  (∀ cfg inf c ms, th' ≠ MAcquire cfg (AHook inf c ms)) →
  shape n heap clients ss hooks holds ths → shape n heap clients ss hooks holds (<[tid := th']> ths).
Proof.
  intros Hf Hh []. constructor; try done.
  - intros tid1 th1 c H1 Hc.
    assert (∃ th, ths !! tid1 = Some th ∧ fresh_client th c) as (th & Hth & Hfr) by (at_thread; by eauto). clear H1.
    destruct (sh_fresh0 tid1 th c Hth Hfr) as (? & ? & Hu). split_and!; [done..|].
    intros tid2 th2 H2 Hc2. at_thread; [|by eauto..]. destruct (Hf c Hc2) as (th2' & ? & ?). eauto.
  - intros tid1 cfg inf c ms H. at_thread; [by destruct (Hh cfg inf c ms)|eauto].
Qed.

Lemma flight_thread n closed ss infl infs ths tid th' :
  (∀ inf, owes_signal th' inf ↔ ∃ th, ths !! tid = Some th ∧ owes_signal th inf) →
  (∀ key inf, connecting th' key inf → ∃ th, ths !! tid = Some th ∧ connecting th key inf) →
  (∀ cfg inf, th' = MAcquire cfg (AWait inf) → is_Some (infs !! inf)) →
  (∀ rest, th' = MCloseAll (Some rest) → closed = true) →
  flight n closed ss infl infs ths → flight n closed ss infl infs (<[tid := th']> ths).
Proof.
  intros Ho Hc Hw Ha []. assert (∀ tid1 th1 inf, <[tid := th']> ths !! tid1 = Some th1 → owes_signal th1 inf →
    ∃ th, ths !! tid1 = Some th ∧ owes_signal th inf) as Ho'.
  { intros tid1 th1 inf H1 Hi. at_thread; [by apply Ho|eauto]. }
  constructor; try done.
  - intros tid1 th1 key inf H1 Hi. at_thread; [|by eauto]. destruct (Hc key inf Hi) as (? & ? & ?). eauto.
  - intros tid1 tid2 th1 th2 inf H1 H2 H3 H4.
    destruct (Ho' _ _ _ H1 H3) as (? & ? & ?), (Ho' _ _ _ H2 H4) as (? & ? & ?). eauto.
  - intros tid1 th1 inf H1 H2. destruct (Ho' _ _ _ H1 H2) as (? & ? & ?). eauto.
  - intros inf e Hi. destruct (fl_signal0 inf e Hi) as (tid1 & th1 & H1 & H2).
    destruct (decide (tid1 = tid)) as [->|Hne].
    + exists tid, th'. rewrite lookup_insert_eq. split; [done|]. apply Ho. eauto.
    + exists tid1, th1. by rewrite lookup_insert_ne.
  - intros tid1 cfg inf H. at_thread; eauto.
  - intros tid1 rest H. at_thread; eauto.
Qed.

Lemma accounted_thread heap ss (cc cc' : gset nat) ths tid th' c :
  (∀ th, ths !! tid = Some th → carries th c → carries th' c ∨ c ∈ cc') → cc ⊆ cc' →
  accounted heap ss cc ths c → accounted heap ss cc' (<[tid := th']> ths) c.
Proof.
  intros Hc Hcc [H|[H|(tid1 & th1 & H1 & H2)]]; [by left|right; left; set_solver|].
  destruct (decide (tid1 = tid)) as [->|Hne].
  - destruct (Hc th1 H1 H2); [|by right; left]. right; right. exists tid, th'. by rewrite lookup_insert_eq.
  - right; right. exists tid1, th1. by rewrite lookup_insert_ne.
Qed.

(** A goroutine that has nothing in hand before and after. *)
Lemma thread_inv m tid th' :
  (∀ th, m_threads m !! tid = Some th → idle_th th) → idle_th th' →
  (∀ cfg inf, th' = MAcquire cfg (AWait inf) → is_Some (m_infs m !! inf)) →
  m_inv m → m_inv (m_set tid th' m).
Proof.
  intros Hold (Hf & Hc & Ho & Hk & Hh & Ha)%idle_th_none Hw [H1 H2 H3 H4 H5].
  assert (∀ th, m_threads m !! tid = Some th → (∀ inf, ¬ owes_signal th inf) ∧ (∀ c, ¬ carries th c)) as Hold'.
  { intros th E. apply Hold, idle_th_none in E as (_ & _ & ? & ? & _). done. }
  constructor; cbn; try done.
  - apply shape_thread; [|done..]. intros c H. by destruct (Hf c).
  - apply flight_thread; [|intros ? ? H; by destruct (Hc _ _ H)|done|intros ? E; by destruct (Ha _ E)|done].
    intros inf. split; [intros H; by destruct (Ho _ H)|]. intros (th & E & H). by destruct (Hold' th E) as [H' _], (H' inf).
  - intros c t Hct Hop. apply (accounted_thread _ _ (m_closeCalls m)); [|done|by eapply H5].
    intros th E H. by destruct (Hold' th E) as [_ H'], (H' c).
Qed.
(** ** One session changes *)

Lemma shape_next n n' heap clients ss hooks holds ths :
  (n ≤ n')%nat → shape n heap clients ss hooks holds ths → shape n' heap clients ss hooks holds ths.
Proof. intros Hn []. constructor; try done; intros; (eapply Nat.lt_le_trans; [|exact Hn]); eauto. Qed.

Lemma flight_next n n' closed ss infl infs ths :
  (n ≤ n')%nat → flight n closed ss infl infs ths → flight n' closed ss infl infs ths.
Proof. intros Hn []. constructor; try done. intros; (eapply Nat.lt_le_trans; [|exact Hn]); eauto. Qed.

Lemma timers_next n n' heap ss tms cbs : (n ≤ n')%nat → timers n heap ss tms cbs → timers n' heap ss tms cbs.
Proof.
  intros Hn []. constructor; try done; try (intros; (eapply Nat.lt_le_trans; [|exact Hn]); by eauto).
  intros tm key s H. destruct (ti_armed0 tm key s H). split; [lia|done].
Qed.

Section OneSession.
Context (heap : gmap nat managedSession) (s : nat) (x x' : managedSession).
Context (Hx : heap !! s = Some x) (Hclient : ms_client x' = ms_client x).

Lemma lookup_heap s0 x0 : <[s := x']> heap !! s0 = Some x0 →
  ∃ x1, heap !! s0 = Some x1 ∧ ms_client x0 = ms_client x1 ∧ (s0 ≠ s → x0 = x1).
Proof. intros [[<- <-]|[Hne H]]%lookup_insert_Some; [exists x|by eauto]. split_and!; by try intros []. Qed.

Lemma heap_present s0 c : has_client heap s0 c → has_client (<[s := x']> heap) s0 c.
Proof.
  intros (y & Hy & <-). destruct (decide (s0 = s)) as [->|Hne].
  - exists x'. rewrite lookup_insert_eq. split; [done|]. congruence.
  - exists y. by rewrite lookup_insert_ne.
Qed.

Lemma shape_heap n clients ss hooks holds ths :
  ms_maxRealms x' = ms_maxRealms x →
  shape n heap clients ss hooks holds ths → shape n (<[s := x']> heap) clients ss hooks holds ths.
Proof.
  intros Hmax []. constructor; try done.
  - intros s0 x0 (x1 & H1 & _)%lookup_heap. eauto.
  - intros s0 x0 (x1 & H1 & -> & _)%lookup_heap. eauto.
  - intros s0 s1 x0 x1 (y0 & H0 & E0 & _)%lookup_heap (y1 & H1 & E1 & _)%lookup_heap. rewrite E0, E1. eauto.
  - intros key s0 (y & Hy & E)%sh_max0. destruct (decide (s0 = s)) as [->|Hne].
    + exists x'. rewrite lookup_insert_eq. split; [done|]. congruence.
    + exists y. by rewrite lookup_insert_ne.
  - intros c key ms H. destruct (sh_hooks0 c key ms H). eauto using heap_present.
  - intros ser c (s0 & y & Hy & <- & Hk)%sh_holds0. destruct (decide (s0 = s)) as [->|Hne].
    + exists s, x'. rewrite lookup_insert_eq. split_and!; [done|congruence|done].
    + exists s0, y. by rewrite lookup_insert_ne.
  - intros tid th c Ht Hf. destruct (sh_fresh0 tid th c Ht Hf) as (? & Hn & ?). split_and!; [done| |done].
    intros s0 x0 (x1 & H1 & -> & _)%lookup_heap. eauto.
  - intros tid cfg inf c ms H. destruct (sh_hook_pc0 tid cfg inf c ms H). eauto using heap_present.
Qed.

Lemma counts_heap ss holds holds' :
  (∀ s0 x0, heap !! s0 = Some x0 → ms_client x0 = ms_client x → s0 = s) →
  (∀ c, c ≠ ms_client x → holders holds' c = holders holds c) →
  (∀ key, in_map ss key s → ms_refCount x' = holders holds' (ms_client x) ∧ ms_refCount x' ≤ ms_maxRealms x') →
  counts heap ss holds → counts (<[s := x']> heap) ss holds'.
Proof.
  intros Hinj Hne Hs H key s0 x0 Hin. intros [[<- <-]|[Hn Hl]]%lookup_insert_Some.
  - rewrite Hclient. by eapply Hs.
  - rewrite Hne; [by eapply H|]. intros E. by destruct Hn; symmetry; eapply Hinj.
Qed.

Lemma timer_of_heap s0 tm : (∀ tm, ms_idleTimer x' = Some tm → ms_idleTimer x = Some tm) →
  timer_of (<[s := x']> heap) s0 tm → timer_of heap s0 tm.
Proof. intros Hi (y & [[<- <-]|[Hn Hl]]%lookup_insert_Some & E); [exists x|exists y]; eauto. Qed.

Lemma timers_heap n ss tms tms' cbs :
  (∀ tm, ms_idleTimer x' = Some tm → ms_idleTimer x = Some tm) →
  (∀ tm v, tms' !! tm = Some v → tms !! tm = Some v) →
  (∀ s0 tm, s0 ≠ s → timer_of heap s0 tm → tms' !! tm = tms !! tm) →
  (∀ key, in_map ss key s → 0 < ms_refCount x') →
  timers n heap ss tms cbs → timers n (<[s := x']> heap) ss tms' cbs.
Proof.
  intros Hi Hsub Hkeep Hpos []. constructor; eauto using timer_of_heap.
  intros key s0 x0 Hin. intros [[<- <-]|[Hn Hl]]%lookup_insert_Some Hr; [specialize (Hpos key Hin); lia|].
  destruct (ti_idle0 key s0 x0 Hin Hl Hr) as (tm & E & Ht). exists tm. split; [done|].
  rewrite (Hkeep s0 tm); [done..|]. by exists x0.
Qed.

Lemma timers_arm n ss tms tms' cbs key :
  (∀ tm v, tms' !! tm = Some v → tms !! tm = Some v) →
  (∀ s0 tm, s0 ≠ s → timer_of heap s0 tm → tms' !! tm = tms !! tm) →
  ms_idleTimer x' = Some n → (∀ key', in_map ss key' s → key' = key) →
  timers n heap ss tms cbs → timers (S n) (<[s := x']> heap) ss (<[n := (key, s)]> tms') cbs.
Proof.
  intros Hsub Hkeep Hi Hkey [].
  assert (∀ s0 tm, timer_of (<[s := x']> heap) s0 tm → (s0 = s ∧ tm = n) ∨ (s0 ≠ s ∧ timer_of heap s0 tm)) as Ht.
  { intros s0 tm (y & [[<- <-]|[Hn Hl]]%lookup_insert_Some & E); [left; split; congruence|right]. split; [done|by exists y]. }
  constructor.
  - intros s0 tm [[-> ->]|[_ H]]%Ht; [lia|]. specialize (ti_lt0 _ _ H). lia.
  - intros s0 s1 tm [[-> ->]|[H0 H1]]%Ht [[-> E]|[H2 H3]]%Ht; try done; [|subst|by eauto].
    + specialize (ti_lt0 _ _ H3). lia.
    + specialize (ti_lt0 _ _ H1). lia.
  - intros tm key0 s0 [[<- [= <- <-]]|[Hn Hl]]%lookup_insert_Some.
    + split; [lia|]. destruct (cbs !! n) as [v|] eqn:E; [|done]. specialize (ti_fired0 _ _ E). lia.
    + destruct (ti_armed0 tm key0 s0) as [? ?]; [by apply Hsub|]. split; [lia|done].
  - intros tm v H. specialize (ti_fired0 _ _ H). lia.
  - intros key0 s0 x0 Hin. intros [[<- <-]|[Hn Hl]]%lookup_insert_Some Hr.
    + exists n. split; [done|]. left. rewrite lookup_insert_eq, (Hkey key0); done.
    + destruct (ti_idle0 key0 s0 x0 Hin Hl Hr) as (tm & E & Htm). exists tm. split; [done|].
      assert (timer_of heap s0 tm) as H0 by (by exists x0). specialize (ti_lt0 _ _ H0).
      rewrite lookup_insert_ne by lia. by rewrite (Hkeep s0 tm).
Qed.

Lemma leak_heap clients ss (cc : gset nat) ths :
  no_leak clients heap ss cc ths → no_leak clients (<[s := x']> heap) ss cc ths.
Proof.
  intros H c t Hc Ho. destruct (H c t Hc Ho) as [(key & s0 & y & Hin & Hy & <-)|H']; [|by right]. left.
  destruct (decide (s0 = s)) as [->|Hne].
  - exists key, s, x'. rewrite lookup_insert_eq. split_and!; [done..|congruence].
  - exists key, s0, y. by rewrite lookup_insert_ne.
Qed.
End OneSession.
(** ** [Acquire]: the first critical section *)

Lemma holders_cons ser c holds c' :
  holders ((ser, c) :: holds) c' = holders holds c' + (if decide (c = c') then 1 else 0).
Proof. unfold holders. rewrite filter_cons. cbn. repeat case_decide; cbn; lia. Qed.

Lemma holders_remove ser c holds c' : (ser, c) ∈ holds →
  holders (remove_one (ser, c) holds) c' = holders holds c' - (if decide (c = c') then 1 else 0).
Proof.
  induction holds as [|[ser0 c0] holds IH]; [by intros ?%elem_of_nil|]. intros Hin. cbn [remove_one].
  destruct (decide ((ser0, c0) = (ser, c))) as [E|E].
  - injection E as -> ->. rewrite holders_cons. case_decide; lia.
  - rewrite !holders_cons, IH; [lia|]. apply elem_of_cons in Hin as [Hin|]; [by destruct E|done].
Qed.

Lemma elem_of_remove_one d c holds : d ∈ remove_one c holds → d ∈ holds.
Proof.
  induction holds as [|d0 holds IH]; cbn; [done|]. case_decide; rewrite !elem_of_cons; [by right|].
  intros [->|Hd]; [by left|right; by apply IH].
Qed.

Lemma holders_nonneg holds c : 0 ≤ holders holds c.
Proof. unfold holders. lia. Qed.

Lemma find_inv m key m1 found : m_inv m → findAvailableSession key m = (m1, found) →
  m_inv m1 ∧
  (∃ tms ss, m1 = m <| m_timers := tms |> <| m_sessions := ss |>) ∧
  (∀ s, in_map (m_sessions m1) key s ↔ in_map (m_sessions m) key s ∧ s_IsClosed m s = false) ∧
  match found with
  | Some s => in_map (m_sessions m1) key s ∧ has_capacity m1 s = true
  | None => ∀ s, in_map (m_sessions m1) key s → has_capacity m1 s = false
  end.
Proof.
  intros Hinv [= <- <-]. set (live := filter _ (sessions_at key m)). set (dead := filter _ (sessions_at key m)).
  pose proof (drop_inv m key live dead (m_closeCalls m)) as H.
  destruct (stop_timers_frame dead m) as (tms & E & _ & _). rewrite E in *.
  assert (∀ s, s ∈ live ↔ s_IsClosed m s = false ∧ in_map (m_sessions m) key s) as Hl
    by (intros; unfold live; by rewrite list_elem_of_filter).
  assert (∀ s, s ∈ dead ↔ s_IsClosed m s = true ∧ in_map (m_sessions m) key s) as Hd
    by (intros; unfold dead; by rewrite list_elem_of_filter).
  pose proof (mi_shape _ Hinv) as Hsh. split_and!.
  - apply H; [|done| | |done].
    + apply sublist_filter.
    + intros s [Hc Hs]%Hd. split; [rewrite Hl; intros [? _]; congruence|]. intros key' Hs'.
      by eapply (sh_disjoint _ _ _ _ _ _ _ Hsh).
    + intros s x t Hs Hn Hx Ht. left. destruct (tn_closed t) eqn:Hc; [done|]. destruct Hn. apply Hl. split; [|done].
      unfold s_IsClosed, client_of. rewrite Hx. cbn. by rewrite Ht.
  - by eexists _, _.
  - intros s. rewrite in_map_put, Hl. intuition.
  - unfold find_first. destruct (head _) as [s|] eqn:Eh.
    + destruct (filter _ live) as [|s' l] eqn:Ef; [done|]. injection Eh as ->.
      assert (s ∈ filter (λ s, has_capacity (put_sessions key live (m <| m_timers := tms |>)) s = true) live) as Hs
        by (rewrite Ef; left). apply list_elem_of_filter in Hs as [Hc Hs]. split; [|done]. rewrite in_map_put. by left.
    + intros s [[_ Hs]|[? _]]%in_map_put; [|done]. destruct (has_capacity _ s) eqn:Hc; [|done].
      destruct (filter _ live) as [|s' l] eqn:Ef; [|done]. exfalso.
      assert (s ∈ filter (λ s, has_capacity (put_sessions key live (m <| m_timers := tms |>)) s = true) live) as Hs'
        by (by apply list_elem_of_filter). rewrite Ef in Hs'. by apply elem_of_nil in Hs'.
Qed.
Lemma shape_holds n heap clients ss hooks holds holds' ths :
  (∀ ser c, (ser, c) ∈ holds' → (ser, c) ∈ holds ∨
     ∃ s x, heap !! s = Some x ∧ ms_client x = c ∧ ∀ key, in_map ss key s → k_serial key = ser) →
  shape n heap clients ss hooks holds ths → shape n heap clients ss hooks holds' ths.
Proof. intros Hh []. constructor; try done. intros ser c [H|H]%Hh; eauto. Qed.

(** [stop_timer] of [s] leaves the timers of other sessions alone. *)
Lemma stop_timer_other m s (tms : gmap nat (sessionKey * nat)) :
  (∀ tm, m_heap m !! s ≫= ms_idleTimer ≠ Some tm → tms !! tm = m_timers m !! tm) →
  m_inv m → ∀ s0 tm, s0 ≠ s → timer_of (m_heap m) s0 tm → tms !! tm = m_timers m !! tm.
Proof.
  intros H Hinv s0 tm Hne Htm. apply H. intros E. apply Hne. eapply (ti_inj _ _ _ _ _ (mi_timers _ Hinv)); [exact Htm|].
  destruct (m_heap m !! s) as [y|] eqn:Ey; [|done]. by exists y.
Qed.

Lemma reuse_inv m key s x :
  in_map (m_sessions m) key s → m_heap m !! s = Some x → ms_refCount x < ms_maxRealms x → m_inv m →
  m_inv ((sess_update s (λ x, x <| ms_idleTimer := None |> <| ms_refCount := ms_refCount x + 1 |>) (stop_timer s m))
           <| m_holds := (k_serial key, ms_client x) :: m_holds m |>).
Proof.
  intros Hs Hx Hcap Hinv. pose proof Hinv as [H1 H2 H3 H4 H5]. destruct (H2 key s x Hs Hx) as [Hr _].
  destruct (stop_timer_frame s m) as (tms & -> & Ht1 & Ht2). pose proof (stop_timer_other m s tms Ht2 Hinv) as Ht3.
  unfold sess_update. cbn. rewrite (alter_at _ _ x) by done. pose proof (holders_nonneg (m_holds m) (ms_client x)) as Hnn.
  constructor; cbn.
  - apply (shape_heap _ _ x); [done..|]. eapply shape_holds; [|exact H1].
    intros ser c [[= -> ->]|]%elem_of_cons; [right|by left]. exists s, x. split_and!; [done..|].
    intros key' Hk. f_equal. by eapply (sh_disjoint _ _ _ _ _ _ _ H1).
  - eapply (counts_heap _ _ x); [done..| | | |exact H2].
    + intros s0 x0 H0 E. by eapply (sh_inj _ _ _ _ _ _ _ H1).
    + intros c Hc. rewrite holders_cons, decide_False by done. lia.
    + intros _ _. cbn. rewrite holders_cons, decide_True by done. lia.
  - done.
  - eapply (timers_heap _ _ x); [done|done|done|exact Ht1|exact Ht3| |done]. intros _ _. cbn. lia.
  - by apply (leak_heap _ _ x).
Qed.

Lemma flight_start n closed ss infl infs ths tid cfg th :
  ths !! tid = Some th → idle_th th → infl !! sessionKeyFor cfg = None →
  (k_p2pPort (sessionKeyFor cfg) ≠ 0 → default [] (ss !! sessionKeyFor cfg) = []) →
  flight n closed ss infl infs ths →
  flight (S n) closed ss (<[sessionKeyFor cfg := n]> infl) (<[n := (false, None)]> infs)
    (<[tid := MAcquire cfg (AConnect n)]> ths).
Proof.
  intros Hth (_ & Hc & Ho & _)%idle_th_none Hinf Hfix [].
  assert (infs !! n = None) as Hn by (destruct (infs !! n) eqn:E; [specialize (fl_lt0 _ _ E); lia|done]).
  assert (∀ tid' th', ths !! tid' = Some th' → ¬ owes_signal th' n) as Hno.
  { intros tid' th' H1 H2. destruct (fl_owed0 _ _ _ H1 H2) as (e & He). congruence. }
  assert (∀ inf, is_Some (infs !! inf) → is_Some (<[n := (false, None)]> infs !! inf)) as Hsome.
  { intros inf Hi. destruct (decide (inf = n)) as [->|]; [rewrite lookup_insert_eq|rewrite lookup_insert_ne by done]; eauto. }
  constructor; try done.
  - intros inf y [[<- _]|[_ H]]%lookup_insert_Some; [lia|]. specialize (fl_lt0 _ _ H). lia.
  - intros tid1 th1 key inf H1 H2. at_thread; [destruct H2 as [-> ->]; by rewrite lookup_insert_eq|].
    specialize (fl_connecting0 _ _ _ _ H1 H2). rewrite lookup_insert_ne; [done|]. intros <-. congruence.
  - intros tid1 tid2 th1 th2 inf H1 H2 H3 H4. at_thread; [done| | |by eauto].
    + destruct (Hno _ _ H1). cbn in H4. by subst inf.
    + destruct (Hno _ _ H2). cbn in H3. by subst inf.
  - intros tid1 th1 inf H1 H2. at_thread.
    + cbn in H2. subst inf. rewrite lookup_insert_eq. by eexists.
    + rewrite lookup_insert_ne; [by eauto|]. intros <-. by destruct (Hno _ _ H1).
  - intros inf e [[<- [= <-]]|[Hne H]]%lookup_insert_Some.
    + exists tid, (MAcquire cfg (AConnect n)). by rewrite lookup_insert_eq.
    + destruct (fl_signal0 _ _ H) as (tid1 & th1 & H1 & H2). exists tid1, th1. rewrite lookup_insert_ne; [done|].
      intros <-. assert (th1 = th) as -> by congruence. by destruct (Ho inf).
  - intros tid1 cfg1 inf H1. at_thread. eauto.
  - intros key inf [[<- <-]|[_ H]]%lookup_insert_Some; [|by eauto]. rewrite lookup_insert_eq. by eexists.
  - intros tid1 rest H1. at_thread. eauto.
  - intros key Hk. destruct (fl_fixed0 key Hk) as [F1 F2]. split; [done|].
    destruct (decide (key = sessionKeyFor cfg)) as [->|Hne]; [by auto|]. by rewrite lookup_insert_ne by done.
Qed.

Lemma start_inv m tid cfg th :
  m_threads m !! tid = Some th → idle_th th → m_inflight m !! sessionKeyFor cfg = None →
  (k_p2pPort (sessionKeyFor cfg) ≠ 0 → sessions_at (sessionKeyFor cfg) m = []) → m_inv m →
  m_inv (m_set tid (MAcquire cfg (AConnect (m_next m)))
    (m <| m_infs := <[m_next m := (false, None)]> (m_infs m) |>
       <| m_inflight := <[sessionKeyFor cfg := m_next m]> (m_inflight m) |> <| m_next := S (m_next m) |>)).
Proof.
  intros Hth Hidle Hinf Hfix [H1 H2 H3 H4 H5]. constructor; cbn; [|done| | |].
  - apply shape_thread; [done..|]. by eapply (shape_next (m_next m)); [lia|].
  - by eapply flight_start.
  - eapply (timers_next (m_next m)); [lia|done].
  - intros c t Hc Hop. apply (accounted_thread _ _ (m_closeCalls m)); [|done|by eapply H5].
    intros th' E Hk. assert (th' = th) as -> by congruence. apply idle_th_none in Hidle as (_ & _ & _ & Hn & _).
    by destruct (Hn c).
Qed.

Lemma acquire_top_inv m tid cfg m1 pc :
  m_threads m !! tid = Some (MAcquire cfg ATop) → acquire_top cfg m = (m1, pc) → m_inv m →
  m_inv (m_set tid (MAcquire cfg pc) m1).
Proof.
  intros Hth E Hinv. unfold acquire_top in E. destruct (m_closed m) eqn:Hcl.
  { simplify_eq. apply thread_inv; [|done..]. intros th E. by simplify_eq. }
  destruct (findAvailableSession _ m) as [m2 found] eqn:Ef.
  destruct (find_inv _ _ _ _ Hinv Ef) as (Hinv2 & (tms & ss & Em2) & Hin & Hfound).
  assert (m_threads m2 !! tid = Some (MAcquire cfg ATop)) as Hth2 by (by subst m2).
  assert (∀ th, m_threads m2 !! tid = Some th → idle_th th) as Hidle by (intros th E'; by simplify_eq).
  destruct found as [s|].
  - destruct Hfound as [Hs Hc]. unfold has_capacity in Hc. apply andb_true_iff in Hc as [_ Hc].
    destruct (m_heap m2 !! s) as [x|] eqn:Hx; [|done]. apply bool_decide_eq_true in Hc.
    pose proof (reuse_inv m2 _ s x Hs Hx Hc Hinv2) as Hr.
    destruct (stop_timer_frame s m2) as (tms' & Est & _). rewrite Est in E, Hr. unfold sess_update in E, Hr. cbn in E, Hr.
    rewrite (alter_at _ _ x) in E, Hr by done. rewrite lookup_insert_eq in E. cbn in E. simplify_eq.
    by apply thread_inv.
  - case_decide as Hp; [simplify_eq; by apply thread_inv|].
    destruct (m_inflight m2 !! sessionKeyFor cfg) as [inf|] eqn:Hi; simplify_eq.
    + apply thread_inv; [done..| |done]. intros cfg' inf' [= <- <-].
      by eapply (fl_inflight _ _ _ _ _ _ (mi_flight _ Hinv2)).
    + eapply start_inv; [done..| |done]. intros Hport. destruct (decide (sessions_at (sessionKeyFor cfg) (m <| m_timers := tms |> <| m_sessions := ss |>) = [])); [done|].
      by destruct Hp.
Qed.
(** ** [Acquire]: the handshake and the second critical section *)

Lemma shape_connect n heap clients ss hooks holds ths tid cfg inf t :
  shape n heap clients ss hooks holds ths →
  shape (S n) heap (<[n := t]> clients) ss hooks holds (<[tid := MAcquire cfg (ARegister inf (Some n))]> ths).
Proof.
  intros Hsh. pose proof Hsh as [].
  assert (∀ c, is_Some (clients !! c) → c ≠ n) as Hne.
  { intros c [t' H] ->. specialize (sh_client_lt0 _ _ H). lia. }
  assert (∀ tid' th' c, ths !! tid' = Some th' → fresh_client th' c → c ≠ n) as Hfr.
  { intros tid' th' c H1 H2. apply Hne. by eapply sh_fresh0. }
  constructor; try done.
  - intros s x H. specialize (sh_heap_lt0 _ _ H). lia.
  - intros c t' [[<- _]|[_ H]]%lookup_insert_Some; [lia|]. specialize (sh_client_lt0 _ _ H). lia.
  - intros s x H. specialize (sh_client0 _ _ H). rewrite lookup_insert_ne; [done|]. by apply not_eq_sym, Hne.
  - intros tid1 th1 c H1 H2. at_thread.
    + cbn in H2. subst c. rewrite lookup_insert_eq. split_and!; [done| |].
      * intros s x Hx E. by apply (Hne (ms_client x)); [eapply sh_client0|].
      * intros tid2 th2 H3 H4. at_thread; [done|]. by destruct (Hfr _ _ _ H3 H4).
    + destruct (sh_fresh0 _ _ _ H1 H2) as (Hc & ? & Hu). split_and!; [by rewrite lookup_insert_ne by (by apply not_eq_sym, Hne)|done|].
      intros tid2 th2 H3 H4. at_thread; [|by eauto]. cbn in H4. subst c. by destruct (Hfr _ _ _ H1 H2).
  - intros tid1 cfg1 inf1 c ms H. at_thread. eauto.
Qed.

Lemma connect_inv m tid cfg inf t :
  m_threads m !! tid = Some (MAcquire cfg (AConnect inf)) → m_inv m →
  m_inv (m_set tid (MAcquire cfg (ARegister inf (Some (m_next m))))
    (m <| m_clients := <[m_next m := t]> (m_clients m) |> <| m_next := S (m_next m) |>)).
Proof.
  intros Hth [H1 H2 H3 H4 H5]. constructor; cbn; [|done| | |].
  - by apply shape_connect.
  - eapply (flight_next (m_next m)); [lia|]. apply flight_thread; [..|done]; try done.
    + intros inf'. split; [by eauto|]. intros (th & E & Ho). by simplify_eq.
    + intros key inf' Hc. eauto.
  - eapply (timers_next (m_next m)); [lia|done].
  - intros c t' [[<- <-]|[Hne Hc]]%lookup_insert_Some Hop.
    + right; right. exists tid. eexists. by rewrite lookup_insert_eq.
    + apply (accounted_thread _ _ (m_closeCalls m)); [|done|by eapply H5]. intros th E. by simplify_eq.
Qed.

(** The goroutine keeps its handshake and its client. *)
Lemma keep_inv m tid th th' :
  m_threads m !! tid = Some th → (∀ c, fresh_client th' c ↔ fresh_client th c) →
  (∀ c, carries th c → carries th' c ∨ c ∈ m_closeCalls m) →
  (∀ inf, owes_signal th' inf ↔ owes_signal th inf) → (∀ key inf, connecting th' key inf → connecting th key inf) →
  (∀ cfg inf, th' ≠ MAcquire cfg (AWait inf)) → (∀ cfg inf c ms, th' ≠ MAcquire cfg (AHook inf c ms)) →
  (∀ rest, th' = MCloseAll (Some rest) → m_closed m = true) →
  m_inv m → m_inv (m_set tid th' m).
Proof.
  intros Hth Hf Hk Ho Hc Hw Hh Ha [H1 H2 H3 H4 H5]. constructor; cbn; [|done| |done|].
  - apply shape_thread; [|done..]. intros c ?%Hf. eauto.
  - apply flight_thread; [| |intros ? ? E; by destruct (Hw _ _ E)|done|done].
    + intros inf. rewrite Ho. split; [by eauto|]. intros (th0 & E & H). by simplify_eq.
    + intros key inf ?%Hc. eauto.
  - intros c t Hct Hop. apply (accounted_thread _ _ (m_closeCalls m)); [|done|by eapply H5].
    intros th0 E H. simplify_eq. by apply Hk.
Qed.

(** [delete(m.inflight, key); inf.err = err], the session list growing by [l]. *)
Lemma flight_register n closed ss ss' infl infs ths tid cfg inf client err th' :
  ths !! tid = Some (MAcquire cfg (ARegister inf client)) →
  (∀ key, key ≠ sessionKeyFor cfg → default [] (ss' !! key) = default [] (ss !! key)) →
  (length (default [] (ss' !! sessionKeyFor cfg)) ≤ length (default [] (ss !! sessionKeyFor cfg)) + 1)%nat →
  (closed = true → default [] (ss' !! sessionKeyFor cfg) = default [] (ss !! sessionKeyFor cfg)) →
  (∀ inf', owes_signal th' inf' ↔ inf' = inf) → (∀ key inf', ¬ connecting th' key inf') →
  (∀ cfg inf, th' ≠ MAcquire cfg (AWait inf)) → (∀ rest, th' ≠ MCloseAll (Some rest)) →
  flight n closed ss infl infs ths →
  flight n closed ss' (delete (sessionKeyFor cfg) infl)
    (alter (λ i : bool * option AcquireError, (i.1, err)) inf infs) (<[tid := th']> ths).
Proof.
  intros Hth Hss Hlen Hcl Ho Hc Hw Ha [].
  assert (infl !! sessionKeyFor cfg = Some inf) as Hinf by (by eapply fl_connecting0).
  destruct (fl_owed0 _ _ inf Hth) as (e0 & He0); [done|].
  rewrite (alter_at _ _ (false, e0)) by done. cbn.
  assert (∀ inf', is_Some (infs !! inf') → is_Some (<[inf := (false, err)]> infs !! inf')) as Hsome.
  { intros inf' Hi. destruct (decide (inf' = inf)) as [->|]; [rewrite lookup_insert_eq|rewrite lookup_insert_ne by done]; eauto. }
  assert (∀ tid1 th1 inf', <[tid := th']> ths !! tid1 = Some th1 → owes_signal th1 inf' →
    ∃ th, ths !! tid1 = Some th ∧ owes_signal th inf') as Ho'.
  { intros tid1 th1 inf' H1 Hi. at_thread; [|by eauto]. apply Ho in Hi as ->. by eexists. }
  constructor.
  - intros E key. destruct (decide (key = sessionKeyFor cfg)) as [->|Hne]; [rewrite Hcl by done|rewrite Hss by done]; by apply fl_closed0.
  - intros inf' y [[<- _]|[_ H]]%lookup_insert_Some; eauto.
  - intros tid1 th1 key inf' H1 H2. at_thread; [by destruct (Hc _ _ H2)|].
    specialize (fl_connecting0 _ _ _ _ H1 H2) as Hi. rewrite lookup_delete_ne; [done|]. intros <-.
    assert (inf' = inf) as -> by congruence. apply connecting_owes in H2.
    assert (tid1 = tid) by (by eapply fl_owner0). done.
  - intros tid1 tid2 th1 th2 inf' H1 H2 H3 H4.
    destruct (Ho' _ _ _ H1 H3) as (? & ? & ?), (Ho' _ _ _ H2 H4) as (? & ? & ?). eauto.
  - intros tid1 th1 inf' H1 H2. destruct (Ho' _ _ _ H1 H2) as (? & H3 & H4). destruct (fl_owed0 _ _ _ H3 H4) as (e & He).
    destruct (decide (inf' = inf)) as [->|]; [rewrite lookup_insert_eq|rewrite lookup_insert_ne by done]; eauto.
  - intros inf' e H. assert (∃ e', infs !! inf' = Some (false, e')) as (e' & H').
    { apply lookup_insert_Some in H as [[<- _]|[_ H]]; by eauto. }
    destruct (fl_signal0 _ _ H') as (tid1 & th1 & H1 & H2). destruct (decide (tid1 = tid)) as [->|Hne].
    + exists tid, th'. rewrite lookup_insert_eq. split; [done|]. apply Ho. by simplify_eq.
    + exists tid1, th1. by rewrite lookup_insert_ne.
  - intros tid1 cfg1 inf' H. at_thread; [by destruct (Hw cfg1 inf')|]. eauto.
  - intros key inf' [_ H]%lookup_delete_Some. eauto.
  - intros tid1 rest H. at_thread; [by destruct (Ha rest)|]. eauto.
  - intros key Hk. destruct (fl_fixed0 key Hk) as [F1 F2]. destruct (decide (key = sessionKeyFor cfg)) as [->|Hne].
    + rewrite F2 in Hlen by eauto. cbn in Hlen. split; [done|]. rewrite lookup_delete_eq. by intros [].
    + by rewrite Hss, lookup_delete_ne by done.
Qed.
(** Nobody holds a client that an [Acquire] has not registered. *)
Lemma fresh_holders n heap clients ss hooks holds ths tid th c :
  shape n heap clients ss hooks holds ths → ths !! tid = Some th → fresh_client th c → holders holds c = 0.
Proof.
  intros Hsh Hth Hf. unfold holders. destruct (filter _ holds) as [|[ser d] l] eqn:E; [done|]. exfalso.
  assert ((ser, d) ∈ filter (λ d, d.2 = c) holds) as H by (rewrite E; left).
  apply list_elem_of_filter in H as [Hd H]. cbn in Hd. subst d.
  destruct (sh_holds _ _ _ _ _ _ _ Hsh _ _ H) as (s & x & Hx & Hc & _).
  destruct (sh_fresh _ _ _ _ _ _ _ Hsh _ _ _ Hth Hf) as (_ & Hn & _). by apply (Hn s x).
Qed.

(** A new session [n] for the fresh client [c], at the end of the list of [key]. *)
Section NewSession.
Context (n : nat) (heap : gmap nat managedSession) (clients : gmap nat T) (ss : smap)
  (hooks : gmap nat (sessionKey * nat)) (holds : list (string * nat)) (ths : gmap nat MThread).
Context (tid : nat) (cfg : Config) (inf c : nat).
Context (Hth : ths !! tid = Some (MAcquire cfg (ARegister inf (Some c)))).
Context (Hsh : shape n heap clients ss hooks holds ths).

#[local] Abbreviation key := (sessionKeyFor cfg).
#[local] Abbreviation ms := (mkSess c 1 None (k_maxRealms key)).
#[local] Abbreviation ss' := (<[key := default [] (ss !! key) ++ [n]]> ss).
#[local] Abbreviation ths' := (<[tid := MAcquire cfg (AHook inf c n)]> ths).

Lemma in_map_new key' s : in_map ss' key' s ↔ in_map ss key' s ∨ (key' = key ∧ s = n).
Proof.
  unfold in_map. destruct (decide (key' = key)) as [->|Hne].
  - rewrite lookup_insert_eq. cbn. rewrite elem_of_app, list_elem_of_singleton. intuition.
  - rewrite lookup_insert_ne by done. intuition.
Qed.

Lemma heap_fresh : heap !! n = None.
Proof. destruct (heap !! n) eqn:E; [apply (sh_heap_lt _ _ _ _ _ _ _ Hsh) in E; lia|done]. Qed.

Lemma not_in_map_fresh key' : ¬ in_map ss key' n.
Proof. intros (x & Hx & _)%(sh_max _ _ _ _ _ _ _ Hsh). by rewrite heap_fresh in Hx. Qed.

Lemma client_fresh s x : heap !! s = Some x → ms_client x ≠ c.
Proof. by eapply (sh_fresh _ _ _ _ _ _ _ Hsh tid). Qed.

Lemma heap_grows s x : heap !! s = Some x → <[n := ms]> heap !! s = Some x.
Proof. intros Hx. rewrite lookup_insert_ne; [done|]. intros <-. by rewrite heap_fresh in Hx. Qed.

Lemma has_client_grows s c' : has_client heap s c' → has_client (<[n := ms]> heap) s c'.
Proof. intros (x & Hx & Hc). exists x. split; [by apply heap_grows|done]. Qed.

Lemma shape_register :
  shape (S n) (<[n := ms]> heap) clients ss' hooks ((k_serial key, c) :: holds) ths'.
Proof.
  pose proof Hsh as []. pose proof heap_fresh as Hn. pose proof client_fresh as Hcf.
  assert (∀ s key', heap !! s ≠ None → in_map ss' key' s → in_map ss key' s) as Hold.
  { intros s key' Hs [?|[-> ->]]%in_map_new; [done|]. by rewrite Hn in Hs. }
  constructor.
  - intros s x [[<- _]|[_ H]]%lookup_insert_Some; [lia|]. specialize (sh_heap_lt0 _ _ H). lia.
  - intros c' t H. specialize (sh_client_lt0 _ _ H). lia.
  - intros s x [[<- <-]|[_ H]]%lookup_insert_Some; [|by eauto]. by eapply (sh_fresh0 tid).
  - intros s s' x x' [[<- <-]|[? H]]%lookup_insert_Some [[<- <-]|[? H']]%lookup_insert_Some E; [done|..|by eauto].
    + by destruct (Hcf s' x').
    + by destruct (Hcf s x).
  - intros key' s [(x & Hx & Hm)%sh_max0|[-> ->]]%in_map_new.
    + exists x. split; [by apply heap_grows|done].
    + exists ms. by rewrite lookup_insert_eq.
  - intros key'. destruct (decide (key' = key)) as [->|Hne]; [|by rewrite lookup_insert_ne].
    rewrite lookup_insert_eq. apply NoDup_app. split_and!; [done| |apply NoDup_singleton].
    intros s Hs ->%list_elem_of_singleton. by apply (not_in_map_fresh key).
  - intros k1 k2 s [H1|[-> ->]]%in_map_new [H2|[-> E]]%in_map_new; [by eauto|subst s|..|done];
      by destruct (not_in_map_fresh _ H1) || destruct (not_in_map_fresh _ H2).
  - intros c' key' ms' H. destruct (sh_hooks0 _ _ _ H) as [Hms Hk]. split; [by apply has_client_grows|].
    intros k ?%Hold; [by apply Hk|]. by destruct Hms as (? & -> & _).
  - intros ser c' [[= -> ->]|H]%elem_of_cons.
    + exists n, ms. rewrite lookup_insert_eq. split_and!; [done..|]. intros k [Hk|[-> _]]%in_map_new; [|done].
      by destruct (not_in_map_fresh _ Hk).
    + destruct (sh_holds0 _ _ H) as (s & x & Hx & Hc & Hk). exists s, x. split_and!; [by apply heap_grows|done|].
      intros k ?%Hold; [by apply Hk|]. by rewrite Hx.
  - intros tid1 th1 c' H1 H2. at_thread; [by cbn in H2|]. destruct (sh_fresh0 _ _ _ H1 H2) as (H3 & H4 & H5).
    split_and!; [done| |].
    + intros s x [[<- <-]|[_ Hx]]%lookup_insert_Some; [|by eauto]. cbn. intros <-.
      assert (tid = tid1) by (by eapply H5). done.
    + intros tid2 th2 H6 H7. at_thread; by eauto.
  - intros tid1 cfg1 inf1 c1 ms1 [[<- [= <- <- <- <-]]|[_ H1]]%lookup_insert_Some.
    + split; [exists ms; by rewrite lookup_insert_eq|]. intros k [Hk|[-> _]]%in_map_new; [|done]. by destruct (not_in_map_fresh _ Hk).
    + destruct (sh_hook_pc0 _ _ _ _ _ H1) as [Hms Hk]. split; [by apply has_client_grows|].
      intros k ?%Hold; [by apply Hk|]. by destruct Hms as (? & -> & _).
Qed.

Lemma k_maxRealms_pos : 1 ≤ k_maxRealms key.
Proof. unfold sessionKeyFor. cbn. case_decide; unfold DefaultMaxRealmsPerTunnel; lia. Qed.

Lemma counts_register : counts heap ss holds → counts (<[n := ms]> heap) ss' ((k_serial key, c) :: holds).
Proof.
  intros H key' s x [Hs|[-> ->]]%in_map_new; intros [[E <-]|[Hne Hx]]%lookup_insert_Some; try subst s.
  - by destruct (not_in_map_fresh _ Hs).
  - rewrite holders_cons, decide_False by (by apply not_eq_sym, (client_fresh s)).
    destruct (H key' s x Hs Hx). lia.
  - cbn. rewrite holders_cons, (fresh_holders _ _ _ _ _ _ _ _ _ _ Hsh Hth), decide_True by done. pose proof k_maxRealms_pos. cbn in *. lia.
  - done.
Qed.

Lemma timers_register tms cbs : timers n heap ss tms cbs → timers (S n) (<[n := ms]> heap) ss' tms cbs.
Proof.
  intros H%(timers_next n (S n)); [|lia]. destruct H.
  assert (∀ s tm, timer_of (<[n := ms]> heap) s tm → timer_of heap s tm) as Ht.
  { intros s tm (x & [[<- <-]|[Hne Hx]]%lookup_insert_Some & E); [done|by exists x]. }
  constructor; try done; eauto.
  intros key' s x Hs [[<- <-]|[Hne Hx]]%lookup_insert_Some Hr; [by cbn in Hr|].
  apply in_map_new in Hs as [Hs|[_ ->]]; [by eauto|done].
Qed.

Lemma leak_register (cc : gset nat) : no_leak clients heap ss cc ths → no_leak clients (<[n := ms]> heap) ss' cc ths'.
Proof.
  intros H c' t Hc Hop. destruct (decide (c' = c)) as [->|Hne].
  - left. exists key, n, ms. rewrite lookup_insert_eq. split_and!; [|done..]. apply in_map_new. by right.
  - apply (accounted_thread _ _ cc); [|done|].
    + intros th E Hk. by simplify_eq.
    + destruct (H c' t Hc Hop) as [(k & s & x & Hs & Hx & E)|H']; [left|by right].
      exists k, s, x. split_and!; [apply in_map_new; by left|by apply heap_grows|done].
Qed.
End NewSession.
Lemma acquire_register_inv m tid cfg inf client m1 pc :
  m_threads m !! tid = Some (MAcquire cfg (ARegister inf client)) → acquire_register cfg inf client m = (m1, pc) →
  m_inv m → m_inv (m_set tid (MAcquire cfg pc) m1).
Proof.
  intros Hth E [H1 H2 H3 H4 H5].
  assert (∀ err, m_inv (m_set tid (MAcquire cfg (ADiscard inf client err))
     (m <| m_inflight := delete (sessionKeyFor cfg) (m_inflight m) |>
        <| m_infs := alter (λ i : bool * option AcquireError, (i.1, Some err)) inf (m_infs m) |>))) as Hfail.
  { intros err. constructor; cbn; [|done| |done|].
    - apply shape_thread; [|done..]. intros c Hc. eexists. split; [exact Hth|exact Hc].
    - eapply flight_register; try done; [lia|]. tauto.
    - intros c t Hc Hop. apply (accounted_thread _ _ (m_closeCalls m)); [|done|by eapply H5].
      intros th Eth Hk. simplify_eq. by left. }
  unfold acquire_register in E. destruct client as [c|]; [|simplify_eq; by apply Hfail]. cbn in E.
  destruct (m_closed m) eqn:Hcl; simplify_eq; [by apply Hfail|]. constructor; cbn.
  - by apply shape_register.
  - by eapply counts_register.
  - eapply (flight_next (m_next m)); [lia|]. eapply (flight_register _ _ (m_sessions m)); try done; try tauto.
    + intros key Hne. by rewrite lookup_insert_ne.
    + rewrite lookup_insert_eq. cbn. by rewrite length_app.
    + by rewrite Hcl.
    + by rewrite Hcl.
  - by eapply timers_register.
  - by eapply leak_register.
Qed.

Lemma hook_inv m tid cfg inf c ms :
  m_threads m !! tid = Some (MAcquire cfg (AHook inf c ms)) → m_inv m →
  m_inv (m_set tid (MAcquire cfg (ASignal inf (inr c))) (m <| m_hooks := <[c := (sessionKeyFor cfg, ms)]> (m_hooks m) |>)).
Proof.
  intros Hth Hinv. apply (keep_inv _ _ (MAcquire cfg (AHook inf c ms))); try done.
  destruct Hinv as [H1 H2 H3 H4 H5]. constructor; cbn; try done.
  destruct H1. constructor; try done.
  intros c' key' ms' [[<- [= <- <-]]|[_ H]]%lookup_insert_Some; eauto.
Qed.

Lemma closeCalls_inv m (cc : gset nat) : m_closeCalls m ⊆ cc → m_inv m → m_inv (m <| m_closeCalls := cc |>).
Proof.
  intros Hcc []. constructor; cbn; try done. eapply leak_ss; [exact Hcc| |done]. naive_solver.
Qed.

Lemma discard_inv m tid cfg inf client e :
  m_threads m !! tid = Some (MAcquire cfg (ADiscard inf client e)) → m_inv m →
  m_inv (m_set tid (MAcquire cfg (ASignal inf (inl e)))
    (match client with Some c => m <| m_closeCalls := {[c]} ∪ m_closeCalls m |> | None => m end)).
Proof.
  intros Hth Hinv. set (m0 := match client with Some c => _ | None => m end).
  assert (m_inv m0) as Hinv0.
  { subst m0. destruct client; [|done]. apply closeCalls_inv; [set_solver|done]. }
  assert (m_threads m0 !! tid = Some (MAcquire cfg (ADiscard inf client e))) as Hth0 by (subst m0; by destruct client).
  assert (∀ c, fresh_client (MAcquire cfg (ADiscard inf client e)) c → c ∈ m_closeCalls m0) as Hcc.
  { subst m0. destruct client; [|done]. cbn. intros ? ->. set_solver. }
  clearbody m0. constructor; cbn; try apply Hinv0.
  - apply shape_thread; [done..|apply Hinv0].
  - apply flight_thread; [|done..|apply Hinv0]. intros inf'. split.
    + intros ->. by eexists.
    + intros (th & E & Ho). by simplify_eq.
  - intros c t Hc Hop. apply (accounted_thread _ _ (m_closeCalls m0)); [|done|by eapply (mi_leak _ Hinv0)].
    intros th E Hk. right. apply Hcc. simplify_eq. by destruct client.
Qed.

Lemma signal_inv m tid cfg inf res :
  m_threads m !! tid = Some (MAcquire cfg (ASignal inf res)) → m_inv m →
  m_inv (m_set tid (MAcquire cfg (ARet res))
    (m <| m_infs := alter (λ i : bool * option AcquireError, (true, i.2)) inf (m_infs m) |>)).
Proof.
  intros Hth [H1 H2 H3 H4 H5]. constructor; cbn; try done.
  - by apply shape_thread.
  - destruct H3. destruct (fl_owed0 _ _ inf Hth) as (e0 & He0); [done|]. rewrite (alter_at _ _ (false, e0)) by done. cbn.
    assert (∀ inf', is_Some (m_infs m !! inf') → is_Some (<[inf := (true, e0)]> (m_infs m) !! inf')) as Hsome.
    { intros inf' Hi. destruct (decide (inf' = inf)) as [->|]; [rewrite lookup_insert_eq|rewrite lookup_insert_ne by done]; eauto. }
    constructor; try done.
    + intros inf' y [[<- _]|[_ H]]%lookup_insert_Some; eauto.
    + intros tid1 th1 key inf' E1 E2. at_thread; [done|]. eauto.
    + intros tid1 tid2 th1 th2 inf' E1 E2 E3 E4. at_thread; by eauto.
    + intros tid1 th1 inf' E1 E2. at_thread; [done|]. rewrite lookup_insert_ne; [by eauto|]. intros <-.
      assert (tid = tid1) by (by eapply fl_owner0). done.
    + intros inf' e [[<- [=]]|[Hne H]]%lookup_insert_Some. destruct (fl_signal0 _ _ H) as (tid1 & th1 & E1 & E2).
      exists tid1, th1. rewrite lookup_insert_ne; [done|]. intros <-. by simplify_eq.
    + intros tid1 cfg1 inf' E1. at_thread. eauto.
    + eauto.
    + intros tid1 rest E1. at_thread. eauto.
  - intros c t Hc Hop. apply (accounted_thread _ _ (m_closeCalls m)); [|done|by eapply H5].
    intros th E Hk. by simplify_eq.
Qed.

Lemma Acquire_step_inv m tid ch cfg pc m1 pc1 :
  m_threads m !! tid = Some (MAcquire cfg pc) → Acquire_step ch cfg pc m = Some (m1, pc1) → m_inv m →
  m_inv (m_set tid (MAcquire cfg pc1) m1).
Proof.
  intros Hth E Hinv. destruct pc as [|inf|inf|inf client|inf c ms|inf client e|inf res|res]; cbn in E; [..|done].
  - injection E as E. by eapply acquire_top_inv.
  - apply bind_Some in E as ([closed err] & Hi & E). destruct closed; [|done]. simplify_eq.
    apply thread_inv; [| |by intros ? ? [= ? ?]; destruct err|done].
    + intros th Eth. by simplify_eq.
    + by destruct err.
  - destruct ch as [|t|]; simplify_eq; [by apply connect_inv|].
    by apply (keep_inv _ _ (MAcquire cfg (AConnect inf))).
  - injection E as E. by eapply acquire_register_inv.
  - simplify_eq. by apply hook_inv.
  - simplify_eq. by apply discard_inv.
  - simplify_eq. by apply signal_inv.
Qed.
(** ** [CloseAll], [forget], timers, [Release] *)

Lemma elem_of_all_sessions m s : s ∈ all_sessions m ↔ ∃ key, in_map (m_sessions m) key s.
Proof.
  unfold all_sessions, in_map. rewrite list_elem_of_In, in_concat. split.
  - intros (l & Hl & Hs). apply list_elem_of_In, list_elem_of_fmap in Hl as ([key l'] & -> & Hl).
    apply elem_of_map_to_list in Hl. exists key. rewrite Hl. by apply list_elem_of_In.
  - intros (key & Hs). destruct (m_sessions m !! key) as [l|] eqn:E; [|by apply elem_of_nil in Hs]. exists l.
    split; [|by apply list_elem_of_In]. apply list_elem_of_In, list_elem_of_fmap. exists (key, l). split; [done|].
    by apply elem_of_map_to_list.
Qed.

Lemma flight_shut n closed ss infl infs ths : flight n closed ss infl infs ths → flight n true ∅ infl infs ths.
Proof.
  intros []. constructor; try done. intros key _. rewrite lookup_empty. split; [cbn; lia|done].
Qed.

Lemma closeAll_inv m tid m1 cs :
  m_threads m !! tid = Some (MCloseAll None) → closeAll_section m = (m1, cs) → m_inv m →
  m_inv (m_set tid (MCloseAll (Some cs)) m1).
Proof.
  intros Hth [= <- <-] [H1 H2 H3 H4 H5]. destruct (stop_timers_frame (all_sessions m) m) as (tms & -> & Ht1 & _).
  assert (ss_le ∅ (m_sessions m)) as Hle.
  { intros key. rewrite lookup_empty. apply sublist_nil_l. }
  constructor; cbn.
  - apply shape_thread; [done..|]. by eapply shape_ss.
  - by eapply counts_ss.
  - apply flight_thread; try done.
    + intros inf. split; [done|]. intros (th & E & Ho). by simplify_eq.
    + by eapply flight_shut.
  - eapply timers_ss; [exact Hle|exact Ht1| |exact H4]. intros key s tm Hs. by destruct (in_map_empty _ _ Hs).
  - intros c t Hc Hop. destruct (H5 c t Hc Hop) as [(key & s & x & Hs & Hx & <-)|[Hcc|(tid1 & th1 & E1 & E2)]].
    + right; right. exists tid. eexists. rewrite lookup_insert_eq. split; [done|]. cbn. apply list_elem_of_omap.
      exists s. rewrite Hx. split; [|done]. apply elem_of_all_sessions. eauto.
    + right; by left.
    + right; right. destruct (decide (tid1 = tid)) as [->|Hne]; [by simplify_eq|]. exists tid1, th1. by rewrite lookup_insert_ne.
Qed.
Lemma closeAll_step_inv m tid c cs :
  m_threads m !! tid = Some (MCloseAll (Some (c :: cs))) → m_inv m →
  m_inv (m_set tid (MCloseAll (Some cs)) (m <| m_closeCalls := {[c]} ∪ m_closeCalls m |>)).
Proof.
  intros Hth Hinv. apply (keep_inv _ _ (MCloseAll (Some (c :: cs)))); try done.
  - cbn. intros c' [->|Hc]%elem_of_cons; [right; set_solver|by left].
  - intros rest [= ->]. by eapply (fl_closing _ _ _ _ _ _ (mi_flight _ Hinv)).
  - apply closeCalls_inv; [set_solver|done].
Qed.

Lemma spawn_inv m tid th m1 : m_spawn tid th m = Some m1 → idle_th th →
  (∀ cfg inf, th ≠ MAcquire cfg (AWait inf)) → m_inv m → m_inv m1.
Proof.
  unfold m_spawn. intros E Hidle Hw Hinv. case_decide as Hn; [|done]. simplify_eq. apply thread_inv; [|done| |done].
  - intros th' Hth'. congruence.
  - intros cfg inf E. by destruct (Hw cfg inf).
Qed.

Lemma client_inv m c t t' : m_clients m !! c = Some t → (tn_closed t = true → tn_closed t' = true) →
  m_inv m → m_inv (m <| m_clients := <[c := t']> (m_clients m) |>).
Proof.
  intros Hc Hcl [H1 H2 H3 H4 H5].
  assert (∀ c', is_Some (m_clients m !! c') → is_Some (<[c := t']> (m_clients m) !! c')) as Hsome.
  { intros c' [y Hy]. destruct (decide (c = c')) as [->|Hne]; [rewrite lookup_insert_eq|rewrite lookup_insert_ne]; eauto. }
  constructor; cbn; try done.
  - destruct H1. constructor; try done; eauto.
    + intros c' t0 [[<- _]|[_ H]]%lookup_insert_Some; eauto.
    + intros tid th c' E1 E2. destruct (sh_fresh0 tid th c' E1 E2) as (? & ? & ?). eauto.
  - intros c' t0 [[<- <-]|[_ H]]%lookup_insert_Some Hop; [|by eapply H5].
    eapply H5; [exact Hc|]. destruct (tn_closed t); [|done]. rewrite Hcl in Hop; done.
Qed.

Lemma fires_inv m tm v : m_timers m !! tm = Some v → m_inv m →
  m_inv (m <| m_timers := delete tm (m_timers m) |> <| m_callbacks := <[tm := v]> (m_callbacks m) |>).
Proof.
  intros Htm [H1 H2 H3 H4 H5]. constructor; cbn; try done. destruct H4.
  destruct v as [key0 s0]. destruct (ti_armed0 tm key0 s0 Htm) as [Hlt Hno]. constructor; try done.
  - intros tm' key s [Hne H]%lookup_delete_Some. destruct (ti_armed0 tm' key s H). by rewrite lookup_insert_ne.
  - intros tm' v [[<- _]|[_ H]]%lookup_insert_Some; eauto.
  - intros key s x Hs Hx Hr. destruct (ti_idle0 key s x Hs Hx Hr) as (tm' & E & Ht). exists tm'. split; [done|].
    destruct (decide (tm' = tm)) as [->|Hne].
    + right. rewrite lookup_insert_eq. destruct Ht; congruence.
    + by rewrite lookup_delete_ne, lookup_insert_ne by done.
Qed.

(** The session leaves the list [removeSession] is applied to, and no other does. *)
Lemma removeSession_inv m key s x (cc' : gset nat) stop :
  m_heap m !! s = Some x → m_closeCalls m ⊆ cc' →
  (stop = [] ∨ stop = [s] ∧ ∀ key', in_map (m_sessions m) key' s → key' = key) →
  (∀ t, m_clients m !! ms_client x = Some t → tn_closed t = true ∨ ms_client x ∈ cc') → m_inv m →
  m_inv ((put_sessions key (removeSession (sessions_at key m) s) (foldr stop_timer m stop)) <| m_closeCalls := cc' |>).
Proof.
  intros Hx Hcc Hstop Hd Hinv. pose proof (sh_nodup _ _ _ _ _ _ _ (mi_shape _ Hinv) key) as Hnd.
  apply drop_inv; [|done| | |done].
  - apply removeSession_sublist.
  - intros s' Hs'. destruct Hstop as [->|[-> Hk]]; [by apply elem_of_nil in Hs'|].
    apply list_elem_of_singleton in Hs' as ->. split; [|done]. rewrite elem_of_removeSession by done. by intros [_ ?].
  - intros s' x' t Hs' Hn Hx' Ht. rewrite elem_of_removeSession in Hn by done.
    destruct (decide (s' = s)) as [->|Hne]; [|by destruct Hn]. simplify_eq. by apply Hd.
Qed.

Lemma timers_ran n heap ss tms cbs tm key s : cbs !! tm = Some (key, s) →
  (∀ x, in_map ss key s → heap !! s = Some x → 0 < ms_refCount x) →
  timers n heap ss tms cbs → timers n heap ss tms (delete tm cbs).
Proof.
  intros Hc Hb []. constructor; try done.
  - intros tm' key' s' H. destruct (ti_armed0 _ _ _ H). split; [done|]. rewrite lookup_delete_None. by right.
  - intros tm' v [_ H]%lookup_delete_Some. eauto.
  - intros key' s' x Hs Hx Hr. destruct (ti_idle0 key' s' x Hs Hx Hr) as (tm' & E & Ht). exists tm'. split; [done|].
    destruct (decide (tm' = tm)) as [->|Hne]; [|by rewrite lookup_delete_ne].
    destruct Ht as [Ht|Ht]; [by left|]. simplify_eq. specialize (Hb x Hs Hx). lia.
Qed.

Lemma runs_inv m tm key s : m_callbacks m !! tm = Some (key, s) → m_inv m →
  m_inv (idle_callback key s (m <| m_callbacks := delete tm (m_callbacks m) |>)).
Proof.
  intros Hc Hinv. unfold idle_callback. cbn. destruct (m_heap m !! s) as [x|] eqn:Hx.
  - change (sessions_at key _) with (sessions_at key m). case_decide as Hd.
    + pose proof (removeSession_inv m key s x ({[ms_client x]} ∪ m_closeCalls m) [] Hx) as H. cbn [foldr] in H.
      destruct H as [H1 H2 H3 H4 H5]; [apply union_subseteq_r|by left| |done|].
      { intros t _. right. by apply elem_of_union_l, elem_of_singleton_2. }
      constructor; try done. cbn in *.
      eapply timers_ran; [done| |done]. intros x' Hs Hx'. exfalso.
      apply (in_map_put key _ m key s) in Hs as [[_ Hs]|[? _]]; [|done].
      apply elem_of_removeSession in Hs as [_ ?]; [done|]. apply (mi_shape _ Hinv).
    + destruct Hinv. constructor; cbn; try done. eapply timers_ran; [done| |done]. intros x' Hs Hx'. simplify_eq.
      destruct (decide (0 < ms_refCount x)); [done|]. destruct Hd. split; [done|lia].
  - destruct Hinv. constructor; cbn; try done. eapply timers_ran; [done| |done]. intros x' Hs Hx'. congruence.
Qed.

Lemma forget_inv m c key ms t : m_hooks m !! c = Some (key, ms) → m_clients m !! c = Some t → tn_closed t = true →
  m_inv m → m_inv (forget key ms (m <| m_hooks := delete c (m_hooks m) |>)).
Proof.
  intros Hh Ht Hcl Hinv. destruct (sh_hooks _ _ _ _ _ _ _ (mi_shape _ Hinv) _ _ _ Hh) as [(x & Hx & Hc) Hk].
  assert (m_inv (m <| m_hooks := delete c (m_hooks m) |>)) as Hinv'.
  { destruct Hinv as [[]]. constructor; cbn; try done. constructor; try done.
    intros c' key' ms' [_ H]%lookup_delete_Some. eauto. }
  set (m0 := m <| m_hooks := delete c (m_hooks m) |>) in *. unfold forget.
  pose proof (removeSession_inv m0 key ms x (m_closeCalls m) [ms] Hx) as H. cbn [foldr] in H.
  destruct (stop_timer_frame ms m0) as (tms & E & _). rewrite E in *.
  apply H; [done|right; done| |done]. intros t' Ht'. left. cbn in Ht'. congruence.
Qed.
(** The session of a held client: where it is, and what its count is. *)
Lemma held_session m serial client s x key :
  (serial, client) ∈ m_holds m → in_map (m_sessions m) key s → m_heap m !! s = Some x → ms_client x = client →
  m_inv m → k_serial key = serial ∧ 1 ≤ ms_refCount x.
Proof.
  intros Hh Hs Hx <- Hinv. destruct (sh_holds _ _ _ _ _ _ _ (mi_shape _ Hinv) _ _ Hh) as (s' & x' & Hx' & Hc & Hk).
  assert (s' = s) as -> by (by eapply (sh_inj _ _ _ _ _ _ _ (mi_shape _ Hinv))). split; [by apply Hk|].
  destruct (mi_counts _ Hinv key s x Hs Hx) as [-> _].
  pose proof (holders_remove _ _ _ (ms_client x) Hh) as E. rewrite decide_True in E by done.
  pose proof (holders_nonneg (remove_one (serial, ms_client x) (m_holds m)) (ms_client x)). lia.
Qed.

Lemma release_gone_inv m serial client :
  release_allowed serial client None m → m_inv m → m_inv (m <| m_holds := remove_one (serial, client) (m_holds m) |>).
Proof.
  intros [Hh Hno] Hinv. pose proof Hinv as [H1 H2 H3 H4 H5]. constructor; cbn; try done.
  - eapply shape_holds; [|exact H1]. intros ser c H. left. by eapply elem_of_remove_one.
  - intros key s x Hs Hx. destruct (H2 key s x Hs Hx) as [-> ?]. split; [|lia].
    rewrite holders_remove by done. case_decide as Hc; [|lia]. exfalso. symmetry in Hc.
    destruct (held_session m serial client s x key) as [Hk _]; [done..|].
    unfold in_map in Hs. destruct (m_sessions m !! key) as [l|] eqn:E; [|by apply elem_of_nil in Hs].
    apply (Hno key l E). split; [done|]. unfold sessions_at. rewrite E. apply Exists_exists. exists s.
    split; [done|]. rewrite Hx. cbn. by rewrite Hc.
Qed.

(** Session [s] of the list of [key] goes from [x] to [x'] as one reference comes back. *)
Record released m (serial : string) key (s : nat) (x x' : managedSession) : Prop := mkReleased {
  rel_inv : m_inv m;
  rel_in : in_map (m_sessions m) key s;
  rel_heap : m_heap m !! s = Some x;
  rel_held : (serial, ms_client x) ∈ m_holds m;
  rel_client : ms_client x' = ms_client x;
  rel_max : ms_maxRealms x' = ms_maxRealms x;
  rel_count : ms_refCount x' = ms_refCount x - 1 }.

#[local] Abbreviation holds_less m serial x := (remove_one (serial, ms_client x) (m_holds m)).

Lemma shape_released m serial key s x x' : released m serial key s x x' →
  shape (m_next m) (<[s := x']> (m_heap m)) (m_clients m) (m_sessions m) (m_hooks m) (holds_less m serial x) (m_threads m).
Proof.
  intros [Hinv Hs Hx Hh Hc Hm Hr]. apply (shape_heap _ _ x); [done..|]. eapply shape_holds; [|apply Hinv]. intros ser c H. left.
  by eapply elem_of_remove_one.
Qed.

Lemma counts_released m serial key s x x' : released m serial key s x x' →
  counts (<[s := x']> (m_heap m)) (m_sessions m) (holds_less m serial x).
Proof.
  intros [Hinv Hs Hx Hh Hc Hm Hr]. eapply (counts_heap _ _ x); [done..| | | |apply Hinv].
  - intros s0 x0 H0 E. by eapply (sh_inj _ _ _ _ _ _ _ (mi_shape _ Hinv)).
  - intros c Hne. rewrite holders_remove, decide_False by done. lia.
  - intros key' Hs'. destruct (mi_counts _ Hinv key' s x Hs' Hx) as [Hr' ?].
    rewrite holders_remove, decide_True by done. lia.
Qed.

Lemma released_inv m serial key s x x' : released m serial key s x x' → 0 < ms_refCount x' → ms_idleTimer x' = ms_idleTimer x →
  m_inv (m <| m_holds := holds_less m serial x |> <| m_heap := <[s := x']> (m_heap m) |>).
Proof.
  intros Hrel Hpos Hi. pose proof Hrel as [Hinv Hs Hx Hh Hc Hm Hr]. pose proof Hinv as [H1 H2 H3 H4 H5]. constructor; cbn; [by eapply shape_released|by eapply counts_released|done|..].
  - eapply (timers_heap _ _ x); [done..|by rewrite Hi|done|done|done|done].
  - by apply (leak_heap _ _ x).
Qed.

Lemma released_idle_inv m serial key s x x' (tms : gmap nat (sessionKey * nat)) : released m serial key s x x' →
  (∀ tm v, tms !! tm = Some v → m_timers m !! tm = Some v) →
  (∀ s0 tm, s0 ≠ s → timer_of (m_heap m) s0 tm → tms !! tm = m_timers m !! tm) →
  ms_idleTimer x' = Some (m_next m) →
  m_inv (m <| m_holds := holds_less m serial x |> <| m_heap := <[s := x']> (m_heap m) |>
           <| m_timers := <[m_next m := (key, s)]> tms |> <| m_next := S (m_next m) |>).
Proof.
  intros Hrel Ht1 Ht3 Hi. pose proof Hrel as [Hinv Hs Hx Hh Hc Hm Hr]. pose proof Hinv as [H1 H2 H3 H4 H5]. constructor; cbn; [|by eapply counts_released|..].
  - eapply (shape_next (m_next m)); [lia|]. by eapply shape_released.
  - eapply (flight_next (m_next m)); [lia|done].
  - eapply timers_arm; [done..| |done]. intros key' Hs'. by eapply (sh_disjoint _ _ _ _ _ _ _ H1).
  - by apply (leak_heap _ _ x).
Qed.

Lemma released_retired_inv m serial key s x x' (tms : gmap nat (sessionKey * nat)) : released m serial key s x x' →
  (∀ tm v, tms !! tm = Some v → m_timers m !! tm = Some v) →
  (∀ s0 tm, s0 ≠ s → timer_of (m_heap m) s0 tm → tms !! tm = m_timers m !! tm) →
  ms_idleTimer x' = None →
  m_inv ((put_sessions key (removeSession (sessions_at key m) s)
    (m <| m_holds := holds_less m serial x |> <| m_heap := <[s := x']> (m_heap m) |> <| m_timers := tms |>))
    <| m_closeCalls := {[ms_client x]} ∪ m_closeCalls m |>).
Proof.
  intros Hrel Ht1 Ht3 Hi. pose proof Hrel as [Hinv Hs Hx Hh Hc Hm Hr].
  pose proof (sh_nodup _ _ _ _ _ _ _ (mi_shape _ Hinv) key) as Hnd.
  pose proof (ss_le_put key (removeSession (sessions_at key m) s) m (removeSession_sublist _ _)) as Hle.
  pose proof (in_map_put key (removeSession (sessions_at key m) s) m) as Hin.
  pose proof Hinv as [H1 H2 H3 H4 H5]. constructor; cbn in *.
  - eapply shape_ss; [exact Hle|by eapply shape_released].
  - eapply counts_ss; [exact Hle|by eapply counts_released].
  - by eapply flight_ss.
  - eapply (timers_heap _ _ x); [done..|by rewrite Hi|exact Ht1|exact Ht3| |].
    + intros key' [[-> Hs']|[Hne Hs']]%Hin.
      * apply elem_of_removeSession in Hs' as [_ ?]; done.
      * destruct Hne. by eapply (sh_disjoint _ _ _ _ _ _ _ H1).
    + eapply timers_ss; [exact Hle|done|done|done].
  - apply (leak_heap _ _ x); [done..|]. eapply leak_ss; [apply union_subseteq_r| |exact H5].
    intros key' s' y t Hs' Hn Hy Ht. right; right; left. apply elem_of_union_l, elem_of_singleton.
    assert (s' = s) as ->; [|by simplify_eq]. destruct (decide (s' = s)) as [|Hne]; [done|]. destruct Hn. apply Hin.
    destruct (decide (key' = key)) as [->|Hk]; [left|by right]. split; [done|]. by apply elem_of_removeSession.
Qed.
Lemma sess_update_at m s x f : m_heap m !! s = Some x → sess_update s f m = m <| m_heap := <[s := f x]> (m_heap m) |>.
Proof. intros Hx. unfold sess_update. by rewrite (alter_at _ _ x). Qed.

Lemma sess_update_again m s y f h :
  sess_update s f (m <| m_heap := <[s := y]> h |>) = m <| m_heap := <[s := f y]> h |>.
Proof. rewrite (sess_update_at _ s y); cbn; [by rewrite insert_insert_eq|apply lookup_insert_eq]. Qed.

Lemma stop_timer_same m m0 s x y h tms :
  stop_timer s m = m <| m_timers := tms |> → m_heap m !! s = Some x → ms_idleTimer y = ms_idleTimer x →
  m_timers m0 = m_timers m →
  stop_timer s (m0 <| m_heap := <[s := y]> h |>) = m0 <| m_timers := tms |> <| m_heap := <[s := y]> h |>.
Proof.
  unfold stop_timer. cbn. intros Est Hx Hi Ht. rewrite lookup_insert_eq. cbn. rewrite Hx in Est. cbn in Est. rewrite Hi.
  destruct (ms_idleTimer x); apply (f_equal m_timers) in Est; cbn in Est; rewrite <- Est, <- Ht; [done|by destruct m0].
Qed.

(** What [Release] finds, and the states it can end in. *)
Lemma Release_cases m m0 serial client key m1 :
  m0 = m <| m_holds := remove_one (serial, client) (m_holds m) |> →
  (serial, client) ∈ m_holds m → m_inv m → Release client (Some key) m0 = Some m1 →
  ∃ s x tms, in_map (m_sessions m) key s ∧ m_heap m !! s = Some x ∧ ms_client x = client ∧ 1 ≤ ms_refCount x ∧
    (∀ tm v, tms !! tm = Some v → m_timers m !! tm = Some v) ∧
    (∀ s0 tm, s0 ≠ s → timer_of (m_heap m) s0 tm → tms !! tm = m_timers m !! tm) ∧
    (if decide (1 < ms_refCount x) then
       m1 = m0 <| m_heap := <[s := x <| ms_refCount := ms_refCount x - 1 |>]> (m_heap m) |>
     else if s_IsRetired m s then
       m1 = (put_sessions key (removeSession (sessions_at key m) s)
               (m0 <| m_heap := <[s := x <| ms_refCount := 0 |> <| ms_idleTimer := None |>]> (m_heap m) |>
                   <| m_timers := tms |>)) <| m_closeCalls := {[client]} ∪ m_closeCalls m |>
     else
       m1 = m0 <| m_heap := <[s := x <| ms_refCount := 0 |> <| ms_idleTimer := Some (m_next m) |>]> (m_heap m) |>
               <| m_timers := <[m_next m := (key, s)]> tms |> <| m_next := S (m_next m) |>).
Proof.
  intros -> Hh Hinv E. unfold Release in E. apply bind_Some in E as (s & Hf & E). apply find_first_Some in Hf as [Hs Hc].
  apply bool_decide_eq_true in Hc. apply bind_Some in E as (x & Hx & E). rewrite Hx in Hc. cbn in Hc. injection Hc as Hc.
  cbn in Hx. change (in_map (m_sessions m) key s) in Hs.
  destruct (held_session m serial client s x key Hh Hs Hx Hc Hinv) as [_ Hpos].
  destruct (stop_timer_frame s m) as (tms & Est & Ht1 & Ht2).
  exists s, x, tms. split_and!; [done..|by apply (stop_timer_other m s)|].
  rewrite (sess_update_at _ s x) in E by done. rewrite !sess_update_again in E.
  destruct (decide (0 < ms_refCount x - 1)) as [Hd|Hd]; [rewrite decide_True by lia; by simplify_eq|rewrite decide_False by lia].
  rewrite (stop_timer_same m _ s x _ _ tms Est) in E by done. rewrite !sess_update_again in E.
  match type of E with (if ?b then _ else _) = _ => replace b with (s_IsRetired m s) in E end.
  2: { unfold s_IsRetired, client_of. cbn. by rewrite Hx, lookup_insert_eq. }
  destruct (s_IsRetired m s); by simplify_eq.
Qed.

Lemma Release_inv m serial client (key : option sessionKey) m1 :
  release_allowed serial client key m →
  Release client key (m <| m_holds := remove_one (serial, client) (m_holds m) |>) = Some m1 → m_inv m → m_inv m1.
Proof.
  intros Hal E Hinv. destruct key as [key|]; [|simplify_eq/=; by apply release_gone_inv]. destruct Hal as [Hh _].
  destruct (Release_cases _ _ _ _ _ _ eq_refl Hh Hinv E) as (s & x & tms & Hs & Hx & <- & Hpos & Ht1 & Ht3 & E1).
  case_decide as Hd; [|destruct (s_IsRetired m s)]; subst m1.
  - apply (released_inv m serial key s x); [constructor| |]; try done. cbn. lia.
  - apply (released_retired_inv m serial key s x); [constructor| | |]; try done. cbn. lia.
  - apply (released_idle_inv m serial key s x); [constructor| | |]; try done. cbn. lia.
Qed.

(** ** Every step keeps the invariants *)

Lemma m_step_inv ev m m1 : m_inv m → m_step ev m = Some m1 → m_inv m1.
Proof.
  intros Hinv E. destruct ev as [tid ch|tid cfg|serial client key|tm|tm|c|tid|c a]; cbn in E.
  - apply bind_Some in E as (th & Hth & E). destruct th as [cfg pc|[[|c cs]|]]; [|done|..].
    + apply bind_Some in E as ([m2 pc2] & E & [= <-]). by eapply Acquire_step_inv.
    + simplify_eq. by apply closeAll_step_inv.
    + destruct (closeAll_section m) as [m2 cs] eqn:Ec. simplify_eq. by eapply closeAll_inv.
  - by eapply spawn_inv.
  - case_decide as Hal; [|done]. by eapply Release_inv.
  - apply bind_Some in E as (v & Hv & [= <-]). by apply fires_inv.
  - apply bind_Some in E as ([key s] & Hv & [= <-]). by apply runs_inv.
  - apply bind_Some in E as ([key ms] & Hh & E). apply bind_Some in E as (t & Ht & E). destruct (tn_closed t) eqn:Hcl; [|done].
    simplify_eq. by eapply forget_inv.
  - by eapply spawn_inv.
  - apply bind_Some in E as (t & Ht & E). apply bind_Some in E as (t' & Ht' & [= <-]).
    eapply client_inv; [exact Ht| |done]. by eapply tn_closed_stays.
Qed.

Lemma m_run_inv evs m m1 : m_inv m → m_run evs m = Some m1 → m_inv m1.
Proof.
  revert m. induction evs as [|ev evs IH]; intros m Hinv E; cbn in E; [by simplify_eq|].
  apply bind_Some in E as (m2 & E2 & E). eapply IH; [|exact E]. by eapply m_step_inv.
Qed.

Lemma m_reachable_inv m : m_reachable m → m_inv m.
Proof. intros [evs E]. eapply m_run_inv; [apply New_manager_inv|done]. Qed.

Lemma m_reachable_step ev m m1 : m_reachable m → m_step ev m = Some m1 → m_reachable m1.
Proof.
  intros [evs E] Hs. exists (evs ++ [ev]). revert E. generalize (NewSessionManager : SM).
  induction evs as [|ev' evs IH]; intros m0 E; cbn in *; [simplify_eq; by rewrite Hs|].
  apply bind_Some in E as (m2 & -> & E). cbn. by apply IH.
Qed.
End ManagerInv.
