(* ===== verification/ManagerThm.v ===== *)
(** * The session manager: theorems

    What [Acquire], [Release], the idle timers and [CloseAll] guarantee together, in
    every interleaving and over any tunnels that keep [TunnelApi].  The examples run
    the manager over the tunnels of [TunnelState]. *)

From Stdlib Require Import ZArith Lia Strings.Byte.
From S2P Require Import Prelude PtcpSession TunnelState TunnelApi Manager ManagerInv.

Section ManagerThm.
Context {T A : Type} `{!TunnelApi T A}.
Abbreviation SM := (@SM T).
Implicit Types (m : SM).

(** C20. In every reachable state of the manager: the reference count of a
    session in the map is the number of references handed out and not yet released,
    and is between 0 and the positive per-tunnel maximum of its configuration; two
    goroutines never run a handshake for the same configuration; and a configuration
    that pins the local UDP port has at most one entry in the manager's map, and none while
    a handshake for it runs.  (This is about the map: a session leaves it before its socket
    is closed, and two configurations that pin the same port have an entry each.) *)
Theorem manager_capacity m :
  m_reachable m →
  (∀ key s x, s ∈ sessions_at key m → m_heap m !! s = Some x →
     ms_refCount x = holders (m_holds m) (ms_client x) ∧ 0 ≤ ms_refCount x ≤ k_maxRealms key) ∧
  (∀ key tid tid' th th' inf inf', m_threads m !! tid = Some th → m_threads m !! tid' = Some th' →
     connecting th key inf → connecting th' key inf' → tid = tid') ∧
  (∀ key, k_p2pPort key ≠ 0 →
     (length (sessions_at key m) ≤ 1)%nat ∧
     ∀ tid th inf, m_threads m !! tid = Some th → connecting th key inf → sessions_at key m = []).
Proof.
  intros Hinv%m_reachable_inv. pose proof (mi_flight _ Hinv) as Hfl. split_and!.
  - intros key s x Hs Hx. destruct (mi_counts _ Hinv key s x Hs Hx) as [Hr Hm].
    destruct (sh_max _ _ _ _ _ _ _ (mi_shape _ Hinv) key s Hs) as (x' & Hx' & <-). simplify_eq.
    pose proof (holders_nonneg (m_holds m) (ms_client x)). lia.
  - intros key tid tid' th th' inf inf' H1 H2 H3 H4.
    pose proof (fl_connecting _ _ _ _ _ _ Hfl _ _ _ _ H1 H3). pose proof (fl_connecting _ _ _ _ _ _ Hfl _ _ _ _ H2 H4).
    simplify_eq. eapply (fl_owner _ _ _ _ _ _ Hfl); eauto using connecting_owes.
  - intros key Hk. destruct (fl_fixed _ _ _ _ _ _ Hfl key Hk) as [H1 H2]. split; [done|].
    intros tid th inf Hth Hc. apply H2. eexists. by eapply (fl_connecting _ _ _ _ _ _ Hfl).
Qed.

(** C8. No tunnel is lost: in every reachable state a tunnel that is still open is
    in the map of a manager that is not shut down, or [Close] has been called on it, or
    it is in the hands of an [Acquire] that will register or close it or of a
    [CloseAll] that will close it.  So after [CloseAll] has run and the calls to
    [Acquire] have returned, every tunnel is closed or being closed. *)
Theorem manager_no_leak m c t :
  m_reachable m → m_clients m !! c = Some t → tn_closed t = false →
  (m_closed m = false ∧ ∃ key s x, s ∈ sessions_at key m ∧ m_heap m !! s = Some x ∧ ms_client x = c) ∨
  c ∈ m_closeCalls m ∨
  (∃ tid th, m_threads m !! tid = Some th ∧ carries th c).
Proof.
  intros Hinv%m_reachable_inv Hc Ho. destruct (mi_leak _ Hinv c t Hc Ho) as [(key & s & x & Hs & Hx & E)|H]; [|by right].
  left. split; [|by eauto 10]. destruct (m_closed m) eqn:Hcl; [|done].
  unfold in_map in Hs. rewrite (fl_closed _ _ _ _ _ _ (mi_flight _ Hinv) Hcl key) in Hs. by apply elem_of_nil in Hs.
Qed.

(** What a step adds to the tunnels the manager has closed. *)
Lemma idle_callback_calls key s m c :
  m_inv m → c ∈ m_closeCalls (idle_callback key s m) → c ∉ m_closeCalls m → holders (m_holds m) c = 0.
Proof.
  intros Hinv. unfold idle_callback. destruct (m_heap m !! s) as [x|] eqn:Hx; [|done]. case_decide as Hd; [|done].
  destruct Hd as [Hs Hr]. cbn. intros [->%elem_of_singleton|?]%elem_of_union Hn; [|done].
  destruct (mi_counts _ Hinv key s x Hs Hx) as [E _]. pose proof (holders_nonneg (m_holds m) (ms_client x)). lia.
Qed.

Lemma Release_calls m serial client (key : option sessionKey) m1 c :
  release_allowed serial client key m →
  Release client key (m <| m_holds := remove_one (serial, client) (m_holds m) |>) = Some m1 → m_inv m →
  c ∈ m_closeCalls m1 → c ∉ m_closeCalls m → holders (m_holds m1) c = 0.
Proof.
  intros Hal E Hinv Hc Hn. destruct key as [key|]; [|by simplify_eq/=]. destruct Hal as [Hh _].
  destruct (Release_cases _ _ _ _ _ _ eq_refl Hh Hinv E) as (s & x & tms & Hs & Hx & <- & Hpos & _ & _ & E1).
  case_decide as Hd; [by subst m1|]. destruct (s_IsRetired m s); subst m1; [|done]. cbn in *.
  apply elem_of_union in Hc as [->%elem_of_singleton|?]; [|done]. rewrite holders_remove, decide_True by done.
  destruct (mi_counts _ Hinv key s x Hs Hx) as [Er _]. lia.
Qed.

Lemma Acquire_step_calls m tid ch cfg pc m1 pc1 c :
  m_threads m !! tid = Some (MAcquire cfg pc) → Acquire_step ch cfg pc m = Some (m1, pc1) → m_inv m →
  c ∈ m_closeCalls m1 → c ∉ m_closeCalls m → holders (m_holds m1) c = 0.
Proof.
  intros Hth E Hinv Hc Hn. destruct pc as [|inf|inf|inf client|inf c0 ms|inf client e|inf res|res]; cbn in E; [..|done].
  - injection E as E. unfold acquire_top in E. destruct (m_closed m); [by simplify_eq|].
    destruct (findAvailableSession _ m) as [m2 found] eqn:Ef.
    destruct (find_inv _ _ _ _ Hinv Ef) as (_ & (tms & ss & ->) & _). destruct found as [s|].
    + destruct (stop_timer_frame s (m <| m_timers := tms |> <| m_sessions := ss |>)) as (tms' & Est & _).
      rewrite Est in E. by repeat case_match; simplify_eq.
    + by repeat case_match; simplify_eq.
  - apply bind_Some in E as ([closed err] & Hi & E). destruct closed; by simplify_eq.
  - destruct ch; by simplify_eq.
  - injection E as E. unfold acquire_register in E. by repeat case_match; simplify_eq.
  - by simplify_eq.
  - destruct client as [c'|]; simplify_eq; [|done]. cbn in *.
    apply elem_of_union in Hc as [->%elem_of_singleton|?]; [|done].
    by eapply fresh_holders; [apply Hinv|exact Hth|].
  - by simplify_eq.
Qed.
(** C22. In every reachable state a session in the map that nobody uses has an idle
    timer armed for it, or one that has fired and whose callback is about to run: no
    unused tunnel stays open for good.  And whatever step the system takes, a tunnel
    on which it calls [Close] has no reference out, unless the manager is shut down:
    no used tunnel is closed under its user. *)
Theorem manager_idle m :
  m_reachable m →
  (∀ key s x, s ∈ sessions_at key m → m_heap m !! s = Some x → holders (m_holds m) (ms_client x) = 0 →
     ∃ tm, m_timers m !! tm = Some (key, s) ∨ m_callbacks m !! tm = Some (key, s)) ∧
  (∀ ev m1 c, m_step ev m = Some m1 → c ∈ m_closeCalls m1 → c ∉ m_closeCalls m →
     holders (m_holds m1) c = 0 ∨ m_closed m = true).
Proof.
  intros Hinv%m_reachable_inv. split.
  - intros key s x Hs Hx Hh. destruct (mi_counts _ Hinv key s x Hs Hx) as [Hr _].
    destruct (ti_idle _ _ _ _ _ (mi_timers _ Hinv) key s x Hs Hx) as (tm & _ & Ht); [lia|by eauto].
  - intros ev m1 c E Hc Hn. destruct ev as [tid ch|tid cfg|serial client key|tm|tm|c0|tid|c0 a]; cbn in E.
    + apply bind_Some in E as (th & Hth & E). destruct th as [cfg pc|[[|c0 cs]|]]; [|done|..].
      * apply bind_Some in E as ([m2 pc2] & E & [= <-]). left. change (holders (m_holds m2) c = 0).
        by eapply Acquire_step_calls.
      * right. by eapply (fl_closing _ _ _ _ _ _ (mi_flight _ Hinv)).
      * unfold closeAll_section in E. destruct (stop_timers_frame (all_sessions m) m) as (tms & Est & _).
        rewrite Est in E. by simplify_eq.
    + unfold m_spawn in E. case_decide; by simplify_eq.
    + case_decide as Hal; [|done]. left. by eapply Release_calls.
    + apply bind_Some in E as (v & Hv & [= <-]). done.
    + apply bind_Some in E as ([key s] & Hv & [= <-]). left.
      replace (m_holds _) with (m_holds m) by (unfold idle_callback; by repeat case_match).
      apply (idle_callback_calls key s m); [done| |done]. revert Hc. unfold idle_callback. cbn. by repeat case_match.
    + apply bind_Some in E as ([key ms] & Hh & E). apply bind_Some in E as (t & Ht & E). destruct (tn_closed t); [|done].
      unfold forget in E. destruct (stop_timer_frame ms (m <| m_hooks := delete c0 (m_hooks m) |>)) as (tms & Est & _).
      cbn in E. rewrite Est in E. by simplify_eq.
    + unfold m_spawn in E. case_decide; by simplify_eq.
    + apply bind_Some in E as (t & Ht & E). apply bind_Some in E as (t' & Ht' & [= <-]). done.
Qed.
(** How many steps an [Acquire] still needs to close [inf.done]. *)
Definition owed_steps (pc : AcquirePC) : nat :=
  match pc with
  | AConnect _ => 4 | ARegister _ _ => 3 | AHook _ _ _ | ADiscard _ _ _ => 2 | ASignal _ _ => 1 | _ => 0
  end.

Lemma owed_step m tid cfg pc inf o :
  m_inv m → m_threads m !! tid = Some (MAcquire cfg pc) → owes_signal (MAcquire cfg pc) inf → o ≠ MGo →
  ∃ m1 pc1, m_step (MvRun tid o) m = Some m1 ∧ m_threads m1 = <[tid := MAcquire cfg pc1]> (m_threads m) ∧
    ((∃ e, m_infs m1 !! inf = Some (true, e)) ∨
     (owes_signal (MAcquire cfg pc1) inf ∧ (owed_steps pc1 < owed_steps pc)%nat)).
Proof.
  intros Hinv Hth Ho Hgo. cbn [m_step]. rewrite Hth. cbn [mbind option_bind].
  destruct pc as [|inf'|inf'|inf' client|inf' c ms|inf' client e|inf' res|res]; cbn in Ho; try done; subst inf'.
  - destruct o as [|t|]; [done|..]; cbn; (eexists _, _; split; [done|]; split; [done|right; cbn; split; [done|lia]]).
  - cbn. unfold acquire_register. destruct client as [c|]; cbn; [destruct (m_closed m)|]; cbn;
      (eexists _, _; split; [done|]; split; [done|right; cbn; split; [done|lia]]).
  - cbn. eexists _, _; split; [done|]; split; [done|right; cbn; split; [done|lia]].
  - cbn. eexists _, _; split; [done|]; split; [by destruct client|right; cbn; split; [done|lia]].
  - cbn. eexists _, _; split; [done|]; split; [done|left].
    destruct (fl_owed _ _ _ _ _ _ (mi_flight _ Hinv) _ _ inf Hth) as (e & He); [done|].
    exists e. cbn. by rewrite lookup_alter_eq, He.
Qed.

Lemma owed_run n m tid cfg pc inf o :
  m_inv m → m_threads m !! tid = Some (MAcquire cfg pc) → owes_signal (MAcquire cfg pc) inf → o ≠ MGo →
  (owed_steps pc ≤ n)%nat →
  ∃ k m1, (k ≤ n)%nat ∧ m_run (replicate k (MvRun tid o)) m = Some m1 ∧ (∃ e, m_infs m1 !! inf = Some (true, e)) ∧
    ∀ tid', tid' ≠ tid → m_threads m1 !! tid' = m_threads m !! tid'.
Proof.
  revert m pc. induction n as [|n IH]; intros m pc Hinv Hth Ho Hgo Hn; [by destruct pc; cbn in *; try lia|].
  destruct (owed_step m tid cfg pc inf o Hinv Hth Ho Hgo) as (m1 & pc1 & E & Eth & [Hd|[Ho1 Hlt]]).
  - exists 1%nat, m1. split; [lia|]. cbn [replicate m_run]. rewrite E. split_and!; [done..|]. intros tid' Hne. by rewrite Eth, lookup_insert_ne.
  - destruct (IH m1 pc1) as (k & m2 & Hk & Er & Hd & Hot); [by eapply m_step_inv|by rewrite Eth, lookup_insert_eq|done|done|lia|].
    exists (S k), m2. split; [lia|]. cbn [replicate m_run]. rewrite E. split_and!; [done..|].
    intros tid' Hne. by rewrite Hot, Eth, lookup_insert_ne by done.
Qed.

(** C30. A call of [Acquire] that waits for another one's handshake is never left
    waiting: in every reachable state either it can go on at once, or the goroutine
    that runs the handshake exists and, as soon as the handshake returns with whatever
    outcome, wakes it by itself within four steps. *)
Theorem manager_waiters_woken m tid cfg inf :
  m_reachable m → m_threads m !! tid = Some (MAcquire cfg (AWait inf)) →
  is_Some (m_step (MvRun tid MGo) m) ∨
  ∃ owner, owner ≠ tid ∧ ∀ o, o ≠ MGo →
    ∃ k m1, (k ≤ 4)%nat ∧ m_run (replicate k (MvRun owner o)) m = Some m1 ∧ is_Some (m_step (MvRun tid MGo) m1).
Proof.
  intros Hinv%m_reachable_inv Hth.
  assert (∀ m1 e, m_threads m1 !! tid = Some (MAcquire cfg (AWait inf)) → m_infs m1 !! inf = Some (true, e) →
    is_Some (m_step (MvRun tid MGo) m1)) as Hgo.
  { intros m1 e H1 H2. cbn. rewrite H1. cbn. rewrite H2. cbn. by eexists. }
  destruct (fl_wait _ _ _ _ _ _ (mi_flight _ Hinv) _ _ _ Hth) as [[[] e] Hi]; [left; by eapply Hgo|right].
  destruct (fl_signal _ _ _ _ _ _ (mi_flight _ Hinv) _ _ Hi) as (owner & th & Ho & Hs).
  assert (owner ≠ tid) as Hne by (intros ->; by simplify_eq). exists owner. split; [done|]. intros o Hno.
  destruct th as [cfg' pc|]; [|done].
  destruct (owed_run 4 m owner cfg' pc inf o) as (k & m1 & Hk & Er & (e' & Hd) & Hot); [done..|destruct pc; cbn; lia|].
  exists k, m1. split_and!; [done..|]. eapply Hgo; [|exact Hd]. by rewrite Hot by done.
Qed.

(** C21. What [Acquire] decides under the lock, exactly.  A session of the
    configuration is usable if its tunnel is neither closed nor retired and has
    capacity left.  A usable session is taken: its count goes up by one and its idle
    timer is stopped and cleared.  Without one the call reports the exhausted
    fixed port if the configuration pins the port and an open tunnel holds it, waits
    if a handshake for the configuration is running, and starts one otherwise.  A
    manager that is shut down refuses.  The closed sessions of the configuration, and
    no others, leave the map. *)
Theorem acquire_decision m cfg m1 pc :
  let key := sessionKeyFor cfg in
  let opened s := s ∈ sessions_at key m ∧ s_IsClosed m s = false in
  let usable s x := opened s ∧ s_IsRetired m s = false ∧ m_heap m !! s = Some x ∧ ms_refCount x < ms_maxRealms x in
  m_reachable m → acquire_top cfg m = (m1, pc) →
  if m_closed m then m1 = m ∧ pc = ARet (inl ErrSessionManagerClosed) else
  (∀ s, s ∈ sessions_at key m1 ↔ opened s) ∧
  match pc with
  | ARet (inr c) => ∃ s x, usable s x ∧ ms_client x = c ∧
      m_heap m1 = <[s := mkSess c (ms_refCount x + 1) None (ms_maxRealms x)]> (m_heap m) ∧
      ∀ tm, ms_idleTimer x = Some tm → m_timers m1 !! tm = None
  | ARet (inl e) => e = ErrFixedPortCapacity ∧ k_p2pPort key ≠ 0 ∧ (∃ s, opened s) ∧ ∀ s x, ¬ usable s x
  | AWait inf => m_inflight m !! key = Some inf ∧ (k_p2pPort key ≠ 0 → ∀ s, ¬ opened s) ∧ ∀ s x, ¬ usable s x
  | AConnect inf => m_inflight m !! key = None ∧ m_inflight m1 !! key = Some inf ∧
      (k_p2pPort key ≠ 0 → ∀ s, ¬ opened s) ∧ ∀ s x, ¬ usable s x
  | _ => False
  end.
Proof.
  intros key opened usable Hinv%m_reachable_inv E. unfold acquire_top in E. destruct (m_closed m) eqn:Hcl; [by simplify_eq|].
  fold key in E. destruct (findAvailableSession key m) as [m2 found] eqn:Ef.
  destruct (find_inv _ _ _ _ Hinv Ef) as (_ & (tms & ss & Em2) & Hin & Hfound).
  assert (∀ s x, in_map (m_sessions m2) key s → m_heap m !! s = Some x →
    has_capacity m2 s = true ↔ usable s x) as Hcap.
  { intros s x Hs Hx. unfold usable, opened, has_capacity. apply Hin in Hs.
    replace (s_IsRetired m2 s) with (s_IsRetired m s) by (by subst m2). replace (m_heap m2) with (m_heap m) by (by subst m2).
    rewrite Hx, andb_true_iff, negb_true_iff, bool_decide_eq_true. split; [|by intros (_ & ? & _ & ?)].
    by intros [? ?]. }
  destruct found as [s|].
  - destruct Hfound as [Hs Hc]. destruct (stop_timer_frame s m2) as (tms' & Est & _).
    destruct (m_heap m2 !! s) as [x|] eqn:Hx; [|unfold has_capacity in Hc; rewrite Hx in Hc; by rewrite andb_false_r in Hc].
    rewrite (sess_update_at _ s x) in E by (by rewrite Est). cbn in E. rewrite lookup_insert_eq in E. cbn in E.
    injection E as <- <-. replace (m_heap m2) with (m_heap m) in Hx by (by subst m2). split.
    + rewrite Est. exact Hin.
    + exists s, x. split_and!; [by apply Hcap|done|rewrite Est; by subst m2|]. intros tm Htm. cbn. unfold stop_timer.
      replace (m_heap m2) with (m_heap m) by (by subst m2). rewrite Hx. cbn. rewrite Htm. cbn. apply lookup_delete_eq.
  - assert (∀ s x, ¬ usable s x) as Hno.
    { intros s x Hu. pose proof Hu as (Ho & _ & Hx & _). apply Hin in Ho. apply (Hcap s x Ho Hx) in Hu.
      by rewrite Hfound in Hu. }
    assert (sessions_at key m2 = [] → ∀ s, ¬ opened s) as Hnil.
    { intros E0 s Ho. apply Hin in Ho. unfold in_map in Ho. fold (sessions_at key m2) in Ho. rewrite E0 in Ho. by apply elem_of_nil in Ho. }
    case_decide as Hp.
    + simplify_eq. split; [done|]. destruct Hp as [Hp Hne]. split_and!; [done..| |done].
      set (m2 := m <| m_timers := tms |> <| m_sessions := ss |>) in *.
      destruct (sessions_at key m2) as [|s l] eqn:El; [done|]. exists s. apply Hin. unfold in_map.
      fold (sessions_at key m2). rewrite El. left.
    + assert (k_p2pPort key ≠ 0 → ∀ s, ¬ opened s) as Hfix.
      { intros Hk. apply Hnil. destruct (decide (sessions_at key m2 = [])); [done|]. by destruct Hp. }
      replace (m_inflight m2) with (m_inflight m) in E by (by subst m2).
      destruct (m_inflight m !! key) as [inf|] eqn:Hi; injection E as <- <-; (split; [done|]); [done|].
      split_and!; [done| |done|done]. cbn. apply lookup_insert_eq.
Qed.
End ManagerThm.

(** ** The hypotheses can be met: runs over real tunnels *)

Definition demo_cfg (port : Z) : Config := mkConfig "SERIAL" "admin" "secret" port 2.

Abbreviation demo_event := (@MEvent Tunnel TEvent).
Abbreviation demo_SM := (@Manager.SM Tunnel).

Definition demo_connect (tid : nat) (port : Z) : list demo_event :=
  MvAcquire tid (demo_cfg port) ::
  (MvRun tid <$> [MGo; MConnected (New NewSession 0); MGo; MGo; MGo]).

Definition demo_manager (evs : list demo_event) : demo_SM := default NewSessionManager (m_run evs NewSessionManager).

(** One tunnel on a fixed port, used twice: inf 0, client 1, session 2. *)
Definition demo_full : list demo_event := demo_connect 0 5000 ++ [MvAcquire 1 (demo_cfg 5000); MvRun 1 MGo].

Lemma manager_capacity_witness :
  sessions_at (sessionKeyFor (demo_cfg 5000)) (demo_manager demo_full) = [2%nat] ∧
  m_holds (demo_manager demo_full) = [("SERIAL"%string, 1%nat); ("SERIAL"%string, 1%nat)] ∧
  ∃ x, m_heap (demo_manager demo_full) !! 2%nat = Some x ∧
    ms_refCount x = holders (m_holds (demo_manager demo_full)) (ms_client x) ∧ 0 ≤ ms_refCount x ≤ 2.
Proof.
  split; [vm_compute; reflexivity|]. split; [vm_compute; reflexivity|].
  eexists. split; [vm_compute; reflexivity|].
  eapply (proj1 (manager_capacity (demo_manager demo_full) _) (sessionKeyFor (demo_cfg 5000)) 2%nat).
  - vm_compute. constructor.
  - vm_compute. reflexivity.
  Unshelve. exists demo_full. vm_compute. reflexivity.
Defined.

(** A handshake that returns after the manager was shut down. *)
Definition demo_late : list demo_event :=
  [MvAcquire 0 (demo_cfg 0); MvRun 0 MGo; MvCloseAll 1; MvRun 1 MGo; MvRun 0 (MConnected (New NewSession 0)); MvRun 0 MGo].

Lemma manager_no_leak_witness :
  m_closed (demo_manager demo_late) = true ∧
  ((m_closed (demo_manager demo_late) = false ∧ ∃ key s x, s ∈ sessions_at key (demo_manager demo_late) ∧
      m_heap (demo_manager demo_late) !! s = Some x ∧ ms_client x = 1%nat) ∨
   1%nat ∈ m_closeCalls (demo_manager demo_late) ∨
   ∃ tid th, m_threads (demo_manager demo_late) !! tid = Some th ∧ carries th 1).
Proof.
  split; [vm_compute; reflexivity|].
  apply (manager_no_leak (demo_manager demo_late) 1 (New NewSession 0)).
  - exists demo_late. vm_compute. reflexivity.
  - vm_compute. reflexivity.
  - vm_compute. reflexivity.
Defined.

(** The last reference comes back: the idle timer 3 is armed. *)
Definition demo_idle : list demo_event :=
  demo_connect 0 0 ++ [MvRelease "SERIAL" 1 (Some (sessionKeyFor (demo_cfg 0)))].

Lemma manager_idle_witness :
  m_timers (demo_manager demo_idle) !! 3%nat = Some (sessionKeyFor (demo_cfg 0), 2%nat) ∧
  ∃ tm, m_timers (demo_manager demo_idle) !! tm = Some (sessionKeyFor (demo_cfg 0), 2%nat) ∨
        m_callbacks (demo_manager demo_idle) !! tm = Some (sessionKeyFor (demo_cfg 0), 2%nat).
Proof.
  split; [vm_compute; reflexivity|].
  eapply (proj1 (manager_idle (demo_manager demo_idle) _) (sessionKeyFor (demo_cfg 0)) 2%nat).
  - vm_compute. constructor.
  - vm_compute. reflexivity.
  - vm_compute. reflexivity.
  Unshelve. exists demo_idle. vm_compute. reflexivity.
Defined.

(** The second call waits for the handshake of the first. *)
Definition demo_wait : list demo_event :=
  [MvAcquire 0 (demo_cfg 0); MvRun 0 MGo; MvAcquire 1 (demo_cfg 0); MvRun 1 MGo].

Lemma manager_waiters_woken_witness :
  m_threads (demo_manager demo_wait) !! 1%nat = Some (MAcquire (demo_cfg 0) (AWait 0)) ∧
  (is_Some (m_step (MvRun 1 MGo) (demo_manager demo_wait)) ∨
   ∃ owner, owner ≠ 1%nat ∧ ∀ o, o ≠ MGo →
    ∃ k m1, (k ≤ 4)%nat ∧ m_run (replicate k (MvRun owner o)) (demo_manager demo_wait) = Some m1 ∧
      is_Some (m_step (MvRun 1 MGo) m1)).
Proof.
  split; [vm_compute; reflexivity|].
  apply (manager_waiters_woken (demo_manager demo_wait) 1 (demo_cfg 0) 0).
  - exists demo_wait. vm_compute. reflexivity.
  - vm_compute. reflexivity.
Defined.

(** The third call finds the only tunnel of the fixed port full. *)
Lemma acquire_decision_witness :
  (acquire_top (demo_cfg 5000) (demo_manager demo_full)).2 = ARet (inl ErrFixedPortCapacity) ∧
  ∃ s, s ∈ sessions_at (sessionKeyFor (demo_cfg 5000)) (demo_manager demo_full) ∧
       s_IsClosed (demo_manager demo_full) s = false.
Proof.
  split; [vm_compute; reflexivity|].
  refine (proj1 (proj2 (proj2 (proj2 (acquire_decision (demo_manager demo_full) (demo_cfg 5000)
    (acquire_top (demo_cfg 5000) (demo_manager demo_full)).1 (ARet (inl ErrFixedPortCapacity)) _ _))))).
  - exists demo_full. vm_compute. reflexivity.
  - vm_compute. reflexivity.
Defined.
