(* ===== verification/GoText.v ===== *)
(** * Go's [strings] and [strconv], as far as the text protocols use them

    Strings are byte lists.  White space is Go's: the ASCII characters and the UTF-8
    encodings of the other code points [unicode.IsSpace] accepts.  Since no encoding
    of a code point contains the first byte of another one, looking for these byte
    sequences at every position finds the same white space as decoding does. *)

From Stdlib Require Import ZArith Lia Strings.Byte.
From S2P Require Import Prelude GoStrings.

Definition CR : byte := x0d.
Definition LF : byte := x0a.
Definition SPC : byte := x20.

(** ** Prefixes *)

Fixpoint strip_prefix (p s : bytes) : option bytes :=
  match p, s with
  | [], _ => Some s
  | a :: p, b :: s => if decide (a = b) then strip_prefix p s else None
  | _ :: _, [] => None
  end.

(** [strings.HasPrefix] *)
Definition HasPrefix (s p : bytes) : bool := bool_decide (is_Some (strip_prefix p s)).

Lemma strip_prefix_Some p s r : strip_prefix p s = Some r ↔ s = p ++ r.
Proof.
  revert s. induction p as [|a p IH]; intros s; simpl; [split; congruence|].
  destruct s as [|b s]; [split; done|]. case_decide as E.
  - subst b. rewrite IH. split; [by intros ->|by intros [= ->]].
  - split; [done|]. intros [= -> _]. done.
Qed.

Lemma strip_prefix_app p r : strip_prefix p (p ++ r) = Some r.
Proof. by apply strip_prefix_Some. Qed.

(** ** White space *)

(** The encodings of the code points of [unicode.IsSpace]. *)
Definition space_seqs : list bytes :=
  [ [x09]; [x0a]; [x0b]; [x0c]; [x0d]; [x20];
    [xc2; x85]; [xc2; xa0]; [xe1; x9a; x80];
    [xe2; x80; x80]; [xe2; x80; x81]; [xe2; x80; x82]; [xe2; x80; x83]; [xe2; x80; x84]; [xe2; x80; x85];
    [xe2; x80; x86]; [xe2; x80; x87]; [xe2; x80; x88]; [xe2; x80; x89]; [xe2; x80; x8a];
    [xe2; x80; xa8]; [xe2; x80; xa9]; [xe2; x80; xaf]; [xe2; x81; x9f]; [xe3; x80; x80] ].

(** The length of the sequence of [seqs] at the head of [s], 0 without one. *)
Fixpoint seq_at (seqs : list bytes) (s : bytes) : nat :=
  match seqs with
  | [] => 0
  | p :: seqs => match strip_prefix p s with Some _ => length p | None => seq_at seqs s end
  end.

(** Skips sequences of [seqs]; [skip] bytes of the current one are still to go. *)
Fixpoint trim_seqs (seqs : list bytes) (skip : nat) (s : bytes) : bytes :=
  match s with
  | [] => []
  | c :: s' =>
      match skip with
      | S k => trim_seqs seqs k s'
      | O => match seq_at seqs s with O => s | S k => trim_seqs seqs k s' end
      end
  end.

(** [strings.TrimSpace] *)
Definition TrimSpace (s : bytes) : bytes :=
  reverse (trim_seqs (reverse <$> space_seqs) 0 (reverse (trim_seqs space_seqs 0 s))).

(** [strings.Fields]; [cur] is the field being read. *)
Definition emit (cur : bytes) : list bytes := if decide (cur = []) then [] else [cur].

Fixpoint fields_go (skip : nat) (cur s : bytes) : list bytes :=
  match s with
  | [] => emit cur
  | c :: s' =>
      match skip with
      | S k => fields_go k cur s'
      | O => match seq_at space_seqs s with
             | O => fields_go 0 (cur ++ [c]) s'
             | S k => emit cur ++ fields_go k [] s'
             end
      end
  end.

Definition Fields (s : bytes) : list bytes := fields_go 0 [] s.

(** ** Searching and splitting *)

(** [strings.Cut] *)
Fixpoint Cut (sep s : bytes) : option (bytes * bytes) :=
  match strip_prefix sep s with
  | Some r => Some ([], r)
  | None => match s with
            | [] => None
            | c :: s => '(a, b) ← Cut sep s; Some (c :: a, b)
            end
  end.

(** [strings.SplitN] with [0 <= n] *)
Fixpoint SplitN (n : nat) (sep s : bytes) : list bytes :=
  match n with
  | O => []
  | S O => [s]
  | S n => match Cut sep s with Some (a, b) => a :: SplitN n sep b | None => [s] end
  end.

(** [strings.Split]: at most one piece more than there are bytes *)
Definition Split (sep s : bytes) : list bytes := SplitN (S (length s)) sep s.

(** [strings.ReplaceAll] with a non-empty [old] *)
Fixpoint replace_go (skip : nat) (old new s : bytes) : bytes :=
  match s with
  | [] => []
  | c :: s' =>
      match skip with
      | S k => replace_go k old new s'
      | O => match strip_prefix old s with
             | Some _ => new ++ replace_go (length old - 1) old new s'
             | None => c :: replace_go 0 old new s'
             end
      end
  end.

Definition ReplaceAll (s old new : bytes) : bytes := replace_go 0 old new s.

(** [strings.Join] *)
Definition Join (l : list bytes) (sep : bytes) : bytes :=
  match l with
  | [] => []
  | x :: l => x ++ concat ((λ y, sep ++ y) <$> l)
  end.

(** ** Case *)

(** ASCII letters; [strings.ToUpper] and [strings.EqualFold] agree with these when
    the string compared with has no letter ([I], [K], [S]) to which Unicode folds a
    character outside ASCII. *)
Definition upper (c : byte) : byte := if decide (97 ≤ b2z c ≤ 122) then z2b (b2z c - 32) else c.
Definition ToUpper (s : bytes) : bytes := upper <$> s.
Definition EqualFold (s t : bytes) : bool := bool_decide (ToUpper s = ToUpper t).

(** ** Decimal numbers *)

Definition is_digit (c : byte) : bool := bool_decide (48 ≤ b2z c ≤ 57).

Fixpoint digits_value (acc : Z) (s : bytes) : option Z :=
  match s with
  | [] => Some acc
  | c :: s => if is_digit c then digits_value (10 * acc + (b2z c - 48)) s else None
  end.

Definition parse_digits (s : bytes) : option Z := if decide (s = []) then None else digits_value 0 s.

(** [strconv.Atoi] and [strconv.ParseInt(s, 10, 64)]; [None] is an error. *)
Definition Atoi (s : bytes) : option Z :=
  let '(neg, t) := match s with
                   | x2d :: t => (true, t)
                   | x2b :: t => (false, t)
                   | _ => (false, s)
                   end in
  n ← parse_digits t;
  let z := if neg then - n else n in
  if decide (- 2 ^ 63 ≤ z < 2 ^ 63) then Some z else None.

(** [%d] of a number that is not negative. *)
Fixpoint dec_go (fuel : nat) (n : Z) (acc : bytes) : bytes :=
  match fuel with
  | O => acc
  | S fuel =>
      let acc := z2b (48 + n `mod` 10) :: acc in
      if decide (n < 10) then acc else dec_go fuel (n / 10) acc
  end.

Definition udec (n : Z) : bytes := dec_go (S (Z.to_nat (Z.log2 n))) n [].
Definition dec (n : Z) : bytes := if decide (n < 0) then x2d :: udec (- n) else udec n.

(** ** Hexadecimal *)

Definition hex_digit (n : Z) : byte := if decide (n < 10) then z2b (48 + n) else z2b (87 + n).
Definition HEX_digit (n : Z) : byte := if decide (n < 10) then z2b (48 + n) else z2b (55 + n).
(** [%02x] and [%02X] of a byte *)
Definition hex2 (c : byte) : bytes := [hex_digit (b2z c / 16); hex_digit (b2z c `mod` 16)].
Definition HEX2 (c : byte) : bytes := [HEX_digit (b2z c / 16); HEX_digit (b2z c `mod` 16)].
