(* ===== verification/TextLemmas.v ===== *)
(** * Lemmas on Go's string functions

    What the text protocols need of [GoText]: cutting and splitting at a separator that
    does not occur before, line ends, decimal numbers. *)

From Stdlib Require Import ZArith Lia Strings.Byte.
From S2P Require Import Prelude GoStrings GoText.

#[export] Program Instance byte_countable : Countable byte := inj_countable Byte.to_N Byte.of_N _.
Next Obligation. apply Byte.of_to_N. Qed.

Definition CRLF : bytes := [CR; LF].

(** ** Cutting *)

(** The separator does not start inside [a]. *)
Lemma Cut_skip c sep a s : c ∉ a →
  Cut (c :: sep) (a ++ s) = '(x, y) ← Cut (c :: sep) s; Some (a ++ x, y).
Proof.
  induction a as [|d a IH]; intros Hc; [by cbn [app]; destruct (Cut _ s) as [[x y]|]|].
  apply not_elem_of_cons in Hc as [Hd Hc]. cbn. rewrite decide_False by done. rewrite (IH Hc).
  by destruct (Cut _ s) as [[x y]|].
Qed.

Lemma Cut_step sep c s : strip_prefix sep (c :: s) = None →
  Cut sep (c :: s) = '(x, y) ← Cut sep s; Some (c :: x, y).
Proof. intros E. cbn [Cut]. by rewrite E. Qed.

Lemma Cut_here sep s : Cut sep (sep ++ s) = Some ([], s).
Proof. destruct sep as [|c sep]; [by destruct s|]. cbn. rewrite decide_True by done. by rewrite strip_prefix_app. Qed.

Lemma Cut_first c sep a s : c ∉ a → Cut (c :: sep) (a ++ c :: sep ++ s) = Some (a, s).
Proof. intros Hc. rewrite Cut_skip by done. change (c :: sep ++ s) with ((c :: sep) ++ s). rewrite Cut_here. cbn. by rewrite app_nil_r. Qed.

Lemma Cut_none c sep s : c ∉ s → Cut (c :: sep) s = None.
Proof. intros Hc. rewrite <- (app_nil_r s), Cut_skip by done. done. Qed.

Lemma Cut_Some sep s a b : Cut sep s = Some (a, b) → s = a ++ sep ++ b.
Proof.
  revert a. induction s as [|c s IH]; intros a; cbn.
  - destruct (strip_prefix sep []) as [r|] eqn:E; [|done]. apply strip_prefix_Some in E. intros [= <- <-]. done.
  - destruct (strip_prefix sep (c :: s)) as [r|] eqn:E; [apply strip_prefix_Some in E; intros [= <- <-]; done|].
    intros ([x y] & Hc & [= <- <-])%bind_Some. by rewrite (IH _ Hc).
Qed.

(** ** Splitting *)

Lemma SplitN_here n c sep a s : c ∉ a → SplitN (S (S n)) (c :: sep) (a ++ c :: sep ++ s) = a :: SplitN (S n) (c :: sep) s.
Proof. intros Hc. cbn [SplitN]. by rewrite Cut_first. Qed.

Lemma SplitN_2 sep s a b : Cut sep s = Some (a, b) → SplitN 2 sep s = [a; b].
Proof. cbn. by intros ->. Qed.

Lemma SplitN_rest n c sep s : c ∉ s → SplitN (S n) (c :: sep) s = [s].
Proof. intros Hc. destruct n; [done|]. cbn [SplitN]. by rewrite Cut_none. Qed.

Lemma Join_cons sep x y l : Join (x :: y :: l) sep = x ++ sep ++ Join (y :: l) sep.
Proof. cbn. by rewrite <- app_assoc. Qed.

Lemma SplitN_Join n c sep l : l ≠ [] → Forall (λ x, c ∉ x) l → (length l ≤ n)%nat →
  SplitN n (c :: sep) (Join l (c :: sep)) = l.
Proof.
  intros Hne Hl. revert n. induction Hl as [|x l Hx Hl IH]; intros n Hn; [done|].
  destruct n as [|n]; [cbn in Hn; lia|]. destruct l as [|y l].
  - cbn [Join fmap list_fmap concat]. rewrite app_nil_r. by rewrite SplitN_rest.
  - rewrite Join_cons. destruct n as [|n]; [cbn in Hn; lia|]. cbn [app]. rewrite SplitN_here by done.
    rewrite IH; [done..|]. cbn in Hn |- *. lia.
Qed.

Lemma length_Join c sep l : l ≠ [] → (length l ≤ S (length (Join l (c :: sep))))%nat.
Proof.
  induction l as [|x l IH]; [done|]. intros _. destruct l as [|y l]; [cbn; lia|].
  rewrite Join_cons, !length_app. specialize (IH ltac:(done)). cbn [length] in *. lia.
Qed.

Lemma Split_Join c sep l : l ≠ [] → Forall (λ x, c ∉ x) l → Split (c :: sep) (Join l (c :: sep)) = l.
Proof. intros Hne Hl. apply SplitN_Join; [done..|by apply length_Join]. Qed.

(** ** Line ends *)

(** Every line feed becomes a CRLF. *)
Definition crlf (s : bytes) : bytes := s ≫= λ c, if decide (c = LF) then CRLF else [c].

Lemma crlf_app s t : crlf (s ++ t) = crlf s ++ crlf t.
Proof. apply bind_app. Qed.

Lemma ReplaceAll_LF s : ReplaceAll s [LF] CRLF = crlf s.
Proof.
  unfold ReplaceAll, crlf. induction s as [|c s IH]; [done|]. cbn. destruct (decide (LF = c)) as [<-|Hne].
  - rewrite decide_True by done. cbn. by rewrite IH.
  - rewrite decide_False by done. cbn. by rewrite IH.
Qed.

Lemma ReplaceAll_no_CR s : CR ∉ s → ReplaceAll s CRLF [LF] = s.
Proof.
  unfold ReplaceAll. induction s as [|c s IH]; [done|]. intros [Hc Hs]%not_elem_of_cons. cbn.
  rewrite decide_False by done. by rewrite IH.
Qed.

Lemma ReplaceAll_crlf s : CR ∉ s → ReplaceAll (crlf s) CRLF [LF] = s.
Proof.
  unfold ReplaceAll, crlf. induction s as [|c s IH]; [done|]. intros [Hc Hs]%not_elem_of_cons. cbn.
  destruct (decide (c = LF)) as [->|Hne]; cbn.
  - by rewrite IH.
  - rewrite decide_False by done. by rewrite IH.
Qed.

Lemma crlf_id s : LF ∉ s → crlf s = s.
Proof.
  unfold crlf. induction s as [|c s IH]; [done|]. intros [Hc Hs]%not_elem_of_cons. cbn.
  rewrite decide_False by done. cbn. by rewrite IH.
Qed.

(** ** Decimal numbers *)

Lemma digits_value_app s t acc :
  digits_value acc (s ++ t) = n ← digits_value acc s; digits_value n t.
Proof.
  revert acc. induction s as [|c s IH]; intros acc; [done|]. cbn. destruct (is_digit c); [apply IH|done].
Qed.

Lemma digit_ok n : 0 ≤ n < 10 → is_digit (z2b (48 + n)) = true ∧ b2z (z2b (48 + n)) = 48 + n.
Proof.
  intros Hn. assert (b2z (z2b (48 + n)) = 48 + n) as E by (rewrite b2z_z2b; word_lia).
  split; [|done]. unfold is_digit. rewrite E. apply bool_decide_eq_true. lia.
Qed.

(** The digits [dec_go] puts in front of [acc]. *)
Lemma dec_go_spec fuel n acc : 0 ≤ n < 2 ^ Z.of_nat fuel → (0 < fuel)%nat →
  ∃ ds, dec_go fuel n acc = ds ++ acc ∧ ds ≠ [] ∧ Forall (λ c, is_digit c = true) ds ∧
    ∀ k, digits_value k ds = Some (k * 10 ^ Z.of_nat (length ds) + n).
Proof.
  revert n acc. induction fuel as [|fuel IH]; intros n acc Hn Hf; [lia|].
  pose proof (Z.mod_pos_bound n 10 ltac:(lia)) as Hmod. destruct (digit_ok (n `mod` 10) Hmod) as [Hd Hv].
  pose proof (Z.div_mod n 10 ltac:(lia)) as Hdm. cbn [dec_go]. case_decide as Hlt.
  - exists [z2b (48 + n `mod` 10)]. rewrite Z.mod_small in * by lia. split; [done|]. split; [done|].
    split; [by constructor|]. intros k. cbn. rewrite Hd, Hv. f_equal. lia.
  - destruct (IH (n / 10) (z2b (48 + n `mod` 10) :: acc)) as (ds & E & Hne & Hall & Hval).
    + rewrite Nat2Z.inj_succ, Z.pow_succ_r in Hn by lia. split; [apply Z.div_pos; lia|apply Z.div_lt_upper_bound; lia].
    + destruct fuel; [cbn in Hn; lia|lia].
    + exists (ds ++ [z2b (48 + n `mod` 10)]). rewrite E, <- app_assoc. split; [done|]. split; [by destruct ds|].
      split; [by apply Forall_app; split; [|constructor]|]. intros k. rewrite digits_value_app, Hval. cbn. rewrite Hd, Hv.
      f_equal. rewrite length_app. cbn [length]. replace (Z.of_nat (length ds + 1)) with (Z.succ (Z.of_nat (length ds))) by lia.
      rewrite Z.pow_succ_r by lia. lia.
Qed.

Lemma udec_spec n : 0 ≤ n → udec n ≠ [] ∧ Forall (λ c, is_digit c = true) (udec n) ∧ parse_digits (udec n) = Some n.
Proof.
  intros Hn. unfold udec. destruct (dec_go_spec (S (Z.to_nat (Z.log2 n))) n []) as (ds & E & Hne & Hall & Hval); [|lia|].
  - destruct (decide (n = 0)) as [->|]; [done|]. pose proof (Z.log2_spec n ltac:(lia)). pose proof (Z.log2_nonneg n).
    rewrite Nat2Z.inj_succ, Z2Nat.id by lia. lia.
  - rewrite E, app_nil_r. split; [done|]. split; [done|]. unfold parse_digits. rewrite decide_False by done.
    apply Hval.
Qed.

Lemma is_digit_range c : is_digit c = true → 48 ≤ b2z c ≤ 57.
Proof. apply bool_decide_eq_true. Qed.

Lemma Atoi_dec n : - 2 ^ 63 ≤ n < 2 ^ 63 → Atoi (dec n) = Some n.
Proof.
  intros Hn. unfold dec. case_decide as Hneg.
  - unfold Atoi. destruct (udec_spec (- n) ltac:(lia)) as (_ & _ & ->). cbn [mbind option_bind].
    rewrite decide_True by lia. f_equal. lia.
  - destruct (udec_spec n ltac:(lia)) as (Hne & Hall & Hp). unfold Atoi.
    destruct (udec n) as [|c ds] eqn:E; [done|]. inversion_clear Hall as [|? ? Hc _]. apply is_digit_range in Hc.
    assert (c ≠ x2d ∧ c ≠ x2b) as [H1 H2] by (split; intros ->; change (b2z _) with 45 in Hc || change (b2z _) with 43 in Hc; lia).
    destruct c; try done; rewrite Hp; cbn [mbind option_bind]; by rewrite decide_True by lia.
Qed.

(** What a number's text does not contain. *)
Lemma udec_no c n : 0 ≤ n → is_digit c = false → c ∉ udec n.
Proof.
  intros Hn Hc Hin. destruct (udec_spec n Hn) as (_ & Hall & _). rewrite Forall_forall in Hall.
  rewrite (Hall c Hin) in Hc. done.
Qed.

Lemma dec_no c n : is_digit c = false → c ≠ x2d → c ∉ dec n.
Proof.
  intros Hc Hm. unfold dec. case_decide; [|apply udec_no; [lia|done]].
  apply not_elem_of_cons. split; [done|apply udec_no; [lia|done]].
Qed.
