(* ===== verification/Config.v ===== *)
(** * The command's configuration

    [src/cmd/dahua-p2p/main.go]: [loadConfig] and what it calls, [connectionLimit] and
    [clientConfig].  The environment and the files are functions; what [flag.Parse]
    found is a record with an entry per flag, [None] where the flag was not given.
    The timeout is in nanoseconds. *)

From Stdlib Require Import ZArith Lia Strings.Byte.
From S2P Require Import Prelude GoStrings GoText TunnelApi Manager.

Definition second : Z := 1000000000.
Definition defaultMaxConnections : Z := 32.

Record config := mkconfig {
  cf_listen : bytes; cf_serial : bytes; cf_username : bytes; cf_password : bytes;
  cf_p2pPort : Z; cf_maxRealms : Z; cf_maxConns : Z; cf_timeout : Z; cf_debug : bool }.

Definition connectionLimit (cfg : config) : Z :=
  if decide (cf_maxConns cfg < cf_maxRealms cfg) then cf_maxConns cfg else cf_maxRealms cfg.

(** [clientConfig]: the manager's view of it has the strings as [string]. *)
Definition clientConfig (cfg : config) : Config :=
  mkConfig (String.string_of_list_byte (cf_serial cfg)) (String.string_of_list_byte (cf_username cfg))
    (String.string_of_list_byte (cf_password cfg)) (cf_p2pPort cfg) (cf_maxRealms cfg).

Inductive ConfigError :=
| InvalidInt (name value : bytes)
| BothSet (name : bytes)
| ReadFailed (name : bytes)
| SerialRequired
| BadPort (n : Z) | BadMaxRealms (n : Z) | BadMaxConns (n : Z) | BadTimeout (n : Z).

Record Flags := mkFlags {
  fl_listen : option bytes; fl_serial : option bytes; fl_username : option bytes;
  fl_p2pPort : option Z; fl_maxRealms : option Z; fl_maxConns : option Z;
  fl_timeout : option Z; fl_debug : option bool }.

Section Load.
Context (LookupEnv : bytes → option bytes) (ReadFile : bytes → option bytes).

Definition Getenv (name : bytes) : bytes := default [] (LookupEnv name).

Definition env (name fallback : bytes) : bytes :=
  match LookupEnv name with Some value => value | None => fallback end.

Definition envInt (name : bytes) (fallback : Z) : result ConfigError Z :=
  let value := Getenv name in
  if decide (value = []) then Ok fallback
  else match Atoi value with Some n => Ok n | None => Err (InvalidInt name value) end.

Definition newline (c : byte) : bool := bool_decide (c = CR) || bool_decide (c = LF).

Definition secretEnv (name : bytes) : result ConfigError bytes :=
  let value := Getenv name in
  let filename := Getenv (name ++ lit "_FILE") in
  if decide (value ≠ [] ∧ filename ≠ []) then Err (BothSet name)
  else if decide (filename = []) then Ok value
  else match ReadFile filename with
       | None => Err (ReadFailed name)
       | Some data => Ok (TrimRight newline data)
       end.

Definition loadConfig (fl : Flags) : result ConfigError config :=
  p2pPort <-? envInt (lit "DAHUA_P2P_PORT") 0;
  maxRealms <-? envInt (lit "DAHUA_MAX_REALMS") DefaultMaxRealmsPerTunnel;
  maxConns <-? envInt (lit "DAHUA_MAX_CONNECTIONS") defaultMaxConnections;
  let listen := default (env (lit "LISTEN_ADDR") (lit ":8554")) (fl_listen fl) in
  let serial := default [] (fl_serial fl) in
  let username := default [] (fl_username fl) in
  let p2pPort := default p2pPort (fl_p2pPort fl) in
  let maxRealms := default maxRealms (fl_maxRealms fl) in
  let maxConns := default maxConns (fl_maxConns fl) in
  let timeout := default (10 * second) (fl_timeout fl) in
  let debug := default false (fl_debug fl) in
  let serial := if decide (serial = []) then Getenv (lit "DAHUA_SERIAL") else serial in
  let username := if decide (username = []) then Getenv (lit "DAHUA_USERNAME") else username in
  password <-? secretEnv (lit "DAHUA_PASSWORD");
  if decide (serial = []) then Err SerialRequired
  else if decide (p2pPort < 0 ∨ p2pPort > 65535) then Err (BadPort p2pPort)
  else if decide (maxRealms < 1) then Err (BadMaxRealms maxRealms)
  else if decide (maxConns < 1) then Err (BadMaxConns maxConns)
  else if decide (timeout ≤ 0) then Err (BadTimeout timeout)
  else Ok (mkconfig listen serial username password p2pPort maxRealms maxConns timeout debug).

(** ** What a setting is *)

(** The value of a numeric setting: the flag, else the variable unless it is empty, else
    the default. *)
Definition int_setting (flag : option Z) (name : bytes) (fallback n : Z) : Prop :=
  match flag with
  | Some k => n = k
  | None => if decide (Getenv name = []) then n = fallback else Atoi (Getenv name) = Some n
  end.

Definition text_setting (flag : option bytes) (name : bytes) (s : bytes) : Prop :=
  match flag with
  | Some (c :: t) => s = c :: t
  | _ => s = Getenv name
  end.

(** The password comes from the variable or from the file, never from both; of a file
    the line ends at its end are dropped. *)
Definition secret_setting (name s : bytes) : Prop :=
  (Getenv (name ++ lit "_FILE") = [] ∧ s = Getenv name) ∨
  (Getenv name = [] ∧ Getenv (name ++ lit "_FILE") ≠ [] ∧
    ∃ data tail, ReadFile (Getenv (name ++ lit "_FILE")) = Some data ∧ data = s ++ tail ∧
      Forall (λ c, newline c = true) tail ∧ ∀ c, last s = Some c → newline c = false).

Definition numbers_parse (name : bytes) : Prop := Getenv name = [] ∨ is_Some (Atoi (Getenv name)).

Definition usable (cfg : config) : Prop :=
  cf_serial cfg ≠ [] ∧ 0 ≤ cf_p2pPort cfg ≤ 65535 ∧ 1 ≤ cf_maxRealms cfg ∧ 1 ≤ cf_maxConns cfg ∧ 0 < cf_timeout cfg.

Definition resolves (fl : Flags) (cfg : config) : Prop :=
  cf_listen cfg = default (default (lit ":8554") (LookupEnv (lit "LISTEN_ADDR"))) (fl_listen fl) ∧
  text_setting (fl_serial fl) (lit "DAHUA_SERIAL") (cf_serial cfg) ∧
  text_setting (fl_username fl) (lit "DAHUA_USERNAME") (cf_username cfg) ∧
  secret_setting (lit "DAHUA_PASSWORD") (cf_password cfg) ∧
  int_setting (fl_p2pPort fl) (lit "DAHUA_P2P_PORT") 0 (cf_p2pPort cfg) ∧
  int_setting (fl_maxRealms fl) (lit "DAHUA_MAX_REALMS") 8 (cf_maxRealms cfg) ∧
  int_setting (fl_maxConns fl) (lit "DAHUA_MAX_CONNECTIONS") 32 (cf_maxConns cfg) ∧
  cf_timeout cfg = default (10 * second) (fl_timeout fl) ∧ cf_debug cfg = default false (fl_debug fl) ∧
  Forall numbers_parse [lit "DAHUA_P2P_PORT"; lit "DAHUA_MAX_REALMS"; lit "DAHUA_MAX_CONNECTIONS"].

Lemma envInt_spec name fallback n :
  envInt name fallback = Ok n ↔ int_setting None name fallback n.
Proof.
  unfold envInt, int_setting. case_decide; [split; congruence|]. destruct (Atoi _); split; congruence.
Qed.

Lemma secretEnv_spec name s : secretEnv name = Ok s → secret_setting name s.
Proof.
  unfold secretEnv, secret_setting. case_decide as H1; [done|]. case_decide as H2; [intros [= <-]; by left|].
  destruct (ReadFile _) as [data|] eqn:Ef; [|done]. intros [= <-]. right.
  split; [destruct (decide (Getenv name = [])); [done|tauto]|]. split; [done|].
  destruct (TrimRight_prefix newline data) as (tail & Ht & Hall). exists data, tail.
  split; [done|]. split; [done|]. split; [done|]. apply TrimRight_last.
Qed.

Lemma secretEnv_fun name s : secret_setting name s → secretEnv name = Ok s.
Proof.
  unfold secretEnv. intros [[Hf ->]|(Hv & Hf & data & tail & Hr & -> & Ht & Hl)].
  - by rewrite decide_False, decide_True by naive_solver.
  - rewrite decide_False, decide_False, Hr by naive_solver. by rewrite TrimRight_app.
Qed.

Lemma envInt_parses name fallback : numbers_parse name ↔ ∃ n, envInt name fallback = Ok n.
Proof.
  unfold numbers_parse, envInt. case_decide as H; [split; [by eexists|by left]|].
  destruct (Atoi _) as [n|]; split; [by eexists|by right; eexists|by intros [?|[]]|by intros []].
Qed.

Lemma int_setting_default flag name fallback n0 n :
  envInt name fallback = Ok n0 → int_setting flag name fallback n ↔ n = default n0 flag.
Proof.
  intros H%envInt_spec. destruct flag as [k|]; cbn; [done|]. unfold int_setting in *. case_decide; [by subst|].
  rewrite H. split; congruence.
Qed.

Lemma text_setting_default flag name s :
  text_setting flag name s ↔ s = if decide (default [] flag = []) then Getenv name else default [] flag.
Proof. by destruct flag as [[|c t]|]; cbn. Qed.

(** [loadConfig] once the variables have been read. *)
Lemma loadConfig_read fl p r m w cfg :
  envInt (lit "DAHUA_P2P_PORT") 0 = Ok p → envInt (lit "DAHUA_MAX_REALMS") DefaultMaxRealmsPerTunnel = Ok r →
  envInt (lit "DAHUA_MAX_CONNECTIONS") defaultMaxConnections = Ok m → secretEnv (lit "DAHUA_PASSWORD") = Ok w →
  loadConfig fl = Ok cfg ↔ resolves fl cfg ∧ usable cfg.
Proof.
  intros Hp Hr Hm Hw. unfold loadConfig, resolves, usable. rewrite Hp, Hr, Hm. cbn [result_bind]. rewrite Hw. cbn [result_bind].
  rewrite (int_setting_default (fl_p2pPort fl) _ 0 p), (int_setting_default (fl_maxRealms fl) _ 8 r),
    (int_setting_default (fl_maxConns fl) _ 32 m), !text_setting_default by done.
  assert (∀ s, secret_setting (lit "DAHUA_PASSWORD") s ↔ s = w) as Hs.
  { intros s. split; [intros H%secretEnv_fun; congruence|]. intros ->. by apply secretEnv_spec. }
  assert (Forall numbers_parse [lit "DAHUA_P2P_PORT"; lit "DAHUA_MAX_REALMS"; lit "DAHUA_MAX_CONNECTIONS"]) as Hn.
  { rewrite !Forall_cons, Forall_nil. split_and!; [eapply envInt_parses; by eexists..|done]. }
  rewrite Hs. unfold env. destruct cfg as [cl cs cu cw cp cr cm ct cd]. cbn.
  repeat case_decide; split; try done; try (intros [= <- <- <- <- <- <- <- <- <-]; repeat split; done || lia);
    intros [(-> & -> & -> & -> & -> & -> & -> & -> & -> & _) (U1 & U2 & U3 & U4 & U5)]; try done; lia.
Qed.

Lemma loadConfig_sound fl cfg : loadConfig fl = Ok cfg → resolves fl cfg ∧ usable cfg.
Proof.
  intros E. pose proof E as E0. unfold loadConfig in E0. repeat apply result_bind_Ok in E0 as (? & ? & E0).
  by eapply loadConfig_read.
Qed.
End Load.

(** C28.  [loadConfig] returns a configuration exactly when every setting
    resolves and the result is usable: a flag wins over its variable and the variable
    over the default, an empty variable counts as unset but for [LISTEN_ADDR], the
    password comes from [DAHUA_PASSWORD] or from the file named by
    [DAHUA_PASSWORD_FILE] but never from both, every numeric variable must parse even
    when its flag is given, and the serial, the port and the limits are in range. *)
Theorem load_config_exact LookupEnv ReadFile fl cfg :
  loadConfig LookupEnv ReadFile fl = Ok cfg ↔ resolves LookupEnv ReadFile fl cfg ∧ usable cfg.
Proof.
  destruct (loadConfig LookupEnv ReadFile fl) as [c|e|] eqn:E.
  - split; [intros [= <-]; by apply loadConfig_sound|]. rewrite <- E. unfold loadConfig in E.
    repeat apply result_bind_Ok in E as (? & ? & E). by eapply loadConfig_read.
  - split; [done|]. intros [Hr Hu]. pose proof Hr as (_ & _ & _ & Hs%secretEnv_fun & _ & _ & _ & _ & _ & Hn).
    inversion_clear Hn as [|? ? N1 Hn']. inversion_clear Hn' as [|? ? N2 Hn]. inversion_clear Hn as [|? ? N3 _].
    apply (envInt_parses _ _ 0) in N1 as [p Hp]. apply (envInt_parses _ _ DefaultMaxRealmsPerTunnel) in N2 as [r Hrr].
    apply (envInt_parses _ _ defaultMaxConnections) in N3 as [m Hm]. rewrite <- E. by eapply loadConfig_read.
  - exfalso. unfold loadConfig in E. unfold envInt, secretEnv, result_bind in E. by repeat (case_match; try done).
Qed.
