(* ===== verification/DhProtocol.v ===== *)
(** * Messages of the Dahua P2P service

    [src/dh/protocol.go]: the text of requests and responses, addresses, identifiers.
    [encoding/xml]'s decoder, SHA-1 and the parser of IPv6 addresses are arguments; the
    decoder gives the tokens up to its first error.  What goes over the sockets is in
    [Handshake]. *)

From Stdlib Require Import ZArith Lia Strings.Byte.
From S2P Require Import Prelude GoStrings GoText TextLemmas.

Definition MainServer : bytes := lit "www.easy4ipcloud.com".
Definition MainPort : Z := 8800.
Definition Username : bytes := lit "cba1b29e32cb17aa46b8ff9e73c7f40b".
Definition UserKey : bytes := lit "996103384cdf19179e19243e959bbf8b".

Inductive DhError :=
| ErrDeviceNotFound | ErrAuthenticationFailed | ErrTimeout | ErrInvalidResponse
| ErrNet                    (* an error of the net package *)
| ErrChannel (status : bytes) | ErrNoSign | ErrExpectedSync
| ErrPtcp                   (* ParsePacket *)
| ErrCrypto.                (* EncryptAddr *)

#[export] Instance DhError_eq_dec : EqDecision DhError.
Proof. solve_decision. Defined.

Record Response := mkResponse {
  Version : bytes; Code : Z; RStatus : bytes;
  Headers : gmap bytes bytes;
  RBody : option (gmap bytes bytes) }.     (* None: nil *)

(** [resp.Body[key]], with its [ok]. *)
Definition body_get (r : Response) (key : string) : option bytes := m ← RBody r; m !! lit key.

(** ** XML bodies *)

Inductive Token :=
| StartElement (local : bytes)
| EndElement
| CharData (data : bytes)
| OtherToken.                  (* comments, directives, processing instructions *)

(** One token: the stack and the result. *)
Definition xml_step (st : list bytes * gmap bytes bytes) (t : Token) : list bytes * gmap bytes bytes :=
  let '(stack, res) := st in
  match t with
  | StartElement local => (stack ++ [local], res)
  | EndElement => (take (length stack - 1) stack, res)
  | CharData data =>
      let text := TrimSpace data in
      if decide (text ≠ [] ∧ (0 < length stack)%nat) then (stack, <[Join stack (lit "/") := text]> res) else (stack, res)
  | OtherToken => (stack, res)
  end.

Definition parseXMLBody (tokens : list Token) : gmap bytes bytes := (foldl xml_step ([], ∅) tokens).2.

(** ** Responses *)

Definition normalize (data : bytes) : bytes := ReplaceAll (ReplaceAll data CRLF [LF]) [LF] CRLF.

Definition header_step (headers : gmap bytes bytes) (line : bytes) : gmap bytes bytes :=
  match Cut (lit ": ") line with
  | Some (k, v) => if decide (0 < length k)%nat then <[k := v]> headers else headers
  | None => headers
  end.

Definition ParseResponse (decode : bytes → list Token) (data : bytes) : result DhError Response :=
  match SplitN 2 (CRLF ++ CRLF) (normalize data) with
  | [head; body] =>
      match Split CRLF head with
      | [] => Err ErrInvalidResponse
      | status :: lines =>
          match SplitN 3 [SPC] status with
          | [version; code; text] =>
              match Atoi code with
              | None => Err ErrInvalidResponse
              | Some code =>
                  Ok (mkResponse version code text (foldl header_step ∅ lines)
                        (if decide (TrimSpace body = []) then None else Some (parseXMLBody (decode body))))
              end
          | _ => Err ErrInvalidResponse
          end
      end
  | _ => Err ErrInvalidResponse
  end.

(** ** Requests *)

(** [date] is [time.Now().UTC()] in the layout [2006-01-02T15:04:05Z], [base64] the
    standard encoding. *)
Definition generateAuth (sha1 base64 : bytes → bytes) (nonceBytes date : bytes) : bytes :=
  let nonce := get_be32 nonceBytes in
  let pwd := udec nonce ++ date ++ lit "DHP2P:" ++ Username ++ lit ":" ++ UserKey in
  let digest := base64 (sha1 pwd) in
  lit "WSSE profile=" ++ [x22] ++ lit "UsernameToken" ++ [x22] ++ CRLF ++
  lit "X-WSSE: UsernameToken Username=" ++ [x22] ++ Username ++ [x22] ++
  lit ", PasswordDigest=" ++ [x22] ++ digest ++ [x22] ++
  lit ", Nonce=" ++ [x22] ++ udec nonce ++ [x22] ++ lit ", Created=" ++ [x22] ++ date ++ [x22].

Definition request_text (cseq : Z) (auth path body : bytes) : bytes :=
  let method := if decide (body = []) then lit "DHGET" else lit "DHPOST" in
  method ++ lit " " ++ path ++ lit " HTTP/1.1" ++ CRLF ++ lit "CSeq: " ++ udec cseq ++ CRLF ++
  lit "Authorization: " ++ auth ++ CRLF ++ CRLF ++ body.

(** ** Addresses *)

Record UDPAddr := mkUDPAddr { a_IP : bytes; a_Port : Z }.

#[export] Instance UDPAddr_eq_dec : EqDecision UDPAddr.
Proof. solve_decision. Defined.

Definition v4InV6Prefix : bytes := replicate 10 x00 ++ [xff; xff].

(** [net.IP.Equal] *)
Definition ip_equal (ip x : bytes) : bool :=
  if decide (length ip = length x) then bool_decide (ip = x)
  else if decide (length ip = 4 ∧ length x = 16)%nat then bool_decide (x = v4InV6Prefix ++ ip)
  else if decide (length ip = 16 ∧ length x = 4)%nat then bool_decide (ip = v4InV6Prefix ++ x)
  else false.

(** [None]: nil *)
Definition sameUDPAddr (a b : option UDPAddr) : bool :=
  match a, b with
  | Some a, Some b => bool_decide (a_Port a = a_Port b) && ip_equal (a_IP a) (a_IP b)
  | _, _ => false
  end.

Definition COLON : byte := x3a.
Definition LBR : byte := x5b.
Definition RBR : byte := x5d.
Definition DOT : byte := x2e.

(** [net.SplitHostPort] *)
Definition SplitHostPort (s : bytes) : option (bytes * bytes) :=
  match Cut [COLON] (reverse s) with
  | None => None
  | Some (rport, rhost) =>
      let before := reverse rhost in
      let port := reverse rport in
      if decide (head s = Some LBR) then
        '(a, b) ← Cut [RBR] s;
        if decide (before = a ++ [RBR]) then
          if decide (LBR ∈ tail s ∨ RBR ∈ b) then None else Some (tail a, port)
        else None
      else if decide (COLON ∈ before ∨ LBR ∈ s ∨ RBR ∈ s) then None
      else Some (before, port)
  end.

Definition splitHostPort (address : bytes) : result DhError (bytes * Z) :=
  match SplitHostPort address with
  | None => Err ErrInvalidResponse
  | Some (host, rawPort) =>
      match Atoi rawPort with
      | None => Err ErrInvalidResponse
      | Some port => if decide (port < 1 ∨ port > 65535) then Err ErrInvalidResponse else Ok (host, port)
      end
  end.

(** An octet of a dotted IPv4 address: no sign, no leading zero, at most 255. *)
Definition octet (s : bytes) : option byte :=
  if decide (head s = Some x30 ∧ (1 < length s)%nat) then None
  else n ← parse_digits s; if decide (n ≤ 255) then Some (z2b n) else None.

Definition ParseIPv4 (s : bytes) : option bytes :=
  let parts := Split [DOT] s in
  if decide (length parts = 4)%nat then mapM octet parts else None.

(** [net.ParseIP(s).To4()]: the first of the characters [.], [:] and [%] tells the kind
    of address. *)
Fixpoint ip_kind (s : bytes) : option byte :=
  match s with
  | [] => None
  | c :: s => if decide (c = DOT ∨ c = COLON ∨ c = x25) then Some c else ip_kind s
  end.

Definition ParseIP_To4 (v6 : bytes → option bytes) (s : bytes) : option bytes :=
  match ip_kind s with
  | Some c => if decide (c = DOT) then ParseIPv4 s else if decide (c = COLON) then v6 s else None
  | None => None
  end.

Definition invert (b : byte) : byte := z2b (Z.lnot (b2z b)).

Definition ipToBytes (v6 : bytes → option bytes) (address : bytes) : result DhError bytes :=
  hp <-? splitHostPort address;
  let '(host, port) := hp in
  match ParseIP_To4 v6 host with
  | Some [i0; i1; i2; i3] => Ok (invert <$> [z2b (port ≫ 8); z2b port; i0; i1; i2; i3])
  | _ => Err ErrInvalidResponse
  end.

(** ** Identifiers *)

Definition formatIdentify (id : bytes) : bytes := Join (hex2 <$> id) (lit " ").
