(* ===== verification/DhProtocolThm.v ===== *)
(** * Messages of the Dahua P2P service: theorems

    Responses parse back to what was written whatever the line ends, the flattened body is
    the one a traversal of the document gives, addresses are coded and decoded. *)

From Stdlib Require Import ZArith Lia Strings.Byte.
From S2P Require Import Prelude GoStrings GoText TextLemmas DhProtocol.

(** ** XML bodies *)

(** A document: elements, text, and what the parser skips. *)
Inductive Xml :=
| Elem (local : bytes) (children : list Xml)
| Text (data : bytes)
| Misc.

(** The decoder's tokens of a document. *)
Fixpoint tokens (x : Xml) : list Token :=
  match x with
  | Elem local children => StartElement local :: concat (map tokens children) ++ [EndElement]
  | Text data => [CharData data]
  | Misc => [OtherToken]
  end.

(** The reference: each text that is not blank, with its path, in document order. *)
Fixpoint leaves (path : list bytes) (x : Xml) : list (bytes * bytes) :=
  match x with
  | Elem local children => concat (map (leaves (path ++ [local])) children)
  | Text data =>
      if decide (TrimSpace data = [] ∨ path = []) then [] else [(Join path (lit "/"), TrimSpace data)]
  | Misc => []
  end.

(** Later texts of a path replace earlier ones. *)
Definition put (m : gmap bytes bytes) (kv : bytes * bytes) : gmap bytes bytes := <[kv.1 := kv.2]> m.

Definition flatten (doc : list Xml) : gmap bytes bytes := foldl put ∅ (concat (map (leaves []) doc)).

(** Induction over documents: the children of an element are smaller documents. *)
Lemma Xml_ind' (P : Xml → Prop) :
  (∀ local children, Forall P children → P (Elem local children)) → (∀ data, P (Text data)) → P Misc → ∀ x, P x.
Proof.
  intros He Ht Hm. fix IH 1. intros [local children|data|]; [|apply Ht|apply Hm].
  apply He. induction children as [|x xs IHxs]; constructor; [apply IH|apply IHxs].
Qed.

Lemma xml_forest path xs m :
  Forall (λ x, ∀ m, foldl xml_step (path, m) (tokens x) = (path, foldl put m (leaves path x))) xs →
  foldl xml_step (path, m) (concat (map tokens xs)) = (path, foldl put m (concat (map (leaves path) xs))).
Proof.
  intros H. revert m. induction H as [|x xs Hx _ IH]; intros m; [done|]. cbn. by rewrite !foldl_app, Hx, IH.
Qed.

Lemma xml_document x : ∀ path m, foldl xml_step (path, m) (tokens x) = (path, foldl put m (leaves path x)).
Proof.
  induction x as [local children IH|data|] using Xml_ind'; intros path m; [| |done].
  - cbn [tokens foldl xml_step leaves]. rewrite foldl_app, xml_forest.
    + cbn. rewrite length_app. cbn. rewrite Nat.add_sub, take_app_length. done.
    + eapply Forall_impl; [exact IH|]. intros x Hx m'. apply Hx.
  - cbn. destruct (decide (TrimSpace data = [] ∨ path = [])) as [H|H].
    + rewrite decide_False; [done|]. intros [H1 H2]. destruct H as [?| ->]; [done|]. cbn in H2. lia.
    + rewrite decide_True; [done|]. split; [tauto|]. destruct path; [tauto|]. cbn. lia.
Qed.

(** C17.  The loop with its stack gives the same flattened body as the recursive
    traversal of the document: each text that is not blank under the path of the elements
    around it, the last one when a path occurs more than once, and nothing else. *)
Theorem parseXMLBody_flatten doc : parseXMLBody (concat (map tokens doc)) = flatten doc.
Proof.
  unfold parseXMLBody, flatten. rewrite xml_forest; [done|]. apply Forall_forall. intros x _ m. apply xml_document.
Qed.

(** ** Responses *)

(** A response before it is written: [hs] are its header lines. *)
Record Reply := mkReply {
  ms_version : bytes; ms_code : Z; ms_status : bytes; ms_headers : list (bytes * bytes); ms_body : bytes }.

Definition header_line (kv : bytes * bytes) : bytes := kv.1 ++ lit ": " ++ kv.2.

Definition head_lines (m : Reply) : list bytes :=
  (ms_version m ++ [SPC] ++ dec (ms_code m) ++ [SPC] ++ ms_status m) :: (header_line <$> ms_headers m).

(** The message with line feeds for line ends; [crlf] gives the other form. *)
Definition message_text (m : Reply) : bytes := Join (head_lines m) [LF] ++ [LF; LF] ++ ms_body m.

Definition one_line (s : bytes) : Prop := (CR ∉ s) ∧ (LF ∉ s).

Definition well_formed (m : Reply) : Prop :=
  one_line (ms_version m) ∧ (SPC ∉ ms_version m) ∧ - 2 ^ 63 ≤ ms_code m < 2 ^ 63 ∧ one_line (ms_status m) ∧
  Forall (λ kv, one_line kv.1 ∧ one_line kv.2 ∧ kv.1 ≠ [] ∧ COLON ∉ kv.1) (ms_headers m) ∧ CR ∉ ms_body m.

Definition parsed (decode : bytes → list Token) (m : Reply) : Response :=
  mkResponse (ms_version m) (ms_code m) (ms_status m) (foldl put ∅ (ms_headers m))
    (if decide (TrimSpace (crlf (ms_body m)) = []) then None else Some (parseXMLBody (decode (crlf (ms_body m))))).

Lemma one_line_app s t : one_line s → one_line t → one_line (s ++ t).
Proof. unfold one_line. set_solver. Qed.

Lemma one_line_lit s : forallb (λ c, negb (bool_decide (c = CR)) && negb (bool_decide (c = LF))) s = true → one_line s.
Proof.
  rewrite forallb_forall. intros H.
  split; intros Hin%list_elem_of_In%H; apply andb_true_iff in Hin as [H1 H2]; revert H1 H2; rewrite !negb_true_iff;
    intros H1%bool_decide_eq_false H2%bool_decide_eq_false; done.
Qed.

Lemma one_line_dec n : one_line (dec n).
Proof. split; by apply dec_no. Qed.

Lemma head_lines_one m : well_formed m → Forall (λ l, one_line l ∧ l ≠ []) (head_lines m).
Proof.
  intros (Hv & _ & _ & Hs & Hh & _). constructor.
  - split; [|by destruct (ms_version m)].
    apply one_line_app; [done|]. apply one_line_app; [by apply one_line_lit|]. apply one_line_app; [apply one_line_dec|].
    apply one_line_app; [by apply one_line_lit|done].
  - apply Forall_fmap. eapply Forall_impl; [exact Hh|]. intros [k v] (Hk & Hv' & Hne & _). unfold header_line. cbn [fst snd] in *.
    split; [|by destruct k]. apply one_line_app; [done|]. apply one_line_app; [by apply one_line_lit|done].
Qed.

Lemma crlf_Join l : Forall (λ x, LF ∉ x) l → crlf (Join l [LF]) = Join l CRLF.
Proof.
  induction 1 as [|x l Hx Hl IH]; [done|]. destruct l as [|y l].
  - cbn [Join fmap list_fmap concat]. rewrite !app_nil_r. by apply crlf_id.
  - rewrite !Join_cons, !crlf_app, IH, (crlf_id x) by done. done.
Qed.

Lemma no_CR_Join l : Forall (λ x, CR ∉ x) l → CR ∉ Join l [LF].
Proof.
  induction 1 as [|x l Hx Hl IH]; [by apply not_elem_of_nil|]. destruct l as [|y l].
  - cbn [Join fmap list_fmap concat]. by rewrite app_nil_r.
  - rewrite Join_cons. rewrite !elem_of_app, list_elem_of_singleton. by intros [?|[?|?]].
Qed.

(** The blank line after the header is the first one. *)
Lemma Cut_blank l b : l ≠ [] → Forall (λ x, (CR ∉ x) ∧ x ≠ []) l →
  Cut (CRLF ++ CRLF) (Join l CRLF ++ CRLF ++ CRLF ++ b) = Some (Join l CRLF, b).
Proof.
  intros Hne Hl. induction Hl as [|x l [Hx _] Hl IH]; [done|]. destruct l as [|y l].
  - cbn [Join fmap list_fmap concat]. rewrite app_nil_r. by apply (Cut_first CR [LF; CR; LF]).
  - rewrite Join_cons, <- !app_assoc. change (CRLF ++ CRLF) with (CR :: [LF; CR; LF]). rewrite Cut_skip by done.
    specialize (IH ltac:(done)). change (CRLF ++ CRLF) with (CR :: [LF; CR; LF]) in IH.
    set (r := Join (y :: l) CRLF) in *. set (t := CRLF ++ CRLF ++ b) in *.
    assert (∃ c r', r = c :: r' ∧ c ≠ CR) as (c & r' & Er & Hc).
    { inversion_clear Hl as [|? ? [Hy Hny] _]. subst r. destruct y as [|c y]; [done|]. exists c. eexists. split; [by destruct l|].
      by apply not_elem_of_cons in Hy as [??]. }
    assert (Cut (CR :: [LF; CR; LF]) (CRLF ++ r ++ t) = '(u, v) ← Cut (CR :: [LF; CR; LF]) (r ++ t); Some (CRLF ++ u, v)) as ->.
    { rewrite Er. change (CRLF ++ (c :: r') ++ t) with (CR :: LF :: (c :: r') ++ t).
      rewrite Cut_step by (cbn; by rewrite !decide_True, decide_False by done).
      rewrite Cut_step by done. by rewrite <- Er, IH. }
    rewrite IH. cbn. done.
Qed.

Lemma normalize_text s : CR ∉ s → normalize s = crlf s ∧ normalize (crlf s) = crlf s.
Proof. intros Hs. unfold normalize. by rewrite ReplaceAll_no_CR, ReplaceAll_crlf, ReplaceAll_LF. Qed.

Lemma header_step_line kv m : kv.1 ≠ [] → COLON ∉ kv.1 → header_step m (header_line kv) = put m kv.
Proof.
  intros Hne Hc. unfold header_step, header_line. change (lit ": ") with (COLON :: [SPC]). 
  rewrite (Cut_first COLON [SPC] kv.1 kv.2 : _ → Cut _ (kv.1 ++ [COLON; SPC] ++ kv.2) = _) by done. rewrite decide_True; [done|]. destruct kv.1; [done|]. cbn. lia.
Qed.

Lemma headers_parsed hs m : Forall (λ kv : bytes * bytes, kv.1 ≠ [] ∧ (COLON ∉ kv.1)) hs →
  foldl header_step m (header_line <$> hs) = foldl put m hs.
Proof.
  intros H. revert m. induction H as [|kv hs [Hne Hc] _ IH]; intros m; [done|]. cbn. by rewrite header_step_line, IH.
Qed.

(** The parse of a header and a body separated by the first blank line. *)
Lemma parse_lines decode data m :
  well_formed m → normalize data = Join (head_lines m) CRLF ++ CRLF ++ CRLF ++ crlf (ms_body m) →
  ParseResponse decode data = Ok (parsed decode m).
Proof.
  intros Hw Hn. pose proof (head_lines_one m Hw) as Hl. destruct Hw as (Hv & Hsp & Hc & Hs & Hh & Hb).
  assert (Forall (λ x, CR ∉ x) (head_lines m)) as Hcr by (eapply Forall_impl; [exact Hl|]; intros x [[? _] _]; done).
  unfold ParseResponse. rewrite Hn. erewrite SplitN_2.
  2:{ apply Cut_blank; [done|]. eapply Forall_impl; [exact Hl|]. intros x [[? _] ?]. done. }
  rewrite (Split_Join CR [LF]) by done. unfold head_lines. cbn [app].
  pose proof (SplitN_here 1 SPC [] (ms_version m) (dec (ms_code m) ++ SPC :: ms_status m) Hsp) as E1. cbn [app] in E1. rewrite E1.
  pose proof (SplitN_here 0 SPC [] (dec (ms_code m)) (ms_status m)) as E2. cbn [app] in E2. rewrite E2 by (by apply dec_no).
  cbn [SplitN]. rewrite Atoi_dec by done. rewrite headers_parsed; [done|].
  eapply Forall_impl; [exact Hh|]. intros kv (_ & _ & ? & ?). done.
Qed.

(** C15.  [ParseResponse] reads back every well-formed response, whether its
    lines end in a line feed or in CRLF: version, code and status text, spaces in the
    latter included; every header, the last one when a name occurs more than once; and
    the flattened body, none when the body is blank. *)
Theorem ParseResponse_roundtrip decode m :
  well_formed m →
  ParseResponse decode (message_text m) = Ok (parsed decode m) ∧
  ParseResponse decode (crlf (message_text m)) = Ok (parsed decode m).
Proof.
  intros Hw. pose proof (head_lines_one m Hw) as Hl.
  assert (CR ∉ message_text m) as Hcr.
  { unfold message_text. rewrite !elem_of_app. intros [H|[H|H]]; [|set_solver|by destruct Hw as (_&_&_&_&_&?)].
    revert H. apply no_CR_Join. eapply Forall_impl; [exact Hl|]. intros x [[? _] _]. done. }
  assert (crlf (message_text m) = Join (head_lines m) CRLF ++ CRLF ++ CRLF ++ crlf (ms_body m)) as Et.
  { unfold message_text. rewrite !crlf_app, crlf_Join; [done|]. eapply Forall_impl; [exact Hl|]. intros x [[_ ?] _]. done. }
  destruct (normalize_text _ Hcr) as [E1 E2]. split; apply parse_lines; congruence.
Qed.

Definition demo_reply : Reply :=
  mkReply (lit "HTTP/1.1") 404 (lit "Not Found") [(lit "CSeq", lit "3"); (lit "X", lit "a: b")] (lit "<body/>").

Lemma ParseResponse_roundtrip_witness :
  ParseResponse (λ _, [StartElement (lit "body"); CharData (lit " v "); EndElement]) (crlf (message_text demo_reply)) =
  Ok (mkResponse (lit "HTTP/1.1") 404 (lit "Not Found") (<[lit "X" := lit "a: b"]> {[lit "CSeq" := lit "3"]})
        (Some {[lit "body" := lit "v"]})).
Proof.
  destruct (ParseResponse_roundtrip (λ _, [StartElement (lit "body"); CharData (lit " v "); EndElement]) demo_reply) as [_ E].
  - unfold well_formed, one_line. apply (bool_decide_unpack _). by vm_compute.
  - rewrite E. by vm_compute.
Defined.

(** ** Addresses *)

Definition dotted (ip : bytes) : bytes := Join ((λ b, dec (b2z b)) <$> ip) [DOT].
Definition host_port (host : bytes) (port : Z) : bytes := host ++ [COLON] ++ dec port.

Definition plain (host : bytes) : Prop := (COLON ∉ host) ∧ (LBR ∉ host) ∧ (RBR ∉ host).

Lemma splitHostPort_plain host port : plain host → 1 ≤ port ≤ 65535 → splitHostPort (host_port host port) = Ok (host, port).
Proof.
  intros (Hc & Hl & Hr) Hp. unfold splitHostPort, SplitHostPort, host_port.
  assert (∀ c, is_digit c = false → c ≠ x2d → c ∉ reverse (dec port)) as Hd.
  { intros c H1 H2. rewrite elem_of_reverse. by apply dec_no. }
  rewrite !reverse_app, reverse_singleton, <- app_assoc.
  rewrite (Cut_first COLON [] (reverse (dec port)) (reverse host) : _ → Cut _ (_ ++ [COLON] ++ reverse host) = _) by (by apply Hd).
  rewrite !reverse_involutive. rewrite decide_False.
  2:{ destruct host as [|c host]; [done|]. cbn. intros [= ->]. apply not_elem_of_cons in Hl as [? _]. done. }
  rewrite decide_False.
  2:{ rewrite !elem_of_app, !list_elem_of_singleton. intros [?|[[?|[?|H]]|[?|[?|H]]]]; try done; revert H; by apply dec_no. }
  rewrite Atoi_dec by lia. rewrite decide_False by lia. done.
Qed.

Lemma splitHostPort_bounds address host port : splitHostPort address = Ok (host, port) → 1 ≤ port ≤ 65535.
Proof.
  unfold splitHostPort. destruct (SplitHostPort address) as [[h p]|]; [|done]. destruct (Atoi p); [|done].
  case_decide; [done|]. intros [= _ <-]. lia.
Qed.

Lemma octet_dec b : octet (dec (b2z b)) = Some b.
Proof. destruct b; by vm_compute. Qed.

Lemma octets_dec ip : mapM octet ((λ b, dec (b2z b)) <$> ip) = Some ip.
Proof. induction ip as [|b ip IH]; [done|]. cbn. rewrite octet_dec. cbn. by rewrite IH. Qed.

Lemma dec_byte_no c b : is_digit c = false → c ∉ dec (b2z b).
Proof.
  intros Hc. unfold dec. pose proof (b2z_range b). rewrite decide_False by lia. apply udec_no; [lia|done].
Qed.

Lemma dotted_parses ip : length ip = 4%nat → ParseIPv4 (dotted ip) = Some ip.
Proof.
  intros H4. unfold ParseIPv4, dotted. rewrite (Split_Join DOT []).
  - rewrite length_fmap, H4, decide_True by done. apply octets_dec.
  - by destruct ip.
  - apply Forall_fmap, Forall_forall. intros b _. cbn. by apply dec_byte_no.
Qed.

Lemma ip_kind_skip a s : Forall (λ c, is_digit c = true) a → ip_kind (a ++ s) = ip_kind s.
Proof.
  induction 1 as [|c a Hc _ IH]; [done|]. cbn. rewrite decide_False; [done|].
  by intros [->|[->| ->]]; vm_compute in Hc.
Qed.

Lemma dotted_kind b0 b1 ip : ip_kind (dotted (b0 :: b1 :: ip)) = Some DOT.
Proof.
  unfold dotted. cbn [fmap list_fmap]. rewrite Join_cons, ip_kind_skip; [done|].
  unfold dec. pose proof (b2z_range b0). rewrite decide_False by lia. apply udec_spec. lia.
Qed.

Lemma dotted_plain ip : plain (dotted ip).
Proof.
  assert (∀ c, is_digit c = false → c ≠ DOT → c ∉ dotted ip) as H; [|by repeat split; apply H].
  intros c Hc Hd. unfold dotted. induction ip as [|b ip IH]; [apply not_elem_of_nil|]. destruct ip as [|b' ip].
  - cbn [fmap list_fmap Join concat]. rewrite app_nil_r. by apply dec_byte_no.
  - cbn [fmap list_fmap] in *. rewrite Join_cons, !elem_of_app, list_elem_of_singleton.
    intros [H|[H|H]]; [|done|done]. revert H. by apply dec_byte_no.
Qed.

Lemma b2z_invert b : b2z (invert b) = 255 - b2z b.
Proof. unfold invert. rewrite b2z_z2b. pose proof (b2z_range b). unfold Z.lnot. word_lia. Qed.

Lemma invert_invert b : invert (invert b) = b.
Proof. apply b2z_inj. rewrite !b2z_invert. lia. Qed.

(** What a peer reads: the address and the port in the inverted bytes. *)
Definition bytesToIp (r : bytes) : option (bytes * Z) :=
  match invert <$> r with
  | [p1; p0; i0; i1; i2; i3] => Some ([i0; i1; i2; i3], b2z p1 * 256 + b2z p0)
  | _ => None
  end.

(** [ipToBytes] codes an IPv4 address and port so that a peer that inverts the
    six bytes again reads the same address and port, the port most significant byte
    first. *)
Theorem ipToBytes_roundtrip v6 ip port :
  length ip = 4%nat → 1 ≤ port ≤ 65535 →
  ∃ r, ipToBytes v6 (host_port (dotted ip) port) = Ok r ∧ length r = 6%nat ∧ bytesToIp r = Some (ip, port).
Proof.
  intros H4 Hp. unfold ipToBytes. rewrite splitHostPort_plain by (done || apply dotted_plain). cbn [result_bind].
  destruct ip as [|i0 [|i1 [|i2 [|i3 [|]]]]]; try done. unfold ParseIP_To4. rewrite dotted_kind, decide_True by done.
  rewrite dotted_parses by done. eexists. split; [done|]. split; [done|]. unfold bytesToIp. cbn [fmap list_fmap].
  rewrite !invert_invert, !b2z_z2b. do 2 f_equal. rewrite Z.shiftr_div_pow2 by lia. word_lia.
Qed.

Lemma ipToBytes_roundtrip_witness :
  ipToBytes (λ _, None) (lit "203.0.113.7:37777") = Ok [x6c; x6e; x34; xff; x8e; xf8] ∧
  bytesToIp [x6c; x6e; x34; xff; x8e; xf8] = Some ([xcb; x00; x71; x07], 37777).
Proof.
  destruct (ipToBytes_roundtrip (λ _, None) [xcb; x00; x71; x07] 37777) as (r & E & _ & Hr); [done|lia|].
  replace (host_port (dotted [xcb; x00; x71; x07]) 37777) with (lit "203.0.113.7:37777") in E by (by vm_compute).
  assert (r = [x6c; x6e; x34; xff; x8e; xf8]) as <- by (vm_compute in E; congruence). done.
Defined.

(** ** Identifiers *)

Definition unhex_digit (c : byte) : Z := if decide (b2z c < 58) then b2z c - 48 else b2z c - 87.
Definition unhex2 (s : bytes) : option byte :=
  match s with [a; b] => Some (z2b (unhex_digit a * 16 + unhex_digit b)) | _ => None end.

Lemma unhex_hex b : unhex2 (hex2 b) = Some b.
Proof. destruct b; by vm_compute. Qed.

Lemma hex2_no_space b : SPC ∉ hex2 b.
Proof. destruct b; apply (bool_decide_unpack _); by vm_compute. Qed.

(** The identifier is recovered from its text. *)
Lemma formatIdentify_fields id : id ≠ [] → mapM unhex2 (Split [SPC] (formatIdentify id)) = Some id.
Proof.
  intros Hne. unfold formatIdentify. change (lit " ") with (SPC :: []). rewrite (Split_Join SPC []).
  - clear. induction id as [|b id IH]; [done|]. cbn [fmap list_fmap mapM]. by rewrite unhex_hex; cbn; rewrite IH.
  - by destruct id.
  - apply Forall_fmap, Forall_forall. intros b _. cbn. apply hex2_no_space.
Qed.
