(* ===== verification/DhCrypto.v ===== *)
(** * Keys, addresses and device information

    [src/dh/crypto.go].  MD5, HMAC-SHA-256, the AES block function and the JSON decoder
    are arguments; base64, output feedback mode and PBKDF2 are modelled. *)

From Stdlib Require Import ZArith Lia Strings.Byte.
From S2P Require Import Prelude GoStrings GoText TextLemmas.

Definition xor_byte (a b : byte) : byte := z2b (Z.lxor (b2z a) (b2z b)).

(** [for j := range t { t[j] ^= u[j] }] and the XOR of a stream with its key stream. *)
Definition xor_bytes (t u : bytes) : bytes := zip_with xor_byte t u.

(** ** base64, the standard encoding *)

Definition PAD : byte := x3d.

Definition b64_char (v : Z) : byte :=
  if decide (v < 26) then z2b (65 + v)
  else if decide (v < 52) then z2b (97 + (v - 26))
  else if decide (v < 62) then z2b (48 + (v - 52))
  else if decide (v = 62) then x2b else x2f.

Definition b64_value (c : byte) : option Z :=
  let n := b2z c in
  if decide (65 ≤ n ≤ 90) then Some (n - 65)
  else if decide (97 ≤ n ≤ 122) then Some (n - 97 + 26)
  else if decide (48 ≤ n ≤ 57) then Some (n - 48 + 52)
  else if decide (c = x2b) then Some 62
  else if decide (c = x2f) then Some 63
  else None.

(** [base64.StdEncoding.EncodeToString] *)
Fixpoint EncodeToString (s : bytes) : bytes :=
  let sextet val k := b64_char (Z.land (val ≫ k) 63) in
  match s with
  | [] => []
  | [a] => let val := b2z a ≪ 16 in [sextet val 18; sextet val 12; PAD; PAD]
  | [a; b] => let val := Z.lor (b2z a ≪ 16) (b2z b ≪ 8) in [sextet val 18; sextet val 12; sextet val 6; PAD]
  | a :: b :: c :: s =>
      let val := Z.lor (Z.lor (b2z a ≪ 16) (b2z b ≪ 8)) (b2z c) in
      sextet val 18 :: sextet val 12 :: sextet val 6 :: sextet val 0 :: EncodeToString s
  end.

(** The bytes of a group of four characters. *)
Definition group (va vb vc vd : Z) : Z :=
  Z.lor (Z.lor (va ≪ 18) (vb ≪ 12)) (Z.lor (vc ≪ 6) vd).

Fixpoint decode_groups (s : bytes) : option bytes :=
  match s with
  | [] => Some []
  | a :: b :: c :: d :: s =>
      va ← b64_value a; vb ← b64_value b;
      if decide (c = PAD) then
        if decide (d = PAD ∧ s = []) then Some [z2b (group va vb 0 0 ≫ 16)] else None
      else
        vc ← b64_value c;
        if decide (d = PAD) then
          if decide (s = []) then let g := group va vb vc 0 in Some [z2b (g ≫ 16); z2b (g ≫ 8)] else None
        else
          vd ← b64_value d;
          r ← decode_groups s;
          let g := group va vb vc vd in Some (z2b (g ≫ 16) :: z2b (g ≫ 8) :: z2b g :: r)
  | _ => None
  end.

(** [base64.StdEncoding.DecodeString]: line ends are skipped; [None] is an error. *)
Definition DecodeString (s : bytes) : option bytes :=
  decode_groups (filter (λ c, c ≠ CR ∧ c ≠ LF) s).

(** ** Output feedback mode *)

(** [cipher.NewOFB(block, iv)] and one [XORKeyStream]: each block of the key stream is the
    encryption of the one before. *)
Fixpoint ofb_go (fuel : nat) (block : bytes → bytes) (iv data : bytes) : bytes :=
  match fuel with
  | O => []
  | S fuel =>
      if decide (data = []) then []
      else let k := block iv in xor_bytes (take 16 data) k ++ ofb_go fuel block k (drop 16 data)
  end.

Definition XORKeyStream (block : bytes → bytes) (iv data : bytes) : bytes := ofb_go (length data) block iv data.

Inductive CryptoError := ErrBase64 | ErrKeySize | ErrJSON.

Record DeviceInfo := mkDeviceInfo {
  HTTPPort : Z; PrivPort : Z; RandSalt : bytes; InfoRTSPPort : Z; TLSPrivPort : Z }.

Definition deviceInfoKey : bytes := lit "kRjmsUB&ezmdGLL67H#$ojw@XflcaIaf".
Definition deviceInfoIV : bytes := lit "MydvJw*Iw1w&i^kk".
Definition ipEncryptIV : bytes := lit "2z52*lk9o6HRyJrf".

Section Crypto.
(** MD5; HMAC-SHA-256 of a key and a message; AES of a key and a block. *)
Context (md5 : bytes → bytes) (hmac : bytes → bytes → bytes) (aes : bytes → bytes → bytes).
(** [json.Unmarshal] into a [DeviceInfo]. *)
Context (Unmarshal : bytes → option DeviceInfo).

(** [aes.NewCipher] *)
Definition NewCipher (key : bytes) : result CryptoError (bytes → bytes) :=
  if decide (length key = 16 ∨ length key = 24 ∨ length key = 32)%nat then Ok (aes key) else Err ErrKeySize.

Definition DecryptDeviceInfo (infoB64 : bytes) : result CryptoError DeviceInfo :=
  match DecodeString infoB64 with
  | None => Err ErrBase64
  | Some cipherText =>
      block <-? NewCipher deviceInfoKey;
      match Unmarshal (XORKeyStream block deviceInfoIV cipherText) with
      | Some info => Ok info
      | None => Err ErrJSON
      end
  end.

Definition GetDeviceKey (username password randsalt : bytes) : bytes :=
  md5 (username ++ lit ":Login to " ++ randsalt ++ lit ":" ++ password) ≫= HEX2.

(** [mac.Size()] *)
Definition hashLen : nat := 32.

(** The loop over the iterations: [n] are left. *)
Fixpoint pbkdf2_rounds (n : nat) (password u t : bytes) : bytes :=
  match n with
  | O => t
  | S n => let u := hmac password u in pbkdf2_rounds n password u (xor_bytes t u)
  end.

Definition pbkdf2_block (password salt : bytes) (iter : nat) (block : Z) : bytes :=
  let u := hmac password (salt ++ [z2b (block ≫ 24); z2b (block ≫ 16); z2b (block ≫ 8); z2b block]) in
  pbkdf2_rounds (iter - 1) password u u.

(** The loop over the blocks: [n] are left, [block] is next. *)
Fixpoint pbkdf2_blocks (n : nat) (password salt : bytes) (iter : nat) (block : Z) (dk : bytes) : bytes :=
  match n with
  | O => dk
  | S n => pbkdf2_blocks n password salt iter (block + 1) (dk ++ pbkdf2_block password salt iter block)
  end.

Definition pbkdf2SHA256 (password salt : bytes) (iter keyLen : nat) : bytes :=
  let numBlocks := Nat.div (keyLen + hashLen - 1) hashLen in
  take keyLen (pbkdf2_blocks numBlocks password salt iter 1 []).

Definition iterations : nat := Z.to_nat 20000.

Definition EncryptAddr (key : bytes) (nonce : Z) (data : bytes) : result CryptoError bytes :=
  let salt := dec nonce in
  let dk := pbkdf2SHA256 key salt iterations 32 in
  block <-? NewCipher dk;
  Ok (EncodeToString (XORKeyStream block ipEncryptIV data)).

Definition DecryptAddr (key : bytes) (nonce : Z) (data : bytes) : result CryptoError bytes :=
  match DecodeString data with
  | None => Err ErrBase64
  | Some cipherText =>
      let salt := dec nonce in
      let dk := pbkdf2SHA256 key salt iterations 32 in
      block <-? NewCipher dk;
      Ok (XORKeyStream block ipEncryptIV cipherText)
  end.

(** [curdate] is [time.Now().Unix()]. *)
Definition GetDeviceAuth (username key : bytes) (nonce : Z) (randsalt payload : bytes) (curdate : Z) : bytes :=
  let message := dec nonce ++ dec curdate ++ payload in
  let auth := EncodeToString (hmac key message) in
  lit "<CreateDate>" ++ dec curdate ++ lit "</CreateDate>" ++
  lit "<DevAuth>" ++ auth ++ lit "</DevAuth>" ++
  lit "<Nonce>" ++ dec nonce ++ lit "</Nonce>" ++
  lit "<RandSalt>" ++ randsalt ++ lit "</RandSalt>" ++
  lit "<UserName>" ++ username ++ lit "</UserName>".
End Crypto.

(** [b] are the bytes of [RandomBytes(4)]. *)
Definition GetDeviceNonce (b : bytes) : Z :=
  match b with
  | [b0; b1; b2; b3] => Z.lor (Z.lor (Z.lor (b2z b0 ≪ 24) (b2z b1 ≪ 16)) (b2z b2 ≪ 8)) (b2z b3)
  | _ => 0
  end.
