(* ===== verification/DhCryptoThm.v ===== *)
(** * Keys, addresses and device information: theorems

    base64 and output feedback mode are undone by their inverses, so encrypted addresses
    decrypt; the PBKDF2 of the code is the one of the standard. *)

From Stdlib Require Import ZArith Lia Strings.Byte.
From S2P Require Import Prelude GoStrings GoText TextLemmas DhCrypto.

(** ** Exclusive or *)

Lemma b2z_xor a b : b2z (xor_byte a b) = Z.lxor (b2z a) (b2z b).
Proof.
  unfold xor_byte. rewrite b2z_z2b. pose proof (b2z_range a). pose proof (b2z_range b).
  assert (0 ≤ Z.lxor (b2z a) (b2z b)) by (apply Z.lxor_nonneg; lia).
  unfold u8. apply Z.mod_small. split; [done|]. destruct (decide (Z.lxor (b2z a) (b2z b) = 0)) as [->|]; [done|].
  apply Z.log2_lt_pow2; [lia|]. eapply Z.le_lt_trans; [apply Z.log2_lxor; lia|].
  assert (∀ c, Z.log2 (b2z c) < 8) as Hl; [|apply Z.max_lub_lt; apply Hl].
  intros c. pose proof (b2z_range c). destruct (decide (b2z c = 0)) as [->|]; [done|]. apply Z.log2_lt_pow2; lia.
Qed.

Lemma xor_byte_twice a b : xor_byte (xor_byte a b) b = a.
Proof. apply b2z_inj. by rewrite !b2z_xor, Z.lxor_assoc, Z.lxor_nilpotent, Z.lxor_0_r. Qed.

Lemma xor_byte_comm a b : xor_byte a b = xor_byte b a.
Proof. unfold xor_byte. by rewrite Z.lxor_comm. Qed.

Lemma xor_bytes_twice t u : (length t ≤ length u)%nat → xor_bytes (xor_bytes t u) u = t.
Proof.
  revert u. induction t as [|a t IH]; intros [|b u] H; cbn in *; try done; [lia|]. rewrite xor_byte_twice. f_equal. apply IH. lia.
Qed.

Lemma length_xor_bytes t u : length (xor_bytes t u) = Nat.min (length t) (length u).
Proof. apply length_zip_with. Qed.

(** ** Output feedback mode *)

Section Ofb.
Context (block : bytes → bytes) (block_length : ∀ b, length (block b) = 16%nat).

Lemma length_ofb fuel iv data : (length data ≤ fuel)%nat → length (ofb_go fuel block iv data) = length data.
Proof.
  revert iv data. induction fuel as [|fuel IH]; intros iv data Hf; [by destruct data; cbn in *; [|lia]|].
  cbn [ofb_go]. case_decide as Hd; [by subst|]. assert (0 < length data)%nat by (destruct data; [done|cbn; lia]).
  rewrite length_app, length_xor_bytes, length_take, block_length, IH; rewrite length_drop; lia.
Qed.

Lemma ofb_twice fuel iv data : (length data ≤ fuel)%nat → ofb_go fuel block iv (ofb_go fuel block iv data) = data.
Proof.
  revert iv data. induction fuel as [|fuel IH]; intros iv data Hf; [by destruct data; cbn in *; [|lia]|].
  cbn [ofb_go]. destruct (decide (data = [])) as [->|Hd]; [by rewrite decide_True|]. set (k := block iv).
  assert (0 < length data)%nat by (destruct data; [done|cbn; lia]).
  set (x := xor_bytes (take 16 data) k). set (r := ofb_go fuel block k (drop 16 data)).
  assert (length x = Nat.min 16 (length data)) as Hx.
  { unfold x, k. rewrite length_xor_bytes, length_take, block_length. lia. }
  rewrite decide_False by (intros E%(f_equal length); rewrite length_app, Hx in E; cbn [length] in E; lia).
  assert (take 16 (x ++ r) = x ∧ drop 16 (x ++ r) = r) as [-> ->].
  { destruct (decide (16 ≤ length data)%nat).
    - by rewrite take_app_length', drop_app_length' by lia.
    - assert (r = []) as ->. { apply nil_length_inv. unfold r. rewrite length_ofb; rewrite length_drop; lia. }
      rewrite app_nil_r, take_ge, drop_ge by lia. done. }
  unfold x, r. rewrite IH by (rewrite length_drop; lia).
  rewrite xor_bytes_twice by (unfold k; rewrite length_take, block_length; lia). apply take_drop.
Qed.

Lemma XORKeyStream_twice iv data : XORKeyStream block iv (XORKeyStream block iv data) = data.
Proof. unfold XORKeyStream. rewrite length_ofb by done. by apply ofb_twice. Qed.
End Ofb.

(** ** base64 *)

Definition sextets : list Z := seqZ 0 64.

Lemma b64_char_all : Forall (λ v, b64_value (b64_char v) = Some v ∧ b64_char v ≠ PAD ∧ b64_char v ≠ CR ∧ b64_char v ≠ LF) sextets.
Proof. apply (bool_decide_unpack _). by vm_compute. Qed.

Lemma b64_char_ok v : 0 ≤ v < 64 →
  b64_value (b64_char v) = Some v ∧ b64_char v ≠ PAD ∧ b64_char v ≠ CR ∧ b64_char v ≠ LF.
Proof. intros Hv. pose proof b64_char_all as H. rewrite Forall_forall in H. apply H, elem_of_seqZ. lia. Qed.

Lemma land_63 x : Z.land x 63 = x `mod` 64.
Proof. change 63 with (Z.ones 6). apply Z.land_ones. lia. Qed.

(** The value of a group as a sum. *)
Lemma group_sum a b c d : 0 ≤ a < 64 → 0 ≤ b < 64 → 0 ≤ c < 64 → 0 ≤ d < 64 →
  group a b c d = a * 2 ^ 18 + b * 2 ^ 12 + c * 2 ^ 6 + d.
Proof.
  intros. unfold group. rewrite (Z.lor_comm (a ≪ 18)), (Z.lor_comm (c ≪ 6)), (Z.lor_comm (Z.lor _ _)).
  rewrite (lor_shiftl_add d) by lia. rewrite Z.lor_assoc. rewrite (lor_shiftl_add (d + c * 2 ^ 6)) by lia.
  rewrite lor_shiftl_add by lia. lia.
Qed.

Lemma triple_sum a b c : 0 ≤ b < 256 → 0 ≤ c < 256 →
  Z.lor (Z.lor (a ≪ 16) (b ≪ 8)) c = a * 2 ^ 16 + b * 2 ^ 8 + c.
Proof.
  intros. rewrite Z.lor_comm, (Z.lor_comm (a ≪ 16)), Z.lor_assoc. rewrite (lor_shiftl_add c) by lia.
  rewrite lor_shiftl_add by lia. lia.
Qed.

Lemma pair_sum a b : 0 ≤ b < 256 → Z.lor (a ≪ 16) (b ≪ 8) = a * 2 ^ 16 + b * 2 ^ 8.
Proof. intros. pose proof (triple_sum a b 0 ltac:(lia) ltac:(lia)) as E. rewrite Z.lor_0_r in E. lia. Qed.

(** The characters of a group of three bytes, and the bytes again. *)
Definition sextet (val k : Z) : Z := (val ≫ k) `mod` 64.

Lemma sextet_range val k : 0 ≤ sextet val k < 64.
Proof. unfold sextet. apply Z.mod_pos_bound. lia. Qed.

Lemma sextet_zero val k : 0 ≤ k → val `mod` 2 ^ (k + 6) = val `mod` 2 ^ k → sextet val k = 0.
Proof.
  intros Hk E. unfold sextet. rewrite Z.shiftr_div_pow2 by lia. rewrite Z.pow_add_r in E by lia.
  rewrite Z.rem_mul_r in E by lia. change (2 ^ 6) with 64 in E. nia.
Qed.

Lemma group_sextets val : 0 ≤ val < 2 ^ 24 →
  group (sextet val 18) (sextet val 12) (sextet val 6) (sextet val 0) = val.
Proof.
  intros Hv. rewrite group_sum by apply sextet_range. unfold sextet. rewrite !Z.shiftr_div_pow2 by lia.
  change (2 ^ 18) with 262144. change (2 ^ 12) with 4096. change (2 ^ 6) with 64. change (2 ^ 0) with 1.
  change (2 ^ 24) with 16777216 in Hv. Z.div_mod_to_equations. lia.
Qed.

Lemma filter_id {A} (P : A → Prop) `{∀ x, Decision (P x)} l : Forall P l → filter P l = l.
Proof. induction 1 as [|x l Hx _ IH]; [done|]. by rewrite filter_cons_True, IH. Qed.

(** Lists in groups of three. *)
Lemma list_ind3 {A} (P : list A → Prop) :
  P [] → (∀ a, P [a]) → (∀ a b, P [a; b]) → (∀ a b c l, P l → P (a :: b :: c :: l)) → ∀ l, P l.
Proof.
  intros H0 H1 H2 H3 l. assert (P l ∧ (∀ a, P (a :: l)) ∧ (∀ a b, P (a :: b :: l))) as [? _]; [|done].
  induction l as [|c l (IH0 & IH1 & IH2)]; [done|]. split; [apply IH1|]. split; [intros a; apply IH2|].
  intros a b. by apply H3.
Qed.

Lemma EncodeToString_lines s : Forall (λ c, c ≠ CR ∧ c ≠ LF) (EncodeToString s).
Proof.
  assert (∀ val k, b64_char (Z.land (val ≫ k) 63) ≠ CR ∧ b64_char (Z.land (val ≫ k) 63) ≠ LF) as Hc.
  { intros val k. rewrite land_63. destruct (b64_char_ok ((val ≫ k) `mod` 64)) as (_ & _ & ? & ?); [|done].
    apply Z.mod_pos_bound. lia. }
  induction s as [|a|a b|a b c s IH] using list_ind3; cbn [EncodeToString]; repeat (constructor; [apply Hc || done|]); done.
Qed.

Lemma decode_encode s : decode_groups (EncodeToString s) = Some s.
Proof.
  assert (∀ val k, b64_value (b64_char (sextet val k)) = Some (sextet val k) ∧ b64_char (sextet val k) ≠ PAD) as Hc.
  { intros val k. destruct (b64_char_ok (sextet val k)) as (? & ? & _); [apply sextet_range|done]. }
  induction s as [|a|a b|a b c s IH] using list_ind3; cbn [EncodeToString]; rewrite ?land_63; [done|..].
  - fold (sextet (b2z a ≪ 16) 18) (sextet (b2z a ≪ 16) 12). cbn [decode_groups].
    rewrite !(proj1 (Hc _ _)). cbn [mbind option_bind]. rewrite !decide_True by done. do 2 f_equal.
    pose proof (b2z_range a) as Ha. rewrite Z.shiftl_mul_pow2 by lia. pose proof (group_sextets (b2z a * 2 ^ 16) ltac:(lia)) as G.
    rewrite (sextet_zero _ 6), (sextet_zero _ 0) in G by (lia || word_lia). rewrite G.
    rewrite Z.shiftr_div_pow2, Z.div_mul by lia. apply z2b_b2z.
  - set (val := Z.lor (b2z a ≪ 16) (b2z b ≪ 8)). fold (sextet val 18) (sextet val 12) (sextet val 6). cbn [decode_groups].
    rewrite !(proj1 (Hc _ _)). cbn [mbind option_bind]. rewrite decide_False by apply Hc. rewrite !decide_True by done.
    pose proof (b2z_range a). pose proof (b2z_range b).
    assert (val = b2z a * 2 ^ 16 + b2z b * 2 ^ 8) as Ev by (apply pair_sum; lia).
    pose proof (group_sextets val ltac:(lia)) as G. rewrite (sextet_zero _ 0) in G by (lia || (rewrite Ev; word_lia)). rewrite G, Ev.
    do 2 f_equal; [|f_equal]; apply b2z_inj; rewrite b2z_z2b, Z.shiftr_div_pow2 by lia; word_lia.
  - set (val := Z.lor (Z.lor (b2z a ≪ 16) (b2z b ≪ 8)) (b2z c)).
    fold (sextet val 18) (sextet val 12) (sextet val 6) (sextet val 0). cbn [decode_groups].
    rewrite !(proj1 (Hc _ _)). cbn [mbind option_bind]. rewrite !decide_False by apply Hc. rewrite IH. cbn [mbind option_bind].
    pose proof (b2z_range a). pose proof (b2z_range b). pose proof (b2z_range c).
    assert (val = b2z a * 2 ^ 16 + b2z b * 2 ^ 8 + b2z c) as Ev by (apply triple_sum; lia).
    rewrite (group_sextets val) by lia. rewrite Ev.
    f_equal. f_equal; [|f_equal; [|f_equal]]; apply b2z_inj; rewrite b2z_z2b, ?Z.shiftr_div_pow2 by lia; word_lia.
Qed.

Lemma DecodeString_Encode s : DecodeString (EncodeToString s) = Some s.
Proof. unfold DecodeString. rewrite filter_id by apply EncodeToString_lines. apply decode_encode. Qed.

(** ** Encrypted addresses *)

Section Addresses.
Context (hmac : bytes → bytes → bytes) (aes : bytes → bytes → bytes).
(** HMAC-SHA-256 gives 32 bytes, AES blocks of 16. *)
Context (hmac_length : ∀ k m, length (hmac k m) = hashLen) (aes_length : ∀ k b, length (aes k b) = 16%nat).

Lemma length_pbkdf2_rounds n password u t :
  length t = hashLen → length (pbkdf2_rounds hmac n password u t) = hashLen.
Proof.
  revert u t. induction n as [|n IH]; intros u t Ht; [done|]. cbn. apply IH.
  rewrite length_xor_bytes, hmac_length, Ht. apply Nat.min_id.
Qed.

Lemma length_pbkdf2_blocks n password salt iter block dk :
  length (pbkdf2_blocks hmac n password salt iter block dk) = (length dk + n * hashLen)%nat.
Proof.
  revert block dk. induction n as [|n IH]; intros block dk; [cbn; lia|]. cbn [pbkdf2_blocks].
  rewrite IH, length_app. unfold pbkdf2_block. rewrite length_pbkdf2_rounds by apply hmac_length. cbn [Nat.mul]. lia.
Qed.

(** The key is as long as asked for, so the slice expression never panics. *)
Lemma length_pbkdf2 password salt iter keyLen : length (pbkdf2SHA256 hmac password salt iter keyLen) = keyLen.
Proof.
  unfold pbkdf2SHA256. rewrite length_take, length_pbkdf2_blocks. cbn [length].
  assert (keyLen ≤ (keyLen + hashLen - 1) `div` hashLen * hashLen)%nat; [|lia].
  pose proof (Nat.div_mod_eq (keyLen + hashLen - 1) hashLen) as E.
  pose proof (Nat.mod_upper_bound (keyLen + hashLen - 1) hashLen ltac:(done)). unfold hashLen in *. lia.
Qed.

Lemma NewCipher_derived password salt iter :
  NewCipher aes (pbkdf2SHA256 hmac password salt iter 32) = Ok (aes (pbkdf2SHA256 hmac password salt iter 32)).
Proof. unfold NewCipher. rewrite length_pbkdf2, decide_True by tauto. done. Qed.
End Addresses.

(** C25.  An address that [EncryptAddr] encrypts is the one [DecryptAddr] gives back
    under the same key and nonce, whatever the key, the nonce and the text; neither fails on
    the key size. *)
Theorem EncryptAddr_roundtrip hmac aes :
  (∀ k m, length (hmac k m) = 32%nat) → (∀ k b, length (aes k b) = 16%nat) →
  ∀ key nonce data, ∃ c, EncryptAddr hmac aes key nonce data = Ok c ∧ DecryptAddr hmac aes key nonce c = Ok data.
Proof.
  intros Hh Ha key nonce data. unfold EncryptAddr, DecryptAddr.
  rewrite NewCipher_derived by done. cbn [result_bind]. eexists. split; [done|].
  rewrite DecodeString_Encode. cbn [result_bind]. by rewrite XORKeyStream_twice by apply Ha.
Qed.

Lemma EncryptAddr_roundtrip_witness :
  let hmac (k m : bytes) := replicate 32 x5c in let aes (k b : bytes) := replicate 16 x36 in
  ∃ c, EncryptAddr hmac aes (lit "KEY") 7 (lit "127.0.0.1:5000") = Ok c ∧
    DecryptAddr hmac aes (lit "KEY") 7 c = Ok (lit "127.0.0.1:5000").
Proof.
  intros hmac aes. apply (EncryptAddr_roundtrip hmac aes); done.
Defined.

(** ** PBKDF2 *)

Section Reference.
Context (prf : bytes → bytes → bytes).

(** RFC 8018, section 5.2: [U_1 = PRF(P, S || INT(i))], [U_j = PRF(P, U_(j-1))]. *)
Fixpoint U (password salt : bytes) (i : Z) (j : nat) : bytes :=
  match j with
  | O => prf password (salt ++ put_be32 i)
  | S j => prf password (U password salt i j)
  end.

(** [F(P, S, c, i) = U_1 xor ... xor U_c], [c] being [S n]. *)
Fixpoint F (password salt : bytes) (n : nat) (i : Z) : bytes :=
  match n with
  | O => U password salt i 0
  | S n => xor_bytes (F password salt n i) (U password salt i (S n))
  end.

(** [DK = T_1 || ... || T_l] cut to [dkLen], [T_i = F(P, S, c, i)], [l = ceil(dkLen / hLen)]. *)
Definition PBKDF2 (password salt : bytes) (n dkLen : nat) : bytes :=
  let l := (dkLen `div` hashLen + if decide (dkLen `mod` hashLen = 0)%nat then 0 else 1)%nat in
  take dkLen (concat ((λ i, F password salt n (Z.of_nat i)) <$> seq 1 l)).

Lemma rounds_F password salt i n m :
  pbkdf2_rounds prf m password (U password salt i n) (F password salt n i) = F password salt (n + m) i.
Proof.
  revert n. induction m as [|m IH]; intros n; [by rewrite Nat.add_0_r|].
  cbn [pbkdf2_rounds]. rewrite <- Nat.add_succ_comm. apply (IH (S n)).
Qed.

Lemma blocks_F password salt n m i dk :
  pbkdf2_blocks prf m password salt (S n) (Z.of_nat i) dk = dk ++ concat ((λ i, F password salt n (Z.of_nat i)) <$> seq i m).
Proof.
  revert i dk. induction m as [|m IH]; intros i dk; [by rewrite app_nil_r|]. cbn [pbkdf2_blocks seq fmap list_fmap concat].
  replace (Z.of_nat i + 1) with (Z.of_nat (S i)) by lia. rewrite IH, <- app_assoc. do 2 f_equal.
  unfold pbkdf2_block. rewrite Nat.sub_succ, Nat.sub_0_r. apply (rounds_F password salt (Z.of_nat i) 0 n).
Qed.
End Reference.

(** C26.  [pbkdf2SHA256] is the PBKDF2 of RFC 8018 with HMAC-SHA-256 as its function, for
    every password, salt, key length and every positive number of iterations. *)
Theorem pbkdf2SHA256_is_PBKDF2 hmac password salt n keyLen :
  pbkdf2SHA256 hmac password salt (S n) keyLen = PBKDF2 hmac password salt n keyLen.
Proof.
  unfold pbkdf2SHA256, PBKDF2. rewrite (blocks_F hmac password salt n _ 1 []). cbn [app]. do 4 f_equal.
  unfold hashLen. case_decide as H.
  - apply Nat.Div0.mod_divides in H as [q ->]. rewrite (Nat.mul_comm 32 q), Nat.div_mul by done.
    symmetry. rewrite Nat.add_0_r. apply (Nat.div_unique _ _ _ 31); lia.
  - pose proof (Nat.div_mod_eq keyLen 32). pose proof (Nat.mod_upper_bound keyLen 32 ltac:(done)).
    symmetry. apply (Nat.div_unique _ _ _ (keyLen `mod` 32 - 1)); lia.
Qed.

(** ** Nonces *)

(** The nonce is the number whose big-endian bytes were drawn. *)
Lemma GetDeviceNonce_be32 b : length b = 4%nat → GetDeviceNonce b = get_be32 b ∧ is_u32 (GetDeviceNonce b).
Proof.
  intros H4. assert (GetDeviceNonce b = get_be32 b) as E; [|rewrite E; auto using get_be32_range].
  destruct b as [|b0 [|b1 [|b2 [|b3 [|]]]]]; try done. unfold GetDeviceNonce, get_be32.
  rewrite (Z.lor_comm (b2z b3)), <- !Z.lor_assoc. rewrite (Z.lor_comm (b2z b3)). rewrite !Z.lor_assoc.
  rewrite (Z.lor_comm _ (b2z b0 ≪ 24)), !Z.lor_assoc. f_equal. rewrite <- !Z.lor_assoc. f_equal. apply Z.lor_comm.
Qed.
