(* ===== verification/Handshake.v ===== *)
(** * The P2P handshake

    [src/dh/handshake.go] and the socket operations of [src/dh/protocol.go].  The code is
    sequential: each function is a computation on a world with errors.  What the network,
    the resolver and the random number generator answer is a list of answers, consumed
    one per call; the list is any list, so a theorem for all worlds holds whatever they
    answer.  A call that finds no answer of its kind fails, as after a timeout; a read
    that times out and one that fails are the same error to this code.  The world keeps
    a log of the sockets opened and closed, the names resolved and the datagrams sent and
    accepted.

    A [UDPClient] is an object: [w_clients] maps references to clients, and the local
    variables [mainClient], [p2pClient] and [deviceClient] that the deferred function of
    [Handshake] looks at are part of the world. *)

From Stdlib Require Import ZArith Lia Strings.Byte.
From S2P Require Import Prelude GoStrings GoText TextLemmas PtcpTypes PtcpSession DhProtocol DhCrypto.

(** ** The world *)

Inductive Answer :=
| AnPort (port : Z)                      (* a socket bound to this port *)
| AnAddr (a : UDPAddr)                   (* a resolved address *)
| AnSent                                 (* the datagram was sent *)
| AnPkt (data : bytes) (from : UDPAddr)  (* a datagram arrived *)
| AnBytes (b : bytes)                    (* random bytes *)
| AnFail.

Inductive NetEvent :=
| NvOpen (s : nat)
| NvClose (s : nat)
| NvSent (s : nat) (to : UDPAddr) (data : bytes)
| NvRecv (s : nat) (from : UDPAddr) (data : bytes)    (* accepted by the reader *)
| NvResolved (name : bytes) (a : UDPAddr).

Record UDPClient := mkUDPClient { u_port : Z; u_raddr : option UDPAddr; u_cseq : Z }.

Record World := mkWorld {
  w_ans : list Answer;
  w_log : list NetEvent;
  w_clients : gmap nat UDPClient;
  w_next : nat;
  w_tick : nat;                          (* readings of the clock so far *)
  w_main : option nat; w_p2p : option nat; w_device : option nat }.

Definition M (A : Type) : Type := World → World * result DhError A.

#[export] Instance M_ret : MRet M := λ A a w, (w, Ok a).
#[export] Instance M_bind : MBind M := λ A B k m w,
  let '(w, r) := m w in
  match r with Ok a => k a w | Err e => (w, Err e) | Panic => (w, Panic) end.

Definition panic {A} : M A := λ w, (w, Panic).
Definition throw {A} (e : DhError) : M A := λ w, (w, Err e).

(** The value and the error of a call whose error the code looks at itself. *)
Definition try {A} (m : M A) : M (DhError + A) := λ w,
  let '(w, r) := m w in
  match r with Ok a => (w, Ok (inr a)) | Err e => (w, Ok (inl e)) | Panic => (w, Panic) end.

Definition lift {A} (r : result DhError A) : M A := λ w, (w, r).

(** The next answer, if there is one. *)
Definition ask : M (option Answer) := λ w,
  match w_ans w with [] => (w, Ok None) | a :: ans => (w <| w_ans := ans |>, Ok (Some a)) end.

Definition note (ev : NetEvent) : M () := λ w, (w <| w_log := w_log w ++ [ev] |>, Ok ()).

(** A nil pointer: [None]. *)
Definition client (c : nat) : M UDPClient := λ w,
  match w_clients w !! c with Some u => (w, Ok u) | None => (w, Panic) end.
Definition set_client (c : nat) (u : UDPClient) : M () := λ w,
  (w <| w_clients := <[c := u]> (w_clients w) |>, Ok ()).

Definition set_main (c : option nat) : M () := λ w, (w <| w_main := c |>, Ok ()).
Definition set_p2p (c : option nat) : M () := λ w, (w <| w_p2p := c |>, Ok ()).
Definition set_device (c : option nat) : M () := λ w, (w <| w_device := c |>, Ok ()).

Definition tick : M nat := λ w, (w <| w_tick := S (w_tick w) |>, Ok (w_tick w)).

(** ** Sockets *)

Definition new_client (port : Z) : M nat := λ w,
  let s := w_next w in
  (w <| w_next := S s |> <| w_clients := <[s := mkUDPClient port None 0]> (w_clients w) |>
     <| w_log := w_log w ++ [NvOpen s] |>, Ok s).

Definition NewUDPClientPort (localPort : Z) : M nat :=
  a ← ask;
  match a with Some (AnPort port) => new_client port | _ => throw ErrNet end.

Definition NewUDPClient : M nat := NewUDPClientPort 0.

Definition LocalPort (c : nat) : M Z := u ← client c; mret (u_port u).

(** [net.ResolveUDPAddr] *)
Definition ResolveUDPAddr (host_port : bytes) : M UDPAddr :=
  a ← ask;
  match a with Some (AnAddr addr) => note (NvResolved host_port addr);; mret addr | _ => throw ErrNet end.

(** [net.JoinHostPort]: a host with a colon in it, an IPv6 address, is bracketed. *)
Definition JoinHostPort (host : bytes) (port : Z) : bytes :=
  (if decide (COLON ∈ host) then [LBR] ++ host ++ [RBR] else host) ++ [COLON] ++ dec port.

Definition Connect (c : nat) (host : bytes) (port : Z) : M () :=
  a ← ResolveUDPAddr (JoinHostPort host port);
  u ← client c; set_client c (u <| u_raddr := Some a |>).

Definition Close (c : nat) : M () := note (NvClose c).

Definition SendTo (c : nat) (data : bytes) (addr : UDPAddr) : M () :=
  a ← ask;
  match a with Some AnSent => note (NvSent c addr data) | _ => throw ErrNet end.

Definition Send (c : nat) (data : bytes) : M () :=
  u ← client c;
  match u_raddr u with None => throw ErrNet | Some addr => SendTo c data addr end.

(** The loop of [Recv]: datagrams from elsewhere are dropped. *)
Fixpoint recv_go (raddr : option UDPAddr) (ans : list Answer) : list Answer * option (bytes * UDPAddr) :=
  match ans with
  | AnPkt data from :: ans =>
      if sameUDPAddr (Some from) raddr then (ans, Some (data, from)) else recv_go raddr ans
  | _ :: ans => (ans, None)
  | [] => ([], None)
  end.

Definition recv_any (raddr : option UDPAddr) : M (option (bytes * UDPAddr)) := λ w,
  let '(ans, r) := recv_go raddr (w_ans w) in (w <| w_ans := ans |>, Ok r).

Definition Client_Recv (c : nat) : M bytes :=
  u ← client c;
  r ← recv_any (u_raddr u);
  match r with
  | Some (data, from) => note (NvRecv c from data);; mret data
  | None => throw ErrNet
  end.

Definition ReadRaw (c : nat) : M bytes := Client_Recv c.

Definition RandomBytes (n : nat) : M bytes :=
  a ← ask;
  match a with
  | Some (AnBytes b) => if decide (length b = n) then mret b else panic
  | _ => panic
  end.

(** [strconv.Atoi] with its error ignored: 0 for a text that is no number, the nearest
    representable number for one that is too large. *)
Fixpoint scan_uint (acc : Z) (s : bytes) : option Z :=
  match s with
  | [] => Some acc
  | c :: s =>
      if is_digit c then
        let acc := 10 * acc + (b2z c - 48) in
        if decide (2 ^ 64 ≤ acc) then Some (2 ^ 64 - 1) else scan_uint acc s
      else None
  end.

Definition Atoi_value (s : bytes) : Z :=
  let '(neg, t) := match s with
                   | x2d :: t => (true, t)
                   | x2b :: t => (false, t)
                   | _ => (false, s)
                   end in
  match (if decide (t = []) then None else scan_uint 0 t) with
  | None => 0
  | Some n => if neg then Z.max (- 2 ^ 63) (- n) else Z.min (2 ^ 63 - 1) n
  end.

Record HandshakeOptions := mkHandshakeOptions {
  ho_Serial : bytes; ho_DeviceUsername : bytes; ho_DevicePassword : bytes; ho_P2PPort : Z }.

Record HandshakeResult := mkHandshakeResult { hr_Client : nat; hr_Session : Session; hr_RTSPPort : Z }.

(** [packet, err := ptcp.ParsePacket(data)] *)
Definition parse_packet (data : bytes) : M Packet :=
  match ParsePacket data with Ok p => mret p | Err _ => throw ErrPtcp | Panic => panic end.

Definition send_packet (c : nat) (p : Packet) : M () := Send c (Packet_Serialize p).

(** ** The steps *)

Section Steps.
Context (decode : bytes → list Token) (v6 : bytes → option bytes) (sha1 md5 : bytes → bytes).
Context (hmac aes : bytes → bytes → bytes) (Unmarshal : bytes → option DeviceInfo).
(** The [n]-th reading of the clock: as the date of a request, and in seconds. *)
Context (clock : nat → bytes * Z).

Definition Request (c : nat) (path body : bytes) : M () :=
  u ← client c;
  let u := u <| u_cseq := u32 (u_cseq u + 1) |> in
  set_client c u;;
  nonce ← RandomBytes 4;
  t ← tick;
  let auth := generateAuth sha1 EncodeToString nonce (clock t).1 in
  Send c (request_text (u_cseq u) auth path body).

Definition Read (c : nat) : M Response := data ← Client_Recv c; lift (ParseResponse decode data).

(** [v, ok := resp.Body[key]; if !ok { return nil, err }] *)
Definition field (r : Response) (key : string) (e : DhError) : M bytes :=
  match body_get r key with Some v => mret v | None => throw e end.

(** Step 1: the main server knows the P2P server of the device. *)
Definition find_p2psrv (serial : bytes) : M (nat * bytes) :=
  main ← NewUDPClient; set_main (Some main);;
  Connect main MainServer MainPort;;
  Request main (lit "/probe/p2psrv") [];;
  Read main;;
  Request main (lit "/online/p2psrv/" ++ serial) [];;
  resp ← Read main;
  p2psrv ← field resp "body/US" ErrDeviceNotFound;
  mret (main, p2psrv).

(** What the device's [Info] field tells: the random salt and the RTSP port. *)
Definition device_info (resp : Response) : bytes * Z :=
  match body_get resp "body/Info" with
  | Some info =>
      if decide (info = []) then ([], 554)
      else match DecryptDeviceInfo aes Unmarshal info with
           | Ok di => (RandSalt di, if decide (0 < InfoRTSPPort di ∧ InfoRTSPPort di ≤ 65535)
                                    then u32 (InfoRTSPPort di) else 554)
           | _ => ([], 554)
           end
  | None => ([], 554)
  end.

(** Step 2: the P2P server knows the device. *)
Definition probe_device (serial p2psrv : bytes) : M (nat * bytes * Z) :=
  hp ← lift (splitHostPort p2psrv);
  p2p ← NewUDPClient; set_p2p (Some p2p);;
  Connect p2p hp.1 hp.2;;
  Request p2p (lit "/probe/device/" ++ serial) [];;
  Read p2p;;
  Request p2p (lit "/info/device/" ++ serial) [];;
  resp ← Read p2p;
  let '(randsalt, rtspPort) := device_info resp in
  mret (p2p, randsalt, rtspPort).

(** Step 3: the relay's address. *)
Definition find_relay (main : nat) : M bytes :=
  Request main (lit "/online/relay") [];;
  resp ← Read main;
  field resp "body/Address" ErrInvalidResponse.

(** The device's key, when the device must be authenticated with. *)
Definition device_key (opts : HandshakeOptions) (randsalt : bytes) : option bytes :=
  if decide (ho_DeviceUsername opts ≠ [] ∧ ho_DevicePassword opts ≠ [] ∧ randsalt ≠ [])
  then Some (GetDeviceKey md5 (ho_DeviceUsername opts) (ho_DevicePassword opts) randsalt) else None.

(** Step 4: the socket for the device, and the request for a channel to it. *)
Definition request_channel (opts : HandshakeOptions) (randsalt : bytes) (key : option bytes) : M (nat * bytes) :=
  dev ← NewUDPClientPort (ho_P2PPort opts); set_device (Some dev);;
  Connect dev MainServer MainPort;;
  cid ← RandomBytes 8;
  port ← LocalPort dev;
  let localAddr := lit "127.0.0.1:" ++ dec port in
  let path := lit "/device/" ++ ho_Serial opts ++ lit "/p2p-channel" in
  match key with
  | Some deviceKey =>
      b ← RandomBytes 4;
      let deviceNonce := GetDeviceNonce b in
      match EncryptAddr hmac aes deviceKey deviceNonce localAddr with
      | Ok encAddr =>
          t ← tick;
          let authXML := GetDeviceAuth hmac (ho_DeviceUsername opts) deviceKey deviceNonce randsalt encAddr (clock t).2 in
          Request dev path (lit "<body>" ++ authXML ++ lit "<Identify>" ++ formatIdentify cid ++
            lit "</Identify><IpEncrptV2>true</IpEncrptV2><LocalAddr>" ++ encAddr ++
            lit "</LocalAddr><version>5.0.0</version></body>");;
          mret (dev, cid)
      | _ => throw ErrCrypto
      end
  | None =>
      Request dev path (lit "<body><Identify>" ++ formatIdentify cid ++
        lit "</Identify><IpEncrpt>true</IpEncrpt><LocalAddr>" ++ localAddr ++
        lit "</LocalAddr><version>5.0.0</version></body>");;
      mret (dev, cid)
  end.

(** Steps 5 and 6: the relay names an agent, the agent starts. *)
Definition start_agent (p2p : nat) (relayAddr : bytes) : M (bytes * (bytes * Z)) :=
  relay ← lift (splitHostPort relayAddr);
  Connect p2p relay.1 relay.2;;
  Request p2p (lit "/relay/agent") [];;
  resp ← Read p2p;
  token ← field resp "body/Token" ErrInvalidResponse;
  agentAddr ← field resp "body/Agent" ErrInvalidResponse;
  agent ← lift (splitHostPort agentAddr);
  Connect p2p agent.1 agent.2;;
  Request p2p (lit "/relay/start/" ++ token) (lit "<body><Client>:0</Client></body>");;
  Read p2p;;
  mret (agentAddr, agent).

(** Step 7: the answer to the request of step 4. *)
Definition channel_reply (dev : nat) : M Response :=
  resp ← Read dev;
  resp ← (if decide (Code resp = 100) then Read dev else mret resp);
  if decide (400 ≤ Code resp) then
    throw (if decide (Code resp = 403) then ErrAuthenticationFailed else ErrChannel (RStatus resp))
  else mret resp.

Definition device_addrs (key : option bytes) (resp : Response) : M (bytes * bytes) :=
  laddr ← field resp "body/LocalAddr" ErrInvalidResponse;
  let nonce := default [] (body_get resp "body/Nonce") in
  let laddr :=
    match key with
    | Some deviceKey =>
        if decide (nonce = []) then laddr
        else match DecryptAddr hmac aes deviceKey (Atoi_value nonce) laddr with Ok a => a | _ => laddr end
    | None => laddr
    end in
  pub ← field resp "body/PubAddr" ErrInvalidResponse;
  mret (laddr, pub).

(** Steps 8 and 9: the device's public address, and the agent asked for a channel to it. *)
Definition request_relay_channel (opts : HandshakeOptions) (randsalt : bytes) (key : option bytes)
    (p2p dev : nat) (resp : Response) (pub agentAddr : bytes) (agent : bytes * Z) : M () :=
  device ← lift (splitHostPort pub);
  Connect dev device.1 device.2;;
  Connect p2p MainServer MainPort;;
  body ← match key with
         | Some deviceKey =>
             t ← tick;
             let nonce := Atoi_value (default [] (body_get resp "body/Nonce")) in
             mret (lit "<body>" ++ GetDeviceAuth hmac (ho_DeviceUsername opts) deviceKey nonce randsalt [] (clock t).2 ++
               lit "<agentAddr>" ++ agentAddr ++ lit "</agentAddr></body>")
         | None => mret (lit "<body><agentAddr>" ++ agentAddr ++ lit "</agentAddr></body>")
         end;
  Request p2p (lit "/device/" ++ ho_Serial opts ++ lit "/relay-channel") body;;
  Connect p2p agent.1 agent.2;;
  ReadRaw p2p;;
  mret ().

Definition command (code : byte) : bytes := code :: replicate 11 x00.

(** Step 11: at most five reads for the sign; a read that fails makes the request again. *)
Fixpoint await_sign (n : nat) (p2p : nat) (session : Session) : M bytes :=
  match n with
  | O => throw ErrNoSign
  | S n =>
      r ← try (ReadRaw p2p);
      match r with
      | inl _ =>
          let '(session, p) := Session_Send session (NewCommandBody (command x17)) in
          try (send_packet p2p p);; await_sign n p2p session
      | inr data =>
          match ParsePacket data with
          | Ok p =>
              let session := Session_Recv session p in
              if decide (BType (PBody p) = BodyTypeCommand ∧ (12 < length (Command (PBody p)))%nat)
              then mret (drop 12 (Command (PBody p)))
              else await_sign n p2p session
          | Err _ => await_sign n p2p session
          | Panic => panic
          end
      end
  end.

(** Steps 10 and 11: a PTCP session with the agent, which gives the sign. *)
Definition get_sign (p2p : nat) : M bytes :=
  let '(session, p) := Session_Send NewSession NewSyncBody in
  send_packet p2p p;;
  data ← ReadRaw p2p;
  resp ← parse_packet data;
  let session := Session_Recv session resp in
  let '(session, p) := Session_Send session (NewCommandBody (command x17)) in
  send_packet p2p p;;
  await_sign 5 p2p session.

(** ** Step 12: the device *)

(** The wait for the device: only its public and its local address may answer.  The
    deadline and a read error end it the same way. *)
Fixpoint stun_go (raddr localAddr : option UDPAddr) (ans : list Answer) : list Answer * option (bytes * UDPAddr) :=
  match ans with
  | AnPkt data from :: ans =>
      if sameUDPAddr (Some from) raddr || sameUDPAddr (Some from) localAddr then (ans, Some (data, from))
      else stun_go raddr localAddr ans
  | _ :: ans => (ans, None)
  | [] => ([], None)
  end.

Definition await_stun (c : nat) (localAddr : option UDPAddr) : M (bytes * UDPAddr) :=
  u ← client c;
  r ← (λ w, let '(ans, r) := stun_go (u_raddr u) localAddr (w_ans w) in (w <| w_ans := ans |>, Ok r)) : M _;
  match r with
  | Some (data, from) => note (NvRecv c from data);; mret (data, from)
  | None => throw ErrTimeout
  end.

(** Reads and drops at most [n] datagrams. *)
Fixpoint drain (n : nat) (c : nat) : M () :=
  match n with
  | O => mret ()
  | S n => r ← try (ReadRaw c); match r with inl _ => mret () | inr _ => drain n c end
  end.

Definition stun_request (cookie transID invertedCID encodedAddr : bytes) : bytes :=
  [xff; xfe; xff; xe7] ++ cookie ++ transID ++ [x7f; xd5; xff; xf7] ++ invertedCID ++
  [xff; xfb; xff; xf7; xff; xfe] ++ encodedAddr.

Definition stun_confirmation (cookie rtransID invertedCID : bytes) : bytes :=
  [xfe; xfe; xff; xf3] ++ cookie ++ rtransID ++ [x7f; xd6; xff; xf7] ++ invertedCID.

(** The hole is punched: the client talks to the address that answered.  (Resolving the
    text of an IP address gives that address.) *)
Definition punch (c : nat) (cid pub laddr : bytes) : M () :=
  let invertedCID := invert <$> cid in
  cookie ← RandomBytes 4;
  transID ← RandomBytes 12;
  encodedAddr ← lift (ipToBytes v6 pub);
  let data := stun_request cookie transID invertedCID encodedAddr in
  Send c data;;
  localAddr ← (if decide (laddr ≠ pub ∧ laddr ≠ []) then
                 r ← try (ResolveUDPAddr laddr);
                 match r with inl _ => mret None | inr a => try (SendTo c data a);; mret (Some a) end
               else mret None);
  r ← await_stun c localAddr;
  let '(resp, respAddr) := r in
  u ← client c;
  set_client c (u <| u_raddr := Some respAddr |>);;
  if decide (length resp < 20)%nat then throw ErrInvalidResponse
  else Send c (stun_confirmation cookie (slice 8 20 resp) invertedCID);; drain 5 c.

Definition is_auth_ok (p : Packet) : bool :=
  bool_decide (BType (PBody p) = BodyTypeCommand) &&
  match Command (PBody p) with x1a :: _ => true | _ => false end.

(** At most [n] reads for the acknowledgement; every packet read updates the session. *)
Fixpoint await_auth (n : nat) (c : nat) (session : Session) : M Session :=
  match n with
  | O => throw ErrAuthenticationFailed
  | S n =>
      r ← try (ReadRaw c);
      match r with
      | inl _ => await_auth n c session
      | inr data =>
          match ParsePacket data with
          | Ok p =>
              let session := Session_Recv session p in
              if is_auth_ok p then mret session else await_auth n c session
          | Err _ => await_auth n c session
          | Panic => panic
          end
      end
  end.

(** [if pkt, err := ptcp.ParsePacket(data); err == nil { session.Recv(pkt) }] *)
Definition count_packet (data : bytes) (session : Session) : M Session :=
  match ParsePacket data with
  | Ok p => mret (Session_Recv session p)
  | Err _ => mret session
  | Panic => panic
  end.

Fixpoint drain_session (n : nat) (c : nat) (session : Session) : M Session :=
  match n with
  | O => mret session
  | S n =>
      r ← try (ReadRaw c);
      match r with
      | inl _ => mret session
      | inr data => session ← count_packet data session; drain_session n c session
      end
  end.

(** The PTCP session with the device, authenticated by the sign. *)
Definition authenticate (c : nat) (sign : bytes) : M Session :=
  let '(session, p) := Session_Send NewSession NewSyncBody in
  send_packet c p;;
  data ← ReadRaw c;
  packet ← parse_packet data;
  let session := Session_Recv session packet in
  if decide (BType (PBody packet) ≠ BodyTypeSync) then throw ErrExpectedSync
  else
    let '(session, p) := Session_Send session (NewCommandBody (command x19 ++ sign)) in
    send_packet c p;;
    session ← await_auth 5 c session;
    let '(session, p) := Session_Send session (NewCommandBody (command x1b)) in
    send_packet c p;;
    r ← try (ReadRaw c);
    session ← match r with inl _ => mret session | inr data => count_packet data session end;
    drain_session 3 c session.

Definition performDirectHandshake (c : nat) (cid pub laddr sign : bytes) : M Session :=
  punch c cid pub laddr;; authenticate c sign.

Definition directRetries : nat := 3.

(** The error is that of the last attempt. *)
Fixpoint direct_attempts (n : nat) (c : nat) (cid pub laddr sign : bytes) (e : DhError) : M Session :=
  match n with
  | O => throw e
  | S n =>
      r ← try (performDirectHandshake c cid pub laddr sign);
      match r with
      | inr session => mret session
      | inl e => direct_attempts n c cid pub laddr sign e
      end
  end.

(** Steps 1 to 12. *)
Definition handshake_steps (opts : HandshakeOptions) : M HandshakeResult :=
  r ← find_p2psrv (ho_Serial opts); let '(main, p2psrv) := r in
  r ← probe_device (ho_Serial opts) p2psrv; let '(p2p, randsalt, rtspPort) := r in
  relayAddr ← find_relay main;
  let key := device_key opts randsalt in
  r ← request_channel opts randsalt key; let '(dev, cid) := r in
  r ← start_agent p2p relayAddr; let '(agentAddr, agent) := r in
  resp ← channel_reply dev;
  r ← device_addrs key resp; let '(laddr, pub) := r in
  request_relay_channel opts randsalt key p2p dev resp pub agentAddr agent;;
  sign ← get_sign p2p;
  Close main;; set_main None;;
  Close p2p;; set_p2p None;;
  session ← direct_attempts directRetries dev cid pub laddr sign ErrTimeout;
  set_device None;;
  mret (mkHandshakeResult dev session rtspPort).

(** The deferred function. *)
Definition close_opt (c : option nat) : M () := match c with Some c => Close c | None => mret () end.

Definition Handshake (opts : HandshakeOptions) : M HandshakeResult := λ w,
  let '(w, r) := handshake_steps opts (w <| w_main := None |> <| w_p2p := None |> <| w_device := None |>) in
  match r with
  | Err e => (((close_opt (w_main w);; close_opt (w_p2p w);; close_opt (w_device w)) w).1, Err e)
  | _ => (w, r)
  end.
End Steps.
