(* ===== verification/HandshakeThm.v ===== *)
(** * The P2P handshake: theorems

    Whatever the network answers, the sockets are accounted for; a handshake that succeeds
    was acknowledged by the device, at an address it was allowed to answer from, and its
    session has counted all traffic since the SYNC. *)

From Stdlib Require Import ZArith Lia Strings.Byte.
From S2P Require Import Prelude GoStrings GoText TextLemmas PtcpTypes PtcpSession DhProtocol DhCrypto Handshake.

(** ** Sockets opened and closed *)

Definition opens (l : list NetEvent) : list nat := omap (λ ev, match ev with NvOpen s => Some s | _ => None end) l.
Definition closes (l : list NetEvent) : list nat := omap (λ ev, match ev with NvClose s => Some s | _ => None end) l.

Lemma opens_app l k : opens (l ++ k) = opens l ++ opens k.
Proof. apply omap_app. Qed.
Lemma closes_app l k : closes (l ++ k) = closes l ++ closes k.
Proof. apply omap_app. Qed.

(** The sockets the deferred function would close. *)
Definition held (w : World) : list nat :=
  option_list (w_main w) ++ option_list (w_p2p w) ++ option_list (w_device w).

Definition frame (w : World) := (w_main w, w_p2p w, w_device w, w_next w).

(** Every socket opened since [w0] is closed once or still held. *)
Definition ledger_of (w0 w : World) (still : list nat) : Prop :=
  ∃ l, w_log w = w_log w0 ++ l ∧ opens l ≡ₚ closes l ++ still ∧ NoDup (opens l) ∧
    Forall (λ s, (w_next w0 ≤ s < w_next w)%nat) (opens l) ∧ (w_next w0 ≤ w_next w)%nat.

Definition ledger (w0 w : World) : Prop := ledger_of w0 w (held w).

(** A computation that neither opens nor closes a socket. *)
Definition quiet {A} (m : M A) : Prop :=
  ∀ w, frame (m w).1 = frame w ∧ ∃ l, w_log (m w).1 = w_log w ++ l ∧ opens l = [] ∧ closes l = [].

Create HintDb quiet.

Lemma quiet_same {A} (m : M A) : (∀ w, frame (m w).1 = frame w ∧ w_log (m w).1 = w_log w) → quiet m.
Proof. intros H w. destruct (H w) as [H1 H2]. split; [done|]. exists []. by rewrite app_nil_r. Qed.

Lemma quiet_ret {A} (a : A) : quiet (mret a).
Proof. by apply quiet_same. Qed.
Lemma quiet_throw {A} e : quiet (throw (A:=A) e).
Proof. by apply quiet_same. Qed.
Lemma quiet_panic {A} : quiet (panic (A:=A)).
Proof. by apply quiet_same. Qed.
Lemma quiet_lift {A} (r : result DhError A) : quiet (lift r).
Proof. by apply quiet_same. Qed.
Lemma quiet_ask : quiet ask.
Proof. apply quiet_same. intros w. unfold ask. by destruct (w_ans w). Qed.
Lemma quiet_tick : quiet tick.
Proof. by apply quiet_same. Qed.
Lemma quiet_client c : quiet (client c).
Proof. apply quiet_same. intros w. unfold client. by destruct (w_clients w !! c). Qed.
Lemma quiet_set_client c u : quiet (set_client c u).
Proof. by apply quiet_same. Qed.
Lemma quiet_recv_any raddr : quiet (recv_any raddr).
Proof. apply quiet_same. intros w. unfold recv_any. by destruct (recv_go raddr (w_ans w)). Qed.

Lemma quiet_note ev : opens [ev] = [] → closes [ev] = [] → quiet (note ev).
Proof. intros H1 H2 w. split; [done|]. by exists [ev]. Qed.

Lemma quiet_bind {A B} (m : M A) (k : A → M B) : quiet m → (∀ a, quiet (k a)) → quiet (m ≫= k).
Proof.
  intros Hm Hk w. destruct (Hm w) as (F1 & l1 & L1 & O1 & C1). unfold mbind, M_bind.
  destruct (m w) as [w1 [a|e|]]; cbn in *; [|by split; [|exists l1]..].
  destruct (Hk a w1) as (F2 & l2 & L2 & O2 & C2). split; [congruence|]. exists (l1 ++ l2).
  rewrite opens_app, closes_app, O1, C1, O2, C2, L2, L1. by rewrite app_assoc.
Qed.

Lemma quiet_try {A} (m : M A) : quiet m → quiet (try m).
Proof. intros Hm w. specialize (Hm w). unfold try. by destruct (m w) as [w1 [a|e|]]. Qed.

#[export] Hint Resolve quiet_ret quiet_throw quiet_panic quiet_lift quiet_ask quiet_tick quiet_client quiet_set_client
  quiet_recv_any quiet_try : quiet.

(** Splits a computation into its calls; those the database knows are settled. *)
Ltac quiet :=
  repeat first
    [ solve [auto with quiet]
    | apply quiet_bind; [|intros ?]
    | apply quiet_try
    | apply quiet_note; done
    | match goal with |- quiet (match ?x with _ => _ end) => destruct x end ].

Lemma quiet_Resolve s : quiet (ResolveUDPAddr s).
Proof. unfold ResolveUDPAddr. quiet. Qed.
Lemma quiet_Connect c h p : quiet (Connect c h p).
Proof. unfold Connect. apply quiet_bind; [apply quiet_Resolve|]. intros a. quiet. Qed.
Lemma quiet_SendTo c d a : quiet (SendTo c d a).
Proof. unfold SendTo. quiet. Qed.
#[export] Hint Resolve quiet_Resolve quiet_Connect quiet_SendTo : quiet.
Lemma quiet_Send c d : quiet (Send c d).
Proof. unfold Send. quiet. Qed.
Lemma quiet_Recv c : quiet (Client_Recv c).
Proof. unfold Client_Recv. quiet. Qed.
Lemma quiet_ReadRaw c : quiet (ReadRaw c).
Proof. apply quiet_Recv. Qed.
Lemma quiet_RandomBytes n : quiet (RandomBytes n).
Proof. unfold RandomBytes. quiet. Qed.
Lemma quiet_LocalPort c : quiet (LocalPort c).
Proof. unfold LocalPort. quiet. Qed.
Lemma quiet_send_packet c p : quiet (send_packet c p).
Proof. apply quiet_Send. Qed.
Lemma quiet_parse_packet d : quiet (parse_packet d).
Proof. unfold parse_packet. quiet. Qed.
#[export] Hint Resolve quiet_Send quiet_Recv quiet_ReadRaw quiet_RandomBytes quiet_LocalPort quiet_send_packet
  quiet_parse_packet : quiet.

(** ** Every path closes what it opened *)

(** From a world where [P] holds: where a value is returned [Q] holds, where an error is
    returned [E] holds. *)
Definition triple {A} (P : World → Prop) (m : M A) (Q : A → World → Prop) (E : World → Prop) : Prop :=
  ∀ w, P w → match m w with (w', Ok a) => Q a w' | (w', Err _) => E w' | (_, Panic) => True end.

Lemma triple_bind {A B} P (m : M A) (k : A → M B) Q R E :
  triple P m Q E → (∀ a, triple (Q a) (k a) R E) → triple P (m ≫= k) R E.
Proof.
  intros Hm Hk w Hw. specialize (Hm w Hw). unfold mbind, M_bind. destruct (m w) as [w1 [a|e|]]; [|done..].
  by apply Hk.
Qed.

Lemma triple_ret {A} (P : World → Prop) (a : A) E : triple P (mret a) (λ _, P) E.
Proof. by intros w Hw. Qed.

(** The ledger is kept, with these clients in the local variables. *)
Definition at_locals (w0 : World) (a b c : option nat) (w : World) : Prop :=
  ledger w0 w ∧ w_main w = a ∧ w_p2p w = b ∧ w_device w = c.

Lemma quiet_ledger {A} (m : M A) w0 w : quiet m → ledger w0 w → ledger w0 (m w).1.
Proof.
  intros Hq (l & L & Hp & Hn & Hf & Hle). destruct (Hq w) as (F & k & K & O & C). unfold frame in F.
  assert (held (m w).1 = held w ∧ w_next (m w).1 = w_next w) as [Hh Hx] by (unfold held; split; congruence).
  exists (l ++ k). rewrite K, L, opens_app, closes_app, O, C, !app_nil_r, Hh, Hx, app_assoc. done.
Qed.

Lemma triple_quiet {A} (m : M A) w0 a b c :
  quiet m → triple (at_locals w0 a b c) m (λ _, at_locals w0 a b c) (ledger w0).
Proof.
  intros Hq w (Hl & H1 & H2 & H3). pose proof (quiet_ledger m w0 w Hq Hl) as Hl'. destruct (Hq w) as [F _]. unfold frame in F.
  destruct (m w) as [w' [x|e|]]; cbn in *; [|done..]. split; [done|]. split_and!; congruence.
Qed.

(** A new socket is put into a local variable that is nil. *)
Lemma ledger_open w0 w w' s still :
  ledger_of w0 w still → s = w_next w → w_next w' = S (w_next w) → w_log w' = w_log w ++ [NvOpen s] →
  ∀ still', still' ≡ₚ s :: still → ledger_of w0 w' still'.
Proof.
  intros (l & L & Hp & Hn & Hf & Hle) -> Hx Hlog still' Hs. exists (l ++ [NvOpen (w_next w)]).
  rewrite Hlog, L, opens_app, closes_app, app_assoc. cbn. rewrite app_nil_r. split; [done|]. split.
  - rewrite Hs, Hp. by rewrite <- Permutation_cons_append, Permutation_middle.
  - split; [|split; [|lia]].
    + apply NoDup_app. split; [done|]. split; [|apply NoDup_singleton]. intros s Hs1 ->%list_elem_of_singleton.
      rewrite Forall_forall in Hf. specialize (Hf _ Hs1). lia.
    + apply Forall_app. split; [|constructor; [lia|done]]. eapply Forall_impl; [exact Hf|]. cbn. intros x. lia.
Qed.

(** In between: the sockets [still] are open, the local variables are these. *)
Definition acct (w0 : World) (still : list nat) (a b c : option nat) (w : World) : Prop :=
  ledger_of w0 w still ∧ w_main w = a ∧ w_p2p w = b ∧ w_device w = c.

Lemma acct_settled w0 still a b c w : still ≡ₚ option_list a ++ option_list b ++ option_list c →
  acct w0 still a b c w ↔ at_locals w0 a b c w.
Proof.
  intros Hs. unfold acct, at_locals, ledger, held. split; intros [(l & L & Hp & H) (<- & <- & <-)]; (split; [|done]); exists l;
    (split; [done|]); (split; [|done]); by rewrite Hp, Hs.
Qed.

Lemma triple_new w0 port a b c :
  triple (at_locals w0 a b c) (NewUDPClientPort port)
    (λ s, acct w0 (s :: option_list a ++ option_list b ++ option_list c) a b c) (ledger w0).
Proof.
  intros w (Hl & H1 & H2 & H3). unfold NewUDPClientPort, ask, new_client, mbind, M_bind.
  destruct (w_ans w) as [|[] ans]; try exact Hl. split; [|done].
  eapply (ledger_open w0 w); [exact Hl|done..|]. unfold held. by rewrite H1, H2, H3.
Qed.

Lemma triple_set_main w0 still a a' b c : triple (acct w0 still a b c) (set_main a') (λ _, acct w0 still a' b c) (ledger w0).
Proof. by intros w (Hl & _ & H2 & H3). Qed.
Lemma triple_set_p2p w0 still a b b' c : triple (acct w0 still a b c) (set_p2p b') (λ _, acct w0 still a b' c) (ledger w0).
Proof. by intros w (Hl & H1 & _ & H3). Qed.
Lemma triple_set_device w0 still a b c c' : triple (acct w0 still a b c) (set_device c') (λ _, acct w0 still a b c') (ledger w0).
Proof. by intros w (Hl & H1 & H2 & _). Qed.

Lemma ledger_close w0 w s still still' : ledger_of w0 w still → still ≡ₚ s :: still' →
  ledger_of w0 (w <| w_log := w_log w ++ [NvClose s] |>) still'.
Proof.
  intros (l & L & Hp & Hn & Hf & Hle) Hs. exists (l ++ [NvClose s]). cbn. rewrite L, opens_app, closes_app, app_assoc. cbn.
  rewrite app_nil_r. split; [done|]. split; [|done]. rewrite Hp, Hs, <- app_assoc. done.
Qed.

Lemma triple_close w0 s still still' a b c : still ≡ₚ s :: still' →
  triple (acct w0 still a b c) (Close s) (λ _, acct w0 still' a b c) (ledger w0).
Proof. intros Hs w (Hl & H). split; [|done]. by eapply ledger_close. Qed.

Lemma triple_conseq {A} (P P' : World → Prop) (m : M A) Q Q' E :
  (∀ w, P' w → P w) → (∀ a w, Q a w → Q' a w) → triple P m Q E → triple P' m Q' E.
Proof.
  intros HP HQ Hm w Hw. specialize (Hm w (HP w Hw)). destruct (m w) as [w' [a|e|]]; auto.
Qed.

(** The deferred function leaves no socket open. *)
Lemma cleanup_ledger w0 w : ledger w0 w →
  ledger_of w0 ((close_opt (w_main w);; close_opt (w_p2p w);; close_opt (w_device w)) w).1 [].
Proof.
  unfold ledger, held. intros Hl.
  assert (∀ c w1 rest, ledger_of w0 w1 (option_list c ++ rest) → ledger_of w0 (close_opt c w1).1 rest ∧ ∃ w2, close_opt c w1 = (w2, Ok ())) as Hc.
  { intros [c|] w1 rest H1; cbn; [|by eauto]. split; [|by eexists]. by eapply ledger_close. }
  unfold mbind, M_bind. destruct (Hc _ w _ Hl) as [H1 [w1 E1]]. rewrite E1 in *. cbn in H1.
  destruct (Hc _ w1 _ H1) as [H2 [w2 E2]]. rewrite E2 in *. cbn in H2.
  destruct (Hc (w_device w) w2 []) as [H3 [w3 E3]]; [by rewrite app_nil_r|]. by rewrite E3 in *.
Qed.

Section Ledger.
Context (decode : bytes → list Token) (v6 : bytes → option bytes) (sha1 md5 : bytes → bytes).
Context (hmac aes : bytes → bytes → bytes) (Unmarshal : bytes → option DeviceInfo) (clock : nat → bytes * Z).

Lemma quiet_Request c p b : quiet (Request sha1 clock c p b).
Proof. unfold Request. quiet. Qed.
Lemma quiet_Read c : quiet (Read decode c).
Proof. unfold Read. quiet. Qed.
Lemma quiet_field r k e : quiet (field r k e).
Proof. unfold field. quiet. Qed.
#[local] Hint Resolve quiet_Request quiet_Read quiet_field : quiet.

Lemma quiet_find_relay m : quiet (find_relay decode sha1 clock m).
Proof. unfold find_relay. quiet. Qed.
Lemma quiet_start_agent p r : quiet (start_agent decode sha1 clock p r).
Proof. unfold start_agent. quiet. Qed.
Lemma quiet_channel_reply d : quiet (channel_reply decode d).
Proof. unfold channel_reply. quiet. Qed.
Lemma quiet_device_addrs k r : quiet (device_addrs hmac aes k r).
Proof. unfold device_addrs. quiet. Qed.
Lemma quiet_relay_channel o rs k p d r pub ag a : quiet (request_relay_channel sha1 hmac clock o rs k p d r pub ag a).
Proof. unfold request_relay_channel. quiet. Qed.

Lemma quiet_await_sign n p s : quiet (await_sign n p s).
Proof. revert s. induction n as [|n IH]; intros s; cbn; quiet. Qed.
#[local] Hint Resolve quiet_await_sign : quiet.
Lemma quiet_get_sign p : quiet (get_sign p).
Proof. unfold get_sign. quiet. Qed.

Lemma quiet_await_stun c a : quiet (await_stun c a).
Proof.
  unfold await_stun. apply quiet_bind; [quiet|]. intros u. apply quiet_bind; [|intros ?; quiet].
  apply quiet_same. intros w. by destruct (stun_go _ _ _).
Qed.
Lemma quiet_drain n c : quiet (drain n c).
Proof. induction n as [|n IH]; cbn; quiet. Qed.
Lemma quiet_await_auth n c s : quiet (await_auth n c s).
Proof. revert s. induction n as [|n IH]; intros s; cbn; quiet. Qed.
Lemma quiet_count_packet d s : quiet (count_packet d s).
Proof. unfold count_packet. quiet. Qed.
#[local] Hint Resolve quiet_await_stun quiet_drain quiet_await_auth quiet_count_packet : quiet.
Lemma quiet_drain_session n c s : quiet (drain_session n c s).
Proof. revert s. induction n as [|n IH]; intros s; cbn; quiet. Qed.
#[local] Hint Resolve quiet_drain_session : quiet.
Lemma quiet_direct c i p l s : quiet (performDirectHandshake v6 c i p l s).
Proof. unfold performDirectHandshake, punch, authenticate. quiet. Qed.
#[local] Hint Resolve quiet_direct : quiet.
Lemma quiet_attempts n c i p l s e : quiet (direct_attempts v6 n c i p l s e).
Proof. revert e. induction n as [|n IH]; intros e; cbn; quiet. Qed.

(** The steps up to the last neither open nor close a socket. *)
Ltac quiet_steps := repeat (eapply triple_bind; [apply triple_quiet; solve [quiet]|intros ?]).

(** The world settles after a new client has been stored. *)
Lemma triple_settled {A} w0 still a b c (m : M A) Q :
  still ≡ₚ option_list a ++ option_list b ++ option_list c →
  triple (at_locals w0 a b c) m Q (ledger w0) → triple (acct w0 still a b c) m Q (ledger w0).
Proof. intros Hs Hm. eapply triple_conseq; [|intros ? ? H; exact H|exact Hm]. intros w. by apply acct_settled. Qed.

Lemma triple_unsettled {A} w0 a b c (m : M A) Q :
  triple (acct w0 (option_list a ++ option_list b ++ option_list c) a b c) m Q (ledger w0) →
  triple (at_locals w0 a b c) m Q (ledger w0).
Proof. intros Hm. eapply triple_conseq; [|intros ? ? H; exact H|exact Hm]. intros w. by apply acct_settled. Qed.

Lemma triple_find w0 serial :
  triple (at_locals w0 None None None) (find_p2psrv decode sha1 clock serial)
    (λ r, at_locals w0 (Some r.1) None None) (ledger w0).
Proof.
  unfold find_p2psrv, NewUDPClient. eapply triple_bind; [apply triple_new|]. intros m.
  eapply triple_bind; [apply triple_set_main|]. intros ?. apply triple_settled; [done|]. quiet_steps. by intros w Hw.
Qed.

Lemma triple_probe w0 a serial srv :
  triple (at_locals w0 (Some a) None None) (probe_device decode sha1 aes Unmarshal clock serial srv)
    (λ r, at_locals w0 (Some a) (Some r.1.1) None) (ledger w0).
Proof.
  unfold probe_device, NewUDPClient. eapply triple_bind; [apply triple_quiet; quiet|]. intros hp.
  eapply triple_bind; [apply triple_new|]. intros m. eapply triple_bind; [apply triple_set_p2p|]. intros ?.
  apply triple_settled; [cbn; apply Permutation_swap|]. quiet_steps. destruct (device_info _ _ _) as [rs port]. by intros w Hw.
Qed.

Lemma triple_channel w0 a b opts rs key :
  triple (at_locals w0 (Some a) (Some b) None) (request_channel sha1 hmac aes clock opts rs key)
    (λ r, at_locals w0 (Some a) (Some b) (Some r.1)) (ledger w0).
Proof.
  unfold request_channel. eapply triple_bind; [apply triple_new|]. intros m.
  eapply triple_bind; [apply triple_set_device|]. intros ?.
  apply triple_settled; [cbn; by rewrite (Permutation_cons_append [a; b] m)|].
  quiet_steps. destruct key as [k|]; quiet_steps; [|by intros w Hw].
  destruct (EncryptAddr _ _ _ _ _); quiet_steps; [by intros w Hw|by intros w [Hw _]..].
Qed.

Lemma triple_steps w0 opts :
  triple (at_locals w0 None None None) (handshake_steps decode v6 sha1 md5 hmac aes Unmarshal clock opts)
    (λ r, acct w0 [hr_Client r] None None None) (ledger w0).
Proof.
  unfold handshake_steps. eapply triple_bind; [apply triple_find|]. intros [main srv]. cbn [fst].
  eapply triple_bind; [apply triple_probe|]. intros [[p2p rs] port]. cbn [fst].
  eapply triple_bind; [apply triple_quiet, quiet_find_relay|]. intros relay.
  eapply triple_bind; [apply triple_channel|]. intros [dev cid]. cbn [fst].
  eapply triple_bind; [apply triple_quiet, quiet_start_agent|]. intros [agentAddr agent].
  eapply triple_bind; [apply triple_quiet, quiet_channel_reply|]. intros resp.
  eapply triple_bind; [apply triple_quiet, quiet_device_addrs|]. intros [laddr pub].
  eapply triple_bind; [apply triple_quiet, quiet_relay_channel|]. intros ?.
  eapply triple_bind; [apply triple_quiet, quiet_get_sign|]. intros sign.
  eapply triple_bind; [|intros ?].
  { apply triple_unsettled, (triple_close w0 main _ [p2p; dev]). done. }
  eapply triple_bind; [apply triple_set_main|]. intros ?.
  eapply triple_bind; [by apply (triple_close w0 p2p _ [dev])|]. intros ?.
  eapply triple_bind; [apply triple_set_p2p|]. intros ?. apply triple_settled; [done|].
  eapply triple_bind; [apply triple_quiet, quiet_attempts|]. intros session.
  eapply triple_bind; [|intros ?; intros w Hw; exact Hw].
  apply triple_unsettled, triple_set_device.
Qed.
End Ledger.

(** C4.  Whatever the servers, the device and the network do, [Handshake]
    accounts for every socket it opens: they are all different; on an error every one of
    them has been closed exactly once; on success exactly the one it returns is open, and
    each of the others has been closed exactly once. *)
Theorem handshake_closes_sockets decode v6 sha1 md5 hmac aes Unmarshal clock opts w w' r :
  Handshake decode v6 sha1 md5 hmac aes Unmarshal clock opts w = (w', r) →
  match r with
  | Panic => True
  | _ => ∃ l, w_log w' = w_log w ++ l ∧ NoDup (opens l) ∧ NoDup (closes l) ∧
      opens l ≡ₚ closes l ++ match r with Ok res => [hr_Client res] | _ => [] end
  end.
Proof.
  intros E. unfold Handshake in E. set (w1 := w <| w_main := None |> <| w_p2p := None |> <| w_device := None |>) in E.
  assert (at_locals w1 None None None w1) as H0.
  { split; [|done]. exists []. rewrite app_nil_r. by repeat constructor. }
  assert (∀ w2 still, ledger_of w1 w2 still → ∃ l, w_log w2 = w_log w ++ l ∧ NoDup (opens l) ∧ NoDup (closes l) ∧ opens l ≡ₚ closes l ++ still) as Hd.
  { intros w2 still (l & L & Hp & Hn & _). exists l. split; [done|]. split; [done|]. split; [|done].
    rewrite Hp in Hn. by apply NoDup_app in Hn as [? _]. }
  pose proof (triple_steps decode v6 sha1 md5 hmac aes Unmarshal clock w1 opts w1 H0) as Ht.
  destruct (handshake_steps _ _ _ _ _ _ _ _ opts w1) as [w2 [res|e|]]; injection E as <- <-; [|apply Hd, cleanup_ledger, Ht|done].
  apply Hd, Ht.
Qed.

(** ** A handshake *)

Definition demo_server : UDPAddr := mkUDPAddr [x08; x08; x08; x08] 8800.
Definition demo_device : UDPAddr := mkUDPAddr [xcb; x00; x71; x07] 37777.
Definition demo_lan : UDPAddr := mkUDPAddr [x0a; x00; x00; x05] 37777.

(** One body with every field the steps look for. *)
Definition demo_decode (_ : bytes) : list Token :=
  let leaf (k v : string) := [StartElement (lit k); CharData (lit v); EndElement] in
  [StartElement (lit "body")] ++ leaf "US" "8.8.8.8:8800" ++ leaf "Address" "8.8.8.8:8800" ++ leaf "Token" "t" ++
  leaf "Agent" "8.8.8.8:8800" ++ leaf "LocalAddr" "10.0.0.5:37777" ++ leaf "PubAddr" "203.0.113.7:37777" ++ [EndElement].

Definition demo_reply_text : bytes := lit "HTTP/1.1 200 OK" ++ CRLF ++ CRLF ++ lit "<body/>".

Definition demo_wire (b : Body) : bytes := Packet_Serialize (NewPacket (mkHeader 0 0 0 0 0) b).

(** A request and its answer. *)
Definition demo_exchange (from : UDPAddr) : list Answer := [AnBytes [x00; x00; x00; x01]; AnSent; AnPkt demo_reply_text from].

Definition demo_cloud : list Answer :=
  [AnPort 5000; AnAddr demo_server] ++ demo_exchange demo_server ++ demo_exchange demo_server ++
  [AnPort 5001; AnAddr demo_server] ++ demo_exchange demo_server ++ demo_exchange demo_server ++
  demo_exchange demo_server ++
  [AnPort 5002; AnAddr demo_server; AnBytes (replicate 8 x07); AnBytes [x00; x00; x00; x01]; AnSent] ++
  [AnAddr demo_server] ++ demo_exchange demo_server ++ [AnAddr demo_server] ++ demo_exchange demo_server ++
  [AnPkt demo_reply_text demo_server] ++
  [AnAddr demo_device; AnAddr demo_server; AnBytes [x00; x00; x00; x01]; AnSent; AnAddr demo_server; AnPkt [x00] demo_server] ++
  [AnSent; AnPkt (demo_wire NewSyncBody) demo_server; AnSent;
   AnPkt (demo_wire (NewCommandBody (command x18 ++ lit "SIGN"))) demo_server].

(** The device answers the hole punch from [from] and acknowledges the sign. *)
Definition demo_punch (from : UDPAddr) : list Answer :=
  [AnBytes (replicate 4 x01); AnBytes (replicate 12 x02); AnSent; AnAddr demo_lan; AnSent;
   AnPkt (replicate 20 x00) from; AnSent; AnFail].

Definition demo_auth (from : UDPAddr) : list Answer :=
  [AnSent; AnPkt (demo_wire NewSyncBody) from; AnSent; AnPkt (demo_wire NewEmptyBody) from;
   AnPkt (demo_wire (NewCommandBody (command x1a))) from; AnSent; AnFail; AnFail].

Definition demo_world (ans : list Answer) : World := mkWorld ans [] ∅ 0 0 None None None.

Definition demo_opts : HandshakeOptions := mkHandshakeOptions (lit "SERIAL") [] [] 0.

Definition demo_clock (_ : nat) : bytes * Z := (lit "2024-01-01T00:00:00Z", 0).

Definition demo_start : World := demo_world (demo_cloud ++ demo_punch demo_device ++ demo_auth demo_device).
Definition demo_end : World * result DhError HandshakeResult := Eval vm_compute in
  Handshake demo_decode (λ _, None) id id (λ _ _, []) (λ _ b, b) (λ _, None) demo_clock demo_opts demo_start.

Lemma demo_run :
  Handshake demo_decode (λ _, None) id id (λ _ _, []) (λ _ b, b) (λ _, None) demo_clock demo_opts demo_start =
  (demo_end.1, demo_end.2).
Proof. by vm_compute. Qed.

Lemma handshake_closes_sockets_witness :
  match demo_end.2 with Ok res => hr_Client res = 2%nat | _ => False end ∧
  opens (w_log demo_end.1) = [0; 1; 2]%nat ∧ closes (w_log demo_end.1) = [0; 1]%nat ∧
  ∃ l, w_log demo_end.1 = [] ++ l ∧ NoDup (opens l) ∧ NoDup (closes l) ∧ opens l ≡ₚ closes l ++ [2%nat].
Proof.
  split; [by vm_compute|]. split; [by vm_compute|]. split; [by vm_compute|].
  exact (handshake_closes_sockets _ _ _ _ _ _ _ _ _ _ _ _ demo_run).
Defined.
