(* ===== verification/HandshakeAuth.v ===== *)
(** * The P2P handshake: what success means

    A handshake that succeeds has been acknowledged by the device, from an address the
    device was allowed to answer from, and the session it returns has counted all traffic
    since the SYNC. *)

From Stdlib Require Import ZArith Lia Strings.Byte.
From S2P Require Import Prelude GoStrings GoText TextLemmas PtcpTypes PtcpSession DhProtocol DhCrypto Handshake HandshakeThm.

(** ** Addresses *)

(** The 16-byte form of an IPv4 address. *)
Definition canon (ip : bytes) : bytes := if decide (length ip = 4%nat) then v4InV6Prefix ++ ip else ip.

Lemma ip_equal_canon ip x : ip_equal ip x = true ↔ canon ip = canon x.
Proof.
  unfold ip_equal, canon. assert (∀ y : bytes, length (v4InV6Prefix ++ y) = (12 + length y)%nat) as Hl by (intros; by rewrite length_app).
  destruct (decide (length ip = length x)) as [E|E].
  - rewrite bool_decide_eq_true, E. case_decide; [|done]. split; [by intros ->|apply (inj (app _))].
  - destruct (decide (length ip = 4%nat)) as [E4|E4], (decide (length x = 4%nat)) as [X4|X4]; try lia.
    + case_decide as H; [rewrite bool_decide_eq_true; split; congruence|]. rewrite decide_False by lia.
      split; [done|]. intros Hc. apply (f_equal length) in Hc. rewrite Hl in Hc. lia.
    + rewrite decide_False by lia. case_decide as H; [rewrite bool_decide_eq_true; split; congruence|].
      split; [done|]. intros Hc. apply (f_equal length) in Hc. rewrite Hl in Hc. lia.
    + rewrite !decide_False by lia. split; [done|]. congruence.
Qed.

(** The same endpoint. *)
Definition same_addr (a b : UDPAddr) : Prop := a_Port a = a_Port b ∧ canon (a_IP a) = canon (a_IP b).

#[export] Instance same_addr_equiv : Equivalence same_addr.
Proof.
  split; unfold same_addr.
  - done.
  - by intros a b [-> ->].
  - by intros a b c [-> ->] [-> ->].
Qed.

Lemma sameUDPAddr_spec a b : sameUDPAddr (Some a) b = true ↔ ∃ b', b = Some b' ∧ same_addr a b'.
Proof.
  destruct b as [b|]; cbn; [|split; [done|by intros (? & ? & _)]].
  rewrite andb_true_iff, bool_decide_eq_true, ip_equal_canon. unfold same_addr. split; [by eauto|]. by intros (b' & [= <-] & H).
Qed.

(** ** Computations that leave the clients alone *)

Definition calm {A} (m : M A) : Prop := ∀ w, w_clients (m w).1 = w_clients w ∧ ∃ l, w_log (m w).1 = w_log w ++ l.

Create HintDb calm.

Lemma calm_same {A} (m : M A) : (∀ w, w_clients (m w).1 = w_clients w ∧ w_log (m w).1 = w_log w) → calm m.
Proof. intros H w. destruct (H w) as [H1 H2]. split; [done|]. exists []. by rewrite app_nil_r. Qed.

Lemma calm_ret {A} (a : A) : calm (mret a).
Proof. by apply calm_same. Qed.
Lemma calm_throw {A} e : calm (throw (A:=A) e).
Proof. by apply calm_same. Qed.
Lemma calm_panic {A} : calm (panic (A:=A)).
Proof. by apply calm_same. Qed.
Lemma calm_lift {A} (r : result DhError A) : calm (lift r).
Proof. by apply calm_same. Qed.
Lemma calm_ask : calm ask.
Proof. apply calm_same. intros w. unfold ask. by destruct (w_ans w). Qed.
Lemma calm_client c : calm (client c).
Proof. apply calm_same. intros w. unfold client. by destruct (w_clients w !! c). Qed.
Lemma calm_recv_any raddr : calm (recv_any raddr).
Proof. apply calm_same. intros w. unfold recv_any. by destruct (recv_go raddr (w_ans w)). Qed.
Lemma calm_note ev : calm (note ev).
Proof. intros w. split; [done|]. by exists [ev]. Qed.

Lemma calm_bind {A B} (m : M A) (k : A → M B) : calm m → (∀ a, calm (k a)) → calm (m ≫= k).
Proof.
  intros Hm Hk w. destruct (Hm w) as (C1 & l1 & L1). unfold mbind, M_bind.
  destruct (m w) as [w1 [a|e|]]; cbn in *; [|by eauto..].
  destruct (Hk a w1) as (C2 & l2 & L2). split; [congruence|]. exists (l1 ++ l2). by rewrite L2, L1, app_assoc.
Qed.

Lemma calm_try {A} (m : M A) : calm m → calm (try m).
Proof. intros Hm w. specialize (Hm w). unfold try. by destruct (m w) as [w1 [a|e|]]. Qed.

#[export] Hint Resolve calm_ret calm_throw calm_panic calm_lift calm_ask calm_client calm_recv_any calm_note calm_try : calm.

Ltac calm :=
  repeat first
    [ solve [auto with calm]
    | apply calm_bind; [|intros ?]
    | apply calm_try
    | match goal with |- calm (match ?x with _ => _ end) => destruct x end ].

Lemma calm_Resolve s : calm (ResolveUDPAddr s).
Proof. unfold ResolveUDPAddr. calm. Qed.
Lemma calm_SendTo c d a : calm (SendTo c d a).
Proof. unfold SendTo. calm. Qed.
#[export] Hint Resolve calm_Resolve calm_SendTo : calm.
Lemma calm_Send c d : calm (Send c d).
Proof. unfold Send. calm. Qed.
Lemma calm_ReadRaw c : calm (ReadRaw c).
Proof. unfold ReadRaw, Client_Recv. calm. Qed.
Lemma calm_RandomBytes n : calm (RandomBytes n).
Proof. unfold RandomBytes. calm. Qed.
#[export] Hint Resolve calm_Send calm_ReadRaw calm_RandomBytes : calm.
Lemma calm_drain n c : calm (drain n c).
Proof. induction n as [|n IH]; cbn; calm. Qed.
Lemma calm_await_auth n c s : calm (await_auth n c s).
Proof. revert s. induction n as [|n IH]; intros s; cbn; calm. Qed.
Lemma calm_count_packet d s : calm (count_packet d s).
Proof. unfold count_packet. calm. Qed.
#[export] Hint Resolve calm_drain calm_await_auth calm_count_packet : calm.
Lemma calm_drain_session n c s : calm (drain_session n c s).
Proof. revert s. induction n as [|n IH]; intros s; cbn; calm. Qed.
#[export] Hint Resolve calm_drain_session : calm.
Lemma calm_authenticate c sign : calm (authenticate c sign).
Proof. unfold authenticate, send_packet, parse_packet. calm. Qed.

(** ** Runs that return a value *)

Lemma bind_Ok {A B} (m : M A) (k : A → M B) w w' b :
  (m ≫= k) w = (w', Ok b) → ∃ w1 a, m w = (w1, Ok a) ∧ k a w1 = (w', Ok b).
Proof. unfold mbind, M_bind. destruct (m w) as [w1 [a|e|]]; intros E; [eauto|done..]. Qed.

(** The client [c] talks to [a]. *)
Definition peer (c : nat) (a : UDPAddr) (w : World) : Prop := ∃ u, w_clients w !! c = Some u ∧ u_raddr u = Some a.

Lemma peer_calm {A} (m : M A) c a w : calm m → peer c a w → peer c a (m w).1.
Proof. intros Hm (u & Hu & Ha). exists u. destruct (Hm w) as [-> _]. done. Qed.

Lemma Send_Ok c a d w w' x : peer c a w → Send c d w = (w', Ok x) →
  w_log w' = w_log w ++ [NvSent c a d] ∧ peer c a w'.
Proof.
  intros Hp E. pose proof (peer_calm (Send c d) c a w (calm_Send c d) Hp) as Hp'. rewrite E in Hp'. split; [|done].
  destruct Hp as (u & Hu & Ha). apply bind_Ok in E as (w1 & u' & E1 & E). unfold client in E1. rewrite Hu in E1.
  injection E1 as <- <-. rewrite Ha in E. apply bind_Ok in E as (w2 & an & E2 & E). unfold ask in E2.
  destruct (w_ans w) as [|an0 ans]; injection E2 as <- <-; [done|]. destruct an0; try done. by injection E as <- _.
Qed.

Lemma ReadRaw_Ok c a d w w' : peer c a w → ReadRaw c w = (w', Ok d) →
  ∃ from, same_addr from a ∧ w_log w' = w_log w ++ [NvRecv c from d] ∧ peer c a w'.
Proof.
  intros Hp E. pose proof (peer_calm (ReadRaw c) c a w (calm_ReadRaw c) Hp) as Hp'. rewrite E in Hp'.
  destruct Hp as (u & Hu & Ha). apply bind_Ok in E as (w1 & u' & E1 & E). unfold client in E1. rewrite Hu in E1.
  injection E1 as <- <-. apply bind_Ok in E as (w2 & r & E2 & E). unfold recv_any in E2. rewrite Ha in E2.
  assert (∀ ans ans' d from, recv_go (Some a) ans = (ans', Some (d, from)) → same_addr from a) as Hg.
  { clear. induction ans as [|[] ans IH]; intros ans' d' from'; cbn [recv_go]; try done.
    destruct (sameUDPAddr (Some from) (Some a)) eqn:Es; [|apply IH]. intros [= _ _ <-].
    apply sameUDPAddr_spec in Es as (b & [= <-] & ?). done. }
  destruct (recv_go (Some a) (w_ans w)) as [ans r'] eqn:Er. injection E2 as <- <-. destruct r' as [[d' from]|]; [|done].
  injection E as <- <-. exists from. split; [by eapply Hg|]. split; [done|exact Hp'].
Qed.

Lemma try_ReadRaw c a r w w' : peer c a w → try (ReadRaw c) w = (w', Ok r) → peer c a w' ∧
  match r with
  | inl _ => w_log w' = w_log w
  | inr d => ∃ from, same_addr from a ∧ w_log w' = w_log w ++ [NvRecv c from d]
  end.
Proof.
  intros Hp E. unfold try in E. destruct (ReadRaw c w) as [w1 [d|e|]] eqn:Er; [| |done]; injection E as <- <-.
  - destruct (ReadRaw_Ok c a d w w1 Hp Er) as (from & ? & ? & ?). eauto.
  - split; [pose proof (peer_calm (ReadRaw c) c a w (calm_ReadRaw c) Hp) as H; by rewrite Er in H|].
    unfold ReadRaw, Client_Recv, mbind, M_bind, client in Er.
    destruct (w_clients w !! c) as [u|]; [|done]. unfold recv_any in Er. destruct (recv_go _ _) as [ans [[d from]|]]; [done|].
    by injection Er as <- _.
Qed.

(** ** Sessions and their traffic *)

(** The session [s] becomes by what goes over socket [c] to and from [a]: packets it sends,
    packets it has received; datagrams that are no packets do not count. *)
Inductive traffic (c : nat) (a : UDPAddr) : Session → list NetEvent → Session → Prop :=
| tr_nil s : traffic c a s [] s
| tr_send s body s1 p l s2 : Session_Send s body = (s1, p) → traffic c a s1 l s2 →
    traffic c a s (NvSent c a (Packet_Serialize p) :: l) s2
| tr_recv s from d p l s2 : same_addr from a → ParsePacket d = Ok p → traffic c a (Session_Recv s p) l s2 →
    traffic c a s (NvRecv c from d :: l) s2
| tr_skip s from d e l s2 : same_addr from a → ParsePacket d = Err e → traffic c a s l s2 →
    traffic c a s (NvRecv c from d :: l) s2.

Lemma traffic_app c a s l s1 k s2 : traffic c a s l s1 → traffic c a s1 k s2 → traffic c a s (l ++ k) s2.
Proof.
  induction 1; intros H2; cbn; [done|eapply tr_send|eapply tr_recv|eapply tr_skip]; eauto.
Qed.

(** Nothing was sent in between. *)
Definition reads_only (l : list NetEvent) : Prop := Forall (λ ev, match ev with NvRecv _ _ _ => True | _ => False end) l.

(** The SYNC was answered by a SYNC, the sign was sent and acknowledged with 0x1A, and the
    session is what all of it made of a new one. *)
Definition authenticated (c : nat) (a : UDPAddr) (sign : bytes) (l : list NetEvent) (s : Session) : Prop :=
  traffic c a NewSession l s ∧
  ∃ p1 from1 d1 q1 p2 l1 from2 d2 q2 p3 l2,
    l = [NvSent c a (Packet_Serialize p1); NvRecv c from1 d1; NvSent c a (Packet_Serialize p2)] ++ l1 ++
        [NvRecv c from2 d2; NvSent c a (Packet_Serialize p3)] ++ l2 ∧
    PBody p1 = NewSyncBody ∧ ParsePacket d1 = Ok q1 ∧ BType (PBody q1) = BodyTypeSync ∧
    PBody p2 = NewCommandBody (command x19 ++ sign) ∧ ParsePacket d2 = Ok q2 ∧
    BType (PBody q2) = BodyTypeCommand ∧ (∃ rest, Command (PBody q2) = x1a :: rest) ∧
    PBody p3 = NewCommandBody (command x1b) ∧ reads_only l1 ∧ reads_only l2.

Lemma is_auth_ok_spec p : is_auth_ok p = true → BType (PBody p) = BodyTypeCommand ∧ ∃ rest, Command (PBody p) = x1a :: rest.
Proof.
  unfold is_auth_ok. intros [H1%bool_decide_eq_true H2]%andb_true_iff. split; [done|].
  destruct (Command (PBody p)) as [|[] rest]; try done. by eexists.
Qed.

Lemma await_auth_Ok n c a s w w' s' : peer c a w → await_auth n c s w = (w', Ok s') →
  ∃ l1 from d p s1, w_log w' = w_log w ++ l1 ++ [NvRecv c from d] ∧ peer c a w' ∧ reads_only l1 ∧
    traffic c a s l1 s1 ∧ same_addr from a ∧ ParsePacket d = Ok p ∧
    (BType (PBody p) = BodyTypeCommand ∧ ∃ rest, Command (PBody p) = x1a :: rest) ∧ s' = Session_Recv s1 p.
Proof.
  revert s w. induction n as [|n IH]; intros s w Hp E; cbn [await_auth] in E; [done|].
  apply bind_Ok in E as (w1 & r & E1 & E). destruct (try_ReadRaw _ _ _ _ _ Hp E1) as [Hp1 Hr]. destruct r as [e|d].
  - destruct (IH _ _ Hp1 E) as (l1 & from & d & p & s1 & L & H). exists l1, from, d, p, s1. by rewrite L, Hr.
  - destruct Hr as (from & Hf & L1). destruct (ParsePacket d) as [p|e|] eqn:Ed; [| |done].
    + destruct (is_auth_ok p) eqn:Ea.
      * injection E as <- <-. exists [], from, d, p, s. cbn. split; [done|]. split; [done|]. split; [by constructor|].
        split; [constructor|]. apply is_auth_ok_spec in Ea. done.
      * destruct (IH _ _ Hp1 E) as (l1 & from' & d' & p' & s1 & L & Hp' & Hro & Ht & H).
        exists (NvRecv c from d :: l1), from', d', p', s1. rewrite L, L1, <- app_assoc. split; [done|]. split; [done|].
        split; [by constructor|]. split; [by eapply tr_recv|done].
    + destruct (IH _ _ Hp1 E) as (l1 & from' & d' & p' & s1 & L & Hp' & Hro & Ht & H).
      exists (NvRecv c from d :: l1), from', d', p', s1. rewrite L, L1, <- app_assoc. split; [done|]. split; [done|].
      split; [by constructor|]. split; [by eapply tr_skip|done].
Qed.

Lemma count_packet_Ok c a from d s w w' s' : same_addr from a → count_packet d s w = (w', Ok s') →
  w' = w ∧ traffic c a s [NvRecv c from d] s'.
Proof.
  unfold count_packet. intros Hf E. destruct (ParsePacket d) as [p|e|] eqn:Ed; [| |done]; injection E as <- <-; split; try done.
  - eapply tr_recv; [done..|constructor].
  - eapply tr_skip; [done..|constructor].
Qed.

Lemma drain_session_Ok n c a s w w' s' : peer c a w → drain_session n c s w = (w', Ok s') →
  ∃ l, w_log w' = w_log w ++ l ∧ reads_only l ∧ traffic c a s l s'.
Proof.
  revert s w. induction n as [|n IH]; intros s w Hp E; cbn [drain_session] in E.
  - injection E as <- <-. exists []. rewrite app_nil_r. split; [done|]. split; constructor.
  - apply bind_Ok in E as (w1 & r & E1 & E). destruct (try_ReadRaw _ _ _ _ _ Hp E1) as [Hp1 Hr]. destruct r as [e|d].
    + injection E as <- <-. exists []. rewrite app_nil_r. split; [done|]. split; constructor.
    + destruct Hr as (from & Hf & L1). apply bind_Ok in E as (w2 & s2 & E2 & E).
      apply (count_packet_Ok c a from d) in E2 as [-> Ht]; [|done]. destruct (IH _ _ Hp1 E) as (l & L & Hro & Ht').
      exists (NvRecv c from d :: l). rewrite L, L1, <- app_assoc. split; [done|]. split; [by constructor|].
      by apply (traffic_app c a s [NvRecv c from d] s2).
Qed.

(** The last reads of [authenticate]. *)
Lemma final_reads_Ok c a s w w' s' : peer c a w →
  (r ← try (ReadRaw c);
   session ← match r with inl _ => mret s | inr data => count_packet data s end;
   drain_session 3 c session) w = (w', Ok s') →
  ∃ l, w_log w' = w_log w ++ l ∧ reads_only l ∧ traffic c a s l s'.
Proof.
  intros Hp E. apply bind_Ok in E as (w1 & r & E1 & E). destruct (try_ReadRaw _ _ _ _ _ Hp E1) as [Hp1 Hr].
  apply bind_Ok in E as (w2 & s2 & E2 & E). destruct r as [e|d].
  - injection E2 as <- <-. rewrite <- Hr. by eapply drain_session_Ok.
  - destruct Hr as (from & Hf & L1). apply (count_packet_Ok c a from d) in E2 as [-> Ht]; [|done].
    destruct (drain_session_Ok _ _ _ _ _ _ _ Hp1 E) as (l & L & Hro & Ht'). exists (NvRecv c from d :: l).
    rewrite L, L1, <- app_assoc. split; [done|]. split; [by constructor|]. by apply (traffic_app c a s [NvRecv c from d] s2).
Qed.

Lemma Session_Send_body s body s1 p : Session_Send s body = (s1, p) → PBody p = body.
Proof. unfold Session_Send. by intros [= _ <-]. Qed.

Lemma authenticate_Ok c a sign w w' s : peer c a w → authenticate c sign w = (w', Ok s) →
  ∃ l, w_log w' = w_log w ++ l ∧ authenticated c a sign l s.
Proof.
  intros Hp E. unfold authenticate in E. destruct (Session_Send NewSession NewSyncBody) as [s1 p1] eqn:S1.
  apply bind_Ok in E as (w1 & [] & E1 & E). destruct (Send_Ok _ _ _ _ _ _ Hp E1) as [L1 Hp1].
  apply bind_Ok in E as (w2 & d1 & E2 & E). destruct (ReadRaw_Ok _ _ _ _ _ Hp1 E2) as (from1 & Hf1 & L2 & Hp2).
  apply bind_Ok in E as (w3 & q1 & E3 & E). unfold parse_packet in E3.
  destruct (ParsePacket d1) as [q|e|] eqn:D1; [|done..]. injection E3 as <- <-. case_decide as Hsync; [done|].
  destruct (Session_Send (Session_Recv s1 q) _) as [s2 p2] eqn:S2.
  apply bind_Ok in E as (w4 & [] & E4 & E). destruct (Send_Ok _ _ _ _ _ _ Hp2 E4) as [L4 Hp4].
  apply bind_Ok in E as (w5 & s3 & E5 & E).
  destruct (await_auth_Ok _ _ _ _ _ _ _ Hp4 E5) as (l1 & from2 & d2 & q2 & s2' & L5 & Hp5 & Hro1 & Ht1 & Hf2 & D2 & [Hty Hok] & ->).
  destruct (Session_Send (Session_Recv s2' q2) _) as [s4 p3] eqn:S3.
  apply bind_Ok in E as (w6 & [] & E6 & E). destruct (Send_Ok _ _ _ _ _ _ Hp5 E6) as [L6 Hp6].
  destruct (final_reads_Ok _ _ _ _ _ _ Hp6 E) as (l2 & L7 & Hro2 & Ht2).
  eexists. split; [rewrite L7, L6, L5, L4, L2, L1, <- !app_assoc; reflexivity|]. split.
  - cbn [app]. eapply tr_send; [exact S1|]. eapply tr_recv; [done..|]. eapply tr_send; [exact S2|].
    eapply traffic_app; [exact Ht1|]. eapply tr_recv; [done..|]. by eapply tr_send.
  - exists p1, from1, d1, q, p2, l1, from2, d2, q2, p3, l2. split; [done|].
    apply Session_Send_body in S1, S2, S3. split_and!; try done.
Qed.

(** ** The hole punch *)

(** The device may answer from its public address [a0] and from what its local address
    resolved to. *)
Definition may_answer (a0 : UDPAddr) (laddr : bytes) (a : UDPAddr) (log : list NetEvent) : Prop :=
  same_addr a a0 ∨ ∃ b, NvResolved laddr b ∈ log ∧ same_addr a b.

Section Punch.
(** What the log contained before. *)
Context (before : list NetEvent).

Definition allowed (c : nat) (a0 : UDPAddr) (laddr : bytes) (w : World) : Prop :=
  before `prefix_of` w_log w ∧ ∃ a, peer c a w ∧ may_answer a0 laddr a (w_log w).

Lemma may_answer_app a0 laddr a log l : may_answer a0 laddr a log → may_answer a0 laddr a (log ++ l).
Proof. intros [?|(b & ? & ?)]; [by left|right]. exists b. rewrite elem_of_app. auto. Qed.

Lemma may_answer_same a0 laddr a a' log : same_addr a' a → may_answer a0 laddr a log → may_answer a0 laddr a' log.
Proof. intros Hs [?|(b & ? & ?)]; [left; by etrans|right]. exists b. split; [done|by etrans]. Qed.

(** Conditions on the clients and on what the log contains. *)
Definition stable (P : World → Prop) : Prop :=
  ∀ w w' l, P w → w_clients w' = w_clients w → w_log w' = w_log w ++ l → P w'.

Lemma allowed_stable c a0 laddr : stable (allowed c a0 laddr).
Proof.
  intros w w' l (Hb & a & (u & Hu & Ha) & Hm) Hc Hl. rewrite <- Hc in Hu.
  split; [rewrite Hl; by apply prefix_app_r|]. exists a. split; [by exists u|]. rewrite Hl. by apply may_answer_app.
Qed.

Lemma triple_calm {A} (P E : World → Prop) (m : M A) : stable P → (∀ w, P w → E w) → calm m → triple P m (λ _, P) E.
Proof.
  intros Hs HE Hm w Hw. destruct (Hm w) as (Hc & l & Hl).
  destruct (m w) as [w' [a|e|]]; [by eapply Hs|apply HE; by eapply Hs|done].
Qed.

Lemma triple_Send_calm {A} c a0 laddr (m : M A) : calm m →
  triple (allowed c a0 laddr) m (λ _, allowed c a0 laddr) (allowed c a0 laddr).
Proof. apply triple_calm; [apply allowed_stable|done]. Qed.

(** The local address is one that was resolved. *)
Definition resolved (laddr : bytes) (la : option UDPAddr) (w : World) : Prop :=
  ∀ b, la = Some b → NvResolved laddr b ∈ w_log w.

Lemma triple_local c a0 pub laddr data :
  triple (allowed c a0 laddr)
    (if decide (laddr ≠ pub ∧ laddr ≠ []) then
       r ← try (ResolveUDPAddr laddr);
       match r with inl _ => mret None | inr a => try (SendTo c data a);; mret (Some a) end
     else mret None)
    (λ la w, allowed c a0 laddr w ∧ resolved laddr la w) (allowed c a0 laddr).
Proof.
  case_decide; [|by intros w Hw]. intros w Hw. unfold mbind at 1, M_bind.
  assert (calm (try (ResolveUDPAddr laddr))) as Hc by calm. destruct (Hc w) as (Hcl & l & Hl).
  assert (∀ w1 a, try (ResolveUDPAddr laddr) w = (w1, Ok (inr a)) → NvResolved laddr a ∈ w_log w1) as Hres.
  { intros w1 a. unfold try, ResolveUDPAddr, mbind, M_bind, ask, note. destruct (w_ans w) as [|[] ans]; try done.
    intros [= <- <-]. cbn. rewrite elem_of_app. right. by apply list_elem_of_singleton. }
  destruct (try (ResolveUDPAddr laddr) w) as [w1 [[e|a]|e|]]; cbn in Hcl, Hl; [| |by eapply allowed_stable|done].
  - split; [by eapply allowed_stable|done].
  - specialize (Hres _ _ eq_refl). assert (calm (try (SendTo c data a);; mret (Some a))) as Hc2 by calm.
    destruct (Hc2 w1) as (Hcl2 & l2 & Hl2). unfold mbind, M_bind in *. unfold try in *.
    destruct (SendTo c data a w1) as [w2 [x|e|]]; cbn in *; [..|done];
      (split; [eapply allowed_stable; [eapply allowed_stable; [exact Hw|done..]|done..]|]);
      intros b [= <-]; rewrite Hl2; apply elem_of_app; by left.
Qed.

Lemma stun_go_Ok raddr la ans ans' d from : stun_go raddr la ans = (ans', Some (d, from)) →
  sameUDPAddr (Some from) raddr = true ∨ sameUDPAddr (Some from) la = true.
Proof.
  induction ans as [|[] ans IH]; cbn [stun_go]; try done.
  destruct (sameUDPAddr (Some from0) raddr || sameUDPAddr (Some from0) la) eqn:E; [|done].
  intros [= _ _ <-]. by apply orb_true_iff in E.
Qed.

Lemma triple_stun c a0 laddr la :
  triple (λ w, allowed c a0 laddr w ∧ resolved laddr la w) (await_stun c la)
    (λ r w, allowed c a0 laddr w ∧ may_answer a0 laddr r.2 (w_log w)) (allowed c a0 laddr).
Proof.
  intros w [(Hb & a & Hp & Hm) Hres]. pose proof Hp as (u & Hu & Ha). unfold await_stun, mbind, M_bind, client. rewrite Hu, Ha.
  destruct (stun_go (Some a) la (w_ans w)) as [ans [[d from]|]] eqn:Es; cbn.
  - split; [split; [by apply prefix_app_r|]; exists a; split; [done|by apply may_answer_app]|].
    apply may_answer_app. apply stun_go_Ok in Es as [Es|Es]; apply sameUDPAddr_spec in Es as (b & Hab & Hs).
    + injection Hab as <-. by eapply may_answer_same.
    + right. exists b. split; [by apply Hres|done].
  - split; [done|]. by exists a.
Qed.

Lemma triple_punch v6 c a0 cid pub laddr :
  triple (allowed c a0 laddr) (punch v6 c cid pub laddr) (λ _, allowed c a0 laddr) (allowed c a0 laddr).
Proof.
  unfold punch. do 3 (eapply triple_bind; [apply triple_Send_calm; calm|intros ?]).
  eapply triple_bind; [apply triple_Send_calm; calm|intros ?]. eapply triple_bind; [apply triple_local|intros la].
  eapply triple_bind; [apply triple_stun|intros [resp from]]. cbn [snd].
  eapply (triple_bind _ _ _ (λ u w, allowed c a0 laddr w ∧ may_answer a0 laddr from (w_log w))).
  { apply triple_calm; [|by intros w [? _]|calm]. intros w w' l [H1 H2] Hc Hl. split; [by eapply allowed_stable|].
    rewrite Hl. by apply may_answer_app. }
  intros u. eapply (triple_bind _ _ _ (λ _, allowed c a0 laddr)).
  { intros w [[Hb _] Hm]. split; [done|]. exists from. split; [|done]. exists (u <| u_raddr := Some from |>). cbn. by rewrite lookup_insert_eq. }
  intros _. apply triple_Send_calm. calm.
Qed.

(** Success of an attempt: the end of the log is the authentication. *)
Definition succeeded (c : nat) (a0 : UDPAddr) (laddr sign : bytes) (s : Session) (w : World) : Prop :=
  ∃ pre l a, before `prefix_of` pre ∧ w_log w = pre ++ l ∧ authenticated c a sign l s ∧ may_answer a0 laddr a pre.

Lemma triple_direct v6 c a0 cid pub laddr sign :
  triple (allowed c a0 laddr) (performDirectHandshake v6 c cid pub laddr sign)
    (succeeded c a0 laddr sign) (allowed c a0 laddr).
Proof.
  unfold performDirectHandshake. eapply triple_bind; [apply triple_punch|]. intros [] w Hw.
  pose proof (calm_authenticate c sign w) as (Hc & l & Hl). destruct Hw as (Hb & a & Hp & Hm).
  destruct (authenticate c sign w) as [w' [s|e|]] eqn:E; cbn in Hc, Hl; [| |done].
  - destruct (authenticate_Ok c a sign w w' s Hp E) as (l' & Hl' & Hau). by exists (w_log w), l', a.
  - eapply allowed_stable; [split; [done|]; by exists a|done..].
Qed.

Lemma triple_try {A} P (m : M A) (Q : A → World → Prop) (E : World → Prop) E' :
  triple P m Q E → triple P (try m) (λ r w, match r with inr a => Q a w | inl _ => E w end) E'.
Proof. intros Hm w Hw. specialize (Hm w Hw). unfold try. by destruct (m w) as [w' [a|e|]]. Qed.

Lemma triple_attempts v6 n c a0 cid pub laddr sign e :
  triple (allowed c a0 laddr) (direct_attempts v6 n c cid pub laddr sign e)
    (succeeded c a0 laddr sign) (λ _, True).
Proof.
  revert e. induction n as [|n IH]; intros e; cbn [direct_attempts]; [by intros w _|].
  eapply triple_bind; [apply triple_try, triple_direct|]. intros [e'|s]; [apply IH|]. by intros w Hw.
Qed.
End Punch.

(** ** The whole handshake *)

(** Client [d] is left alone. *)
Definition spares (d : nat) {A} (m : M A) : Prop :=
  ∀ w, w_clients (m w).1 !! d = w_clients w !! d ∧ ∃ l, w_log (m w).1 = w_log w ++ l.

Lemma spares_calm d {A} (m : M A) : calm m → spares d m.
Proof. intros Hm w. destruct (Hm w) as [-> Hl]. done. Qed.

Lemma spares_set_client d c u : c ≠ d → spares d (set_client c u).
Proof. intros Hne w. cbn. rewrite lookup_insert_ne by done. split; [done|]. exists []. by rewrite app_nil_r. Qed.

Lemma spares_bind d {A B} (m : M A) (k : A → M B) : spares d m → (∀ a, spares d (k a)) → spares d (m ≫= k).
Proof.
  intros Hm Hk w. destruct (Hm w) as (C1 & l1 & L1). unfold mbind, M_bind.
  destruct (m w) as [w1 [a|e|]]; cbn in *; [|by eauto..].
  destruct (Hk a w1) as (C2 & l2 & L2). split; [congruence|]. exists (l1 ++ l2). by rewrite L2, L1, app_assoc.
Qed.

Lemma calm_tick : calm tick.
Proof. by apply calm_same. Qed.
#[export] Hint Resolve calm_tick : calm.

Ltac spares :=
  repeat first
    [ solve [auto using spares_set_client]
    | solve [apply spares_calm; calm]
    | apply spares_bind; [|intros ?]
    | match goal with |- spares _ (match ?x with _ => _ end) => destruct x end ].

Lemma spares_Connect d c h p : c ≠ d → spares d (Connect c h p).
Proof. intros Hne. unfold Connect. spares. Qed.

Lemma spares_Request d c sha1 clock p b : c ≠ d → spares d (Request sha1 clock c p b).
Proof. intros Hne. unfold Request. spares. Qed.

Lemma calm_get_sign c : calm (get_sign c).
Proof.
  assert (∀ n s, calm (await_sign n c s)) as Ha by (induction n as [|n IH]; intros s; cbn; unfold send_packet; calm).
  unfold get_sign, send_packet, parse_packet. calm.
Qed.

(** The computation only adds to the log. *)
Definition grows {A} (m : M A) : Prop := ∀ w, w_log w `prefix_of` w_log (m w).1.

Lemma grows_calm {A} (m : M A) : calm m → grows m.
Proof. intros Hm w. destruct (Hm w) as (_ & l & ->). by apply prefix_app_r. Qed.

Lemma grows_same {A} (m : M A) : (∀ w, w_log (m w).1 = w_log w) → grows m.
Proof. intros H w. by rewrite H. Qed.

Lemma grows_bind {A B} (m : M A) (k : A → M B) : grows m → (∀ a, grows (k a)) → grows (m ≫= k).
Proof.
  intros Hm Hk w. specialize (Hm w). unfold mbind, M_bind. destruct (m w) as [w1 [a|e|]]; cbn in *; [|done..].
  etrans; [exact Hm|apply Hk].
Qed.

Lemma grows_new_client p : grows (new_client p).
Proof. intros w. cbn. by apply prefix_app_r. Qed.

Lemma grows_set_client c u : grows (set_client c u).
Proof. by apply grows_same. Qed.
Lemma grows_set_main c : grows (set_main c).
Proof. by apply grows_same. Qed.
Lemma grows_set_p2p c : grows (set_p2p c).
Proof. by apply grows_same. Qed.
Lemma grows_set_device c : grows (set_device c).
Proof. by apply grows_same. Qed.

Create HintDb grows.
#[export] Hint Resolve grows_new_client grows_set_client grows_set_main grows_set_p2p grows_set_device : grows.

Ltac grows :=
  repeat (cbv zeta; first
    [ match goal with |- grows (match ?x with _ => _ end) => destruct x end
    | apply grows_bind; [|intros ?]
    | solve [auto with grows nocore]
    | solve [apply grows_calm; auto with calm nocore] ]).

Lemma grows_Connect c h p : grows (Connect c h p).
Proof. unfold Connect. grows. Qed.
Lemma grows_Request sha1 clock c p b : grows (Request sha1 clock c p b).
Proof. unfold Request. grows. Qed.
Lemma grows_Read decode c : grows (Read decode c).
Proof. apply grows_calm. unfold Read. calm. Qed.
Lemma grows_NewUDPClientPort p : grows (NewUDPClientPort p).
Proof. unfold NewUDPClientPort. grows. Qed.
#[export] Hint Resolve grows_Connect grows_Request grows_Read grows_NewUDPClientPort : grows.

Lemma grows_Ok {A} (m : M A) w w' r : grows m → m w = (w', r) → w_log w `prefix_of` w_log w'.
Proof. intros Hm E. specialize (Hm w). by rewrite E in Hm. Qed.

Lemma triple_Ok {A} P (m : M A) Q E w w' a : triple P m Q E → P w → m w = (w', Ok a) → Q a w'.
Proof. intros Hm Hw Er. specialize (Hm w Hw). by rewrite Er in Hm. Qed.

Lemma field_Ok r k e w w' v : field r k e w = (w', Ok v) → body_get r k = Some v ∧ w' = w.
Proof. unfold field. destruct (body_get r k); [|done]. by intros [= <- <-]. Qed.

Lemma spares_Ok d {A} (m : M A) w w' x a : spares d m → m w = (w', Ok x) → peer d a w →
  peer d a w' ∧ w_log w `prefix_of` w_log w'.
Proof.
  intros Hm E (u & Hu & Ha). destruct (Hm w) as (Hc & l & Hl). rewrite E in Hc, Hl. cbn in Hc, Hl.
  split; [exists u; by rewrite Hc|]. rewrite Hl. by apply prefix_app_r.
Qed.

(** *** The sign *)

(** A datagram with the sign: what follows the 12 bytes that head a command. *)
Definition carries_sign (d sign : bytes) : Prop :=
  ∃ q header, ParsePacket d = Ok q ∧ BType (PBody q) = BodyTypeCommand ∧
    Command (PBody q) = header ++ sign ∧ length header = 12%nat ∧ sign ≠ [].

(** What may come between the first request for the sign and the sign: further requests,
    and datagrams without one. *)
Definition asking (c : nat) (a : UDPAddr) (ev : NetEvent) : Prop :=
  match ev with
  | NvSent s b d => s = c ∧ b = a ∧ ∃ p, d = Packet_Serialize p ∧ PBody p = NewCommandBody (command x17)
  | NvRecv s from d => s = c ∧ same_addr from a ∧ ∀ sign, ¬ carries_sign d sign
  | _ => False
  end.

(** A SYNC, its answer, the request for the sign, and the first datagram that carries one;
    all of it over [c], to and from [a]. *)
Definition sign_exchange (c : nat) (a : UDPAddr) (sign : bytes) (l : list NetEvent) : Prop :=
  ∃ p1 from1 d1 q1 p2 l1 from2 d2,
    l = [NvSent c a (Packet_Serialize p1); NvRecv c from1 d1; NvSent c a (Packet_Serialize p2)] ++ l1 ++ [NvRecv c from2 d2] ∧
    PBody p1 = NewSyncBody ∧ same_addr from1 a ∧ ParsePacket d1 = Ok q1 ∧
    PBody p2 = NewCommandBody (command x17) ∧ Forall (asking c a) l1 ∧
    same_addr from2 a ∧ carries_sign d2 sign.

Lemma carries_sign_spec d q : ParsePacket d = Ok q →
  if decide (BType (PBody q) = BodyTypeCommand ∧ (12 < length (Command (PBody q)))%nat)
  then carries_sign d (drop 12 (Command (PBody q))) else ∀ sign, ¬ carries_sign d sign.
Proof.
  intros Ed. case_decide as Hc.
  - exists q, (take 12 (Command (PBody q))). destruct Hc as [Ht Hl]. split_and!; try done.
    + by rewrite take_drop.
    + rewrite length_take. lia.
    + intros Hn. apply (f_equal length) in Hn. rewrite length_drop in Hn. cbn in Hn. lia.
  - intros sign (q' & header & Eq & Ht & Hcmd & Hl & Hn). assert (q' = q) as -> by congruence. apply Hc. split; [done|].
    rewrite Hcmd, length_app, Hl. destruct sign; [done|]. cbn. lia.
Qed.

Lemma try_send_packet c a p w w' r : peer c a w → try (send_packet c p) w = (w', Ok r) →
  peer c a w' ∧ (w_log w' = w_log w ∨ w_log w' = w_log w ++ [NvSent c a (Packet_Serialize p)]).
Proof.
  intros Hp E. split.
  { assert (calm (try (send_packet c p))) as Hc by (unfold send_packet; calm). pose proof (peer_calm _ c a w Hc Hp) as H. by rewrite E in H. }
  destruct Hp as (u & Hu & Ha). unfold try, send_packet, Send, SendTo, mbind, M_bind, client, ask, note in E. rewrite Hu, Ha in E.
  destruct (w_ans w) as [|an ans]; [left; by injection E as <- _|]. destruct an; injection E as <- _; by auto.
Qed.

Lemma await_sign_Ok n c a s w w' sign : peer c a w → await_sign n c s w = (w', Ok sign) →
  ∃ l from d, w_log w' = w_log w ++ l ++ [NvRecv c from d] ∧ Forall (asking c a) l ∧ same_addr from a ∧ carries_sign d sign.
Proof.
  revert s w. induction n as [|n IH]; intros s w Hp E; cbn [await_sign] in E; [done|].
  apply bind_Ok in E as (w1 & r & E1 & E). destruct (try_ReadRaw _ _ _ _ _ Hp E1) as [Hp1 Hr]. destruct r as [e|d].
  - destruct (Session_Send s _) as [s1 p] eqn:Es. apply bind_Ok in E as (w2 & ? & E2 & E).
    destruct (try_send_packet _ _ _ _ _ _ Hp1 E2) as [Hp2 [L|L]];
      destruct (IH _ _ Hp2 E) as (l & from & d & L' & Hl & H); rewrite L', L, Hr; [by exists l, from, d|].
    exists (NvSent c a (Packet_Serialize p) :: l), from, d. rewrite <- app_assoc. split; [done|]. split; [|done].
    constructor; [|done]. split_and!; [done..|]. exists p. split; [done|]. by apply Session_Send_body in Es.
  - destruct Hr as (from & Hf & L1).
    assert (∀ s', await_sign n c s' w1 = (w', Ok sign) → (∀ sign, ¬ carries_sign d sign) →
      ∃ l from d, w_log w' = w_log w ++ l ++ [NvRecv c from d] ∧ Forall (asking c a) l ∧ same_addr from a ∧ carries_sign d sign) as Hnext.
    { intros s' E' Hn. destruct (IH _ _ Hp1 E') as (l & from' & d' & L' & Hl & H). rewrite L', L1, <- app_assoc.
      exists (NvRecv c from d :: l), from', d'. split; [done|]. split; [|done]. by constructor. }
    destruct (ParsePacket d) as [q|e|] eqn:Ed; [| |done].
    + pose proof (carries_sign_spec _ _ Ed) as Hc. case_decide; [|by eapply Hnext].
      injection E as <- <-. exists [], from, d. by rewrite L1.
    + eapply Hnext; [done|]. intros sg (q & ? & ? & _). congruence.
Qed.

Lemma get_sign_Ok c a w w' sign : peer c a w → get_sign c w = (w', Ok sign) →
  ∃ l, w_log w' = w_log w ++ l ∧ sign_exchange c a sign l.
Proof.
  intros Hp E. unfold get_sign in E. destruct (Session_Send NewSession _) as [s1 p1] eqn:S1.
  apply bind_Ok in E as (w1 & [] & E1 & E). destruct (Send_Ok _ _ _ _ _ _ Hp E1) as [L1 Hp1].
  apply bind_Ok in E as (w2 & d1 & E2 & E). destruct (ReadRaw_Ok _ _ _ _ _ Hp1 E2) as (from1 & Hf1 & L2 & Hp2).
  apply bind_Ok in E as (w3 & q1 & E3 & E). unfold parse_packet in E3.
  destruct (ParsePacket d1) as [q|e|] eqn:D1; [|done..]. injection E3 as <- <-.
  destruct (Session_Send (Session_Recv s1 q) _) as [s2 p2] eqn:S2.
  apply bind_Ok in E as (w4 & [] & E4 & E). destruct (Send_Ok _ _ _ _ _ _ Hp2 E4) as [L4 Hp4].
  destruct (await_sign_Ok _ _ _ _ _ _ _ Hp4 E) as (l & from & d & L5 & Hl & Hf & Hc).
  eexists. split; [rewrite L5, L4, L2, L1, <- !app_assoc; reflexivity|].
  apply Session_Send_body in S1, S2. exists p1, from1, d1, q, p2, l, from, d. done.
Qed.

(** *** Requests and answers *)

Section Cloud.
Context (decode : bytes → list Token) (v6 : bytes → option bytes) (sha1 md5 : bytes → bytes).
Context (hmac aes : bytes → bytes → bytes) (Unmarshal : bytes → option DeviceInfo) (clock : nat → bytes * Z).

(** Socket [c] talks to what the name of [host] and [port] resolved to. *)
Definition reaching (c : nat) (host : bytes) (port : Z) (w : World) : Prop :=
  ∃ a, NvResolved (JoinHostPort host port) a ∈ w_log w ∧ peer c a w.

(** Socket [c] got the response [resp] from there. *)
Definition answered (c : nat) (host : bytes) (port : Z) (resp : Response) (log : list NetEvent) : Prop :=
  ∃ a from d, NvResolved (JoinHostPort host port) a ∈ log ∧ same_addr from a ∧ NvRecv c from d ∈ log ∧
    ParseResponse decode d = Ok resp.

Lemma answered_prefix c host port resp log log' : log `prefix_of` log' → answered c host port resp log → answered c host port resp log'.
Proof. intros Hp (a & from & d & H1 & H2 & H3 & H4). exists a, from, d. split_and!; try done; by eapply elem_of_prefix. Qed.

Lemma reaching_spares {A} c host port (m : M A) w w' x :
  spares c m → m w = (w', Ok x) → reaching c host port w → reaching c host port w'.
Proof.
  intros Hm E (a & Hr & u & Hu & Ha). destruct (Hm w) as (Hc & l & Hl). rewrite E in Hc, Hl. cbn in Hc, Hl.
  exists a. split; [rewrite Hl; apply elem_of_app; by left|]. exists u. by rewrite Hc.
Qed.

Lemma reaching_calm {A} c host port (m : M A) w w' x :
  calm m → m w = (w', Ok x) → reaching c host port w → reaching c host port w'.
Proof. intros Hm. by apply reaching_spares, spares_calm. Qed.

Lemma calm_LocalPort c : calm (LocalPort c).
Proof. unfold LocalPort. calm. Qed.

Lemma Connect_Ok c h p w w' x : Connect c h p w = (w', Ok x) → reaching c h p w'.
Proof.
  intros E. apply bind_Ok in E as (w1 & a & E1 & E). apply bind_Ok in E as (w2 & u & E2 & E).
  unfold client in E2. destruct (w_clients w1 !! c) as [u0|]; [|done]. injection E2 as <- <-. injection E as <- _.
  exists a. split; [|exists (u0 <| u_raddr := Some a |>); cbn; by rewrite lookup_insert_eq].
  apply bind_Ok in E1 as (w3 & an & E3 & E1). destruct an as [[]|]; try done. injection E1 as <- <-. cbn.
  apply elem_of_app. right. by apply list_elem_of_singleton.
Qed.

(** A request changes the client's counter only. *)
Lemma Request_Ok c path body h p w w' x :
  Request sha1 clock c path body w = (w', Ok x) → reaching c h p w → reaching c h p w'.
Proof.
  intros E (a & Hr & u & Hu & Ha). apply bind_Ok in E as (w1 & u1 & E1 & E). unfold client in E1. rewrite Hu in E1.
  injection E1 as <- <-. apply bind_Ok in E as (w2 & [] & E2 & E). injection E2 as <-.
  eapply reaching_calm; [|exact E|].
  - calm.
  - exists a. split; [done|]. eexists. cbn. by rewrite lookup_insert_eq.
Qed.

Lemma Read_Ok c h p w w' resp : Read decode c w = (w', Ok resp) → reaching c h p w →
  answered c h p resp (w_log w') ∧ reaching c h p w'.
Proof.
  intros E (a & Hr & Hp). apply bind_Ok in E as (w1 & d & E1 & E). injection E as <- Hd.
  destruct (ReadRaw_Ok _ _ _ _ _ Hp E1) as (from & Hf & L & Hp1). split.
  - exists a, from, d. rewrite L, !elem_of_app. split_and!; auto. right. by apply list_elem_of_singleton.
  - exists a. split; [rewrite L; apply elem_of_app; by left|done].
Qed.

(** One request and its answer. *)
Lemma exchange_Ok {A} c path body h p (k : Response → M A) w w' x :
  (Request sha1 clock c path body;; resp ← Read decode c; k resp) w = (w', Ok x) → reaching c h p w →
  ∃ w1 resp, k resp w1 = (w', Ok x) ∧ answered c h p resp (w_log w1) ∧ reaching c h p w1.
Proof.
  intros E Hr. apply bind_Ok in E as (w1 & [] & E1 & E). apply (Request_Ok _ _ _ _ _ _ _ _ E1) in Hr.
  apply bind_Ok in E as (w2 & resp & E2 & E). apply (Read_Ok _ _ _ _ _ _ E2) in Hr as [Ha Hr]. eauto 6.
Qed.

Lemma find_p2psrv_Ok serial w w' main srv : find_p2psrv decode sha1 clock serial w = (w', Ok (main, srv)) →
  ∃ resp, answered main MainServer MainPort resp (w_log w') ∧ body_get resp "body/US" = Some srv ∧
    reaching main MainServer MainPort w'.
Proof.
  intros E. unfold find_p2psrv in E. do 2 apply bind_Ok in E as (? & ? & _ & E).
  apply bind_Ok in E as (w1 & [] & E1 & E). apply Connect_Ok in E1.
  eapply exchange_Ok in E as (w2 & r1 & E & _ & R2); [|exact E1]. eapply exchange_Ok in E as (w3 & r2 & E & A3 & R3); [|exact R2].
  apply bind_Ok in E as (w4 & v & [Hv ->]%field_Ok & E). injection E as <- <- <-. eauto.
Qed.

(** What the device reports of itself: the salt of its key, and its RTSP port, 554 if it
    names none. *)
Definition reported (info : Response) (salt : bytes) (rtspPort : Z) : Prop :=
  (∃ text di, body_get info "body/Info" = Some text ∧ text ≠ [] ∧ DecryptDeviceInfo aes Unmarshal text = Ok di ∧
     salt = RandSalt di ∧ (1 ≤ InfoRTSPPort di ≤ 65535 ∧ rtspPort = InfoRTSPPort di ∨
                           ¬ (1 ≤ InfoRTSPPort di ≤ 65535) ∧ rtspPort = 554)) ∨
  (∀ text di, body_get info "body/Info" = Some text → text ≠ [] → DecryptDeviceInfo aes Unmarshal text ≠ Ok di) ∧
  salt = [] ∧ rtspPort = 554.

Lemma device_info_reported info : reported info (device_info aes Unmarshal info).1 (device_info aes Unmarshal info).2.
Proof.
  unfold reported, device_info. destruct (body_get info "body/Info") as [text|]; [|by right].
  destruct (decide (text = [])) as [->|Ht]; [right; split_and!; try done; by intros ? ? [= <-]|].
  destruct (DecryptDeviceInfo aes Unmarshal text) as [di|e|] eqn:Ed;
    [left|right; split_and!; try done; intros ? ? [= <-] _; congruence..].
  exists text, di. split_and!; try done. case_decide; cbn; [left; split; [lia|]|right; split; [lia|done]].
  apply u32_small. word_lia.
Qed.

Lemma probe_device_Ok serial srv w w' p2p salt port :
  probe_device decode sha1 aes Unmarshal clock serial srv w = (w', Ok (p2p, salt, port)) →
  ∃ h q info, splitHostPort srv = Ok (h, q) ∧ answered p2p h q info (w_log w') ∧ reported info salt port ∧
    (∀ c h q, c ≠ p2p → reaching c h q w → reaching c h q w').
Proof.
  intros E. unfold probe_device in E. apply bind_Ok in E as (w1 & [h q] & E1 & E). injection E1 as <- Hs.
  apply bind_Ok in E as (w1 & p & E1 & E). apply bind_Ok in E as (w2 & [] & E2 & E). injection E2 as <-.
  assert (∀ c h q, c ≠ p → reaching c h q w → reaching c h q w1) as Hkeep.
  { intros c h' q' Hne (a & Hr & u & Hu & Ha). apply bind_Ok in E1 as (w3 & an & E3 & E1). unfold ask in E3.
    destruct (w_ans w) as [|an0 ans]; injection E3 as <- <-; [done|]. destruct an0; try done.
    injection E1 as <- <-. exists a. cbn. split; [apply elem_of_app; by left|]. exists u. cbn.
    rewrite lookup_insert_ne by done. done. }
  pose proof E as E'. apply bind_Ok in E' as (w3 & [] & E3 & E'). apply Connect_Ok in E3. cbn [fst snd] in E3.
  eapply exchange_Ok in E' as (w4 & r1 & E' & _ & R4); [|exact E3]. eapply exchange_Ok in E' as (w5 & info & E' & A5 & R5); [|exact R4].
  pose proof (device_info_reported info) as Hrep. destruct (device_info aes Unmarshal info) as [salt' port'] eqn:Ei.
  injection E' as <- <- <- <-. exists h, q, info. split_and!; try done.
  intros c h' q' Hne Hr. eapply reaching_spares; [|exact E|exact (Hkeep _ _ _ Hne Hr)].
  repeat (apply spares_bind; [first [by apply spares_Connect|by apply spares_Request|apply spares_calm; unfold Read; calm]|intros ?]).
  destruct (device_info _ _ _). apply spares_calm. calm.
Qed.

Lemma find_relay_Ok main w w' relay : find_relay decode sha1 clock main w = (w', Ok relay) →
  reaching main MainServer MainPort w →
  ∃ resp, answered main MainServer MainPort resp (w_log w') ∧ body_get resp "body/Address" = Some relay.
Proof.
  intros E Hr. eapply exchange_Ok in E as (w1 & resp & E & A1 & _); [|exact Hr]. apply field_Ok in E as [Hv ->]. eauto.
Qed.

Lemma request_channel_Ok opts salt key w w' dev cid :
  request_channel sha1 hmac aes clock opts salt key w = (w', Ok (dev, cid)) → reaching dev MainServer MainPort w'.
Proof.
  intros E. unfold request_channel in E. do 2 apply bind_Ok in E as (? & ? & _ & E).
  apply bind_Ok in E as (w1 & [] & E1 & E). apply Connect_Ok in E1.
  apply bind_Ok in E as (w2 & cd & E2 & E). apply (reaching_calm _ _ _ _ _ _ _ (calm_RandomBytes _) E2) in E1.
  apply bind_Ok in E as (w3 & pt & E3 & E). apply (reaching_calm _ _ _ _ _ _ _ (calm_LocalPort _) E3) in E1.
  cbv zeta in E. destruct key as [k|].
  - apply bind_Ok in E as (w4 & b & E4 & E). apply (reaching_calm _ _ _ _ _ _ _ (calm_RandomBytes _) E4) in E1.
    destruct (EncryptAddr _ _ _ _ _) as [enc|e|]; [|done..].
    apply bind_Ok in E as (w5 & t & E5 & E). apply (reaching_calm _ _ _ _ _ _ _ calm_tick E5) in E1.
    apply bind_Ok in E as (w6 & [] & E6 & E). injection E as <- <- _. by eapply Request_Ok.
  - apply bind_Ok in E as (w6 & [] & E6 & E). injection E as <- <- _. by eapply Request_Ok.
Qed.

Lemma start_agent_Ok p2p relay w w' agentAddr agent :
  start_agent decode sha1 clock p2p relay w = (w', Ok (agentAddr, agent)) →
  ∃ h q resp, splitHostPort relay = Ok (h, q) ∧ answered p2p h q resp (w_log w') ∧
    body_get resp "body/Agent" = Some agentAddr ∧ splitHostPort agentAddr = Ok agent ∧
    (∀ c h q, c ≠ p2p → reaching c h q w → reaching c h q w').
Proof.
  intros E. assert (∀ c, c ≠ p2p → spares c (start_agent decode sha1 clock p2p relay)) as Hsp.
  { intros c Hne. unfold start_agent.
    repeat (apply spares_bind; [first [by apply spares_Connect|by apply spares_Request|apply spares_calm; unfold Read, field; calm]|intros ?]).
    apply spares_calm. calm. }
  assert (∀ c h q, c ≠ p2p → reaching c h q w → reaching c h q w') as Hk.
  { intros c h q Hne. eapply reaching_spares; [|exact E]. by apply Hsp. }
  unfold start_agent in E. apply bind_Ok in E as (w1 & [h q] & E1 & E). injection E1 as <- Hs.
  apply bind_Ok in E as (w1 & [] & E1 & E). apply Connect_Ok in E1. cbn [fst snd] in E1.
  eapply exchange_Ok in E as (w2 & resp & E & A2 & _); [|exact E1].
  apply bind_Ok in E as (? & tok & [_ ->]%field_Ok & E). apply bind_Ok in E as (? & ag & [Hag ->]%field_Ok & E).
  exists h, q, resp. split; [done|]. split.
  - eapply answered_prefix; [|exact A2]. eapply grows_Ok; [|exact E]. grows.
  - apply bind_Ok in E as (w3 & agt & E3 & E). injection E3 as <- Hsp'. do 3 apply bind_Ok in E as (? & ? & _ & E).
    injection E as _ <- <-. done.
Qed.

Lemma channel_reply_Ok dev h q w w' resp : channel_reply decode dev w = (w', Ok resp) → reaching dev h q w →
  Code resp < 400 ∧ answered dev h q resp (w_log w').
Proof.
  intros E Hr. apply bind_Ok in E as (w1 & r1 & E1 & E). apply bind_Ok in E as (w2 & r2 & E2 & E).
  case_decide; [done|]. injection E as <- <-. split; [lia|]. apply (Read_Ok _ _ _ _ _ _ E1) in Hr as [Ha Hr].
  case_decide; [by eapply Read_Ok|]. by injection E2 as <- <-.
Qed.

(** The local address of the device: what the response says, decrypted if a key and a nonce
    are there and it can be. *)
Definition local_address (key : option bytes) (resp : Response) (laddr : bytes) : Prop :=
  ∃ la, body_get resp "body/LocalAddr" = Some la ∧
    let nonce := default [] (body_get resp "body/Nonce") in
    ((∃ k, key = Some k ∧ nonce ≠ [] ∧ DecryptAddr hmac aes k (Atoi_value nonce) la = Ok laddr) ∨
     laddr = la ∧ ∀ k a, key = Some k → nonce ≠ [] → DecryptAddr hmac aes k (Atoi_value nonce) la ≠ Ok a).

Lemma device_addrs_Ok key resp w w' laddr pub : device_addrs hmac aes key resp w = (w', Ok (laddr, pub)) →
  local_address key resp laddr ∧ body_get resp "body/PubAddr" = Some pub.
Proof.
  intros E. apply bind_Ok in E as (w1 & la & [Hla ->]%field_Ok & E). apply bind_Ok in E as (w2 & p & [Hp ->]%field_Ok & E).
  injection E as _ <- <-. split; [|done]. exists la. split; [done|]. cbv zeta. destruct key as [k|]; [|by right].
  case_decide as Hn; [by right|]. destruct (DecryptAddr _ _ _ _ _) as [a|e|] eqn:Ed; [left; by eauto| |];
    right; split; try done; intros ? ? [= <-] _; congruence.
Qed.

Lemma relay_channel_Ok opts rs key p2p dev resp pub agentAddr agent w w' x : p2p ≠ dev →
  request_relay_channel sha1 hmac clock opts rs key p2p dev resp pub agentAddr agent w = (w', Ok x) →
  ∃ host port, splitHostPort pub = Ok (host, port) ∧ reaching dev host port w' ∧ reaching p2p agent.1 agent.2 w'.
Proof.
  intros Hne E. unfold request_relay_channel in E. apply bind_Ok in E as (w1 & [host port] & E1 & E). injection E1 as <- Hs.
  apply bind_Ok in E as (w2 & [] & E2 & E). apply Connect_Ok in E2. exists host, port. split; [done|]. cbn [fst snd] in E2. split.
  - eapply reaching_spares; [|exact E|exact E2].
    repeat (apply spares_bind; [first [by apply spares_Connect|by apply spares_Request|spares]|intros ?]). spares.
  - do 3 apply bind_Ok in E as (? & ? & _ & E). apply bind_Ok in E as (w3 & [] & E3 & E). apply Connect_Ok in E3.
    apply bind_Ok in E as (w4 & d & E4 & E). injection E as <- _. by eapply reaching_calm; [apply calm_ReadRaw|exact E4|].
Qed.

(** *** What the cloud has told *)

(** The main server named the P2P server, which passed on what the device reports. *)
Definition device_found (p2p : nat) (salt : bytes) (rtspPort : Z) (log : list NetEvent) : Prop :=
  ∃ main resp srv h q info, answered main MainServer MainPort resp log ∧ body_get resp "body/US" = Some srv ∧
    splitHostPort srv = Ok (h, q) ∧ answered p2p h q info log ∧ reported info salt rtspPort.

(** The main server named the relay, the relay the agent, whose name resolved to [agent]. *)
Definition agent_named (p2p : nat) (agent : UDPAddr) (log : list NetEvent) : Prop :=
  ∃ main r1 relay h q r2 agentAddr h' q', answered main MainServer MainPort r1 log ∧
    body_get r1 "body/Address" = Some relay ∧ splitHostPort relay = Ok (h, q) ∧ answered p2p h q r2 log ∧
    body_get r2 "body/Agent" = Some agentAddr ∧ splitHostPort agentAddr = Ok (h', q') ∧
    NvResolved (JoinHostPort h' q') agent ∈ log.

(** The main server granted the channel to the device, and named the device's local address
    [laddr] and its public address, which resolved to [a0]. *)
Definition channel_granted (dev : nat) (key : option bytes) (laddr : bytes) (a0 : UDPAddr) (log : list NetEvent) : Prop :=
  ∃ resp pub h q, answered dev MainServer MainPort resp log ∧ Code resp < 400 ∧ local_address key resp laddr ∧
    body_get resp "body/PubAddr" = Some pub ∧ splitHostPort pub = Ok (h, q) ∧ NvResolved (JoinHostPort h q) a0 ∈ log.

(** The agent gave the sign. *)
Definition sign_given (p2p : nat) (agent : UDPAddr) (sign : bytes) (log : list NetEvent) : Prop :=
  ∃ l1 l l2, log = l1 ++ l ++ l2 ∧ agent_named p2p agent l1 ∧ sign_exchange p2p agent sign l.

Definition cloud_told (opts : HandshakeOptions) (p2p dev : nat) (rtspPort : Z) (laddr : bytes) (a0 agent : UDPAddr)
    (sign : bytes) (log : list NetEvent) : Prop :=
  p2p ≠ dev ∧ ∃ salt, device_found p2p salt rtspPort log ∧
    channel_granted dev (device_key md5 opts salt) laddr a0 log ∧ sign_given p2p agent sign log.

Lemma cloud_told_prefix opts p2p dev port laddr a0 agent sign log log' :
  log `prefix_of` log' → cloud_told opts p2p dev port laddr a0 agent sign log → cloud_told opts p2p dev port laddr a0 agent sign log'.
Proof.
  intros Hp (Hne & salt & (main & resp & srv & h & q & info & H1 & H2 & H3 & H4 & H5)
    & (resp' & pub & h' & q' & G1 & G2 & G3 & G4 & G5 & G6) & (l1 & l & l2 & -> & Ha & Hs)).
  split; [done|]. exists salt. split; [|split].
  - exists main, resp, srv, h, q, info. split_and!; try done; by eapply answered_prefix.
  - exists resp', pub, h', q'. split_and!; try done; [by eapply answered_prefix|by eapply elem_of_prefix].
  - destruct Hp as [k ->]. exists l1, l, (l2 ++ k). by rewrite <- !app_assoc.
Qed.

(** The first steps leave three different clients in the local variables. *)
Lemma locals_distinct w0 a b c w : at_locals w0 (Some a) (Some b) c w → a ≠ b ∧ Some b ≠ c.
Proof.
  intros [(l & _ & Hp & Hn & _) (E1 & E2 & E3)]. unfold held in Hp. rewrite E1, E2, E3 in Hp. cbn in Hp.
  rewrite Hp in Hn. apply NoDup_app in Hn as (_ & _ & Hn).
  apply NoDup_cons in Hn as [Ha Hn]. apply NoDup_cons in Hn as [Hb Hn]. split.
  - intros ->. apply Ha. by left.
  - intros <-. apply Hb. by apply list_elem_of_singleton.
Qed.

Lemma find_relay_grows main : grows (find_relay decode sha1 clock main).
Proof. unfold find_relay, field. grows. Qed.
Lemma request_channel_grows opts salt key : grows (request_channel sha1 hmac aes clock opts salt key).
Proof. unfold request_channel, LocalPort. grows. Qed.
Lemma probe_device_grows serial srv : grows (probe_device decode sha1 aes Unmarshal clock serial srv).
Proof. unfold probe_device, NewUDPClient. grows. Qed.

Lemma quiet_grows {A} (m : M A) : quiet m → grows m.
Proof. intros Hm w. destruct (Hm w) as (_ & l & -> & _). by apply prefix_app_r. Qed.

(** What the steps 1 to 11 have found out, as the device is about to be contacted. *)
Lemma cloud_Ok opts w w1 w2 w3 w4 w5 w6 w7 w8 w9 main srv p2p salt port relay dev cid agentAddr agent resp laddr pub sign :
  at_locals w None None None w →
  find_p2psrv decode sha1 clock (ho_Serial opts) w = (w1, Ok (main, srv)) →
  probe_device decode sha1 aes Unmarshal clock (ho_Serial opts) srv w1 = (w2, Ok (p2p, salt, port)) →
  find_relay decode sha1 clock main w2 = (w3, Ok relay) →
  request_channel sha1 hmac aes clock opts salt (device_key md5 opts salt) w3 = (w4, Ok (dev, cid)) →
  start_agent decode sha1 clock p2p relay w4 = (w5, Ok (agentAddr, agent)) →
  channel_reply decode dev w5 = (w6, Ok resp) →
  device_addrs hmac aes (device_key md5 opts salt) resp w6 = (w7, Ok (laddr, pub)) →
  request_relay_channel sha1 hmac clock opts salt (device_key md5 opts salt) p2p dev resp pub agentAddr agent w7 = (w8, Ok tt) →
  get_sign p2p w8 = (w9, Ok sign) →
  ∃ a0 ag, cloud_told opts p2p dev port laddr a0 ag sign (w_log w9) ∧ peer dev a0 w9.
Proof.
  intros H0 E1 E2 E3 E4 E5 E6 E7 E8 E9.
  pose proof (triple_Ok _ _ _ _ _ _ _ (triple_find _ _ _ w (ho_Serial opts)) H0 E1) as T1.
  pose proof (triple_Ok _ _ _ _ _ _ _ (triple_probe _ _ _ _ _ w main (ho_Serial opts) srv) T1 E2) as T2.
  pose proof (triple_Ok _ _ _ _ _ _ _ (triple_quiet _ w _ _ _ (quiet_find_relay _ _ _ main)) T2 E3) as T3.
  pose proof (triple_Ok _ _ _ _ _ _ _ (triple_channel _ _ _ _ w main p2p opts salt _) T3 E4) as T4.
  apply locals_distinct in T2 as [Hmp _]. apply locals_distinct in T4 as [_ Hpd]. cbn in Hmp, Hpd.
  assert (p2p ≠ dev) as Hne by congruence.
  pose proof (grows_Ok _ _ _ _ (probe_device_grows _ _) E2) as P2. pose proof (grows_Ok _ _ _ _ (find_relay_grows _) E3) as P3.
  pose proof (grows_Ok _ _ _ _ (request_channel_grows _ _ _) E4) as P4.
  pose proof (grows_Ok _ _ _ _ (quiet_grows _ (quiet_start_agent _ _ _ _ _)) E5) as P5.
  pose proof (grows_Ok _ _ _ _ (quiet_grows _ (quiet_channel_reply _ _)) E6) as P6.
  pose proof (grows_Ok _ _ _ _ (quiet_grows _ (quiet_device_addrs _ _ _ _)) E7) as P7.
  pose proof (grows_Ok _ _ _ _ (quiet_grows _ (quiet_relay_channel _ _ _ _ _ _ _ _ _ _ _ _)) E8) as P8.
  apply find_p2psrv_Ok in E1 as (r1 & A1 & B1 & R1).
  apply probe_device_Ok in E2 as (h & q & info & S2 & A2 & B2 & K2). apply (K2 _ _ _ Hmp) in R1.
  apply find_relay_Ok in E3 as (r3 & A3 & B3); [|done]. apply request_channel_Ok in E4 as R4.
  apply start_agent_Ok in E5 as (h5 & q5 & r5 & S5 & A5 & B5 & S5' & K5). apply (K5 _ _ _ (not_eq_sym Hne)) in R4.
  apply (channel_reply_Ok _ _ _ _ _ _ E6) in R4 as [Hcode A6]. apply device_addrs_Ok in E7 as [Hla Hpub].
  apply relay_channel_Ok in E8 as (host & pt & S8 & (a0 & Hr0 & Hp0) & (ag & Hra & Hpa)); [|done].
  destruct (spares_Ok dev _ _ _ _ a0 (spares_calm _ _ (calm_get_sign p2p)) E9 Hp0) as [Hp9 P9].
  destruct (get_sign_Ok _ _ _ _ _ Hpa E9) as (l & L9 & Hx).
  assert (w_log w6 `prefix_of` w_log w8) as P68 by exact (transitivity P7 P8).
  assert (w_log w5 `prefix_of` w_log w8) as P58 by exact (transitivity P6 P68).
  assert (w_log w3 `prefix_of` w_log w8) as P38 by exact (transitivity P4 (transitivity P5 P58)).
  assert (w_log w2 `prefix_of` w_log w9) as P29 by exact (transitivity P3 (transitivity P38 P9)).
  assert (w_log w1 `prefix_of` w_log w9) as P19 by exact (transitivity P2 P29).
  assert (w_log w6 `prefix_of` w_log w9) as P69 by exact (transitivity P68 P9).
  exists a0, ag. split; [|done]. split; [done|]. exists salt. split; [|split].
  - exists main, r1, srv, h, q, info. split_and!; try done; (eapply answered_prefix; [|eassumption]; assumption).
  - exists resp, pub, host, pt. split_and!; try done; [eapply answered_prefix; [|eassumption]; assumption|].
    by eapply elem_of_prefix; [|exact P9].
  - exists (w_log w8), l, []. rewrite app_nil_r. split; [done|]. split; [|done]. destruct agent as [h' q'].
    exists main, r3, relay, h5, q5, r5, agentAddr, h', q'.
    split_and!; try done; (eapply answered_prefix; [|eassumption]; assumption).
Qed.

(** Steps 1 to 11 lead to a world from which the device may be contacted. *)
Lemma handshake_steps_Ok opts w w' res :
  at_locals w None None None w →
  handshake_steps decode v6 sha1 md5 hmac aes Unmarshal clock opts w = (w', Ok res) →
  ∃ before p2p laddr sign a0 agent, cloud_told opts p2p (hr_Client res) (hr_RTSPPort res) laddr a0 agent sign before ∧
    succeeded before (hr_Client res) a0 laddr sign (hr_Session res) w'.
Proof.
  intros H0 E. unfold handshake_steps in E.
  apply bind_Ok in E as (w1 & [main srv] & E1 & E). apply bind_Ok in E as (w2 & [[p2p salt] port] & E2 & E).
  apply bind_Ok in E as (w3 & relay & E3 & E). apply bind_Ok in E as (w4 & [dev cid] & E4 & E).
  apply bind_Ok in E as (w5 & [agentAddr agent] & E5 & E). apply bind_Ok in E as (w6 & resp & E6 & E).
  apply bind_Ok in E as (w7 & [laddr pub] & E7 & E). apply bind_Ok in E as (w8 & [] & E8 & E).
  apply bind_Ok in E as (w9 & sign & E9 & E).
  destruct (cloud_Ok _ _ _ _ _ _ _ _ _ _ _ _ _ _ _ _ _ _ _ _ _ _ _ _ _ H0 E1 E2 E3 E4 E5 E6 E7 E8 E9) as (a0 & ag & Hc & Hp).
  do 4 (apply bind_Ok in E as (? & [] & [= <-] & E)).
  apply bind_Ok in E as (w10 & session & E10 & E). apply bind_Ok in E as (? & [] & [= <-] & E). injection E as <- <-.
  cbn [hr_Client hr_Session hr_RTSPPort]. exists (w_log w9), p2p, laddr, sign, a0, ag. split; [done|].
  assert (succeeded (w_log w9) dev a0 laddr sign session w10) as Hsu; [|exact Hsu].
  eapply (triple_Ok _ _ _ _ _ _ _ (triple_attempts (w_log w9) v6 _ _ a0 _ _ _ _ _)); [|exact E10].
  split; [cbn; by do 2 apply prefix_app_r|]. exists a0. split; [exact Hp|by left].
Qed.

Lemma Handshake_Ok opts w w' res :
  Handshake decode v6 sha1 md5 hmac aes Unmarshal clock opts w = (w', Ok res) →
  ∃ pre l a p2p laddr a0 agent sign,
    w_log w' = pre ++ l ∧ cloud_told opts p2p (hr_Client res) (hr_RTSPPort res) laddr a0 agent sign pre ∧
    may_answer a0 laddr a pre ∧ authenticated (hr_Client res) a sign l (hr_Session res).
Proof.
  intros E. unfold Handshake in E. set (w1 := w <| w_main := None |> <| w_p2p := None |> <| w_device := None |>) in E.
  assert (at_locals w1 None None None w1) as H0.
  { split; [|done]. exists []. rewrite app_nil_r. by repeat constructor. }
  destruct (handshake_steps _ _ _ _ _ _ _ _ opts w1) as [w2 [r|e|]] eqn:Es; injection E as <- Hr; try done. subst r.
  apply handshake_steps_Ok in Es as (before & p2p & laddr & sign & a0 & ag & Hg & pre & l & a & Hpre & Hl & Ha & Hm); [|done].
  exists pre, l, a, p2p, laddr, a0, ag, sign. split_and!; try done. by eapply cloud_told_prefix.
Qed.
End Cloud.

(** C3.  A handshake that succeeds has been acknowledged by the device, and
    everything it relies on came from whom it should.  Every server was found through the
    answer before it, from the main server on, and each answer came from the address its
    sender's name resolved to.  The channel was granted by a response below 400 from the
    main server, which names the device's public address, and its local address, decrypted
    with the device's key where there is one.  The sign is the part after the 12-byte
    header of the first command the agent sent after it was asked for it.  The socket it
    returns has then exchanged, with one address the device may answer from (its public
    address or what its local address resolved to), a SYNC answered by a SYNC, then that
    sign, acknowledged with 0x1A, then 0x1B; and the session it returns has counted exactly
    the packets of that exchange, all of them, so the first packet of the tunnel continues
    the device's counters.  The RTSP port is the one the device reports if that is a port,
    else 554. *)
Theorem handshake_authenticated decode v6 sha1 md5 hmac aes Unmarshal clock opts w w' res :
  Handshake decode v6 sha1 md5 hmac aes Unmarshal clock opts w = (w', Ok res) →
  ∃ pre l a p2p laddr a0 agent sign,
    w_log w' = pre ++ l ∧
    cloud_told decode md5 hmac aes Unmarshal opts p2p (hr_Client res) (hr_RTSPPort res) laddr a0 agent sign pre ∧
    may_answer a0 laddr a pre ∧ authenticated (hr_Client res) a sign l (hr_Session res).
Proof. apply Handshake_Ok. Qed.

Lemma handshake_authenticated_witness :
  ∃ res, demo_end.2 = Ok res ∧ hr_RTSPPort res = 554 ∧
  ∃ pre l a p2p laddr a0 agent sign,
    w_log demo_end.1 = pre ++ l ∧
    cloud_told demo_decode id (λ _ _, []) (λ _ b, b) (λ _, None) demo_opts p2p (hr_Client res) (hr_RTSPPort res)
      laddr a0 agent sign pre ∧
    may_answer a0 laddr a pre ∧ authenticated (hr_Client res) a sign l (hr_Session res).
Proof.
  eexists. split; [reflexivity|]. split; [reflexivity|].
  exact (handshake_authenticated _ _ _ _ _ _ _ _ _ _ _ _ demo_run).
Defined.

(** ** After an answer from the local address *)

(** An answer from the device's local address that is too short to be used: the attempt
    fails, and the client stays connected to that address. *)
Definition demo_short (from : UDPAddr) : list Answer :=
  [AnBytes (replicate 4 x01); AnBytes (replicate 12 x02); AnSent; AnAddr demo_lan; AnSent; AnPkt [x00] from].

(** In the next attempts the device answers from its public address. *)
Definition demo_retry : World :=
  let unheard := take 6 (demo_punch demo_device) ++ [AnFail] in
  demo_world (demo_cloud ++ demo_short demo_lan ++ unheard ++ unheard).

Definition sent_to (s : nat) (a : UDPAddr) (log : list NetEvent) : nat :=
  length (List.filter (λ ev, match ev with NvSent s' b _ => bool_decide (s' = s ∧ b = a) | _ => false end) log).

(** Only the first of the three attempts is made against the public address: the others
    send both of their requests to the local address and drop the device's answers from
    the public one. *)
Lemma retries_forget_public_address :
  let '(w, r) := Handshake demo_decode (λ _, None) id id (λ _ _, []) (λ _ b, b) (λ _, None) demo_clock demo_opts demo_retry in
  r = Err ErrTimeout ∧ sent_to 2 demo_device (w_log w) = 1%nat ∧ sent_to 2 demo_lan (w_log w) = 5%nat.
Proof. vm_compute. done. Qed.
