(* ===== verification/Connect.v ===== *)
(** * From a configuration to a tunnel

    [ConnectWithConfig] of [src/dahua.go] and [New] of [src/tunnel/tunnel.go], over the
    handshake: a new client's tunnel takes over the session and the socket of the
    handshake. *)

From Stdlib Require Import ZArith Lia Strings.Byte.
From S2P Require Import Prelude GoStrings GoText TextLemmas PtcpTypes PtcpSession SendPath ConnRead TunnelState TunnelApi.
From S2P Require Import Manager DhProtocol DhCrypto Handshake HandshakeThm HandshakeAuth.

Section Connect.
Context (decode : bytes → list Token) (v6 : bytes → option bytes) (sha1 md5 : bytes → bytes).
Context (hmac aes : bytes → bytes → bytes) (Unmarshal : bytes → option DeviceInfo) (clock : nat → bytes * Z).




End Connect.

(** ** Counters *)









