(* ===== verification/Rtsp.v ===== *)
(** * The RTSP proxy

    [src/cmd/dahua-p2p/proxy.go]: one RTSP message at a time is copied between the
    local client and the device until PLAY or RECORD has been answered; then both
    directions are copied as they come.

    A connection that is read is a [Source]: the bytes that will arrive, the sizes in
    which they become available, and the error that ends them.  What is written to is
    anything that keeps the contract of [io.Writer] ([ByteWriter]): the theorems hold of
    every such writer, also one that takes less than it is given or fails. *)

From Stdlib Require Import ZArith Lia Strings.Byte.
From S2P Require Import Prelude GoStrings GoText.

Definition maxRTSPHeaderBytes : Z := 64 ≪ 10.
Definition maxRTSPBodyBytes : Z := 1 ≪ 20.

Inductive IOError := EOF | ErrClosed | ErrTimeout | ErrShortWrite.

Inductive RtspError :=
| LineTooLong | HeaderTooLong | DuplicateLength | InvalidLength | BodyTooLong
| CopyBody (e : IOError)
| RtspIO (e : IOError)
| OutOfFuel.  (* never returned: see [copy_exact] *)

(** ** Readers and writers *)

Record Source := mkSource { s_rest : bytes; s_bursts : list nat; s_err : IOError }.

Class ByteWriter (W : Type) := {
  Write : bytes → W → W * nat * option IOError;
  w_out : W → bytes;  (* everything written so far *)
  Write_prefix : ∀ data w w' n e, Write data w = (w', n, e) →
    (n ≤ length data)%nat ∧ w_out w' = w_out w ++ take n data }.

Section Rtsp.
Context {W : Type} `{!ByteWriter W}.

Fixpoint writeAll_go (fuel : nat) (data : bytes) (w : W) : W * option IOError :=
  match data, fuel with
  | [], _ => (w, None)
  | _, O => (w, Some ErrShortWrite)
  | _, S fuel =>
      let '(w, n, err) := Write data w in
      match err with
      | Some e => (w, Some e)
      | None => if decide (n = 0%nat) then (w, Some ErrShortWrite) else writeAll_go fuel (drop n data) w
      end
  end.

(** Every round writes at least one byte, so there are at most [len(data)]. *)
Definition writeAll (data : bytes) (w : W) : W * option IOError := writeAll_go (length data) data w.

(** [ReadSlice('\n')] on a buffer of 64 KiB. *)
Fixpoint take_line (s : bytes) : option (bytes * bytes) :=
  match s with
  | [] => None
  | c :: s => if decide (c = LF) then Some ([c], s) else '(l, r) ← take_line s; Some (c :: l, r)
  end.

Definition readRTSPLine (src : Source) : Source * (RtspError + bytes) :=
  match take_line (s_rest src) with
  | Some (line, rest) =>
      if decide (Z.of_nat (length line) ≤ maxRTSPHeaderBytes)
      then (src <| s_rest := rest |>, inr line) else (src, inl LineTooLong)
  | None =>
      if decide (maxRTSPHeaderBytes ≤ Z.of_nat (length (s_rest src)))
      then (src, inl LineTooLong) else (src <| s_rest := [] |>, inl (RtspIO (s_err src)))
  end.

(** [io.CopyN(dst, src, n)]: what is available is written, up to [n] bytes. *)
Fixpoint CopyN (fuel n : nat) (w : W) (src : Source) : W * Source * option IOError :=
  match n, fuel with
  | O, _ => (w, src, None)
  | _, O => (w, src, Some (s_err src))
  | _, S fuel =>
      if decide (s_rest src = []) then (w, src, Some (s_err src)) else
      let '(burst, bursts) := match s_bursts src with b :: bs => (S b, bs) | [] => (n, []) end in
      let chunk := take (Nat.min burst n) (s_rest src) in
      let src := mkSource (drop (Nat.min burst n) (s_rest src)) bursts (s_err src) in
      match Write chunk w with
      | (w, _, Some e) => (w, src, Some e)
      | (w, k, None) =>
          if decide (k = length chunk) then CopyN fuel (n - length chunk) w src
          else (w, src, Some ErrShortWrite)
      end
  end.

(** ** [copyRTSPMessage] *)

(** What a header line says of the length of the body: [None] if it is another header. *)
Definition content_length (line : bytes) : option (option Z) :=
  match Cut (lit ":") line with
  | Some (name, value) =>
      if EqualFold (TrimSpace name) (lit "Content-Length") then
        Some (match Atoi (TrimSpace value) with
              | Some n => if decide (n < 0) then None else Some n
              | None => None
              end)
      else None
  | None => None
  end.

Definition is_blank (line : bytes) : bool := bool_decide (line = [CR; LF] ∨ line = [LF]).

(** The loop over the header lines; it returns the length of the body. *)
Fixpoint header_loop (fuel : nat) (headerBytes contentLength : Z) (contentLengthSeen : bool)
    (w : W) (src : Source) : W * Source * (RtspError + Z) :=
  match fuel with
  | O => (w, src, inl OutOfFuel)
  | S fuel =>
      match readRTSPLine src with
      | (src, inl e) => (w, src, inl e)
      | (src, inr line) =>
          let headerBytes := headerBytes + Z.of_nat (length line) in
          if decide (maxRTSPHeaderBytes < headerBytes) then (w, src, inl HeaderTooLong) else
          match writeAll line w with
          | (w, Some e) => (w, src, inl (RtspIO e))
          | (w, None) =>
              if is_blank line then (w, src, inr contentLength) else
              match content_length line with
              | None => header_loop fuel headerBytes contentLength contentLengthSeen w src
              | Some value =>
                  if contentLengthSeen then (w, src, inl DuplicateLength) else
                  match value with
                  | None => (w, src, inl InvalidLength)
                  | Some n => header_loop fuel headerBytes n true w src
                  end
              end
          end
      end
  end.

Definition copyRTSPMessage (w : W) (src : Source) : W * Source * (RtspError + bytes) :=
  match readRTSPLine src with
  | (src, inl e) => (w, src, inl e)
  | (src, inr startLine) =>
      match writeAll startLine w with
      | (w, Some e) => (w, src, inl (RtspIO e))
      | (w, None) =>
          match header_loop (S (length (s_rest src))) (Z.of_nat (length startLine)) 0 false w src with
          | (w, src, inl e) => (w, src, inl e)
          | (w, src, inr contentLength) =>
              if decide (0 < contentLength) then
                if decide (maxRTSPBodyBytes < contentLength) then (w, src, inl BodyTooLong) else
                match CopyN (Z.to_nat contentLength) (Z.to_nat contentLength) w src with
                | (w, src, Some e) => (w, src, inl (CopyBody e))
                | (w, src, None) => (w, src, inr (TrimSpace startLine))
                end
              else (w, src, inr (TrimSpace startLine))
          end
      end
  end.
End Rtsp.

(** ** Requests and responses *)

Definition validRTSPRequest (requestLine : bytes) : bool :=
  match Fields requestLine with
  | [f0; f1; f2] => bool_decide (f0 ≠ [] ∧ f1 ≠ [] ∧ f2 = lit "RTSP/1.0")
  | _ => false
  end.

Definition negotiationFinished (requestLine responseLine : bytes) : bool :=
  match Fields requestLine, Fields responseLine with
  | method :: _, _ :: code :: _ =>
      bool_decide (ToUpper method = lit "PLAY" ∨ ToUpper method = lit "RECORD") && HasPrefix code (lit "2")
  | _, _ => false
  end.

(** ** [proxyRTSP], up to [copyBoth] *)

Section Proxy.
Context {U D : Type} `{!ByteWriter U, !ByteWriter D}.

(** Both connections; [p_finished] counts the calls of [finishNegotiation]. *)
Record Proxy := mkProxy {
  p_upstream : U; p_device : D; p_upstreamReader : Source; p_deviceReader : Source; p_finished : nat }.

Inductive ProxyResult := ProxyErr (e : RtspError) | ProxyCopyBoth | ProxyFuel.

Fixpoint proxy_loop (fuel : nat) (requestLine : bytes) (p : Proxy) : Proxy * ProxyResult :=
  match fuel with
  | O => (p, ProxyFuel)
  | S fuel =>
      let '(upstream, deviceReader, r) := copyRTSPMessage (p_upstream p) (p_deviceReader p) in
      let p := p <| p_upstream := upstream |> <| p_deviceReader := deviceReader |> in
      match r with
      | inl e => (p, ProxyErr e)
      | inr responseLine =>
          if negotiationFinished requestLine responseLine
          then (p <| p_finished := S (p_finished p) |>, ProxyCopyBoth)
          else
            let '(device, upstreamReader, r) := copyRTSPMessage (p_device p) (p_upstreamReader p) in
            let p := p <| p_device := device |> <| p_upstreamReader := upstreamReader |> in
            match r with
            | inl e => (p, ProxyErr e)
            | inr requestLine => proxy_loop fuel requestLine p
            end
      end
  end.

Definition proxyRTSP (firstRequest requestLine : bytes) (p : Proxy) : Proxy * ProxyResult :=
  match writeAll firstRequest (p_device p) with
  | (device, Some e) => (p <| p_device := device |>, ProxyErr (RtspIO e))
  | (device, None) =>
      proxy_loop (S (length (s_rest (p_deviceReader p)))) requestLine (p <| p_device := device |>)
  end.
End Proxy.

(** ** What is written *)

Section Written.
Context {W : Type} `{!ByteWriter W}.
Implicit Types (w : W) (src : Source).

Lemma writeAll_go_spec fuel data w w' e :
  (length data ≤ fuel)%nat → writeAll_go fuel data w = (w', e) →
  ∃ sent, w_out w' = w_out w ++ sent ∧ sent `prefix_of` data ∧ (e = None → sent = data).
Proof.
  revert data w. induction fuel as [|fuel IH]; intros data w Hf E.
  { destruct data; [|simpl in Hf; lia]. simplify_eq/=. exists []. by rewrite app_nil_r; split_and!; [|apply prefix_nil|]. }
  destruct data as [|c data]; [simplify_eq/=; exists []; by rewrite app_nil_r; split_and!; [|apply prefix_nil|]|].
  cbn [writeAll_go] in E. destruct (Write (c :: data) w) as [[w1 n] r] eqn:Ew.
  destruct (Write_prefix _ _ _ _ _ Ew) as [Hn Ho].
  assert (take n (c :: data) `prefix_of` c :: data) as Hp by (exists (drop n (c :: data)); by rewrite take_drop).
  destruct r as [e1|]; [simplify_eq; by exists (take n (c :: data))|].
  case_decide as Hz; [simplify_eq; by exists (take 0 (c :: data))|].
  apply IH in E as (sent & Hs & [rest Hr] & Hall); [|rewrite length_drop; simpl in *; lia].
  exists (take n (c :: data) ++ sent). split_and!.
  - by rewrite Hs, Ho, app_assoc.
  - exists rest. rewrite <- app_assoc, <- Hr. by rewrite take_drop.
  - intros He. rewrite (Hall He). by rewrite take_drop.
Qed.

Lemma writeAll_spec data w w' e :
  writeAll data w = (w', e) →
  ∃ sent, w_out w' = w_out w ++ sent ∧ sent `prefix_of` data ∧ (e = None → sent = data).
Proof. by apply writeAll_go_spec. Qed.

Definition is_line (l : bytes) : Prop := ∃ l0, l = l0 ++ [LF] ∧ LF ∉ l0.

Lemma take_line_spec s l r : take_line s = Some (l, r) → s = l ++ r ∧ is_line l.
Proof.
  revert l r. induction s as [|c s IH]; intros l r; simpl; [done|]. case_decide as E.
  - intros [= <- <-]. split; [done|]. exists []. subst c. split; [done|]. apply not_elem_of_nil.
  - intros ([l1 r1] & E1 & [= <- <-])%bind_Some. destruct (IH _ _ E1) as [-> (l0 & -> & Hl)].
    split; [done|]. exists (c :: l0). split; [done|]. rewrite not_elem_of_cons. done.
Qed.

Lemma take_line_app l r : is_line l → take_line (l ++ r) = Some (l, r).
Proof.
  intros (l0 & -> & Hl). induction l0 as [|c l0 IH]; simpl; [done|].
  apply not_elem_of_cons in Hl as [Hc Hl]. rewrite decide_False by (by apply not_eq_sym). by rewrite (IH Hl).
Qed.

Lemma readRTSPLine_Ok src src' l :
  readRTSPLine src = (src', inr l) →
  s_rest src = l ++ s_rest src' ∧ is_line l ∧ Z.of_nat (length l) ≤ maxRTSPHeaderBytes.
Proof.
  unfold readRTSPLine. destruct (take_line (s_rest src)) as [[l1 r1]|] eqn:E; [|by case_decide].
  case_decide; [|done]. intros [= <- <-]. apply take_line_spec in E as [-> ?]. done.
Qed.

Lemma is_line_length l : is_line l → (1 ≤ length l)%nat.
Proof. intros (l0 & -> & _). rewrite length_app. simpl. lia. Qed.

Lemma CopyN_spec fuel n w src w' src' e :
  (n ≤ fuel)%nat → CopyN fuel n w src = (w', src', e) →
  ∃ sent consumed, w_out w' = w_out w ++ sent ∧ s_rest src = consumed ++ s_rest src' ∧ sent `prefix_of` consumed ∧
    (e = None → sent = consumed ∧ length consumed = n).
Proof.
  revert n w src. induction fuel as [|fuel IH]; intros n w src Hf E.
  { assert (n = 0%nat) as -> by lia. simplify_eq/=. exists [], []. by rewrite app_nil_r; split_and!; [| |apply prefix_nil|]. }
  destruct n as [|n]; [simplify_eq/=; exists [], []; by rewrite app_nil_r; split_and!; [| |apply prefix_nil|]|]. cbn [CopyN] in E.
  case_decide as Hr; [simplify_eq; exists [], []; by rewrite app_nil_r; split_and!; [| |apply prefix_nil|]|].
  destruct (match s_bursts src with b :: bs => (S b, bs) | [] => (S n, []) end) as [burst bursts] eqn:Eb.
  assert (0 < burst)%nat as Hb by (destruct (s_bursts src); simplify_eq; lia).
  set (k := Nat.min burst (S n)) in *. destruct (Write _ w) as [[w1 m] r] eqn:Ew.
  destruct (Write_prefix _ _ _ _ _ Ew) as [Hm Ho].
  assert (take m (take k (s_rest src)) `prefix_of` take k (s_rest src)) as Hp by (eexists; by rewrite take_drop).
  destruct r as [e1|]; [|case_decide as Hk].
  - simplify_eq. exists (take m (take k (s_rest src))), (take k (s_rest src)). cbn. by rewrite take_drop.
  - assert (0 < length (take k (s_rest src)))%nat as Hpos.
    { rewrite length_take. destruct (s_rest src); [done|]. simpl. lia. }
    rewrite (take_ge (take k (s_rest src)) m) in Ho by lia.
    apply IH in E as (sent & consumed & Hs & Hc & Hpc & Hall); [|lia]. cbn in Hc.
    exists (take k (s_rest src) ++ sent), (take k (s_rest src) ++ consumed). split_and!.
    + by rewrite Hs, Ho, app_assoc.
    + rewrite <- app_assoc, <- Hc. by rewrite take_drop.
    + by apply prefix_app.
    + intros He. destruct (Hall He) as [-> Hl]. split; [done|]. rewrite length_app, Hl.
      assert (length (take k (s_rest src)) ≤ S n)%nat by (rewrite length_take; lia). lia.
  - simplify_eq. exists (take m (take k (s_rest src))), (take k (s_rest src)). cbn. by rewrite take_drop.
Qed.

(** ** Messages

    What an RTSP message is, as the proxy sees it: a start line, header lines that
    are not blank and at most one of which gives a length, a blank line, and a body
    of that length; the head has at most 64 KiB and the body at most 1 MiB. *)

Definition declared (headers : list bytes) : option Z :=
  match omap content_length headers with
  | [] => Some 0
  | [Some n] => Some n
  | _ => None
  end.

Record rtsp_message (start : bytes) (headers : list bytes) (blank body : bytes) : Prop := mkMessage {
  msg_start : is_line start;
  msg_headers : Forall (λ h, is_line h ∧ is_blank h = false) headers;
  msg_blank : is_blank blank = true;
  msg_length : declared headers = Some (Z.of_nat (length body));
  msg_head : Z.of_nat (length (start ++ concat headers ++ blank)) ≤ 65536;
  msg_body : Z.of_nat (length body) ≤ 1048576 }.

Definition render (start : bytes) (headers : list bytes) (blank body : bytes) : bytes :=
  start ++ concat headers ++ blank ++ body.

(** The loop's variables against [declared]. *)
Definition declared_from (cl : Z) (seen : bool) (headers : list bytes) : option Z :=
  match seen, omap content_length headers with
  | _, [] => Some cl
  | false, [Some n] => Some n
  | _, _ => None
  end.

Lemma declared_from_cons cl seen h hs :
  declared_from cl seen (h :: hs) =
  match content_length h with
  | None => declared_from cl seen hs
  | Some v => if seen then None else match v with None => None | Some n => declared_from n true hs end
  end.
Proof.
  unfold declared_from. cbn. destruct (content_length h) as [v|]; [|done].
  destruct seen, v, (omap content_length hs); done.
Qed.

Lemma is_blank_line l : is_blank l = true → is_line l.
Proof.
  unfold is_blank. rewrite bool_decide_eq_true. intros [->| ->].
  - exists [CR]. split; [done|]. by intros ?%list_elem_of_singleton.
  - exists []. split; [done|]. apply not_elem_of_nil.
Qed.

(** What the loop over the headers has consumed and written when it ends. *)
Definition headers_done (hb cl : Z) (seen : bool) w src w' src' (r : RtspError + Z) : Prop :=
  ∃ sent consumed, w_out w' = w_out w ++ sent ∧ s_rest src = consumed ++ s_rest src' ∧ sent `prefix_of` consumed ∧
    match r with
    | inl e => e ≠ OutOfFuel
    | inr n => sent = consumed ∧ ∃ hs blank, consumed = concat hs ++ blank ∧
        Forall (λ h, is_line h ∧ is_blank h = false) hs ∧ is_blank blank = true ∧
        declared_from cl seen hs = Some n ∧ hb + Z.of_nat (length consumed) ≤ maxRTSPHeaderBytes
    end.

Lemma headers_done_cons hb cl seen cl1 seen1 line w w1 src src1 w' src' r :
  is_line line → is_blank line = false → w_out w1 = w_out w ++ line → s_rest src = line ++ s_rest src1 →
  (∀ hs, declared_from cl seen (line :: hs) = declared_from cl1 seen1 hs) →
  headers_done (hb + Z.of_nat (length line)) cl1 seen1 w1 src1 w' src' r → headers_done hb cl seen w src w' src' r.
Proof.
  intros Hl Hb Ho Hs Hd (sent & consumed & Ho1 & Hs1 & Hp & Hr). exists (line ++ sent), (line ++ consumed). split_and!.
  - by rewrite Ho1, Ho, app_assoc.
  - by rewrite Hs, Hs1, app_assoc.
  - by apply prefix_app.
  - destruct r as [e|n]; [done|]. destruct Hr as (-> & hs & blank & -> & Hh & Hbl & Hdn & Hmax). split; [done|].
    exists (line :: hs), blank. split_and!; [by rewrite app_assoc|by constructor|done|by rewrite Hd|].
    rewrite length_app. lia.
Qed.

Lemma readRTSPLine_Err src src' e : readRTSPLine src = (src', inl e) →
  e ≠ OutOfFuel ∧ ∃ consumed, s_rest src = consumed ++ s_rest src'.
Proof.
  unfold readRTSPLine. repeat case_match; intros [= <- <-]; (split; [done|]); try (by exists []).
  exists (s_rest src). by rewrite app_nil_r.
Qed.

Lemma header_loop_spec fuel hb cl seen w src w' src' r :
  (length (s_rest src) < fuel)%nat → header_loop fuel hb cl seen w src = (w', src', r) →
  headers_done hb cl seen w src w' src' r.
Proof.
  revert hb cl seen w src. induction fuel as [|fuel IH]; intros hb cl seen w src Hf E; [lia|]. cbn [header_loop] in E.
  destruct (readRTSPLine src) as [src1 [e1|line]] eqn:Er.
  { simplify_eq. apply readRTSPLine_Err in Er as [He (consumed & Hc)]. exists [], consumed.
    split_and!; [by rewrite app_nil_r|done|apply prefix_nil|done]. }
  apply readRTSPLine_Ok in Er as (Hsrc & Hline & Hlen).
  assert (length (s_rest src1) < fuel)%nat as Hf1.
  { apply is_line_length in Hline. rewrite Hsrc, length_app in Hf. lia. }
  case_decide as Hmax.
  { simplify_eq. exists [], line. split_and!; [by rewrite app_nil_r|done|apply prefix_nil|done]. }
  destruct (writeAll line w) as [w1 e1] eqn:Ew. apply writeAll_spec in Ew as (sent & Ho & Hp & Hall).
  destruct e1 as [e1|]; [simplify_eq; by exists sent, line|]. rewrite (Hall eq_refl) in Ho.
  destruct (is_blank line) eqn:Hb.
  { simplify_eq. exists line, line. split_and!; try done. exists [], line. split_and!; try done; [|lia].
    unfold declared_from. by destruct seen. }
  assert (∀ e, e ≠ OutOfFuel → (w1, src1, inl e) = (w', src', r) → headers_done hb cl seen w src w' src' r) as Herr.
  { intros e He [= <- <- <-]. by exists line, line. }
  pose proof (declared_from_cons cl seen line) as Hd.
  destruct (content_length line) as [v|]; [destruct seen; [by eapply Herr; [|exact E]|destruct v as [n|]; [|by eapply Herr; [|exact E]]]|];
    eapply headers_done_cons; try done; by eapply IH.
Qed.

(** ** A writer that takes everything *)

Definition reliable : Prop := ∀ data w, ∃ w', Write data w = (w', length data, None).

Lemma writeAll_reliable data w : reliable → ∃ w', writeAll data w = (w', None) ∧ w_out w' = w_out w ++ data.
Proof.
  intros Hr. destruct (writeAll data w) as [w' e] eqn:E. exists w'.
  assert (e = None) as ->; [|split; [done|]; destruct (writeAll_spec _ _ _ _ E) as (sent & -> & _ & Hs); by rewrite Hs].
  destruct data as [|c data]; [by injection E|]. unfold writeAll in E. cbn [length writeAll_go] in E.
  destruct (Hr (c :: data) w) as [w1 Ew]. rewrite Ew in E. rewrite decide_False in E by done.
  rewrite drop_ge in E by done. by destruct (length data); injection E.
Qed.

Lemma readRTSPLine_app l r src : is_line l → Z.of_nat (length l) ≤ maxRTSPHeaderBytes → s_rest src = l ++ r →
  readRTSPLine src = (src <| s_rest := r |>, inr l).
Proof. intros Hl Hlen Hs. unfold readRTSPLine. rewrite Hs, take_line_app by done. by rewrite decide_True. Qed.

Lemma CopyN_reliable fuel n w src : reliable → (n ≤ fuel)%nat → (n ≤ length (s_rest src))%nat →
  ∃ w' src', CopyN fuel n w src = (w', src', None) ∧ w_out w' = w_out w ++ take n (s_rest src) ∧
    s_rest src' = drop n (s_rest src).
Proof.
  intros Hrel. revert n w src. induction fuel as [|fuel IH]; intros n w src Hf Hn.
  { assert (n = 0%nat) as -> by lia. exists w, src. cbn. by rewrite app_nil_r. }
  destruct n as [|n]; [exists w, src; cbn; by rewrite app_nil_r|]. cbn [CopyN].
  rewrite decide_False by (intros E; rewrite E in Hn; simpl in Hn; lia).
  destruct (match s_bursts src with b :: bs => (S b, bs) | [] => (S n, []) end) as [burst bursts] eqn:Eb.
  assert (0 < burst)%nat as Hb by (destruct (s_bursts src); simplify_eq; lia).
  assert (0 < Nat.min burst (S n) ≤ S n)%nat as Hk by lia. set (k := Nat.min burst (S n)) in *. clearbody k. destruct (Hrel (take k (s_rest src)) w) as [w1 Ew]. rewrite Ew.
  destruct (Write_prefix _ _ _ _ _ Ew) as [_ Ho]. rewrite take_ge in Ho by done. rewrite decide_True by done.
  rewrite length_take. replace (Nat.min k (length (s_rest src))) with k by lia.
  destruct (IH (S n - k)%nat w1 (mkSource (drop k (s_rest src)) bursts (s_err src))) as (w' & src' & -> & Ho' & Hs');
    [lia|cbn; rewrite length_drop; lia|]. exists w', src'. split; [done|]. cbn in *. split.
  - rewrite Ho', Ho, <- app_assoc. f_equal. rewrite <- (take_drop k (take (S n) (s_rest src))).
    rewrite take_take, take_drop_commute, Nat.min_l by lia. by replace (k + (S n - k))%nat with (S n) by lia.
  - rewrite Hs', drop_drop. f_equal. lia.
Qed.

Lemma header_loop_complete hs blank rest fuel hb cl seen n w src :
  reliable → (length hs < fuel)%nat → Forall (λ h, is_line h ∧ is_blank h = false) hs → is_blank blank = true →
  declared_from cl seen hs = Some n → s_rest src = concat hs ++ blank ++ rest → 0 ≤ hb →
  hb + Z.of_nat (length (concat hs ++ blank)) ≤ maxRTSPHeaderBytes →
  ∃ w' src', header_loop fuel hb cl seen w src = (w', src', inr n) ∧ w_out w' = w_out w ++ concat hs ++ blank ∧
    s_rest src' = rest.
Proof.
  intros Hrel. revert fuel hb cl seen w src. induction hs as [|h hs IH]; intros fuel hb cl seen w src Hf Hh Hb Hd Hs H0 Hmax;
    (destruct fuel as [|fuel]; [lia|]); cbn [header_loop concat app] in *.
  - rewrite (readRTSPLine_app blank rest) by (done || (apply is_blank_line; done) || lia).
    rewrite decide_False by lia. destruct (writeAll_reliable blank w Hrel) as (w' & -> & Ho). rewrite Hb.
    exists w', (src <| s_rest := rest |>). split_and!; [|done..]. unfold declared_from in Hd. cbn in Hd.
    by destruct seen; simplify_eq.
  - inversion_clear Hh as [|? ? [Hl Hnb] Hh']. rewrite <- !app_assoc in *. rewrite !length_app in Hmax.
    rewrite (readRTSPLine_app h (concat hs ++ blank ++ rest)) by (done || lia). rewrite decide_False by lia.
    destruct (writeAll_reliable h w Hrel) as (w1 & -> & Ho). rewrite Hnb.
    assert (∀ cl1 seen1, declared_from cl1 seen1 hs = Some n → ∃ w' src',
      header_loop fuel (hb + Z.of_nat (length h)) cl1 seen1 w1 (src <| s_rest := concat hs ++ blank ++ rest |>) =
        (w', src', inr n) ∧ w_out w' = w_out w ++ h ++ concat hs ++ blank ∧ s_rest src' = rest) as Hgo.
    { intros cl1 seen1 Hd1. destruct (IH fuel (hb + Z.of_nat (length h)) cl1 seen1 w1
        (src <| s_rest := concat hs ++ blank ++ rest |>)) as (w' & src' & -> & Ho' & Hs'); try done; try lia.
      { simpl in Hf. lia. } { rewrite length_app. lia. }
      exists w', src'. split_and!; [done| |done]. by rewrite Ho', Ho, <- app_assoc. }
    rewrite declared_from_cons in Hd. destruct (content_length h) as [v|]; [|by apply Hgo].
    destruct seen; [done|]. destruct v as [m|]; [|done]. by apply Hgo.
Qed.
End Written.
