(* ===== verification/RtspThm.v ===== *)
(** * The RTSP proxy: theorems

    Framing and forwarding of messages, and of the whole negotiation. *)

From Stdlib Require Import ZArith Lia Strings.Byte.
From S2P Require Import Prelude GoStrings GoText Rtsp.

Section Copy.
Context {W : Type} `{!ByteWriter W}.
Implicit Types (w : W) (src : Source).

Lemma length_concat_lines hs : Forall (λ h, is_line h ∧ is_blank h = false) hs → (length hs ≤ length (concat hs))%nat.
Proof.
  induction 1 as [|h hs [Hl _] _ IH]; [done|]. cbn. rewrite length_app. apply is_line_length in Hl. lia.
Qed.

Lemma declared_from_nonneg hs n : declared_from 0 false hs = Some n → 0 ≤ n.
Proof.
  unfold declared_from. destruct (omap content_length hs) as [|[m|] [|]] eqn:E; intros [= <-]; [done|].
  assert (Some m ∈ omap content_length hs) as (h & _ & Hc)%list_elem_of_omap by (rewrite E; left).
  unfold content_length in Hc. repeat case_match; simplify_eq. lia.
Qed.

(** What [copyRTSPMessage] has taken and written, whatever it returns. *)
Lemma copy_spec w src w' src' r :
  copyRTSPMessage w src = (w', src', r) →
  match r with
  | inr line => ∃ start headers blank body, rtsp_message start headers blank body ∧ line = TrimSpace start ∧
      s_rest src = render start headers blank body ++ s_rest src' ∧
      w_out w' = w_out w ++ render start headers blank body
  | inl e => e ≠ OutOfFuel ∧
      ∃ sent consumed, s_rest src = consumed ++ s_rest src' ∧ sent `prefix_of` consumed ∧ w_out w' = w_out w ++ sent
  end.
Proof.
  unfold copyRTSPMessage. destruct (readRTSPLine src) as [src1 [e1|start]] eqn:Er.
  { intros [= <- <- <-]. apply readRTSPLine_Err in Er as [He (consumed & Hc)]. split; [done|].
    exists [], consumed. split_and!; [done|apply prefix_nil|by rewrite app_nil_r]. }
  apply readRTSPLine_Ok in Er as (Hsrc & Hline & Hlen).
  destruct (writeAll start w) as [w1 e1] eqn:Ew. apply writeAll_spec in Ew as (sent1 & Ho1 & Hp1 & Hall).
  destruct e1 as [e1|]; [intros [= <- <- <-]; split; [done|]; by exists sent1, start|]. rewrite (Hall eq_refl) in Ho1.
  destruct (header_loop _ _ _ _ w1 src1) as [[w2 src2] r2] eqn:Eh.
  apply header_loop_spec in Eh as (sent2 & consumed2 & Ho2 & Hs2 & Hp2 & Hr2); [|lia].
  assert (∀ e, e ≠ OutOfFuel → e ≠ OutOfFuel ∧ ∃ sent consumed, s_rest src = consumed ++ s_rest src2 ∧
    sent `prefix_of` consumed ∧ w_out w2 = w_out w ++ sent) as Herr.
  { intros e He. split; [done|]. exists (start ++ sent2), (start ++ consumed2). split_and!.
    - by rewrite Hsrc, Hs2, app_assoc.
    - by apply prefix_app.
    - by rewrite Ho2, Ho1, app_assoc. }
  destruct r2 as [e2|n]; [intros [= <- <- <-]; by apply Herr|].
  destruct Hr2 as (-> & hs & blank & -> & Hh & Hb & Hd & Hmax).
  assert (∀ body, Z.of_nat (length body) ≤ 1048576 → n = Z.of_nat (length body) → rtsp_message start hs blank body) as Hmsg.
  { intros body Hbody ->. constructor; try done. rewrite length_app. change maxRTSPHeaderBytes with 65536 in Hmax. lia. }
  case_decide as Hn.
  - case_decide as Hbig; [intros [= <- <- <-]; by apply Herr|]. change maxRTSPBodyBytes with 1048576 in Hbig.
    destruct (CopyN _ _ w2 src2) as [[w3 src3] e3] eqn:Ec.
    apply CopyN_spec in Ec as (sent3 & body & Ho3 & Hs3 & Hp3 & Hall3); [|done].
    destruct e3 as [e3|]; intros [= <- <- <-].
    + split; [done|]. exists (start ++ (concat hs ++ blank) ++ sent3), (start ++ (concat hs ++ blank) ++ body). split_and!.
      * by rewrite Hsrc, Hs2, Hs3, <- !app_assoc.
      * by apply prefix_app, prefix_app.
      * by rewrite Ho3, Ho2, Ho1, <- !app_assoc.
    + destruct (Hall3 eq_refl) as [-> Hl]. exists start, hs, blank, body. split_and!; [apply Hmsg; lia|done|..].
      * unfold render. by rewrite Hsrc, Hs2, Hs3, <- !app_assoc.
      * unfold render. by rewrite Ho3, Ho2, Ho1, <- !app_assoc.
  - intros [= <- <- <-]. exists start, hs, blank, []. split_and!.
    + apply Hmsg; [simpl; lia|]. simpl.
      pose proof (declared_from_nonneg _ _ Hd). lia.
    + done.
    + unfold render. rewrite app_nil_r. by rewrite Hsrc, Hs2, <- !app_assoc.
    + unfold render. rewrite app_nil_r. by rewrite Ho2, Ho1, <- !app_assoc.
Qed.

(** C14. [copyRTSPMessage] forwards one message and nothing else: when it
    succeeds, what it took from the reader is exactly one RTSP message within the
    limits (64 KiB of head, 1 MiB of body, at most one valid Content-Length), all of
    it and only it has been written, in order, and the result is the start line; when
    it fails, what it has written is a prefix of what it took.  It always returns. *)
Theorem rtsp_copy_exact w src :
  let '(w', src', r) := copyRTSPMessage w src in
  match r with
  | inr line => ∃ start headers blank body, rtsp_message start headers blank body ∧ line = TrimSpace start ∧
      s_rest src = render start headers blank body ++ s_rest src' ∧
      w_out w' = w_out w ++ render start headers blank body
  | inl e => e ≠ OutOfFuel ∧
      ∃ sent consumed, s_rest src = consumed ++ s_rest src' ∧ sent `prefix_of` consumed ∧ w_out w' = w_out w ++ sent
  end.
Proof. destruct (copyRTSPMessage w src) as [[w' src'] r] eqn:E. by apply copy_spec in E. Qed.

(** C29. Every RTSP message within the limits is accepted: if the reader
    starts with one and the writer takes what it is given, [copyRTSPMessage] forwards
    it, leaves the reader exactly behind it, and returns its start line, however the
    bytes arrive. *)
Theorem rtsp_copy_complete w src start headers blank body rest :
  reliable (W:=W) → rtsp_message start headers blank body → s_rest src = render start headers blank body ++ rest →
  ∃ w' src', copyRTSPMessage w src = (w', src', inr (TrimSpace start)) ∧
    w_out w' = w_out w ++ render start headers blank body ∧ s_rest src' = rest.
Proof.
  intros Hrel [Hs Hh Hb Hd Hhead Hbody] Hsrc. unfold render in *. rewrite <- !app_assoc in Hsrc. unfold copyRTSPMessage.
  rewrite !length_app in Hhead.
  rewrite (readRTSPLine_app start (concat headers ++ blank ++ body ++ rest))
    by (done || (change maxRTSPHeaderBytes with 65536; lia)).
  destruct (writeAll_reliable start w Hrel) as (w1 & -> & Ho1). cbn [s_rest].
  pose proof (length_concat_lines headers Hh) as Hhs.
  destruct (header_loop_complete headers blank (body ++ rest) (S (length (concat headers ++ blank ++ body ++ rest)))
    (Z.of_nat (length start)) 0 false (Z.of_nat (length body)) w1
    (src <| s_rest := concat headers ++ blank ++ body ++ rest |>)) as (w2 & src2 & E2 & Ho2 & Hs2); try done; try lia.
  { rewrite length_app. lia. } { rewrite length_app. change maxRTSPHeaderBytes with 65536. lia. }
  cbn in E2 |- *. rewrite E2. case_decide as Hn.
  - rewrite decide_False by (change maxRTSPBodyBytes with 1048576; lia). rewrite Nat2Z.id.
    destruct (CopyN_reliable (length body) (length body) w2 src2 Hrel) as (w3 & src3 & -> & Ho3 & Hs3);
      [done|rewrite Hs2, length_app; lia|]. exists w3, src3. split; [done|].
    rewrite Hs2 in Ho3, Hs3. rewrite take_app_length in Ho3. rewrite drop_app_length in Hs3. split; [|done].
    by rewrite Ho3, Ho2, Ho1, <- !app_assoc.
  - destruct body; [|simpl in Hn; lia]. exists w2, src2. split_and!; [done| |done].
    by rewrite Ho2, Ho1, app_nil_r, <- !app_assoc.
Qed.
End Copy.

(** ** The negotiation *)

Record Message := mkMsg { m_start : bytes; m_headers : list bytes; m_blank : bytes; m_body : bytes }.
Definition msg_ok (m : Message) : Prop := rtsp_message (m_start m) (m_headers m) (m_blank m) (m_body m).
Definition msg_bytes (m : Message) : bytes := render (m_start m) (m_headers m) (m_blank m) (m_body m).
Definition msg_line (m : Message) : bytes := TrimSpace (m_start m).

(** A response that accepts the start of the media: the request's first word is PLAY or
    RECORD, in whatever case, and the response's second word, the status, is 2xx. *)
Definition accepts_media (req resp : bytes) : Prop :=
  ∃ method words version code words', Fields req = method :: words ∧ Fields resp = version :: code :: words' ∧
    ToUpper method ∈ [lit "PLAY"; lit "RECORD"] ∧ head code = Some x32.

Lemma negotiationFinished_iff req resp : negotiationFinished req resp = true ↔ accepts_media req resp.
Proof.
  unfold negotiationFinished, accepts_media. split.
  - destruct (Fields req) as [|method words]; [done|]. destruct (Fields resp) as [|version [|code words']]; [done..|].
    intros [Hm%bool_decide_eq_true Hc]%andb_true_iff. exists method, words, version, code, words'. split_and!; [done..| |].
    + rewrite !elem_of_cons. destruct Hm; auto.
    + destruct code as [|[] code]; try done.
  - intros (method & words & version & code & words' & -> & -> & Hm & Hc). apply andb_true_iff. split.
    + apply bool_decide_eq_true. rewrite !elem_of_cons in Hm. by destruct Hm as [?|[?|?%elem_of_nil]]; auto.
    + destruct code as [|c code]; [done|]. by injection Hc as ->.
Qed.

(** The device answers every request in turn; the first answer that accepts a PLAY or
    a RECORD is the last one. *)
Inductive negotiates : bytes → list Message → list Message → Prop :=
| neg_done req resp : accepts_media req (msg_line resp) → negotiates req [resp] []
| neg_next req resp resps req' reqs : ¬ accepts_media req (msg_line resp) →
    negotiates (msg_line req') resps reqs → negotiates req (resp :: resps) (req' :: reqs).

Section Negotiation.
Context {U D : Type} `{!ByteWriter U, !ByteWriter D}.
Implicit Types (p : Proxy (U:=U) (D:=D)).

(** From [p] to [p'] the proxy took [cu] and [cd] and wrote [su] and [sd]. *)
Record moved p p' (su cu sd cd : bytes) : Prop := mkMoved {
  mv_up : s_rest (p_upstreamReader p) = cu ++ s_rest (p_upstreamReader p');
  mv_dev : s_rest (p_deviceReader p) = cd ++ s_rest (p_deviceReader p');
  mv_to_dev : w_out (p_device p') = w_out (p_device p) ++ su;
  mv_to_up : w_out (p_upstream p') = w_out (p_upstream p) ++ sd }.

Lemma moved_trans p1 p2 p3 su cu sd cd su' cu' sd' cd' :
  moved p1 p2 su cu sd cd → moved p2 p3 su' cu' sd' cd' → moved p1 p3 (su ++ su') (cu ++ cu') (sd ++ sd') (cd ++ cd').
Proof.
  intros [A1 A2 A3 A4] [B1 B2 B3 B4]. constructor.
  - by rewrite A1, B1, app_assoc.
  - by rewrite A2, B2, app_assoc.
  - by rewrite B3, A3, app_assoc.
  - by rewrite B4, A4, app_assoc.
Qed.

Definition proxied (requestLine : bytes) p p' (r : ProxyResult) : Prop :=
  ∃ su cu sd cd, moved p p' su cu sd cd ∧ su `prefix_of` cu ∧ sd `prefix_of` cd ∧
    match r with
    | ProxyErr e => e ≠ OutOfFuel ∧ p_finished p' = p_finished p
    | ProxyFuel => False
    | ProxyCopyBoth => p_finished p' = S (p_finished p) ∧
        ∃ resps reqs, Forall msg_ok resps ∧ Forall msg_ok reqs ∧ negotiates requestLine resps reqs ∧
          sd = concat (msg_bytes <$> resps) ∧ cd = sd ∧ su = concat (msg_bytes <$> reqs) ∧ cu = su
    end.

Lemma proxy_loop_spec fuel requestLine p p' r :
  (length (s_rest (p_deviceReader p)) < fuel)%nat → proxy_loop fuel requestLine p = (p', r) →
  proxied requestLine p p' r.
Proof.
  revert requestLine p. induction fuel as [|fuel IH]; intros rl p Hf E; [lia|]. cbn [proxy_loop] in E.
  destruct (copyRTSPMessage (p_upstream p) (p_deviceReader p)) as [[w1 src1] r1] eqn:E1. apply copy_spec in E1.
  destruct r1 as [e1|respLine].
  { simplify_eq. destruct E1 as (He & sent & consumed & Hs & Hp & Ho). exists [], [], sent, consumed.
    split_and!; [constructor; cbn; by rewrite ?app_nil_r|apply prefix_nil|done|done..]. }
  destruct E1 as (start & headers & blank & body & Hmsg & -> & Hs & Ho).
  set (resp := mkMsg start headers blank body). change (TrimSpace start) with (msg_line resp) in E.
  destruct (negotiationFinished rl (msg_line resp)) eqn:En.
  { apply negotiationFinished_iff in En. simplify_eq. exists [], [], (msg_bytes resp), (msg_bytes resp).
    split_and!; [constructor; cbn; by rewrite ?app_nil_r|apply prefix_nil|done|done|].
    exists [resp], []. split_and!; [by constructor|by constructor|by constructor|cbn; by rewrite app_nil_r|done..]. }
  assert (¬ accepts_media rl (msg_line resp)) as Hno by (rewrite <- negotiationFinished_iff; congruence).
  cbn in E. destruct (copyRTSPMessage (p_device p) (p_upstreamReader p)) as [[w2 src2] r2] eqn:E2. apply copy_spec in E2.
  destruct r2 as [e2|reqLine].
  { simplify_eq. destruct E2 as (He & sent & consumed & Hs2 & Hp & Ho2).
    exists sent, consumed, (msg_bytes resp), (msg_bytes resp). split_and!; [by constructor|done..]. }
  destruct E2 as (start2 & headers2 & blank2 & body2 & Hmsg2 & -> & Hs2 & Ho2).
  set (req := mkMsg start2 headers2 blank2 body2). change (TrimSpace start2) with (msg_line req) in E.
  apply IH in E as (su & cu & sd & cd & Hmv & Hpu & Hpd & Hr).
  2: { cbn. rewrite Hs in Hf. unfold render in Hf. rewrite !length_app in Hf.
       pose proof (is_line_length _ (msg_start _ _ _ _ Hmsg)). lia. }
  exists (msg_bytes req ++ su), (msg_bytes req ++ cu), (msg_bytes resp ++ sd), (msg_bytes resp ++ cd). split_and!.
  - eapply moved_trans; [|exact Hmv]. by constructor.
  - by apply prefix_app.
  - by apply prefix_app.
  - destruct r as [e| |]; [done| |done]. destruct Hr as (Hfin & resps & reqs & Hok1 & Hok2 & Hneg & -> & -> & -> & ->).
    split; [done|]. exists (resp :: resps), (req :: reqs).
    split_and!; [by constructor|by constructor|by constructor|done..].
Qed.

(** What [proxyRTSP] has moved when it returns or goes over to [copyBoth]. *)
Lemma proxyRTSP_spec firstRequest requestLine p p' r :
  proxyRTSP firstRequest requestLine p = (p', r) →
  ∃ su cu sd cd, moved p p' su cu sd cd ∧ su `prefix_of` firstRequest ++ cu ∧ sd `prefix_of` cd ∧
    match r with
    | ProxyErr e => e ≠ OutOfFuel ∧ p_finished p' = p_finished p
    | ProxyFuel => False
    | ProxyCopyBoth => p_finished p' = S (p_finished p) ∧
        ∃ resps reqs, Forall msg_ok resps ∧ Forall msg_ok reqs ∧ negotiates requestLine resps reqs ∧
          cd = concat (msg_bytes <$> resps) ∧ sd = cd ∧ cu = concat (msg_bytes <$> reqs) ∧ su = firstRequest ++ cu
    end.
Proof.
  unfold proxyRTSP. intros E.
  destruct (writeAll firstRequest (p_device p)) as [w1 e1] eqn:Ew. apply writeAll_spec in Ew as (sent & Ho & Hp & Hall).
  destruct e1 as [e1|].
  { simplify_eq. exists sent, [], [], []. split_and!; [constructor; cbn; by rewrite ?app_nil_r|by rewrite app_nil_r|done..]. }
  rewrite (Hall eq_refl) in Ho. apply proxy_loop_spec in E as (su & cu & sd & cd & [M1 M2 M3 M4] & Hpu & Hpd & Hr); [|cbn; lia].
  exists (firstRequest ++ su), cu, sd, cd. split_and!; [|by apply prefix_app|done|].
  - constructor; [done..| |done]. cbn in M3. by rewrite M3, Ho, app_assoc.
  - destruct r as [e| |]; [done| |done]. destruct Hr as (Hfin & resps & reqs & Hok1 & Hok2 & Hneg & -> & -> & -> & ->).
    split; [done|]. by exists resps, reqs.
Qed.

(** C7. The proxy is transparent and stops at the right moment.  Whatever
    arrives in whatever pieces and whichever writes fail: the device has been sent a
    prefix of the first request followed by what was taken from the client, the
    client a prefix of what was taken from the device.  If the proxy goes over to
    copying freely, then requests and responses alternated, every one was a message
    within the limits and was forwarded whole, the last response is the first one
    that answers a PLAY or RECORD with a status 2xx, and [finishNegotiation] has been called exactly
    once; otherwise it has not been called.  The loop always ends. *)
Theorem proxy_transparent firstRequest requestLine p :
  let '(p', r) := proxyRTSP firstRequest requestLine p in
  ∃ su cu sd cd, moved p p' su cu sd cd ∧ su `prefix_of` firstRequest ++ cu ∧ sd `prefix_of` cd ∧
    match r with
    | ProxyErr e => e ≠ OutOfFuel ∧ p_finished p' = p_finished p
    | ProxyFuel => False
    | ProxyCopyBoth => p_finished p' = S (p_finished p) ∧
        ∃ resps reqs, Forall msg_ok resps ∧ Forall msg_ok reqs ∧ negotiates requestLine resps reqs ∧
          cd = concat (msg_bytes <$> resps) ∧ sd = cd ∧ cu = concat (msg_bytes <$> reqs) ∧ su = firstRequest ++ cu
    end.
Proof. destruct (proxyRTSP firstRequest requestLine p) as [p' r] eqn:E. by eapply proxyRTSP_spec. Qed.
End Negotiation.

(** ** Witness *)

(** [bytes.Buffer], into which the first request is read. *)
Record Buffer := mkBuffer { buf : bytes }.

#[export] Program Instance Buffer_writer : ByteWriter Buffer :=
  {| Write data b := (mkBuffer (buf b ++ data), length data, None); w_out := buf |}.
Next Obligation. intros data b w' n e [= <- <- <-]. by rewrite take_ge. Qed.

Definition demo_start : bytes := lit "ANNOUNCE rtsp://x RTSP/1.0" ++ [CR; LF].
Definition demo_headers : list bytes := [lit "CSeq: 1" ++ [CR; LF]; lit "content-LENGTH : 2" ++ [LF]].

Lemma demo_line s : bool_decide (LF ∈ s) = false → is_line (s ++ [LF]).
Proof. intros H. exists s. split; [done|]. by apply bool_decide_eq_false in H. Qed.

(** Two bytes of body, arriving one by one, and more to come. *)
Lemma rtsp_copy_complete_witness :
  declared demo_headers = Some 2 ∧
  ∃ w' src', copyRTSPMessage (mkBuffer []) (mkSource (render demo_start demo_headers [CR; LF] (lit "hi") ++ lit "PLAY") [0; 0]%nat EOF)
    = (w', src', inr (TrimSpace demo_start)) ∧
    w_out w' = w_out (mkBuffer []) ++ render demo_start demo_headers [CR; LF] (lit "hi") ∧ s_rest src' = lit "PLAY".
Proof.
  split; [vm_compute; reflexivity|].
  apply (rtsp_copy_complete (mkBuffer []) _ demo_start demo_headers [CR; LF] (lit "hi") (lit "PLAY")).
  - intros data w. eexists. reflexivity.
  - constructor.
    + apply (demo_line (lit "ANNOUNCE rtsp://x RTSP/1.0" ++ [CR])). vm_compute. reflexivity.
    + repeat constructor; try (vm_compute; reflexivity).
      * apply (demo_line (lit "CSeq: 1" ++ [CR])). vm_compute. reflexivity.
      * apply (demo_line (lit "content-LENGTH : 2")). vm_compute. reflexivity.
    + vm_compute. reflexivity.
    + vm_compute. reflexivity.
    + vm_compute. discriminate.
    + vm_compute. discriminate.
  - reflexivity.
Defined.

(** An OPTIONS and a PLAY; the second request and the media arrive early. *)
Definition demo_options : bytes := lit "OPTIONS rtsp://x RTSP/1.0" ++ [CR; LF; CR; LF].
Definition demo_play : bytes := lit "play rtsp://x RTSP/1.0" ++ [CR; LF; CR; LF].
Definition demo_ok : bytes := lit "RTSP/1.0 200 OK" ++ [CR; LF; CR; LF].

Definition demo_proxy : Proxy (U:=Buffer) (D:=Buffer) :=
  mkProxy (mkBuffer []) (mkBuffer []) (mkSource (demo_play ++ lit "TEARDOWN") [] EOF)
    (mkSource (demo_ok ++ demo_ok ++ lit "media") [5; 0; 40]%nat EOF) 0.

Lemma proxy_transparent_witness : ∃ p',
  proxyRTSP demo_options (lit "OPTIONS rtsp://x RTSP/1.0") demo_proxy = (p', ProxyCopyBoth) ∧
  p_finished p' = 1%nat ∧ buf (p_device p') = demo_options ++ demo_play ∧ buf (p_upstream p') = demo_ok ++ demo_ok ∧
  ∃ resps reqs, negotiates (lit "OPTIONS rtsp://x RTSP/1.0") resps reqs ∧
    demo_ok ++ demo_ok = concat (msg_bytes <$> resps) ∧ demo_play = concat (msg_bytes <$> reqs).
Proof.
  pose proof (proxy_transparent demo_options (lit "OPTIONS rtsp://x RTSP/1.0") demo_proxy) as H.
  destruct (proxyRTSP demo_options (lit "OPTIONS rtsp://x RTSP/1.0") demo_proxy) as [p' r] eqn:E.
  vm_compute in E. injection E as <- <-. eexists. split; [reflexivity|].
  destruct H as (su & cu & sd & cd & [M1 M2 M3 M4] & _ & _ & Hf & resps & reqs & _ & _ & Hn & Hd & -> & Hu & ->).
  split; [exact Hf|]. split; [vm_compute; reflexivity|]. split; [vm_compute; reflexivity|].
  exists resps, reqs. split; [exact Hn|]. rewrite <- Hd, <- Hu. cbn in M3, M4. split.
  - exact M4.
  - apply (inj (app demo_options)). exact M3.
Defined.
