(* ===== verification/CopyBoth.v ===== *)
(** * Copying both ways

    [copyBoth] of [src/cmd/dahua-p2p/proxy.go], which [proxyRTSP] ends in: two
    goroutines copy, the caller waits for the first of them to finish, closes both
    connections and returns its error.

    A goroutine is a program counter.  [io.Copy] alternates a [Read] of whatever is
    there and a [Write] of all of it; the sizes of the reads, the moments at which
    reads and writes return and the errors of the peers are left open.  The readers are
    the [Source]s that [proxyRTSP] leaves behind, with what they have buffered. *)

From Stdlib Require Import ZArith Lia Strings.Byte.
From S2P Require Import Prelude GoStrings GoText Rtsp RtspThm.

(** The connection; also the goroutine that reads from it and writes to the other. *)
Inductive Side := Up | Dev.
#[global] Instance Side_eq_dec : EqDecision Side.
Proof. solve_decision. Defined.

Definition other (s : Side) : Side := match s with Up => Dev | Dev => Up end.

Inductive Pump :=
| PRead
| PWrite (chunk : bytes)
| PSend (err : option IOError)   (* errors <- err *)
| PDone (err : option IOError).

(** One direction: its reader, its goroutine, and what the other connection was sent. *)
Record Dir := mkDir { d_src : Source; d_pump : Pump; d_out : bytes }.

Inductive CopyPC :=
| CRecv                          (* err := <-errors *)
| CCloseUp (err : option IOError) | CCloseDev (err : option IOError)
| CRet (err : option IOError).

Record Both := mkBoth {
  cb_up : Dir; cb_dev : Dir;
  cb_errors : list (option IOError);   (* the channel, of capacity 2 *)
  cb_main : CopyPC;
  cb_hung : list Side }.               (* closed from elsewhere, by [shutdown] *)

Definition hung (s : Side) (st : Both) : bool := bool_decide (s ∈ cb_hung st).

Definition dir (s : Side) (st : Both) : Dir := match s with Up => cb_up st | Dev => cb_dev st end.
Definition set_dir (s : Side) (d : Dir) (st : Both) : Both :=
  match s with Up => st <| cb_up := d |> | Dev => st <| cb_dev := d |> end.

(** Whether the connection has been closed on this side. *)
Definition closed (s : Side) (st : Both) : bool :=
  hung s st || match cb_main st, s with CCloseDev _, Up | CRet _, _ => true | _, _ => false end.

(** [io.Copy] does not report the end of its source. *)
Definition read_err (e : IOError) : option IOError := match e with EOF => None | _ => Some e end.

Inductive CbEvent :=
| CvRead (s : Side) (n : nat)                  (* [n] bytes are there *)
| CvEnd (s : Side)                             (* the source has ended *)
| CvReadClosed (s : Side) (e : IOError)        (* the connection was closed on this side *)
| CvWrite (s : Side)
| CvWriteErr (s : Side) (n : nat) (e : IOError)  (* after [n] bytes *)
| CvSend (s : Side)
| CvMain
| CvHangUp (s : Side).

(** [io.Copy] and the send that follows, one step of the goroutine that reads from [s]. *)
Definition pump_step (ev : CbEvent) (s : Side) (st : Both) : option Both :=
  let d := dir s st in
  match ev, d_pump d with
  | CvRead _ n, PRead =>
      if decide (0 < n ≤ length (s_rest (d_src d)))%nat then
        Some (set_dir s (d <| d_pump := PWrite (take n (s_rest (d_src d))) |>
                           <| d_src := (d_src d) <| s_rest := drop n (s_rest (d_src d)) |> |>) st)
      else None
  | CvEnd _, PRead =>
      if decide (s_rest (d_src d) = []) then Some (set_dir s (d <| d_pump := PSend (read_err (s_err (d_src d))) |>) st)
      else None
  | CvReadClosed _ e, PRead =>
      if closed s st then Some (set_dir s (d <| d_pump := PSend (read_err e) |>) st) else None
  | CvWrite _, PWrite chunk =>
      if closed (other s) st then None
      else Some (set_dir s (d <| d_pump := PRead |> <| d_out := d_out d ++ chunk |>) st)
  | CvWriteErr _ n e, PWrite chunk =>
      Some (set_dir s (d <| d_pump := PSend (Some e) |> <| d_out := d_out d ++ take n chunk |>) st)
  | CvSend _, PSend err =>
      if decide (length (cb_errors st) < 2)%nat then
        Some ((set_dir s (d <| d_pump := PDone err |>) st) <| cb_errors := cb_errors st ++ [err] |>)
      else None
  | _, _ => None
  end.

(** One step of [copyBoth] itself. *)
Definition main_step (st : Both) : option Both :=
  match cb_main st with
  | CRecv =>
      match cb_errors st with
      | err :: errs => Some (st <| cb_errors := errs |> <| cb_main := CCloseUp err |>)
      | [] => None
      end
  | CCloseUp err => Some (st <| cb_main := CCloseDev err |>)
  | CCloseDev err => Some (st <| cb_main := CRet err |>)
  | CRet _ => None
  end.

Definition ev_side (ev : CbEvent) : option Side :=
  match ev with
  | CvRead s _ | CvEnd s | CvReadClosed s _ | CvWrite s | CvWriteErr s _ _ | CvSend s => Some s
  | CvMain | CvHangUp _ => None
  end.

Definition cb_step (ev : CbEvent) (st : Both) : option Both :=
  match ev_side ev, ev with
  | Some s, _ => pump_step ev s st
  | None, CvHangUp s => Some (st <| cb_hung := s :: cb_hung st |>)
  | None, _ => main_step st
  end.

Fixpoint cb_run (evs : list CbEvent) (st : Both) : option Both :=
  match evs with
  | [] => Some st
  | ev :: evs => st ← cb_step ev st; cb_run evs st
  end.

(** Where [proxyRTSP] calls [copyBoth]. *)
Definition copyBoth {U D} `{!ByteWriter U, !ByteWriter D} (p : Proxy (U:=U) (D:=D)) : Both :=
  mkBoth (mkDir (p_upstreamReader p) PRead (w_out (p_device p)))
         (mkDir (p_deviceReader p) PRead (w_out (p_upstream p))) [] CRecv [].

(** ** Steps *)

Lemma dir_set s d st : dir s (set_dir s d st) = d.
Proof. by destruct s. Qed.

Lemma dir_set_other s s' d st : s ≠ s' → dir s' (set_dir s d st) = dir s' st.
Proof. by destruct s, s'. Qed.

(** What a step of a goroutine changes in its direction, and what it puts in the channel. *)
Inductive pumped (st : Both) (s : Side) : Dir → list (option IOError) → Prop :=
| pd_read n : d_pump (dir s st) = PRead → (0 < n ≤ length (s_rest (d_src (dir s st))))%nat →
    pumped st s (mkDir ((d_src (dir s st)) <| s_rest := drop n (s_rest (d_src (dir s st))) |>)
                       (PWrite (take n (s_rest (d_src (dir s st))))) (d_out (dir s st))) []
| pd_end : d_pump (dir s st) = PRead → s_rest (d_src (dir s st)) = [] →
    pumped st s (mkDir (d_src (dir s st)) (PSend (read_err (s_err (d_src (dir s st))))) (d_out (dir s st))) []
| pd_closed e : d_pump (dir s st) = PRead → closed s st = true →
    pumped st s (mkDir (d_src (dir s st)) (PSend (read_err e)) (d_out (dir s st))) []
| pd_write chunk : d_pump (dir s st) = PWrite chunk → closed (other s) st = false →
    pumped st s (mkDir (d_src (dir s st)) PRead (d_out (dir s st) ++ chunk)) []
| pd_fail chunk n e : d_pump (dir s st) = PWrite chunk →
    pumped st s (mkDir (d_src (dir s st)) (PSend (Some e)) (d_out (dir s st) ++ take n chunk)) []
| pd_send err : d_pump (dir s st) = PSend err → (length (cb_errors st) < 2)%nat →
    pumped st s (mkDir (d_src (dir s st)) (PDone err) (d_out (dir s st))) [err].

Lemma pump_step_inv ev s st st' :
  pump_step ev s st = Some st' →
  ∃ d errs, pumped st s d errs ∧ st' = (set_dir s d st) <| cb_errors := cb_errors st ++ errs |>.
Proof.
  unfold pump_step. intros E.
  assert (∀ d, pumped st s d [] → Some (set_dir s d st) = Some st' →
    ∃ d errs, pumped st s d errs ∧ st' = (set_dir s d st) <| cb_errors := cb_errors st ++ errs |>) as Hnil.
  { intros d Hd [= <-]. exists d, []. split; [done|]. rewrite app_nil_r. by destruct s, st. }
  destruct ev, (d_pump (dir s st)) eqn:Ep; try done; try case_decide; try done; try (by destruct (closed _ st) eqn:?).
  all: try (eapply Hnil; [|exact E]; by econstructor).
  - destruct (closed s st) eqn:Hc; [|done]. eapply Hnil; [|exact E]. by constructor.
  - destruct (closed (other s) st) eqn:Hc; [done|]. eapply Hnil; [|exact E]. by econstructor.
  - injection E as <-. eexists _, [err]. split; [by econstructor|]. done.
Qed.

Lemma cb_step_inv ev st st' :
  cb_step ev st = Some st' →
  (∃ s d errs, ev_side ev = Some s ∧ pumped st s d errs ∧ st' = (set_dir s d st) <| cb_errors := cb_errors st ++ errs |>) ∨
  (∃ s, ev = CvHangUp s ∧ st' = st <| cb_hung := s :: cb_hung st |>) ∨
  (ev = CvMain ∧ main_step st = Some st').
Proof.
  unfold cb_step. destruct (ev_side ev) as [s|] eqn:Es.
  - intros (d & errs & H)%pump_step_inv. left. by exists s, d, errs.
  - destruct ev; simplify_eq/=; [by auto|]. intros [= <-]. eauto.
Qed.

(** ** The bytes *)

(** [sent] of what was there has been written and [lost] read but not written. *)
Definition dir_ok (o0 r0 : bytes) (d : Dir) : Prop :=
  ∃ sent lost, d_out d = o0 ++ sent ∧ r0 = sent ++ lost ++ s_rest (d_src d) ∧
    match d_pump d with
    | PRead | PSend None | PDone None => lost = []
    | PWrite chunk => lost = chunk
    | _ => True
    end.

Lemma pumped_ok o0 r0 st s d errs : dir_ok o0 r0 (dir s st) → pumped st s d errs → dir_ok o0 r0 d.
Proof.
  intros (sent & lost & Ho & Hr & Hl) Hd. destruct Hd as [n Hp Hn|Hp Hn|e Hp Hc|chunk Hp Hc|chunk n e Hp|err Hp Hlen];
    rewrite Hp in Hl; subst; cbn in *.
  - exists sent, (take n (s_rest (d_src (dir s st)))). cbn. by rewrite take_drop.
  - exists sent, []. cbn. by destruct (read_err _).
  - exists sent, []. cbn. by destruct (read_err _).
  - exists (sent ++ chunk), []. cbn. by rewrite Ho, <- !app_assoc.
  - exists (sent ++ take n chunk), (drop n chunk). cbn. split_and!; [by rewrite Ho, app_assoc| |done].
    rewrite <- app_assoc, (app_assoc (take n chunk)). by rewrite take_drop.
  - exists sent, lost. by destruct err; subst.
Qed.

Lemma dir_ok_step o0 r0 ev st st' s : cb_step ev st = Some st' → dir_ok o0 r0 (dir s st) → dir_ok o0 r0 (dir s st').
Proof.
  intros [(s1 & d & errs & _ & Hd & ->)|[(s1 & -> & ->)|[-> E]]]%cb_step_inv Hok.
  - destruct (decide (s1 = s)) as [->|Hn].
    + apply (pumped_ok _ _ _ _ d errs) in Hok; [|done]. by destruct s.
    + rewrite <- (dir_set_other s1 s d st Hn) in Hok. by destruct s.
  - by destruct s.
  - unfold main_step in E. repeat case_match; simplify_eq; by destruct s.
Qed.

(** ** The results *)

Definition outcome (d : Dir) : option (option IOError) :=
  match d_pump d with PSend r | PDone r => Some r | _ => None end.

Definition finished (d : Dir) : nat := match d_pump d with PDone _ => 1 | _ => 0 end.

(** No error is reported only where the source has ended, or [shutdown] has closed it. *)
Definition clean (s : Side) (st : Both) (r : option IOError) : Prop :=
  r = None → s_rest (d_src (dir s st)) = [] ∨ hung s st = true.

Definition answer (pc : CopyPC) : option (option IOError) :=
  match pc with CRecv => None | CCloseUp e | CCloseDev e | CRet e => Some e end.

Record cb_inv (st : Both) : Prop := mkCbInv {
  inv_count : (finished (cb_up st) + finished (cb_dev st) =
    length (cb_errors st) + match answer (cb_main st) with None => 0 | Some _ => 1 end)%nat;
  inv_result : match answer (cb_main st) with
    | None => (∀ s r, outcome (dir s st) = Some r → clean s st r) ∧
              Forall (λ r, ∃ s, d_pump (dir s st) = PDone r) (cb_errors st)
    | Some r => ∃ s, d_pump (dir s st) = PDone r ∧ clean s st r
    end }.

Lemma pumped_count st s d errs : pumped st s d errs →
  finished (dir s st) = 0%nat ∧ finished d = length errs ∧ ∀ r, r ∈ errs → d_pump d = PDone r.
Proof.
  unfold finished. intros []; rewrite H; cbn; (split_and!; [done..|]); intros r Hr;
    [by apply elem_of_nil in Hr..|by apply list_elem_of_singleton in Hr as ->].
Qed.

Lemma pumped_clean st s d errs r :
  answer (cb_main st) = None → (∀ r, outcome (dir s st) = Some r → clean s st r) → pumped st s d errs →
  outcome d = Some r → r = None → s_rest (d_src d) = [] ∨ hung s st = true.
Proof.
  intros Hm Hall Hd Hr ->. destruct Hd; cbn in *; simplify_eq; try by auto.
  - right. unfold closed in *. destruct (cb_main st); [|done..]. destruct s, (hung _ st); done.
  - apply (Hall None); [|done]. unfold outcome. by rewrite H.
Qed.

Lemma cb_inv_pump st s d errs : cb_inv st → pumped st s d errs →
  cb_inv ((set_dir s d st) <| cb_errors := cb_errors st ++ errs |>).
Proof.
  intros [Hc Hr] Hd. destruct (pumped_count _ _ _ _ Hd) as (Hf0 & Hf1 & Hdone).
  assert (∀ s' r, d_pump (dir s' st) = PDone r → s' ≠ s) as Hne.
  { intros s' r E ->. unfold finished in Hf0. by rewrite E in Hf0. }
  set (st' := _ <| cb_errors := _ |>).
  assert (dir s st' = d) as Es by (by destruct s).
  assert (∀ s', s ≠ s' → dir s' st' = dir s' st) as Eo by (intros s' Hn; by destruct s, s').
  assert (cb_main st' = cb_main st) as Em by (by destruct s).
  assert (∀ s' r, s ≠ s' → clean s' st r → clean s' st' r) as Hcl.
  { intros s' r Hn Hx ->. rewrite Eo by done. destruct (Hx eq_refl) as [?|Hh]; [by left|right; by destruct s]. }
  assert (∀ s' r, d_pump (dir s' st) = PDone r → d_pump (dir s' st') = PDone r) as Hpd.
  { intros s' r E. rewrite Eo; [done|]. by apply not_eq_sym, (Hne _ r). }
  constructor; rewrite Em.
  - assert (cb_errors st' = cb_errors st ++ errs) as -> by (by destruct s). rewrite length_app.
    destruct s; cbn in *; lia.
  - destruct (answer (cb_main st)) as [r|] eqn:Ea.
    + destruct Hr as (s' & E & Hx). exists s'. split; [by apply Hpd|]. apply Hcl; [|done]. by apply not_eq_sym, (Hne _ r).
    + destruct Hr as [Hall Hq]. split.
      * intros s' r E. destruct (decide (s = s')) as [<-|Hn].
        -- rewrite Es in E. intros E0. rewrite Es. replace (hung s st') with (hung s st) by (by destruct s).
           by eapply pumped_clean; [exact Ea|exact (Hall s)|exact Hd|exact E|].
        -- rewrite Eo in E by done. by apply Hcl, Hall.
      * assert (cb_errors st' = cb_errors st ++ errs) as -> by (by destruct s). apply Forall_app. split.
        -- eapply Forall_impl; [exact Hq|]. intros r (s' & E). exists s'. by apply Hpd.
        -- apply Forall_forall. intros r Hin. exists s. rewrite Es. by apply Hdone.
Qed.

Lemma cb_inv_step ev st st' : cb_inv st → cb_step ev st = Some st' → cb_inv st'.
Proof.
  intros Hi [(s & d & errs & _ & Hd & ->)|[(s & -> & ->)|[-> E]]]%cb_step_inv.
  - by apply cb_inv_pump.
  - destruct Hi as [Hc Hr]. set (st' := st <| cb_hung := _ |>).
    assert (∀ s' r, clean s' st r → clean s' st' r) as Hcl.
    { intros s' r Hx Hr0. destruct (Hx Hr0) as [?|Hh]; [left; by destruct s'|right].
      unfold hung in *. rewrite bool_decide_eq_true in *. by right. }
    constructor; [done|]. change (cb_main st') with (cb_main st). destruct (answer (cb_main st)) as [r|].
    + destruct Hr as (s' & E & Hx). exists s'. split; [by destruct s'|by apply Hcl].
    + destruct Hr as [Hall Hq]. split; [|exact Hq]. intros s' r E. apply Hcl, Hall. by destruct s'.
  - destruct Hi as [Hc Hr]. unfold main_step in E. destruct (cb_main st) eqn:Em; [|by simplify_eq..].
    destruct (cb_errors st) as [|r errs] eqn:Eq; simplify_eq. cbn in *. destruct Hr as [Hall Hq].
    apply Forall_cons in Hq as [(s & Es) _]. constructor; cbn; [lia|]. exists s. split; [by destruct s|].
    assert (clean s st r) as Hx by (apply Hall; unfold outcome; by rewrite Es). by destruct s.
Qed.

Lemma cb_run_ind (P : Both → Prop) evs st st' :
  (∀ ev st st', P st → cb_step ev st = Some st' → P st') → P st → cb_run evs st = Some st' → P st'.
Proof.
  intros Hs. revert st. induction evs as [|ev evs IH]; intros st Hp; cbn; [by intros [= <-]|].
  intros (st1 & E & Hr)%bind_Some. eapply IH; [|exact Hr]. by eapply Hs.
Qed.

(** ** Nobody is left behind *)

Definition cb_measure (st : Both) : nat :=
  (let dm d := 2 * length (s_rest (d_src d)) +
    match d_pump d with PWrite _ => 4 | PRead => 3 | PSend _ => 2 | PDone _ => 1 end in
  dm (cb_up st) + dm (cb_dev st) +
  match cb_main st with CRecv => 3 | CCloseUp _ => 2 | CCloseDev _ => 1 | CRet _ => 0 end)%nat.

(** A step for which nobody has to wait for a peer. *)
Definition immediate (ev : CbEvent) (st : Both) : bool :=
  match ev with
  | CvReadClosed _ _ | CvSend _ | CvMain => true
  | CvWriteErr s _ _ => closed (other s) st
  | _ => false
  end.

(** A copy has come to an end, or [shutdown] has closed both connections. *)
Definition ending (st : Both) : Prop :=
  (∃ s, is_Some (outcome (dir s st))) ∨ (hung Up st = true ∧ hung Dev st = true).

Definition settled (st : Both) : Prop :=
  (∃ err, cb_main st = CRet err) ∧ ∀ s, ∃ err, d_pump (dir s st) = PDone err.

Lemma cb_measure_step ev st st' : (∀ s, ev ≠ CvHangUp s) → cb_step ev st = Some st' →
  (cb_measure st' < cb_measure st)%nat.
Proof.
  intros Hh [(s & d & errs & _ & Hd & ->)|[(s & -> & _)|[-> E]]]%cb_step_inv; [|by destruct (Hh s)|].
  - unfold cb_measure. destruct s; cbn in *; destruct Hd; cbn in *; rewrite H; rewrite ?length_drop; lia.
  - unfold main_step in E. unfold cb_measure. destruct (cb_main st); [destruct (cb_errors st)|..]; simplify_eq; cbn; lia.
Qed.

Lemma ending_step ev st st' : ending st → cb_step ev st = Some st' → ending st'.
Proof.
  intros He [(s & d & errs & _ & Hd & ->)|[(s & -> & ->)|[-> E]]]%cb_step_inv.
  - destruct He as [(s' & Hs)|Hh]; [left|right; by destruct s]. exists s'. destruct (decide (s = s')) as [<-|Hn].
    + destruct Hd; unfold outcome in *; rewrite H in Hs; try (by destruct Hs). by destruct s; eexists.
    + by destruct s, s'.
  - destruct He as [(s' & Hs)|Hh]; [left; exists s'; by destruct s'|right].
    unfold hung in *. rewrite !bool_decide_eq_true in *. cbn. split; right; apply Hh.
  - assert (dir Up st' = dir Up st ∧ dir Dev st' = dir Dev st ∧ cb_hung st' = cb_hung st) as (Hu & Hd & Hg)
      by (unfold main_step in E; repeat case_match; by simplify_eq).
    destruct He as [([] & Hs)|Hh]; [left; exists Up; by rewrite Hu|left; exists Dev; by rewrite Hd|right].
    unfold hung in *. by rewrite Hg.
Qed.

Definition can_go (st : Both) : Prop := ∃ ev st', immediate ev st = true ∧ cb_step ev st = Some st'.

(** The channel has room for both results. *)
Lemma send_immediate s st err : cb_inv st → d_pump (dir s st) = PSend err → can_go st.
Proof.
  intros [Hc _] Ep. eexists (CvSend s), _. split; [done|]. cbn. unfold pump_step. rewrite Ep, decide_True; [done|].
  unfold finished in Hc. destruct s; cbn in Ep; rewrite Ep in Hc; repeat case_match; lia.
Qed.

(** A goroutine whose connections are closed can go on. *)
Lemma pump_immediate s st : cb_inv st → closed Up st = true → closed Dev st = true →
  (∃ err, d_pump (dir s st) = PDone err) ∨ can_go st.
Proof.
  intros Hi Hu Hv.
  assert (closed s st = true ∧ closed (other s) st = true) as [Hs Ho] by (by destruct s).
  destruct (d_pump (dir s st)) as [|chunk|err|err] eqn:Ep; [..|by eauto]; right.
  - eexists (CvReadClosed s ErrClosed), _. split; [done|]. cbn. unfold pump_step. by rewrite Ep, Hs.
  - eexists (CvWriteErr s 0 ErrClosed), _. split; [done|]. cbn. unfold pump_step. by rewrite Ep.
  - by eapply send_immediate.
Qed.

Lemma ending_progress st : cb_inv st → ending st → settled st ∨ can_go st.
Proof.
  intros Hi He. destruct (cb_main st) as [|err|err|err] eqn:Em.
  - assert (∀ s r, d_pump (dir s st) = PDone r → can_go st) as Hrecv.
    { intros s r Es. destruct Hi as [Hc _]. rewrite Em in Hc. cbn in Hc. unfold finished in Hc.
      destruct (cb_errors st) as [|e errs] eqn:Eq; [destruct s; cbn in Es; rewrite Es in Hc; cbn in Hc; lia|].
      eexists CvMain, _. split; [done|]. cbn. unfold main_step. by rewrite Em, Eq. }
    right. destruct He as [(s & r & Hs)|[Hu Hv]].
    + unfold outcome in Hs. destruct (d_pump (dir s st)) eqn:Ep; try done; [by eapply send_immediate|by eapply Hrecv].
    + destruct (pump_immediate Up st Hi) as [(r & Ep)|?]; [unfold closed; by rewrite ?Hu, ?Hv..|by eapply Hrecv|done].
  - right. eexists CvMain, _. split; [done|]. cbn. unfold main_step. by rewrite Em.
  - right. eexists CvMain, _. split; [done|]. cbn. unfold main_step. by rewrite Em.
  - assert (∀ s, closed s st = true) as Hcl by (intros s; unfold closed; by rewrite Em, orb_true_r).
    destruct (pump_immediate Up st Hi) as [Hu|?]; [done..| |by right].
    destruct (pump_immediate Dev st Hi) as [Hd|?]; [done..| |by right].
    left. split; [by exists err|]. by intros [].
Qed.

Section CopyBoth.
Context {U D : Type} `{!ByteWriter U, !ByteWriter D}.
Implicit Types (p : Proxy (U:=U) (D:=D)).

Lemma copyBoth_inv p : cb_inv (copyBoth p).
Proof. constructor; [done|]. split; [|by constructor]. by intros []. Qed.

Lemma copyBoth_run_inv p evs st : cb_run evs (copyBoth p) = Some st → cb_inv st.
Proof. apply cb_run_ind; [by intros; eapply cb_inv_step|apply copyBoth_inv]. Qed.

Lemma copyBoth_run_ok p evs st s : cb_run evs (copyBoth p) = Some st →
  dir_ok (d_out (dir s (copyBoth p))) (s_rest (d_src (dir s (copyBoth p)))) (dir s st).
Proof.
  apply (cb_run_ind (λ st, dir_ok _ _ (dir s st))); [by intros; eapply dir_ok_step|].
  exists [], []. rewrite app_nil_r. by destruct s.
Qed.

(** ** The whole session *)

(** What had been written to the other connection before the session. *)
Definition session_before p (s : Side) : bytes :=
  match s with Up => w_out (p_device p) | Dev => w_out (p_upstream p) end.

(** Everything that arrives from [s] during the session. *)
Definition session_bytes (firstRequest : bytes) p (s : Side) : bytes :=
  match s with Up => firstRequest ++ s_rest (p_upstreamReader p) | Dev => s_rest (p_deviceReader p) end.

(** C5. A whole RTSP session, from the first request through the negotiation and the
    free copying, neither loses, repeats nor reorders a byte: at every moment of every
    interleaving what has been written to either connection is a prefix of what came
    from the other one, and this includes what the line readers had already buffered
    when the negotiation ended.  Once [copyBoth] has returned, both connections are closed and
    its result is that of one of the two copies; if that is no error, and the
    connection was not closed by the shutdown of the bridge, then that
    copy has passed on everything its peer sent. *)
Theorem session_transparent firstRequest requestLine p p' evs st :
  proxyRTSP firstRequest requestLine p = (p', ProxyCopyBoth) → cb_run evs (copyBoth p') = Some st →
  (∀ s, ∃ sent, d_out (dir s st) = session_before p s ++ sent ∧ sent `prefix_of` session_bytes firstRequest p s) ∧
  ∀ err, cb_main st = CRet err →
    closed Up st = true ∧ closed Dev st = true ∧
    ∃ s, d_pump (dir s st) = PDone err ∧
      (err = None → hung s st = false → d_out (dir s st) = session_before p s ++ session_bytes firstRequest p s).
Proof.
  intros Hp Hr. apply proxyRTSP_spec in Hp as (su & cu & sd & cd & [M1 M2 M3 M4] & _ & _ & _ & resps & reqs & _ & _ & _ & _ & -> & _ & ->).
  assert (∀ s, ∃ sent lost, d_out (dir s st) = session_before p s ++ sent ∧
    session_bytes firstRequest p s = sent ++ lost ++ s_rest (d_src (dir s st)) ∧
    (d_pump (dir s st) = PDone None → lost = [])) as Hs.
  { intros s. destruct (copyBoth_run_ok _ _ _ s Hr) as (sent & lost & Ho & Hb & Hl).
    destruct s; cbn in *; rewrite Ho, ?M1, ?M2, ?M3, ?M4, Hb.
    - exists ((firstRequest ++ cu) ++ sent), lost. rewrite <- !app_assoc. split_and!; [done..|]. intros E. by rewrite E in Hl.
    - exists (cd ++ sent), lost. rewrite <- !app_assoc. split_and!; [done..|]. intros E. by rewrite E in Hl. }
  split.
  - intros s. destruct (Hs s) as (sent & lost & Ho & Hb & _). exists sent. split; [done|]. rewrite Hb. by apply prefix_app_r.
  - intros err Em. destruct (copyBoth_run_inv _ _ _ Hr) as [_ Hi]. rewrite Em in Hi.
    unfold closed. rewrite Em, !orb_true_r. split_and!; [done..|].
    destruct Hi as (s & Es & Hcl). exists s. split; [done|]. intros -> Hh.
    destruct (Hcl eq_refl) as [Hrest|]; [|congruence]. destruct (Hs s) as (sent & lost & Ho & Hb & Hl).
    rewrite (Hl Es), Hrest, app_nil_r in Hb. by rewrite Ho, Hb.
Qed.

(** C11. [copyBoth] leaves no goroutine behind.  In whatever order things happen, the
    number of steps the two copies and the caller still take is bounded (by the
    bytes still to come); and once one copy has ended, or the shutdown of the
    bridge has closed both connections, somebody can always go on
    without waiting for a peer until [copyBoth] has returned and both copies are
    over: closing the connections unblocks the other copy, and the channel has room for
    its result though nobody receives it. *)
Theorem copyBoth_no_leak p evs st :
  cb_run evs (copyBoth p) = Some st →
  (∀ evs' st', Forall (λ ev, ∀ s, ev ≠ CvHangUp s) evs' → cb_run evs' st = Some st' → (length evs' ≤ cb_measure st)%nat) ∧
  (ending st → ∀ evs' st', cb_run evs' st = Some st' →
    settled st' ∨ ∃ ev st'', immediate ev st' = true ∧ cb_step ev st' = Some st'').
Proof.
  intros Hr. split.
  - intros evs' st' Hl. clear Hr. revert st. induction Hl as [|ev evs' Hev _ IH]; intros st Hr; cbn [length]; [lia|].
    cbn in Hr. apply bind_Some in Hr as (st1 & E & Hr). apply IH in Hr. pose proof (cb_measure_step _ _ _ Hev E). lia.
  - intros He evs' st' Hr'. apply copyBoth_run_inv in Hr. apply (cb_run_ind (λ st, cb_inv st ∧ ending st)) in Hr' as [Hi Hn].
    + by apply ending_progress.
    + intros ev st1 st2 [Hi Hn] E. by split; [eapply cb_inv_step|eapply ending_step].
    + done.
Qed.
End CopyBoth.

(** ** Witnesses *)

Definition demo_request : bytes := lit "PLAY rtsp://x RTSP/1.0" ++ [CR; LF; CR; LF].
Definition demo_response : bytes := lit "RTSP/1.0 200 OK" ++ [CR; LF; CR; LF].

(** The device starts its stream in the packet of the response. *)
Definition demo_proxy : Proxy (U:=Buffer) (D:=Buffer) :=
  mkProxy (mkBuffer []) (mkBuffer []) (mkSource (lit "TEARDOWN") [] ErrTimeout)
    (mkSource (demo_response ++ lit "$media") [] EOF) 0.

Definition demo_events : list CbEvent :=
  [CvRead Up 4; CvRead Dev 3; CvWrite Dev; CvRead Dev 3; CvWrite Up; CvWrite Dev; CvEnd Dev; CvRead Up 4; CvSend Dev;
   CvMain; CvMain; CvMain].

Definition demo_handover : Proxy * ProxyResult :=
  Eval vm_compute in proxyRTSP demo_request (lit "PLAY rtsp://x RTSP/1.0") demo_proxy.

Definition demo_session : option Both :=
  Eval vm_compute in cb_run demo_events (copyBoth demo_handover.1).

Definition demo_end : Both := default (copyBoth demo_proxy) demo_session.

(** The device ends its stream: the media is complete, the rest of the client's request is not passed on. *)
Lemma session_transparent_witness :
  d_out (cb_dev demo_end) = demo_response ++ lit "$media" ∧ d_out (cb_up demo_end) = demo_request ++ lit "TEAR" ∧
  cb_main demo_end = CRet None ∧
  ∃ s, d_pump (dir s demo_end) = PDone None ∧ (@None IOError = None → hung s demo_end = false →
    d_out (dir s demo_end) = session_before demo_proxy s ++ session_bytes demo_request demo_proxy s).
Proof.
  split_and!; [vm_compute; reflexivity..|].
  apply (session_transparent demo_request (lit "PLAY rtsp://x RTSP/1.0") demo_proxy demo_handover.1 demo_events demo_end);
    vm_compute; reflexivity.
Defined.

(** The copy from the client hangs in a write when [copyBoth] returns; it still ends. *)
Lemma copyBoth_no_leak_witness :
  cb_run demo_events (copyBoth demo_handover.1) = Some demo_end ∧ d_pump (cb_up demo_end) = PWrite (lit "DOWN") ∧
  (settled demo_end ∨ ∃ ev st', immediate ev demo_end = true ∧ cb_step ev demo_end = Some st').
Proof.
  split_and!; [vm_compute; reflexivity..|].
  apply (copyBoth_no_leak demo_handover.1 demo_events demo_end) with (evs' := []);
    [vm_compute; reflexivity| |reflexivity].
  left. exists Dev. eexists. vm_compute. reflexivity.
Defined.
