(* ===== verification/Bridge.v ===== *)
(** * The bridge: connections, negotiations and shutdown

    [src/cmd/dahua-p2p/main.go], and the negotiation lock of [Client] in
    [src/dahua.go], lines 34-43 and 111-149.

    The goroutines that run against each other are [serve], one [handle] per accepted
    connection, the one that closes the listener when the context ends, and whatever
    happens to the tunnel, the signals and the peers.  A goroutine is a program
    counter and each [*_step] gives its next action.  The tokens in the channels
    [slots] and [negotiateSem] and the units of [wg] are named after the connection
    whose handler put them there; times are in milliseconds. *)

From Stdlib Require Import ZArith Lia Strings.Byte.
From S2P Require Import Prelude GoStrings GoText Config.

(** ** [Client]: the negotiation lock *)

Definition NegotiateSettle : Z := 500.
Definition minNegotiateSettle : Z := 250.

Record Negotiate := mkNegotiate {
  n_sem : option nat;              (* negotiateSem: the token, with its owner *)
  n_lastNegotiate : option Z }.    (* None: the zero time *)

(** [None]: the send on [negotiateSem] would block. *)
Definition LockNegotiate (who : nat) (n : Negotiate) : option Negotiate :=
  match n_sem n with None => Some (n <| n_sem := Some who |>) | Some _ => None end.

(** Takes the token that is there, whoever put it. *)
Definition UnlockNegotiate (n : Negotiate) : option Negotiate :=
  match n_sem n with Some _ => Some (n <| n_sem := None |>) | None => None end.

(** When [WaitSettle], called at [now], returns. *)
Definition WaitSettle (responsive : bool) (now : Z) (n : Negotiate) : Z :=
  match n_lastNegotiate n with
  | None => now
  | Some last =>
      let settle := if responsive then minNegotiateSettle else NegotiateSettle in
      let wait := settle - (now - last) in
      if decide (0 < wait) then now + wait else now
  end.

Definition DoneNegotiate (now : Z) (n : Negotiate) : Negotiate := n <| n_lastNegotiate := Some now |>.

(** ** The bridge *)

Definition initialRequestTimeout : Z := 10000.
Definition negotiateTimeout : Z := 90000.

(** Where [finish] returns to. *)
Inductive Finish := ToCheck | ToCopy | ToCloseUp.

(** [handle], with [openRealm] and the deferred calls. *)
Inductive HandlerPC :=
| HRead (since : Z)                (* copyRTSPMessage into the buffer *)
| HLock (since : Z)                (* LockNegotiate *)
| HSettle                          (* WaitSettle is called *)
| HSleep (until : Z)               (* WaitSettle sleeps *)
| HDial                            (* Client.Dial *)
| HProxy (since : Z)               (* proxyRTSP negotiates *)
| HFinish1 (k : Finish)            (* finish: DoneNegotiate *)
| HFinish2 (k : Finish)            (* finish: UnlockNegotiate *)
| HCheck                           (* IsClosed || IsRetired: cancel *)
| HCopy                            (* copyBoth *)
| HCloseDevice | HDeferFinish | HCloseUpstream | HUntrack | HSlot | HWgDone | HGone.

Record Handler := mkHandler { h_pc : HandlerPC; h_once : bool }.   (* h_once: finishOnce has run *)

Inductive ServePC :=
| SvAccept
| SvSelect (conn : nat) | SvReject (conn : nat) | SvTrack (conn : nat) | SvSpawn (conn : nat)
| SvCloseClient | SvSnapshot | SvCloseConns (l : list nat) | SvWait
| SvRet.

Record Bridge := mkBridge {
  b_limit : nat;                   (* cap(b.slots) *)
  b_slots : gset nat;
  b_connections : gset nat;
  b_wg : gset nat;
  b_done : bool;                   (* ctx.Done() *)
  b_listening : bool;
  b_serve : ServePC;
  b_handlers : gmap nat Handler;
  b_negotiate : Negotiate;
  b_closed : bool; b_retired : bool;   (* the tunnel *)
  b_hungUp : gset nat;             (* connections closed on this side *)
  b_next : nat;
  b_now : Z }.

Definition h_set (c : nat) (pc : HandlerPC) (b : Bridge) : Bridge :=
  b <| b_handlers := alter (λ h, h <| h_pc := pc |>) c (b_handlers b) |>.

(** How a step goes where the code leaves it open. *)
Inductive BChoice :=
| BGo
| BPeer                 (* the peer, or the socket, fails *)
| BHungUp               (* the connection or the tunnel was closed on this side *)
| BTimeout              (* the deadline has passed *)
| BCtx                  (* case <-ctx.Done() *)
| BResponsive (r : bool)
| BDialed (ok : bool).

(** Reading and writing fail when the local connection or the tunnel is closed. *)
Definition broken (c : nat) (b : Bridge) : bool := b_closed b || bool_decide (c ∈ b_hungUp b).

Definition hangUp (c : nat) (b : Bridge) : Bridge := b <| b_hungUp := {[c]} ∪ b_hungUp b |>.

Definition track (c : nat) (b : Bridge) : Bridge := b <| b_connections := {[c]} ∪ b_connections b |>.
Definition untrack (c : nat) (b : Bridge) : Bridge := b <| b_connections := b_connections b ∖ {[c]} |>.
#[global] Arguments track _ _ /.
#[global] Arguments untrack _ _ /.

Definition after_finish (k : Finish) : HandlerPC :=
  match k with ToCheck => HCheck | ToCopy => HCopy | ToCloseUp => HCloseUpstream end.

(** One step of the handler of [c]; [None]: not enabled. *)
Definition handle_step (ch : BChoice) (c : nat) (h : Handler) (b : Bridge) : option Bridge :=
  match h_pc h with
  | HRead since =>
      match ch with
      | BGo => Some (h_set c (HLock (b_now b)) b)
      | BPeer => Some (h_set c HCloseUpstream b)
      | BHungUp => if decide (c ∈ b_hungUp b) then Some (h_set c HCloseUpstream b) else None
      | BTimeout => if decide (since + initialRequestTimeout ≤ b_now b) then Some (h_set c HCloseUpstream b) else None
      | _ => None
      end
  | HLock since =>
      match ch with
      | BGo => n ← LockNegotiate c (b_negotiate b); Some (h_set c HSettle (b <| b_negotiate := n |>))
      | BCtx => if b_done b then Some (h_set c HCheck b) else None
      | BTimeout => if decide (since + negotiateTimeout ≤ b_now b) then Some (h_set c HCheck b) else None
      | _ => None
      end
  | HSettle =>
      match ch with
      | BResponsive r => Some (h_set c (HSleep (WaitSettle r (b_now b) (b_negotiate b))) b)
      | _ => None
      end
  | HSleep until => if decide (until ≤ b_now b) then Some (h_set c HDial b) else None
  | HDial =>
      match ch with
      | BDialed true => Some (h_set c (HProxy (b_now b)) b)
      | BDialed false => Some (h_set c (HFinish1 ToCheck) b)
      | _ => None
      end
  | HProxy since =>
      match ch with
      | BGo => Some (h_set c (HFinish1 ToCopy) b)
      | BPeer => Some (h_set c HCloseDevice b)
      | BHungUp => if broken c b then Some (h_set c HCloseDevice b) else None
      | BTimeout => if decide (since + negotiateTimeout ≤ b_now b) then Some (h_set c HCloseDevice b) else None
      | _ => None
      end
  | HFinish1 k => Some (h_set c (HFinish2 k) (b <| b_negotiate := DoneNegotiate (b_now b) (b_negotiate b) |>))
  | HFinish2 k =>
      n ← UnlockNegotiate (b_negotiate b);
      Some (b <| b_negotiate := n |> <| b_handlers := <[c := mkHandler (after_finish k) true]> (b_handlers b) |>)
  | HCheck => Some (h_set c HCloseUpstream (if b_closed b || b_retired b then b <| b_done := true |> else b))
  | HCopy =>
      match ch with
      | BPeer => Some (h_set c HCloseDevice (hangUp c b))
      | BHungUp => if broken c b then Some (h_set c HCloseDevice (hangUp c b)) else None
      | _ => None
      end
  | HCloseDevice => Some (h_set c HDeferFinish b)
  | HDeferFinish => Some (h_set c (if h_once h then HCloseUpstream else HFinish1 ToCloseUp) b)
  | HCloseUpstream => Some (h_set c HUntrack (hangUp c b))
  | HUntrack => Some (h_set c HSlot (untrack c b))
  | HSlot => Some (h_set c HWgDone (b <| b_slots := b_slots b ∖ {[c]} |>))
  | HWgDone => Some (h_set c HGone (b <| b_wg := b_wg b ∖ {[c]} |>))
  | HGone => None
  end.

(** One step of the deferred [shutdown]. *)
Definition shutdown_step (b : Bridge) : option Bridge :=
  match b_serve b with
  | SvCloseClient => Some (b <| b_closed := true |> <| b_serve := SvSnapshot |>)
  | SvSnapshot => Some (b <| b_serve := SvCloseConns (elements (b_connections b)) |>)
  | SvCloseConns [] => Some (b <| b_serve := SvWait |>)
  | SvCloseConns (c :: l) => Some ((hangUp c b) <| b_serve := SvCloseConns l |>)
  | SvWait => if decide (b_wg b = ∅) then Some (b <| b_serve := SvRet |>) else None
  | _ => None
  end.

(** One step of [serve]. *)
Definition serve_step (ch : BChoice) (b : Bridge) : option Bridge :=
  match b_serve b with
  | SvAccept =>
      match ch with
      | BGo => if b_listening b
               then Some (b <| b_serve := SvSelect (b_next b) |> <| b_next := S (b_next b) |>) else None
      | BPeer => Some (b <| b_serve := SvCloseClient |>)
      | BHungUp => if b_listening b then None else Some (b <| b_serve := SvCloseClient |>)
      | _ => None
      end
  | SvSelect c =>
      Some (if decide (size (b_slots b) < b_limit b)%nat
            then b <| b_slots := {[c]} ∪ b_slots b |> <| b_serve := SvTrack c |>
            else b <| b_serve := SvReject c |>)
  | SvReject c => Some ((hangUp c b) <| b_serve := SvAccept |>)
  | SvTrack c => Some ((track c b) <| b_serve := SvSpawn c |>)
  | SvSpawn c =>
      Some (b <| b_wg := {[c]} ∪ b_wg b |> <| b_handlers := <[c := mkHandler (HRead (b_now b)) false]> (b_handlers b) |>
              <| b_serve := SvAccept |>)
  | _ => shutdown_step b
  end.

Inductive BEvent :=
| BvServe (ch : BChoice)
| BvHandle (c : nat) (ch : BChoice)
| BvCancel                  (* a signal *)
| BvListener                (* <-ctx.Done(); closeListener(listener) *)
| BvTunnel (closed : bool)  (* the tunnel closes, or retires *)
| BvOnClose                 (* SetOnClose(cancel) *)
| BvTime (d : Z).

Definition b_step (ev : BEvent) (b : Bridge) : option Bridge :=
  match ev with
  | BvServe ch => serve_step ch b
  | BvHandle c ch => h ← b_handlers b !! c; handle_step ch c h b
  | BvCancel => Some (b <| b_done := true |>)
  | BvListener => if b_done b then Some (b <| b_listening := false |>) else None
  | BvTunnel true => Some (b <| b_closed := true |>)
  | BvTunnel false => Some (b <| b_retired := true |>)
  | BvOnClose => if b_closed b then Some (b <| b_done := true |>) else None
  | BvTime d => if decide (0 ≤ d) then Some (b <| b_now := b_now b + d |>) else None
  end.

Fixpoint b_run (evs : list BEvent) (b : Bridge) : option Bridge :=
  match evs with
  | [] => Some b
  | ev :: evs => b ← b_step ev b; b_run evs b
  end.

(** ** The start *)

(** [run], once the tunnel is connected and the listener open. *)
Definition b_init (cfg : config) (now : Z) : Bridge :=
  mkBridge (Z.to_nat (connectionLimit cfg)) ∅ ∅ ∅ false true SvAccept ∅ (mkNegotiate None None) false false ∅ 0 now.

Definition b_reachable (cfg : config) (now : Z) (b : Bridge) : Prop := ∃ evs, b_run evs (b_init cfg now) = Some b.
