(* ===== verification/BridgeInv.v ===== *)
(** * The bridge: invariants

    What every handler holds at each point of its life, and how that fits the slots, the
    tracked connections, the wait group and the negotiation lock, for every interleaving
    of the system of [Bridge]. *)

From Stdlib Require Import ZArith Lia Strings.Byte.
From S2P Require Import Prelude GoStrings GoText Config Bridge.

(** ** Invariants *)

(** What the handler still holds at each point. *)
Definition has_slot (h : Handler) : bool := match h_pc h with HWgDone | HGone => false | _ => true end.
Definition tracked (h : Handler) : bool := match h_pc h with HSlot | HWgDone | HGone => false | _ => true end.
Definition counted (h : Handler) : bool := match h_pc h with HGone => false | _ => true end.
Definition owns (h : Handler) : bool :=
  match h_pc h with
  | HSettle | HSleep _ | HDial | HProxy _ | HFinish1 _ | HFinish2 _ => true
  | HCloseDevice | HDeferFinish => negb (h_once h)
  | _ => false
  end.

(** [finishOnce] has not run before the lock is given back. *)
Definition once_ok (h : Handler) : bool :=
  match h_pc h with
  | HRead _ | HLock _ | HSettle | HSleep _ | HDial | HProxy _ | HFinish1 _ | HFinish2 _ => negb (h_once h)
  | HCopy => h_once h
  | _ => true
  end.

Definition settled (last : option Z) (now : Z) (h : Handler) : Prop :=
  ∀ l, last = Some l →
    match h_pc h with
    | HSleep until => l + minNegotiateSettle ≤ until
    | HDial => l + minNegotiateSettle ≤ now
    | _ => True
    end.

(** Handlers of which [P] holds. *)
Definition at_handler (P : Handler → bool) (hs : gmap nat Handler) (c : nat) : Prop :=
  ∃ h, hs !! c = Some h ∧ P h = true.

Definition shutting (pc : ServePC) : bool :=
  match pc with SvSnapshot | SvCloseConns _ | SvWait | SvRet => true | _ => false end.

Definition pending_conn (pc : ServePC) (c : nat) : Prop :=
  match pc with SvSelect c' | SvReject c' | SvTrack c' | SvSpawn c' => c = c' | _ => False end.

Record b_inv (b : Bridge) : Prop := mkBInv {
  bi_slots : ∀ c, c ∈ b_slots b ↔ at_handler has_slot (b_handlers b) c ∨ b_serve b = SvTrack c ∨ b_serve b = SvSpawn c;
  bi_size : (size (b_slots b) ≤ b_limit b)%nat;
  bi_conns : ∀ c, c ∈ b_connections b ↔ at_handler tracked (b_handlers b) c ∨ b_serve b = SvSpawn c;
  bi_wg : ∀ c, c ∈ b_wg b ↔ at_handler counted (b_handlers b) c;
  bi_sem : ∀ c, n_sem (b_negotiate b) = Some c ↔ at_handler owns (b_handlers b) c;
  bi_once : ∀ c h, b_handlers b !! c = Some h → once_ok h = true;
  bi_settle : ∀ c h, b_handlers b !! c = Some h → settled (n_lastNegotiate (b_negotiate b)) (b_now b) h;
  bi_fresh : ∀ c h, b_handlers b !! c = Some h → (c < b_next b)%nat;
  bi_pending : ∀ c, pending_conn (b_serve b) c → b_handlers b !! c = None ∧ (c < b_next b)%nat;
  bi_shut : shutting (b_serve b) = true → b_closed b = true;
  bi_hung : match b_serve b with
            | SvCloseConns l => ∀ c, c ∈ b_connections b → c ∈ l ∨ c ∈ b_hungUp b
            | SvWait | SvRet => ∀ c, c ∈ b_connections b → c ∈ b_hungUp b
            | _ => True
            end;
  bi_ret : b_serve b = SvRet → b_wg b = ∅ }.

Lemma b_init_inv cfg now : b_inv (b_init cfg now).
Proof.
  constructor; cbn; try done.
  - intros c. split; [set_solver|]. by intros [(h & Hh & _)|[|]].
  - rewrite size_empty. lia.
  - intros c. split; [set_solver|]. by intros [(h & Hh & _)|].
  - intros c. split; [set_solver|]. by intros (h & Hh & _).
  - intros c. split; [done|]. by intros (h & Hh & _).
Qed.

Lemma at_handler_insert P hs c h c' :
  at_handler P (<[c := h]> hs) c' ↔ (c' = c ∧ P h = true) ∨ (c' ≠ c ∧ at_handler P hs c').
Proof.
  unfold at_handler. destruct (decide (c' = c)) as [->|Hne].
  - rewrite lookup_insert_eq. split; [intros (h' & [= <-] & ?); by left|]. intros [[_ ?]|[? _]]; [by exists h|done].
  - rewrite lookup_insert_ne by done. split; [by right|]. by intros [[? _]|[_ ?]].
Qed.

(** A set of tokens that a handler gives back when it leaves a region. *)
Lemma tokens_kept P hs (X : gset nat) (Q : nat → Prop) c h h' :
  (∀ c', c' ∈ X ↔ at_handler P hs c' ∨ Q c') → hs !! c = Some h → ¬ Q c → (P h' = true → P h = true) →
  ∀ c', c' ∈ (if P h && negb (P h') then X ∖ {[c]} else X) ↔ at_handler P (<[c := h']> hs) c' ∨ Q c'.
Proof.
  intros HX Hh HQ Hfwd c'. rewrite at_handler_insert. destruct (decide (c' = c)) as [->|Hne].
  - assert (at_handler P hs c ↔ P h = true) as Hc.
    { split; [intros (h0 & E & ?); by simplify_eq|by exists h]. }
    destruct (P h), (P h'); cbn; rewrite ?elem_of_difference, ?HX, ?Hc, ?elem_of_singleton; intuition congruence.
  - assert (c' ∈ (if P h && negb (P h') then X ∖ {[c]} else X) ↔ c' ∈ X) as ->.
    { case_match; [|done]. rewrite elem_of_difference, elem_of_singleton. intuition. }
    rewrite HX. intuition.
Qed.

Lemma given_back_sub (x : bool) (X : gset nat) c : (if x then X ∖ {[c]} else X) ⊆ X.
Proof. destruct x; set_solver. Qed.

(** What a step of the handler of [c] may do to the shared state. *)
Record handled (c : nat) (h h' : Handler) (b b' : Bridge) : Prop := mkHandled {
  hd_handlers : b_handlers b' = <[c := h']> (b_handlers b);
  hd_same : (b_limit b', b_serve b', b_next b', b_now b', b_closed b') = (b_limit b, b_serve b, b_next b, b_now b, b_closed b);
  hd_hung : b_hungUp b ⊆ b_hungUp b';
  hd_slots : b_slots b' = if has_slot h && negb (has_slot h') then b_slots b ∖ {[c]} else b_slots b;
  hd_conns : b_connections b' = if tracked h && negb (tracked h') then b_connections b ∖ {[c]} else b_connections b;
  hd_wg : b_wg b' = if counted h && negb (counted h') then b_wg b ∖ {[c]} else b_wg b;
  hd_forward : (has_slot h' = true → has_slot h = true) ∧ (tracked h' = true → tracked h = true) ∧
    (counted h' = true → counted h = true);
  hd_sem : n_sem (b_negotiate b') = if owns h' then Some c else if owns h then None else n_sem (b_negotiate b);
  hd_take : owns h' = true → owns h = true ∨ n_sem (b_negotiate b) = None;
  hd_last : n_lastNegotiate (b_negotiate b') = n_lastNegotiate (b_negotiate b) ∨ owns h = true;
  hd_once : once_ok h' = true;
  hd_settled : settled (n_lastNegotiate (b_negotiate b')) (b_now b) h' }.

Lemma handled_inv c h h' b b' : b_inv b → b_handlers b !! c = Some h → handled c h h' b b' → b_inv b'.
Proof.
  intros Hinv Hh [Hs Hsame Hhung Hsl Hcn Hw (F1 & F2 & F3) Hsem Htake Hlast Honce Hset].
  injection Hsame as E1 E2 E3 E4 E5.
  assert (∀ c', c' = c → ¬ pending_conn (b_serve b) c') as Hnp.
  { intros c' -> Hp. destruct (bi_pending _ Hinv c Hp). congruence. }
  constructor; rewrite ?Hs, ?E1, ?E2, ?E3, ?E4, ?E5.
  - rewrite Hsl. apply tokens_kept; [apply Hinv|done| |done]. intros [E|E]; apply (Hnp c eq_refl); by rewrite E.
  - etrans; [|apply Hinv]. apply subseteq_size. rewrite Hsl. apply given_back_sub.
  - rewrite Hcn. apply tokens_kept; [apply Hinv|done| |done]. intros E; apply (Hnp c eq_refl); by rewrite E.
  - intros c'. rewrite Hw. rewrite (tokens_kept counted (b_handlers b) (b_wg b) (λ _, False) c h h'); [| |done|by intros []|done].
    + intuition.
    + intros c0. rewrite (bi_wg _ Hinv). intuition.
  - intros c'. rewrite Hsem, at_handler_insert, <- (bi_sem _ Hinv c').
    assert (owns h = true → n_sem (b_negotiate b) = Some c) as Hown by (intros Ho; apply (bi_sem _ Hinv); by exists h).
    destruct (owns h') eqn:E'; [|destruct (owns h) eqn:E].
    + split; [intros [= <-]; by left|]. intros [[-> _]|[Hne Hc]]; [done|].
      destruct (Htake eq_refl) as [Ho|Ho]; [specialize (Hown Ho)|]; congruence.
    + rewrite (Hown eq_refl). split; [done|]. intros [[_ ?]|[Hne [= ?]]]; congruence.
    + split; [|by intros [[_ ?]|[_ ?]]]. intros Hc. right. split; [|done]. intros ->.
      apply (bi_sem _ Hinv) in Hc as (h0 & ? & ?). congruence.
  - intros c' h0 [[<- <-]|[Hne H0]]%lookup_insert_Some; [done|]. by eapply bi_once.
  - intros c' h0 [[<- <-]|[Hne H0]]%lookup_insert_Some; [done|]. destruct Hlast as [->|Ho]; [by eapply bi_settle|].
    intros l _. assert (owns h0 = false) as Ho0.
    { destruct (owns h0) eqn:E; [|done]. assert (n_sem (b_negotiate b) = Some c') by (apply (bi_sem _ Hinv); by exists h0).
      assert (n_sem (b_negotiate b) = Some c) by (apply (bi_sem _ Hinv); by exists h). congruence. }
    unfold owns in Ho0. by destruct (h_pc h0).
  - intros c' h0 [[<- <-]|[Hne H0]]%lookup_insert_Some; by eapply bi_fresh.
  - intros c' Hp. destruct (bi_pending _ Hinv c' Hp). rewrite lookup_insert_ne; [done|]. intros <-. congruence.
  - apply Hinv.
  - pose proof (bi_hung _ Hinv) as Hu. assert (b_connections b' ⊆ b_connections b) as Hsub by (rewrite Hcn; apply given_back_sub).
    destruct (b_serve b); try done; intros c' Hc'; [destruct (Hu c' (Hsub _ Hc')); [by left|right]|..]; by apply Hhung, Hu, Hsub || by apply Hhung.
  - intros Hr. rewrite Hw, (bi_ret _ Hinv Hr). destruct (counted h), (counted h'); done || (cbn; clear; set_solver).
Qed.

Lemma settled_other last now h : match h_pc h with HSleep _ | HDial => False | _ => True end → settled last now h.
Proof. intros H l _. by destruct (h_pc h). Qed.

Lemma WaitSettle_settled r now n : settled (n_lastNegotiate n) now (mkHandler (HSleep (WaitSettle r now n)) false).
Proof.
  intros l Hl. cbn. unfold WaitSettle. rewrite Hl. unfold minNegotiateSettle, NegotiateSettle.
  destruct r; case_decide; lia.
Qed.

Lemma h_set_at c pc h b : b_handlers b !! c = Some h →
  h_set c pc b = b <| b_handlers := <[c := mkHandler pc (h_once h)]> (b_handlers b) |>.
Proof. intros Hh. unfold h_set. by rewrite (alter_at _ _ h). Qed.

(** The step changes only where the handler is. *)
Lemma handled_quiet c h pc b b' :
  b_handlers b !! c = Some h → let h' := mkHandler pc (h_once h) in
  b_handlers b' = <[c := h']> (b_handlers b) →
  has_slot h' = has_slot h → tracked h' = tracked h → counted h' = counted h → owns h' = owns h →
  once_ok h' = true → settled (n_lastNegotiate (b_negotiate b)) (b_now b) h' → b_inv b →
  (b_limit b', b_serve b', b_next b', b_now b', b_closed b') = (b_limit b, b_serve b, b_next b, b_now b, b_closed b) →
  b_hungUp b ⊆ b_hungUp b' → (b_slots b', b_connections b', b_wg b') = (b_slots b, b_connections b, b_wg b) →
  b_negotiate b' = b_negotiate b →
  ∃ h', handled c h h' b b'.
Proof.
  intros Hh h' Hhs E1 E2 E3 E4 Ho Hs Hinv Hsame Hhung Hsets Hn. injection Hsets as S1 S2 S3. exists h'.
  constructor; rewrite ?E1, ?E2, ?E3, ?E4, ?Hn; try done; try (by left); try (rewrite andb_negb_r; done).
  destruct (owns h) eqn:Ew; [|done]. apply (bi_sem _ Hinv). by exists h.
Qed.

Lemma hangUp_sub c b : b_hungUp b ⊆ b_hungUp (hangUp c b).
Proof. apply union_subseteq_r. Qed.

Ltac quiet_step Hh :=
  eapply handled_quiet; [exact Hh|reflexivity|..]; cbn; try done; try (by apply settled_other); try apply hangUp_sub.

(** Resolves the guard of a step and names its result. *)
Ltac taken E Hh :=
  cbn in E; try (case_decide; [|done]); try (case_match; [|done]); cbn in E; rewrite ?(alter_at _ _ _ _ Hh) in E; injection E as <-.

Lemma handle_step_handled ch c h b b' : b_inv b → b_handlers b !! c = Some h → handle_step ch c h b = Some b' →
  ∃ h', handled c h h' b b'.
Proof.
  intros Hinv Hh E. pose proof (bi_once _ Hinv c h Hh) as Ho. pose proof (bi_settle _ Hinv c h Hh) as Hst.
  assert (owns h = true → n_sem (b_negotiate b) = Some c) as Hown by (intros Hw; apply (bi_sem _ Hinv); by exists h).
  unfold handle_step in E. unfold h_set in E. destruct h as [pc once]. cbn [h_pc h_once] in *.
  destruct pc; try done.
  - (* HRead *) destruct ch; try done; taken E Hh; quiet_step Hh.
  - (* HLock *) destruct ch; try done; [|taken E Hh; quiet_step Hh..].
    apply bind_Some in E as (n & En & E). unfold LockNegotiate in En. destruct (n_sem (b_negotiate b)) eqn:Es; [done|].
    cbn in E. rewrite (alter_at _ _ _ _ Hh) in E. simplify_eq. exists (mkHandler HSettle once).
    constructor; cbn; try done; try (by left); try (by right); by apply settled_other.
  - (* HSettle *) destruct ch; try done. taken E Hh. quiet_step Hh. destruct once; [done|]. apply WaitSettle_settled.
  - (* HSleep *) taken E Hh. quiet_step Hh. intros l Hl. specialize (Hst l Hl). cbn in Hst |- *. lia.
  - (* HDial *) destruct ch as [| | | | | |[]]; try done; taken E Hh; quiet_step Hh.
  - (* HProxy *) destruct ch; try done; taken E Hh; quiet_step Hh.
  - (* HFinish1 *) taken E Hh. exists (mkHandler (HFinish2 k) once).
    constructor; cbn; try done; try (by left); try (by right); by apply Hown || by apply settled_other.
  - (* HFinish2 *) unfold UnlockNegotiate in E. rewrite (Hown eq_refl) in E. cbn in E. injection E as <-.
    exists (mkHandler (after_finish k) true).
    destruct k; constructor; cbn; try done; try (by left); try (by right); by apply settled_other.
  - (* HCheck *) cbn in E. destruct (b_closed b || b_retired b); cbn in E; rewrite (alter_at _ _ _ _ Hh) in E;
      injection E as <-; quiet_step Hh.
  - (* HCopy *) destruct once; [|done]. destruct ch; try done; taken E Hh; quiet_step Hh.
  - (* HCloseDevice *) taken E Hh; quiet_step Hh.
  - (* HDeferFinish *) cbn in E. rewrite (alter_at _ _ _ _ Hh) in E. injection E as <-. destruct once; quiet_step Hh.
  - (* HCloseUpstream *) taken E Hh; quiet_step Hh.
  - (* HUntrack *) taken E Hh. exists (mkHandler HSlot once).
    constructor; cbn; try done; try (by left); try (by right); by apply settled_other.
  - (* HSlot *) taken E Hh. exists (mkHandler HWgDone once).
    constructor; cbn; try done; try (by left); try (by right); by apply settled_other.
  - (* HWgDone *) taken E Hh. exists (mkHandler HGone once).
    constructor; cbn; try done; try (by left); try (by right); by apply settled_other.
Qed.

(** ** [serve] and the rest of the world *)

(** Steps that leave the handlers and what they hold alone. *)
Lemma serve_quiet b b' :
  b_inv b →
  (b_limit b', b_slots b', b_connections b', b_wg b', b_handlers b', b_negotiate b') =
    (b_limit b, b_slots b, b_connections b, b_wg b, b_handlers b, b_negotiate b) →
  (b_next b ≤ b_next b')%nat → b_now b ≤ b_now b' → b_hungUp b ⊆ b_hungUp b' →
  (∀ c, b_serve b' = SvTrack c ∨ b_serve b' = SvSpawn c ↔ b_serve b = SvTrack c ∨ b_serve b = SvSpawn c) →
  (∀ c, b_serve b' = SvSpawn c ↔ b_serve b = SvSpawn c) →
  (∀ c, pending_conn (b_serve b') c → b_handlers b !! c = None ∧ (c < b_next b')%nat) →
  (shutting (b_serve b') = true → b_closed b' = true) →
  match b_serve b' with
  | SvCloseConns l => ∀ c, c ∈ b_connections b' → c ∈ l ∨ c ∈ b_hungUp b'
  | SvWait | SvRet => ∀ c, c ∈ b_connections b' → c ∈ b_hungUp b'
  | _ => True
  end → (b_serve b' = SvRet → b_wg b = ∅) → b_inv b'.
Proof.
  intros Hinv Hsame Hnext Hnow Hhung Hts Hsp Hpend Hshut Hu Hret. injection Hsame as E1 E2 E3 E4 E5 E6.
  constructor; rewrite ?E1, ?E2, ?E3, ?E4, ?E5, ?E6; try apply Hinv; try done.
  - intros c. rewrite Hts. apply Hinv.
  - intros c. rewrite Hsp. apply Hinv.
  - intros c h Hc l Hl. pose proof (bi_settle _ Hinv c h Hc l Hl). destruct (h_pc h); try done. lia.
  - intros c h Hc. pose proof (bi_fresh _ Hinv c h Hc). lia.
  - by rewrite <- E3.
Qed.

Lemma track_inv b c : b_serve b = SvTrack c → b_inv b →
  b_inv (b <| b_connections := {[c]} ∪ b_connections b |> <| b_serve := SvSpawn c |>).
Proof.
  intros Es Hinv. pose proof (bi_pending _ Hinv c) as Hp. rewrite Es in Hp.
  constructor; cbn; try apply Hinv; try done.
  - intros c'. rewrite (bi_slots _ Hinv c'), Es. intuition congruence.
  - intros c'. rewrite elem_of_union, elem_of_singleton, (bi_conns _ Hinv c'), Es. intuition congruence.
  - intros c' ->. by apply Hp.
Qed.

Lemma slot_inv b c : b_serve b = SvSelect c → (size (b_slots b) < b_limit b)%nat → b_inv b →
  b_inv (b <| b_slots := {[c]} ∪ b_slots b |> <| b_serve := SvTrack c |>).
Proof.
  intros Es Hlt Hinv. pose proof (bi_pending _ Hinv c) as Hp. rewrite Es in Hp. destruct (Hp eq_refl) as [Hn Hc].
  constructor; cbn; try apply Hinv; try done.
  - intros c'. rewrite elem_of_union, elem_of_singleton, (bi_slots _ Hinv c'), Es. intuition congruence.
  - rewrite size_union; [rewrite size_singleton; lia|]. intros c' ->%elem_of_singleton Hc'.
    apply (bi_slots _ Hinv) in Hc' as [(h & Hh & _)|[E|E]]; congruence.
  - intros c'. rewrite (bi_conns _ Hinv c'), Es. intuition congruence.
  - by intros c' ->.
Qed.

Lemma spawned_inv b c : b_serve b = SvSpawn c → b_inv b →
  b_inv (b <| b_wg := {[c]} ∪ b_wg b |> <| b_handlers := <[c := mkHandler (HRead (b_now b)) false]> (b_handlers b) |>
           <| b_serve := SvAccept |>).
Proof.
  intros Es Hinv. pose proof (bi_pending _ Hinv c) as Hp. rewrite Es in Hp. destruct (Hp eq_refl) as [Hn Hc].
  assert (∀ P, ¬ at_handler P (b_handlers b) c) as Hno by (intros P (h & Hh & _); congruence).
  constructor; cbn; try done.
  - intros c'. rewrite at_handler_insert, (bi_slots _ Hinv c'), Es.
    destruct (decide (c' = c)) as [->|]; [|intuition congruence]. split; [by left; left|by right; right].
  - apply Hinv.
  - intros c'. rewrite at_handler_insert, (bi_conns _ Hinv c'), Es.
    destruct (decide (c' = c)) as [->|]; [|intuition congruence]. split; [by left; left|by right].
  - intros c'. rewrite at_handler_insert, elem_of_union, elem_of_singleton, (bi_wg _ Hinv c').
    destruct (decide (c' = c)) as [->|]; [|intuition congruence]. split; [by left|by left].
  - intros c'. rewrite at_handler_insert, (bi_sem _ Hinv c'). split.
    + intros Ha. right. split; [|done]. by intros ->; apply (Hno owns).
    + by intros [[_ ?]|[_ ?]].
  - intros c' h [[<- <-]|[_ H]]%lookup_insert_Some; [done|]. by eapply bi_once.
  - intros c' h [[<- <-]|[_ H]]%lookup_insert_Some; [by apply settled_other|]. by eapply bi_settle.
  - intros c' h [[<- <-]|[_ H]]%lookup_insert_Some; [done|]. by eapply bi_fresh.
Qed.

Ltac serve_quiet_step Es :=
  eapply serve_quiet; [eassumption|reflexivity|cbn; rewrite ?Es..]; try done; try lia; try apply hangUp_sub;
    try (by intros; intuition congruence).

Lemma serve_step_inv ch b b' : b_inv b → serve_step ch b = Some b' → b_inv b'.
Proof.
  intros Hinv E. unfold serve_step, shutdown_step in E. destruct (b_serve b) as [|c|c|c|c| | |[|c l]| |] eqn:Es; try done.
  - destruct ch; try done; [| |destruct (b_listening b); [done|]].
    + destruct (b_listening b); [|done]. injection E as <-. serve_quiet_step Es.
      intros c ->. split; [|lia]. destruct (b_handlers b !! b_next b) eqn:Eh; [|done].
      apply (bi_fresh _ Hinv) in Eh. lia.
    + injection E as <-. serve_quiet_step Es.
    + injection E as <-. serve_quiet_step Es.
  - case_decide as Hd; injection E as <-; [by apply slot_inv|]. serve_quiet_step Es.
    intros c' ->. apply (bi_pending _ Hinv). by rewrite Es.
  - injection E as <-. serve_quiet_step Es.
  - injection E as <-. by apply track_inv.
  - injection E as <-. by apply spawned_inv.
  - injection E as <-. serve_quiet_step Es.
  - injection E as <-. serve_quiet_step Es.
    + intros _. apply (bi_shut _ Hinv). by rewrite Es.
    + intros c Hc. left. by apply elem_of_elements.
  - injection E as <-. pose proof (bi_hung _ Hinv) as Hu. rewrite Es in Hu. serve_quiet_step Es.
    + intros _. apply (bi_shut _ Hinv). by rewrite Es.
    + intros c Hc. destruct (Hu c Hc) as [?%elem_of_nil|?]; done.
  - injection E as <-. pose proof (bi_hung _ Hinv) as Hu. rewrite Es in Hu. serve_quiet_step Es.
    + intros _. apply (bi_shut _ Hinv). by rewrite Es.
    + intros c' Hc'. destruct (Hu c' Hc') as [[->|?]%elem_of_cons|?]; [right|by left|right].
      * by apply elem_of_union_l, elem_of_singleton_2.
      * by apply elem_of_union_r.
  - case_decide; [|done]. injection E as <-. pose proof (bi_hung _ Hinv) as Hu. rewrite Es in Hu. serve_quiet_step Es.
    intros _. apply (bi_shut _ Hinv). by rewrite Es.
Qed.

Lemma b_step_inv ev b b' : b_inv b → b_step ev b = Some b' → b_inv b'.
Proof.
  intros Hinv E. destruct ev as [ch|c ch| | |[]| |d]; cbn in E; [by eapply serve_step_inv| | | | | | |];
    try (case_match; [|done]); try injection E as <-; try (eapply serve_quiet; [done|reflexivity|..]; try apply Hinv; cbn; done || lia).
  apply bind_Some in E as (h & Hh & E). destruct (handle_step_handled ch c h b b' Hinv Hh E) as [h' Hd]. by eapply handled_inv.
Qed.

Lemma b_run_inv evs b b' : b_inv b → b_run evs b = Some b' → b_inv b'.
Proof.
  revert b. induction evs as [|ev evs IH]; cbn; intros b Hinv E; [congruence|].
  apply bind_Some in E as (b1 & E1 & E). eapply IH; [|done]. by eapply b_step_inv.
Qed.

Lemma b_reachable_inv cfg now b : b_reachable cfg now b → b_inv b.
Proof. intros [evs E]. eapply b_run_inv; [apply b_init_inv|done]. Qed.

Lemma handle_step_limit ch c h b b' : handle_step ch c h b = Some b' → b_limit b' = b_limit b.
Proof.
  unfold handle_step, h_set, hangUp. intros E. repeat (case_match; try done); simplify_eq/=; try done;
    apply bind_Some in E as (n & _ & [= <-]); done.
Qed.

Lemma b_step_limit ev b b' : b_step ev b = Some b' → b_limit b' = b_limit b.
Proof.
  destruct ev; cbn; intros E; try (repeat (case_match; try done); by simplify_eq/=).
  - unfold serve_step, shutdown_step, hangUp in E. repeat (case_match; try done); by simplify_eq/=.
  - apply bind_Some in E as (h & _ & E). by eapply handle_step_limit.
Qed.

Lemma b_reachable_limit cfg now b : b_reachable cfg now b → b_limit b = Z.to_nat (connectionLimit cfg).
Proof.
  intros [evs E]. change (b_limit b = b_limit (b_init cfg now)). revert E. generalize (b_init cfg now).
  induction evs as [|ev evs IH]; cbn; intros b0 E; [congruence|].
  apply bind_Some in E as (b1 & E1 & E). rewrite (IH _ E). by eapply b_step_limit.
Qed.
