(* ===== verification/BridgeThm.v ===== *)
(** * The bridge: theorems

    The connection limit, exclusive and spaced negotiations, and a shutdown that
    completes, for every interleaving of the system of [Bridge]. *)

From Stdlib Require Import ZArith Lia Strings.Byte.
From S2P Require Import Prelude GoStrings GoText Config Bridge BridgeInv.

(** ** The connection limit *)

(** The connections whose handler still holds a slot. *)
Definition busy (b : Bridge) : gset nat := dom (filter (λ ch, has_slot ch.2 = true) (b_handlers b)).

Lemma elem_of_busy b c : c ∈ busy b ↔ at_handler has_slot (b_handlers b) c.
Proof.
  unfold busy. rewrite elem_of_dom. split.
  - intros [h Hh]. apply map_lookup_filter_Some in Hh as [Hh Hs]. by exists h.
  - intros (h & Hh & Hs). exists h. by apply map_lookup_filter_Some.
Qed.

Lemma busy_slots b : b_inv b → busy b ⊆ b_slots b.
Proof. intros Hinv c Hc%elem_of_busy. apply Hinv. by left. Qed.

(** [dahua-p2p -serial SERIAL -max-connections 1] in an empty environment. *)
Definition small_flags : Flags := mkFlags None (Some (lit "SERIAL")) None None None (Some 1) None None.
Definition small_config : config := mkconfig (lit ":8554") (lit "SERIAL") [] [] 0 8 1 (10 * second) false.

(** C18.  At every moment of every run of the bridge the connections being
    handled hold one slot each and are at most [min(maxConns, maxRealms)]; while
    [serve] waits for a connection the slots taken are exactly theirs, so none leaks;
    a connection is turned away only when that many are being handled, and the
    connections that [shutdown] would close are exactly those whose handler has not
    yet untracked them. *)
Theorem bridge_limit LookupEnv ReadFile fl cfg now b :
  loadConfig LookupEnv ReadFile fl = Ok cfg → b_reachable cfg now b →
  Z.of_nat (size (busy b)) ≤ connectionLimit cfg ≤ cf_maxRealms cfg ∧ connectionLimit cfg ≤ cf_maxConns cfg ∧
  (b_serve b = SvAccept → b_slots b = busy b ∧ ∀ c, c ∈ b_connections b ↔ at_handler tracked (b_handlers b) c) ∧
  (∀ c ch b', b_serve b = SvSelect c → b_step (BvServe ch) b = Some b' →
    (b_serve b' = SvReject c ↔ Z.of_nat (size (busy b)) = connectionLimit cfg)).
Proof.
  intros (_ & _ & _ & Hr & Hc & _)%loadConfig_sound Hb. pose proof (b_reachable_inv _ _ _ Hb) as Hinv. pose proof (b_reachable_limit _ _ _ Hb) as Hlim.
  pose proof (bi_size _ Hinv) as Hsz. pose proof (subseteq_size _ _ (busy_slots _ Hinv)) as Hle.
  assert (1 ≤ connectionLimit cfg ≤ cf_maxRealms cfg ∧ connectionLimit cfg ≤ cf_maxConns cfg) as [[H1 H2] H3]
    by (unfold connectionLimit; case_decide; lia).
  assert (∀ c, b_serve b = SvAccept ∨ b_serve b = SvSelect c → b_slots b = busy b) as Hex.
  { intros c Hs. apply set_eq. intros c'. rewrite elem_of_busy, (bi_slots _ Hinv c'). intuition congruence. }
  split; [lia|]. split; [done|]. split.
  - intros Es. split; [apply (Hex 0%nat); by left|]. intros c. rewrite (bi_conns _ Hinv c), Es. intuition congruence.
  - intros c ch b' Es E. cbn in E. unfold serve_step, shutdown_step in E. rewrite Es in E. injection E as <-.
    rewrite <- (Hex c) by (by right). case_decide; cbn; split; intros; done || lia.
Qed.

(** One connection is being handled and a second has just arrived. *)
Definition two_arrive : list BEvent :=
  [BvServe BGo; BvServe BGo; BvServe BGo; BvServe BGo; BvServe BGo].

Lemma bridge_limit_witness : ∃ b,
  loadConfig (λ _, None) (λ _, None) small_flags = Ok small_config ∧
  b_run two_arrive (b_init small_config 0) = Some b ∧ b_serve b = SvSelect 1 ∧ connectionLimit small_config = 1 ∧
  (size (busy b) = 1)%nat ∧ ∀ ch b', b_step (BvServe ch) b = Some b' → b_serve b' = SvReject 1.
Proof.
  destruct (b_run two_arrive (b_init small_config 0)) as [b|] eqn:E; [|by vm_compute in E].
  destruct (bridge_limit (λ _, None) (λ _, None) small_flags small_config 0 b) as (_ & _ & _ & Hrej);
    [by vm_compute|by exists two_arrive|].
  vm_compute in E. injection E as <-. eexists. split; [by vm_compute|]. split; [reflexivity|]. split; [reflexivity|].
  split; [reflexivity|]. split; [by vm_compute|]. intros ch b' Hs. apply (Hrej 1%nat ch b'); [reflexivity|done|by vm_compute].
Defined.

(** ** Negotiations *)

(** C12.  Whatever the interleaving, at most one handler is between
    [LockNegotiate] and [UnlockNegotiate]; the token it takes back is its own and is
    there, so [UnlockNegotiate] neither blocks nor steals; and when it dials the
    device, at least [minNegotiateSettle] has passed since the last negotiation ended. *)
Theorem negotiation_exclusive_spaced cfg now b :
  b_reachable cfg now b →
  (∀ c1 c2 h1 h2, b_handlers b !! c1 = Some h1 → b_handlers b !! c2 = Some h2 →
    owns h1 = true → owns h2 = true → c1 = c2) ∧
  (∀ c h k ch, b_handlers b !! c = Some h → h_pc h = HFinish2 k →
    n_sem (b_negotiate b) = Some c ∧ ∃ b', b_step (BvHandle c ch) b = Some b' ∧ n_sem (b_negotiate b') = None) ∧
  (∀ c h ch b', b_handlers b !! c = Some h → owns h = false → b_step (BvHandle c ch) b = Some b' →
    n_sem (b_negotiate b') = n_sem (b_negotiate b) ∨
      (n_sem (b_negotiate b) = None ∧ n_sem (b_negotiate b') = Some c)) ∧
  (∀ c h last, b_handlers b !! c = Some h → h_pc h = HDial → n_lastNegotiate (b_negotiate b) = Some last →
    last + minNegotiateSettle ≤ b_now b).
Proof.
  intros Hb%b_reachable_inv. split; [|split; [|split]].
  - intros c1 c2 h1 h2 H1 H2 O1 O2.
    assert (n_sem (b_negotiate b) = Some c1) by (apply (bi_sem _ Hb); by exists h1).
    assert (n_sem (b_negotiate b) = Some c2) by (apply (bi_sem _ Hb); by exists h2). congruence.
  - intros c h k ch Hh Hpc. assert (n_sem (b_negotiate b) = Some c) as Hs.
    { apply (bi_sem _ Hb). exists h. split; [done|]. unfold owns. by rewrite Hpc. }
    split; [done|]. cbn. rewrite Hh. cbn. unfold handle_step, UnlockNegotiate. rewrite Hpc, Hs. cbn. by eexists.
  - intros c h ch b' Hh Ho E. cbn in E. rewrite Hh in E. cbn in E.
    destruct (handle_step_handled ch c h b b' Hb Hh E) as [h' Hd]. rewrite (hd_sem _ _ _ _ _ Hd), Ho.
    destruct (owns h') eqn:Ho'; [|by left]. right. destruct (hd_take _ _ _ _ _ Hd Ho') as [?|Hn]; [congruence|]. done.
  - intros c h last Hh Hpc Hl. pose proof (bi_settle _ Hb c h Hh last Hl) as Hs. by rewrite Hpc in Hs.
Qed.

(** Two connections are accepted; the first negotiates to the end, the second waits for
    the lock, takes it, waits for the device to settle and dials. *)
Definition second_negotiates : list BEvent :=
  [BvServe BGo; BvServe BGo; BvServe BGo; BvServe BGo; BvServe BGo; BvServe BGo; BvServe BGo; BvServe BGo;
   BvHandle 0 BGo; BvHandle 1 BGo; BvHandle 0 BGo; BvHandle 0 (BResponsive true); BvHandle 0 BGo;
   BvHandle 0 (BDialed true); BvTime 40; BvHandle 0 BGo; BvHandle 0 BGo; BvHandle 0 BGo;
   BvHandle 1 BGo; BvHandle 1 (BResponsive true); BvTime 250; BvHandle 1 BGo].

Definition wide_config : config := mkconfig (lit ":8554") (lit "SERIAL") [] [] 0 8 32 (10 * second) false.

Lemma negotiation_exclusive_spaced_witness : ∃ b,
  b_run second_negotiates (b_init wide_config 0) = Some b ∧ h_pc <$> b_handlers b !! 1%nat = Some HDial ∧
  n_lastNegotiate (b_negotiate b) = Some 40 ∧ 40 + minNegotiateSettle ≤ b_now b.
Proof.
  destruct (b_run second_negotiates (b_init wide_config 0)) as [b|] eqn:E; [|by vm_compute in E].
  destruct (negotiation_exclusive_spaced wide_config 0 b) as (_ & _ & _ & Hs); [by exists second_negotiates|].
  vm_compute in E. injection E as <-. eexists. split; [reflexivity|]. split; [reflexivity|]. split; [reflexivity|].
  eapply (Hs 1%nat); reflexivity.
Defined.

(** ** Shutdown *)

(** How many steps the handler has left, at most. *)
Definition rank (h : Handler) : nat :=
  match h_pc h with
  | HRead _ => 17 | HLock _ => 16 | HSettle => 15 | HSleep _ => 14 | HDial => 13 | HProxy _ => 12
  | HFinish1 ToCopy => 11 | HFinish2 ToCopy => 10 | HCopy => 9 | HCloseDevice => 8 | HDeferFinish => 7
  | HFinish1 ToCheck => 7 | HFinish2 ToCheck => 6 | HCheck => 5
  | HFinish1 ToCloseUp => 6 | HFinish2 ToCloseUp => 5
  | HCloseUpstream => 4 | HUntrack => 3 | HSlot => 2 | HWgDone => 1 | HGone => 0
  end.

Lemma handle_step_rank ch c h b b' : b_handlers b !! c = Some h → handle_step ch c h b = Some b' →
  ∃ h', b_handlers b' = <[c := h']> (b_handlers b) ∧ (rank h' < rank h)%nat ∧ b_serve b' = b_serve b.
Proof.
  intros Hh E. unfold handle_step, h_set, hangUp in E. destruct h as [pc once]. unfold rank. cbn [h_pc h_once] in *.
  destruct pc; try done; try (destruct ch; try done); try case_decide; try case_match; try done;
    try (apply bind_Some in E as (n & _ & E)); try (destruct once); cbn in E; rewrite ?(alter_at _ _ _ _ Hh) in E;
    injection E as <-; eexists; (split; [reflexivity|]); (split; [|done]); cbn; try lia; destruct k; cbn; lia.
Qed.

Definition total (hs : gmap nat Handler) : nat := map_fold (λ _ h n, (rank h + n)%nat) 0%nat hs.

Lemma total_insert hs c h : (total (<[c := h]> hs) = rank h + total (delete c hs))%nat.
Proof.
  rewrite <- insert_delete_eq. unfold total. rewrite map_fold_insert_L; [done|lia|]. apply lookup_delete_eq.
Qed.

Lemma total_lookup hs c h : hs !! c = Some h → (total hs = rank h + total (delete c hs))%nat.
Proof. intros Hh. rewrite <- (insert_id hs c h Hh) at 1. apply total_insert. Qed.

(** Steps that need neither the peer nor the device: time, and the handlers acting on
    connections that are closed on this side, deadlines and the failed dial. *)
Definition own (ev : BEvent) : bool :=
  match ev with
  | BvTime _ | BvServe BGo => true
  | BvHandle _ ch => match ch with BGo | BPeer | BDialed true => false | _ => true end
  | _ => false
  end.

(** Once [shutdown] waits, a handler that has not ended can go on, at once or when some
    time has passed. *)
Lemma handler_goes_on b c h :
  b_inv b → b_serve b = SvWait → b_handlers b !! c = Some h → counted h = true →
  ∃ d ch b', 0 ≤ d ∧ own (BvHandle c ch) = true ∧ b_run [BvTime d; BvHandle c ch] b = Some b' ∧
    b_serve b' = SvWait ∧ (total (b_handlers b') < total (b_handlers b))%nat.
Proof.
  intros Hinv Es Hh Hc. pose proof (bi_hung _ Hinv) as Hu. pose proof (bi_shut _ Hinv) as Hcl. rewrite Es in Hu, Hcl.
  specialize (Hcl eq_refl).
  assert (∃ d ch b', 0 ≤ d ∧ own (BvHandle c ch) = true ∧ handle_step ch c h (b <| b_now := b_now b + d |>) = Some b')
    as (d & ch & b' & Hd & Ho & E).
  { unfold handle_step. destruct (h_pc h) eqn:Hpc; try (by exists 0, BHungUp; eexists; repeat split; lia || reflexivity).
    - exists 0, BHungUp. eexists. split; [lia|]. split; [done|]. rewrite decide_True; [done|]. apply Hu.
      apply (bi_conns _ Hinv). left. exists h. split; [done|]. unfold tracked. by rewrite Hpc.
    - exists (Z.max 0 (since + negotiateTimeout - b_now b)), BTimeout. eexists. split; [lia|]. split; [done|].
      rewrite decide_True by (cbn; lia). reflexivity.
    - by exists 0, (BResponsive false); eexists.
    - exists (Z.max 0 (until - b_now b)), BHungUp. eexists. split; [lia|]. split; [done|].
      rewrite decide_True by (cbn; lia). reflexivity.
    - by exists 0, (BDialed false); eexists.
    - exists 0, BHungUp. eexists. split; [lia|]. split; [done|]. unfold broken. cbn. rewrite Hcl. reflexivity.
    - exists 0, BHungUp. assert (n_sem (b_negotiate b) = Some c) as Hs.
      { apply (bi_sem _ Hinv). exists h. split; [done|]. unfold owns. by rewrite Hpc. }
      unfold UnlockNegotiate. cbn. rewrite Hs. by eexists.
    - exists 0, BHungUp. eexists. split; [lia|]. split; [done|]. unfold broken. cbn. rewrite Hcl. reflexivity.
    - unfold counted in Hc. by rewrite Hpc in Hc. }
  eapply handle_step_rank in E as Hrank; [|exact Hh]. destruct Hrank as (h' & Hhs & Hr & Hs').
  exists d, ch, b'. split; [done|]. split; [done|]. split; [|split; [by rewrite Hs'|]].
  - cbn. rewrite decide_True by done. cbn. rewrite Hh. cbn. rewrite E. done.
  - rewrite Hhs. cbn. rewrite total_insert, (total_lookup _ _ _ Hh). lia.
Qed.

Lemma b_run_cons ev evs b b1 : b_step ev b = Some b1 → b_run (ev :: evs) b = b_run evs b1.
Proof. cbn. by intros ->. Qed.

Lemma b_run_app evs1 evs2 b b1 : b_run evs1 b = Some b1 → b_run (evs1 ++ evs2) b = b_run evs2 b1.
Proof.
  revert b. induction evs1 as [|ev evs1 IH]; cbn; intros b E; [congruence|].
  apply bind_Some in E as (b2 & -> & E). cbn. by apply IH.
Qed.

Lemma waiting_returns b : b_inv b → b_serve b = SvWait →
  ∃ evs b', Forall (λ ev, own ev = true) evs ∧ b_run evs b = Some b' ∧ b_serve b' = SvRet ∧ b_wg b' = ∅.
Proof.
  remember (total (b_handlers b)) as n eqn:Hn. revert b Hn.
  induction n as [n IH] using lt_wf_ind. intros b -> Hinv Es. destruct (decide (b_wg b = ∅)) as [Hw|Hw].
  - exists [BvServe BGo], (b <| b_serve := SvRet |>). split; [by constructor|].
    split; [|done]. cbn. unfold serve_step, shutdown_step. by rewrite Es, decide_True.
  - apply set_choose_L in Hw as [c Hc]. apply (bi_wg _ Hinv) in Hc as (h & Hh & Hc).
    destruct (handler_goes_on b c h Hinv Es Hh Hc) as (d & ch & b1 & Hd & Ho & E1 & Es1 & Hlt).
    destruct (IH _ Hlt b1 eq_refl) as (evs & b' & Hown & E & Hr); [by eapply b_run_inv|done|].
    exists ([BvTime d; BvHandle c ch] ++ evs), b'. split; [by repeat constructor|]. split; [|done].
    by rewrite (b_run_app _ _ _ _ E1).
Qed.

(** The deferred [shutdown] gets to [wg.Wait]. *)
Lemma closing_waits b : b_serve b = SvCloseClient →
  ∃ evs b', Forall (λ ev, own ev = true) evs ∧ b_run evs b = Some b' ∧ b_serve b' = SvWait.
Proof.
  intros Es. assert (∀ l b, b_serve b = SvCloseConns l →
    ∃ b', b_run (replicate (S (length l)) (BvServe BGo)) b = Some b' ∧ b_serve b' = SvWait) as Hl.
  { clear. induction l as [|c l IH]; intros b Es.
    - cbn. unfold serve_step, shutdown_step. rewrite Es. by eexists.
    - cbn [length]. rewrite replicate_S. erewrite b_run_cons; [|cbn; unfold serve_step, shutdown_step; rewrite Es; reflexivity]. by apply IH. }
  destruct (Hl (elements (b_connections b)) (b <| b_closed := true |> <| b_serve := SvCloseConns (elements (b_connections b)) |>))
    as (b' & E & Hw); [done|].
  exists (BvServe BGo :: BvServe BGo :: replicate (S (length (elements (b_connections b)))) (BvServe BGo)), b'.
  split; [do 2 (constructor; [done|]); by apply Forall_replicate|]. split; [|done].
  do 2 (erewrite b_run_cons; [|cbn; unfold serve_step, shutdown_step; rewrite ?Es; reflexivity]). exact E.
Qed.

Lemma returned_clean b : b_inv b → b_serve b = SvRet →
  b_closed b = true ∧ b_connections b = ∅ ∧ b_slots b = ∅ ∧ n_sem (b_negotiate b) = None ∧
  ∀ c h, b_handlers b !! c = Some h → h_pc h = HGone.
Proof.
  intros Hinv Es. assert (∀ c h, b_handlers b !! c = Some h → h_pc h = HGone) as Hall.
  { intros c h Hh. destruct (counted h) eqn:Hc; [|unfold counted in Hc; by destruct (h_pc h)].
    assert (c ∈ b_wg b) as Hin by (apply (bi_wg _ Hinv); by exists h). by rewrite (bi_ret _ Hinv Es) in Hin. }
  assert (∀ P, (∀ h, h_pc h = HGone → P h = false) → ∀ c, ¬ at_handler P (b_handlers b) c) as Hno.
  { intros P HP c (h & Hh & Ht). rewrite HP in Ht; [done|]. by eapply Hall. }
  split; [apply Hinv; by rewrite Es|]. split; [|split; [|split; [|done]]].
  - apply set_eq. intros c. rewrite (bi_conns _ Hinv c), Es. split; [|set_solver].
    intros [H|?]; [|done]. exfalso. revert H. apply Hno. intros h E. unfold tracked. by rewrite E.
  - apply set_eq. intros c. rewrite (bi_slots _ Hinv c), Es. split; [|set_solver].
    intros [H|[?|?]]; [|done..]. exfalso. revert H. apply Hno. intros h E. unfold has_slot. by rewrite E.
  - destruct (n_sem (b_negotiate b)) as [c|] eqn:E; [|done].
    apply (bi_sem _ Hinv) in E. exfalso. revert E. apply Hno. intros h E. unfold owns. by rewrite E.
Qed.

(** C10.  However [serve] comes to return, the deferred [shutdown] ends:
    from the moment [shutdown] starts, the bridge can get to where [serve] has returned by
    steps that need nothing from the peers or the device, however many handlers there
    are and wherever each is; once [shutdown] waits, no run of the handlers is longer
    than [total], so none of them can go on for ever; and when [serve] has returned
    every handler has ended, has closed its connection and has given back its slot
    and the negotiation lock. *)
Theorem shutdown_completes cfg now b :
  b_reachable cfg now b →
  (b_serve b = SvCloseClient →
    ∃ evs b', Forall (λ ev, own ev = true) evs ∧ b_run evs b = Some b' ∧ b_serve b' = SvRet) ∧
  (b_serve b = SvWait → ∀ c ch b', b_step (BvHandle c ch) b = Some b' →
    b_serve b' = SvWait ∧ (total (b_handlers b') < total (b_handlers b))%nat) ∧
  (b_serve b = SvRet → b_closed b = true ∧ b_connections b = ∅ ∧ b_slots b = ∅ ∧ n_sem (b_negotiate b) = None ∧
    ∀ c h, b_handlers b !! c = Some h → h_pc h = HGone).
Proof.
  intros Hb%b_reachable_inv. split; [|split].
  - intros Es. destruct (closing_waits b Es) as (evs1 & b1 & Ho1 & E1 & Es1).
    destruct (waiting_returns b1) as (evs2 & b2 & Ho2 & E2 & Es2 & _); [by eapply b_run_inv|done|].
    exists (evs1 ++ evs2), b2. split; [by apply Forall_app|]. by rewrite (b_run_app _ _ _ _ E1).
  - intros Es c ch b' E. cbn in E. apply bind_Some in E as (h & Hh & E).
    destruct (handle_step_rank _ _ _ _ _ Hh E) as (h' & -> & Hr & ->). split; [done|].
    rewrite total_insert, (total_lookup _ _ _ Hh). lia.
  - intros Es. by apply returned_clean.
Qed.

(** A signal arrives while one handler negotiates and another waits for the lock. *)
Definition signalled : list BEvent :=
  [BvServe BGo; BvServe BGo; BvServe BGo; BvServe BGo; BvServe BGo; BvServe BGo; BvServe BGo; BvServe BGo;
   BvHandle 0 BGo; BvHandle 1 BGo; BvHandle 0 BGo; BvHandle 0 (BResponsive true); BvHandle 0 BGo;
   BvHandle 0 (BDialed true); BvCancel; BvListener; BvServe BHungUp].

Lemma shutdown_completes_witness : ∃ b,
  b_run signalled (b_init wide_config 0) = Some b ∧ h_pc <$> b_handlers b !! 0%nat = Some (HProxy 0) ∧
  h_pc <$> b_handlers b !! 1%nat = Some (HLock 0) ∧
  ∃ evs b', Forall (λ ev, own ev = true) evs ∧ b_run evs b = Some b' ∧ b_serve b' = SvRet.
Proof.
  destruct (b_run signalled (b_init wide_config 0)) as [b|] eqn:E; [|by vm_compute in E].
  destruct (shutdown_completes wide_config 0 b) as (Hs & _); [by exists signalled|].
  vm_compute in E. injection E as <-. eexists. split; [reflexivity|]. split; [reflexivity|]. split; [reflexivity|].
  by apply Hs.
Defined.
